(* ===== verification/_CoqProject ===== *)
-Q . S2P
Prelude.v
Reader.v
Writer.v
Names.v
Header.v
Message.v
Poller.v
EventLoop.v
LoopRun.v
ThreadPool.v
Task.v
Lifecycle.v
Signal.v
AsyncSignal.v
Net.v
Descriptor.v
Standalone.v
Facade.v
Inspect.v
Testing.v
WireTests.v
TcpSocket.v
TcpConcurrent.v
TcpSteps.v
TcpLink.v
TcpProgress.v
Echo.v
TcpServer.v
TcpNet.v
Reactor.v
UdpPeer.v
DnsClient.v
DnsDeadlines.v
DnsServer.v
Examples.v
Bench.v
BenchClient.v
BenchAsio.v
BenchServer.v
