(* ===== verification/Prelude.v ===== *)
(** * LambdaTech Networking: a verification development

    The program is a header-only C++23 networking library
    (src/include/lambdatech/networking) in the style of Node.js: one event
    loop thread polls descriptors and calls back TCP sockets and servers, UDP
    peers, and a DNS client and server built on the peers.  This library models
    its code function by function and proves what makes it correct.

    ** Parts and files

    - [Prelude]: machine integers as [Z] with the wrap-around written out,
      bytes, the outcome type [exec] of C++ code (a value, undefined behaviour,
      or an exhausted iteration bound) with its notation, [post] (no undefined
      behaviour, and a postcondition), shared lemmas and tactics.
    - [Reader], [Writer], [Names], [Header], [Message]: the DNS wire format
      (protocol/dns/wire/reader.hpp, wire/writer.hpp, header.hpp, message.hpp).
      [Names] has the grammar of (compressed) names as an inductive relation
      and a reference encoder the writer's loop is compared with.
    - [Poller], [EventLoop]: core/poller_events.hpp, the poll(2) backend
      core/impl/posix/poller.hpp and core/event_loop.hpp.  [EventLoop.iterate]
      is one turn of the loop thread over any state that contains a loop
      (class [HasLoop]), so callbacks are arbitrary code.
    - [LoopRun]: the loop as a transition system with one step per critical
      section or callback, so that calls of other threads interleave freely:
      a call changes the tables under the lock in one step and the poller
      after releasing it in another, and a turn polls, takes the deferred
      functions, and takes due timers in separate steps.
    - [ThreadPool], [Task]: core/thread_pool.hpp and core/task.hpp as
      transition systems; in the pool the condition variable is part of the
      state, with notifications that come after the mutex is released, blocked
      workers and spurious wake-ups.
    - [Lifecycle]: [event_loop::start], [stop] and [run] with the task that
      owns the thread and the poll it sleeps in, one step per atomic operation
      or critical section.
    - [Signal]: core/signal.hpp and core/event.hpp, with list nodes that have
      identities so that iterators can dangle.  [AsyncSignal]:
      [signal::emit_async], the snapshot of the slots submitted to the pool of
      [ThreadPool] and run by its workers.
    - [Net]: the vocabulary headers of core/ and the POSIX backends of
      descriptor, socket_ops, endpoint and resolver.  System calls are the
      class [Kernel]; [KernelLaws] states the documented facts the code relies
      on, [KernelProgress] that pending input and interruptions are finite,
      and [DatagramKernel] which datagrams recvfrom and sendto passed.
      [Net.Tap] makes a kernel that keeps this record out of any other;
      [Net.Scripted] is a concrete kernel satisfying all of them, on which the
      witnesses run.
    - [Descriptor]: the owning handle of core/impl/posix/descriptor.hpp as
      objects with identities, against the table of open descriptors.
    - [Standalone]: the scaffold backends of core/impl/standalone.
    - [Facade]: core/config.hpp and the facades that pick a backend at compile
      time (descriptor, socket_ops, resolver, poller).  What the static
      assertions ask of a backend is a record of operations; the classes
      [PollerBackend] and [PollerLaws] say what the event loop may expect of a
      poller; both backends are instances.
    - [Inspect]: the tool tools/lnw-dns-inspect as a function from its input to
      its output.
    - [Testing]: the testing facility (include/.../testing, tests/main.cpp):
      checks, cases, groups and the runner with its child processes; the
      bodies of the cases are parameters.  [WireTests]: the bodies of the cases
      about the wire format, run on the modelled reader, writer and message.
    - [TcpSocket], [TcpServer]: protocol/tcp/socket.hpp and server.hpp, each
      on its own and called from one thread at a time.
    - [TcpConcurrent]: the same socket with its mutex, called from any number
      of threads: a method in progress is a stack of frames, and a schedule
      picks which thread takes the next step.  Inside a critical section, too,
      every access to the output buffer and its offset and every system call
      is a step of its own, so that only the lock keeps threads apart.
    - [TcpSteps]: a proof principle for assertions about an established
      socket: the elementary steps its methods take, as classes.
    - [TcpLink]: two connected sockets with a network in between; the class
      [StreamKernel] says what TCP promises about a descriptor, and
      [TcpLink.StreamHost] is an instance.  [TcpProgress]: delivery over such
      a link, under the readiness a kernel reports (class [LiveKernel]).
      [Echo]: applications that only write, in particular those that echo,
      alone and over a link.
    - [TcpNet]: a server together with the connections it accepted, each a
      full socket of [TcpSocket] in one world with one loop and one kernel.
    - [Reactor]: the same driven by turns of [EventLoop.iterate], with
      descriptor numbers that the kernel reuses (class [FdKernel], instance
      [Reactor.FdTable]) and with the destructors of the server and of
      connections, which leave their descriptors watched.  Listeners, deferred
      functions and timers are code of the application, which may call and let
      go of everything; entering an object that is gone is undefined.
    - [UdpPeer]: protocol/udp/peer.hpp.
    - [DnsClient], [DnsServer]: protocol/dns/client.hpp and server.hpp, as the
      code above a peer: their state is the [env] of the peer's world.
      [DnsServer] also puts a client and a server together for one query and
      its reply.  [DnsDeadlines]: the timeouts of the client, and the query that
      never gets any because its id is taken.
    - [Examples]: the programs examples/lnw-example-tcp-echo.cpp and
      lnw-example-dns-dig.cpp on top of [TcpLink] and [DnsClient], with the
      wait of [main] for its future.
    - [Bench], [BenchClient], [BenchServer]: benchmarks/cpp: the command line,
      the histogram, the frames and the result (bench_common.hpp); the
      listeners of the TCP and UDP client (lnw_echo_client.cpp) and of the
      servers (lnw_echo_server.cpp).  [BenchAsio]: the same programs on
      Boost.Asio (asio_echo_client.cpp, asio_echo_server.cpp), as handlers of
      completions that come in any order.

    ** Modelling conventions

    A component is a [Record] of its data members; a method is a function on a
    [world] that holds the component, the event loop, the kernel and the state
    of the code above, plus a history of events and transfers that no code
    reads.  Listeners are called synchronously in the code and may call the
    component again.  Each component section takes them as a variable; its
    lemmas assume only that they keep the invariant; [react] then ties the knot
    for an arbitrary application, given as a function from events to programs
    of calls that may branch on results.  The theorems hold for every such
    application and every sequence of stimuli.

    A [while] loop of the code that is not structural takes fuel, one unit per
    iteration; running out of it is the value [OutOfFuel], never a normal
    result.  Theorems of termination give the bound: buffered bytes plus
    pending kernel work for the TCP loops, pending kernel work for the UDP
    loop, the length of the name for the writer; the reader's loop carries the
    source's own iteration cap, proved never to reject a well-formed name.
    Nesting of listeners is bounded by [depth] in the same way.

    ** What the theorems show

    - Wire format: parsing any datagram terminates without leaving the buffer;
      names are read exactly when the grammar derives them and written exactly
      when they are spelled by legal labels, with the bytes of the reference
      encoder; names, headers and messages round trip; a parsed message can be
      re-encoded; section counts wrap at 16 bits.
    - Event loop: poller and callbacks agree; deferred functions run once and
      in order, timers once and not early, under every interleaving; a turn
      terminates; no wake-up is lost; the sequential turn refines the
      interleaving system; a stop that does not overlap a start completes.
    - TCP: stream integrity, the descriptor life cycle, no stuck output, the
      result of [write], termination of a readiness report.  The server
      announces every accepted connection once and in order.  Under every
      schedule of concurrent calls, the mutex protects the members, the bytes
      sent are a prefix of the bytes accepted in lock order, and a descriptor
      is closed at most once; running calls one after the other is one of the
      schedules.  A server's connections keep their invariants whatever
      happens to the others, and a dropped connection leaves the server's list;
      driven by the loop, each open connection is registered under its own
      descriptor and for nothing else, and an object that was destroyed is never
      used again, whatever it left watched.  Two connected sockets are a pair of byte
      channels: nothing is lost, duplicated or reordered, and everything
      written arrives once the applications let it.
    - Descriptors: closed exactly once, whatever is moved, released or
      destroyed.
    - UDP: datagrams are announced exactly as recvfrom returned them; a
      successful send departs once; the peer then reads, unless the kernel
      refused non-blocking mode; the read loop ends.
    - DNS: no query is forgotten or answered twice and each waiting one has a
      timer; once its deadline has passed it is answered; the server survives
      any traffic and announces what it was asked; a query and its reply find
      each other.
    - Thread pool: first-in first-out per level, strict priority, no wake-up
      lost; every schedule runs everything that was submitted.  Tasks: a stop returns, a pause holds.
      Signals: emission order, safe handles; an asynchronous emission calls
      each slot of its snapshot once.
    - Facades: one backend is always selected; both pollers refine one abstract
      poller of interests and a pending wake-up, the poll(2) one exactly:
      everything ready and watched is reported, also around failed polls.
    - Examples: the echo server returns what a connection received, in order,
      and the client prints the greeting or the beginning of it; the lookup
      program sets its promise once and exits.  Benchmarks: every sample is the
      round trip of its own frame, the pipeline stays full, percentiles are
      order statistics of the samples, the Asio client never overlaps writes.
      Tests: the exit status says whether every case passed; the cases about
      the wire format do.
    - Edges where the code does not do what it means to are theorems too, at
      the end of each file (half-close from a drain listener, id collisions,
      interrupted polls, listeners that write on error, and others).

    ** Not modelled

    Boost.Asio itself; the text [printf] makes of a [double] and the sleeping of
    [main] in the benchmarks.  The bodies of the test cases that need sockets
    and threads.  The C++ memory model: [TcpConcurrent] and [Lifecycle]
    interleave critical sections, accesses outside a lock are single steps.
    [udp::peer] and [dns::client] have no lock and are called from one thread:
    calling them from two is a data race, which has no behaviour to model.
    [TcpNet] does not let the application call [connect] on an accepted
    connection, and in [Reactor] it lets go of objects between callbacks, not
    inside them.  [TcpLink] starts from an established connection: how [connect]
    and [accept] meet is the kernel's doing, and what each socket does before is
    in [TcpSocket] and [TcpServer].  The programs of [Examples] are modelled
    without the start and stop of the loop thread, which are those of
    [Lifecycle], and [dns_dig.main] makes its query before the loop thread does
    anything with the client, which the program does not ensure.  A failing
    eventfd(2) in the constructor of the poller, which leaves a loop that
    cannot be woken; [event_loop::stop] called on the loop thread, which would
    join itself; exceptions thrown by slots and listeners, which leave [emit]
    and end the loop thread. *)

From Stdlib Require Export ZArith Lia ZifyBool.
From stdpp Require Export base numbers list sets gmap.
From Stdlib Require Strings.Byte Strings.String.
Export String.StringSyntax.

#[global] Open Scope Z_scope.

(** ** Machine integers and bytes

    A [w]-bit unsigned integer is a [Z]; conversions to it are written out
    as the reduction modulo [2 ^ w] that C++ performs.  [std::byte], [char]
    and [std::uint8_t] storage is [Byte.byte]. *)

Abbreviation byte := Byte.byte.
Abbreviation bytes := (list byte).

Definition u8 (z : Z) : Z := z mod 2 ^ 8.
Definition u16 (z : Z) : Z := z mod 2 ^ 16.
Definition u32 (z : Z) : Z := z mod 2 ^ 32.
Definition u64 (z : Z) : Z := z mod 2 ^ 64.

Definition is_u8 (z : Z) : Prop := 0 <= z < 2 ^ 8.
Definition is_u16 (z : Z) : Prop := 0 <= z < 2 ^ 16.
Definition is_u32 (z : Z) : Prop := 0 <= z < 2 ^ 32.

(** [static_cast<std::uint8_t>(b)] for a [std::byte] or [char] [b]. *)
Definition byte_val (b : byte) : Z := Z.of_N (Byte.to_N b).

(** [static_cast<std::byte>(v)]: the value is reduced modulo 256 first. *)
Definition to_byte (z : Z) : byte :=
  match Byte.of_N (Z.to_N (u8 z)) with
  | Some b => b
  | None => Byte.x00
  end.

(** A string literal of the source as the bytes it denotes. *)
Definition str (s : String.string) : bytes := String.list_byte_of_string s.
Arguments str s%_string_scope.

#[export] Instance byte_eq_dec : EqDecision Byte.byte := Byte.byte_eq_dec.

Lemma byte_val_range b : 0 <= byte_val b < 256.
Proof.
  unfold byte_val. pose proof (Byte.to_N_bounded b). lia.
Qed.

Lemma byte_val_to_byte z : byte_val (to_byte z) = u8 z.
Proof.
  unfold to_byte, byte_val, u8.
  pose proof (Z.mod_pos_bound z (2 ^ 8) eq_refl).
  destruct (Byte.of_N _) as [b|] eqn:E.
  - apply Byte.to_of_N in E. rewrite E. lia.
  - apply Byte.of_N_None_iff in E. lia.
Qed.

Lemma byte_val_inj a b : byte_val a = byte_val b -> a = b.
Proof.
  unfold byte_val. intros H%N2Z.inj.
  pose proof (Byte.of_to_N a). pose proof (Byte.of_to_N b). congruence.
Qed.

Lemma u8_byte_val b : u8 (byte_val b) = byte_val b.
Proof. apply Z.mod_small, byte_val_range. Qed.

Lemma to_byte_val b : to_byte (byte_val b) = b.
Proof. apply byte_val_inj. by rewrite byte_val_to_byte, u8_byte_val. Qed.

Lemma u8_small z : 0 <= z < 256 -> u8 z = z.
Proof. apply Z.mod_small. Qed.
Lemma u16_small z : is_u16 z -> u16 z = z.
Proof. apply Z.mod_small. Qed.
Lemma u32_small z : is_u32 z -> u32 z = z.
Proof. apply Z.mod_small. Qed.
Lemma u64_small z : 0 <= z < 2 ^ 64 -> u64 z = z.
Proof. apply Z.mod_small. Qed.

Lemma testbit_high z n i : 0 <= z < 2 ^ n -> 0 <= n <= i -> Z.testbit z i = false.
Proof.
  intros Hz Hn. rewrite <- (Z.mod_small z (2 ^ n)) by done.
  apply Z.mod_pow2_bits_high. lia.
Qed.

(** Joining a shifted high part and a low part with [|] adds them. *)
Lemma lor_shiftl_add a b n :
  0 <= n -> 0 <= b < 2 ^ n -> Z.lor (Z.shiftl a n) b = a * 2 ^ n + b.
Proof.
  intros Hn Hb. rewrite <- Z.shiftl_mul_pow2 by done.
  assert (Z.land (Z.shiftl a n) b = 0) as E.
  { apply Z.bits_inj'. intros i Hi. rewrite Z.land_spec, Z.bits_0.
    destruct (Z.ltb_spec i n).
    - by rewrite Z.shiftl_spec_low.
    - by rewrite (testbit_high b n i), andb_false_r by lia. }
  pose proof (Z.add_lor_land (Z.shiftl a n) b). lia.
Qed.

(** ** Outcomes of executing C++ code

    [Done a]: the code ran to the end with value [a].  [Undef]: it performed
    an operation the language leaves undefined (an out-of-bounds access, an
    invalid iterator).  [OutOfFuel]: the iteration bound given to a loop of
    the model was too small; theorems of totality show it is never the
    answer. *)

Inductive exec (A : Type) : Type :=
  | Done (a : A)
  | Undef
  | OutOfFuel.
Arguments Done {A} a.
Arguments Undef {A}.
Arguments OutOfFuel {A}.

Definition exec_bind {A B} (m : exec A) (k : A -> exec B) : exec B :=
  match m with
  | Done a => k a
  | Undef => Undef
  | OutOfFuel => OutOfFuel
  end.

Declare Scope exec_scope.
Delimit Scope exec_scope with exec.
Notation "'do' x ':=' m 'in' k" := (exec_bind m (fun x => k))
  (at level 10, x pattern, m at level 100, k at level 200) : exec_scope.
#[global] Open Scope exec_scope.

Lemma exec_bind_done {A B} (m : exec A) (k : A -> exec B) b :
  exec_bind m k = Done b -> exists a, m = Done a /\ k a = Done b.
Proof. destruct m; simpl; intros; try discriminate. eauto. Qed.

Lemma exec_bind_assoc {A B C} (m : exec A) (k : A -> exec B) (k' : B -> exec C) :
  exec_bind (exec_bind m k) k' = exec_bind m (fun a => exec_bind (k a) k').
Proof. by destruct m. Qed.

(** [post m Q]: [m] performs no undefined operation, and if it ends, [Q]
    holds of its value. *)
Definition post {A} (m : exec A) (Q : A -> Prop) : Prop :=
  match m with
  | Done a => Q a
  | Undef => False
  | OutOfFuel => True
  end.

Lemma post_mono {A} (m : exec A) (P Q : A -> Prop) : post m P -> (forall a, P a -> Q a) -> post m Q.
Proof. destruct m; simpl; auto. Qed.

Lemma post_bind {A B} (m : exec A) (k : A -> exec B) (P : A -> Prop) (Q : B -> Prop) :
  post m P -> (forall a, P a -> post (k a) Q) -> post (exec_bind m k) Q.
Proof. destruct m; simpl; auto. Qed.

Lemma post_done {A} (m : exec A) (Q : A -> Prop) a : post m Q -> m = Done a -> Q a.
Proof. by intros ? ->. Qed.

(** ** Checked memory access *)

(** [span[i]], [vector[i]]: undefined past the end. *)
Definition at_ {A} (l : list A) (i : nat) : exec A :=
  match l !! i with
  | Some x => Done x
  | None => Undef
  end.

(** The bytes at [off .. off+len-1]; undefined when the range leaves the
    buffer. *)
Definition slice {A} (l : list A) (off len : nat) : exec (list A) :=
  if (off + len <=? length l)%nat then Done (take len (drop off l)) else Undef.

Lemma at_done {A} (l : list A) i x : l !! i = Some x -> at_ l i = Done x.
Proof. unfold at_. by intros ->. Qed.

Lemma at_lt {A} (l : list A) i : (i < length l)%nat -> exists x, l !! i = Some x /\ at_ l i = Done x.
Proof.
  intros [x Hx]%lookup_lt_is_Some_2. exists x. split; [done|]. by apply at_done.
Qed.

Lemma slice_done {A} (l : list A) off len :
  (off + len <= length l)%nat -> slice l off len = Done (take len (drop off l)).
Proof. intros H. unfold slice. by rewrite (proj2 (Nat.leb_le _ _) H). Qed.

(** ** Lists *)

(** Pigeonhole: distinct indices below [n] are at most [n] many. *)
Lemma NoDup_below_length (l : list nat) n :
  NoDup l -> Forall (fun i => (i < n)%nat) l -> (length l <= n)%nat.
Proof.
  intros Hnd Hall.
  replace n with (length (seq 0 n)) by apply length_seq. apply submseteq_length, NoDup_submseteq; [done|].
  intros i Hi. apply elem_of_seq. rewrite Forall_forall in Hall.
  specialize (Hall i Hi). lia.
Qed.

Lemma drop_lookup_cons {A} (l : list A) i x : l !! i = Some x -> drop i l = x :: drop (S i) l.
Proof. intros H. by apply drop_S. Qed.

Lemma NoDup_fmap_inj {A B} (f : A -> B) (l : list A) x y :
  NoDup (f <$> l) -> x ∈ l -> y ∈ l -> f x = f y -> x = y.
Proof.
  induction l as [|z l IH]; simpl; [by intros _ ?%not_elem_of_nil|].
  rewrite NoDup_cons, !elem_of_cons, list_elem_of_fmap. intros [Hz Hl] [->|Hx] [->|Hy] Hf; [done| | |auto].
  - destruct Hz. eauto.
  - destruct Hz. eauto.
Qed.

(** Exchanging one summand. *)
Lemma sum_list_with_insert {A} (f : A -> nat) (l : list A) i x y :
  l !! i = Some x -> (sum_list_with f (<[i := y]> l) + f x = sum_list_with f l + f y)%nat.
Proof.
  revert i. induction l as [|z l IH]; intros [|i] E; simplify_eq/=; [lia|]. specialize (IH i E). lia.
Qed.

Section filter.
Context {A : Type} (P : A -> Prop) `{!forall x, Decision (P x)}.

Lemma Forall_filter_keep (Q : A -> Prop) (l : list A) : Forall Q l -> Forall Q (filter P l).
Proof. rewrite !Forall_forall. intros HQ x [_ Hx]%list_elem_of_filter. auto. Qed.

Lemma filter_ext_elem (Q : A -> Prop) `{!forall x, Decision (Q x)} (l : list A) :
  (forall x, x ∈ l -> P x <-> Q x) -> filter P l = filter Q l.
Proof.
  induction l as [|x l IH]; intros HPQ; [done|]. rewrite !filter_cons.
  rewrite IH by (intros y Hy; apply HPQ; by right). pose proof (HPQ x (list_elem_of_here _ _)).
  do 2 case_decide; tauto.
Qed.

Lemma NoDup_fmap_filter {B} (f : A -> B) (l : list A) : NoDup (f <$> l) -> NoDup (f <$> filter P l).
Proof. intros Hnd. eapply sublist_NoDup; [exact Hnd|]. apply fmap_sublist, sublist_filter. Qed.
End filter.

(** ** Automation *)

(** Splits a boolean test into the arithmetic fact it decides. *)
Ltac split_test c :=
  let G := fresh "G" in
  lazymatch c with
  | (?a <? ?b)%nat => destruct (Nat.ltb_spec a b) as [G|G]
  | (?a <=? ?b)%nat => destruct (Nat.leb_spec a b) as [G|G]
  | (?a =? ?b)%nat => destruct (Nat.eqb_spec a b) as [G|G]
  | (?a <? ?b)%Z => destruct (Z.ltb_spec a b) as [G|G]
  | (?a <=? ?b)%Z => destruct (Z.leb_spec a b) as [G|G]
  | (?a =? ?b)%Z => destruct (Z.eqb_spec a b) as [G|G]
  | negb ?d => split_test d
  | andb ?d ?e => split_test d
  | orb ?d ?e => split_test d
  | bool_decide ?P => destruct (bool_decide_reflect P) as [G|G]
  | _ => destruct c eqn:G
  end.

(** Takes one branch of the code: the outermost conditional of the goal (or
    of a hypothesis) is split on its guard. *)
Ltac branch :=
  match goal with
  | |- context [if ?c then _ else _] => split_test c
  end; cbn [negb andb orb].

Ltac branch_in H :=
  match type of H with
  | context [if ?c then _ else _] => split_test c
  end; cbn [negb andb orb] in H.

Create HintDb net discriminated.
Create Rewrite HintDb net.
#[export] Hint Resolve byte_val_range : net.
#[export] Hint Rewrite byte_val_to_byte u8_byte_val to_byte_val : net.
