(* ===== verification/Reader.v ===== *)
(** * [dns::wire::reader]

    The forward-only cursor over a DNS message
    (include/lambdatech/networking/protocol/dns/wire/reader.hpp).  The state
    is the span and the cursor; every read returns the optional value
    together with the reader it leaves behind, inside [exec], where [Undef]
    is an access outside the span. *)

From S2P Require Import Prelude.
#[local] Open Scope Z_scope.

Record reader := mk_reader { buffer_ : bytes; position_ : nat }.

Definition new_reader (buf : bytes) : reader := mk_reader buf 0.

Definition position (r : reader) : nat := position_ r.

(** [buffer_.size() - position_] in [std::size_t]: it wraps when the cursor
    was moved past the end. *)
Definition remaining (r : reader) : Z :=
  u64 (Z.of_nat (length (buffer_ r)) - Z.of_nat (position_ r)).

Definition at_end (r : reader) : bool := (length (buffer_ r) <=? position_ r)%nat.

Definition seek (r : reader) (p : nat) : reader := mk_reader (buffer_ r) p.

Definition advance (r : reader) (n : nat) : reader := seek r (position_ r + n).

Definition read_u8 (r : reader) : exec (option Z * reader) :=
  if remaining r <? 1 then Done (None, r)
  else
    do b := at_ (buffer_ r) (position_ r) in
    Done (Some (byte_val b), advance r 1).

Definition read_u16 (r : reader) : exec (option Z * reader) :=
  if remaining r <? 2 then Done (None, r)
  else
    do hi := at_ (buffer_ r) (position_ r) in
    do lo := at_ (buffer_ r) (position_ r + 1) in
    let value := u16 (Z.lor (Z.shiftl (byte_val hi) 8) (byte_val lo)) in
    Done (Some value, advance r 2).

(** The [for (int i = 0; i < 4; ++i)] loop of [read_u32], from index [i] with
    [n] rounds left. *)
Fixpoint read_be (buf : bytes) (pos i n : nat) (value : Z) : exec Z :=
  match n with
  | O => Done value
  | S n' =>
      do b := at_ buf (pos + i) in
      read_be buf pos (S i) n' (u32 (Z.lor (u32 (Z.shiftl value 8)) (byte_val b)))
  end.

Definition read_u32 (r : reader) : exec (option Z * reader) :=
  if remaining r <? 4 then Done (None, r)
  else
    do value := read_be (buffer_ r) (position_ r) 0 4 0 in
    Done (Some value, advance r 4).

Definition read_bytes (r : reader) (count : nat) : exec (option bytes * reader) :=
  if remaining r <? Z.of_nat count then Done (None, r)
  else
    do s := slice (buffer_ r) (position_ r) count in
    Done (Some s, advance r count).

(** The [while (safety-- > 0)] loop of [read_name]: [pos] is [position_],
    which the loop moves at most once; the result is the name or nullopt
    and the final [position_]. *)
Fixpoint name_loop (safety : nat) (buf : bytes) (pos cursor : nat) (jumped : bool)
    (name : bytes) : exec (option bytes * nat) :=
  match safety with
  | O => Done (None, pos)
  | S safety' =>
      if (length buf <=? cursor)%nat then Done (None, pos)
      else
        do lb := at_ buf cursor in
        let len := byte_val lb in
        if Z.land len 0xC0 =? 0xC0 then
          if (length buf <=? cursor + 1)%nat then Done (None, pos)
          else
            do lo := at_ buf (cursor + 1) in
            let target := Z.to_nat (Z.lor (Z.shiftl (Z.land len 0x3F) 8) (byte_val lo)) in
            let pos' := if jumped then pos else (cursor + 2)%nat in
            name_loop safety' buf pos' target true name
        else if negb (Z.land len 0xC0 =? 0) then Done (None, pos)
        else
          let cursor1 := (cursor + 1)%nat in
          if len =? 0 then Done (Some name, if jumped then pos else cursor1)
          else if (length buf <? cursor1 + Z.to_nat len)%nat then Done (None, pos)
          else
            let name1 := match name with [] => name | _ => name ++ str "." end in
            do label := slice buf cursor1 (Z.to_nat len) in
            name_loop safety' buf pos (cursor1 + Z.to_nat len) jumped (name1 ++ label)
  end.

Definition read_name (r : reader) : exec (option bytes * reader) :=
  do (name, pos) := name_loop (length (buffer_ r)) (buffer_ r) (position_ r) (position_ r) false [] in
  Done (name, seek r pos).

(** ** The cursor invariant *)

(** The cursor is inside the span (or at its end), and the span has a size a
    C++ object can have. *)
Definition reader_ok (r : reader) : Prop :=
  (position_ r <= length (buffer_ r))%nat /\ Z.of_nat (length (buffer_ r)) < 2 ^ 63.

Definition buf_ok (buf : bytes) : Prop := Z.of_nat (length buf) < 2 ^ 63.

Lemma new_reader_ok buf : buf_ok buf -> reader_ok (new_reader buf).
Proof. unfold buf_ok, reader_ok; simpl. lia. Qed.

Lemma remaining_ok r :
  reader_ok r -> remaining r = Z.of_nat (length (buffer_ r)) - Z.of_nat (position_ r).
Proof. intros [??]. apply u64_small. lia. Qed.

(** What one read may do: it finishes, stays in the span, leaves the span
    alone and never moves the cursor backwards. *)
Definition well_behaved {A} (r : reader) (res : exec (option A * reader)) : Prop :=
  exists v r', res = Done (v, r') /\ reader_ok r' /\ buffer_ r' = buffer_ r /\
    (position_ r <= position_ r')%nat.

Lemma advance_ok r n :
  reader_ok r -> (position_ r + n <= length (buffer_ r))%nat -> reader_ok (advance r n).
Proof. unfold reader_ok, advance; simpl. lia. Qed.

Lemma well_behaved_none {A} r : reader_ok r -> well_behaved (A:=A) r (Done (None, r)).
Proof. intros. exists None, r. eauto. Qed.

Lemma well_behaved_some {A} r n (v : A) :
  reader_ok r -> (position_ r + n <= length (buffer_ r))%nat ->
  well_behaved r (Done (Some v, advance r n)).
Proof.
  intros. exists (Some v), (advance r n). split_and!; auto using advance_ok. simpl. lia.
Qed.

#[export] Hint Resolve well_behaved_none well_behaved_some new_reader_ok : net.

(** Finds the byte at an in-range index of the goal. *)
Ltac read_at :=
  match goal with
  | |- context [at_ ?l ?i] =>
      let b := fresh "b" in let Hb := fresh "Hb" in let E := fresh "E" in
      destruct (at_lt l i) as (b & Hb & E); [simpl in *; lia | rewrite E; simpl]
  end.

Lemma read_u8_behaved r : reader_ok r -> well_behaved r (read_u8 r).
Proof.
  intros Hok. unfold read_u8. rewrite remaining_ok by done. branch; auto with net.
  read_at. apply well_behaved_some; [done|lia].
Qed.

Lemma read_u16_behaved r : reader_ok r -> well_behaved r (read_u16 r).
Proof.
  intros Hok. unfold read_u16. rewrite remaining_ok by done. branch; auto with net.
  do 2 read_at. apply well_behaved_some; [done|lia].
Qed.

Lemma read_be_done buf pos n : forall i value,
  (pos + i + n <= length buf)%nat -> exists v, read_be buf pos i n value = Done v.
Proof.
  induction n as [|n IH]; intros i value H; simpl; [eauto|].
  read_at. apply IH. lia.
Qed.

Lemma read_u32_behaved r : reader_ok r -> well_behaved r (read_u32 r).
Proof.
  intros Hok. unfold read_u32. rewrite remaining_ok by done. branch; auto with net.
  destruct (read_be_done (buffer_ r) (position_ r) 4 0 0) as [v ->]; [lia|].
  apply well_behaved_some; [done|lia].
Qed.

Lemma read_bytes_behaved r n : reader_ok r -> well_behaved r (read_bytes r n).
Proof.
  intros Hok. unfold read_bytes. rewrite remaining_ok by done. branch; auto with net.
  rewrite slice_done by lia. apply well_behaved_some; [done|lia].
Qed.

(** The loop stays in the span from any cursor; [position_] ends inside the
    span, at or after where it was, if the un-jumped cursor was. *)
Lemma name_loop_behaved safety : forall buf pos cursor jumped name,
  (pos <= length buf)%nat -> (jumped = false -> (pos <= cursor)%nat) ->
  exists v pos', name_loop safety buf pos cursor jumped name = Done (v, pos') /\
    (pos <= pos' <= length buf)%nat.
Proof.
  induction safety as [|safety IH]; intros buf pos cursor jumped name Hpos Hcur; simpl; [eauto with lia|].
  branch; [eauto with lia|]. read_at.
  branch.
  { branch; [eauto with lia|]. read_at.
    edestruct IH as (v & pos' & -> & ?); [| |exists v, pos'; split; [done|]]; destruct jumped; try done; lia. }
  branch; [|eauto with lia].
  branch.
  { eexists _, _. split; [done|]. destruct jumped; [lia|]. specialize (Hcur eq_refl). lia. }
  branch; [eauto with lia|]. rewrite slice_done by lia. simpl.
  apply IH; [done|]. intros Hj. specialize (Hcur Hj). lia.
Qed.

Lemma read_name_behaved r : reader_ok r -> well_behaved r (read_name r).
Proof.
  intros [Hp Hs]. unfold read_name.
  destruct (name_loop_behaved (length (buffer_ r)) (buffer_ r) (position_ r) (position_ r) false [])
    as (v & pos' & -> & ?); [done|lia|].
  simpl. eexists _, _. split; [done|]. unfold reader_ok; simpl. split_and!; auto; lia.
Qed.

#[export] Hint Resolve read_u8_behaved read_u16_behaved read_u32_behaved read_bytes_behaved
  read_name_behaved : net.

(** ** Sequences of reads *)

(** One call on a reader. *)
Inductive read_op := RdU8 | RdU16 | RdU32 | RdBytes (count : nat) | RdName | RdSeek (p : nat).

Definition drop_value {A} (res : exec (option A * reader)) : exec reader :=
  do (_, r) := res in Done r.

Definition run_op (op : read_op) (r : reader) : exec reader :=
  match op with
  | RdU8 => drop_value (read_u8 r)
  | RdU16 => drop_value (read_u16 r)
  | RdU32 => drop_value (read_u32 r)
  | RdBytes n => drop_value (read_bytes r n)
  | RdName => drop_value (read_name r)
  | RdSeek p => Done (seek r p)
  end.

Fixpoint run_ops (ops : list read_op) (r : reader) : exec reader :=
  match ops with
  | [] => Done r
  | op :: ops' => do r' := run_op op r in run_ops ops' r'
  end.

(** The one obligation on a caller: do not [seek] past the end. *)
Definition seek_in_range (buf : bytes) (op : read_op) : Prop :=
  match op with
  | RdSeek p => (p <= length buf)%nat
  | _ => True
  end.

Lemma drop_value_behaved {A} r (res : exec (option A * reader)) :
  well_behaved r res -> exists r', drop_value res = Done r' /\ reader_ok r' /\ buffer_ r' = buffer_ r.
Proof. intros (v & r' & -> & ? & ? & _). exists r'. done. Qed.

Lemma run_op_behaved op r :
  reader_ok r -> seek_in_range (buffer_ r) op ->
  exists r', run_op op r = Done r' /\ reader_ok r' /\ buffer_ r' = buffer_ r.
Proof.
  intros Hok Hseek. destruct op; cbn [run_op]; try (apply drop_value_behaved; auto with net).
  eexists. split; [done|]. destruct Hok. split; [by split|done].
Qed.

(** ** The bytes still to be read *)

Definition unread (r : reader) : bytes := drop (position_ r) (buffer_ r).

Lemma unread_length r : length (unread r) = (length (buffer_ r) - position_ r)%nat.
Proof. apply length_drop. Qed.

Lemma unread_lookup r i : buffer_ r !! (position_ r + i)%nat = unread r !! i.
Proof. unfold unread. by rewrite lookup_drop. Qed.

Lemma unread_advance r (bs rest : bytes) n :
  unread r = bs ++ rest -> length bs = n -> unread (advance r n) = rest.
Proof.
  intros H <-. unfold unread in *. simpl. by rewrite <- drop_drop, H, drop_app_length.
Qed.

Lemma unread_fits r (bs rest : bytes) :
  reader_ok r -> unread r = bs ++ rest -> (position_ r + length bs <= length (buffer_ r))%nat.
Proof.
  intros [Hp _] Hu%(f_equal length). rewrite unread_length, length_app in Hu. lia.
Qed.

Lemma unread_at r i b : unread r !! i = Some b -> at_ (buffer_ r) (position_ r + i) = Done b.
Proof. intros H. apply at_done. by rewrite unread_lookup. Qed.

(** Reading an integer whose big-endian bytes are next in the stream. *)
Lemma read_u16_next r hi lo rest :
  reader_ok r -> unread r = [hi; lo] ++ rest ->
  read_u16 r = Done (Some (byte_val hi * 256 + byte_val lo), advance r 2).
Proof.
  intros Hok Hu. pose proof (unread_fits _ _ _ Hok Hu) as Hfit. simpl in Hfit.
  unfold read_u16. rewrite remaining_ok by done. branch; [lia|].
  rewrite <- (Nat.add_0_r (position_ r)) at 1.
  rewrite (unread_at r 0 hi), (unread_at r 1 lo) by (by rewrite Hu). cbn [exec_bind].
  pose proof (byte_val_range hi). pose proof (byte_val_range lo).
  rewrite lor_shiftl_add by lia. rewrite u16_small; [done|unfold is_u16; lia].
Qed.

Lemma read_u8_next r b rest :
  reader_ok r -> unread r = [b] ++ rest -> read_u8 r = Done (Some (byte_val b), advance r 1).
Proof.
  intros Hok Hu. pose proof (unread_fits _ _ _ Hok Hu) as Hfit. simpl in Hfit.
  unfold read_u8. rewrite remaining_ok by done. branch; [lia|].
  rewrite <- (Nat.add_0_r (position_ r)) at 1. by rewrite (unread_at r 0 b) by (by rewrite Hu).
Qed.

(** One round of the [read_u32] loop shifts a byte in. *)
Lemma shift_in_byte value b :
  0 <= value < 2 ^ 24 -> u32 (Z.lor (u32 (Z.shiftl value 8)) (byte_val b)) = value * 256 + byte_val b.
Proof.
  intros Hv. pose proof (byte_val_range b).
  rewrite (u32_small (Z.shiftl value 8)).
  2: { rewrite Z.shiftl_mul_pow2 by lia. unfold is_u32. lia. }
  rewrite lor_shiftl_add by lia. apply u32_small. unfold is_u32. lia.
Qed.

Lemma read_u32_next r a b c d rest :
  reader_ok r -> unread r = [a; b; c; d] ++ rest ->
  read_u32 r =
    Done (Some (((byte_val a * 256 + byte_val b) * 256 + byte_val c) * 256 + byte_val d), advance r 4).
Proof.
  intros Hok Hu. pose proof (unread_fits _ _ _ Hok Hu) as Hfit. simpl in Hfit.
  unfold read_u32. rewrite remaining_ok by done. branch; [lia|]. cbn [read_be].
  pose proof (byte_val_range a). pose proof (byte_val_range b). pose proof (byte_val_range c).
  rewrite (unread_at r 0 a), (unread_at r 1 b), (unread_at r 2 c), (unread_at r 3 d) by (by rewrite Hu).
  cbn [exec_bind]. rewrite (shift_in_byte 0 a) by lia. simpl (0 * 256 + _).
  do 3 rewrite (shift_in_byte (_ + _)) by lia. done.
Qed.

(** A 16-bit read fails exactly when fewer than two bytes are left; the
    cursor then stays. *)
Lemma read_u16_short r :
  reader_ok r -> (length (unread r) < 2)%nat -> read_u16 r = Done (None, r).
Proof.
  intros Hok H. rewrite unread_length in H. destruct Hok as [? ?].
  unfold read_u16. rewrite remaining_ok by done. branch; [done|lia].
Qed.

(** ** Properties *)

(** C1. Memory safety of the reader: on any datagram, any sequence of reads,
    including names with arbitrary compression pointers, terminates without
    touching memory outside the datagram and keeps the cursor inside it,
    as long as no [seek] goes past the end. *)
Theorem reader_memory_safe buf ops :
  buf_ok buf -> Forall (seek_in_range buf) ops ->
  exists r, run_ops ops (new_reader buf) = Done r /\ reader_ok r /\ buffer_ r = buf.
Proof.
  intros Hbuf Hops. assert (reader_ok (new_reader buf)) as Hok by auto with net.
  assert (buffer_ (new_reader buf) = buf) as Eb by done.
  revert Hok Eb. generalize (new_reader buf). induction Hops as [|op ops Hop _ IH]; intros r Hok <-; simpl; [eauto|].
  destruct (run_op_behaved op r Hok Hop) as (r' & -> & Hok' & Hb). simpl. by apply IH.
Qed.

Lemma reader_memory_safe_witness :
  let buf := [Byte.x01; Byte.x61; Byte.xc0; Byte.x00] in
  let ops := [RdName; RdSeek 3; RdU16; RdSeek 2; RdName; RdU32] in
  exists r, run_ops ops (new_reader buf) = Done r /\ reader_ok r /\ buffer_ r = buf.
Proof.
  apply reader_memory_safe; [reflexivity|].
  repeat (apply Forall_cons; split; [vm_compute; auto with lia|]). apply Forall_nil. exact I.
Defined.

(** The obligation on [seek] is real: once the cursor is past the end,
    [remaining()] wraps to a huge value, the bounds check passes and the next
    read is out of bounds. *)
Theorem seek_past_end_undefined r p :
  buf_ok (buffer_ r) -> (length (buffer_ r) < p)%nat -> Z.of_nat p < 2 ^ 63 ->
  read_u8 (seek r p) = Undef /\ read_u16 (seek r p) = Undef /\ read_u32 (seek r p) = Undef.
Proof.
  unfold buf_ok. intros Hb Hp Hmax.
  assert (2 ^ 63 < remaining (seek r p)) as Hrem.
  { unfold remaining, u64; simpl. rewrite <- (Z_mod_plus _ 1) by lia. rewrite Z.mod_small by lia. lia. }
  assert (at_ (buffer_ r) p = Undef) as Hat by (unfold at_; by rewrite lookup_ge_None_2 by lia).
  unfold read_u8, read_u16, read_u32. split_and!; (branch; [lia|]); cbn [read_be seek buffer_ position_];
    rewrite ?Nat.add_0_r; by rewrite Hat.
Qed.

Lemma seek_past_end_undefined_witness :
  read_u8 (seek (new_reader [Byte.x01]) 2) = Undef /\
  read_u16 (seek (new_reader [Byte.x01]) 2) = Undef /\
  read_u32 (seek (new_reader [Byte.x01]) 2) = Undef.
Proof. apply seek_past_end_undefined; [reflexivity|simpl; lia|reflexivity]. Defined.
