(* ===== verification/Writer.v ===== *)
(** * [dns::wire::writer]

    Appends DNS wire-format fields to a growable buffer
    (include/lambdatech/networking/protocol/dns/wire/writer.hpp).  The only
    member is the byte vector, so the state of a writer is the bytes written
    so far. *)

From S2P Require Import Prelude.
#[local] Open Scope Z_scope.

Abbreviation writer := (list Byte.byte).

Definition new_writer : writer := [].

Definition write_u8 (w : writer) (value : Z) : writer := w ++ [to_byte value].

Definition write_u16 (w : writer) (value : Z) : writer :=
  write_u8 (write_u8 w (u8 (Z.shiftr value 8))) (u8 (Z.land value 0xFF)).

Definition write_u32 (w : writer) (value : Z) : writer :=
  write_u8
    (write_u8
       (write_u8 (write_u8 w (u8 (Z.shiftr value 24))) (u8 (Z.shiftr value 16)))
       (u8 (Z.shiftr value 8)))
    (u8 (Z.land value 0xFF)).

Definition write_bytes (w : writer) (data : bytes) : writer := w ++ data.

Definition dot : byte := Byte.x2e.

(** [name.find('.', start)]; [None] is [std::string_view::npos]. *)
Definition find_dot (name : bytes) (start : nat) : option nat :=
  match list_find (eq dot) (drop start name) with
  | Some (i, _) => Some (start + i)%nat
  | None => None
  end.

(** The [while (start < name.size())] loop of [write_name]. *)
Fixpoint write_labels (fuel : nat) (w : writer) (name : bytes) (start : nat) : exec (bool * writer) :=
  match fuel with
  | O => OutOfFuel
  | S fuel' =>
      if (start <? length name)%nat then
        let d := find_dot name start in
        let end_ := match d with None => length name | Some d => d end in
        let len := (end_ - start)%nat in
        if (len =? 0)%nat || (63 <? len)%nat then Done (false, w)
        else
          let w1 := write_u8 w (u8 (Z.of_nat len)) in
          do label := slice name start len in
          let w2 := fold_left (fun w c => write_u8 w (byte_val c)) label w1 in
          match d with
          | None => Done (true, write_u8 w2 0)
          | Some d => write_labels fuel' w2 name (d + 1)
          end
      else Done (true, write_u8 w 0)
  end.

(** Every round but the last moves [start] past a dot, so [length name]
    rounds and the final test are enough. *)
Definition write_name (w : writer) (name : bytes) : exec (bool * writer) :=
  write_labels (S (length name)) w name 0.

(** ** What the integer writers append *)

Definition be16 (v : Z) : bytes := [to_byte (v / 256); to_byte v].
Definition be32 (v : Z) : bytes :=
  [to_byte (v / 2 ^ 24); to_byte (v / 2 ^ 16); to_byte (v / 2 ^ 8); to_byte v].

Lemma to_byte_u8 z : to_byte (u8 z) = to_byte z.
Proof. unfold to_byte, u8. by rewrite Zmod_mod. Qed.

Lemma land_0xFF z : Z.land z 0xFF = u8 z.
Proof. exact (Z.land_ones z 8 ltac:(lia)). Qed.

#[export] Hint Rewrite to_byte_u8 land_0xFF : net.

Lemma write_u16_app w v : write_u16 w v = w ++ be16 v.
Proof.
  unfold write_u16, write_u8, be16. rewrite <- app_assoc. simpl.
  autorewrite with net. by rewrite Z.shiftr_div_pow2 by lia.
Qed.

Lemma write_u32_app w v : write_u32 w v = w ++ be32 v.
Proof.
  unfold write_u32, write_u8, be32. rewrite <- !app_assoc. simpl.
  autorewrite with net. by rewrite !Z.shiftr_div_pow2 by lia.
Qed.

Lemma write_label_app (label : bytes) : forall w,
  fold_left (fun w c => write_u8 w (byte_val c)) label w = w ++ label.
Proof.
  induction label as [|c l IH]; intros w; simpl; [by rewrite app_nil_r|].
  rewrite IH. unfold write_u8. by rewrite to_byte_val, <- app_assoc.
Qed.

Lemma length_be16 v : length (be16 v) = 2%nat.
Proof. done. Qed.

(** ** Finding the end of a label *)

Lemma find_dot_none name start :
  dot ∉ drop start name -> find_dot name start = None.
Proof.
  intros H. unfold find_dot.
  replace (list_find (eq dot) (drop start name)) with (@None (nat * byte)); [done|].
  symmetry. apply list_find_None. apply Forall_forall. intros x Hx Ex. by subst x.
Qed.

Lemma find_dot_some name start (l rest : bytes) :
  drop start name = l ++ dot :: rest -> dot ∉ l -> find_dot name start = Some (start + length l)%nat.
Proof.
  intros H Hl. unfold find_dot. rewrite H.
  replace (list_find (eq dot) (l ++ dot :: rest)) with (Some (length l, dot)); [done|].
  symmetry. apply list_find_Some. split_and!; [|done|].
  - by rewrite lookup_app_r, Nat.sub_diag.
  - intros j y Hy Hj. rewrite lookup_app_l in Hy by done. intros <-.
    apply Hl. by apply list_elem_of_lookup_2 in Hy.
Qed.

(** What [find] returns decides how the rest of the name starts. *)
Lemma find_dot_inv name start :
  (start <= length name)%nat ->
  match find_dot name start with
  | None => dot ∉ drop start name
  | Some d => exists l rest, drop start name = l ++ dot :: rest /\ (dot ∉ l) /\ d = (start + length l)%nat
  end.
Proof.
  intros Hs. unfold find_dot. destruct (list_find _ _) as [[i c]|] eqn:E.
  - apply list_find_Some in E as (Hi & <- & Hb).
    exists (take i (drop start name)), (drop (S i) (drop start name)).
    pose proof (lookup_lt_Some _ _ _ Hi). split_and!.
    + by rewrite <- (drop_lookup_cons _ _ _ Hi), take_drop.
    + intros (j & Hj)%list_elem_of_lookup. apply lookup_take_Some in Hj as [Hj ?].
      by eapply Hb in Hj.
    + rewrite length_take. lia.
  - apply list_find_None in E. rewrite Forall_forall in E. intros Hin. by apply (E dot).
Qed.
