(* ===== verification/Names.v ===== *)
(** * Domain names on the wire

    What [reader::read_name] and [writer::write_name] mean: the RFC 1035
    grammar of names with compression pointers as an inductive relation,
    proved equivalent to the reader's bounded loop, and the set of dotted
    names the writer accepts, with the bytes it emits for each. *)

From S2P Require Import Prelude Reader Writer.
#[local] Open Scope Z_scope.

(** ** Dotted names and labels *)

(** The dotted text of a sequence of labels. *)
Definition join_tail (ls : list bytes) : bytes := concat (map (cons dot) ls).
Definition join (ls : list bytes) : bytes :=
  match ls with
  | [] => []
  | l :: ls' => l ++ join_tail ls'
  end.

(** The labels' wire form: length-prefixed, closed by the root's zero byte. *)
Definition encode_label (l : bytes) : bytes := to_byte (Z.of_nat (length l)) :: l.
Definition encode_labels (ls : list bytes) : bytes := concat (map encode_label ls) ++ [Byte.x00].

(** A label the wire format can carry, and one a dotted name can spell. *)
Definition label_ok (l : bytes) : Prop := (1 <= length l <= 63)%nat.
Definition text_label (l : bytes) : Prop := label_ok l /\ dot ∉ l.

Definition add_label (name l : bytes) : bytes :=
  match name with [] => name | _ => name ++ str "." end ++ l.

Lemma add_label_cons name l : name <> [] -> add_label name l = name ++ dot :: l.
Proof. intros H. destruct name; [done|]. unfold add_label. by rewrite <- app_assoc. Qed.

Lemma add_labels_app ls : forall name,
  name <> [] -> fold_left add_label ls name = name ++ join_tail ls.
Proof.
  induction ls as [|l ls IH]; intros name Hn; simpl; [by rewrite app_nil_r|].
  rewrite add_label_cons by done. rewrite IH by (destruct name; done).
  by rewrite <- app_assoc.
Qed.

Lemma add_labels_join ls : Forall label_ok ls -> fold_left add_label ls [] = join ls.
Proof.
  destruct ls as [|l ls]; [done|]. intros [[Hl _] _]%Forall_cons. simpl.
  apply add_labels_app. destruct l; simpl in *; [lia|done].
Qed.

(** ** The grammar of wire names

    [name_at buf cur n ls e]: starting at offset [cur] of the message, a name
    with labels [ls] is spelled in [n] items (labels, pointers and the final
    root), and the bytes it occupies in place end at [e]. *)
Inductive name_at (buf : bytes) : nat -> nat -> list bytes -> nat -> Prop :=
  | na_root cur b :
      buf !! cur = Some b -> byte_val b = 0 -> name_at buf cur 1 [] (cur + 1)
  | na_label cur b l n ls e :
      buf !! cur = Some b -> byte_val b = Z.of_nat (length l) -> label_ok l ->
      take (length l) (drop (cur + 1) buf) = l ->
      name_at buf (cur + 1 + length l) n ls e ->
      name_at buf cur (S n) (l :: ls) e
  | na_pointer cur hi lo n ls e :
      buf !! cur = Some hi -> buf !! (cur + 1)%nat = Some lo -> 192 <= byte_val hi ->
      name_at buf (Z.to_nat ((byte_val hi - 192) * 256 + byte_val lo)) n ls e ->
      name_at buf cur (S n) ls (cur + 2).

(** The three label types the reader tells apart by the top two bits. *)
Lemma label_type b :
  Z.land (byte_val b) 0xC0 = (if byte_val b <? 64 then 0 else if byte_val b <? 128 then 64
    else if byte_val b <? 192 then 128 else 192).
Proof. by destruct b. Qed.

Lemma label_type_pointer b : 192 <= byte_val b -> Z.land (byte_val b) 0xC0 = 0xC0.
Proof. intros. rewrite label_type. repeat (branch; [lia|]). done. Qed.

Lemma pointer_target hi lo :
  192 <= byte_val hi ->
  Z.lor (Z.shiftl (Z.land (byte_val hi) 0x3F) 8) (byte_val lo) = (byte_val hi - 192) * 256 + byte_val lo.
Proof.
  intros H. rewrite lor_shiftl_add by (pose proof (byte_val_range lo); lia).
  change 0x3F with (Z.ones 6). rewrite Z.land_ones by lia. pose proof (byte_val_range hi).
  replace (byte_val hi mod 2 ^ 6) with (byte_val hi - 192); [done|].
  apply Z.mod_unique with 3; lia.
Qed.

(** The items of the un-compressed part, the end in place and the labels are
    determined by where the name starts. *)
Lemma name_at_det buf cur n ls e :
  name_at buf cur n ls e ->
  forall n' ls' e', name_at buf cur n' ls' e' -> n = n' /\ ls = ls' /\ e = e'.
Proof.
  induction 1 as [cur b Hb H0|cur b l n ls e Hb Hlen Hok Hl _ IH|cur hi lo n ls e Hhi Hlo Hp _ IH];
    intros n' ls' e' H'; inversion H' as [? b' Hb'|? b' l' ? ? ? Hb' Hlen' Hok' Hl'|? hi' lo' ? ? ? Hhi' Hlo' Hp']; subst;
    simplify_eq; unfold label_ok in *; try lia.
  - done.
  - assert (l = l') as <-.
    { rewrite <- Hl, <- Hl'. f_equal. lia. }
    edestruct IH as (-> & -> & ->); eauto.
  - edestruct IH as (-> & -> & _); eauto.
Qed.

(** [vs]: distinct offsets inside the message, each the start of a name of
    at most [n] items. *)
Definition visits (buf : bytes) (n : nat) (vs : list nat) : Prop :=
  NoDup vs /\ Forall (fun c => (c < length buf)%nat) vs /\
  Forall (fun c => exists m ls e, name_at buf c m ls e /\ (m <= n)%nat) vs.

Lemma name_at_lt buf cur n ls e : name_at buf cur n ls e -> (cur < length buf)%nat.
Proof. destruct 1; by eapply lookup_lt_Some. Qed.

(** A name of [n + 1] items starts at none of the offsets that start names of
    at most [n]. *)
Lemma visits_cons buf n vs cur ls e :
  visits buf n vs -> name_at buf cur (S n) ls e -> visits buf (S n) (cur :: vs).
Proof.
  intros (Hnd & Hlt & Hall) Hcur. split_and!.
  - apply NoDup_cons. split; [|done]. intros Hin.
    rewrite Forall_forall in Hall. destruct (Hall _ Hin) as (m & ls' & e' & Hm & ?).
    destruct (name_at_det _ _ _ _ _ Hcur _ _ _ Hm). lia.
  - apply Forall_cons. eauto using name_at_lt.
  - apply Forall_cons. split; [by eauto 10|].
    eapply Forall_impl; [exact Hall|]. intros c (m & ls' & e' & ? & ?). eauto 10 with lia.
Qed.

(** A name visits each offset at most once, so it has at most as many items
    as the message has bytes. *)
Lemma name_at_visits buf cur n ls e :
  name_at buf cur n ls e -> exists vs, length vs = n /\ visits buf n vs.
Proof.
  induction 1 as [cur b Hb H0|cur b l n ls e Hb Hlen Hok Hl Hrest IH|cur hi lo n ls e Hhi Hlo Hp Hrest IH].
  - exists [cur]. split; [done|]. apply visits_cons with [] (cur + 1)%nat.
    + split_and!; [apply NoDup_nil_2|done..].
    + by econstructor.
  - destruct IH as (vs & <- & Hvs). exists (cur :: vs). split; [done|].
    eapply visits_cons; [done|]. by econstructor.
  - destruct IH as (vs & <- & Hvs). exists (cur :: vs). split; [done|].
    eapply visits_cons; [done|]. by econstructor.
Qed.

Lemma name_at_items buf cur n ls e : name_at buf cur n ls e -> (n <= length buf)%nat.
Proof.
  intros (vs & <- & Hnd & Hlt & _)%name_at_visits. by apply NoDup_below_length.
Qed.

Lemma name_at_labels buf cur n ls e : name_at buf cur n ls e -> Forall label_ok ls.
Proof. induction 1; auto. Qed.

(** ** The reader's loop computes the grammar *)

Lemma name_loop_complete buf cur n ls e :
  name_at buf cur n ls e ->
  forall safety pos jumped name, (n <= safety)%nat ->
  name_loop safety buf pos cur jumped name =
    Done (Some (fold_left add_label ls name), if jumped then pos else e).
Proof.
  induction 1 as [cur b Hb H0|cur b l n ls e Hb Hlen Hok Hl _ IH|cur hi lo n ls e Hhi Hlo Hp _ IH];
    intros safety pos jumped name Hs; (destruct safety as [|safety]; [lia|]); cbn [name_loop];
    first [pose proof (lookup_lt_Some _ _ _ Hb) | pose proof (lookup_lt_Some _ _ _ Hhi)];
    (branch; [lia|]).
  - rewrite (at_done _ _ _ Hb). simpl. rewrite label_type, H0. simpl. done.
  - rewrite (at_done _ _ _ Hb). cbn [exec_bind]. rewrite label_type. unfold label_ok in Hok.
    assert (cur + 1 + length l <= length buf)%nat as Hfit.
    { apply (f_equal length) in Hl. rewrite length_take, length_drop in Hl. lia. }
    rewrite (proj2 (Z.ltb_lt _ _)) by lia. simpl.
    branch; [lia|]. rewrite Hlen, Nat2Z.id. branch; [lia|].
    rewrite slice_done by lia. simpl. rewrite Hl. apply IH. lia.
  - rewrite (at_done _ _ _ Hhi). cbn [exec_bind]. rewrite label_type_pointer by done. simpl.
    pose proof (lookup_lt_Some _ _ _ Hlo). branch; [lia|].
    rewrite (at_done _ _ _ Hlo). cbn [exec_bind]. rewrite pointer_target by lia.
    rewrite IH by lia. by destruct jumped.
Qed.

Lemma name_loop_sound safety : forall buf pos cur jumped name nm pos',
  name_loop safety buf pos cur jumped name = Done (Some nm, pos') ->
  exists n ls e, name_at buf cur n ls e /\
    nm = fold_left add_label ls name /\ pos' = (if jumped then pos else e).
Proof.
  induction safety as [|safety IH]; intros buf pos cur jumped name nm pos' H; simpl in H; [done|].
  branch_in H; [done|]. destruct (at_lt buf cur) as (b & Hb & E); [lia|]. rewrite E in H. cbn [exec_bind] in H.
  pose proof (byte_val_range b) as Hr. rewrite label_type in H.
  destruct (Z.ltb_spec (byte_val b) 64); cbn [Z.eqb Pos.eqb negb] in H.
  - branch_in H.
    { simplify_eq. exists 1%nat, [], (cur + 1)%nat. split; [by econstructor|done]. }
    branch_in H; [done|]. rewrite slice_done in H by lia. cbn [exec_bind] in H.
    set (l := take (Z.to_nat (byte_val b)) (drop (cur + 1) buf)) in *.
    assert (length l = Z.to_nat (byte_val b)) as Hl by (unfold l; rewrite length_take, length_drop; lia).
    destruct (IH _ _ _ _ _ _ _ H) as (n & ls & e & Hn & -> & ->).
    exists (S n), (l :: ls), e. split; [|done].
    apply na_label with b; [done|lia|unfold label_ok; lia| |].
    + by rewrite Hl.
    + by rewrite Hl.
  - destruct (Z.ltb_spec (byte_val b) 128); [done|].
    destruct (Z.ltb_spec (byte_val b) 192); [done|]. simpl in H.
    branch_in H; [done|]. destruct (at_lt buf (cur + 1)) as (lo & Hlo & E'); [lia|].
    rewrite E' in H. cbn [exec_bind] in H. rewrite pointer_target in H by lia.
    destruct (IH _ _ _ _ _ _ _ H) as (n & ls & e & Hn & -> & ->).
    exists (S n), ls, (cur + 2)%nat. split; [by econstructor|]. split; [done|]. by destruct jumped.
Qed.

(** ** The names the writer accepts

    [spells name ls]: the dotted text [name] denotes the labels [ls].  The
    empty text after the last dot is the root, so one trailing dot is
    accepted. *)
Inductive spells : bytes -> list bytes -> Prop :=
  | sp_root : spells [] []
  | sp_last l : text_label l -> spells l [l]
  | sp_more l rest ls : text_label l -> spells rest ls -> spells (l ++ dot :: rest) (l :: ls).

Lemma text_label_nonempty l : text_label l -> l <> [].
Proof. intros [[? _] _] ->. simpl in *. lia. Qed.

Lemma app_dot_inj (l l' r r' : bytes) :
  (dot ∉ l) -> (dot ∉ l') -> l ++ dot :: r = l' ++ dot :: r' -> l = l' /\ r = r'.
Proof.
  revert l'. induction l as [|c l IH]; intros [|c' l'] Hl Hl' E; simplify_eq/=; [done|by destruct Hl'; left|by destruct Hl; left|].
  destruct (IH l') as [-> ->]; [by rewrite not_elem_of_cons in Hl; apply Hl|by rewrite not_elem_of_cons in Hl'; apply Hl'|done|done].
Qed.

Lemma spells_labels name ls : spells name ls -> Forall text_label ls.
Proof. induction 1; auto. Qed.

Lemma spells_undotted name ls :
  spells name ls -> (dot ∉ name) -> name <> [] -> ls = [name] /\ text_label name.
Proof. destruct 1; intros Hd Hn; [done|auto|set_solver]. Qed.

Lemma spells_dotted (l rest : bytes) ls :
  spells (l ++ dot :: rest) ls -> (dot ∉ l) ->
  exists ls', ls = l :: ls' /\ text_label l /\ spells rest ls'.
Proof.
  intros H Hl. remember (l ++ dot :: rest) as name eqn:E. destruct H as [|l' [? Hd]|l' rest' ls' Ht Hs].
  - by destruct l.
  - subst. set_solver.
  - destruct (app_dot_inj l l' rest rest') as [-> ->]; eauto. by destruct Ht.
Qed.

Lemma spells_det name ls : spells name ls -> forall ls', spells name ls' -> ls = ls'.
Proof.
  induction 1 as [|l Ht|l rest ls Ht _ IH]; intros ls' H'.
  - inversion H' as [|? Ht|? ? ? ?]; subst; [done| |].
    + by apply text_label_nonempty in Ht.
    + by destruct l.
  - apply spells_undotted in H' as [-> _]; [done|by destruct Ht|by apply text_label_nonempty].
  - apply spells_dotted in H' as (ls'' & -> & _ & Hs); [|by destruct Ht]. f_equal. auto.
Qed.

Lemma spells_join ls : Forall text_label ls -> spells (join ls) ls.
Proof.
  induction ls as [|l ls IH]; [constructor|]. intros [Hl Hls]%Forall_cons. simpl.
  destruct ls as [|l' ls]; simpl; [rewrite app_nil_r; by constructor|].
  apply sp_more; [done|]. by apply IH.
Qed.

Lemma encode_labels_cons l ls : encode_labels (l :: ls) = encode_label l ++ encode_labels ls.
Proof. unfold encode_labels. simpl. by rewrite <- app_assoc. Qed.

(** The writer's loop, from any start: it accepts exactly the texts that
    spell labels, and appends their encoding. *)
Lemma write_labels_correct name : forall fuel w start,
  (start <= length name)%nat -> (length name - start < fuel)%nat ->
  exists ok w', write_labels fuel w name start = Done (ok, w') /\
    if ok then exists ls, spells (drop start name) ls /\ w' = w ++ encode_labels ls
    else forall ls, ~ spells (drop start name) ls.
Proof.
  induction fuel as [|fuel IH]; intros w start Hs Hf; [lia|]. cbn [write_labels].
  pose proof (find_dot_inv name start Hs) as Hd.
  branch.
  2: { eexists true, _. split; [done|]. exists []. rewrite drop_ge by lia. split; [constructor|done]. }
  destruct (find_dot name start) as [d|].
  - destruct Hd as (l & rest & El & Hdot & ->). replace (start + length l - start)%nat with (length l) by lia.
    assert (start + length l < length name)%nat.
    { apply (f_equal length) in El. rewrite length_drop, length_app in El. simpl in El. lia. }
    destruct ((length l =? 0)%nat || (63 <? length l)%nat) eqn:Eg.
    { eexists false, _. split; [done|]. intros ls Hsp. rewrite El in Hsp.
      apply spells_dotted in Hsp as (ls' & _ & [Hl _] & _); [|done]. unfold label_ok in Hl. lia. }
    assert (text_label l) as Htl by (split; [unfold label_ok; lia|done]).
    rewrite slice_done by lia. cbn [exec_bind]. rewrite write_label_app.
    rewrite El, take_app_le, take_ge by lia.
    edestruct (IH ((write_u8 w (u8 (Z.of_nat (length l)))) ++ l) (start + length l + 1)%nat)
      as (ok & w' & -> & Hok); [lia..|].
    exists ok, w'. split; [done|].
    replace (drop (start + length l + 1) name) with rest in Hok.
    2: { rewrite <- Nat.add_assoc, <- drop_drop, El, drop_app_ge by lia.
         by replace (length l + 1 - length l)%nat with 1%nat by lia. }
    destruct ok.
    + destruct Hok as (ls & Hsp & ->). exists (l :: ls). split; [by constructor|].
      rewrite encode_labels_cons. unfold write_u8, encode_label. rewrite to_byte_u8, <- !app_assoc. done.
    + intros ls Hsp. apply spells_dotted in Hsp as (ls' & _ & _ & ?); [|done]. by eapply Hok.
  - pose proof (length_drop name start) as Elen.
    destruct ((length name - start =? 0)%nat || (63 <? length name - start)%nat) eqn:Eg.
    { eexists false, _. split; [done|]. intros ls Hsp.
      apply spells_undotted in Hsp as [_ [Hl _]]; [|done|].
      - unfold label_ok in Hl. lia.
      - intros E%(f_equal length). simpl in E. lia. }
    rewrite slice_done by lia. cbn [exec_bind]. rewrite write_label_app.
    rewrite take_ge by lia. eexists true, _. split; [done|].
    exists [drop start name]. split.
    { apply sp_last. split; [unfold label_ok; lia|done]. }
    unfold encode_labels, encode_label, write_u8. simpl. rewrite to_byte_u8, <- !app_assoc, Elen. done.
Qed.

(** The wire form of labels is a name of the grammar, wherever it stands. *)
Lemma encode_name_at ls : forall pre suf,
  Forall label_ok ls ->
  name_at (pre ++ encode_labels ls ++ suf) (length pre) (S (length ls)) ls
    (length pre + length (encode_labels ls)).
Proof.
  induction ls as [|l ls IH]; intros pre suf Hok.
  - apply na_root with Byte.x00; [|done]. by rewrite lookup_app_r, Nat.sub_diag.
  - apply Forall_cons in Hok as [Hl Hls]. rewrite encode_labels_cons.
    set (pre' := pre ++ encode_label l).
    replace (pre ++ (encode_label l ++ encode_labels ls) ++ suf) with (pre' ++ encode_labels ls ++ suf)
      by (unfold pre'; by rewrite <- !app_assoc).
    assert (length pre + 1 + length l = length pre')%nat as El.
    { unfold pre', encode_label. rewrite length_app. simpl. lia. }
    apply na_label with (to_byte (Z.of_nat (length l))).
    + unfold pre', encode_label. rewrite <- app_assoc. by rewrite lookup_app_r, Nat.sub_diag.
    + rewrite byte_val_to_byte, u8_small; unfold label_ok in Hl; lia.
    + done.
    + unfold pre', encode_label. rewrite <- app_assoc.
      rewrite drop_app_ge by lia. replace (length pre + 1 - length pre)%nat with 1%nat by lia.
      simpl. rewrite drop_0. by rewrite take_app_le, take_ge by lia.
    + rewrite El. rewrite length_app.
      replace (length pre + (length (encode_label l) + length (encode_labels ls)))%nat
        with (length pre' + length (encode_labels ls))%nat by (unfold pre'; rewrite length_app; lia).
      by apply IH.
Qed.

Lemma read_name_at r n ls e :
  name_at (buffer_ r) (position_ r) n ls e -> read_name r = Done (Some (join ls), seek r e).
Proof.
  intros H. unfold read_name. pose proof (name_at_items _ _ _ _ _ H).
  rewrite (name_loop_complete _ _ _ _ _ H) by done. simpl.
  rewrite add_labels_join; [done|]. by eapply name_at_labels.
Qed.

Lemma read_name_some r nm r' :
  read_name r = Done (Some nm, r') ->
  exists n ls e, name_at (buffer_ r) (position_ r) n ls e /\ nm = join ls /\ r' = seek r e.
Proof.
  unfold read_name. intros ([v pos] & E & H)%exec_bind_done. simplify_eq.
  apply name_loop_sound in E as (n & ls & e & Hat & -> & ->).
  exists n, ls, e. split_and!; [done| |done]. apply add_labels_join. by eapply name_at_labels.
Qed.

Lemma write_name_spells w name ls :
  spells name ls -> write_name w name = Done (true, w ++ encode_labels ls).
Proof.
  intros H. destruct (write_labels_correct name (S (length name)) w 0) as (ok & w' & E & Hok); [lia..|].
  unfold write_name. rewrite E. destruct ok.
  - destruct Hok as (ls' & H' & ->). rewrite drop_0 in H'. by rewrite (spells_det _ _ H _ H').
  - by destruct (Hok ls).
Qed.

Lemma write_name_total w name : exists ok w', write_name w name = Done (ok, w').
Proof. destruct (write_labels_correct name (S (length name)) w 0) as (ok & w' & E & _); [lia..|]. eauto. Qed.

Lemma text_label_ok l : text_label l -> label_ok l.
Proof. by intros [? _]. Qed.

(** What the writer emits for a name, the reader reads back as the labels'
    dotted text, ending right after the bytes written. *)
Lemma read_encoded_name pre ls suf :
  Forall label_ok ls ->
  read_name (mk_reader (pre ++ encode_labels ls ++ suf) (length pre)) =
    Done (Some (join ls), mk_reader (pre ++ encode_labels ls ++ suf) (length pre + length (encode_labels ls))).
Proof. intros H. exact (read_name_at (mk_reader _ _) _ _ _ (encode_name_at ls pre suf H)). Qed.

(** ** Properties *)

(** C2. [read_name] decides the RFC 1035 name grammar with compression
    pointers.  It returns a name exactly when one starts at the cursor: the
    text is the labels joined by dots and the cursor ends after the bytes the
    name occupies in place, not at a pointer's target.  In particular the cap
    of [buffer_.size()] rounds never rejects a well-formed name, however its
    pointers chain, and a pointer loop (which starts no name) is rejected. *)
Theorem read_name_iff_grammar r nm r' :
  read_name r = Done (Some nm, r') <->
  exists n ls e, name_at (buffer_ r) (position_ r) n ls e /\ nm = join ls /\ r' = seek r e.
Proof.
  split; [apply read_name_some|]. intros (n & ls & e & H & -> & ->). by eapply read_name_at.
Qed.

(** [write_name] is total, accepts a dotted name exactly when the name
    spells non-empty labels of at most 63 bytes (one trailing dot allowed), and
    then appends exactly the labels' length-prefixed encoding closed by the
    root byte. *)
Theorem write_name_iff_spells w name :
  exists ok w', write_name w name = Done (ok, w') /\
    (ok = true <-> exists ls, spells name ls) /\
    (forall ls, spells name ls -> w' = w ++ encode_labels ls).
Proof.
  destruct (write_labels_correct name (S (length name)) w 0) as (ok & w' & E & Hok); [lia..|].
  rewrite drop_0 in Hok. exists ok, w'. split; [done|]. destruct ok.
  - destruct Hok as (ls & Hls & ->). split; [by split; eauto|].
    intros ls' Hls'. by rewrite (spells_det _ _ Hls' _ Hls).
  - naive_solver.
Qed.

(** Name round trip: whatever dotted name [write_name] accepts, reading it
    back from any message that contains the emitted bytes gives the labels'
    text and leaves the cursor just past them; for a name without a trailing
    dot that text is the name itself. *)
Theorem name_roundtrip pre name suf w :
  write_name pre name = Done (true, w) ->
  exists ls, spells name ls /\
    read_name (mk_reader (w ++ suf) (length pre)) =
      Done (Some (join ls), mk_reader (w ++ suf) (length w)) /\
    (name = join ls \/ name = join ls ++ [dot]).
Proof.
  intros H. destruct (write_labels_correct name (S (length name)) pre 0) as (ok & w' & E & Hok); [lia..|].
  unfold write_name in H. rewrite E in H. simplify_eq. destruct Hok as (ls & Hls & ->).
  rewrite drop_0 in Hls. exists ls. split; [done|]. split.
  - rewrite <- !app_assoc, length_app. apply read_encoded_name.
    eapply Forall_impl; [by eapply spells_labels|]. apply text_label_ok.
  - clear -Hls. induction Hls as [|l Ht|l rest ls Ht Hs IH]; [by left| |].
    + left. simpl. by rewrite app_nil_r.
    + destruct ls as [|l' ls]; [right; inversion Hs; subst; simpl; by rewrite app_nil_r|].
      simpl in *. destruct IH as [-> | ->]; [left|right]; unfold join_tail; simpl; [done|]; rewrite <- !app_assoc; simpl; by rewrite <- app_assoc.
Qed.

Lemma name_roundtrip_witness :
  exists w, write_name [] (str "mail.lambdatech.io") = Done (true, w) /\
  exists ls, spells (str "mail.lambdatech.io") ls /\
    read_name (mk_reader (w ++ []) 0) = Done (Some (join ls), mk_reader (w ++ []) (length w)) /\
    (str "mail.lambdatech.io" = join ls \/ str "mail.lambdatech.io" = join ls ++ [dot]).
Proof.
  eexists. split; [vm_compute; reflexivity|].
  apply (name_roundtrip [] (str "mail.lambdatech.io") []). vm_compute. reflexivity.
Defined.

(** ** A reference encoder *)

(** Splitting at every dot; the pieces are one more than the dots. *)
Fixpoint split_dots (s : bytes) : list bytes :=
  match s with
  | [] => [[]]
  | c :: s' =>
      if bool_decide (c = dot) then [] :: split_dots s'
      else
        match split_dots s' with
        | l :: ls => (c :: l) :: ls
        | [] => [[c]]
        end
  end.

(** An empty last piece is the root, written or not. *)
Fixpoint drop_root (ls : list bytes) : list bytes :=
  match ls with
  | [] => []
  | [[]] => []
  | l :: ls' => l :: drop_root ls'
  end.

Definition labels_of (name : bytes) : list bytes := drop_root (split_dots name).

Definition fits (l : bytes) : bool := (1 <=? length l)%nat && (length l <=? 63)%nat.

(** The labels before the first that does not fit. *)
Fixpoint fitting (ls : list bytes) : list bytes :=
  match ls with
  | [] => []
  | l :: ls' => if fits l then l :: fitting ls' else []
  end.

(** All labels or, when one does not fit, those in front of it and no root. *)
Definition encode_reference (name : bytes) : bool * bytes :=
  let ls := labels_of name in
  if forallb fits ls then (true, encode_labels ls)
  else (false, concat (map encode_label (fitting ls))).

Lemma split_dots_undotted s : dot ∉ s -> split_dots s = [s].
Proof.
  induction s as [|c s IH]; simpl; intros Hs; [done|].
  rewrite bool_decide_false by (intros ->; apply Hs; left). rewrite IH; [done|]. intros ?. apply Hs. by right.
Qed.

Lemma split_dots_dotted l rest : dot ∉ l -> split_dots (l ++ dot :: rest) = l :: split_dots rest.
Proof.
  induction l as [|c l IH]; simpl; intros Hl; [done|].
  rewrite bool_decide_false by (intros ->; apply Hl; left). rewrite IH; [done|]. intros ?. apply Hl. by right.
Qed.

Lemma split_dots_cons s : exists l ls, split_dots s = l :: ls.
Proof. destruct s as [|c s]; simpl; [eauto|]. case_bool_decide; [eauto|]. destruct (split_dots s); eauto. Qed.

Lemma labels_of_undotted s : dot ∉ s -> s <> [] -> labels_of s = [s].
Proof. intros Hs Hne. unfold labels_of. rewrite split_dots_undotted by done. by destruct s. Qed.

Lemma labels_of_dotted l rest : dot ∉ l -> labels_of (l ++ dot :: rest) = l :: labels_of rest.
Proof.
  intros Hl. unfold labels_of. rewrite split_dots_dotted by done.
  destruct (split_dots_cons rest) as (l' & ls & ->). by destruct l.
Qed.

(** The reference, label by label. *)
Lemma encode_reference_label s l ls :
  labels_of s = l :: ls -> fits l = true ->
  encode_reference s = ((if forallb fits ls then true else false),
    encode_label l ++ if forallb fits ls then encode_labels ls else concat (map encode_label (fitting ls))).
Proof.
  intros E Hl. unfold encode_reference. rewrite E. simpl. rewrite Hl. simpl. destruct (forallb fits ls); [|done].
  by rewrite encode_labels_cons.
Qed.

Lemma encode_reference_bad s l ls : labels_of s = l :: ls -> fits l = false -> encode_reference s = (false, []).
Proof. intros E Hl. unfold encode_reference. rewrite E. simpl. by rewrite Hl. Qed.

Lemma fits_guard n : ((n =? 0)%nat || (63 <? n)%nat) = negb ((1 <=? n)%nat && (n <=? 63)%nat).
Proof. destruct (Nat.eqb_spec n 0), (Nat.ltb_spec 63 n), (Nat.leb_spec 1 n), (Nat.leb_spec n 63); simpl; lia. Qed.

Lemma write_labels_reference name : forall fuel w start,
  (start <= length name)%nat -> (length name - start < fuel)%nat ->
  write_labels fuel w name start =
    Done ((encode_reference (drop start name)).1, w ++ (encode_reference (drop start name)).2).
Proof.
  induction fuel as [|fuel IH]; intros w start Hs Hf; [lia|]. cbn [write_labels].
  pose proof (find_dot_inv name start Hs) as Hd. pose proof (length_drop name start) as Elen.
  branch; [|by rewrite drop_ge by lia]. rewrite fits_guard.
  destruct (find_dot name start) as [d|].
  - destruct Hd as (l & rest & El & Hdot & ->). replace (start + length l - start)%nat with (length l) by lia.
    assert (start + length l < length name)%nat.
    { rewrite El, length_app in Elen. simpl in Elen. lia. }
    pose proof (labels_of_dotted l rest Hdot) as Els. rewrite <- El in Els. fold (fits l).
    destruct (fits l) eqn:Hl; cbn [negb]; [|by rewrite (encode_reference_bad _ _ _ Els Hl), app_nil_r].
    rewrite slice_done by lia. cbn [exec_bind]. rewrite write_label_app, (encode_reference_label _ _ _ Els Hl).
    rewrite El, take_app_le, take_ge, IH by lia.
    replace (drop (start + length l + 1) name) with rest.
    2: { rewrite <- Nat.add_assoc, <- drop_drop, El, drop_app_ge by lia.
         by replace (length l + 1 - length l)%nat with 1%nat by lia. }
    unfold encode_reference, write_u8, encode_label. rewrite to_byte_u8, <- !app_assoc.
    by destruct (forallb fits (labels_of rest)).
  - assert (labels_of (drop start name) = [drop start name]) as Els.
    { apply labels_of_undotted; [done|]. intros E. rewrite E in Elen. simpl in Elen. lia. }
    rewrite <- Elen. fold (fits (drop start name)).
    destruct (fits (drop start name)) eqn:Hl; cbn [negb]; [|by rewrite (encode_reference_bad _ _ _ Els Hl), app_nil_r].
    rewrite slice_done by lia. cbn [exec_bind]. rewrite write_label_app, (encode_reference_label _ _ _ Els Hl).
    rewrite take_ge by lia. unfold write_u8, encode_label. rewrite to_byte_u8, <- !app_assoc. done.
Qed.

(** C20. The writer's scanning loop is this encoder: split the name at its dots,
    drop the last piece if it is empty, and emit every label with its length,
    then the root.  Both say yes to the same names, and both have appended the
    same bytes also when they say no: the labels in front of the first that is
    empty or longer than 63 bytes.  The comment on [write_name] rejects every
    empty label; the loop ends before it looks at an empty last one, so a name
    with one dot at its end is accepted, and encoded like the name without. *)
Theorem write_name_reference w name :
  write_name w name = Done ((encode_reference name).1, w ++ (encode_reference name).2).
Proof. unfold write_name. rewrite write_labels_reference by lia. by rewrite drop_0. Qed.
