(* ===== verification/Header.v ===== *)
(** * [dns::header]

    The fixed 12-byte message header
    (include/lambdatech/networking/protocol/dns/header.hpp): the fields of the
    struct, [parse] and [write].  An [enum class] with a fixed underlying type
    holds any value of that type, so [opcode] and [rcode] are 8-bit integers
    with named values. *)

From S2P Require Import Prelude Reader Writer.
#[local] Open Scope Z_scope.

Module opcode.
Definition query := 0.
Definition iquery := 1.
Definition status := 2.
Definition notify := 4.
Definition update := 5.
End opcode.

Module rcode.
Definition no_error := 0.
Definition format_error := 1.
Definition server_failure := 2.
Definition name_error := 3.
Definition not_implemented := 4.
Definition refused := 5.
End rcode.

Record header := mk_header {
  id : Z;
  response : bool;
  opcode_ : Z;
  authoritative : bool;
  truncated : bool;
  recursion_desired : bool;
  recursion_available : bool;
  rcode_ : Z;
  question_count : Z;
  answer_count : Z;
  authority_count : Z;
  additional_count : Z
}.

#[export] Instance header_eq_dec : EqDecision header.
Proof. solve_decision. Defined.

Definition default_header : header :=
  mk_header 0 false opcode.query false false false false rcode.no_error 0 0 0 0.

Definition wire_size : nat := 12.

(** [(flags >> n) & 0x1], converted to bool. *)
Definition flag (flags n : Z) : bool := negb (Z.land (Z.shiftr flags n) 0x1 =? 0).

Definition unpack (id flags qd an ns ar : Z) : header :=
  mk_header id
    (flag flags 15)
    (Z.land (Z.shiftr flags 11) 0xF)
    (flag flags 10)
    (flag flags 9)
    (flag flags 8)
    (flag flags 7)
    (Z.land flags 0xF)
    qd an ns ar.

(** All six reads happen before the first test. *)
Definition parse_header (r : reader) : exec (option header * reader) :=
  do (id, r) := read_u16 r in
  do (flags, r) := read_u16 r in
  do (qd, r) := read_u16 r in
  do (an, r) := read_u16 r in
  do (ns, r) := read_u16 r in
  do (ar, r) := read_u16 r in
  Done
    (match id, flags, qd, an, ns, ar with
     | Some id, Some flags, Some qd, Some an, Some ns, Some ar => Some (unpack id flags qd an ns ar)
     | _, _, _, _, _, _ => None
     end, r).

(** The flags word of [write], one [|=] after the other. *)
Definition pack_flags (response : bool) (opcode : Z) (authoritative truncated recursion_desired
    recursion_available : bool) (rcode : Z) : Z :=
  let flags := 0 in
  let flags := u16 (Z.lor flags (Z.shiftl (Z.b2z response) 15)) in
  let flags := u16 (Z.lor flags (Z.shiftl (Z.land opcode 0xF) 11)) in
  let flags := u16 (Z.lor flags (Z.shiftl (Z.b2z authoritative) 10)) in
  let flags := u16 (Z.lor flags (Z.shiftl (Z.b2z truncated) 9)) in
  let flags := u16 (Z.lor flags (Z.shiftl (Z.b2z recursion_desired) 8)) in
  let flags := u16 (Z.lor flags (Z.shiftl (Z.b2z recursion_available) 7)) in
  u16 (Z.lor flags (Z.land rcode 0xF)).

Definition pack (h : header) : Z :=
  pack_flags (response h) (opcode_ h) (authoritative h) (truncated h) (recursion_desired h)
    (recursion_available h) (rcode_ h).

Definition write_header (h : header) (w : writer) : writer :=
  let w := write_u16 w (id h) in
  let w := write_u16 w (pack h) in
  let w := write_u16 w (question_count h) in
  let w := write_u16 w (answer_count h) in
  let w := write_u16 w (authority_count h) in
  write_u16 w (additional_count h).

(** ** Well-formed headers *)

(** The fields have the widths the wire has: 16-bit words, 4-bit codes. *)
Definition header_ok (h : header) : Prop :=
  is_u16 (id h) /\ 0 <= opcode_ h < 16 /\ 0 <= rcode_ h < 16 /\
  is_u16 (question_count h) /\ is_u16 (answer_count h) /\
  is_u16 (authority_count h) /\ is_u16 (additional_count h).

Definition header_bytes (h : header) : bytes :=
  be16 (id h) ++ be16 (pack h) ++ be16 (question_count h) ++ be16 (answer_count h) ++
  be16 (authority_count h) ++ be16 (additional_count h).

Lemma write_header_app h w : write_header h w = w ++ header_bytes h.
Proof. unfold write_header, header_bytes. rewrite !write_u16_app. by rewrite <- !app_assoc. Qed.

Lemma length_header_bytes h : length (header_bytes h) = wire_size.
Proof. done. Qed.

(** ** Reading back a big-endian word *)

Lemma be16_val v : is_u16 v -> byte_val (to_byte (v / 256)) * 256 + byte_val (to_byte v) = v.
Proof.
  unfold is_u16. intros Hv. rewrite !byte_val_to_byte. unfold u8.
  rewrite (Z.mod_small (v / 256)).
  - change (2 ^ 8) with 256. pose proof (Z.div_mod v 256 ltac:(lia)). lia.
  - split; [apply Z.div_pos; lia|apply Z.div_lt_upper_bound; lia].
Qed.

Lemma read_be16 r v rest :
  reader_ok r -> unread r = be16 v ++ rest -> is_u16 v -> read_u16 r = Done (Some v, advance r 2).
Proof. intros Hok Hu Hv. rewrite (read_u16_next r _ _ rest Hok Hu). by rewrite be16_val. Qed.

Lemma be16_advance_ok r v rest :
  reader_ok r -> unread r = be16 v ++ rest -> reader_ok (advance r 2).
Proof. intros Hok Hu. apply advance_ok; [done|]. by apply (unread_fits r (be16 v) rest). Qed.

Lemma be16_advance_unread r v rest : unread r = be16 v ++ rest -> unread (advance r 2) = rest.
Proof. intros Hu. by apply (unread_advance r (be16 v)). Qed.

Lemma u16_is_u16 z : is_u16 (u16 z).
Proof. apply Z.mod_pos_bound. done. Qed.

Lemma pack_is_u16 h : is_u16 (pack h).
Proof. unfold pack, pack_flags. apply u16_is_u16. Qed.

#[export] Hint Resolve u16_is_u16 pack_is_u16 be16_advance_ok be16_advance_unread : net.

(** Consumes the next big-endian word of the stream. *)
Ltac next_be16 Hok Hu :=
  match type of Hu with
  | unread ?r = be16 ?v ++ ?rest =>
      rewrite (read_be16 r v rest Hok Hu) by (auto with net); cbn [exec_bind];
      pose proof (be16_advance_ok r v rest Hok Hu) as Hok';
      pose proof (be16_advance_unread r v rest Hu) as Hu';
      clear Hok Hu; rename Hok' into Hok; rename Hu' into Hu
  end.

(** ** The flags word *)

(** Every combination of the seven packed fields is packed and unpacked;
    8192 of them. *)
Definition pack_check (qr aa tc rd ra : bool) (op rc : Z) : bool :=
  let f := pack_flags qr op aa tc rd ra rc in
  Bool.eqb (flag f 15) qr && (Z.land (Z.shiftr f 11) 0xF =? op) && Bool.eqb (flag f 10) aa &&
  Bool.eqb (flag f 9) tc && Bool.eqb (flag f 8) rd && Bool.eqb (flag f 7) ra && (Z.land f 0xF =? rc).

Definition nibbles : list Z := seqZ 0 16.
Definition bools : list bool := [true; false].

Lemma pack_check_all :
  forallb (fun qr => forallb (fun aa => forallb (fun tc => forallb (fun rd => forallb (fun ra =>
    forallb (fun op => forallb (pack_check qr aa tc rd ra op) nibbles) nibbles) bools) bools) bools) bools) bools
  = true.
Proof. vm_compute. reflexivity. Qed.

Lemma forallb_elem {A} (f : A -> bool) (l : list A) x : forallb f l = true -> x ∈ l -> f x = true.
Proof. rewrite forallb_forall. intros H Hx. apply H. by apply list_elem_of_In. Qed.

Lemma bools_all b : b ∈ bools.
Proof. destruct b; unfold bools; set_solver. Qed.

Lemma nibbles_all z : 0 <= z < 16 -> z ∈ nibbles.
Proof. intros H. apply elem_of_seqZ. lia. Qed.

Lemma pack_check_ok qr aa tc rd ra op rc :
  0 <= op < 16 -> 0 <= rc < 16 -> pack_check qr aa tc rd ra op rc = true.
Proof.
  intros Hop%nibbles_all Hrc%nibbles_all.
  refine (forallb_elem (pack_check qr aa tc rd ra op) nibbles rc _ Hrc).
  refine (forallb_elem (fun op => forallb _ nibbles) nibbles op _ Hop).
  refine (forallb_elem (fun ra => forallb _ nibbles) bools ra _ (bools_all ra)).
  refine (forallb_elem (fun rd => forallb _ bools) bools rd _ (bools_all rd)).
  refine (forallb_elem (fun tc => forallb _ bools) bools tc _ (bools_all tc)).
  refine (forallb_elem (fun aa => forallb _ bools) bools aa _ (bools_all aa)).
  exact (forallb_elem (fun qr => forallb _ bools) bools qr pack_check_all (bools_all qr)).
Qed.

Lemma pack_check_fields qr aa tc rd ra op rc :
  pack_check qr aa tc rd ra op rc = true ->
  let f := pack_flags qr op aa tc rd ra rc in
  flag f 15 = qr /\ Z.land (Z.shiftr f 11) 0xF = op /\ flag f 10 = aa /\ flag f 9 = tc /\
  flag f 8 = rd /\ flag f 7 = ra /\ Z.land f 0xF = rc.
Proof.
  unfold pack_check. cbv zeta. generalize (pack_flags qr op aa tc rd ra rc). intros f.
  rewrite !andb_true_iff, !eqb_true_iff, !Z.eqb_eq. tauto.
Qed.

Lemma unpack_pack h :
  0 <= opcode_ h < 16 -> 0 <= rcode_ h < 16 ->
  unpack (id h) (pack h) (question_count h) (answer_count h) (authority_count h) (additional_count h) = h.
Proof.
  intros Hop Hrc. unfold unpack, pack.
  destruct (pack_check_fields (response h) (authoritative h) (truncated h) (recursion_desired h)
    (recursion_available h) (opcode_ h) (rcode_ h)) as (-> & -> & -> & -> & -> & -> & ->).
  - by apply pack_check_ok.
  - by destruct h.
Qed.

Lemma flag_testbit f n : 0 <= n -> flag f n = Z.testbit f n.
Proof.
  intros Hn. unfold flag. change 1 with (Z.ones 1). rewrite Z.land_ones by lia.
  rewrite Z.testbit_odd, <- Z.bit0_odd. rewrite <- Z.bit0_mod.
  by destruct (Z.testbit (Z.shiftr f n) 0).
Qed.

(** Writing back a flags word keeps every bit but the three reserved ones
    (Z, AD, CD: bits 4 to 6), which the struct has no field for. *)
Lemma testbit_flag b k i : 0 <= k -> 0 <= i -> Z.testbit (Z.shiftl (Z.b2z b) k) i = (i =? k) && b.
Proof.
  intros Hk Hi. rewrite Z.shiftl_spec by done. destruct (Z.eqb_spec i k) as [->|].
  - by rewrite Z.sub_diag, Z.b2z_bit0.
  - destruct b; [|by rewrite Z.testbit_0_l]. change (Z.b2z true) with (2 ^ 0).
    by rewrite Z.pow2_bits_false by lia.
Qed.

Lemma testbit_nibble z i : 0 <= i -> Z.testbit (Z.land z 0xF) i = (i <? 4) && Z.testbit z i.
Proof.
  intros Hi. rewrite Z.land_spec. change 0xF with (Z.ones 4). rewrite Z.testbit_ones by lia.
  rewrite (proj2 (Z.leb_le 0 i)) by lia. simpl. apply andb_comm.
Qed.

Lemma testbit_opcode f i :
  0 <= i -> Z.testbit (Z.shiftl (Z.land (Z.land (Z.shiftr f 11) 0xF) 0xF) 11) i =
    (11 <=? i) && (i <? 15) && Z.testbit f i.
Proof.
  intros Hi. rewrite Z.shiftl_spec by done. destruct (Z.leb_spec 11 i); simpl.
  - rewrite !testbit_nibble by lia. rewrite Z.shiftr_spec by lia. rewrite Z.sub_add.
    replace (i - 11 <? 4) with (i <? 15) by lia. by destruct (i <? 15).
  - by rewrite Z.testbit_neg_r by lia.
Qed.

Lemma u16_testbit z i : 0 <= i -> Z.testbit (u16 z) i = (i <? 16) && Z.testbit z i.
Proof.
  intros Hi. unfold u16. destruct (Z.ltb_spec i 16).
  - by rewrite Z.mod_pow2_bits_low.
  - by rewrite Z.mod_pow2_bits_high.
Qed.

Lemma pack_unpack_flags i f qd an ns ar :
  is_u16 f -> pack (unpack i f qd an ns ar) = Z.land f 0xFF8F.
Proof.
  intros Hf. apply Z.bits_inj'. intros n Hn.
  unfold pack, pack_flags. cbn [unpack response opcode_ authoritative truncated recursion_desired
    recursion_available rcode_]. rewrite !flag_testbit by lia.
  destruct (Z.ltb_spec n 16) as [Hlt|Hge].
  2: { rewrite u16_testbit by lia. rewrite (proj2 (Z.ltb_ge n 16)) by lia.
       rewrite andb_false_l, Z.land_spec, (testbit_high f 16) by (unfold is_u16 in Hf; lia). done. }
  repeat first [rewrite u16_testbit by lia | rewrite Z.lor_spec]. rewrite (Z.land_spec f).
  rewrite !testbit_flag, testbit_opcode, !testbit_nibble by lia. rewrite Z.bits_0.
  generalize (Z.testbit f). intros bit.
  assert (n ∈ seqZ 0 16) as Hin by (apply elem_of_seqZ; lia). clear Hn Hlt. revert n Hin.
  apply Forall_forall. let l := eval vm_compute in (seqZ 0 16) in change (seqZ 0 16) with l.
  repeat apply Forall_cons_2; [..|apply Forall_nil_2];
    cbn; rewrite ?orb_false_r, ?andb_true_r, ?andb_false_r; done.
Qed.

Lemma read_u16_cases r :
  reader_ok r ->
  ((length (unread r) < 2)%nat /\ read_u16 r = Done (None, r)) \/
  exists hi lo rest, unread r = [hi; lo] ++ rest /\
    read_u16 r = Done (Some (byte_val hi * 256 + byte_val lo), advance r 2) /\
    reader_ok (advance r 2) /\ unread (advance r 2) = rest.
Proof.
  intros Hok. destruct (unread r) as [|hi [|lo rest]] eqn:Hu.
  - left. split; [simpl; lia|]. apply read_u16_short; [done|]. rewrite Hu. simpl. lia.
  - left. split; [simpl; lia|]. apply read_u16_short; [done|]. rewrite Hu. simpl. lia.
  - right. exists hi, lo, rest. split; [done|]. change (hi :: lo :: rest) with ([hi; lo] ++ rest) in Hu.
    split_and!.
    + by apply read_u16_next with rest.
    + apply advance_ok; [done|]. by apply (unread_fits r [hi; lo] rest).
    + by apply (unread_advance r [hi; lo]).
Qed.

Lemma be_word_is_u16 hi lo : is_u16 (byte_val hi * 256 + byte_val lo).
Proof. pose proof (byte_val_range hi). pose proof (byte_val_range lo). unfold is_u16. lia. Qed.

Lemma be16_word hi lo : be16 (byte_val hi * 256 + byte_val lo) = [hi; lo].
Proof.
  pose proof (byte_val_range hi). pose proof (byte_val_range lo). unfold be16. f_equal; [|f_equal].
  - rewrite Z.div_add_l by lia. rewrite Z.div_small by lia. rewrite Z.add_0_r. apply to_byte_val.
  - apply byte_val_inj. rewrite byte_val_to_byte. unfold u8.
    rewrite Z.add_comm. rewrite Z_mod_plus_full. by apply Z.mod_small.
Qed.

#[export] Hint Resolve be_word_is_u16 : net.

(** Reads one more word at the given reader: either it is there, or the whole
    header is short. *)
Ltac next_word r Hok :=
  let Hshort := fresh "Hshort" in let E := fresh "E" in let Hok' := fresh "Hok" in
  let hi := fresh "hi" in let lo := fresh "lo" in let rest := fresh "rest" in
  let Hu := fresh "Hu" in let Hu' := fresh "Hu'" in
  destruct (read_u16_cases r Hok) as [[Hshort E]|(hi & lo & rest & Hu & -> & Hok' & Hu')];
  [left; split;
   [repeat match goal with H : unread _ = _ |- _ => apply (f_equal length) in H; simpl in H end;
    unfold wire_size; lia
   |repeat (rewrite E; cbn [exec_bind]); eexists; split; [reflexivity|by split]]
  |cbn [exec_bind]; clear Hok; rename Hok' into Hok; subst rest].

(** The outcome of parsing at any cursor: with twelve bytes left they are
    unpacked, with fewer the result is nullopt. *)
Lemma parse_header_cases r :
  reader_ok r ->
  ((length (unread r) < wire_size)%nat /\
     exists r', parse_header r = Done (None, r') /\ reader_ok r' /\ buffer_ r' = buffer_ r) \/
  exists b0 b1 b2 b3 b4 b5 b6 b7 b8 b9 b10 b11 rest,
    unread r = [b0; b1; b2; b3; b4; b5; b6; b7; b8; b9; b10; b11] ++ rest /\
    parse_header r = Done (Some (unpack (byte_val b0 * 256 + byte_val b1) (byte_val b2 * 256 + byte_val b3)
      (byte_val b4 * 256 + byte_val b5) (byte_val b6 * 256 + byte_val b7)
      (byte_val b8 * 256 + byte_val b9) (byte_val b10 * 256 + byte_val b11)), advance r 12) /\
    reader_ok (advance r 12).
Proof.
  intros Hok. unfold parse_header.
  next_word r Hok. next_word (advance r 2) Hok. next_word (advance (advance r 2) 2) Hok.
  next_word (advance (advance (advance r 2) 2) 2) Hok.
  next_word (advance (advance (advance (advance r 2) 2) 2) 2) Hok.
  next_word (advance (advance (advance (advance (advance r 2) 2) 2) 2) 2) Hok.
  right. do 13 eexists. split.
  { repeat match goal with H : unread _ = _ |- _ => rewrite H; clear H end. reflexivity. }
  assert (advance (advance (advance (advance (advance (advance r 2) 2) 2) 2) 2) 2 = advance r 12) as Ea.
  { unfold advance, seek. simpl. f_equal. lia. }
  rewrite <- Ea. done.
Qed.

Lemma parse_header_next r h rest :
  reader_ok r -> unread r = header_bytes h ++ rest -> header_ok h ->
  parse_header r = Done (Some h, advance r wire_size).
Proof.
  intros Hok Hu (H1 & H2 & H3 & H4 & H5 & H6 & H7). unfold header_bytes in Hu. rewrite <- !app_assoc in Hu.
  unfold parse_header. do 6 next_be16 Hok Hu. rewrite unpack_pack by done.
  do 2 f_equal. unfold advance, seek, wire_size. simpl. f_equal. lia.
Qed.

Lemma unpack_ok i f qd an ns ar :
  is_u16 i -> is_u16 qd -> is_u16 an -> is_u16 ns -> is_u16 ar -> header_ok (unpack i f qd an ns ar).
Proof.
  intros. unfold header_ok; cbn [unpack id opcode_ rcode_ question_count answer_count authority_count additional_count].
  change 0xF with (Z.ones 4). rewrite !Z.land_ones by lia.
  split_and!; auto; apply Z.mod_pos_bound; lia.
Qed.

Lemma mask_reserved b2 b3 :
  be16 (Z.land (byte_val b2 * 256 + byte_val b3) 0xFF8F) = [b2; to_byte (Z.land (byte_val b3) 0x8F)].
Proof.
  pose proof (byte_val_range b3). pose proof (byte_val_range b2).
  replace (Z.land (byte_val b2 * 256 + byte_val b3) 0xFF8F)
    with (byte_val b2 * 256 + byte_val (to_byte (Z.land (byte_val b3) 0x8F))).
  - apply be16_word.
  - change 256 with (2 ^ 8). rewrite <- (lor_shiftl_add (byte_val b2) (byte_val b3) 8) by lia.
    rewrite Z.land_lor_distr_l.
    assert (Z.land (Z.shiftl (byte_val b2) 8) 0xFF8F = Z.shiftl (byte_val b2) 8) as -> by (by destruct b2).
    assert (Z.land (byte_val b3) 0xFF8F = byte_val (to_byte (Z.land (byte_val b3) 0x8F))) as -> by (by destruct b3).
    by rewrite lor_shiftl_add by (try apply byte_val_range; lia).
Qed.

(** ** Properties *)

(** Header round trip: a header whose fields fit their wire widths is read
    back unchanged from the twelve bytes [write] appends, wherever they stand,
    and the cursor ends right after them. *)
Theorem header_roundtrip h pre suf :
  header_ok h -> buf_ok (write_header h pre ++ suf) ->
  parse_header (mk_reader (write_header h pre ++ suf) (length pre)) =
    Done (Some h, mk_reader (write_header h pre ++ suf) (length pre + wire_size)).
Proof.
  intros Hh Hbuf. set (r := mk_reader _ _).
  assert (reader_ok r) as Hok.
  { split; [|done]. simpl. rewrite write_header_app, !length_app. lia. }
  assert (unread r = header_bytes h ++ suf) as Hu.
  { unfold unread. simpl. by rewrite write_header_app, <- app_assoc, drop_app_length. }
  rewrite (parse_header_next r h suf Hok Hu Hh). done.
Qed.

Lemma header_roundtrip_witness :
  let h := mk_header 0x1234 true opcode.notify false true true false rcode.refused 1 2 3 65535 in
  header_ok h /\
  parse_header (mk_reader (write_header h [Byte.x00] ++ []) 1) =
    Done (Some h, mk_reader (write_header h [Byte.x00] ++ []) (1 + wire_size)).
Proof.
  split; [vm_compute; intuition discriminate|].
  apply header_roundtrip; [vm_compute; intuition discriminate|reflexivity].
Defined.

(** Parsing succeeds exactly when twelve bytes are left, and writing the
    parsed header back reproduces those bytes except for the three reserved
    bits of the flags word, which come out as zero. *)
Theorem header_parse_write r :
  reader_ok r ->
  exists oh r', parse_header r = Done (oh, r') /\ reader_ok r' /\
    match oh with
    | None => (length (unread r) < wire_size)%nat
    | Some h => exists b0 b1 b2 b3 tail rest, length tail = 8%nat /\
        unread r = [b0; b1; b2; b3] ++ tail ++ rest /\
        write_header h [] = [b0; b1; b2; to_byte (Z.land (byte_val b3) 0x8F)] ++ tail /\ header_ok h
    end.
Proof.
  intros Hok. destruct (parse_header_cases r Hok)
    as [(Hlen & r' & E & Hok' & _)|(b0 & b1 & b2 & b3 & b4 & b5 & b6 & b7 & b8 & b9 & b10 & b11 & rest & Hu & E & Hok')];
    rewrite E; eexists _, _; (split; [done|]; split; [done|]); simpl; [done|].
  exists b0, b1, b2, b3, [b4; b5; b6; b7; b8; b9; b10; b11], rest. split; [done|]. split; [done|]. split.
  - rewrite write_header_app. unfold header_bytes. rewrite pack_unpack_flags by auto with net.
    cbn [unpack id question_count answer_count authority_count additional_count].
    rewrite !be16_word, mask_reserved. done.
  - apply unpack_ok; auto with net.
Qed.

Lemma header_parse_write_witness :
  let r := new_reader [Byte.x12; Byte.x34; Byte.x01; Byte.x70; Byte.x00; Byte.x01;
                       Byte.x00; Byte.x00; Byte.x00; Byte.x00; Byte.x00; Byte.x00] in
  reader_ok r /\
  exists oh r', parse_header r = Done (oh, r') /\ reader_ok r' /\
    match oh with
    | None => (length (unread r) < wire_size)%nat
    | Some h => exists b0 b1 b2 b3 tail rest, length tail = 8%nat /\
        unread r = [b0; b1; b2; b3] ++ tail ++ rest /\
        write_header h [] = [b0; b1; b2; to_byte (Z.land (byte_val b3) 0x8F)] ++ tail /\ header_ok h
    end.
Proof.
  split; [by vm_compute; intuition (discriminate || lia)|].
  apply header_parse_write. vm_compute. intuition (discriminate || lia).
Defined.
