(* ===== verification/Message.v ===== *)
(** * [dns::message]

    The header plus the question section
    (include/lambdatech/networking/protocol/dns/message.hpp): [parse],
    [serialize] and the content equality [operator==]. *)

From S2P Require Import Prelude Reader Writer Names Header.
#[local] Open Scope Z_scope.

Module record_type.
Definition a := 1.
Definition ns := 2.
Definition cname := 5.
Definition soa := 6.
Definition ptr := 12.
Definition mx := 15.
Definition txt := 16.
Definition aaaa := 28.
End record_type.

Module record_class.
Definition in_ := 1.
End record_class.

Record question := mk_question { name : bytes; type : Z; class_ : Z }.

#[export] Instance question_eq_dec : EqDecision question.
Proof. solve_decision. Defined.

Record message := mk_message { header_ : header; questions : list question }.

Definition default_message : message := mk_message default_header [].

(** The [for (i < question_count)] loop of [parse], with [n] rounds left; the
    three reads of a round all happen before the test. *)
Fixpoint parse_questions (n : nat) (r : reader) (qs : list question) : exec (option (list question)) :=
  match n with
  | O => Done (Some qs)
  | S n' =>
      do (nm, r) := read_name r in
      do (ty, r) := read_u16 r in
      do (cl, r) := read_u16 r in
      match nm, ty, cl with
      | Some nm, Some ty, Some cl => parse_questions n' r (qs ++ [mk_question nm ty cl])
      | _, _, _ => Done None
      end
  end.

Definition parse (datagram : bytes) : exec (option message) :=
  do (oh, r) := parse_header (new_reader datagram) in
  match oh with
  | None => Done None
  | Some h =>
      do oqs := parse_questions (Z.to_nat (question_count h)) r [] in
      match oqs with
      | None => Done None
      | Some qs => Done (Some (mk_message h qs))
      end
  end.

Definition set_question_count (h : header) (n : Z) : header :=
  mk_header (id h) (response h) (opcode_ h) (authoritative h) (truncated h) (recursion_desired h)
    (recursion_available h) (rcode_ h) n (answer_count h) (authority_count h) (additional_count h).

Fixpoint write_questions (qs : list question) (w : writer) : exec (option writer) :=
  match qs with
  | [] => Done (Some w)
  | q :: qs' =>
      do (ok, w) := write_name w (name q) in
      if negb ok then Done None
      else
        let w := write_u16 w (type q) in
        let w := write_u16 w (class_ q) in
        write_questions qs' w
  end.

Definition serialize (m : message) : exec (option bytes) :=
  let out_header := set_question_count (header_ m) (u16 (Z.of_nat (length (questions m)))) in
  let w := write_header out_header new_writer in
  write_questions (questions m) w.

Definition zero_counts (h : header) : header :=
  mk_header (id h) (response h) (opcode_ h) (authoritative h) (truncated h) (recursion_desired h)
    (recursion_available h) (rcode_ h) 0 0 0 0.

(** [operator==] of [message]. *)
Definition message_eqb (x y : message) : bool :=
  bool_decide (zero_counts (header_ x) = zero_counts (header_ y)) &&
  bool_decide (questions x = questions y).

(** ** Parsing any datagram *)

Lemma parse_questions_total n : forall r qs,
  reader_ok r -> exists o, parse_questions n r qs = Done o /\
    match o with
    | None => True
    | Some qs' => exists new, qs' = qs ++ new /\ length new = n /\
        Forall (fun q => exists ls, Forall label_ok ls /\ name q = join ls /\ is_u16 (type q) /\ is_u16 (class_ q)) new
    end.
Proof.
  induction n as [|n IH]; intros r qs Hok; simpl.
  { eexists. split; [done|]. exists []. by rewrite app_nil_r. }
  destruct (read_name_behaved r Hok) as (nm & r1 & E1 & Hok1 & _). rewrite E1. cbn [exec_bind].
  destruct (read_u16_cases r1 Hok1) as [[_ E2]|(h1 & l1 & t1 & _ & E2 & Hok2 & _)]; rewrite E2; cbn [exec_bind].
  { rewrite E2. cbn [exec_bind]. exists None. by destruct nm. }
  destruct (read_u16_cases _ Hok2) as [[_ E3]|(h2 & l2 & t2 & _ & E3 & Hok3 & _)]; rewrite E3; cbn [exec_bind].
  { exists None. by destruct nm. }
  destruct nm as [nm|]; [|by exists None].
  destruct (IH _ (qs ++ [mk_question nm (byte_val h1 * 256 + byte_val l1) (byte_val h2 * 256 + byte_val l2)]) Hok3)
    as (o & -> & Ho). exists o. split; [done|]. destruct o as [qs'|]; [|done].
  destruct Ho as (new & -> & <- & Hall). eexists (_ :: new). split; [by rewrite <- app_assoc|]. split; [done|].
  apply Forall_cons. split; [|done]. apply read_name_some in E1 as (? & ls & ? & Hat & -> & _).
  exists ls. split; [by eapply name_at_labels|]. simpl. auto with net.
Qed.

Lemma parse_done datagram :
  buf_ok datagram ->
  exists o, parse datagram = Done o /\
    match o with
    | None => True
    | Some m => header_ok (header_ m) /\ Z.of_nat (length (questions m)) = question_count (header_ m) /\
        Forall (fun q => exists ls, Forall label_ok ls /\ name q = join ls /\
          is_u16 (type q) /\ is_u16 (class_ q)) (questions m)
    end.
Proof.
  intros Hb. assert (reader_ok (new_reader datagram)) as Hok by auto with net. unfold parse.
  destruct (parse_header_cases _ Hok) as [(_ & r' & E & _)|H].
  { rewrite E. simpl. by exists None. }
  destruct H as (b0 & b1 & b2 & b3 & b4 & b5 & b6 & b7 & b8 & b9 & b10 & b11 & rest & _ & E & Hok').
  rewrite E. cbn [exec_bind]. set (h := unpack _ _ _ _ _ _).
  assert (header_ok h) as Hh by (apply unpack_ok; auto with net). clearbody h.
  destruct (parse_questions_total (Z.to_nat (question_count h)) _ [] Hok') as (o & -> & Ho). simpl.
  destruct o as [qs|]; [|by exists None]. destruct Ho as (new & -> & Hlen & Hall).
  eexists. split; [done|]. simpl. split_and!; [done| |done].
  destruct Hh as (_ & _ & _ & [? _] & _). lia.
Qed.

(** ** What [serialize] writes *)

Definition question_bytes (ls : list bytes) (q : question) : bytes :=
  encode_labels ls ++ be16 (type q) ++ be16 (class_ q).

(** A question whose name the writer accepts and the reader gives back
    unchanged. *)
Definition question_ok (q : question) : Prop :=
  (exists ls, Forall text_label ls /\ name q = join ls) /\ is_u16 (type q) /\ is_u16 (class_ q).

Inductive questions_bytes : list question -> bytes -> Prop :=
  | qb_nil : questions_bytes [] []
  | qb_cons q ls qs bs :
      Forall text_label ls -> name q = join ls -> is_u16 (type q) -> is_u16 (class_ q) ->
      questions_bytes qs bs -> questions_bytes (q :: qs) (question_bytes ls q ++ bs).

Lemma questions_bytes_exist qs : Forall question_ok qs -> exists bs, questions_bytes qs bs.
Proof.
  induction 1 as [|q qs [(ls & ? & ?) [? ?]] _ [bs IH]]; [eexists; constructor|].
  eexists. by econstructor.
Qed.

Lemma write_questions_bytes qs bs :
  questions_bytes qs bs -> forall w, write_questions qs w = Done (Some (w ++ bs)).
Proof.
  induction 1 as [|q ls qs bs Hls Hn Ht Hc _ IH]; intros w; simpl; [by rewrite app_nil_r|].
  rewrite Hn, (write_name_spells w _ ls) by by apply spells_join. cbn [exec_bind negb].
  rewrite IH, !write_u16_app. unfold question_bytes. by rewrite <- !app_assoc.
Qed.

Lemma write_questions_total qs : forall w, exists o, write_questions qs w = Done o.
Proof.
  induction qs as [|q qs IH]; intros w; simpl; [by eexists|].
  destruct (write_name_total w (name q)) as (ok & w' & ->). simpl. destruct ok; simpl; [apply IH|by eexists].
Qed.

Lemma serialize_total m : exists o, serialize m = Done o.
Proof. apply write_questions_total. Qed.

Lemma encode_labels_next r ls rest :
  unread r = encode_labels ls ++ rest -> reader_ok r -> Forall label_ok ls ->
  read_name r = Done (Some (join ls), advance r (length (encode_labels ls))).
Proof.
  intros Hu [Hp _] Hls. destruct r as [buf pos]. unfold unread in Hu. simpl in *.
  assert (buf = take pos buf ++ encode_labels ls ++ rest) as Hb by (rewrite <- Hu; by rewrite take_drop).
  assert (length (take pos buf) = pos) as Hl by (rewrite length_take; lia).
  pose proof (read_encoded_name (take pos buf) ls rest Hls) as H. rewrite <- Hb, Hl in H. done.
Qed.

(** Reading [n] questions where at least [n] are written gives the first [n]. *)
Lemma parse_questions_bytes qs bs :
  questions_bytes qs bs -> forall n r acc rest,
  reader_ok r -> unread r = bs ++ rest -> (n <= length qs)%nat ->
  parse_questions n r acc = Done (Some (acc ++ take n qs)).
Proof.
  induction 1 as [|q ls qs bs Hls Hn Ht Hc _ IH]; intros n r acc rest Hok Hu Hlen; simpl in Hlen.
  { destruct n; [|lia]. simpl. by rewrite app_nil_r. }
  destruct n as [|n]; simpl; [by rewrite app_nil_r|]. unfold question_bytes in Hu. rewrite <- !app_assoc in Hu.
  assert (Forall label_ok ls) as Hlok by (eapply Forall_impl; [done|apply text_label_ok]).
  rewrite (encode_labels_next r ls _ Hu Hok Hlok). cbn [exec_bind].
  pose proof (unread_advance r _ _ _ Hu eq_refl) as Hu1.
  assert (reader_ok (advance r (length (encode_labels ls)))) as Hok1.
  { apply advance_ok; [done|]. by apply (unread_fits _ _ _ Hok Hu). }
  do 2 next_be16 Hok1 Hu1. rewrite <- Hn.
  replace (mk_question (name q) (type q) (class_ q)) with q by (by destruct q).
  rewrite (IH n _ _ rest) by (done || lia). by rewrite <- app_assoc.
Qed.

Definition message_ok (m : message) : Prop :=
  is_u16 (id (header_ m)) /\ 0 <= opcode_ (header_ m) < 16 /\ 0 <= rcode_ (header_ m) < 16 /\
  is_u16 (answer_count (header_ m)) /\ is_u16 (authority_count (header_ m)) /\
  is_u16 (additional_count (header_ m)) /\ Forall question_ok (questions m).

(** Serializing and parsing back, whatever the number of questions: the
    16-bit count field decides how many of them come back. *)
Lemma serialize_parse m :
  message_ok m ->
  exists w, serialize m = Done (Some w) /\
    (buf_ok w -> parse w = Done (Some (mk_message
      (set_question_count (header_ m) (u16 (Z.of_nat (length (questions m)))))
      (take (Z.to_nat (u16 (Z.of_nat (length (questions m))))) (questions m))))).
Proof.
  intros (H1 & H2 & H3 & H4 & H5 & H6 & Hqs).
  destruct (questions_bytes_exist _ Hqs) as [bs Hbs].
  set (n := u16 (Z.of_nat (length (questions m)))). set (h := set_question_count (header_ m) n).
  assert (header_ok h) as Hh by exact (conj H1 (conj H2 (conj H3 (conj (u16_is_u16 _) (conj H4 (conj H5 H6)))))).
  assert (Z.to_nat n <= length (questions m))%nat as Hn.
  { unfold n, u16. pose proof (Z.mod_le (Z.of_nat (length (questions m))) (2 ^ 16)). lia. }
  unfold serialize. fold n h. rewrite write_header_app, (write_questions_bytes _ _ Hbs). simpl.
  eexists. split; [done|]. intros Hbuf. unfold parse.
  set (r := new_reader _). assert (reader_ok r) as Hok by by apply new_reader_ok.
  assert (unread r = header_bytes h ++ bs) as Hu by done.
  rewrite (parse_header_next r h bs Hok Hu Hh). cbn [exec_bind].
  rewrite (parse_questions_bytes _ _ Hbs _ _ _ []).
  - done.
  - apply advance_ok; [done|]. rewrite <- (length_header_bytes h). by apply (unread_fits _ _ _ Hok Hu).
  - rewrite app_nil_r. by apply (unread_advance r _ _ _ Hu).
  - done.
Qed.

Lemma message_eqb_counts h n qs :
  message_eqb (mk_message (set_question_count h n) qs) (mk_message h qs) = true.
Proof. unfold message_eqb. by rewrite !bool_decide_true. Qed.

(** ** Properties *)

(** [message::parse] is total and memory safe: on every datagram it
    terminates with a message or nullopt and performs no out-of-bounds access;
    a message it returns has exactly [question_count] questions, each with a
    name of wire labels and 16-bit type and class. *)
Theorem parse_total_safe datagram :
  buf_ok datagram ->
  exists o, parse datagram = Done o /\
    match o with
    | None => True
    | Some m => header_ok (header_ m) /\ Z.of_nat (length (questions m)) = question_count (header_ m) /\
        Forall (fun q => exists ls, Forall label_ok ls /\ name q = join ls /\
          is_u16 (type q) /\ is_u16 (class_ q)) (questions m)
    end.
Proof. apply parse_done. Qed.

Lemma parse_total_safe_witness :
  exists o, parse (str "anything at all, twelve bytes or more") = Done o /\
    match o with
    | None => True
    | Some m => header_ok (header_ m) /\ Z.of_nat (length (questions m)) = question_count (header_ m) /\
        Forall (fun q => exists ls, Forall label_ok ls /\ name q = join ls /\
          is_u16 (type q) /\ is_u16 (class_ q)) (questions m)
    end.
Proof. apply parse_total_safe. reflexivity. Defined.

(** C19. Message round trip: a well-formed message ([message_ok]: opcode and
    rcode below 16, names of labels of 1 to 63 bytes without dots in them, joined
    by single dots and with none at the end, fields within 16 bits) with at most
    65535 questions serializes, and parsing the result, if its size is one that
    a buffer can have, gives the same content under [operator==], with QDCOUNT
    set to the number of questions and the other three counts exactly as the
    header had them. *)
Theorem message_roundtrip m :
  message_ok m -> Z.of_nat (length (questions m)) < 65536 ->
  exists w, serialize m = Done (Some w) /\
    (buf_ok w -> exists m', parse w = Done (Some m') /\ message_eqb m' m = true /\
       header_ m' = set_question_count (header_ m) (Z.of_nat (length (questions m)))).
Proof.
  intros Hok Hlen. destruct (serialize_parse m Hok) as (w & Hw & Hp). exists w. split; [done|].
  intros Hb. specialize (Hp Hb). rewrite u16_small in Hp by (unfold is_u16; lia).
  rewrite Nat2Z.id, take_ge in Hp by lia. eexists. split; [exact Hp|]. split; [|done].
  destruct m. apply message_eqb_counts.
Qed.

Definition sample_query : message :=
  mk_message (mk_header 0x1234 false opcode.query false false true false rcode.no_error 0 7 0 0)
    [mk_question (str "www.lambdatech.io") record_type.a record_class.in_].

Lemma sample_query_ok : message_ok sample_query.
Proof.
  unfold message_ok. split_and!; try (vm_compute; intuition discriminate).
  apply Forall_singleton. unfold question_ok. split_and!; try (vm_compute; intuition discriminate).
  exists [str "www"; str "lambdatech"; str "io"]. split; [|reflexivity].
  repeat apply Forall_cons_2; try apply Forall_nil_2; (split; [unfold label_ok; simpl; lia|]);
    apply (bool_decide_unpack _); vm_compute; exact I.
Qed.

Lemma message_roundtrip_witness :
  exists w, serialize sample_query = Done (Some w) /\
    (buf_ok w -> exists m', parse w = Done (Some m') /\ message_eqb m' sample_query = true /\
       header_ m' = set_question_count (header_ sample_query) (Z.of_nat (length (questions sample_query)))).
Proof. apply message_roundtrip; [exact sample_query_ok|reflexivity]. Defined.

(** C22. The 16-bit question count wraps: a well-formed message ([message_ok],
    as for the round trip) with [n] questions, 65536 or more, still serializes,
    but parsing the result gives back only the first [n mod 65536] questions. *)
Theorem question_count_wraps m :
  message_ok m -> 65536 <= Z.of_nat (length (questions m)) ->
  exists w, serialize m = Done (Some w) /\
    (buf_ok w -> exists m', parse w = Done (Some m') /\
      questions m' = take (Z.to_nat (Z.of_nat (length (questions m)) mod 65536)) (questions m) /\
      (length (questions m') < length (questions m))%nat).
Proof.
  intros Hok Hlen. destruct (serialize_parse m Hok) as (w & Hw & Hp).
  exists w. split; [done|]. intros Hb. eexists. split; [by apply Hp|]. simpl.
  split; [done|]. unfold u16. rewrite length_take.
  pose proof (Z.mod_pos_bound (Z.of_nat (length (questions m))) (2 ^ 16) eq_refl). lia.
Qed.

Definition many_questions : message :=
  mk_message default_header (replicate (Z.to_nat 65537) (mk_question [] record_type.a record_class.in_)).

Lemma many_questions_ok : message_ok many_questions.
Proof.
  do 6 (split; [vm_compute; intuition discriminate|]).
  apply Forall_replicate. unfold question_ok. split_and!; try (vm_compute; intuition discriminate).
  exists []. split; [constructor|reflexivity].
Qed.

Lemma question_count_wraps_witness :
  exists w, serialize many_questions = Done (Some w) /\
    (buf_ok w -> exists m', parse w = Done (Some m') /\
      questions m' = take (Z.to_nat (Z.of_nat (length (questions many_questions)) mod 65536)) (questions many_questions) /\
      (length (questions m') < length (questions many_questions))%nat).
Proof.
  apply question_count_wraps; [exact many_questions_ok|].
  unfold many_questions, questions. rewrite length_replicate. lia.
Defined.

(** Re-encoding a received message: if every label of a parsed message can
    be spelled in dotted text (contains no dot byte), the message serializes to
    an uncompressed datagram that parses to the very same message. *)
Theorem reencode_parsed datagram m :
  buf_ok datagram -> parse datagram = Done (Some m) ->
  Forall (fun q => exists ls, Forall text_label ls /\ name q = join ls) (questions m) ->
  exists w, serialize m = Done (Some w) /\ (buf_ok w -> parse w = Done (Some m)).
Proof.
  intros Hb Hp Hq. destruct (parse_done datagram Hb) as (o & Ho & Hm).
  rewrite Hp in Ho. simplify_eq. destruct Hm as (Hh & Hlen & Hall).
  assert (message_ok m) as Hok.
  { destruct Hh as (H1 & H2 & H3 & _ & H4 & H5 & H6).
    refine (conj H1 (conj H2 (conj H3 (conj H4 (conj H5 (conj H6 _)))))).
    rewrite Forall_forall in Hq, Hall |- *. intros q Hin. split; [auto|].
    destruct (Hall q Hin) as (_ & _ & _ & ? & ?). done. }
  destruct (serialize_parse m Hok) as (w & Hw & Hp'). exists w. split; [done|]. intros Hbw.
  rewrite Hp' by done. rewrite Hlen. destruct Hh as (_ & _ & _ & Hqd & _).
  rewrite u16_small by done. rewrite <- Hlen, Nat2Z.id, take_ge, Hlen by lia.
  by destruct m as [[] ?].
Qed.

(** A query that names its question through a compression pointer. *)
Definition compressed_datagram : bytes :=
  header_bytes (set_question_count default_header 1) ++
  [Byte.xc0; Byte.x12; Byte.x00; Byte.x01; Byte.x00; Byte.x01] ++ encode_labels [str "example"; str "com"].

Definition compressed_message : message :=
  mk_message (set_question_count default_header 1) [mk_question (str "example.com") 1 1].

Lemma reencode_parsed_witness :
  parse compressed_datagram = Done (Some compressed_message) /\
  exists w, serialize compressed_message = Done (Some w) /\ (buf_ok w -> parse w = Done (Some compressed_message)).
Proof.
  split; [vm_compute; reflexivity|].
  apply (reencode_parsed compressed_datagram); [reflexivity|vm_compute; reflexivity|].
  apply Forall_singleton. exists [str "example"; str "com"]. split; [|reflexivity].
  repeat apply Forall_cons_2; try apply Forall_nil_2; (split; [unfold label_ok; simpl; lia|]);
    apply (bool_decide_unpack _); vm_compute; exact I.
Defined.
