(* ===== verification/Poller.v ===== *)
(** * [core::poller], POSIX backend

    The vocabulary of core/poller_events.hpp and the poll(2) backend of
    core/impl/posix/poller.hpp: the watched descriptors with their masks, the
    eventfd wake channel, and one [run].  The kernel's answer to poll(2) is an
    input of [run]. *)

From stdpp Require Import sorting.
From S2P Require Import Prelude.
#[local] Open Scope Z_scope.

(** ** Interest sets and readiness *)

Module interest.
Definition none := 0.
Definition read := 1.
Definition write := 2.
End interest.

Definition interest_or (a b : Z) : Z := Z.lor a b.

Definition has (set bit : Z) : bool := negb (Z.land set bit =? 0).

Record ready := mk_ready { readable : bool; writable : bool; error : bool; hangup : bool }.

Record event := mk_event { handle : Z; what : ready }.

(** ** poll(2) *)

Definition POLLIN := 0x001.
Definition POLLOUT := 0x004.
Definition POLLERR := 0x008.
Definition POLLHUP := 0x010.

Definition to_poll_mask (i : Z) : Z :=
  let m := 0 in
  let m := if has i interest.read then Z.lor m POLLIN else m in
  if has i interest.write then Z.lor m POLLOUT else m.

(** What poll(2) reports: failure with an errno (only EINTR is told apart), or
    the [revents] of the wake descriptor and of each watched one. *)
Inductive poll_result :=
  | PollFailed (eintr : bool)
  | PollReady (wake_revents : Z) (revents : Z -> Z).

(** [wake_fd_] is represented by its eventfd counter. *)
Record poller := mk_poller { wake : Z; fds : gmap Z Z }.

Definition new_poller : poller := mk_poller 0 ∅.

Definition set_ (p : poller) (fd mask : Z) : poller := mk_poller (wake p) (<[fd := mask]> (fds p)).

Definition set_if_present (p : poller) (fd mask : Z) : poller :=
  match fds p !! fd with
  | Some _ => mk_poller (wake p) (<[fd := mask]> (fds p))
  | None => p
  end.

Definition erase (p : poller) (fd : Z) : poller := mk_poller (wake p) (delete fd (fds p)).

(** Writing 1 to a non-blocking eventfd adds one unless the counter is at its
    maximum, in which case the write fails and is ignored. *)
Definition eventfd_max : Z := 2 ^ 64 - 2.
Definition poke (p : poller) : poller :=
  mk_poller (if wake p <? eventfd_max then wake p + 1 else wake p) (fds p).

(** The [std::map<int, short>] in iteration order: ascending descriptors. *)
Definition fd_le (x y : Z * Z) : Prop := x.1 <= y.1.
#[export] Instance fd_le_dec x y : Decision (fd_le x y) := Z_le_dec x.1 y.1.
#[export] Instance fd_le_trans : Transitive fd_le.
Proof. intros x y z. unfold fd_le. lia. Qed.
#[export] Instance fd_le_total : Total fd_le.
Proof. intros x y. unfold fd_le. lia. Qed.
Definition entries (p : poller) : list (Z * Z) := merge_sort fd_le (map_to_list (fds p)).

(** [timeout ? static_cast<int>(timeout->count()) : -1]. *)
Definition to_int (z : Z) : Z := (z + 2 ^ 31) mod 2 ^ 32 - 2 ^ 31.
Definition poll_ms (timeout : option Z) : Z :=
  match timeout with
  | Some t => to_int t
  | None => -1
  end.

Definition mk_ready_of (re : Z) : ready :=
  mk_ready (negb (Z.land re POLLIN =? 0)) (negb (Z.land re POLLOUT =? 0))
    (negb (Z.land re POLLERR =? 0)) (negb (Z.land re POLLHUP =? 0)).

(** The loop that fills [out] from the pollfds. *)
Definition collect (es : list (Z * Z)) (revents : Z -> Z) : list event :=
  omap (fun e => if revents e.1 =? 0 then None else Some (mk_event e.1 (mk_ready_of (revents e.1)))) es.

(** [run]: the return value, the new [out] and the poller.  [out] is the
    caller's vector; a failing poll(2) returns before it is cleared. *)
Definition run (p : poller) (out : list event) (res : poll_result) : Z * list event * poller :=
  match res with
  | PollFailed eintr => (if eintr then 0 else -1, out, p)
  | PollReady wake_re revents =>
      let p' := if negb (Z.land wake_re POLLIN =? 0) then mk_poller 0 (fds p) else p in
      let out' := collect (entries p) revents in
      (to_int (Z.of_nat (length out')), out', p')
  end.

Definition add (p : poller) (h i : Z) : poller := poke (set_ p h (to_poll_mask i)).
Definition update (p : poller) (h i : Z) : poller := poke (set_if_present p h (to_poll_mask i)).
Definition drop_ (p : poller) (h : Z) : poller := poke (erase p h).
Definition interrupt (p : poller) : poller := poke p.
Definition wait (p : poller) (out : list event) (res : poll_result) : Z * list event * poller :=
  run p out res.

(** ** Lemmas *)

Lemma entries_elem p fd mask : (fd, mask) ∈ entries p <-> fds p !! fd = Some mask.
Proof. unfold entries. rewrite merge_sort_Permutation. apply elem_of_map_to_list. Qed.

Lemma entries_NoDup p : NoDup (entries p).*1.
Proof. unfold entries. rewrite merge_sort_Permutation. apply NoDup_fst_map_to_list. Qed.

Lemma length_entries p : length (entries p) = size (fds p).
Proof. unfold entries. by rewrite merge_sort_Permutation, length_map_to_list. Qed.

Lemma entries_sorted p : StronglySorted fd_le (entries p).
Proof. apply (StronglySorted_merge_sort _). Qed.

Lemma collect_elem es revents ev :
  ev ∈ collect es revents <->
  exists mask, (handle ev, mask) ∈ es /\ revents (handle ev) <> 0 /\ what ev = mk_ready_of (revents (handle ev)).
Proof.
  unfold collect. rewrite list_elem_of_omap. split.
  - intros ([fd mask] & Hin & H). simpl in H. branch_in H; [done|]. simplify_eq. simpl. eauto.
  - intros (mask & Hin & Hne & Hw). exists (handle ev, mask). split; [done|]. simpl.
    branch; [done|]. destruct ev. simpl in *. by subst.
Qed.

Lemma collect_handles es revents :
  handle <$> collect es revents = (filter (fun e => revents e.1 <> 0) es).*1.
Proof.
  induction es as [|e es IH]; [done|]. unfold collect. simpl.
  rewrite filter_cons. branch; case_decide; try done. simpl. f_equal. exact IH.
Qed.

Lemma poke_wakes p : 0 <= wake p -> 0 < wake (poke p).
Proof. unfold poke, eventfd_max; simpl. intros. branch; lia. Qed.

Lemma poke_nonneg p : 0 <= wake p -> 0 <= wake (poke p).
Proof. unfold poke; simpl. intros. branch; lia. Qed.
