(* ===== verification/EventLoop.v ===== *)
(** * [core::event_loop]

    The reactor of core/event_loop.hpp: descriptor watches, deferred
    functions, timers, and one [iterate] of the loop thread.  Closures are
    opaque: [D] is the type of deferred and timer functions, [C] of I/O
    callbacks.  [iterate] runs over any state [S] that contains a loop
    ([HasLoop]), so that a callback is an arbitrary function on [S] and may
    call every operation of the loop itself.  Time is [steady_clock] ticks in
    nanoseconds; clock readings and poll(2) answers are inputs. *)

From S2P Require Import Prelude Poller.
#[local] Open Scope Z_scope.

Record watch_entry (C : Type) := mk_watch_entry { events : Z; cb : C }.
Arguments mk_watch_entry {C}.
Arguments events {C}.
Arguments cb {C}.

Record timer (D : Type) := mk_timer { timer_id : Z; when : Z; fn : D }.
Arguments mk_timer {D}.
Arguments timer_id {D}.
Arguments when {D}.
Arguments fn {D}.

Record loop (D C : Type) := mk_loop {
  poller_ : poller;
  ready_ : list event;
  watches_ : gmap Z (watch_entry C);
  deferred_ : list D;
  timers_ : list (timer D);
  next_timer_id_ : Z;
  started_ : bool;
  quitting_ : bool;
  stop_requested_ : bool
}.
Arguments mk_loop {D C}.
Arguments poller_ {D C}.
Arguments ready_ {D C}.
Arguments watches_ {D C}.
Arguments deferred_ {D C}.
Arguments timers_ {D C}.
Arguments next_timer_id_ {D C}.
Arguments started_ {D C}.
Arguments quitting_ {D C}.
Arguments stop_requested_ {D C}.

Definition ns_per_ms : Z := 1000000.

Section operations.
Context {D C : Type}.
Implicit Types l : loop D C.

Definition new_loop : loop D C := mk_loop new_poller [] ∅ [] [] 1 false false false.

Definition set_watches l (p : poller) (w : gmap Z (watch_entry C)) : loop D C :=
  mk_loop p (ready_ l) w (deferred_ l) (timers_ l) (next_timer_id_ l) (started_ l) (quitting_ l)
    (stop_requested_ l).

Definition set_poller l (p : poller) : loop D C := set_watches l p (watches_ l).

Definition set_deferred l (p : poller) (ds : list D) : loop D C :=
  mk_loop p (ready_ l) (watches_ l) ds (timers_ l) (next_timer_id_ l) (started_ l) (quitting_ l)
    (stop_requested_ l).

Definition set_timers l (p : poller) (ts : list (timer D)) (next : Z) : loop D C :=
  mk_loop p (ready_ l) (watches_ l) (deferred_ l) ts next (started_ l) (quitting_ l) (stop_requested_ l).

Definition set_flags l (p : poller) (started quitting stop_requested : bool) : loop D C :=
  mk_loop p (ready_ l) (watches_ l) (deferred_ l) (timers_ l) (next_timer_id_ l) started quitting
    stop_requested.

Definition set_ready l (p : poller) (evs : list event) : loop D C :=
  mk_loop p evs (watches_ l) (deferred_ l) (timers_ l) (next_timer_id_ l) (started_ l) (quitting_ l)
    (stop_requested_ l).

Definition watch l (h i : Z) (c : C) : loop D C :=
  set_watches l (add (poller_ l) h i) (<[h := mk_watch_entry i c]> (watches_ l)).

Definition modify l (h i : Z) : loop D C :=
  match watches_ l !! h with
  | None => l
  | Some e => set_watches l (update (poller_ l) h i) (<[h := mk_watch_entry i (cb e)]> (watches_ l))
  end.

Definition unwatch l (h : Z) : loop D C :=
  set_watches l (drop_ (poller_ l) h) (delete h (watches_ l)).

Definition defer l (f : D) : loop D C :=
  set_deferred l (interrupt (poller_ l)) (deferred_ l ++ [f]).

(** [now] is the clock reading taken inside; [delay] is in milliseconds. *)
Definition set_timeout l (now delay : Z) (f : D) : Z * loop D C :=
  let id := next_timer_id_ l in
  (id, set_timers l (interrupt (poller_ l)) (timers_ l ++ [mk_timer id (now + delay * ns_per_ms) f])
         (u64 (next_timer_id_ l + 1))).

Definition clear_timeout l (id : Z) : loop D C :=
  set_timers l (poller_ l) (filter (fun t => timer_id t <> id) (timers_ l)) (next_timer_id_ l).

(** [started_.exchange(true)]; a loop already started is left alone. *)
Definition start l : loop D C :=
  if started_ l then l else set_flags l (poller_ l) true false (stop_requested_ l).

(** [stop]; the join of the loop thread has no effect on this state. *)
Definition stop l : loop D C :=
  if started_ l then set_flags l (interrupt (poller_ l)) false true true else l.

(** [run] after its call of [start]: it returns once [stop_requested_] is
    set, which it then clears; [None] is "still blocked". *)
Definition run_wake l : option (loop D C) :=
  if stop_requested_ l then Some (set_flags l (poller_ l) (started_ l) (quitting_ l) false) else None.

Definition running l : bool := started_ l.

(** [std::chrono::duration_cast] truncates towards zero. *)
Definition next_timeout l (now : Z) : option Z :=
  match deferred_ l with
  | _ :: _ => Some 0
  | [] =>
      match timers_ l with
      | [] => None
      | t0 :: _ =>
          let soonest := fold_left (fun soonest t => Z.min soonest (when t)) (timers_ l) (when t0) in
          let ms := Z.quot (soonest - now) ns_per_ms in
          Some (if ms <? 0 then 0 else ms)
      end
  end.

(** The erase loop of [fire_due_timers]: the due timers in order (of which
    the code keeps the functions), and the timers left. *)
Fixpoint take_due (now : Z) (ts : list (timer D)) : list (timer D) * list (timer D) :=
  match ts with
  | [] => ([], [])
  | t :: ts' =>
      let '(due, rest) := take_due now ts' in
      if when t <=? now then (t :: due, rest) else (due, t :: rest)
  end.

End operations.

(** ** One turn of the loop thread *)

Class HasLoop (S D C : Type) := {
  get_loop : S -> loop D C;
  put_loop : loop D C -> S -> S;
  get_put l s : get_loop (put_loop l s) = l
}.

#[export] Program Instance loop_has_loop D C : HasLoop (loop D C) D C := {|
  get_loop l := l; put_loop l _ := l |}.
Next Obligation. done. Qed.

(** The calls the loop thread makes, for reasoning about their order. *)
Inductive call (D C : Type) :=
  | CDeferred (f : D)
  | CTimer (t : timer D)
  | CIo (h : Z) (c : C) (r : ready).
Arguments CDeferred {D C}.
Arguments CTimer {D C}.
Arguments CIo {D C}.

Section iterate.
Context {S D C : Type} `{HL : HasLoop S D C}.
(** The bodies of the closures: arbitrary code over the whole state. *)
Variable call_d : D -> S -> S.
Variable call_c : C -> ready -> S -> S.

Definition call_all (fs : list D) (s : S) : S := fold_left (fun s f => call_d f s) fs s.

Definition fire_due_timers (now : Z) (s : S) : S * list (call D C) :=
  let l := get_loop s in
  let '(due, rest) := take_due now (timers_ l) in
  let s := put_loop (set_timers l (poller_ l) rest (next_timer_id_ l)) s in
  (call_all (fn <$> due) s, CTimer <$> due).

(** The [for (ev : ready_)] loop of [iterate]. *)
Fixpoint dispatch (evs : list event) (s : S) : S * list (call D C) :=
  match evs with
  | [] => (s, [])
  | ev :: evs' =>
      let l := get_loop s in
      if quitting_ l then (s, [])
      else
        match watches_ l !! handle ev with
        | None => dispatch evs' s
        | Some e =>
            let s := call_c (cb e) (what ev) s in
            let '(s, calls) := dispatch evs' s in
            (s, CIo (handle ev) (cb e) (what ev) :: calls)
        end
  end.

(** [iterate]: [res] is poll(2)'s answer, [now] the clock of
    [fire_due_timers]. *)
Definition iterate (res : poll_result) (now : Z) (s : S) : S * list (call D C) :=
  let l := get_loop s in
  if quitting_ l then (s, [])
  else
    let '(n, evs, p) := wait (poller_ l) (ready_ l) res in
    let l := set_ready l p evs in
    let s := put_loop l s in
    if n <? 0 then (s, [])
    else
      let run_now := deferred_ l in
      let s := put_loop (set_deferred l (poller_ l) []) s in
      let s := call_all run_now s in
      let '(s, timer_calls) := fire_due_timers now s in
      let '(s, io_calls) := dispatch evs s in
      (s, (CDeferred <$> run_now) ++ timer_calls ++ io_calls).

End iterate.

(** ** Invariant *)

Definition masks {C} (w : gmap Z (watch_entry C)) : gmap Z Z := (fun e => to_poll_mask (events e)) <$> w.

(** The poller watches exactly what the loop has callbacks for, with the
    matching mask, and timer ids are distinct and below the next one. *)
Definition loop_ok {D C} (l : loop D C) : Prop :=
  fds (poller_ l) = masks (watches_ l) /\ 0 <= wake (poller_ l) /\
  NoDup (timer_id <$> timers_ l) /\ Forall (fun t => timer_id t < next_timer_id_ l) (timers_ l).

(** The two halves of it. *)
Definition watching_ok {D C} (l : loop D C) : Prop :=
  fds (poller_ l) = masks (watches_ l) /\ 0 <= wake (poller_ l).
Definition timers_ok {D C} (l : loop D C) : Prop :=
  NoDup (timer_id <$> timers_ l) /\ Forall (fun t => timer_id t < next_timer_id_ l) (timers_ l).

(** One call on the loop's public interface. *)
Inductive loop_op (D C : Type) :=
  | OWatch (h i : Z) (c : C)
  | OModify (h i : Z)
  | OUnwatch (h : Z)
  | ODefer (f : D)
  | OSetTimeout (now delay : Z) (f : D)
  | OClearTimeout (id : Z)
  | OStart
  | OStop.
Arguments OWatch {D C}.
Arguments OModify {D C}.
Arguments OUnwatch {D C}.
Arguments ODefer {D C}.
Arguments OSetTimeout {D C}.
Arguments OClearTimeout {D C}.
Arguments OStart {D C}.
Arguments OStop {D C}.

Definition apply_op {D C} (l : loop D C) (o : loop_op D C) : loop D C :=
  match o with
  | OWatch h i c => watch l h i c
  | OModify h i => modify l h i
  | OUnwatch h => unwatch l h
  | ODefer f => defer l f
  | OSetTimeout now delay f => (set_timeout l now delay f).2
  | OClearTimeout id => clear_timeout l id
  | OStart => start l
  | OStop => stop l
  end.

Definition apply_ops {D C} (ops : list (loop_op D C)) (l : loop D C) : loop D C := fold_left apply_op ops l.

Section invariant.
Context {D C : Type}.
Implicit Types l : loop D C.

Lemma new_loop_ok : loop_ok (@new_loop D C).
Proof. split_and!; simpl; [by unfold masks; rewrite fmap_empty|done|apply NoDup_nil_2|done]. Qed.

Lemma masks_insert (w : gmap Z (watch_entry C)) h e :
  masks (<[h := e]> w) = <[h := to_poll_mask (events e)]> (masks w).
Proof. unfold masks. by rewrite fmap_insert. Qed.

Lemma masks_delete (w : gmap Z (watch_entry C)) h : masks (delete h w) = delete h (masks w).
Proof. unfold masks. by rewrite fmap_delete. Qed.

Lemma loop_ok_split l : loop_ok l <-> watching_ok l /\ timers_ok l.
Proof. unfold loop_ok, watching_ok, timers_ok. tauto. Qed.

Lemma watch_watching l h i c : watching_ok l -> watching_ok (watch l h i c).
Proof. intros [Hf Hw]. split; [|by apply poke_nonneg]. simpl. by rewrite Hf, masks_insert. Qed.

Lemma modify_watching l h i : watching_ok l -> watching_ok (modify l h i).
Proof.
  intros [Hf Hw]. unfold modify. destruct (watches_ l !! h) as [e|] eqn:E; [|done]. split.
  - simpl. unfold set_if_present. rewrite Hf. unfold masks at 1. rewrite lookup_fmap, E. simpl. by rewrite masks_insert.
  - apply poke_nonneg. unfold set_if_present. by destruct (fds _ !! h).
Qed.

Lemma unwatch_watching l h : watching_ok l -> watching_ok (unwatch l h).
Proof. intros [Hf Hw]. split; [|by apply poke_nonneg]. simpl. by rewrite Hf, masks_delete. Qed.

Lemma set_timeout_watching l now delay f : watching_ok l -> watching_ok (set_timeout l now delay f).2.
Proof. intros [Hf Hw]. split; [done|by apply poke_nonneg]. Qed.

Lemma clear_timeout_watching l id : watching_ok l -> watching_ok (clear_timeout l id).
Proof. done. Qed.

Lemma watch_ok l h i c : loop_ok l -> loop_ok (watch l h i c).
Proof. rewrite !loop_ok_split. intros [??]. split; [by apply watch_watching|done]. Qed.

Lemma modify_ok l h i : loop_ok l -> loop_ok (modify l h i).
Proof.
  rewrite !loop_ok_split. intros [??]. split; [by apply modify_watching|]. unfold modify. by destruct (watches_ l !! h).
Qed.

Lemma unwatch_ok l h : loop_ok l -> loop_ok (unwatch l h).
Proof. rewrite !loop_ok_split. intros [??]. split; [by apply unwatch_watching|done]. Qed.

Lemma defer_ok l f : loop_ok l -> loop_ok (defer l f).
Proof. intros (? & ? & ? & ?). split_and!; [done|by apply poke_nonneg|done|done]. Qed.

Lemma set_timeout_ok l now delay f :
  loop_ok l -> next_timer_id_ l < 2 ^ 64 - 1 -> 0 <= next_timer_id_ l -> loop_ok (set_timeout l now delay f).2.
Proof.
  intros (? & ? & Hnd & Hlt) Hnext Hpos. split_and!; [done|by apply poke_nonneg|simpl|simpl].
  - rewrite fmap_app. apply NoDup_app. split_and!; [done| |apply NoDup_singleton].
    intros x (t & -> & Ht)%list_elem_of_fmap [Heq|[]%not_elem_of_nil]%elem_of_cons. simpl in Heq.
    rewrite Forall_forall in Hlt. specialize (Hlt t Ht). lia.
  - rewrite u64_small by lia. apply Forall_app. split.
    + eapply Forall_impl; [exact Hlt|]. simpl. intros. lia.
    + apply Forall_singleton. simpl. lia.
Qed.

Lemma clear_timeout_ok l id : loop_ok l -> loop_ok (clear_timeout l id).
Proof.
  intros (? & ? & Hnd & Hlt). split_and!; simpl; auto using NoDup_fmap_filter, Forall_filter_keep.
Qed.

Lemma set_flags_ok l p a b c :
  loop_ok l -> fds p = fds (poller_ l) -> 0 <= wake p -> loop_ok (set_flags l p a b c).
Proof. intros (Hf & ? & ? & ?) E ?. split_and!; simpl; auto. by rewrite E. Qed.

Lemma start_ok l : loop_ok l -> loop_ok (start l).
Proof. intros Hl. unfold start. branch; [done|]. apply set_flags_ok; [done|done|apply Hl]. Qed.

Lemma stop_ok l : loop_ok l -> loop_ok (stop l).
Proof. intros Hl. unfold stop. branch; [|done]. apply set_flags_ok; [done|done|apply poke_nonneg, Hl]. Qed.

(** Ids still available. *)
Definition ids_below l (n : Z) : Prop := 0 <= next_timer_id_ l <= n.

Lemma apply_op_ok l o n :
  loop_ok l -> ids_below l n -> n < 2 ^ 64 - 1 ->
  loop_ok (apply_op l o) /\ ids_below (apply_op l o) (n + 1).
Proof.
  intros Hl Hn Hmax. unfold ids_below in *. destruct o; simpl;
    (split; [auto using watch_ok, modify_ok, unwatch_ok, defer_ok, clear_timeout_ok, start_ok, stop_ok with lia|]).
  all: try (simpl; lia).
  - unfold modify. destruct (watches_ l !! h); simpl; lia.
  - apply set_timeout_ok; [done|lia..].
  - rewrite u64_small by lia. lia.
  - unfold start. branch; simpl; lia.
  - unfold stop. branch; simpl; lia.
Qed.

Lemma apply_ops_ok ops : forall l n,
  loop_ok l -> ids_below l n -> n + Z.of_nat (length ops) < 2 ^ 64 - 1 -> loop_ok (apply_ops ops l).
Proof.
  induction ops as [|o ops IH]; intros l n Hl Hn Hmax; [done|]. simpl in *.
  destruct (apply_op_ok l o n Hl Hn) as [? ?]; [lia|]. apply (IH _ (n + 1)); [done|done|lia].
Qed.

Lemma take_due_spec now (ts : list (timer D)) :
  take_due now ts = (filter (fun t => when t <= now) ts, filter (fun t => ~ when t <= now) ts).
Proof.
  induction ts as [|t ts IH]; [done|]. simpl. rewrite IH, !filter_cons.
  branch; do 2 (case_decide; try lia); done.
Qed.

End invariant.

(** ** A turn of the loop thread *)

Section turn.
Context {S D C : Type} `{HL : HasLoop S D C}.
Variable call_d : D -> S -> S.
Variable call_c : C -> ready -> S -> S.

Definition is_io (c : call D C) : bool := match c with CIo _ _ _ => true | _ => false end.
Definition io_handle (c : call D C) : option Z := match c with CIo h _ _ => Some h | _ => None end.

Lemma dispatch_io evs : forall s,
  omap io_handle (dispatch call_c evs s).2 `sublist_of` (handle <$> evs) /\
  Forall (fun c => is_io c = true) (dispatch call_c evs s).2.
Proof.
  induction evs as [|ev evs IH]; intros s; simpl; [split; [constructor|done]|].
  destruct (quitting_ _); simpl; [split; [apply sublist_nil_l|done]|].
  destruct (watches_ _ !! _) as [e|].
  - destruct (dispatch call_c evs _) as [s' calls] eqn:E. simpl.
    specialize (IH (call_c (cb e) (what ev) s)). rewrite E in IH. simpl in IH.
    split; [by apply sublist_skip, IH|]. apply Forall_cons. split; [done|apply IH].
  - split; [apply sublist_cons|]; apply IH.
Qed.

Lemma dispatch_quitting evs s :
  quitting_ (get_loop s) = true -> dispatch call_c evs s = (s, []).
Proof. intros H. destruct evs; simpl; [done|]. by rewrite H. Qed.

(** Dispatching in two parts is dispatching once. *)
Lemma dispatch_app evs1 evs2 : forall s,
  dispatch call_c (evs1 ++ evs2) s =
    (let '(s1, calls1) := dispatch call_c evs1 s in
     let '(s2, calls2) := dispatch call_c evs2 s1 in (s2, calls1 ++ calls2)).
Proof.
  induction evs1 as [|ev evs1 IH]; intros s; simpl; [by destruct (dispatch call_c evs2 s)|].
  destruct (quitting_ _) eqn:Eq; [by rewrite dispatch_quitting|].
  destruct (watches_ _ !! _) as [e|]; [|apply IH].
  rewrite IH. destruct (dispatch call_c evs1 _) as [s1 c1]. by destruct (dispatch call_c evs2 s1).
Qed.

Lemma dispatch_unwatched h evs : forall s,
  (forall c r s, watches_ (get_loop s) !! h = None -> watches_ (get_loop (call_c c r s)) !! h = None) ->
  watches_ (get_loop s) !! h = None -> Some h ∉ io_handle <$> (dispatch call_c evs s).2.
Proof.
  induction evs as [|ev evs IH]; intros s Hc Hs; simpl; [set_solver|].
  destruct (quitting_ _); [set_solver|].
  destruct (watches_ (get_loop s) !! handle ev) as [e|] eqn:E; [|by apply IH].
  destruct (dispatch call_c evs _) as [s' calls] eqn:Ed. simpl.
  specialize (IH (call_c (cb e) (what ev) s) Hc (Hc _ _ _ Hs)). rewrite Ed in IH. simpl in IH.
  rewrite not_elem_of_cons. split; [|done]. intros [= ->]. congruence.
Qed.

(** The state in which the timers are examined. *)
Definition after_deferred (p : poller) (evs : list event) (s : S) : S :=
  let l := set_ready (get_loop s) p evs in
  call_all call_d (deferred_ l) (put_loop (set_deferred l p []) (put_loop l s)).

Lemma iterate_calls res now s n evs p :
  quitting_ (get_loop s) = false -> wait (poller_ (get_loop s)) (ready_ (get_loop s)) res = (n, evs, p) ->
  0 <= n ->
  let s1 := after_deferred p evs s in
  let due := filter (fun t => when t <= now) (timers_ (get_loop s1)) in
  exists s2, (iterate call_d call_c res now s).2 =
    (CDeferred <$> deferred_ (get_loop s)) ++ (CTimer <$> due) ++ (dispatch call_c evs s2).2.
Proof.
  intros Hq Hw Hn. simpl. unfold iterate. rewrite Hq, Hw.
  rewrite (proj2 (Z.ltb_ge n 0) Hn). unfold fire_due_timers. rewrite take_due_spec.
  destruct (dispatch call_c evs _) as [s' calls] eqn:E. eexists. rewrite E. done.
Qed.

End turn.

(** ** Sleeping until the next deadline *)

Section deadline.
Context {D C : Type}.
Implicit Types l : loop D C.

Lemma fold_min_le (ts : list (timer D)) : forall acc,
  fold_left (fun m t => Z.min m (when t)) ts acc <= acc /\
  Forall (fun t => fold_left (fun m t => Z.min m (when t)) ts acc <= when t) ts.
Proof.
  induction ts as [|t ts IH]; intros acc; simpl; [split; [lia|done]|].
  destruct (IH (Z.min acc (when t))) as [H1 H2]. split; [lia|]. apply Forall_cons. split; [lia|done].
Qed.

Lemma fold_min_in (ts : list (timer D)) : forall acc,
  fold_left (fun m t => Z.min m (when t)) ts acc = acc \/
  exists t, t ∈ ts /\ when t = fold_left (fun m t => Z.min m (when t)) ts acc.
Proof.
  induction ts as [|t ts IH]; intros acc; simpl; [by left|].
  destruct (IH (Z.min acc (when t))) as [->|(t' & Ht' & E)].
  - destruct (Z.min_spec acc (when t)) as [[_ ->]|[_ ->]]; [by left|]. right. exists t. split; [set_solver|done].
  - right. exists t'. split; [set_solver|done].
Qed.

End deadline.

(** ** Properties *)

(** C31. Loop invariant: after any sequence of interface calls (fewer than
    2^64 - 2 of them, so that no timer id repeats), the poller polls exactly
    the descriptors the loop holds callbacks for, each with the mask of its
    interest set, and the pending timers have distinct ids. *)
Theorem loop_ops_invariant {D C} (ops : list (loop_op D C)) :
  Z.of_nat (length ops) < 2 ^ 64 - 2 -> loop_ok (apply_ops ops new_loop).
Proof.
  intros H. apply apply_ops_ok with 1; [apply new_loop_ok|unfold ids_below; simpl; lia|lia].
Qed.

Definition sample_ops : list (loop_op nat nat) :=
  [OWatch 5 interest.read 1%nat; OSetTimeout 0 10 2%nat; OWatch 6 interest.write 3%nat; OModify 5 3;
   OUnwatch 6; ODefer 4%nat; OSetTimeout 7 1 5%nat; OClearTimeout 1; OStart; OStop].

Lemma loop_ops_invariant_witness : loop_ok (apply_ops sample_ops new_loop).
Proof. apply loop_ops_invariant. reflexivity. Defined.

(** What one turn calls, and in which order, whatever the callbacks do:
    first the functions deferred before the turn, in order; then the timers due
    at the clock reading, in the order they were set; then I/O callbacks, for a
    subsequence of the descriptors poll(2) reported, in ascending order. *)
Theorem iterate_order {S D C} `{HasLoop S D C} (call_d : D -> S -> S) (call_c : C -> ready -> S -> S)
    wake_re revents now s :
  quitting_ (get_loop s) = false -> Z.of_nat (size (fds (poller_ (get_loop s)))) < 2 ^ 31 ->
  exists s1 io,
    (iterate call_d call_c (PollReady wake_re revents) now s).2 =
      (CDeferred <$> deferred_ (get_loop s)) ++
      (CTimer <$> filter (fun t => when t <= now) (timers_ (get_loop s1))) ++ io /\
    Forall (fun c => is_io c = true) io /\
    omap io_handle io `sublist_of` (entries (poller_ (get_loop s))).*1.
Proof.
  intros Hq Hsize. set (p := poller_ (get_loop s)) in *.
  destruct (iterate_calls call_d call_c (PollReady wake_re revents) now s
    (to_int (Z.of_nat (length (collect (entries p) revents))))
    (collect (entries p) revents) _ Hq eq_refl) as (s2 & ->).
  { assert (length (collect (entries p) revents) <= size (fds p))%nat as Hlen.
    { rewrite <- (length_fmap handle), collect_handles, length_fmap.
      etransitivity; [apply length_filter|]. by rewrite length_entries. }
    unfold to_int. rewrite Z.mod_small by lia. lia. }
  eexists _, _. split; [reflexivity|]. split; [apply dispatch_io|].
  etransitivity; [apply dispatch_io|]. rewrite collect_handles. apply fmap_sublist, sublist_filter.
Qed.

Definition sample_loop : loop nat nat :=
  apply_ops [OWatch 4 interest.read 9%nat; ODefer 7%nat; OSetTimeout 0 1 8%nat] new_loop.

Lemma iterate_order_witness :
  quitting_ sample_loop = false /\
  exists (s1 : loop nat nat) io,
    (iterate (fun _ l => l) (fun _ _ l => l) (PollReady 1 (fun _ => POLLIN)) 2000000 sample_loop).2 =
      (CDeferred <$> deferred_ (get_loop sample_loop)) ++
      (CTimer <$> filter (fun t => when t <= 2000000) (timers_ (get_loop s1))) ++ io /\
    Forall (fun c => is_io c = true) io /\
    omap io_handle io `sublist_of` (entries (poller_ (get_loop sample_loop))).*1.
Proof.
  split; [reflexivity|].
  exact (iterate_order (S := loop nat nat) (fun _ l => l) (fun _ _ l => l) 1 (fun _ => POLLIN) 2000000
    sample_loop eq_refl eq_refl).
Defined.

(** The loop never sleeps past a deadline, and not needlessly short: the
    poll timeout is absent exactly when nothing is deferred or timed; otherwise
    it is non-negative, ends at or before every timer's deadline (or is zero
    when one is overdue), and with nothing deferred some deadline lies less than
    one millisecond after it. *)
Theorem next_timeout_deadline {D C} (l : loop D C) now :
  match next_timeout l now with
  | None => deferred_ l = [] /\ timers_ l = []
  | Some t =>
      0 <= t /\ Forall (fun tm => t * ns_per_ms <= Z.max 0 (when tm - now)) (timers_ l) /\
      (deferred_ l = [] -> exists tm, tm ∈ timers_ l /\ when tm - now < (t + 1) * ns_per_ms)
  end.
Proof.
  unfold next_timeout, ns_per_ms. destruct (deferred_ l) as [|f fs]; [|split_and!; [done| |done]].
  2: { apply Forall_forall. intros. lia. }
  destruct (timers_ l) as [|t0 ts] eqn:Et; [done|]. rewrite <- Et in *.
  set (soonest := fold_left _ _ _). pose proof (fold_min_le (timers_ l) (when t0)) as [_ Hle]. fold soonest in Hle.
  assert (exists tm, tm ∈ timers_ l /\ when tm = soonest) as (tm & Htm & Esoon).
  { destruct (fold_min_in (timers_ l) (when t0)) as [E|?]; [|done].
    exists t0. rewrite Et. split; [set_solver|]. unfold soonest. by rewrite E. }
  pose proof (Z.quot_rem' (soonest - now) 1000000) as Hqr.
  assert (Z.quot (soonest - now) 1000000 < 0 -> soonest - now < 0) as Hneg.
  { intros Hlt. destruct (Z_lt_le_dec (soonest - now) 0) as [|Hnn]; [done|].
    pose proof (Z.quot_pos (soonest - now) 1000000 Hnn ltac:(lia)). lia. }
  branch.
  - split_and!; [lia| |].
    + apply Forall_forall. intros. lia.
    + intros _. exists tm. split; [done|]. rewrite Esoon. specialize (Hneg G). lia.
  - split_and!; [lia| |].
    + eapply Forall_impl; [exact Hle|]. simpl. intros t Ht.
      destruct (Z_lt_le_dec (soonest - now) 0) as [Hn|Hn].
      * pose proof (Z.rem_bound_abs (soonest - now) 1000000 ltac:(lia)). lia.
      * pose proof (Z.rem_bound_pos (soonest - now) 1000000 Hn ltac:(lia)). lia.
    + intros _. exists tm. split; [done|]. rewrite Esoon.
      destruct (Z_lt_le_dec (soonest - now) 0) as [Hn|Hn]; [lia|].
      pose proof (Z.rem_bound_pos (soonest - now) 1000000 Hn ltac:(lia)). lia.
Qed.

(** A callback that unwatches a descriptor suppresses its pending event of
    the same turn: once the descriptor has no watch, and as long as no callback
    watches it again, the rest of the turn does not call into it, even though
    poll(2) reported it. *)
Theorem unwatched_not_dispatched {S D C} `{HasLoop S D C} (call_c : C -> ready -> S -> S) h evs1 evs2 s s1 calls1 :
  dispatch call_c evs1 s = (s1, calls1) -> watches_ (get_loop s1) !! h = None ->
  (forall c r s, watches_ (get_loop s) !! h = None -> watches_ (get_loop (call_c c r s)) !! h = None) ->
  exists calls2, (dispatch call_c (evs1 ++ evs2) s).2 = calls1 ++ calls2 /\
    Some h ∉ io_handle <$> calls2.
Proof.
  intros E Hh Hc. rewrite dispatch_app, E. pose proof (dispatch_unwatched call_c h evs2 s1 Hc Hh) as Hn.
  destruct (dispatch call_c evs2 s1) as [s2 calls2]. by exists calls2.
Qed.

(** Callback 1 unwatches descriptor 6, every other callback does nothing. *)
Definition unwatch_6 (c : nat) (_ : ready) (l : loop nat nat) : loop nat nat :=
  if (c =? 1)%nat then unwatch l 6 else l.

Definition both_readable : list event :=
  [mk_event 5 (mk_ready true false false false); mk_event 6 (mk_ready true false false false)].

Definition two_watches : loop nat nat :=
  watch (watch new_loop 5 interest.read 1%nat) 6 interest.read 2%nat.

Lemma unwatched_not_dispatched_witness :
  exists calls2,
    (dispatch unwatch_6 (take 1 both_readable ++ drop 1 both_readable) two_watches).2 =
      [CIo 5 1%nat (mk_ready true false false false)] ++ calls2 /\
    Some 6 ∉ io_handle <$> calls2.
Proof.
  eapply (unwatched_not_dispatched unwatch_6 6); [reflexivity|reflexivity|].
  intros c r l Hl. unfold unwatch_6. destruct (c =? 1)%nat; [apply lookup_delete_eq|exact Hl].
Defined.

(** Which calls must interrupt a blocked poll(2). *)
Definition must_wake {D C} (l : loop D C) (o : loop_op D C) : Prop :=
  match o with
  | OModify h _ => is_Some (watches_ l !! h)
  | OClearTimeout _ | OStart => False
  | OStop => started_ l = true
  | _ => True
  end.

(** C32. No lost wake-up: every call that gives the loop thread something new
    to do (a watch, a changed or removed watch, a deferred function, a timer, a
    stop) leaves the wake descriptor readable, so that the poll(2) in progress
    or the next one returns at once; and the poll that reports it readable
    resets it. *)
Theorem ops_wake_poller {D C} (l : loop D C) (o : loop_op D C) :
  loop_ok l -> must_wake l o ->
  0 < wake (poller_ (apply_op l o)) /\
  forall revents out, wake (wait (poller_ (apply_op l o)) out (PollReady POLLIN revents)).2 = 0.
Proof.
  intros Hl Ho. split; [|done]. destruct o; simpl in *; try done; try (apply poke_wakes; apply Hl).
  - destruct Ho as [e E]. unfold modify. rewrite E. apply poke_wakes. unfold set_if_present.
    destruct (fds _ !! h); apply Hl.
  - unfold stop. rewrite Ho. apply poke_wakes, Hl.
Qed.

Lemma ops_wake_poller_witness :
  0 < wake (poller_ (apply_op two_watches (OModify 5 3))) /\
  forall revents out, wake (wait (poller_ (apply_op two_watches (OModify 5 3))) out (PollReady POLLIN revents)).2 = 0.
Proof.
  apply ops_wake_poller; [|vm_compute; eauto].
  unfold two_watches. apply watch_ok, watch_ok, new_loop_ok.
Defined.

(** A poll(2) interrupted by a signal makes the turn dispatch the events
    of the previous turn again: the backend returns 0 without clearing the
    caller's vector, and the loop goes on with it. *)
Theorem eintr_redispatches {S D C} `{HasLoop S D C} (call_d : D -> S -> S) (call_c : C -> ready -> S -> S)
    now s ev e :
  quitting_ (get_loop s) = false -> deferred_ (get_loop s) = [] -> timers_ (get_loop s) = [] ->
  ready_ (get_loop s) = [ev] -> watches_ (get_loop s) !! handle ev = Some e ->
  (iterate call_d call_c (PollFailed true) now s).2 = [CIo (handle ev) (cb e) (what ev)].
Proof.
  intros Hq Hd Ht Hr Hw. unfold iterate. rewrite Hq. simpl. rewrite Hd. simpl.
  unfold fire_due_timers. rewrite !get_put. simpl. rewrite Ht. simpl. rewrite Hr. simpl.
  rewrite !get_put. simpl. rewrite Hq, Hw. done.
Qed.

(** A loop after a turn in which descriptor 5 was reported readable and its
    callback ran. *)
Definition after_turn : loop nat nat :=
  (iterate (fun _ l => l) (fun _ _ l => l) (PollReady 0 (fun fd => if fd =? 5 then POLLIN else 0)) 0 two_watches).1.

Lemma eintr_redispatches_witness :
  (iterate (fun _ (l : loop nat nat) => l) (fun _ _ l => l) (PollFailed true) 0 after_turn).2 =
    [CIo 5 1%nat (mk_ready true false false false)].
Proof.
  exact (eintr_redispatches (S := loop nat nat) (fun _ l => l) (fun _ _ l => l) 0 after_turn
    (mk_event 5 (mk_ready true false false false)) (mk_watch_entry 1 1%nat)
    eq_refl eq_refl eq_refl eq_refl eq_refl).
Defined.

(** Timers due in the same turn cannot cancel each other: a timer function
    that clears a later timer of the batch is followed by that timer's function
    all the same, because the whole batch left the timer list before the first
    function ran. *)
Theorem clear_within_batch_fires {D C} (body : D -> Z) (l : loop D C) now t1 t2 :
  timers_ l = [t1; t2] -> when t1 <= now -> when t2 <= now -> body (fn t1) = timer_id t2 ->
  (fire_due_timers (fun f l => clear_timeout l (body f)) now l).2 = [CTimer t1; CTimer t2].
Proof.
  intros Ht H1 H2 _. unfold fire_due_timers. simpl. rewrite Ht, take_due_spec. simpl.
  rewrite !filter_cons, filter_nil. by rewrite !decide_True by done.
Qed.

Definition two_timers : loop Z nat :=
  apply_ops [OSetTimeout 0 1 2; OSetTimeout 0 1 0] new_loop.

Lemma clear_within_batch_fires_witness :
  (fire_due_timers (fun f l => clear_timeout l f) 1000000 two_timers).2 =
    [CTimer (mk_timer 1 1000000 2); CTimer (mk_timer 2 1000000 0)].
Proof. by apply (clear_within_batch_fires (fun f => f)). Defined.

(** The poll timeout is right below 2^31 ms; at and above, the conversion
    to [int] changes it, and the first 2^31 such values become negative, which
    poll(2) reads as "wait forever". *)
Theorem poll_ms_range t :
  (0 <= t < 2 ^ 31 -> poll_ms (Some t) = t) /\ (2 ^ 31 <= t < 2 ^ 32 -> poll_ms (Some t) < 0).
Proof.
  unfold poll_ms, to_int. split; intros Ht.
  - rewrite Z.mod_small by lia. lia.
  - rewrite <- (Z_mod_plus _ (-1)) by lia. rewrite Z.mod_small by lia. lia.
Qed.

(** A loop that was started and stopped without [run] keeps the stop
    request: the next [run] starts the loop thread and returns immediately,
    leaving the loop running. *)
Theorem run_after_stop_returns {D C} (l : loop D C) :
  started_ l = false ->
  exists l', run_wake (start (stop (start l))) = Some l' /\ running l' = true.
Proof.
  intros H. unfold start at 2. rewrite H. unfold stop. simpl. unfold start. simpl.
  unfold run_wake. simpl. eauto.
Qed.

Lemma run_after_stop_returns_witness :
  exists l', run_wake (start (stop (start (@new_loop nat nat)))) = Some l' /\ running l' = true.
Proof. apply run_after_stop_returns. reflexivity. Defined.
