(* ===== verification/LoopRun.v ===== *)
(** * The event loop under concurrency

    [core::event_loop] as a transition system.  An interface call changes the
    loop's members under the loop's mutex and, after releasing it, passes the
    change on to the poller and pokes it; each of these pieces is a step that
    the threads take in any order.  The loop thread's turn (core/event_loop.hpp,
    [fire_due_timers] and [iterate]) is cut into the pieces between two lock
    regions, two callbacks, or before and after poll(2).  Theorems quantify over
    all interleavings. *)

From S2P Require Import Prelude Poller EventLoop.
#[local] Open Scope Z_scope.

(** ** Interface calls in pieces *)

(** What a call does to the poller once it has released the loop's mutex. *)
Inductive poller_act := ASet (h mask : Z) | ASetIfPresent (h mask : Z) | AErase (h : Z) | APoke.

Definition run_act (p : poller) (a : poller_act) : poller :=
  match a with
  | ASet h mask => set_ p h mask
  | ASetIfPresent h mask => set_if_present p h mask
  | AErase h => erase p h
  | APoke => poke p
  end.

Section calls.
Context {D C : Type}.
Implicit Types l : loop D C.

(** The part of a call under the loop's mutex, and what is left to do then. *)
Definition locked_part l (o : loop_op D C) : loop D C * list poller_act :=
  match o with
  | OWatch h i c => (set_watches l (poller_ l) (<[h := mk_watch_entry i c]> (watches_ l)), [ASet h (to_poll_mask i); APoke])
  | OModify h i =>
      match watches_ l !! h with
      | None => (l, [])
      | Some e => (set_watches l (poller_ l) (<[h := mk_watch_entry i (cb e)]> (watches_ l)), [ASetIfPresent h (to_poll_mask i); APoke])
      end
  | OUnwatch h => (set_watches l (poller_ l) (delete h (watches_ l)), [AErase h; APoke])
  | ODefer f => (set_deferred l (poller_ l) (deferred_ l ++ [f]), [APoke])
  | OSetTimeout now delay f =>
      (set_timers l (poller_ l) (timers_ l ++ [mk_timer (next_timer_id_ l) (now + delay * ns_per_ms) f])
         (u64 (next_timer_id_ l + 1)), [APoke])
  | OClearTimeout id => (clear_timeout l id, [])
  | OStart => (start l, [])
  | OStop => if started_ l then (set_flags l (poller_ l) false true true, [APoke]) else (l, [])
  end.

(** The pieces make up the call. *)
Lemma op_split l o :
  apply_op l o = set_poller (locked_part l o).1 (fold_left run_act (locked_part l o).2 (poller_ l)).
Proof.
  destruct o; simpl; try done.
  - unfold modify. by destruct (watches_ l !! h); [|destruct l].
  - unfold start. by destruct (started_ l), l.
  - unfold stop. by destruct (started_ l), l.
Qed.

End calls.

(** ** The transition system *)

(** Where the loop thread is inside [iterate]: between turns, in poll(2), after
    it, running deferred functions, timers, callbacks. *)
Inductive phase := Idle | Polling | Polled | Deferring | Timing | Dispatching.
#[export] Instance phase_eq_dec : EqDecision phase.
Proof. solve_decision. Defined.

Record config (D C : Type) := mk_config {
  lp : loop D C;
  at_phase : phase;
  run_now : list D;         (* the swapped-out deferred functions still to run *)
  due : list (timer D);     (* the due timers still to run *)
  pending : list event;     (* the events still to dispatch *)
  inflight : list (list poller_act); (* calls that have not finished with the poller *)
  polled : gmap Z Z         (* the descriptors copied for poll(2) *)
}.
Arguments mk_config {D C}.
Arguments lp {D C}.
Arguments at_phase {D C}.
Arguments run_now {D C}.
Arguments due {D C}.
Arguments pending {D C}.
Arguments inflight {D C}.
Arguments polled {D C}.

Inductive label (D C : Type) :=
  | LOp (o : loop_op D C)
  | LPost (i : nat)
  | LPoll
  | LReturn (res : poll_result)
  | LSwap
  | LDeferred (f : D)
  | LTakeDue (now : Z)
  | LTimer (t : timer D)
  | LSweep
  | LIo (h : Z) (c : C) (r : ready)
  | LSkip (h : Z)
  | LEnd.
Arguments LOp {D C}.
Arguments LPost {D C}.
Arguments LPoll {D C}.
Arguments LReturn {D C}.
Arguments LSwap {D C}.
Arguments LDeferred {D C}.
Arguments LTakeDue {D C}.
Arguments LTimer {D C}.
Arguments LSweep {D C}.
Arguments LIo {D C}.
Arguments LSkip {D C}.
Arguments LEnd {D C}.

Definition init {D C} : config D C := mk_config new_loop Idle [] [] [] [] ∅.

Definition call_begins (acts : list poller_act) (q : list (list poller_act)) : list (list poller_act) :=
  match acts with [] => q | _ => q ++ [acts] end.
Definition call_goes_on (i : nat) (acts : list poller_act) (q : list (list poller_act)) : list (list poller_act) :=
  match acts with [] => delete i q | _ => <[i := acts]> q end.

Inductive step {D C} : config D C -> label D C -> config D C -> Prop :=
  | st_op l ph rn du pe q po o :
      step (mk_config l ph rn du pe q po) (LOp o)
        (mk_config (locked_part l o).1 ph rn du pe (call_begins (locked_part l o).2 q) po)
  | st_post l ph rn du pe q po i a acts :
      q !! i = Some (a :: acts) ->
      step (mk_config l ph rn du pe q po) (LPost i)
        (mk_config (set_poller l (run_act (poller_ l) a)) ph rn du pe (call_goes_on i acts q) po)
  | st_poll l q po :
      quitting_ l = false ->
      step (mk_config l Idle [] [] [] q po) LPoll (mk_config l Polling [] [] [] q (fds (poller_ l)))
  | st_return l q po res n evs p :
      wait (mk_poller (wake (poller_ l)) po) (ready_ l) res = (n, evs, p) -> 0 <= n ->
      step (mk_config l Polling [] [] [] q po) (LReturn res)
        (mk_config (set_ready l (mk_poller (wake p) (fds (poller_ l))) evs) Polled [] [] evs q po)
  | st_failed l q po res n evs p :
      wait (mk_poller (wake (poller_ l)) po) (ready_ l) res = (n, evs, p) -> n < 0 ->
      step (mk_config l Polling [] [] [] q po) (LReturn res)
        (mk_config (set_ready l (mk_poller (wake p) (fds (poller_ l))) evs) Idle [] [] [] q po)
  | st_swap l evs q po :
      step (mk_config l Polled [] [] evs q po) LSwap
        (mk_config (set_deferred l (poller_ l) []) Deferring (deferred_ l) [] evs q po)
  | st_deferred l f fs evs q po :
      step (mk_config l Deferring (f :: fs) [] evs q po) (LDeferred f) (mk_config l Deferring fs [] evs q po)
  | st_take_due l now evs ts rest q po :
      take_due now (timers_ l) = (ts, rest) ->
      step (mk_config l Deferring [] [] evs q po) (LTakeDue now)
        (mk_config (set_timers l (poller_ l) rest (next_timer_id_ l)) Timing [] ts evs q po)
  | st_timer l t ts evs q po :
      step (mk_config l Timing [] (t :: ts) evs q po) (LTimer t) (mk_config l Timing [] ts evs q po)
  | st_sweep l evs q po :
      step (mk_config l Timing [] [] evs q po) LSweep (mk_config l Dispatching [] [] evs q po)
  | st_io l ev evs e q po :
      quitting_ l = false -> watches_ l !! handle ev = Some e ->
      step (mk_config l Dispatching [] [] (ev :: evs) q po) (LIo (handle ev) (cb e) (what ev))
        (mk_config l Dispatching [] [] evs q po)
  | st_skip l ev evs q po :
      quitting_ l = false -> watches_ l !! handle ev = None ->
      step (mk_config l Dispatching [] [] (ev :: evs) q po) (LSkip (handle ev)) (mk_config l Dispatching [] [] evs q po)
  | st_quit l ev evs q po :
      quitting_ l = true ->
      step (mk_config l Dispatching [] [] (ev :: evs) q po) LEnd (mk_config l Idle [] [] [] q po)
  | st_end l q po :
      step (mk_config l Dispatching [] [] [] q po) LEnd (mk_config l Idle [] [] [] q po).

(** A run: its labels in order. *)
Inductive run_from {D C} (c : config D C) : list (label D C) -> config D C -> Prop :=
  | run_nil : run_from c [] c
  | run_snoc ls c1 a c2 : run_from c ls c1 -> step c1 a c2 -> run_from c (ls ++ [a]) c2.

Lemma run_app {D C} (c c' c'' : config D C) ls ls' :
  run_from c ls c' -> run_from c' ls' c'' -> run_from c (ls ++ ls') c''.
Proof.
  intros H. induction 1 as [|ls' c1 a c2 _ IH Hs]; [by rewrite app_nil_r|].
  rewrite app_assoc. by econstructor.
Qed.

Lemma run_cons {D C} (c c1 c2 : config D C) a ls :
  step c a c1 -> run_from c1 ls c2 -> run_from c (a :: ls) c2.
Proof. intros Hs. apply (run_app c c1 c2 [a] ls). apply (run_snoc _ [] _ _ _ (run_nil _) Hs). Qed.

(** ** What a run did, read off its labels *)

Section history.
Context {D C : Type}.
Implicit Types ls : list (label D C).

Definition deferred_calls ls : list D := omap (fun a => match a with LOp (ODefer f) => Some f | _ => None end) ls.
Definition deferred_runs ls : list D := omap (fun a => match a with LDeferred f => Some f | _ => None end) ls.
Definition timer_runs ls : list (timer D) := omap (fun a => match a with LTimer t => Some t | _ => None end) ls.

Lemma omap_snoc {A B} (f : A -> option B) (l : list A) x :
  omap f (l ++ [x]) = omap f l ++ match f x with Some y => [y] | None => [] end.
Proof. rewrite omap_app. simpl. by destruct (f x). Qed.

Definition ran (a : label D C) : list D := match a with LDeferred f => [f] | _ => [] end.
Definition called (a : label D C) : list D := match a with LOp (ODefer f) => [f] | _ => [] end.

Lemma deferred_runs_snoc ls a : deferred_runs (ls ++ [a]) = deferred_runs ls ++ ran a.
Proof. unfold deferred_runs. rewrite omap_snoc. by destruct a. Qed.

Lemma deferred_calls_snoc ls a : deferred_calls (ls ++ [a]) = deferred_calls ls ++ called a.
Proof. unfold deferred_calls. rewrite omap_snoc. by destruct a as [[]| | | | | | | | | | |]. Qed.

(** ** Deferred functions *)

(** What a call does to the deferred functions. *)
Lemma op_deferred (l : loop D C) o :
  deferred_ (locked_part l o).1 = deferred_ l ++ match o with ODefer f => [f] | _ => [] end.
Proof.
  destruct o; simpl; rewrite ?app_nil_r; try done.
  - by destruct (watches_ l !! h).
  - unfold start. by destruct (started_ l).
  - by destruct (started_ l).
Qed.

(** Run, about to run, and waiting are what was deferred, in order. *)
Lemma fifo_step (c c' : config D C) ls a :
  deferred_calls ls = deferred_runs ls ++ run_now c ++ deferred_ (lp c) -> step c a c' ->
  deferred_calls (ls ++ [a]) = deferred_runs (ls ++ [a]) ++ run_now c' ++ deferred_ (lp c').
Proof.
  intros Hf Hs. rewrite deferred_calls_snoc, deferred_runs_snoc, Hf.
  destruct Hs; simpl; rewrite ?app_nil_r, <- ?app_assoc; simpl; try done.
  rewrite op_deferred. by destruct o; rewrite ?app_nil_r, <- ?app_assoc.
Qed.

Lemma fifo_run ls (c : config D C) :
  run_from init ls c -> deferred_calls ls = deferred_runs ls ++ run_now c ++ deferred_ (lp c).
Proof. induction 1; [done|]. by eapply fifo_step. Qed.

(** Only the swap changes what a turn runs. *)
Lemma turn_functions (c c' : config D C) a :
  step c a c' -> a <> LSwap -> run_now c = ran a ++ run_now c'.
Proof. by destruct 1. Qed.

(** What has run and what is about to is what had been deferred at the last
    swap. *)
Lemma swap_run ls (c : config D C) :
  run_from init ls c ->
  (LSwap ∉ ls -> deferred_runs ls ++ run_now c = []) /\
  (forall ls1 ls2, ls = ls1 ++ LSwap :: ls2 -> LSwap ∉ ls2 -> deferred_runs ls ++ run_now c = deferred_calls ls1).
Proof.
  induction 1 as [|ls c1 a c2 Hr [IH0 IH] Hs]; [split; [done|]; by intros [|? ?] ? [=]|].
  assert (a = LSwap \/ (a <> LSwap /\ deferred_runs (ls ++ [a]) ++ run_now c2 = deferred_runs ls ++ run_now c1)) as Hcase.
  { destruct Hs; try (right; split; [done|]; rewrite deferred_runs_snoc; simpl; by rewrite ?app_nil_r, <- ?app_assoc). by left. }
  destruct Hcase as [->|[Ha Hsame]].
  - split; [set_solver|]. intros ls1 ls2 E Hn.
    destruct ls2 as [|x ls2 _] using rev_ind.
    + apply app_inj_tail in E as [<- _]. rewrite deferred_runs_snoc. simpl. rewrite app_nil_r, (fifo_run _ _ Hr).
      inversion Hs; subst. done.
    + rewrite app_comm_cons, app_assoc in E. apply app_inj_tail in E as [_ <-]. set_solver.
  - rewrite Hsame. split; [intros Hn; apply IH0; set_solver|]. intros ls1 ls2 E Hn.
    destruct ls2 as [|x ls2 _] using rev_ind; [by apply app_inj_tail in E as [_ ?]|].
    rewrite app_comm_cons, app_assoc in E. apply app_inj_tail in E as [-> <-]. apply (IH ls1 ls2); [done|set_solver].
Qed.

(** Whether the turn has taken the deferred functions. *)
Definition before_swap (ph : phase) : bool := match ph with Idle | Polling | Polled => true | _ => false end.

(** A turn that ended ran everything that was deferred before it began. *)
Lemma turn_runs ls0 (c0 : config D C) ls c :
  run_from init ls0 c0 -> at_phase c0 = Idle -> run_from c0 ls c ->
  (LEnd ∈ ls -> deferred_calls ls0 `prefix_of` deferred_runs (ls0 ++ ls)) /\
  (before_swap (at_phase c) = false -> deferred_calls ls0 `prefix_of` deferred_runs (ls0 ++ ls) ++ run_now c).
Proof.
  intros H0 Hi. induction 1 as [|ls c1 a c2 Hr [IH1 IH2] Hs]; [rewrite Hi; split; [set_solver|done]|].
  pose proof (fifo_run _ _ (run_app _ _ _ _ _ H0 Hr)) as Hf.
  assert (deferred_calls ls0 `prefix_of` deferred_calls (ls0 ++ ls)) as Hpre.
  { unfold deferred_calls. rewrite omap_app. by apply prefix_app_r. }
  rewrite app_assoc, deferred_runs_snoc. split.
  - intros [Hin|Hin%list_elem_of_singleton]%elem_of_app; [by apply prefix_app_r, IH1|]. subst a. simpl. rewrite app_nil_r.
    inversion Hs; subst; simpl in IH2; specialize (IH2 eq_refl); by rewrite app_nil_r in IH2.
  - intros Hph. destruct Hs; simpl in *; try done; rewrite ?app_nil_r, <- ?app_assoc in *; try (by apply IH2).
    by rewrite Hf in Hpre.
Qed.

(** ** Invariants of runs *)

Lemma take_due_sublist now (ts due rest : list (timer D)) :
  take_due now ts = (due, rest) -> due ++ rest ≡ₚ ts /\ Forall (fun t => when t <= now) due /\
    rest `sublist_of` ts /\ Forall (fun t => now < when t) rest.
Proof.
  rewrite take_due_spec. intros [= <- <-]. split_and!.
  - apply filter_app_complement.
  - apply Forall_forall. by intros t [? _]%list_elem_of_filter.
  - apply sublist_filter.
  - apply Forall_forall. intros t [? _]%list_elem_of_filter. lia.
Qed.

(** Every timer the run knows: pending in the loop, extracted, or fired. *)
Definition known_timers (c : config D C) ls : list (timer D) := timer_runs ls ++ due c ++ timers_ (lp c).

Record run_ok (c : config D C) ls : Prop := {
  ro_ids : 1 <= next_timer_id_ (lp c) <= 1 + Z.of_nat (length ls);
  ro_known : NoDup (timer_id <$> known_timers c ls);
  ro_below : Forall (fun t => timer_id t < next_timer_id_ (lp c)) (known_timers c ls)
}.

(** What a call does to the timers. *)
Lemma op_timers (l : loop D C) o :
  0 <= next_timer_id_ l < 2 ^ 64 - 1 ->
  (timers_ (locked_part l o).1 `sublist_of` timers_ l /\ next_timer_id_ (locked_part l o).1 = next_timer_id_ l) \/
  exists t, timers_ (locked_part l o).1 = timers_ l ++ [t] /\ timer_id t = next_timer_id_ l /\
    next_timer_id_ (locked_part l o).1 = next_timer_id_ l + 1.
Proof.
  intros Hn. destruct o; simpl; try (by left).
  - left. by destruct (watches_ l !! h).
  - right. eexists. split; [reflexivity|]. split; [done|]. by apply u64_small; lia.
  - left. split; [apply sublist_filter|done].
  - left. unfold start. by destruct (started_ l).
  - left. by destruct (started_ l).
Qed.

Lemma known_sublist_ok (k k' : list (timer D)) n :
  k' `sublist_of` k -> NoDup (timer_id <$> k) -> Forall (fun t => timer_id t < n) k ->
  NoDup (timer_id <$> k') /\ Forall (fun t => timer_id t < n) k'.
Proof.
  intros Hs Hnd Hb. split.
  - eapply sublist_NoDup; [exact Hnd|]. by apply fmap_sublist.
  - rewrite Forall_forall in Hb |- *. intros t Ht. apply Hb. by eapply elem_of_sublist.
Qed.

Lemma known_fresh_ok (k : list (timer D)) t n :
  NoDup (timer_id <$> k) -> Forall (fun t => timer_id t < n) k -> timer_id t = n ->
  NoDup (timer_id <$> k ++ [t]) /\ Forall (fun t => timer_id t < n + 1) (k ++ [t]).
Proof.
  intros Hnd Hb Ht. split.
  - rewrite fmap_app. apply NoDup_app. split_and!; [done| |apply NoDup_singleton].
    intros x (t' & -> & Ht')%list_elem_of_fmap [Heq|[]%not_elem_of_nil]%elem_of_cons.
    rewrite Forall_forall in Hb. specialize (Hb t' Ht'). lia.
  - apply Forall_app. split; [|apply Forall_singleton; lia].
    eapply Forall_impl; [exact Hb|]. simpl. intros. lia.
Qed.

Lemma run_ok_op l ph rn du pe q po ls o :
  run_ok (mk_config l ph rn du pe q po) ls -> 1 + Z.of_nat (length ls) < 2 ^ 64 - 1 ->
  run_ok (mk_config (locked_part l o).1 ph rn du pe (call_begins (locked_part l o).2 q) po) (ls ++ [LOp o]).
Proof.
  intros [Hi Hk Hb] Hmax. simpl in *.
  assert (timer_runs (ls ++ [LOp o]) = timer_runs ls) as Etr by (unfold timer_runs; by rewrite omap_snoc, app_nil_r).
  unfold known_timers in *. simpl in *. split; simpl.
  - rewrite length_app. simpl. destruct (op_timers l o) as [[_ ->]|(t & _ & _ & ->)]; lia.
  - unfold known_timers. simpl. rewrite Etr. destruct (op_timers l o) as [[Hs _]|(t & -> & Ht & _)]; [lia| |].
    + eapply known_sublist_ok; [|exact Hk|exact Hb]. by repeat apply sublist_app.
    + rewrite !app_assoc in *. by eapply known_fresh_ok.
  - unfold known_timers. simpl. rewrite Etr. destruct (op_timers l o) as [[Hs ->]|(t & -> & Ht & ->)]; [lia| |].
    + eapply known_sublist_ok; [|exact Hk|exact Hb]. by repeat apply sublist_app.
    + rewrite !app_assoc in *. by eapply known_fresh_ok.
Qed.

(** The other steps keep the set of known timers. *)
Lemma run_ok_step (c c' : config D C) ls a :
  run_ok c ls -> step c a c' -> 1 + Z.of_nat (length ls) < 2 ^ 64 - 1 -> run_ok c' (ls ++ [a]).
Proof.
  intros Hok Hs Hmax. destruct Hs as [l ph rn du pe q po o| | | | | | |l now evs ts rest q po Ht| | | | | |]; [by apply run_ok_op|..];
    destruct Hok as [Hi Hk Hb]; unfold known_timers in *; cbn in Hi, Hk, Hb;
    (split; [cbn; rewrite length_app; simpl; lia|..]);
    unfold known_timers, timer_runs in *; rewrite ?omap_snoc; simpl; rewrite ?app_nil_r; try done.
  - destruct (take_due_sublist _ _ _ _ Ht) as (Hp & _). by rewrite Hp.
  - destruct (take_due_sublist _ _ _ _ Ht) as (Hp & _). by rewrite Hp.
  - by rewrite <- app_assoc.
  - by rewrite <- app_assoc.
Qed.

Lemma init_ok : run_ok (@init D C) [].
Proof. split; simpl; [lia|apply NoDup_nil_2|done]. Qed.

Lemma run_ok_run ls (c : config D C) :
  run_from init ls c -> Z.of_nat (length ls) < 2 ^ 64 - 2 -> run_ok c ls.
Proof.
  induction 1 as [|ls c1 a c2 _ IH Hstep]; intros Hlen; [apply init_ok|].
  rewrite length_app in Hlen. simpl in Hlen. eapply run_ok_step; [apply IH; lia|done|lia].
Qed.
End history.

(** ** Timers and the clock *)

Section clock.
Context {D C : Type}.
Implicit Types ls : list (label D C).

(** Every extracted or fired timer was due at a clock reading of the run. *)
Definition clocked (c : config D C) ls : Prop :=
  Forall (fun t => exists now, LTakeDue now ∈ ls /\ when t <= now) (timer_runs ls ++ due c).

Lemma clocked_mono (ts : list (timer D)) ls a :
  Forall (fun t => exists now, LTakeDue now ∈ ls /\ when t <= now) ts ->
  Forall (fun t => exists now, LTakeDue now ∈ ls ++ [a] /\ when t <= now) ts.
Proof.
  intros H. eapply Forall_impl; [exact H|]. intros t (now & ? & ?). exists now. split; [set_solver|done].
Qed.

Lemma clocked_step (c c' : config D C) ls a : clocked c ls -> step c a c' -> clocked c' (ls ++ [a]).
Proof.
  intros H Hs. apply (clocked_mono _ _ a) in H. unfold clocked, timer_runs in *.
  destruct Hs as [| | | | | | |l now evs ts rest q po Ht| | | | | |]; rewrite omap_snoc; simpl in *;
    rewrite ?app_nil_r in *; try done.
  - apply Forall_app. split; [done|]. destruct (take_due_sublist _ _ _ _ Ht) as (_ & Hdue & _).
    eapply Forall_impl; [exact Hdue|]. intros t ?. exists now. split; [set_solver|done].
  - by rewrite <- app_assoc.
Qed.

Lemma clocked_run ls (c : config D C) : run_from init ls c -> clocked c ls.
Proof. induction 1; [by constructor|]. by eapply clocked_step. Qed.

(** A timer id that is handed out, not pending and not extracted. *)
Definition gone (id : Z) (c : config D C) : Prop :=
  id < next_timer_id_ (lp c) /\ id ∉ timer_id <$> due c ++ timers_ (lp c).

Lemma gone_op id l ph rn du pe q po o :
  gone id (mk_config l ph rn du pe q po) -> 0 <= next_timer_id_ l < 2 ^ 64 - 1 ->
  gone id (mk_config (locked_part l o).1 ph rn du pe (call_begins (locked_part l o).2 q) po).
Proof.
  intros [Hid Hn] Hb. unfold gone in *. simpl in *. rewrite fmap_app, not_elem_of_app in *.
  destruct (op_timers l o Hb) as [[Hs ->]|(t & -> & Ht & ->)].
  - split; [done|]. split; [apply Hn|]. intros Hin. apply (proj2 Hn).
    eapply elem_of_sublist; [exact Hin|]. by apply fmap_sublist.
  - split; [lia|]. rewrite fmap_app, not_elem_of_app. split; [apply Hn|]. split; [apply Hn|].
    simpl. rewrite list_elem_of_singleton. lia.
Qed.

Lemma gone_step id (c c' : config D C) a :
  gone id c -> step c a c' -> 0 <= next_timer_id_ (lp c) < 2 ^ 64 - 1 ->
  gone id c' /\ match a with LTimer t => timer_id t <> id | _ => True end.
Proof.
  intros Hg Hs Hb. destruct Hs as [| | | | | | |l now evs ts rest q po Ht|l t ts evs q po| | | | |]; [by split; [apply gone_op|]|..];
    try (by split); destruct Hg as [Hid Hn]; unfold gone in *; simpl in *.
  - destruct (take_due_sublist _ _ _ _ Ht) as (Hp & _). split; [|done]. split; [done|].
    by rewrite Hp.
  - rewrite not_elem_of_cons in Hn. split; [split; [done|apply Hn]|]. intros <-. by apply (proj1 Hn).
Qed.

Lemma step_next_id (c c' : config D C) a n :
  step c a c' -> 0 <= next_timer_id_ (lp c) <= n -> n < 2 ^ 64 - 1 -> 0 <= next_timer_id_ (lp c') <= n + 1.
Proof.
  intros Hs Hb Hn. destruct Hs as [l ph rn du pe q po o| | | | | | | | | | | | |]; simpl in *; try lia.
  destruct (op_timers l o) as [[_ ->]|(t & _ & _ & ->)]; lia.
Qed.

Lemma gone_run id n (c : config D C) ls c' :
  run_from c ls c' -> gone id c -> 0 <= next_timer_id_ (lp c) <= n -> n + Z.of_nat (length ls) < 2 ^ 64 - 1 ->
  gone id c' /\ 0 <= next_timer_id_ (lp c') <= n + Z.of_nat (length ls) /\ id ∉ timer_id <$> timer_runs ls.
Proof.
  induction 1 as [|ls c1 a c2 _ IH Hs]; intros Hg Hb Hn.
  { split; [done|]. split; [simpl; lia|]. set_solver. }
  rewrite length_app in *. simpl in *. destruct IH as (Hg1 & Hb1 & Ht1); [done|done|lia|].
  destruct (gone_step id c1 c2 a Hg1 Hs) as [Hg2 Ha]; [lia|].
  pose proof (step_next_id _ _ _ _ Hs Hb1 ltac:(lia)). split_and!; [done|lia..|].
  unfold timer_runs in *. rewrite omap_snoc, fmap_app, not_elem_of_app. split; [done|].
  destruct a; simpl; rewrite ?list_elem_of_singleton; set_solver.
Qed.
End clock.

(** ** A turn ends *)

Section progress.
Context {D C : Type}.
Implicit Types c : config D C.

Definition shaped c : Prop :=
  match at_phase c with
  | Idle | Polling => run_now c = [] /\ due c = [] /\ pending c = []
  | Polled | Dispatching => run_now c = [] /\ due c = []
  | Deferring => due c = []
  | Timing => run_now c = []
  end.

Lemma shaped_step c a c' : shaped c -> step c a c' -> shaped c'.
Proof. intros H Hs. destruct Hs; simpl in *; done. Qed.

Lemma shaped_run ls c : run_from init ls c -> shaped c.
Proof. induction 1; [done|]. by eapply shaped_step. Qed.

(** Work left in the turn: the functions still waiting count until they are
    taken, and the timers until they have been examined. *)
Definition work c : nat :=
  match at_phase c with
  | Idle => 0
  | Polling => 5 + length (deferred_ (lp c)) + length (timers_ (lp c))
  | Polled => 4 + length (deferred_ (lp c)) + length (timers_ (lp c)) + length (pending c)
  | Deferring => 3 + length (run_now c) + length (timers_ (lp c)) + length (pending c)
  | Timing => 2 + length (due c) + length (pending c)
  | Dispatching => 1 + length (pending c)
  end.

(** A step of the loop thread itself. *)
Definition own (a : label D C) : bool := match a with LOp _ | LPost _ => false | _ => true end.

Tactic Notation "turn_by" uconstr(rule) :=
  eexists _, _; split; [by eapply rule|]; split; [done|]; split; [done|]; split; [|done]; unfold work; simpl; lia.

Lemma collect_none es : collect es (fun _ => 0) = [].
Proof. by induction es. Qed.

(** In a turn the loop thread can always take a step, which brings it closer to
    the end; poll(2) may report nothing. *)
Lemma turn_step c :
  shaped c -> at_phase c <> Idle ->
  exists a c', step c a c' /\ own a = true /\ quitting_ (lp c') = quitting_ (lp c) /\ (work c' < work c)%nat /\
    (at_phase c' = Idle -> a = LEnd).
Proof.
  destruct c as [l [] rn du pe q po]; intros Hsh Hph; unfold shaped in Hsh; simpl in *; [done|..].
  - destruct Hsh as (-> & -> & ->). eexists _, _.
    split; [eapply (st_return l q po (PollReady 0 (fun _ => 0)) 0 []); [|lia]|].
    { simpl. by rewrite collect_none. }
    split; [done|]. split; [done|]. split; [unfold work; simpl; lia|done].
  - destruct Hsh as [-> ->]. eexists _, _. split; [apply st_swap|]. split; [done|]. split; [done|]. split; [|done].
    unfold work. simpl. lia.
  - subst. destruct rn as [|f fs].
    + destruct (take_due 0 (timers_ l)) as [ts rest] eqn:Ht.
      eexists _, _. split; [by apply st_take_due with (now := 0)|]. split; [done|]. split; [done|]. split; [|done].
      destruct (take_due_sublist _ _ _ _ Ht) as (Hp & _). unfold work. simpl.
      apply Permutation_length in Hp. rewrite length_app in Hp. lia.
    + turn_by st_deferred.
  - subst. destruct du as [|t ts]; [turn_by st_sweep|turn_by st_timer].
  - destruct Hsh as [-> ->]. destruct pe as [|ev pe]; [turn_by st_end|].
    destruct (quitting_ l) eqn:Hq; [turn_by st_quit|].
    destruct (watches_ l !! handle ev) eqn:He; [turn_by st_io|turn_by st_skip].
Qed.

Lemma turn_finishes n : forall c,
  (work c <= n)%nat -> shaped c ->
  exists ls c', run_from c ls c' /\ at_phase c' = Idle /\ Forall (fun a => own a = true) ls /\
    (length ls <= n)%nat /\ quitting_ (lp c') = quitting_ (lp c) /\ (at_phase c <> Idle -> LEnd ∈ ls).
Proof.
  induction n as [|n IH]; intros c Hw Hsh.
  - exists [], c. destruct (at_phase c) eqn:E; unfold work in Hw; rewrite E in Hw; try lia.
    split; [constructor|done].
  - destruct (decide (at_phase c = Idle)) as [|Hph]; [exists [], c; split_and!; [constructor|done|done|simpl; lia|done|done]|].
    destruct (turn_step c Hsh Hph) as (a & c1 & Hs & Ha & Hq & Hlt & Hend).
    destruct (IH c1) as (ls & c' & Hr & Hi & Hno & Hlen & Hq' & Hin); [lia|by eapply shaped_step|].
    exists (a :: ls), c'. split_and!; [by eapply run_cons|done|by constructor|simpl; lia|congruence|].
    intros _. destruct (decide (at_phase c1 = Idle)) as [E|E]; [rewrite (Hend E); left|right; by apply Hin].
Qed.
End progress.

(** ** [iterate] is a run *)

Section refinement.
Context {D C : Type}.
Variable body_d : D -> list (loop_op D C).
Variable body_c : C -> ready -> list (loop_op D C).

Abbreviation exec_d := (fun f (l : loop D C) => apply_ops (body_d f) l).
Abbreviation exec_c := (fun c r (l : loop D C) => apply_ops (body_c c r) l).

Definition call_of (a : label D C) : option (call D C) :=
  match a with
  | LDeferred f => Some (CDeferred f)
  | LTimer t => Some (CTimer t)
  | LIo h c r => Some (CIo h c r)
  | _ => None
  end.

(** A run from [c] to [c'] that makes the given calls. *)
Definition runs_with (c : config D C) (calls : list (call D C)) (c' : config D C) : Prop :=
  exists ls, run_from c ls c' /\ omap call_of ls = calls.

Lemma runs_trans c c' c'' calls calls' :
  runs_with c calls c' -> runs_with c' calls' c'' -> runs_with c (calls ++ calls') c''.
Proof.
  intros (ls & H & <-) (ls' & H' & <-). exists (ls ++ ls'). split; [by eapply run_app|apply omap_app].
Qed.

Lemma runs_step c a c' : step c a c' -> runs_with c (match call_of a with Some x => [x] | None => [] end) c'.
Proof.
  intros H. exists ([] ++ [a]). split; [by econstructor; [constructor|]|]. simpl. by destruct (call_of a).
Qed.

(** A call that is not interrupted. *)
Lemma runs_acts acts : forall l ph rn du pe po,
  runs_with (mk_config l ph rn du pe (call_begins acts []) po) [] (mk_config (set_poller l (fold_left run_act acts (poller_ l))) ph rn du pe [] po).
Proof.
  induction acts as [|a acts IH]; intros l ph rn du pe po.
  { exists []. split; [|done]. simpl. replace (set_poller l (poller_ l)) with l by by destruct l. constructor. }
  apply (runs_trans _ _ _ [] [] (runs_step _ _ _ (st_post l ph rn du pe [a :: acts] po 0 a acts eq_refl))).
  specialize (IH (set_poller l (run_act (poller_ l) a)) ph rn du pe po). by destruct acts.
Qed.

Lemma runs_ops ops : forall l ph rn du pe po,
  runs_with (mk_config l ph rn du pe [] po) [] (mk_config (apply_ops ops l) ph rn du pe [] po).
Proof.
  induction ops as [|o ops IH]; intros l ph rn du pe po; [exists []; split; [constructor|done]|].
  apply (runs_trans _ _ _ [] [] (runs_step _ _ _ (st_op l ph rn du pe [] po o))).
  apply (runs_trans _ _ _ [] [] (runs_acts (locked_part l o).2 _ _ _ _ _ _)).
  assert (poller_ (locked_part l o).1 = poller_ l) as ->.
  { destruct o; simpl; try done; [by destruct (watches_ l !! h)|unfold start; by destruct (started_ l)|by destruct (started_ l)]. }
  rewrite <- op_split. apply IH.
Qed.

Lemma runs_deferred fs evs po : forall l,
  runs_with (mk_config l Deferring fs [] evs [] po) (CDeferred <$> fs)
    (mk_config (call_all exec_d fs l) Deferring [] [] evs [] po).
Proof.
  induction fs as [|f fs IH]; intros l; [exists []; split; [constructor|done]|].
  apply (runs_trans _ _ _ [CDeferred f] _ (runs_step _ _ _ (st_deferred l f fs evs [] po))).
  apply (runs_trans _ _ _ [] _ (runs_ops (body_d f) _ _ _ _ _ _)). apply IH.
Qed.

Lemma runs_timers ts evs po : forall l,
  runs_with (mk_config l Timing [] ts evs [] po) (CTimer <$> ts)
    (mk_config (call_all exec_d (fn <$> ts) l) Timing [] [] evs [] po).
Proof.
  induction ts as [|t ts IH]; intros l; [exists []; split; [constructor|done]|].
  apply (runs_trans _ _ _ [CTimer t] _ (runs_step _ _ _ (st_timer l t ts evs [] po))).
  apply (runs_trans _ _ _ [] _ (runs_ops (body_d (fn t)) _ _ _ _ _ _)). apply IH.
Qed.

Lemma runs_dispatch evs po : forall l,
  runs_with (mk_config l Dispatching [] [] evs [] po) (dispatch exec_c evs l).2
    (mk_config (dispatch exec_c evs l).1 Idle [] [] [] [] po).
Proof.
  induction evs as [|ev evs IH]; intros l; simpl; [apply (runs_step _ _ _ (st_end l [] po))|].
  destruct (quitting_ l) eqn:Hq; [apply (runs_step _ _ _ (st_quit l ev evs [] po Hq))|].
  destruct (watches_ l !! handle ev) as [e|] eqn:He.
  - specialize (IH (exec_c (cb e) (what ev) l)).
    destruct (dispatch exec_c evs _) as [l' calls]. simpl in *.
    apply (runs_trans _ _ _ [CIo (handle ev) (cb e) (what ev)] _ (runs_step _ _ _ (st_io l ev evs e [] po Hq He))).
    by apply (runs_trans _ _ _ [] _ (runs_ops (body_c (cb e) (what ev)) _ _ _ _ _ _)).
  - apply (runs_trans _ _ _ [] _ (runs_step _ _ _ (st_skip l ev evs [] po Hq He))). apply IH.
Qed.
End refinement.

(** ** Properties *)

(** C10. Deferred functions under concurrency.  In every interleaving of any
    threads' calls with the loop thread: the functions run so far, those of the
    current turn still to run and those waiting are, in this order, exactly the
    functions deferred so far, so none is lost, run twice or out of order; the
    ones run so far and still to run in this turn are exactly those deferred
    before the turn took them, so one deferred later waits for the next turn; a
    turn that ends has run everything that was deferred before it began; and
    unless the loop is being stopped, the loop thread needs only its own steps,
    poll(2) returning, to run everything that has been deferred, at most those
    of the rest of this turn and of one more. *)
Theorem deferred_fifo_exactly_once {D C} (ls : list (label D C)) c :
  run_from init ls c ->
  deferred_calls ls = deferred_runs ls ++ run_now c ++ deferred_ (lp c) /\
  (forall ls1 ls2, ls = ls1 ++ LSwap :: ls2 -> LSwap ∉ ls2 -> deferred_runs ls ++ run_now c = deferred_calls ls1) /\
  (forall ls' c', at_phase c = Idle -> run_from c ls' c' -> LEnd ∈ ls' -> deferred_calls ls `prefix_of` deferred_runs (ls ++ ls')) /\
  (quitting_ (lp c) = false ->
   exists ls1 c1 ls2 c2, run_from c ls1 c1 /\ at_phase c1 = Idle /\ run_from c1 ls2 c2 /\ at_phase c2 = Idle /\
     Forall (fun a => own a = true) (ls1 ++ ls2) /\ (length ls1 <= work c)%nat /\
     (length ls2 <= 6 + length (deferred_ (lp c1)) + length (timers_ (lp c1)))%nat /\
     deferred_calls ls `prefix_of` deferred_runs (ls ++ ls1 ++ ls2)).
Proof.
  intros H. split; [by apply fifo_run|]. split; [apply (swap_run ls c H)|]. split.
  { intros ls' c' Hi Hr Hend. by apply (turn_runs ls c ls' c' H Hi Hr). }
  intros Hq. destruct (turn_finishes (work c) c ltac:(done) (shaped_run _ _ H)) as (ls1 & c1 & H1 & Hi1 & Ho1 & Hl1 & Hq1 & _).
  pose proof (run_app _ _ _ _ _ H H1) as H01. pose proof (shaped_run _ _ H01) as Hsh.
  destruct c1 as [l ph rn du pe q po]. simpl in *. subst ph. destruct Hsh as (E1 & E2 & E3). simpl in *. subst.
  assert (quitting_ l = false) as Hql by congruence. pose proof (st_poll l q po Hql) as Hp.
  destruct (turn_finishes (5 + length (deferred_ l) + length (timers_ l)) (mk_config l Polling [] [] [] q (fds (poller_ l))) ltac:(done)
    (shaped_step _ _ _ (shaped_run _ _ H01) Hp))
    as (ls2 & c2 & H2 & Hi2 & Ho2 & Hl2 & _ & Hend).
  pose proof (run_cons _ _ _ _ _ Hp H2) as H12.
  exists ls1, (mk_config l Idle [] [] [] q po), (LPoll :: ls2), c2. split_and!; try done.
  - apply Forall_app. split; [done|by constructor].
  - simpl. lia.
  - etrans; [|rewrite app_assoc; apply (turn_runs (ls ++ ls1) _ _ c2 H01); [done|exact H12|right; by apply Hend]].
    unfold deferred_calls. rewrite omap_app. by apply prefix_app_r.
Qed.

Definition sample_timer : timer nat := mk_timer 1 1000000 8%nat.

(** Two functions deferred and a timer set; a turn runs the first function,
    which defers a third; then the timer fires. *)
Definition sample_labels : list (label nat nat) :=
  [LOp (ODefer 1%nat); LPost 0; LOp (ODefer 2%nat); LOp (OSetTimeout 0 1 8%nat); LPost 0; LPoll; LPost 0;
   LReturn (PollReady 1 (fun _ => 0)); LSwap;
   LDeferred 1%nat; LOp (ODefer 3%nat); LPost 0; LDeferred 2%nat; LTakeDue 1000000; LTimer sample_timer].

Definition sample_config : config nat nat :=
  mk_config (mk_loop (mk_poller 1 ∅) [] ∅ [3%nat] [] 2 false false false) Timing [] [] [] [] ∅.

Lemma sample_run : run_from init sample_labels sample_config.
Proof.
  unfold sample_labels, init.
  eapply run_cons; [apply st_op|]. eapply run_cons; [by eapply st_post|].
  eapply run_cons; [apply st_op|]. eapply run_cons; [apply st_op|]. eapply run_cons; [by eapply st_post|].
  eapply run_cons; [by eapply st_poll|]. eapply run_cons; [by eapply st_post|].
  eapply run_cons; [by eapply st_return|]. eapply run_cons; [apply st_swap|]. eapply run_cons; [apply st_deferred|].
  eapply run_cons; [apply st_op|]. eapply run_cons; [by eapply st_post|]. eapply run_cons; [apply st_deferred|].
  eapply run_cons; [by eapply (st_take_due _ _ _ [sample_timer] [])|].
  eapply run_cons; [apply st_timer|]. apply run_nil.
Qed.

Lemma deferred_fifo_exactly_once_witness :
  deferred_calls sample_labels = [1; 2; 3]%nat /\
  deferred_calls sample_labels = deferred_runs sample_labels ++ run_now sample_config ++ deferred_ (lp sample_config) /\
  exists ls1 c1 ls2 c2, run_from sample_config ls1 c1 /\ at_phase c1 = Idle /\ run_from c1 ls2 c2 /\ at_phase c2 = Idle /\
    Forall (fun a => own a = true) (ls1 ++ ls2) /\ (length ls1 <= work sample_config)%nat /\
    (length ls2 <= 6 + length (deferred_ (lp c1)) + length (timers_ (lp c1)))%nat /\
    deferred_calls sample_labels `prefix_of` deferred_runs (sample_labels ++ ls1 ++ ls2).
Proof.
  destruct (deferred_fifo_exactly_once _ _ sample_run) as (Hf & _ & _ & Hl). split; [done|]. split; [exact Hf|]. by apply Hl.
Defined.

(** The poller and the table of callbacks can end up disagreeing: a thread
    watches a descriptor while another unwatches it; the second reaches the
    poller first.  When both calls have returned, the loop has no callback for
    the descriptor and the poller polls it, in every turn from then on. *)
Definition race_labels : list (label nat nat) :=
  [LOp (OWatch 7 interest.read 1%nat); LOp (OUnwatch 7); LPost 1; LPost 1; LPost 0; LPost 0].

Example watch_unwatch_race :
  exists c, run_from init race_labels c /\ inflight c = [] /\ watches_ (lp c) !! 7 = None /\
    fds (poller_ (lp c)) !! 7 = Some POLLIN.
Proof.
  eexists. split.
  { unfold race_labels, init. eapply run_cons; [apply st_op|]. eapply run_cons; [apply st_op|].
    eapply run_cons; [by eapply st_post|]. eapply run_cons; [by eapply st_post|].
    eapply run_cons; [by eapply st_post|]. eapply run_cons; [by eapply st_post|]. apply run_nil. }
  by vm_compute.
Qed.

(** C27. Timers under concurrency: in every interleaving a timer fires at most
    once, and only after a clock reading at or past its deadline. *)
Theorem timer_fires_once_not_early {D C} (ls : list (label D C)) c :
  run_from init ls c -> Z.of_nat (length ls) < 2 ^ 64 - 2 ->
  NoDup (timer_id <$> timer_runs ls) /\
  Forall (fun t => exists now, LTakeDue now ∈ ls /\ when t <= now) (timer_runs ls).
Proof.
  intros H Hlen. split.
  - pose proof (ro_known _ _ (run_ok_run ls c H Hlen)) as Hk. unfold known_timers in Hk.
    rewrite fmap_app in Hk. by apply NoDup_app in Hk as [? _].
  - pose proof (clocked_run ls c H) as Hc. unfold clocked in Hc. by apply Forall_app in Hc as [? _].
Qed.

Lemma timer_fires_once_not_early_witness :
  NoDup (timer_id <$> timer_runs sample_labels) /\
  Forall (fun t => exists now, LTakeDue now ∈ sample_labels /\ when t <= now) (timer_runs sample_labels).
Proof. apply (timer_fires_once_not_early _ sample_config); [exact sample_run|reflexivity]. Defined.

(** C30. [clear_timeout] cancels, in every interleaving of fewer than 2^64 - 2
    steps: if, when a handed-out id is cleared, its timer is not already in the
    batch the loop thread extracted, then in no continuation does that timer
    fire. *)
Theorem cleared_timer_never_fires {D C} (ls1 ls2 : list (label D C)) c1 c1' c2 id :
  run_from init ls1 c1 -> id < next_timer_id_ (lp c1) -> id ∉ timer_id <$> due c1 ->
  step c1 (LOp (OClearTimeout id)) c1' -> run_from c1' ls2 c2 ->
  Z.of_nat (length ls1) + Z.of_nat (length ls2) < 2 ^ 64 - 2 ->
  id ∉ timer_id <$> timer_runs ls2.
Proof.
  intros H1 Hid Hdue Hs H2 Hlen. pose proof (ro_ids _ _ (run_ok_run ls1 c1 H1 ltac:(lia))) as Hi.
  refine (proj2 (proj2 (gone_run id (1 + Z.of_nat (length ls1)) c1' ls2 c2 H2 _ _ _))); [|inversion Hs; subst; simpl in *; lia|lia].
  inversion Hs; subst. split; [done|]. simpl in *. rewrite fmap_app, not_elem_of_app. split; [done|].
  by intros (t & -> & [Ht _]%list_elem_of_filter)%list_elem_of_fmap.
Qed.

Lemma cleared_timer_never_fires_witness : 1 ∉ timer_id <$> timer_runs [LOp (ODefer 4%nat) : label nat nat].
Proof.
  eapply (cleared_timer_never_fires [LOp (OSetTimeout 0 1 8%nat)]).
  - eapply run_cons; [apply st_op|apply run_nil].
  - reflexivity.
  - apply not_elem_of_nil.
  - apply st_op.
  - eapply run_cons; [apply st_op|apply run_nil].
  - reflexivity.
Defined.

(** A turn terminates: from every reachable point inside a turn the loop
    thread alone finishes the turn, in a number of steps bounded by the work the
    turn holds (functions, timers and events). *)
Theorem turn_terminates {D C} (ls : list (label D C)) c :
  run_from init ls c ->
  exists ls' c', run_from c ls' c' /\ at_phase c' = Idle /\ Forall (fun a => own a = true) ls' /\
    (length ls' <= work c)%nat.
Proof. intros H. destruct (turn_finishes (work c) c ltac:(done) (shaped_run _ _ H)) as (ls' & c' & ? & ? & ? & ? & _). by exists ls', c'. Qed.

Lemma turn_terminates_witness :
  exists ls' c', run_from sample_config ls' c' /\ at_phase c' = Idle /\
    Forall (fun a => own a = true) ls' /\ (length ls' <= work sample_config)%nat.
Proof. exact (turn_terminates _ _ sample_run). Defined.

(** C28. Refinement: a call of [iterate] whose callbacks run sequences of
    interface calls is a run of the transition system from idle to idle with the
    same callback calls in the same order, so what holds of all interleavings
    holds of the code's own turn. *)
Theorem iterate_refines_steps {D C} (body_d : D -> list (loop_op D C)) (body_c : C -> ready -> list (loop_op D C))
    (l : loop D C) res now n evs p :
  quitting_ l = false -> wait (poller_ l) (ready_ l) res = (n, evs, p) -> 0 <= n ->
  let '(l', calls) := iterate (fun f l => apply_ops (body_d f) l) (fun c r l => apply_ops (body_c c r) l) res now l in
  exists ls po, run_from (mk_config l Idle [] [] [] [] ∅) ls (mk_config l' Idle [] [] [] [] po) /\ omap call_of ls = calls.
Proof.
  intros Hq Hw Hn. unfold iterate. simpl. rewrite Hq, Hw, (proj2 (Z.ltb_ge n 0) Hn).
  set (l0 := set_ready l p evs). set (l1 := set_deferred l0 p []).
  set (l2 := call_all _ (deferred_ l) l1). unfold fire_due_timers. simpl.
  destruct (take_due now (timers_ l2)) as [due rest] eqn:Ht.
  set (l3 := set_timers l2 _ rest _). set (l4 := call_all _ (fn <$> due) l3). set (po := fds (poller_ l)).
  pose proof (runs_dispatch body_c evs po l4) as Hd. destruct (dispatch _ evs l4) as [l5 io]. simpl in Hd.
  enough (runs_with (mk_config l Idle [] [] [] [] ∅) ((CDeferred <$> deferred_ l) ++ (CTimer <$> due) ++ io)
    (mk_config l5 Idle [] [] [] [] po)) as (ls & Hr & Hc) by by exists ls, po.
  assert (wait (mk_poller (wake (poller_ l)) po) (ready_ l) res = (n, evs, p) /\ p = mk_poller (wake p) (fds (poller_ l))) as [Hw' Hp].
  { replace (mk_poller (wake (poller_ l)) po) with (poller_ l) by by destruct (poller_ l).
    split; [done|]. destruct res; simpl in Hw; simplify_eq; [by destruct (poller_ l)|]. by destruct (negb _); [|destruct (poller_ l)]. }
  apply (runs_trans _ _ _ [] _ (runs_step _ _ _ (st_poll l [] ∅ Hq))). fold po.
  pose proof (runs_step _ _ _ (st_return l [] po res n evs p Hw' Hn)) as Hret. rewrite <- Hp in Hret. fold l0 in Hret.
  apply (runs_trans _ _ _ [] _ Hret).
  apply (runs_trans _ _ _ [] _ (runs_step _ _ _ (st_swap l0 evs [] po))).
  change (set_deferred l0 (poller_ l0) []) with l1. change (deferred_ l0) with (deferred_ l).
  apply (runs_trans _ _ _ (CDeferred <$> deferred_ l) _ (runs_deferred body_d (deferred_ l) evs po l1)). fold l2.
  apply (runs_trans _ _ _ [] _ (runs_step _ _ _ (st_take_due l2 now evs due rest [] po Ht))). fold l3.
  apply (runs_trans _ _ _ (CTimer <$> due) _ (runs_timers body_d due evs po l3)). fold l4.
  apply (runs_trans _ _ _ [] _ (runs_step _ _ _ (st_sweep l4 evs [] po))). exact Hd.
Qed.

Definition sample_body_d (f : nat) : list (loop_op nat nat) :=
  if (f =? 7)%nat then [ODefer 6%nat; OUnwatch 4] else [].
Definition sample_body_c (c : nat) (r : ready) : list (loop_op nat nat) := [ODefer c].

Lemma iterate_refines_steps_witness :
  let '(l', calls) := iterate (fun f l => apply_ops (sample_body_d f) l) (fun c r l => apply_ops (sample_body_c c r) l)
    (PollReady 1 (fun _ => POLLIN)) 2000000 sample_loop in
  exists ls po, run_from (mk_config sample_loop Idle [] [] [] [] ∅) ls (mk_config l' Idle [] [] [] [] po) /\ omap call_of ls = calls.
Proof.
  exact (iterate_refines_steps sample_body_d sample_body_c sample_loop (PollReady 1 (fun _ => POLLIN)) 2000000 1
    [mk_event 4 (mk_ready true false false false)] (mk_poller 0 {[ 4 := 1 ]}) eq_refl eq_refl ltac:(lia)).
Defined.
