(* ===== verification/ThreadPool.v ===== *)
(** * [core::thread_pool]

    The priority pool of core/thread_pool.hpp as a transition system: tasks
    are submitted at one of three levels, workers take the front of the
    highest non-empty queue under the mutex, run it outside, and exit when a
    stop was requested and nothing is left.  Each step is one critical section
    of the code, so that every interleaving of threads is a list of labels.

    The condition variable is part of the state: a worker that finds nothing
    to do blocks, atomically with giving up the mutex, and stays so until
    notified; [submit] pushes under the mutex and notifies in a step of its
    own, after releasing it, so that a wake-up could be lost if the order of
    these steps were wrong. *)

From S2P Require Import Prelude.
#[local] Open Scope Z_scope.

Inductive task_priority := high | normal | low.

#[export] Instance task_priority_eq_dec : EqDecision task_priority.
Proof. solve_decision. Defined.

(** [std::array<std::queue<task_type>, 3>]. *)
Record queues (T : Type) := mk_queues { q_high : list T; q_normal : list T; q_low : list T }.
Arguments mk_queues {T}.
Arguments q_high {T}.
Arguments q_normal {T}.
Arguments q_low {T}.

Section queues.
Context {T : Type}.
Implicit Types q : queues T.

Definition queue q (p : task_priority) : list T :=
  match p with high => q_high q | normal => q_normal q | low => q_low q end.

Definition push (t : T) (p : task_priority) q : queues T :=
  match p with
  | high => mk_queues (q_high q ++ [t]) (q_normal q) (q_low q)
  | normal => mk_queues (q_high q) (q_normal q ++ [t]) (q_low q)
  | low => mk_queues (q_high q) (q_normal q) (q_low q ++ [t])
  end.

Definition nonempty (l : list T) : bool := match l with [] => false | _ => true end.

Definition has_pending q : bool := nonempty (q_high q) || nonempty (q_normal q) || nonempty (q_low q).

(** [dequeue_highest]: the task and the level it was found at; [None] is the
    null function the code returns when nothing is pending. *)
Definition dequeue_highest q : option (T * task_priority * queues T) :=
  match q_high q with
  | t :: ts => Some (t, high, mk_queues ts (q_normal q) (q_low q))
  | [] =>
      match q_normal q with
      | t :: ts => Some (t, normal, mk_queues [] ts (q_low q))
      | [] =>
          match q_low q with
          | t :: ts => Some (t, low, mk_queues [] [] ts)
          | [] => None
          end
      end
  end.

End queues.

(** A worker holds the mutex or is about to take it and look at the queues, is
    blocked on the condition variable, runs a task, or has returned. *)
Inductive worker (T : Type) := Checking | Blocked | Running (t : T) | Exited.
Arguments Checking {T}.
Arguments Blocked {T}.
Arguments Running {T}.
Arguments Exited {T}.

(** [notifies] counts the calls of [submit] that have pushed their task and not
    yet notified; [stopping] are the workers whose stop was requested.
    [submitted], [started] and [finished] record the history. *)
Record pool (T : Type) := mk_pool {
  queues_ : queues T;
  workers_ : list (worker T);
  notifies : nat;
  stopping : gset nat;
  submitted : list (T * task_priority);
  started : list (T * task_priority);
  finished : list T
}.
Arguments mk_pool {T}.
Arguments queues_ {T}.
Arguments workers_ {T}.
Arguments notifies {T}.
Arguments stopping {T}.
Arguments submitted {T}.
Arguments started {T}.
Arguments finished {T}.

(** What a thread does: any thread submits, and then notifies; a worker takes a
    task, finishes it (a throwing task finishes too: the exception is caught),
    blocks, wakes up without a reason, or returns; the destructor requests the
    stop of a worker.  [LNotify] says which blocked worker is woken. *)
Inductive label (T : Type) :=
  | LSubmit (t : T) (p : task_priority)
  | LNotify (i : option nat)
  | LTake (i : nat)
  | LFinish (i : nat)
  | LBlock (i : nat)
  | LSpurious (i : nat)
  | LStop (i : nat)
  | LExit (i : nat).
Arguments LSubmit {T}.
Arguments LNotify {T}.
Arguments LTake {T}.
Arguments LFinish {T}.
Arguments LBlock {T}.
Arguments LSpurious {T}.
Arguments LStop {T}.
Arguments LExit {T}.

Section pool.
Context {T : Type}.
Implicit Types s : pool T.

(** The constructor: at least one worker. *)
Definition new_pool (worker_count : nat) : pool T :=
  mk_pool (mk_queues [] [] []) (replicate (Nat.max 1 worker_count) Checking) 0 ∅ [] [] [].

(** [submit] up to the release of the mutex. *)
Definition submit (t : T) (p : task_priority) s : pool T :=
  mk_pool (push t p (queues_ s)) (workers_ s) (S (notifies s)) (stopping s) (submitted s ++ [(t, p)]) (started s) (finished s).

Definition set_workers (ws : list (worker T)) s : pool T :=
  mk_pool (queues_ s) ws (notifies s) (stopping s) (submitted s) (started s) (finished s).
Definition set_worker (i : nat) (wk : worker T) s : pool T := set_workers (<[i := wk]> (workers_ s)) s.

Definition is_blocked (wk : worker T) : bool := match wk with Blocked => true | _ => false end.
Definition wake_up (wk : worker T) : worker T := match wk with Blocked => Checking | _ => wk end.

(** [notify_one]: one of the blocked workers, if there are any, wakes up. *)
Definition notify_one (i : option nat) s : option (pool T) :=
  match notifies s with
  | O => None
  | S n =>
      let s := mk_pool (queues_ s) (workers_ s) n (stopping s) (submitted s) (started s) (finished s) in
      match i with
      | Some i => match workers_ s !! i with Some Blocked => Some (set_worker i Checking s) | _ => None end
      | None => if existsb is_blocked (workers_ s) then None else Some s
      end
  end.

(** [wait(lock, stop_token, has_pending)] and the critical section after it: a
    worker that holds the mutex goes on if something is pending or its stop was
    requested, and blocks otherwise. *)
Definition worker_wake (i : nat) s : option (pool T) :=
  match workers_ s !! i with
  | Some Checking =>
      if has_pending (queues_ s) || bool_decide (i ∈ stopping s) then
        if negb (has_pending (queues_ s)) then Some (set_worker i Exited s)
        else
          match dequeue_highest (queues_ s) with
          | Some (t, p, q) =>
              Some (mk_pool q (<[i := Running t]> (workers_ s)) (notifies s) (stopping s) (submitted s) (started s ++ [(t, p)]) (finished s))
          | None => None
          end
      else Some (set_worker i Blocked s)
  | _ => None
  end.

Definition worker_finish (i : nat) s : option (pool T) :=
  match workers_ s !! i with
  | Some (Running t) =>
      Some (mk_pool (queues_ s) (<[i := Checking]> (workers_ s)) (notifies s) (stopping s) (submitted s) (started s) (finished s ++ [t]))
  | _ => None
  end.

(** [request_stop], whose callback notifies all waiters. *)
Definition request_stop (i : nat) s : pool T :=
  mk_pool (queues_ s) (wake_up <$> workers_ s) (notifies s) ({[i]} ∪ stopping s) (submitted s) (started s) (finished s).

Definition step (l : label T) s : option (pool T) :=
  match l with
  | LSubmit t p => Some (submit t p s)
  | LNotify i => notify_one i s
  | LTake i => if has_pending (queues_ s) then worker_wake i s else None
  | LExit i => if negb (has_pending (queues_ s)) && bool_decide (i ∈ stopping s) then worker_wake i s else None
  | LBlock i => if has_pending (queues_ s) || bool_decide (i ∈ stopping s) then None else worker_wake i s
  | LFinish i => worker_finish i s
  | LSpurious i => match workers_ s !! i with Some Blocked => Some (set_worker i Checking s) | _ => None end
  | LStop i => Some (request_stop i s)
  end.

Fixpoint run_from (ls : list (label T)) s : option (pool T) :=
  match ls with
  | [] => Some s
  | l :: ls' => match step l s with Some s' => run_from ls' s' | None => None end
  end.

(** ** Invariant *)

Definition at_level (p : task_priority) (l : list (T * task_priority)) : list T :=
  (filter (fun x => x.2 = p) l).*1.

Definition running (wk : worker T) : list T := match wk with Running t => [t] | _ => [] end.

(** Per level, what was submitted is what was started, in that order,
    followed by the queue; every started task is running or finished. *)
Definition pool_ok s : Prop :=
  (forall p, at_level p (submitted s) = at_level p (started s) ++ queue (queues_ s) p) /\
  (started s).*1 ≡ₚ finished s ++ concat (running <$> workers_ s).

Lemma at_level_snoc p (l : list (T * task_priority)) t p' :
  at_level p (l ++ [(t, p')]) = at_level p l ++ (if bool_decide (p' = p) then [t] else []).
Proof.
  unfold at_level. rewrite filter_app, fmap_app. f_equal. rewrite filter_cons. simpl. 
  case_decide; case_bool_decide; done.
Qed.

Lemma queue_push (t : T) p q p' :
  queue (push t p q) p' = queue q p' ++ (if bool_decide (p = p') then [t] else []).
Proof. destruct p, p'; simpl; rewrite ?app_nil_r; done. Qed.

Lemma dequeue_queue (q : queues T) t p q' p' :
  dequeue_highest q = Some (t, p, q') -> queue q p' = (if bool_decide (p = p') then [t] else []) ++ queue q' p'.
Proof.
  unfold dequeue_highest. destruct q as [h n l]. simpl.
  destruct h as [|x h]; [destruct n as [|x n]; [destruct l as [|x l]; [done|]|]|]; intros [= <- <- <-]; by destruct p'.
Qed.

Lemma has_pending_dequeue (q : queues T) : has_pending q = true -> exists t p q', dequeue_highest q = Some (t, p, q').
Proof.
  unfold has_pending, dequeue_highest. destruct q as [h n l]. simpl.
  destruct h as [|x h]; [destruct n as [|x n]; [destruct l as [|x l]; [done|]|]|]; eauto.
Qed.

(** Replacing an idle worker's state. *)
Lemma running_insert (ws : list (worker T)) i wk wk' :
  ws !! i = Some wk -> running wk ++ concat (running <$> <[i := wk']> ws) ≡ₚ running wk' ++ concat (running <$> ws).
Proof.
  intros Hi. rewrite <- (take_drop_middle ws i wk Hi) at 2.
  rewrite insert_take_drop by (by eapply lookup_lt_Some). rewrite !fmap_app, !concat_app. simpl.
  rewrite !app_assoc. apply Permutation_app_tail. rewrite <- !app_assoc.
  rewrite (Permutation_app_comm (running wk)), (Permutation_app_comm (running wk')), <- !app_assoc.
  apply Permutation_app_head. apply Permutation_app_comm.
Qed.

Lemma submit_ok t p s : pool_ok s -> pool_ok (submit t p s).
Proof.
  intros [Hq Hr]. split; [|done]. intros p'. simpl. by rewrite at_level_snoc, queue_push, Hq, app_assoc.
Qed.

(** Replacing one idle state by another. *)
Lemma set_worker_ok i wk wk' s :
  workers_ s !! i = Some wk -> running wk = [] -> running wk' = [] -> pool_ok s -> pool_ok (set_worker i wk' s).
Proof.
  intros Hi Hr Hr' [Hq Hp]. split; [done|]. simpl. rewrite Hp.
  pose proof (running_insert (workers_ s) i wk wk' Hi) as Hins. rewrite Hr, Hr' in Hins. by rewrite Hins.
Qed.

Lemma worker_wake_ok i s s' : pool_ok s -> worker_wake i s = Some s' -> pool_ok s'.
Proof.
  intros Hok. unfold worker_wake. destruct (workers_ s !! i) as [[| |t|]|] eqn:Hi; try done.
  destruct (has_pending (queues_ s)); cbn [negb orb].
  - destruct Hok as [Hq Hr]. destruct (dequeue_highest (queues_ s)) as [[[t p] q]|] eqn:Ed; [|done]. intros [= <-]. split; simpl.
    + intros p'. rewrite at_level_snoc, <- app_assoc, <- (dequeue_queue _ _ _ _ p' Ed). apply Hq.
    + rewrite fmap_app, Hr. simpl. pose proof (running_insert (workers_ s) i Checking (Running t) Hi) as Hp. simpl in Hp.
      rewrite Hp, <- app_assoc. apply Permutation_app_head. symmetry. apply Permutation_cons_append.
  - case_bool_decide; intros [= <-]; by eapply set_worker_ok.
Qed.

Lemma worker_finish_ok i s s' : pool_ok s -> worker_finish i s = Some s' -> pool_ok s'.
Proof.
  intros [Hq Hr]. unfold worker_finish. destruct (workers_ s !! i) as [[| |t|]|] eqn:Hi; try done.
  intros [= <-]. split; [done|]. simpl. rewrite Hr.
  pose proof (running_insert (workers_ s) i (Running t) Checking Hi) as Hp. simpl in Hp.
  rewrite <- Hp, <- app_assoc. done.
Qed.

Lemma notify_one_ok i s s' : pool_ok s -> notify_one i s = Some s' -> pool_ok s'.
Proof.
  intros Hok. unfold notify_one. destruct (notifies s) as [|n]; [done|]. destruct i as [i|]; simpl.
  - destruct (workers_ s !! i) as [[| | |]|] eqn:Hi; try done. intros [= <-]. by eapply (set_worker_ok i Blocked).
  - destruct (existsb _ _); [done|]. by intros [= <-].
Qed.

Lemma request_stop_ok i s : pool_ok s -> pool_ok (request_stop i s).
Proof.
  intros [Hq Hr]. split; [done|]. simpl. rewrite Hr. f_equiv. rewrite <- list_fmap_compose.
  apply reflexive_eq. f_equal. apply list_fmap_ext. by intros ? [].
Qed.

Lemma step_ok l s s' : pool_ok s -> step l s = Some s' -> pool_ok s'.
Proof.
  intros Hs. destruct l as [t p|i|i|i|i|i|i|i]; simpl.
  - intros [= <-]. by apply submit_ok.
  - by apply notify_one_ok.
  - destruct (has_pending _); [|done]. by apply worker_wake_ok.
  - by apply worker_finish_ok.
  - destruct (_ || _); [done|]. by apply worker_wake_ok.
  - destruct (workers_ s !! i) as [[| | |]|] eqn:Hi; try done. intros [= <-]. by eapply (set_worker_ok i Blocked).
  - intros [= <-]. by apply request_stop_ok.
  - destruct (_ && _); [|done]. by apply worker_wake_ok.
Qed.

Lemma run_from_ok ls : forall s s', pool_ok s -> run_from ls s = Some s' -> pool_ok s'.
Proof.
  induction ls as [|l ls IH]; intros s s' Hs E; simpl in E; [by simplify_eq|].
  destruct (step l s) as [s1|] eqn:E1; [|done]. eapply IH; [|exact E]. by eapply step_ok.
Qed.

Lemma new_pool_ok n : pool_ok (new_pool n).
Proof.
  split; [by intros []|]. simpl. generalize (Nat.max 1 n). intros m. induction m as [|m IH]; [done|]. exact IH.
Qed.

End pool.

(** C36. Scheduling.  In every interleaving, the tasks started at each priority
    level are the tasks submitted at that level, in submission order, with the
    rest still queued; started tasks are running or finished, none twice; and
    a worker never starts a task while one of a higher priority is queued. *)
Theorem pool_schedules {T} (n : nat) (ls : list (label T)) s :
  run_from ls (new_pool n) = Some s ->
  (forall p, at_level p (submitted s) = at_level p (started s) ++ queue (queues_ s) p) /\
  (started s).*1 ≡ₚ finished s ++ concat (running <$> workers_ s) /\
  (forall i s', step (LTake i) s = Some s' -> exists t p, started s' = started s ++ [(t, p)] /\
     match p with
     | high => True
     | normal => q_high (queues_ s) = []
     | low => q_high (queues_ s) = [] /\ q_normal (queues_ s) = []
     end).
Proof.
  intros E. destruct (run_from_ok ls _ _ (new_pool_ok n) E) as [Hq Hr]. split_and!; [done|done|].
  intros i s'. simpl. unfold worker_wake. destruct (has_pending (queues_ s)) eqn:Hp; [|done].
  destruct (workers_ s !! i) as [[| |t|]|]; try done. simpl.
  destruct (dequeue_highest (queues_ s)) as [[[t p] q]|] eqn:Ed; [|done]. intros [= <-]. exists t, p. split; [done|].
  unfold dequeue_highest in Ed. destruct (queues_ s) as [h nr l]. simpl in *.
  destruct h; [destruct nr; [destruct l; [done|]|]|]; by simplify_eq.
Qed.

(** ** Draining *)

Section drain.
Context {T : Type}.
Implicit Types s : pool T.

Definition backlog s : nat := length (q_high (queues_ s)) + length (q_normal (queues_ s)) + length (q_low (queues_ s)).

(** A worker that will look at the queues again without being notified. *)
Definition awake (wk : worker T) : Prop :=
  match wk with Checking | Running _ => True | Blocked | Exited => False end.

(** No wake-up is lost: while something is queued and some worker is blocked,
    a worker is awake or a notification is still to come; and no worker is
    blocked whose stop was requested. *)
Definition woken s : Prop :=
  (has_pending (queues_ s) = true -> Blocked ∈ workers_ s -> (exists wk, wk ∈ workers_ s /\ awake wk) \/ (0 < notifies s)%nat) /\
  (forall i, workers_ s !! i = Some Blocked -> i ∉ stopping s).

Lemma backlog_pending s : has_pending (queues_ s) = false <-> backlog s = 0%nat.
Proof.
  unfold has_pending, backlog. destruct (queues_ s) as [h n l]. simpl. destruct h, n, l; simpl; split; done || lia.
Qed.

Lemma dequeue_backlog s t p q :
  dequeue_highest (queues_ s) = Some (t, p, q) -> backlog s = S (length (q_high q) + length (q_normal q) + length (q_low q)).
Proof.
  unfold backlog, dequeue_highest. destruct (queues_ s) as [h nr l]. simpl.
  destruct h; [destruct nr; [destruct l; [done|]|]|]; intros; simplify_eq; simpl; lia.
Qed.

(** [worker_wake] on a worker that looks at the queues. *)
Lemma worker_wake_cases i s :
  workers_ s !! i = Some Checking ->
  (has_pending (queues_ s) = true /\ exists t p q, dequeue_highest (queues_ s) = Some (t, p, q) /\
     worker_wake i s = Some (mk_pool q (<[i := Running t]> (workers_ s)) (notifies s) (stopping s) (submitted s)
                               (started s ++ [(t, p)]) (finished s))) \/
  (has_pending (queues_ s) = false /\ i ∈ stopping s /\ worker_wake i s = Some (set_worker i Exited s)) \/
  (has_pending (queues_ s) = false /\ (i ∉ stopping s) /\ worker_wake i s = Some (set_worker i Blocked s)).
Proof.
  intros Hi. unfold worker_wake. rewrite Hi. destruct (has_pending (queues_ s)) eqn:Hp.
  - left. destruct (has_pending_dequeue _ Hp) as (t & p & q & Ed). split; [done|]. exists t, p, q. simpl. by rewrite Ed.
  - right. simpl. case_bool_decide; [left|right]; done.
Qed.

Lemma worker_wake_some i s s' : worker_wake i s = Some s' -> workers_ s !! i = Some Checking.
Proof. unfold worker_wake. destruct (workers_ s !! i) as [[| |t|]|]; done. Qed.

(** A step that leaves worker [i] awake keeps the invariant. *)
Lemma woken_awake i wk s q n sub st fin :
  is_Some (workers_ s !! i) -> awake wk -> woken s ->
  woken (mk_pool q (<[i := wk]> (workers_ s)) n (stopping s) sub st fin).
Proof.
  intros [w Hi%lookup_lt_Some] Ha [_ Hs]. split; simpl.
  - intros _ _. left. exists wk. split; [|done]. by apply list_elem_of_insert.
  - intros j [(<- & -> & _)|[_ Hj]]%list_lookup_insert_Some; [done|by apply Hs].
Qed.

Lemma woken_idle i wk s : has_pending (queues_ s) = false -> (wk = Blocked -> i ∉ stopping s) -> woken s -> woken (set_worker i wk s).
Proof.
  intros Hp Hb [_ Hs]. split; simpl; [by rewrite Hp|].
  intros j [(<- & -> & _)|[_ Hj]]%list_lookup_insert_Some; [by apply Hb|by apply Hs].
Qed.

Lemma not_blocked (ws : list (worker T)) : existsb is_blocked ws = false -> Blocked ∉ ws.
Proof.
  intros E Hin. apply not_true_iff_false in E. apply E, existsb_exists. exists Blocked. split; [by apply list_elem_of_In|done].
Qed.

Lemma step_woken l s s' : woken s -> step l s = Some s' -> woken s'.
Proof.
  intros Hw. destruct l as [t p|i|i|i|i|i|i|i]; simpl.
  - intros [= <-]. destruct Hw as [_ Hs]. split; [|done]. right. simpl. lia.
  - unfold notify_one. destruct (notifies s) as [|n]; [done|]. destruct i as [i|]; simpl.
    + destruct (workers_ s !! i) as [[| | |]|] eqn:Hi; try done. intros [= <-]. by apply (woken_awake i Checking s).
    + destruct (existsb _ _) eqn:Eb; [done|]. intros [= <-]. destruct Hw as [_ Hs]. split; [|done].
      intros _ Hin. by destruct (not_blocked _ Eb).
  - destruct (has_pending _) eqn:Hp; [|done]. intros E. pose proof (worker_wake_some _ _ _ E) as Hi.
    destruct (worker_wake_cases i s Hi) as [(_ & t & p & q & _ & Ew)|[(Hf & _)|(Hf & _)]]; [|congruence..].
    rewrite Ew in E. simplify_eq. by apply (woken_awake i (Running t) s).
  - unfold worker_finish. destruct (workers_ s !! i) as [[| |t|]|] eqn:Hi; try done. intros [= <-]. by apply (woken_awake i Checking s).
  - destruct (has_pending _ || _) eqn:Hp; [done|]. apply orb_false_iff in Hp as [Hp Hn%bool_decide_eq_false].
    intros E. pose proof (worker_wake_some _ _ _ E) as Hi.
    destruct (worker_wake_cases i s Hi) as [(Hf & _)|[(_ & Hf & _)|(_ & _ & Ew)]]; [congruence|done|].
    rewrite Ew in E. simplify_eq. by apply woken_idle.
  - destruct (workers_ s !! i) as [[| | |]|] eqn:Hi; try done. intros [= <-]. by apply (woken_awake i Checking s).
  - intros [= <-]. split; simpl.
    + intros _ (w & ? & _)%list_elem_of_fmap. by destruct w.
    + intros j. rewrite list_lookup_fmap. by destruct (workers_ s !! j) as [[| | |]|].
  - destruct (negb _ && _) eqn:Hp; [|done]. apply andb_true_iff in Hp as [Hp%negb_true_iff Hn%bool_decide_eq_true].
    intros E. pose proof (worker_wake_some _ _ _ E) as Hi.
    destruct (worker_wake_cases i s Hi) as [(Hf & _)|[(_ & _ & Ew)|(_ & Hf & _)]]; [congruence| |done].
    rewrite Ew in E. simplify_eq. by apply woken_idle.
Qed.

Lemma run_woken ls : forall s s', woken s -> run_from ls s = Some s' -> woken s'.
Proof.
  induction ls as [|l ls IH]; intros s s' Hs E; simpl in E; [by simplify_eq|].
  destruct (step l s) as [s1|] eqn:E1; [|done]. eapply IH; [|exact E]. by eapply step_woken.
Qed.

Lemma new_pool_woken n : woken (new_pool n).
Proof. split; [done|]. intros i [Hw _]%lookup_replicate. done. Qed.

(** ** Every schedule drains *)

(** Steps of the pool itself: a pending notification and what workers do.  A
    blocked worker that wakes up without a reason is set apart. *)
Definition internal (l : label T) : Prop :=
  match l with LNotify _ | LTake _ | LFinish _ | LBlock _ | LExit _ => True | LSubmit _ _ | LSpurious _ | LStop _ => False end.
Definition spurious (l : label T) : Prop := match l with LSpurious _ => True | _ => False end.
#[export] Instance spurious_dec l : Decision (spurious l).
Proof. destruct l; apply _. Defined.

Definition energy (wk : worker T) : nat := match wk with Running _ => 2 | Checking => 1 | Blocked | Exited => 0 end.

(** What is left to do, in steps. *)
Definition potential s : nat := (2 * backlog s + 2 * notifies s + sum_list (energy <$> workers_ s))%nat.

Lemma sum_insert (ws : list (worker T)) i wk wk' :
  ws !! i = Some wk ->
  (sum_list (energy <$> <[i := wk']> ws) + energy wk = sum_list (energy <$> ws) + energy wk')%nat.
Proof.
  revert i. induction ws as [|w ws IH]; intros [|i] Hi; simplify_eq/=; [lia|]. specialize (IH i Hi). lia.
Qed.

Lemma step_potential l s s' :
  internal l \/ spurious l -> step l s = Some s' ->
  (potential s' + 1 <= potential s + if decide (spurious l) then 2 else 0)%nat.
Proof.
  intros Hl. destruct l as [t p|i|i|i|i|i|i|i]; try (by destruct Hl);
    first [rewrite decide_True by done|rewrite decide_False by (by intros [])]; simpl; clear Hl.
  - unfold notify_one. destruct (notifies s) as [|n] eqn:En; [done|]. destruct i as [i|]; simpl.
    + destruct (workers_ s !! i) as [[| | |]|] eqn:Hi; try done. intros [= <-].
      pose proof (sum_insert _ _ _ Checking Hi). unfold potential, backlog. simpl in *. lia.
    + destruct (existsb _ _); [done|]. intros [= <-]. unfold potential, backlog. simpl. lia.
  - destruct (has_pending _) eqn:Hp; [|done]. intros E. pose proof (worker_wake_some _ _ _ E) as Hi.
    destruct (worker_wake_cases i s Hi) as [(_ & t & p & q & Ed & Ew)|[(Hf & _)|(Hf & _)]]; [|congruence..].
    rewrite Ew in E. simplify_eq. apply dequeue_backlog in Ed. pose proof (sum_insert _ _ _ (Running t) Hi).
    unfold potential. rewrite Ed. unfold backlog. simpl in *. lia.
  - unfold worker_finish. destruct (workers_ s !! i) as [[| |t|]|] eqn:Hi; try done. intros [= <-].
    pose proof (sum_insert _ _ _ Checking Hi). unfold potential, backlog. simpl in *. lia.
  - destruct (has_pending _ || _) eqn:Hp; [done|]. apply orb_false_iff in Hp as [Hp Hn%bool_decide_eq_false].
    intros E. pose proof (worker_wake_some _ _ _ E) as Hi.
    destruct (worker_wake_cases i s Hi) as [(Hf & _)|[(_ & Hf & _)|(_ & _ & Ew)]]; [congruence|done|].
    rewrite Ew in E. simplify_eq. pose proof (sum_insert _ _ _ Blocked Hi). unfold potential, backlog. simpl in *. lia.
  - destruct (workers_ s !! i) as [[| | |]|] eqn:Hi; try done. intros [= <-].
    pose proof (sum_insert _ _ _ Checking Hi). unfold potential, backlog. simpl in *. lia.
  - destruct (negb _ && _) eqn:Hp; [|done]. apply andb_true_iff in Hp as [Hp%negb_true_iff Hn%bool_decide_eq_true].
    intros E. pose proof (worker_wake_some _ _ _ E) as Hi.
    destruct (worker_wake_cases i s Hi) as [(Hf & _)|[(_ & _ & Ew)|(_ & Hf & _)]]; [congruence| |done].
    rewrite Ew in E. simplify_eq. pose proof (sum_insert _ _ _ Exited Hi). unfold potential, backlog. simpl in *. lia.
Qed.

Lemma run_potential ls : forall s s',
  Forall (fun l => internal l \/ spurious l) ls -> run_from ls s = Some s' ->
  (length ls + potential s' <= potential s + 2 * length (filter spurious ls))%nat.
Proof.
  induction ls as [|l ls IH]; intros s s' Hl E; simpl in E; [simplify_eq; simpl; lia|].
  apply Forall_cons in Hl as [Hl Hls]. destruct (step l s) as [s1|] eqn:E1; [|done].
  pose proof (step_potential l s s1 Hl E1) as Hp. pose proof (IH s1 s' Hls E). rewrite filter_cons. case_decide; simpl; lia.
Qed.

(** Nothing is left to do on a pool none of whose own steps is enabled. *)
Lemma quiet_workers s i wk :
  (forall l, internal l -> step l s = None) -> workers_ s !! i = Some wk -> wk = Blocked \/ wk = Exited.
Proof.
  intros Hq Hi. destruct wk as [| |t|]; [|by left| |by right].
  - exfalso. pose proof (Hq (LTake i) I) as Ht. pose proof (Hq (LExit i) I) as He. pose proof (Hq (LBlock i) I) as Hb. simpl in *.
    destruct (worker_wake_cases i s Hi) as [(Hp & t & p & q & _ & E)|[(Hp & Hs & E)|(Hp & Hs & E)]].
    + by rewrite Hp, E in Ht.
    + by rewrite Hp, bool_decide_true, E in He.
    + by rewrite Hp, bool_decide_false, E in Hb.
  - exfalso. pose proof (Hq (LFinish i) I) as Hf. simpl in Hf. unfold worker_finish in Hf. by rewrite Hi in Hf.
Qed.

Lemma quiet_notifies s : (forall l, internal l -> step l s = None) -> notifies s = 0%nat.
Proof.
  intros Hq. destruct (notifies s) as [|n] eqn:En; [done|]. exfalso.
  destruct (existsb is_blocked (workers_ s)) eqn:Eb.
  - apply existsb_exists in Eb as (wk & Hin%list_elem_of_In & Hb). destruct wk; try done.
    apply list_elem_of_lookup in Hin as [i Hi]. pose proof (Hq (LNotify (Some i)) I) as H. simpl in H. unfold notify_one in H.
    rewrite En in H. simpl in H. by rewrite Hi in H.
  - pose proof (Hq (LNotify None) I) as H. simpl in H. unfold notify_one in H. rewrite En in H. simpl in H. by rewrite Eb in H.
Qed.

Lemma quiet_backlog s i wk :
  woken s -> (forall l, internal l -> step l s = None) -> workers_ s !! i = Some wk -> wk <> Exited -> backlog s = 0%nat.
Proof.
  intros [Hw _] Hq Hi Hne. apply backlog_pending. destruct (has_pending (queues_ s)) eqn:Hp; [|done]. exfalso.
  destruct (quiet_workers s i wk Hq Hi) as [-> | ->]; [|done]. destruct (Hw eq_refl) as [(w & Hin & Ha)|Hn].
  - by eapply list_elem_of_lookup_2.
  - apply list_elem_of_lookup in Hin as [j Hj]. by destruct (quiet_workers s j w Hq Hj) as [-> | ->].
  - rewrite (quiet_notifies s Hq) in Hn. lia.
Qed.

Lemma quiet_running s : (forall l, internal l -> step l s = None) -> concat (running <$> workers_ s) = [].
Proof.
  intros Hq. apply concat_nil_Forall, Forall_fmap, Forall_lookup. intros i wk Hi.
  by destruct (quiet_workers s i wk Hq Hi) as [-> | ->].
Qed.

Lemma no_backlog_queue s p : backlog s = 0%nat -> queue (queues_ s) p = [].
Proof. unfold backlog. destruct (queues_ s) as [h nr l]. destruct p, h, nr, l; simpl; done || lia. Qed.

End drain.

(** C37. No task is stranded and no wake-up lost, in every schedule of the
    submitters, their notifications, the workers and requests to stop.  A worker
    returns only when its stop was requested and nothing is queued.  The pool
    makes at most [potential] steps of its own, plus two for every spurious
    wake-up, until something new is submitted or stopped; and when it cannot
    make another one while some worker has not returned, every task submitted
    was started and has finished, each once, and the workers asked to stop
    have returned. *)
Theorem pool_drains {T} (n : nat) (ls : list (label T)) s :
  run_from ls (new_pool n) = Some s ->
  (forall i s', step (LExit i) s = Some s' -> backlog s = 0%nat /\ i ∈ stopping s) /\
  (forall ls' s', Forall (fun l => internal l \/ spurious l) ls' -> run_from ls' s = Some s' ->
     (length ls' <= potential s + 2 * length (filter spurious ls'))%nat) /\
  ((forall l, internal l -> step l s = None) ->
     (forall i, i ∈ stopping s -> (i < length (workers_ s))%nat -> workers_ s !! i = Some Exited) /\
     forall i wk, workers_ s !! i = Some wk -> wk <> Exited ->
       backlog s = 0%nat /\ (forall p, at_level p (started s) = at_level p (submitted s)) /\ finished s ≡ₚ (started s).*1).
Proof.
  intros E. destruct (run_from_ok ls _ _ (new_pool_ok n) E) as [Hq Hr]. pose proof (run_woken ls _ _ (new_pool_woken n) E) as Hw.
  split; [|split].
  - intros i s'. simpl. destruct (has_pending _) eqn:Hp; [done|]. simpl. case_bool_decide; [|done].
    intros _. split; [by apply backlog_pending|done].
  - intros ls' s' Hl E'. pose proof (run_potential ls' s s' Hl E'). lia.
  - intros Hquiet. split.
    + intros i Hi [wk Hk]%lookup_lt_is_Some. destruct (quiet_workers s i wk Hquiet Hk) as [-> | ->]; [|done].
      by destruct (proj2 Hw i Hk).
    + intros i wk Hi Hne. pose proof (quiet_backlog s i wk Hw Hquiet Hi Hne) as Hb. split_and!; [done| |].
      * intros p. by rewrite Hq, (no_backlog_queue s p Hb), app_nil_r.
      * by rewrite Hr, (quiet_running s Hquiet), app_nil_r.
Qed.

Module examples.

Definition schedule : list (label nat) :=
  [LBlock 0; LSubmit 1%nat low; LSubmit 2%nat normal; LNotify (Some 0%nat); LTake 0; LSubmit 3%nat high; LTake 1;
   LNotify None; LFinish 0; LTake 0; LNotify None].
Definition final : pool nat := default (new_pool 2) (run_from schedule (new_pool 2)).

(** Both tasks that run are finished, one worker blocks and the other, asked to
    stop, returns. *)
Definition rest : list (label nat) := [LFinish 0; LFinish 1; LBlock 0; LStop 1; LBlock 0; LExit 1].
Definition settled : pool nat := default (new_pool 2) (run_from (schedule ++ rest) (new_pool 2)).

Lemma pool_schedules_witness :
  run_from schedule (new_pool 2) = Some final /\ started final = [(2%nat, normal); (3%nat, high); (1%nat, low)] /\
  (started final).*1 ≡ₚ finished final ++ concat (running <$> workers_ final).
Proof.
  split; [vm_compute; reflexivity|]. split; [vm_compute; reflexivity|]. apply (pool_schedules 2 schedule final). vm_compute. reflexivity.
Defined.

Lemma settled_quiet l : internal l -> step l settled = None.
Proof.
  let q := eval vm_compute in settled in replace settled with q by (vm_compute; reflexivity).
  destruct l as [|i|i|i|i| | |i]; try done; intros _.
  all: destruct i as [|[|i]]; simpl; unfold worker_wake; simpl; by repeat case_match.
Qed.

Lemma pool_drains_witness :
  workers_ settled = [Blocked; Exited] /\ workers_ settled !! 1%nat = Some Exited /\
  backlog settled = 0%nat /\ finished settled ≡ₚ [2; 3; 1]%nat /\
  run_from rest final = Some settled.
Proof.
  assert (run_from (schedule ++ rest) (new_pool 2) = Some settled) as E by (vm_compute; reflexivity).
  destruct (pool_drains 2 (schedule ++ rest) settled E) as (_ & _ & Hq).
  destruct (Hq settled_quiet) as [Hstop Hdone].
  assert (workers_ settled !! 0%nat = Some Blocked) as H0 by (vm_compute; reflexivity).
  assert (Blocked <> (@Exited nat)) as Hne by discriminate.
  destruct (Hdone 0%nat Blocked H0 Hne) as (Hb & _ & Hf).
  assert ((started settled).*1 = [2; 3; 1]%nat) as Hs by (vm_compute; reflexivity). rewrite Hs in Hf.
  split_and!; [vm_compute; reflexivity| |exact Hb|exact Hf|vm_compute; reflexivity].
  apply Hstop; [|vm_compute; lia]. apply (bool_decide_unpack _). vm_compute. exact I.
Defined.

End examples.
