(* ===== verification/Task.v ===== *)
(** * [core::task]

    The dedicated-thread loop runner of core/task.hpp, as a transition system:
    a controlling thread calls [start], [pause], [resume] and [stop]; the
    worker thread executes [run], one step per test, wait or call of the loop
    function. *)

From S2P Require Import Prelude.
#[local] Open Scope Z_scope.

(** Where the worker is in [run]: at the test of the [while], in the wait for
    [!paused_], at the second test, in the loop function, or returned. *)
Inductive phase := AtTest | InWait | AtCheck | InBody | Returned.

#[export] Instance phase_eq_dec : EqDecision phase.
Proof. solve_decision. Defined.

(** Where the controller is: outside [stop], or in it, before and after
    [request_stop], about to join. *)
Inductive control := Outside | Flagged | Joining.

(** The data members, the stop token of the current thread and the two program
    points; [thread_] is [None] when it is not joinable.  [rounds] counts calls
    of the loop function. *)
Record task := mk_task {
  thread_ : option phase;
  paused_ : bool;
  running_ : bool;
  stop_requested : bool;
  controller : control;
  rounds : nat
}.

Definition new_task : task := mk_task None false false false Outside 0.

Inductive label :=
  | LStart
  | LPause
  | LResume
  | LStop (* the critical section of [stop] *)
  | LRequestStop
  | LJoin
  | LThread. (* one step of the worker *)

Definition set_thread (p : phase) (t : task) : task :=
  mk_task (Some p) (paused_ t) (running_ t) (stop_requested t) (controller t) (rounds t).

Definition start (t : task) : task :=
  if running_ t then t else mk_task (Some AtTest) false true false (controller t) (rounds t).

Definition pause (t : task) : task :=
  mk_task (thread_ t) true (running_ t) (stop_requested t) (controller t) (rounds t).

Definition resume (t : task) : task :=
  mk_task (thread_ t) false (running_ t) (stop_requested t) (controller t) (rounds t).

Definition stop_begin (t : task) : task :=
  if negb (running_ t) then t
  else mk_task (thread_ t) false false (stop_requested t) Flagged (rounds t).

Definition is_running (t : task) : bool := running_ t.

(** One step of [run]; [None] is "blocked". *)
Definition run_step (t : task) : option task :=
  match thread_ t with
  | Some AtTest => Some (set_thread (if stop_requested t then Returned else InWait) t)
  | Some InWait => if negb (paused_ t) || stop_requested t then Some (set_thread AtCheck t) else None
  | Some AtCheck => Some (set_thread (if stop_requested t then Returned else InBody) t)
  | Some InBody =>
      Some (mk_task (Some AtTest) (paused_ t) (running_ t) (stop_requested t) (controller t) (S (rounds t)))
  | _ => None
  end.

Definition step (l : label) (t : task) : option task :=
  match l, controller t with
  | LStart, Outside => Some (start t)
  | LPause, Outside => Some (pause t)
  | LResume, Outside => Some (resume t)
  | LStop, Outside => Some (stop_begin t)
  | LRequestStop, Flagged =>
      Some (match thread_ t with
            | Some _ => mk_task (thread_ t) (paused_ t) (running_ t) true Joining (rounds t)
            | None => mk_task (thread_ t) (paused_ t) (running_ t) (stop_requested t) Outside (rounds t)
            end)
  | LJoin, Joining =>
      match thread_ t with
      | Some Returned => Some (mk_task None (paused_ t) (running_ t) (stop_requested t) Outside (rounds t))
      | _ => None
      end
  | LThread, _ => run_step t
  | _, _ => None
  end.

Fixpoint run_from (ls : list label) (t : task) : option task :=
  match ls with
  | [] => Some t
  | l :: ls' => match step l t with Some t' => run_from ls' t' | None => None end
  end.

(** ** Invariant *)

(** The thread exists exactly while the task runs or is being stopped; it
    returns only after a stop was requested, which happens only in [stop]. *)
Definition task_ok (t : task) : Prop :=
  match controller t with
  | Outside =>
      if running_ t then (exists p, thread_ t = Some p /\ p <> Returned) /\ stop_requested t = false
      else thread_ t = None
  | Flagged => (exists p, thread_ t = Some p /\ p <> Returned) /\ stop_requested t = false /\ paused_ t = false /\ running_ t = false
  | Joining => (exists p, thread_ t = Some p) /\ stop_requested t = true /\ paused_ t = false /\ running_ t = false
  end.

Lemma run_step_ok t t' : task_ok t -> run_step t = Some t' -> task_ok t'.
Proof.
  unfold task_ok, run_step. destruct t as [[p|] pa ru st c n]; simpl; [|done].
  destruct p, c, st, ru, pa; simpl; intros Hok E; simplify_eq; simpl; naive_solver.
Qed.

Lemma task_step_ok l t t' : task_ok t -> step l t = Some t' -> task_ok t'.
Proof.
  intros Hok. destruct l; simpl; try (by apply run_step_ok); destruct t as [th pa ru st [] n]; simpl; try done;
    unfold task_ok, start, pause, resume, stop_begin in *; simpl in *.
  - intros [= <-]. destruct ru; simpl; [done|]. split; [|done]. by exists AtTest.
  - intros [= <-]. done.
  - intros [= <-]. done.
  - intros [= <-]. destruct ru; simpl; [|done]. destruct Hok as [? ?]. by split_and!.
  - intros [= <-]. destruct Hok as ((p & -> & ?) & ? & ? & ?). simpl. split_and!; [by exists p|done|done|done].
  - destruct th as [[]|]; try done. intros [= <-]. simpl. destruct Hok as (_ & _ & _ & ->). done.
Qed.

Lemma task_run_ok ls : forall t t', task_ok t -> run_from ls t = Some t' -> task_ok t'.
Proof.
  induction ls as [|l ls IH]; intros t t' Hok E; simpl in E; [by simplify_eq|].
  destruct (step l t) as [t1|] eqn:E1; [|done]. eapply IH; [|exact E]. by eapply task_step_ok.
Qed.

(** Steps the worker still takes once a stop was requested. *)
Definition to_return (p : phase) : nat :=
  match p with
  | Returned => 0
  | AtTest | AtCheck => 1
  | InWait | InBody => 2
  end.

(** [stop] is not blocked by [pause], and returns after the iteration in
    progress: from any reachable state in which it waits to join, the worker
    alone returns within two steps, having finished at most the call of the
    loop function it was in; after the join the thread is gone. *)
Theorem stop_returns ls t :
  run_from ls new_task = Some t -> controller t = Joining ->
  exists n t', (n <= 2)%nat /\ run_from (replicate n LThread ++ [LJoin]) t = Some t' /\
    thread_ t' = None /\ running_ t' = false /\ (rounds t' <= S (rounds t))%nat.
Proof.
  intros E Hc. assert (task_ok t) as Hok by (eapply task_run_ok; [|exact E]; done).
  unfold task_ok in Hok. rewrite Hc in Hok. destruct Hok as ((p & Hp) & Hs & Hpa & Hr).
  destruct t as [th pa ru st c n]. simpl in *. subst. exists (to_return p).
  destruct p; simpl; eexists; (split; [lia|]); (split; [done|]); simpl; split_and!; done || lia.
Qed.

(** A paused task starts no new iteration: while nobody resumes or stops it,
    the worker completes at most the iteration it had already committed to. *)
Theorem paused_makes_no_progress n : forall t,
  paused_ t = true -> stop_requested t = false -> forall t', run_from (replicate n LThread) t = Some t' ->
  (rounds t' <= rounds t + match thread_ t with Some AtCheck | Some InBody => 1 | _ => 0 end)%nat.
Proof.
  induction n as [|n IH]; intros t Hp Hs t' E; simpl in E; [simplify_eq; lia|].
  destruct (run_step t) as [t1|] eqn:E1; [|done].
  assert (paused_ t1 = true /\ stop_requested t1 = false /\
    (rounds t1 + match thread_ t1 with Some AtCheck | Some InBody => 1 | _ => 0 end <=
     rounds t + match thread_ t with Some AtCheck | Some InBody => 1 | _ => 0 end)%nat) as (Hp1 & Hs1 & Hr1).
  { unfold run_step in E1. destruct t as [[[]|] pa ru st c m]; simpl in *; subst; simplify_eq; simpl; split_and!; done || lia. }
  specialize (IH t1 Hp1 Hs1 t' E). lia.
Qed.
