(* ===== verification/Lifecycle.v ===== *)
(** * Starting and stopping the event loop

    [event_loop::start], [stop] and [run] (core/event_loop.hpp) together with
    the [task] that owns the loop thread (core/task.hpp) and the poll the
    thread sleeps in.  Each atomic operation, critical section and system call
    of these functions is one step.  [active] are the threads inside [start]
    or [stop], [waiting] counts those that wait in [run]; the loop thread has
    its own program counter.  What it does in a turn is a number of callbacks
    ([LoopRun] has their order); the poll returns when the wake descriptor is
    readable, or when the outside world reports readiness or a timer is due. *)

From S2P Require Import Prelude.
#[local] Open Scope Z_scope.

(** The loop thread: at the [while] of [task::run], at its second test of the
    stop token, at the test of [quitting_], in poll(2), with callbacks left to
    call, or returned. *)
Inductive point := AtWhile | AtCheck | AtQuitting | Polling | Calling (n : nat) | Gone.

(** A thread inside [start] or [stop], by what it does next.  [from_run]
    tells a [start] called by [run]. *)
Inductive call :=
  | ClearQuitting (from_run : bool)   (* quitting_.store(false) *)
  | TaskStart (from_run : bool)       (* the critical section of task::start *)
  | Spawn (from_run : bool)           (* thread_ = std::jthread(...) *)
  | SetQuitting                       (* quitting_.store(true) *)
  | Interrupt                         (* poller::interrupt *)
  | TaskStop                          (* the critical section of task::stop *)
  | RequestStop                       (* thread_.request_stop() *)
  | Join                              (* thread_.join() *)
  | SetStopRequested.                 (* the run_mutex_ section of stop *)

Record sys := mk_sys {
  started_ : bool;
  quitting_ : bool;
  wake : bool;              (* the wake descriptor is readable *)
  running_ : bool;          (* of the task *)
  thread_ : option point;   (* None: not joinable *)
  token : bool;             (* stop was requested of the thread *)
  stop_requested_ : bool;
  active : list call;
  waiting : nat
}.

Definition new_sys : sys := mk_sys false false false false None false false [] 0.

Definition set_started (b : bool) (s : sys) : sys :=
  mk_sys b (quitting_ s) (wake s) (running_ s) (thread_ s) (token s) (stop_requested_ s) (active s) (waiting s).
Definition set_quitting (b : bool) (s : sys) : sys :=
  mk_sys (started_ s) b (wake s) (running_ s) (thread_ s) (token s) (stop_requested_ s) (active s) (waiting s).
Definition set_wake (b : bool) (s : sys) : sys :=
  mk_sys (started_ s) (quitting_ s) b (running_ s) (thread_ s) (token s) (stop_requested_ s) (active s) (waiting s).
Definition set_running (b : bool) (s : sys) : sys :=
  mk_sys (started_ s) (quitting_ s) (wake s) b (thread_ s) (token s) (stop_requested_ s) (active s) (waiting s).
Definition set_thread (t : option point) (s : sys) : sys :=
  mk_sys (started_ s) (quitting_ s) (wake s) (running_ s) t (token s) (stop_requested_ s) (active s) (waiting s).
Definition set_token (b : bool) (s : sys) : sys :=
  mk_sys (started_ s) (quitting_ s) (wake s) (running_ s) (thread_ s) b (stop_requested_ s) (active s) (waiting s).
Definition set_stop_requested (b : bool) (s : sys) : sys :=
  mk_sys (started_ s) (quitting_ s) (wake s) (running_ s) (thread_ s) (token s) b (active s) (waiting s).
Definition set_active (a : list call) (s : sys) : sys :=
  mk_sys (started_ s) (quitting_ s) (wake s) (running_ s) (thread_ s) (token s) (stop_requested_ s) a (waiting s).
Definition set_waiting (n : nat) (s : sys) : sys :=
  mk_sys (started_ s) (quitting_ s) (wake s) (running_ s) (thread_ s) (token s) (stop_requested_ s) (active s) n.

Inductive interface := CallStart | CallRun | CallStop.

Inductive label :=
  | LCall (c : interface)   (* some thread calls; up to the exchange *)
  | LStep (i : nat)         (* the i-th active thread *)
  | LWakeUp                 (* a thread waiting in run() *)
  | LLoop (n : nat)         (* the loop thread; n callbacks if it comes back from a poll *)
  | LOutside (n : nat)      (* the poll returns for another reason *)
  | LInterrupt.             (* another operation of the loop interrupts the poll *)

(** [run] after its [start]. *)
Definition start_returns (from_run : bool) (s : sys) : sys :=
  if from_run then set_waiting (S (waiting s)) s else s.

(** The next step of one thread in [start] or [stop]: what it does next and
    the state; [None] is blocked. *)
Definition call_step (c : call) (s : sys) : option (option call * sys) :=
  match c with
  | ClearQuitting r => Some (Some (TaskStart r), set_quitting false s)
  | TaskStart r =>
      if running_ s then Some (None, start_returns r s) else Some (Some (Spawn r), set_running true s)
  | Spawn r =>
      match thread_ s with
      | None => Some (None, start_returns r (set_token false (set_thread (Some AtWhile) s)))
      | Some _ => None (* two threads at work on thread_: not given a meaning *)
      end
  | SetQuitting => Some (Some Interrupt, set_quitting true s)
  | Interrupt => Some (Some TaskStop, set_wake true s)
  | TaskStop => Some (Some (if running_ s then RequestStop else SetStopRequested), set_running false s)
  | RequestStop =>
      match thread_ s with
      | Some _ => Some (Some Join, set_token true s)
      | None => Some (Some SetStopRequested, s)
      end
  | Join =>
      match thread_ s with
      | Some Gone => Some (Some SetStopRequested, set_thread None s)
      | _ => None
      end
  | SetStopRequested => Some (None, set_stop_requested true s)
  end.

(** [started_.exchange] and what follows it. *)
Definition enter (c : interface) (s : sys) : sys :=
  match c with
  | CallStart => if started_ s then s else set_active (active s ++ [ClearQuitting false]) (set_started true s)
  | CallRun =>
      if started_ s then set_waiting (S (waiting s)) s
      else set_active (active s ++ [ClearQuitting true]) (set_started true s)
  | CallStop => if started_ s then set_active (active s ++ [SetQuitting]) (set_started false s) else s
  end.

(** One step of the loop thread by itself. *)
Definition loop_step (n : nat) (s : sys) : option sys :=
  match thread_ s with
  | Some AtWhile => Some (set_thread (Some (if token s then Gone else AtCheck)) s)
  | Some AtCheck => Some (set_thread (Some (if token s then Gone else AtQuitting)) s)
  | Some AtQuitting => Some (set_thread (Some (if quitting_ s then AtWhile else Polling)) s)
  | Some Polling => if wake s then Some (set_thread (Some (Calling n)) (set_wake false s)) else None
  | Some (Calling (S m)) => Some (set_thread (Some (Calling m)) s)
  | Some (Calling O) => Some (set_thread (Some AtWhile) s)
  | _ => None
  end.

Definition step (l : label) (s : sys) : option sys :=
  match l with
  | LCall c => Some (enter c s)
  | LStep i =>
      match active s !! i with
      | Some c =>
          match call_step c s with
          | Some (Some c', s') => Some (set_active (<[i := c']> (active s)) s')
          | Some (None, s') => Some (set_active (delete i (active s)) s')
          | None => None
          end
      | None => None
      end
  | LWakeUp =>
      match waiting s with
      | S n => if stop_requested_ s then Some (set_waiting n (set_stop_requested false s)) else None
      | O => None
      end
  | LLoop n => loop_step n s
  | LOutside n =>
      match thread_ s with
      | Some Polling => Some (set_thread (Some (Calling n)) s)
      | _ => None
      end
  | LInterrupt => Some (set_wake true s)
  end.

Fixpoint run_labels (ls : list label) (s : sys) : option sys :=
  match ls with
  | [] => Some s
  | l :: ls' => match step l s with Some s' => run_labels ls' s' | None => None end
  end.

(** ** Invariant of calls that do not overlap *)

(** [start] and [stop] are not called while another call of them is in
    progress; [run] counts as a [start]. *)
Definition disciplined_label (l : label) (s : sys) : Prop :=
  match l with
  | LCall _ => active s = []
  | _ => True
  end.

Fixpoint disciplined (ls : list label) (s : sys) : Prop :=
  match ls with
  | [] => True
  | l :: ls' => disciplined_label l s /\ match step l s with Some s' => disciplined ls' s' | None => True end
  end.

Definition alive (s : sys) : Prop := exists p, thread_ s = Some p /\ p <> Gone.

(** An interrupt is pending if the thread is in its poll. *)
Definition woken (s : sys) : Prop := thread_ s = Some Polling -> wake s = true.

(** What holds when the only call in progress is [c], or none is. *)
Definition stage_ok (c : option call) (s : sys) : Prop :=
  match c with
  | None =>
      if started_ s then running_ s = true /\ alive s /\ token s = false /\ quitting_ s = false
      else running_ s = false /\ thread_ s = None
  | Some (ClearQuitting _) => started_ s = true /\ running_ s = false /\ thread_ s = None
  | Some (TaskStart _) => started_ s = true /\ running_ s = false /\ thread_ s = None /\ quitting_ s = false
  | Some (Spawn _) => started_ s = true /\ running_ s = true /\ thread_ s = None /\ quitting_ s = false
  | Some SetQuitting => started_ s = false /\ running_ s = true /\ alive s /\ token s = false
  | Some Interrupt => started_ s = false /\ running_ s = true /\ alive s /\ token s = false /\ quitting_ s = true
  | Some TaskStop =>
      started_ s = false /\ running_ s = true /\ alive s /\ token s = false /\ quitting_ s = true /\ woken s
  | Some RequestStop =>
      started_ s = false /\ running_ s = false /\ alive s /\ token s = false /\ quitting_ s = true /\ woken s
  | Some Join =>
      started_ s = false /\ running_ s = false /\ (exists p, thread_ s = Some p) /\ token s = true /\
      quitting_ s = true /\ woken s
  | Some SetStopRequested => started_ s = false /\ running_ s = false /\ thread_ s = None
  end.

Definition sys_ok (s : sys) : Prop :=
  exists c, active s = match c with None => [] | Some c => [c] end /\ stage_ok c s.

Ltac unfold_sys := unfold stage_ok, alive, woken in *; simpl in *.
Ltac solve_stage :=
  unfold_sys;
  repeat match goal with
  | H : _ /\ _ |- _ => destruct H
  | H : exists _, _ |- _ => destruct H
  end; simplify_eq; try done; split_and?; eauto; try (eexists; split; [reflexivity|done]); try done.

(** What a step of the loop thread can change. *)
Definition loop_effect (s s' : sys) : Prop :=
  started_ s' = started_ s /\ quitting_ s' = quitting_ s /\ running_ s' = running_ s /\ token s' = token s /\
  active s' = active s /\ (exists p, thread_ s = Some p) /\ (exists p, thread_ s' = Some p) /\
  (token s = false -> alive s') /\ (quitting_ s = true -> woken s').

Lemma loop_step_effect n s s' : loop_step n s = Some s' -> loop_effect s s'.
Proof.
  intros E. destruct s as [st q wk ru th tok sr ac wa]. unfold loop_step in E. simpl in E.
  destruct th as [[| | | |[|m]|]|]; simplify_eq; try (destruct wk; simplify_eq); unfold loop_effect; unfold_sys;
    split_and!; eauto; destruct tok, q; try done; eexists; split; done || reflexivity.
Qed.

Lemma outside_effect n s : thread_ s = Some Polling -> loop_effect s (set_thread (Some (Calling n)) s).
Proof. intros E. unfold loop_effect. unfold_sys. split_and!; eauto. done. Qed.

Lemma effect_stage c s s' : stage_ok c s -> loop_effect s s' -> stage_ok c s'.
Proof.
  intros Hok (E1 & E2 & E3 & E4 & E5 & [p Ep] & Hex & Hal & Hwo).
  destruct c as [[| | | | | | | |]|]; unfold stage_ok in *; rewrite ?E1, ?E2, ?E3, ?E4 in *; try (destruct (started_ s));
    destruct_and?; split_and?; try done; auto; congruence.
Qed.

Lemma interrupt_stage c s : stage_ok c s -> stage_ok c (set_wake true s).
Proof. intros Hok. destruct c as [[| | | | | | | |]|], s as [[] q wk ru th tok sr ac wa]; solve_stage. Qed.

Lemma call_step_stage c c' s s' : stage_ok (Some c) s -> call_step c s = Some (c', s') -> stage_ok c' s'.
Proof.
  intros Hok E. destruct s as [st q wk ru th tok sr ac wa].
  destruct c as [[]|[]|[]| | | | | |]; unfold_sys; simplify_eq; try solve [solve_stage];
    (destruct ru; simplify_eq; try solve [solve_stage]); destruct th as [[]|]; simplify_eq; solve_stage.
Qed.

Lemma enter_ok c s : sys_ok s -> active s = [] -> sys_ok (enter c s).
Proof.
  intros ([d|] & Ha & Hs) He; [congruence|]. destruct s as [st q wk ru th tok sr ac wa]. simpl in *. subst ac.
  unfold enter. destruct c, st; simpl; try (exists None; by split).
  - exists (Some (ClearQuitting false)). by split.
  - exists (Some (ClearQuitting true)). by split.
  - exists (Some SetQuitting). split; [done|]. solve_stage.
Qed.

Lemma lifecycle_step_ok l s s' : sys_ok s -> disciplined_label l s -> step l s = Some s' -> sys_ok s'.
Proof.
  intros Hok Hd E. destruct l as [c|i| |n|n|]; simpl in *.
  - injection E as <-. by apply enter_ok.
  - destruct Hok as ([d|] & Ha & Hs); rewrite Ha in E; [|done].
    destruct i as [|i]; [|done]. simpl in E. destruct (call_step d s) as [[[d'|] s1]|] eqn:Ec; simplify_eq.
    + exists (Some d'). split; [done|]. exact (call_step_stage _ _ _ _ Hs Ec).
    + exists None. split; [done|]. exact (call_step_stage _ _ _ _ Hs Ec).
  - destruct (waiting s) as [|m]; [done|]. destruct (stop_requested_ s); simplify_eq. exact Hok.
  - destruct Hok as (d & Ha & Hs). pose proof (loop_step_effect _ _ _ E) as He. exists d.
    split; [|by eapply effect_stage]. destruct He as (_ & _ & _ & _ & -> & _). done.
  - destruct (thread_ s) as [[]|] eqn:Et; simplify_eq. destruct Hok as (d & Ha & Hs). exists d.
    split; [done|]. by eapply effect_stage, outside_effect.
  - injection E as <-. destruct Hok as (d & Ha & Hs). exists d. split; [done|]. by apply interrupt_stage.
Qed.

Lemma disciplined_ok ls : forall s s', sys_ok s -> disciplined ls s -> run_labels ls s = Some s' -> sys_ok s'.
Proof.
  induction ls as [|l ls IH]; intros s s' Hok Hd E; simpl in *; [by simplify_eq|].
  destruct Hd as [Hl Hd]. destruct (step l s) as [s1|] eqn:E1; [|done]. eapply IH; [|exact Hd|exact E]. by eapply lifecycle_step_ok.
Qed.

Lemma new_sys_ok : sys_ok new_sys.
Proof. by exists None. Qed.

(** ** [stop] returns *)

(** Steps the thread takes to return once its token is set. *)
Definition remaining (p : point) : nat :=
  match p with
  | Gone => 0
  | AtWhile | AtCheck => 1
  | AtQuitting => 2
  | Polling => 3
  | Calling m => m + 2
  end.

Definition thread_work (s : sys) : nat := match thread_ s with Some p => remaining p | None => 0 end.

Lemma run_labels_app ls1 ls2 : forall s, run_labels (ls1 ++ ls2) s = match run_labels ls1 s with Some s' => run_labels ls2 s' | None => None end.
Proof. induction ls1 as [|l ls1 IH]; intros s; simpl; [done|]. by destruct (step l s). Qed.

(** The thread returns by itself. *)
Lemma thread_returns n : forall s,
  (exists p, thread_ s = Some p) -> token s = true -> quitting_ s = true -> woken s -> thread_work s = n ->
  exists s', run_labels (replicate n (LLoop 0)) s = Some s' /\ thread_ s' = Some Gone /\ loop_effect s s'.
Proof.
  induction n as [|n IH]; intros s [p Ep] Ht Hq Hw Hn; unfold thread_work in Hn; rewrite Ep in Hn.
  - exists s. simpl. destruct p; simpl in Hn; try lia. split_and!; [done|done|].
    unfold loop_effect. split_and!; eauto; congruence.
  - assert (exists s1, loop_step 0 s = Some s1 /\ thread_work s1 = n) as (s1 & E1 & Hn1).
    { unfold loop_step, thread_work. rewrite Ep, Ht, Hq. destruct p as [| | | |[|m]|]; simpl in Hn; try discriminate; eexists; split;
        try (rewrite (Hw Ep)); try reflexivity; simpl; lia. }
    pose proof (loop_step_effect _ _ _ E1) as He. pose proof He as (H1 & H2 & H3 & H4 & H5 & _ & Hp1 & _ & Hw1).
    destruct (IH s1) as (s' & E' & Hg & He'); [done|congruence|congruence|auto|done|].
    exists s'. simpl. rewrite E1. split_and!; [done|done|]. destruct He' as (G1 & G2 & G3 & G4 & G5 & _ & Gp & _ & Gw).
    unfold loop_effect. split_and!; eauto; congruence.
Qed.

(** The calls that [stop] still makes before it joins. *)
Definition stop_steps (c : call) : option nat :=
  match c with
  | SetQuitting => Some 4
  | Interrupt => Some 3
  | TaskStop => Some 2
  | RequestStop => Some 1
  | Join => Some 0
  | _ => None
  end%nat.

Lemma reaches_join n : forall c s,
  stage_ok (Some c) s -> active s = [c] -> stop_steps c = Some n ->
  exists s', run_labels (replicate n (LStep 0)) s = Some s' /\ stage_ok (Some Join) s' /\ active s' = [Join] /\
    thread_ s' = thread_ s.
Proof.
  induction n as [|n IH]; intros c s Hs Ha Hn.
  - exists s. destruct c; simplify_eq. by split_and!.
  - assert (exists c' s1, call_step c s = Some (Some c', s1) /\ stop_steps c' = Some n /\ thread_ s1 = thread_ s) as (c' & s1 & E1 & Hn1 & Et).
    { destruct c; simpl in Hn; simplify_eq; simpl in Hs |- *.
      - eexists _, _. split; [reflexivity|by split].
      - eexists _, _. split; [reflexivity|by split].
      - destruct Hs as (_ & -> & _). eexists _, _. split; [reflexivity|by split].
      - destruct Hs as (_ & _ & (p & Ep & _) & _). rewrite Ep. eexists _, _. split; [reflexivity|by split]. }
    destruct (IH c' (set_active [c'] s1)) as (s' & E' & Hj & Haj & Et'); [|done|done|].
    { exact (call_step_stage _ _ _ _ Hs E1). }
    exists s'. simpl. rewrite Ha. simpl. rewrite E1. split; [exact E'|]. split; [exact Hj|]. split; [exact Haj|]. by rewrite Et'.
Qed.

(** C11. Stopping the event loop cannot hang.  As long as calls of [start], [stop]
    and [run] do not overlap, from every state in which some thread is inside
    [stop] and has not joined yet, the steps of that thread and of the loop
    thread alone complete it, with no help from outside: a poll in progress
    has been interrupted.  It takes the rest of [stop] and of the loop thread's
    current turn.  Afterwards the loop thread is gone, the loop can be started
    again and a thread in [run] is released.  While it waits in the join, the
    loop thread is never blocked. *)
Theorem stop_completes ls s c n :
  run_labels ls new_sys = Some s -> disciplined ls new_sys -> active s = [c] -> stop_steps c = Some n ->
  (exists m s', (m <= thread_work s)%nat /\
     run_labels (replicate n (LStep 0) ++ replicate m (LLoop 0) ++ [LStep 0; LStep 0]) s = Some s' /\
     active s' = [] /\ thread_ s' = None /\ started_ s' = false /\ running_ s' = false /\ stop_requested_ s' = true) /\
  (c = Join -> thread_ s = Some Gone \/ is_Some (loop_step 0 s)).
Proof.
  intros Erun Hdis Ha Hn.
  destruct (disciplined_ok _ _ _ new_sys_ok Hdis Erun) as ([c'|] & Ha' & Hs); [|congruence].
  rewrite Ha in Ha'. injection Ha' as <-. split.
  - destruct (reaches_join n c s Hs Ha Hn) as (s1 & E1 & Hj & Haj & Et).
    pose proof Hj as (Hst & Hru & [p Hp] & Htok & Hq & Hw).
    destruct (thread_returns (thread_work s1) s1) as (s2 & E2 & Hg & He); eauto.
    destruct He as (G1 & _ & G3 & _ & G5 & _).
    exists (thread_work s1). eexists. split; [unfold thread_work; by rewrite Et|].
    rewrite !run_labels_app, E1, run_labels_app, E2. simpl. rewrite G5, Haj. simpl. rewrite Hg. simpl.
    split; [reflexivity|]. simpl. rewrite G1, G3. by split_and!.
  - intros ->. destruct Hs as (_ & _ & [p Hp] & Htok & Hq & Hw). unfold loop_step. rewrite Hp.
    destruct p as [| | | |[|m]|]; try (right; eexists; reflexivity); [|by left].
    right. rewrite (Hw Hp). by eexists.
Qed.

(** Between calls, the loop is started exactly when its thread is alive, and
    then nothing has asked it to quit. *)
Theorem started_runs ls s :
  run_labels ls new_sys = Some s -> disciplined ls new_sys -> active s = [] ->
  if started_ s then alive s /\ token s = false /\ quitting_ s = false else thread_ s = None.
Proof.
  intros Erun Hdis Ha. destruct (disciplined_ok _ _ _ new_sys_ok Hdis Erun) as ([c'|] & Ha' & Hs); [congruence|].
  simpl in Hs. destruct (started_ s); destruct_and!; by split_and?.
Qed.

Module examples.

(** Started, polling, and a [stop] that has reached its join. *)
Definition stopping : list label :=
  [LCall CallStart; LStep 0; LStep 0; LStep 0; LLoop 0; LLoop 0; LLoop 0; LCall CallStop; LStep 0; LStep 0;
   LStep 0; LStep 0].
Definition joined : sys := default new_sys (run_labels stopping new_sys).

Lemma stop_completes_witness :
  run_labels stopping new_sys = Some joined /\ thread_ joined = Some Polling /\
  (Join = Join -> thread_ joined = Some Gone \/ is_Some (loop_step 0 joined)).
Proof.
  split; [by vm_compute|]. split; [by vm_compute|].
  refine (proj2 (stop_completes stopping joined Join 0 _ _ _ _)); by vm_compute.
Defined.

(** A [start] that overlaps a [stop]: it clears [quitting_] after [stop] has
    set it, the loop thread uses up the interrupt and polls again, and [stop]
    waits in its join for a thread that sleeps. *)
Definition racing : list label :=
  [LCall CallStart; LStep 0; LStep 0; LStep 0; LLoop 0; LLoop 0; LLoop 0;
   LCall CallStop; LStep 0; LStep 0;
   LCall CallStart; LStep 1; LStep 1;
   LLoop 0; LLoop 0; LLoop 0; LLoop 0; LLoop 0;
   LStep 0; LStep 0].

Theorem overlapping_start_blocks_stop :
  exists s, run_labels racing new_sys = Some s /\ active s = [Join] /\ thread_ s = Some Polling /\ started_ s = true /\
    call_step Join s = None /\ (forall n, loop_step n s = None).
Proof. eexists. split; [by vm_compute|]. split_and!; done. Qed.

(** Two threads in [run]: one [stop] releases one of them. *)
Theorem stop_releases_one_run :
  exists s, run_labels [LCall CallRun; LStep 0; LStep 0; LStep 0; LCall CallRun; LLoop 0; LLoop 0; LLoop 0;
                        LCall CallStop; LStep 0; LStep 0; LStep 0; LStep 0; LLoop 0; LLoop 0; LLoop 0; LStep 0; LStep 0;
                        LWakeUp] new_sys = Some s /\
    thread_ s = None /\ waiting s = 1%nat /\ step LWakeUp s = None.
Proof. eexists. split; [by vm_compute|]. by split_and!. Qed.

End examples.
