(* ===== verification/Signal.v ===== *)
(** * [core::signal] and [core::event]

    The listener lists of core/signal.hpp and core/event.hpp: connection
    handles, [emit] over a snapshot, [once].  The nodes of the [std::list] have
    identities, so that a handle can dangle: erasing a node that is not in the
    list is undefined.  Handles live in [cells], since [once] shares one
    between the caller and the closure; a slot's body is code of the
    application that may connect, disconnect and emit again. *)

From S2P Require Import Prelude.
#[local] Open Scope Z_scope.

(** A connected function: the user's, or the wrapper [once] builds around it
    (which holds the shared handle [cell]). *)
Inductive slot (F : Type) :=
  | Plain (f : F)
  | Once (cell : nat) (f : F).
Arguments Plain {F}.
Arguments Once {F}.

Definition slot_fn {F} (s : slot F) : F := match s with Plain f => f | Once _ f => f end.

(** [connection]: a list iterator and a flag.  Its weak pointer is never empty
    unless default constructed, in which case [valid_] is false. *)
Record connection := mk_connection { it_ : nat; valid_ : bool }.

Definition no_connection : connection := mk_connection 0 false.

(** The control block ([expired] once the signal is destroyed), the handles,
    and a log of the calls made with their nesting level. *)
Record world (F : Type) := mk_world {
  sinks : list (nat * slot F);
  next_node : nat;
  expired : bool;
  cells : list connection;
  level : nat;
  calls : list (nat * F)
}.
Arguments mk_world {F}.
Arguments sinks {F}.
Arguments next_node {F}.
Arguments expired {F}.
Arguments cells {F}.
Arguments level {F}.
Arguments calls {F}.

Section signal.
Context {F : Type}.
Abbreviation world := (world F).
Implicit Types w : world.

Definition new_signal : world := mk_world [] 0 false [] 0 [].

Definition set_sinks (s : list (nat * slot F)) w : world :=
  mk_world s (next_node w) (expired w) (cells w) (level w) (calls w).
Definition set_cells (c : list connection) w : world :=
  mk_world (sinks w) (next_node w) (expired w) c (level w) (calls w).
Definition set_level (n : nat) w : world :=
  mk_world (sinks w) (next_node w) (expired w) (cells w) n (calls w).
Definition log_call (f : F) w : world :=
  mk_world (sinks w) (next_node w) (expired w) (cells w) (level w) (calls w ++ [(level w, f)]).

Definition cell (h : nat) w : connection := default no_connection (cells w !! h).

(** [signal::connect]. *)
Definition connect (s : slot F) w : exec (connection * world) :=
  if expired w then Undef
  else
    let it := next_node w in
    Done (mk_connection it true,
          mk_world (sinks w ++ [(it, s)]) (S it) (expired w) (cells w) (level w) (calls w)).

(** A new handle variable. *)
Definition new_cell (c : connection) w : nat * world := (length (cells w), set_cells (cells w ++ [c]) w).

(** [connection::disconnect]. *)
Definition disconnect (h : nat) w : exec world :=
  let c := cell h w in
  do w :=
    (if negb (expired w) && valid_ c then
       if bool_decide (it_ c ∈ (sinks w).*1) then Done (set_sinks (filter (fun n => n.1 <> it_ c) (sinks w)) w)
       else Undef
     else Done w) in
  Done (set_cells (<[h := mk_connection (it_ c) false]> (cells w)) w).

(** [scoped_connection]: move assignment and move construction.  Its
    destructor and its [disconnect] are the handle's. *)
Definition scoped_assign (dst src : nat) w : exec world :=
  if (dst =? src)%nat then Done w
  else
    do w := disconnect dst w in
    Done (set_cells (<[src := no_connection]> (<[dst := cell src w]> (cells w))) w).

Definition scoped_move (src : nat) w : nat * world :=
  (length (cells w), set_cells (<[src := no_connection]> (cells w) ++ [cell src w]) w).

Definition connected (h : nat) w : bool := valid_ (cell h w) && negb (expired w).

Definition disconnect_all w : exec world := if expired w then Undef else Done (set_sinks [] w).

Definition slot_count w : nat := length (sinks w).

(** [~signal]: the control block goes with its only owner. *)
Definition destroy w : exec world :=
  do w := disconnect_all w in
  Done (mk_world (sinks w) (next_node w) true (cells w) (level w) (calls w)).

(** [event::operator+=] and [event::once]; [once] returns a copy of the
    handle it shares with its wrapper. *)
Definition add (f : F) w : exec world :=
  do (_, w) := connect (Plain f) w in
  Done w.

Definition once (f : F) w : exec (connection * world) :=
  let '(h, w) := new_cell no_connection w in
  do (c, w) := connect (Once h f) w in
  Done (c, set_cells (<[h := c]> (cells w)) w).

(** Bodies of the user's functions. *)
Variable body : F -> world -> exec world.

Definition call_slot (s : slot F) w : exec world :=
  match s with
  | Plain f => body f (log_call f w)
  | Once h f =>
      do w := disconnect h w in
      body f (log_call f w)
  end.

Fixpoint call_slots (ss : list (slot F)) w : exec world :=
  match ss with
  | [] => Done w
  | s :: ss' => do w := call_slot s w in call_slots ss' w
  end.

Definition snapshot_sinks w : list (slot F) := (sinks w).*2.

(** [emit]; the nesting level is bookkeeping. *)
Definition emit w : exec world :=
  if expired w then Undef
  else
    let outer := level w in
    do w := call_slots (snapshot_sinks w) (set_level (S outer) w) in
    Done (set_level outer w).

End signal.

(** Application programs on one event. *)
Inductive prog (F : Type) :=
  | PRet
  | PAdd (f : F) (k : prog F)
  | PConnect (f : F) (k : nat -> prog F)
  | POnce (f : F) (k : prog F)
  | POnceHandle (f : F) (k : nat -> prog F)
  | PDisconnect (h : nat) (k : prog F)
  | PDisconnectAll (k : prog F)
  | PScopedAssign (dst src : nat) (k : prog F)
  | PScopedMove (src : nat) (k : nat -> prog F)
  | PEmit (k : prog F)
  | PCount (k : nat -> prog F).
Arguments PRet {F}.
Arguments PAdd {F}.
Arguments PConnect {F}.
Arguments POnce {F}.
Arguments POnceHandle {F}.
Arguments PDisconnect {F}.
Arguments PDisconnectAll {F}.
Arguments PScopedAssign {F}.
Arguments PScopedMove {F}.
Arguments PEmit {F}.
Arguments PCount {F}.

Fixpoint run_prog {F} (body : F -> world F -> exec (world F)) (p : prog F) (w : world F) : exec (world F) :=
  match p with
  | PRet => Done w
  | PAdd f k => do w := add f w in run_prog body k w
  | PConnect f k =>
      do (c, w) := connect (Plain f) w in
      let '(h, w) := new_cell c w in
      run_prog body (k h) w
  | POnce f k => do (_, w) := once f w in run_prog body k w
  | POnceHandle f k =>
      do (c, w) := once f w in
      let '(h, w) := new_cell c w in
      run_prog body (k h) w
  | PDisconnect h k => do w := disconnect h w in run_prog body k w
  | PDisconnectAll k => do w := disconnect_all w in run_prog body k w
  | PScopedAssign dst src k => do w := scoped_assign dst src w in run_prog body k w
  | PScopedMove src k => let '(h, w) := scoped_move src w in run_prog body (k h) w
  | PEmit k => do w := emit body w in run_prog body k w
  | PCount k => run_prog body (k (slot_count w)) w
  end.

(** Functions are run by their programs, nested emits one level deeper. *)
Fixpoint react {F} (app : F -> prog F) (depth : nat) (f : F) (w : world F) : exec (world F) :=
  match depth with
  | O => OutOfFuel
  | S depth' => run_prog (react app depth') (app f) w
  end.

(** ** Emission order *)

Section order.
Context {F : Type}.
Implicit Types w : world F.

(** [w'] continues [w]: same level, and calls made since are at the level of
    [w] or deeper, [new] of them. *)
Definition extends (n : nat) w w' : Prop :=
  level w' = level w /\ exists new, calls w' = calls w ++ new /\ Forall (fun c => (n <= c.1)%nat) new.

Lemma extends_refl n w : extends n w w.
Proof. split; [done|]. exists []. by rewrite app_nil_r. Qed.

Lemma extends_trans n w1 w2 w3 : extends n w1 w2 -> extends n w2 w3 -> extends n w1 w3.
Proof.
  intros [L1 (n1 & C1 & F1)] [L2 (n2 & C2 & F2)]. split; [congruence|]. exists (n1 ++ n2).
  rewrite C2, C1, app_assoc. split; [done|]. by apply Forall_app.
Qed.

Lemma extends_same n w w' : level w' = level w -> calls w' = calls w -> extends n w w'.
Proof. intros Hl Hc. split; [done|]. exists []. by rewrite app_nil_r. Qed.

Lemma connect_extends n s w c w' : connect s w = Done (c, w') -> extends n w w'.
Proof. unfold connect. destruct (expired w); [done|]. intros [= <- <-]. by apply extends_same. Qed.

Lemma disconnect_quiet h w w' : disconnect h w = Done w' -> level w' = level w /\ calls w' = calls w.
Proof.
  unfold disconnect. destruct (negb (expired w) && valid_ (cell h w)); simpl; [|by intros [= <-]].
  destruct (bool_decide _); simpl; [by intros [= <-]|done].
Qed.

Lemma disconnect_extends n h w w' : disconnect h w = Done w' -> extends n w w'.
Proof. intros [??]%disconnect_quiet. by apply extends_same. Qed.

Lemma scoped_assign_extends n dst src w w' : scoped_assign dst src w = Done w' -> extends n w w'.
Proof.
  unfold scoped_assign. destruct (dst =? src)%nat; [intros [= <-]; apply extends_refl|].
  intros (w1 & [??]%disconnect_quiet & [= <-])%exec_bind_done. by apply extends_same.
Qed.

Lemma once_extends n f w c w' : once f w = Done (c, w') -> extends n w w'.
Proof.
  unfold once. simpl. intros ([c1 w1] & E1 & [= <- <-])%exec_bind_done.
  apply (connect_extends n) in E1. exact E1.
Qed.

Variable body : F -> world F -> exec (world F).
Hypothesis body_extends : forall f w w', body f w = Done w' -> extends (S (level w)) w w'.

Lemma call_slots_log ss : forall w w', call_slots body ss w = Done w' ->
  level w' = level w /\ exists new, calls w' = calls w ++ new /\ Forall (fun c => (level w <= c.1)%nat) new /\
    (filter (fun c => c.1 = level w) new).*2 = slot_fn <$> ss.
Proof.
  induction ss as [|s ss IH]; intros w w' E; simpl in E.
  { simplify_eq. split; [done|]. exists []. by rewrite app_nil_r. }
  apply exec_bind_done in E as (w1 & E1 & E2).
  assert (level w1 = level w /\ exists new, calls w1 = calls w ++ (level w, slot_fn s) :: new /\
            Forall (fun c => (S (level w) <= c.1)%nat) new) as (L1 & new1 & C1 & F1).
  { assert (exists w0, extends (S (level w)) w w0 /\ calls w0 = calls w /\ body (slot_fn s) (log_call (slot_fn s) w0) = Done w1) as Hw0.
    { destruct s as [f|h f]; simpl in E1; [exists w; split; [apply extends_refl|done]|].
      apply exec_bind_done in E1 as (w0 & E0 & E1). exists w0. split; [by eapply disconnect_extends|].
      split; [by apply disconnect_quiet in E0 as [_ ?]|done]. }
    destruct Hw0 as (w0 & [L0 _] & C0 & Eb). apply body_extends in Eb as [Lb (nb & Cb & Fb)]. simpl in *.
    split; [congruence|]. exists nb. rewrite Cb, C0, L0, <- app_assoc. split; [done|]. by rewrite L0 in Fb. }
  destruct (IH w1 w' E2) as (L2 & new2 & C2 & F2 & D2). rewrite L1 in *. split; [done|].
  exists ((level w, slot_fn s) :: new1 ++ new2). split_and!.
  - by rewrite C2, C1, <- app_assoc.
  - constructor; [done|]. apply Forall_app. split; [|done]. eapply Forall_impl; [exact F1|]. simpl. lia.
  - rewrite filter_cons_True by done. simpl. f_equal. rewrite filter_app, fmap_app, D2.
    assert (filter (fun c => c.1 = level w) new1 = []) as ->; [|done].
    clear -F1. induction F1 as [|c cs Hc _ IH]; [done|]. rewrite filter_cons_False; [done|]. simpl in Hc. lia.
Qed.

Lemma emit_log w w' : emit body w = Done w' ->
  level w' = level w /\ exists new, calls w' = calls w ++ new /\ Forall (fun c => (S (level w) <= c.1)%nat) new /\
    (filter (fun c => c.1 = S (level w)) new).*2 = slot_fn <$> snapshot_sinks w.
Proof.
  unfold emit. destruct (expired w); [done|]. intros (w1 & E1 & [= <-])%exec_bind_done.
  apply call_slots_log in E1 as (_ & new & C & Fn & Dn). split; [done|]. exists new. by split_and!.
Qed.

Lemma run_prog_extends p : forall w w', run_prog body p w = Done w' -> extends (S (level w)) w w'.
Proof.
  assert (forall w w1 w' n, extends n w w1 -> extends (S (level w1)) w1 w' -> n = S (level w) -> extends n w w') as Hstep.
  { intros w w1 w' n H1 H2 ->. eapply extends_trans; [exact H1|]. destruct H1 as [L _]. by rewrite L in H2. }
  induction p as [|f k IH|f k IH|f k IH|f k IH|h k IH|k IH|dst src k IH|src k IH|k IH|k IH]; intros w w' E; simpl in E.
  - simplify_eq. apply extends_refl.
  - apply exec_bind_done in E as (w1 & E1 & E2). unfold add in E1.
    apply exec_bind_done in E1 as ([c w2] & E1 & [= <-]). eapply Hstep; [by eapply connect_extends|by apply IH|done].
  - apply exec_bind_done in E as ([c w1] & E1 & E2).
    eapply Hstep; [by eapply connect_extends| |done]. apply IH in E2. exact E2.
  - apply exec_bind_done in E as ([c w1] & E1 & E2). eapply Hstep; [by eapply once_extends|by apply IH|done].
  - apply exec_bind_done in E as ([c w1] & E1 & E2).
    eapply Hstep; [by eapply once_extends| |done]. apply IH in E2. exact E2.
  - apply exec_bind_done in E as (w1 & E1 & E2). eapply Hstep; [by eapply disconnect_extends|by apply IH|done].
  - apply exec_bind_done in E as (w1 & E1 & E2). unfold disconnect_all in E1. branch_in E1; [done|]. simplify_eq.
    apply IH in E2. exact E2.
  - apply exec_bind_done in E as (w1 & E1 & E2). eapply Hstep; [by eapply scoped_assign_extends|by apply IH|done].
  - apply IH in E. exact E.
  - apply exec_bind_done in E as (w1 & E1 & E2). eapply Hstep; [|by apply IH|done].
    apply emit_log in E1 as (L1 & new & C1 & F1 & _). split; [done|]. by exists new.
  - by eapply IH.
Qed.

End order.

Lemma react_extends {F} (app : F -> prog F) depth : forall f w w',
  react app depth f w = Done w' -> extends (S (level w)) w w'.
Proof. induction depth as [|depth IH]; intros f w w' E; [done|]. simpl in E. by eapply run_prog_extends. Qed.

(** C38. Emission order.  [emit] calls, at its own nesting level, exactly the
    functions connected when it started, once each and in connection order,
    no matter what they connect, disconnect or emit while it runs. *)
Theorem emit_calls_snapshot {F} (app : F -> prog F) depth (w w' : world F) :
  emit (react app depth) w = Done w' ->
  level w' = level w /\
  exists new, calls w' = calls w ++ new /\
    (filter (fun c => c.1 = S (level w)) new).*2 = slot_fn <$> snapshot_sinks w.
Proof.
  intros E. apply (emit_log (react app depth) (react_extends app depth)) in E as (? & new & ? & _ & ?).
  split; [done|]. by exists new.
Qed.

(** ** Handles that do not dangle *)

(** Programs that neither clear the list nor keep the copy [once] returns. *)
Fixpoint careful {F} (p : prog F) : Prop :=
  match p with
  | PRet => True
  | PAdd _ k | POnce _ k | PDisconnect _ k | PScopedAssign _ _ k | PEmit k => careful k
  | PConnect _ k | PScopedMove _ k | PCount k => forall n, careful (k n)
  | POnceHandle _ _ | PDisconnectAll _ => False
  end.

Section safety.
Context {F : Type}.
Implicit Types w : world F.

(** Valid handles point to distinct nodes of the list. *)
Definition handles_ok w : Prop :=
  expired w = false /\ NoDup (sinks w).*1 /\ Forall (fun n => (n < next_node w)%nat) (sinks w).*1 /\
  (forall i c, cells w !! i = Some c -> valid_ c = true -> it_ c ∈ (sinks w).*1) /\
  (forall i j c d, cells w !! i = Some c -> cells w !! j = Some d -> valid_ c = true -> valid_ d = true ->
     it_ c = it_ d -> i = j).

Lemma cell_valid h w c : cell h w = c -> valid_ c = true -> cells w !! h = Some c.
Proof. unfold cell. destruct (cells w !! h); simpl; intros <-; done. Qed.

Lemma disconnect_ok h w : handles_ok w -> post (disconnect h w) handles_ok.
Proof.
  intros (He & Hnd & Hlt & Hin & Hinj). unfold disconnect. rewrite He. cbn [negb andb].
  destruct (valid_ (cell h w)) eqn:Hv.
  - pose proof (cell_valid h w _ eq_refl Hv) as Hc. rewrite bool_decide_true by eauto. simpl.
    split; [done|]. simpl. split_and!.
    + by apply (NoDup_fmap_filter _ fst).
    + apply Forall_fmap. apply Forall_filter_keep. by apply Forall_fmap in Hlt.
    + intros i c Hi Hvc. destruct (decide (i = h)) as [->|Hne].
      { apply list_lookup_insert_Some in Hi as [(_ & <- & _)|[? _]]; done. }
      rewrite list_lookup_insert_ne in Hi by done. pose proof (Hin i c Hi Hvc) as Hmem.
      apply list_elem_of_fmap in Hmem as (x & Hx & Hmem). apply list_elem_of_fmap. exists x. split; [done|].
      apply list_elem_of_filter. split; [|done]. intros Heq. apply Hne. eapply Hinj; eauto. congruence.
    + intros i j c d Hi Hj Hvc Hvd. 
      assert (forall i c, <[h := mk_connection (it_ (cell h w)) false]> (cells w) !! i = Some c -> valid_ c = true -> cells w !! i = Some c) as Hold.
      { intros i' c' [(_ & <- & _)|[_ ?]]%list_lookup_insert_Some; done. }
      apply Hinj; auto.
  - simpl. split; [done|]. simpl. split_and!; [done|done| |].
    + intros i c [(_ & <- & _)|[_ ?]]%list_lookup_insert_Some; [done|]. eauto.
    + intros i j c d [(_ & <- & _)|[_ ?]]%list_lookup_insert_Some [(_ & <- & _)|[_ ?]]%list_lookup_insert_Some; try done. eauto.
Qed.

(** Connecting and storing the handle in a cell that holds no valid one. *)
Lemma fresh_node w : handles_ok w -> next_node w ∉ (sinks w).*1.
Proof. intros (_ & _ & Hlt & _) Hin. rewrite Forall_forall in Hlt. specialize (Hlt _ Hin). lia. Qed.

Definition extend (s : slot F) (cs : list connection) w : world F :=
  mk_world (sinks w ++ [(next_node w, s)]) (S (next_node w)) (expired w) cs (level w) (calls w).

Lemma extend_ok s cs w :
  handles_ok w ->
  (forall i c, cs !! i = Some c -> valid_ c = true -> cells w !! i = Some c \/ i = length (cells w) /\ it_ c = next_node w) ->
  handles_ok (extend s cs w).
Proof.
  intros Hw Hcs. destruct (Hw) as (He & Hnd & Hlt & Hin & Hinj). pose proof (fresh_node w Hw) as Hfresh.
  split; [done|]. simpl. rewrite fmap_app. simpl. split_and!.
  - apply NoDup_app. split_and!; [done| |apply NoDup_singleton]. intros n Hn ->%list_elem_of_singleton. done.
  - apply Forall_app. split; [|constructor; [lia|done]]. eapply Forall_impl; [exact Hlt|]. simpl. lia.
  - intros i c Hi Hv. destruct (Hcs i c Hi Hv) as [Hold|[_ ->]]; [|set_solver]. specialize (Hin i c Hold Hv). set_solver.
  - intros i j c d Hi Hj Hvc Hvd Heq.
    destruct (Hcs i c Hi Hvc) as [Hc|[-> Hc]], (Hcs j d Hj Hvd) as [Hd|[-> Hd]]; [eauto| | |done].
    + specialize (Hin i c Hc Hvc). rewrite Heq, Hd in Hin. done.
    + specialize (Hin j d Hd Hvd). rewrite <- Heq, Hc in Hin. done.
Qed.

Lemma snoc_lookup (cs : list connection) x i c :
  (cs ++ [x]) !! i = Some c -> cs !! i = Some c \/ i = length cs /\ c = x.
Proof.
  intros [Hi|[Hi Hx]]%lookup_app_Some; [by left|]. apply list_lookup_singleton_Some in Hx as [Hz <-]. right. split; [lia|done].
Qed.

(** Moving handles between cells: each valid one comes from a cell of its
    own. *)
Lemma relocate_ok (from : nat -> nat) cs w :
  handles_ok w ->
  (forall i c, cs !! i = Some c -> valid_ c = true -> cells w !! from i = Some c) ->
  (forall i j c d, cs !! i = Some c -> cs !! j = Some d -> valid_ c = true -> valid_ d = true -> from i = from j -> i = j) ->
  handles_ok (set_cells cs w).
Proof.
  intros (He & Hnd & Hlt & Hin & Hinj) Hfrom Hf. split; [done|]. split_and!; [done|done| |].
  - intros i c Hi Hv. exact (Hin (from i) c (Hfrom i c Hi Hv) Hv).
  - intros i j c d Hi Hj Hvc Hvd Heq. apply (Hf i j c d); try done.
    exact (Hinj _ _ c d (Hfrom i c Hi Hvc) (Hfrom j d Hj Hvd) Hvc Hvd Heq).
Qed.

Lemma scoped_assign_ok dst src w : handles_ok w -> post (scoped_assign dst src w) handles_ok.
Proof.
  intros Hw. unfold scoped_assign. destruct (Nat.eqb_spec dst src) as [->|Hne]; [done|].
  eapply post_bind; [by apply disconnect_ok|]. intros w1 Hw1.
  apply (relocate_ok (fun i => if decide (i = dst) then src else i)); [done| |].
  - intros i c Hi Hv. simpl in Hi. apply list_lookup_insert_Some in Hi as [(_ & <- & _)|[Hns Hi]]; [done|].
    apply list_lookup_insert_Some in Hi as [(-> & <- & _)|[Hnd Hi]].
    + rewrite decide_True by done. by apply cell_valid.
    + by rewrite decide_False by congruence.
  - intros i j c d Hi Hj Hvc Hvd Heq.
    assert (forall i c, <[src := no_connection]> (<[dst := cell src w1]> (cells w1)) !! i = Some c -> valid_ c = true -> i <> src) as Hns.
    { intros i' c' Hi' Hv' ->. apply list_lookup_insert_Some in Hi' as [(_ & <- & _)|[? _]]; done. }
    specialize (Hns i c Hi Hvc) as Hi'. specialize (Hns j d Hj Hvd) as Hj'. repeat case_decide; congruence.
Qed.

Lemma scoped_move_ok src w : handles_ok w -> handles_ok (scoped_move src w).2.
Proof.
  intros Hw. apply (relocate_ok (fun i => if decide (i = length (cells w)) then src else i)); [done| |].
  - intros i c [Hi|[-> ->]]%snoc_lookup Hv; rewrite ?length_insert in *.
    + apply list_lookup_insert_Some in Hi as [(_ & <- & _)|[_ Hi]]; [done|].
      rewrite decide_False; [done|]. apply lookup_lt_Some in Hi. lia.
    + rewrite decide_True by done. by apply cell_valid.
  - intros i j c d Hi Hj Hvc Hvd Heq.
    assert (forall i c, (<[src := no_connection]> (cells w) ++ [cell src w]) !! i = Some c -> valid_ c = true ->
              i = length (cells w) \/ i <> src) as Hns.
    { intros i' c' [Hi'|[-> _]]%snoc_lookup Hv'; rewrite ?length_insert; [right|by left]. intros ->.
      apply list_lookup_insert_Some in Hi' as [(_ & <- & _)|[? _]]; done. }
    destruct (Hns i c Hi Hvc), (Hns j d Hj Hvd); repeat case_decide; congruence.
Qed.

Variable body : F -> world F -> exec (world F).
Hypothesis body_ok : forall f w, handles_ok w -> post (body f w) handles_ok.

Lemma call_slots_ok ss : forall w, handles_ok w -> post (call_slots body ss w) handles_ok.
Proof.
  induction ss as [|s ss IH]; intros w Hw; simpl; [done|]. eapply post_bind; [|exact IH].
  destruct s as [f|h f]; simpl; [by apply body_ok|]. eapply post_bind; [by apply disconnect_ok|].
  intros w1 Hw1. by apply body_ok.
Qed.

Lemma signal_emit_ok w : handles_ok w -> post (emit body w) handles_ok.
Proof.
  intros Hw. unfold emit. destruct (Hw) as (-> & _). eapply post_bind; [by apply call_slots_ok|]. by intros.
Qed.

Lemma signal_run_prog_ok p : careful p -> forall w, handles_ok w -> post (run_prog body p w) handles_ok.
Proof.
  induction p as [|f k IH|f k IH|f k IH|f k IH|h k IH|k IH|dst src k IH|src k IH|k IH|k IH]; intros Hc w Hw; simpl in *; try done.
  - unfold add, connect. destruct (Hw) as (He & _). rewrite He. simpl. apply IH; [done|].
    rewrite <- He. apply extend_ok; [done|]. by left.
  - unfold connect. destruct (Hw) as (He & _). rewrite He. simpl. apply IH; [done|].
    rewrite <- He. apply (extend_ok (Plain f) (cells w ++ [mk_connection (next_node w) true]) w); [done|].
    intros i c Hi Hv. apply snoc_lookup in Hi as [Hi|[-> ->]]; [by left|by right].
  - unfold once, new_cell. simpl. unfold connect. destruct (Hw) as (He & _). simpl. rewrite He. simpl. apply IH; [done|].
    rewrite <- He.
    apply (extend_ok (Once (length (cells w)) f)
             (<[length (cells w) := mk_connection (next_node w) true]> (cells w ++ [no_connection])) w); [done|].
    intros i c Hi Hv. apply list_lookup_insert_Some in Hi as [(-> & <- & _)|[Hne Hi]]; [by right|].
    apply snoc_lookup in Hi as [Hi|[-> ->]]; [by left|done].
  - eapply post_bind; [by apply disconnect_ok|]. intros w1 Hw1. by apply IH.
  - eapply post_bind; [by apply scoped_assign_ok|]. intros w1 Hw1. by apply IH.
  - apply IH; [done|]. by apply scoped_move_ok.
  - eapply post_bind; [by apply signal_emit_ok|]. intros w1 Hw1. by apply IH.
  - by apply IH.
Qed.

End safety.

Lemma signal_react_ok {F} (app : F -> prog F) :
  (forall f, careful (app f)) -> forall depth f w, handles_ok w -> post (react app depth f w) handles_ok.
Proof.
  intros Happ. induction depth as [|depth IH]; intros f w Hw; [done|]. simpl. by apply signal_run_prog_ok.
Qed.

(** Connection handles are safe: as long as listeners are removed through
    their own handle or by [once], and not wholesale, no sequence of
    connecting, disconnecting and (nested) emitting erases a list node twice,
    and every valid handle still designates its slot. *)
Theorem handles_never_dangle {F} (app : F -> prog F) depth p :
  (forall f, careful (app f)) -> careful p ->
  run_prog (react app depth) p new_signal <> Undef /\
  (forall w i c, run_prog (react app depth) p new_signal = Done w ->
     cells w !! i = Some c -> valid_ c = true -> it_ c ∈ (sinks w).*1).
Proof.
  intros Happ Hp. assert (handles_ok (F := F) new_signal) as Hw.
  { split; [done|]. simpl. split_and!; [apply NoDup_nil_2|done|done|done]. }
  pose proof (signal_run_prog_ok (react app depth) (signal_react_ok app Happ depth) p Hp _ Hw) as Hpost.
  destruct (run_prog _ _ _) as [w| |]; [|done|done]. split; [done|].
  intros w' i c [= <-]. destruct Hpost as (_ & _ & _ & Hin & _). apply Hin.
Qed.

Module examples.

(** Function 1 removes itself and emits again; function 2 connects
    function 5. *)
Definition app (f : nat) : prog nat :=
  match f with
  | 1%nat => PDisconnect 0 (PEmit PRet)
  | 2%nat => PAdd 5%nat PRet
  | _ => PRet
  end.

Definition setup (k : prog nat) : prog nat := PConnect 1%nat (fun _ => PAdd 2%nat (POnce 3%nat k)).
Definition before : world nat :=
  match run_prog (react app 5) (setup PRet) new_signal with Done w => w | _ => new_signal end.
Definition after : world nat := match emit (react app 5) before with Done w => w | _ => before end.

Lemma app_careful f : careful (app f).
Proof. by destruct f as [|[|[|f]]]. Qed.

Lemma emit_calls_snapshot_witness :
  emit (react app 5) before = Done after /\
  (level after = level before /\
   exists new, calls after = calls before ++ new /\
     (filter (fun c => c.1 = S (level before)) new).*2 = slot_fn <$> snapshot_sinks before).
Proof.
  split; [by vm_compute|]. apply (emit_calls_snapshot app 5). by vm_compute.
Defined.

Lemma handles_never_dangle_witness : run_prog (react app 5) (setup (PEmit PRet)) new_signal <> Undef.
Proof.
  apply (handles_never_dangle app 5 (setup (PEmit PRet))).
  - apply app_careful.
  - simpl. done.
Defined.

(** [once] does not fire at most once: when an earlier listener of the
    same event emits it again, the wrapper runs in the nested emit and then
    again from the outer snapshot.  Function 3, connected with [once], is
    called twice by a single outer [emit]. *)
Theorem once_fires_twice_when_nested :
  length (filter (fun c => c.2 = 3%nat) (calls after)) = 2%nat /\ calls before = [].
Proof. by vm_compute. Qed.

(** Disconnecting a handle after the listeners were cleared erases a node
    that is gone. *)
Lemma disconnect_after_clear_undefined {F} body (f : F) :
  run_prog body (PConnect f (fun h => PDisconnectAll (PDisconnect h PRet))) new_signal = Undef.
Proof. done. Qed.

(** The subscription [once] returns is a copy of the handle its wrapper uses:
    after the event fired, disconnecting the copy erases the node twice. *)
Lemma disconnect_fired_once_undefined :
  run_prog (react app 5) (POnceHandle 4%nat (fun h => PEmit (PDisconnect h PRet))) new_signal = Undef.
Proof. by vm_compute. Qed.

End examples.
