(* ===== verification/AsyncSignal.v ===== *)
(** * [signal::emit_async]

    The asynchronous emission of core/signal.hpp: a snapshot of the connected
    functions is taken under the signal's lock, then one task per function is
    submitted to a [thread_pool].  Other threads connect and disconnect, emit,
    and submit work of their own between any two of these steps, and workers
    start running tasks before the loop is through; so an emission in progress
    is part of the state, and a run is a list of labels. *)

From S2P Require Import Prelude Signal ThreadPool.
#[local] Open Scope Z_scope.

(** What is queued: the closure [[slot, args...]() { slot(args...); }] of the
    emission with the given number, or a task of somebody else. *)
Inductive job (F A X : Type) :=
  | JSlot (e : nat) (f : slot F) (args : A)
  | JOther (x : X).
Arguments JSlot {F A X}.
Arguments JOther {F A X}.

(** A thread inside [emit_async]: its snapshot, how many slots its loop has
    submitted, its arguments. *)
Record emission (F A : Type) := mk_emission {
  snap : list (slot F);
  index : nat;
  priority : task_priority;
  args : A
}.
Arguments mk_emission {F A}.
Arguments snap {F A}.
Arguments index {F A}.
Arguments priority {F A}.
Arguments args {F A}.

Record system (F A X : Type) := mk_system {
  sg : Signal.world F;
  pl : pool (job F A X);
  emissions : list (emission F A)
}.
Arguments mk_system {F A X}.
Arguments sg {F A X}.
Arguments pl {F A X}.
Arguments emissions {F A X}.

(** A thread enters [emit_async]; the loop of emission [e] submits its next
    task; code runs on the signal; the pool makes a step, or another client
    submits. *)
Inductive async_label (F A X : Type) :=
  | AEmit (p : task_priority) (a : A)
  | ASubmit (e : nat)
  | ASignal (q : Signal.prog F)
  | AWorker (l : label (job F A X))
  | AOther (x : X) (p : task_priority).
Arguments AEmit {F A X}.
Arguments ASubmit {F A X}.
Arguments ASignal {F A X}.
Arguments AWorker {F A X}.
Arguments AOther {F A X}.

Section async.
Context {F A X : Type}.
Abbreviation system := (system F A X).
Implicit Types s : system.
(** The functions the slots call. *)
Variable body : F -> Signal.world F -> exec (Signal.world F).

(** [emit_async(pool, priority, args...)] up to its loop; undefined on a
    destroyed signal. *)
Definition emit_async (p : task_priority) (a : A) s : exec system :=
  if expired (sg s) then Undef
  else Done (mk_system (sg s) (pl s) (emissions s ++ [mk_emission (snapshot_sinks (sg s)) 0 p a])).

(** [emit_async(pool, args...)]. *)
Definition emit_async_normal (a : A) s : exec system := emit_async normal a s.

(** One iteration of the loop: [pool.submit([slot, args...] ..., priority)]. *)
Definition submit_slot (e : nat) s : option system :=
  match emissions s !! e with
  | Some em =>
      match snap em !! index em with
      | Some f =>
          Some (mk_system (sg s) (submit (JSlot e f (args em)) (priority em) (pl s))
            (<[e := mk_emission (snap em) (S (index em)) (priority em) (args em)]> (emissions s)))
      | None => None
      end
  | None => None
  end.

Definition run_signal (q : Signal.prog F) s : option system :=
  match Signal.run_prog body q (sg s) with
  | Done w => Some (mk_system w (pl s) (emissions s))
  | _ => None
  end.

Definition on_pool (o : option (pool (job F A X))) s : option system :=
  match o with
  | Some p => Some (mk_system (sg s) p (emissions s))
  | None => None
  end.

Definition async_step (l : async_label F A X) s : option system :=
  match l with
  | AEmit p a => match emit_async p a s with Done s => Some s | _ => None end
  | ASubmit e => submit_slot e s
  | ASignal q => run_signal q s
  | AWorker (LSubmit _ _) => None
  | AWorker l => on_pool (step l (pl s)) s
  | AOther x p => on_pool (step (LSubmit (JOther x) p) (pl s)) s
  end.

Fixpoint async_run (ls : list (async_label F A X)) s : option system :=
  match ls with
  | [] => Some s
  | l :: ls' => match async_step l s with Some s' => async_run ls' s' | None => None end
  end.

Definition async_start (n : nat) : system := mk_system new_signal (new_pool n) [].

(** ** Order of the calls *)

Definition of_emission (e : nat) (j : job F A X) : bool :=
  match j with JSlot e' _ _ => (e' =? e)%nat | JOther _ => false end.

Definition mine (e : nat) (js : list (job F A X)) : list (job F A X) := filter (fun j => of_emission e j = true) js.

(** The tasks of an emission. *)
Definition tasks (e : nat) (a : A) (fs : list (slot F)) : list (job F A X) := (fun f => JSlot e f a) <$> fs.

(** Submitted so far at each level: the first [index] tasks of the emission at
    its own level, nothing at the others and nothing of emissions to come. *)
Definition submitted_ok s : Prop :=
  (forall e em, emissions s !! e = Some em ->
     (index em <= length (snap em))%nat /\
     forall p, mine e (at_level p (submitted (pl s))) =
       if bool_decide (p = priority em) then tasks e (args em) (take (index em) (snap em)) else []) /\
  (forall e p, emissions s !! e = None -> mine e (at_level p (submitted (pl s))) = []).

Definition async_ok s : Prop := pool_ok (pl s) /\ submitted_ok s.

Lemma mine_app e js1 js2 : mine e (js1 ++ js2) = mine e js1 ++ mine e js2.
Proof. apply filter_app. Qed.

Lemma mine_level_snoc e p js j p' :
  mine e (at_level p (js ++ [(j, p')])) =
  mine e (at_level p js) ++ if bool_decide (p' = p) then mine e [j] else [].
Proof. rewrite at_level_snoc, mine_app. by case_bool_decide. Qed.

Lemma submitted_ok_same s s' :
  submitted (pl s') = submitted (pl s) -> emissions s' = emissions s -> submitted_ok s -> submitted_ok s'.
Proof. unfold submitted_ok. by intros -> ->. Qed.

Lemma submit_slot_ok e s s' : submitted_ok s -> submit_slot e s = Some s' -> submitted_ok s'.
Proof.
  intros [Hs Hn]. unfold submit_slot. destruct (emissions s !! e) as [em|] eqn:Ee; [|done].
  destruct (snap em !! index em) as [f|] eqn:Ef; [|done]. intros [= <-].
  pose proof (lookup_lt_Some _ _ _ Ef) as Hlt. split; simpl.
  - intros e' em' Ee'. destruct (decide (e' = e)) as [->|Hne].
    + rewrite list_lookup_insert_eq in Ee' by (by eapply lookup_lt_Some). injection Ee' as <-. simpl.
      split; [lia|]. intros p. rewrite mine_level_snoc. destruct (Hs e em Ee) as [_ ->].
      unfold mine. simpl. rewrite filter_cons_True by (simpl; by rewrite Nat.eqb_refl).
      destruct (decide (p = priority em)) as [->|Hp].
      * rewrite !bool_decide_true by done. unfold tasks. rewrite (take_S_r _ _ _ Ef), fmap_app. done.
      * by rewrite !bool_decide_false by congruence.
    + rewrite list_lookup_insert_ne in Ee' by done. destruct (Hs e' em' Ee') as [Hi Hp]. split; [done|].
      intros p. rewrite mine_level_snoc, Hp. unfold mine. rewrite filter_cons_False by (simpl; apply not_true_iff_false, Nat.eqb_neq; congruence).
      destruct (bool_decide (priority em = p)); apply app_nil_r.
  - intros e' p Ee'. assert (e' <> e) as Hne.
    { intros ->. rewrite list_lookup_insert_eq in Ee' by (by eapply lookup_lt_Some). done. }
    rewrite list_lookup_insert_ne in Ee' by done. rewrite mine_level_snoc, (Hn e' p Ee').
    unfold mine. rewrite filter_cons_False by (simpl; apply not_true_iff_false, Nat.eqb_neq; congruence).
    by case_bool_decide.
Qed.

Lemma emit_async_ok p a s s' : submitted_ok s -> emit_async p a s = Done s' -> submitted_ok s'.
Proof.
  intros [Hs Hn]. unfold emit_async. destruct (expired (sg s)); [done|]. intros [= <-]. split; simpl.
  - intros e em [Ee|[Hlen Ee]]%lookup_app_Some; [by apply Hs|].
    apply list_lookup_singleton_Some in Ee as [He <-]. simpl. split; [lia|]. intros q. rewrite Hn by (by apply lookup_ge_None).
    by case_bool_decide.
  - intros e q Ee%lookup_ge_None. rewrite length_app in Ee. apply Hn, lookup_ge_None. lia.
Qed.

Lemma worker_submitted l (p p' : pool (job F A X)) :
  match l with LSubmit _ _ => False | _ => True end -> step l p = Some p' -> submitted p' = submitted p.
Proof.
  destruct l as [j q|i|i|i|i|i|i|i]; simpl; [done|..]; intros _;
    unfold worker_wake, worker_finish, notify_one; repeat case_match; by intros [= <-].
Qed.

Lemma async_step_ok l s s' : async_ok s -> async_step l s = Some s' -> async_ok s'.
Proof.
  intros [Hp Hs] E. destruct l as [p a|e|q|l|x p]; simpl in E.
  - destruct (emit_async p a s) as [s1| |] eqn:Ee; simplify_eq. split; [|by eapply emit_async_ok].
    unfold emit_async in Ee. destruct (expired (sg s)); simplify_eq. exact Hp.
  - split; [|by eapply submit_slot_ok]. unfold submit_slot in E. repeat case_match; simplify_eq. by apply submit_ok.
  - unfold run_signal in E. case_match; simplify_eq. by split.
  - destruct (match l with LSubmit _ _ => true | _ => false end) eqn:Hl; [by destruct l|].
    assert (on_pool (step l (pl s)) s = Some s') as E1 by by destruct l. unfold on_pool in E1.
    destruct (step l (pl s)) as [pl'|] eqn:El; simplify_eq. split; [by eapply step_ok|].
    apply (submitted_ok_same s); [|done|exact Hs]. eapply worker_submitted; [|exact El]. by destruct l.
  - injection E as <-. split; [by apply submit_ok|]. destruct Hs as [Hs Hn].
    assert (forall e q, mine e (at_level q (submitted (pl s) ++ [(JOther x, p)])) = mine e (at_level q (submitted (pl s)))) as Hm.
    { intros e q. rewrite mine_level_snoc. case_bool_decide; apply app_nil_r. }
    split; simpl; setoid_rewrite Hm; done.
Qed.

Lemma async_run_ok ls : forall s s', async_ok s -> async_run ls s = Some s' -> async_ok s'.
Proof.
  induction ls as [|l ls IH]; intros s s' Hs E; simpl in E; [by simplify_eq|].
  destruct (async_step l s) as [s1|] eqn:E1; [|done]. eapply IH; [|exact E]. by eapply async_step_ok.
Qed.

Lemma async_start_ok n : async_ok (async_start n).
Proof. split; [apply new_pool_ok|]. by split. Qed.

(** An emission in progress keeps its snapshot, level and arguments. *)
Lemma async_step_emission l s s' e em :
  emissions s !! e = Some em -> async_step l s = Some s' ->
  exists i, emissions s' !! e = Some (mk_emission (snap em) i (priority em) (args em)).
Proof.
  assert (em = mk_emission (snap em) (index em) (priority em) (args em)) as Heta by by destruct em.
  intros Ee E. destruct l as [p a|e'|q|l|x p]; simpl in E.
  - unfold emit_async in E. destruct (expired (sg s)); simplify_eq. exists (index em). rewrite <- Heta. simpl. by apply lookup_app_l_Some.
  - unfold submit_slot in E. destruct (emissions s !! e') as [em'|] eqn:Ee'; [|done].
    destruct (snap em' !! index em'); simplify_eq. simpl. destruct (decide (e' = e)) as [->|Hne].
    + rewrite list_lookup_insert_eq by (by eapply lookup_lt_Some). simplify_eq. by eexists.
    + rewrite list_lookup_insert_ne by done. exists (index em). by rewrite <- Heta.
  - unfold run_signal in E. case_match; simplify_eq. exists (index em). by rewrite <- Heta.
  - exists (index em). rewrite <- Heta. unfold on_pool in E. by destruct l; repeat case_match; simplify_eq.
  - exists (index em). rewrite <- Heta. by simplify_eq.
Qed.

Lemma async_run_emission ls : forall s s' e em,
  emissions s !! e = Some em -> async_run ls s = Some s' ->
  exists i, emissions s' !! e = Some (mk_emission (snap em) i (priority em) (args em)).
Proof.
  induction ls as [|l ls IH]; intros s s' e em Ee E; simpl in E.
  { simplify_eq. exists (index em). rewrite Ee. by destruct em. }
  destruct (async_step l s) as [s1|] eqn:E1; [|done].
  destruct (async_step_emission l s s1 e em Ee E1) as [i Hi]. by destruct (IH s1 s' e _ Hi E) as [j Hj]; eauto.
Qed.

(** C39. Asynchronous emission.  Whatever other threads connect, disconnect,
    emit or submit meanwhile, the functions connected when [emit_async] took
    its snapshot are each called once with its arguments and in connection
    order: at every moment the calls that workers have started, those queued
    and those the loop has still to submit are, in this order, exactly the
    snapshot, all at the priority asked for. *)
Theorem emit_async_calls_snapshot n ls0 p a ls s0 s1 s :
  async_run ls0 (async_start n) = Some s0 -> emit_async p a s0 = Done s1 -> async_run ls s1 = Some s ->
  let e := length (emissions s0) in
  exists i, emissions s !! e = Some (mk_emission (snapshot_sinks (sg s0)) i p a) /\
    mine e (at_level p (started (pl s))) ++ mine e (queue (queues_ (pl s)) p) ++
      tasks e a (drop i (snapshot_sinks (sg s0))) = tasks e a (snapshot_sinks (sg s0)) /\
    (forall q, q <> p -> mine e (at_level q (started (pl s))) = [] /\ mine e (queue (queues_ (pl s)) q) = []).
Proof.
  intros E0 Ee E e. assert (async_step (AEmit p a) s0 = Some s1) as E1 by (simpl; by rewrite Ee).
  assert (async_ok s) as [[Hq _] [Hs _]].
  { eapply async_run_ok; [|exact E]. eapply async_step_ok; [|exact E1]. eapply async_run_ok; [apply async_start_ok|exact E0]. }
  assert (emissions s1 !! e = Some (mk_emission (snapshot_sinks (sg s0)) 0 p a)) as H1.
  { unfold emit_async in Ee. destruct (expired (sg s0)); simplify_eq. simpl. by apply list_lookup_middle. }
  destruct (async_run_emission ls s1 s e _ H1 E) as [i Hi]. exists i. split; [exact Hi|].
  destruct (Hs e _ Hi) as [_ Hm]. simpl in Hm.
  split.
  - rewrite app_assoc, <- mine_app, <- Hq, Hm, bool_decide_true by done. unfold tasks. rewrite <- fmap_app. by rewrite take_drop.
  - intros q Hne. specialize (Hm q). rewrite Hq, mine_app, bool_decide_false in Hm by done. by apply app_eq_nil in Hm.
Qed.

End async.

Module examples.

Definition silent (f : nat) (w : Signal.world nat) : exec (Signal.world nat) := Done w.

(** Two functions are connected; after the snapshot both are disconnected and
    a third is connected, while a worker has begun with the first. *)
Definition before : list (async_label nat Z unit) := [ASignal (PAdd 7%nat (PAdd 8%nat PRet))].
Definition after : list (async_label nat Z unit) :=
  [ASubmit 0; AOther tt normal; AWorker (LTake 0); ASignal (PDisconnectAll (PAdd 9%nat PRet)); ASubmit 0].

Definition sys0 := default (async_start 1) (async_run silent before (async_start 1)).
Definition sys1 := match emit_async normal 42 sys0 with Done s => s | _ => sys0 end.
Definition sys2 := default sys1 (async_run silent after sys1).

Lemma emit_async_calls_snapshot_witness :
  snapshot_sinks (sg sys0) = [Plain 7%nat; Plain 8%nat] /\ snapshot_sinks (sg sys2) = [Plain 9%nat] /\
  exists i, emissions sys2 !! 0%nat = Some (mk_emission (snapshot_sinks (sg sys0)) i normal 42) /\
    mine 0 (at_level normal (started (pl sys2))) ++ mine 0 (queue (queues_ (pl sys2)) normal) ++
      tasks 0 42 (drop i (snapshot_sinks (sg sys0))) = tasks 0 42 (snapshot_sinks (sg sys0)) /\
    (forall q, q <> normal -> mine 0 (at_level q (started (pl sys2))) = [] /\ mine 0 (queue (queues_ (pl sys2)) q) = []).
Proof.
  split; [done|]. split; [done|].
  apply (emit_async_calls_snapshot silent 1 before normal 42 after sys0 sys1 sys2).
  - reflexivity.
  - reflexivity.
  - reflexivity.
Defined.

End examples.
