(* ===== verification/Net.v ===== *)
(** * The operating-system facade

    The backend-independent vocabulary (core/address.hpp, core/buffer.hpp,
    core/io_result.hpp, core/socket_ops_types.hpp) and the POSIX backends of
    [core::descriptor], [core::socket_ops] and [core::resolver]
    (core/impl/posix/descriptor.hpp, endpoint.hpp, socket_ops.hpp and resolver.hpp).  The system calls
    are the operations of the class [Kernel]; the class [KernelLaws] states
    what the code relies on. *)

From S2P Require Import Prelude.
#[local] Open Scope Z_scope.

(** ** Error codes: [std::errc] has the errno values; [errc_ok] is [std::errc{}] *)

Definition errc_ok := 0.
Definition EINTR := 4.
Definition EBADF := 9.
Definition EAGAIN := 11. (* also EWOULDBLOCK *)
Definition ENOSYS := 38.
Definition EINPROGRESS := 115.

Definition would_block (e : Z) : bool := (e =? EAGAIN) || (e =? EAGAIN).

(** ** Addresses *)

Definition AF_INET := 2.
Definition AF_INET6 := 10.

Record socket_address := mk_address { address : bytes; port : Z; family : Z }.

Definition no_address : socket_address := mk_address [] 0 0.

#[export] Instance socket_address_eq_dec : EqDecision socket_address.
Proof. solve_decision. Defined.

Definition is_inet6 (a : socket_address) : bool := family a =? AF_INET6.

(** ** Buffers *)

Definition make_buffer (text : bytes) : bytes := map (fun c => to_byte (byte_val c)) text.
Definition to_string (bs : bytes) : bytes := map (fun b => to_byte (byte_val b)) bs.
Definition append (dst bs : bytes) : bytes := dst ++ bs.

(** ** Results *)

Inductive domain := inet | inet6.
Inductive transport := stream | datagram.
Inductive shut := shut_read | shut_write | shut_both.

#[export] Instance domain_eq_dec : EqDecision domain.
Proof. solve_decision. Defined.

Record transfer := mk_transfer { count : Z; terror : Z }.

(** A stream read also yields the bytes placed in the caller's buffer; a
    datagram read the sender as well. *)
Record received := mk_received { rcount : Z; from : socket_address; rerror : Z; rdata : bytes }.

(** Size of [in_addr] and [in6_addr]. *)
Definition addr_len (af : Z) : nat := if af =? AF_INET6 then 16%nat else 4%nat.

(** ** System calls *)

(** A call's return value: non-negative, or -1 with an errno, which is never
    zero. *)
Inductive sysret := SysOk (n : Z) | SysErr (e : positive).

(** The fields of [sockaddr_storage] the code touches; the port is in network
    byte order and the address is the raw [in_addr] or [in6_addr]. *)
Record sockaddr := mk_sockaddr { sa_family : Z; sa_port : Z; sa_addr : bytes }.

Class Kernel (K : Type) := {
  sys_socket : Z -> Z -> K -> sysret * K;
  sys_getfl : Z -> K -> sysret * K;
  sys_setfl : Z -> Z -> K -> sysret * K;
  sys_reuseaddr : Z -> K -> sysret * K;
  sys_connect : Z -> sockaddr -> K -> sysret * K;
  sys_bind : Z -> sockaddr -> K -> sysret * K;
  sys_listen : Z -> Z -> K -> sysret * K;
  sys_accept : Z -> K -> sysret * sockaddr * K;
  sys_read : Z -> nat -> K -> sysret * bytes * K;
  sys_write : Z -> bytes -> K -> sysret * K;
  sys_send : Z -> bytes -> K -> sysret * K;
  sys_recv : Z -> nat -> K -> sysret * bytes * K;
  sys_sendto : Z -> bytes -> sockaddr -> K -> sysret * K;
  sys_recvfrom : Z -> nat -> K -> sysret * bytes * sockaddr * K;
  sys_shutdown : Z -> Z -> K -> sysret * K;
  sys_getsockname : Z -> K -> sysret * sockaddr * K;
  sys_so_error : Z -> K -> sysret * Z * K;
  sys_close : Z -> K -> K;
  getaddrinfo : bytes -> bytes -> Z -> K -> option (list sockaddr) * K;
  inet_pton : Z -> bytes -> option bytes;
  inet_ntop : Z -> bytes -> bytes;
  generic_message : Z -> bytes
}.

(** Documented behaviour of the calls: descriptors returned are non-negative
    and not in use; a transfer moves no more than the buffer holds. *)
Class KernelLaws (K : Type) `{Kernel K} := {
  socket_nonneg d t k n k' : sys_socket d t k = (SysOk n, k') -> 0 <= n;
  accept_fresh fd k n sa k' : sys_accept fd k = (SysOk n, sa, k') -> 0 <= n /\ n <> fd;
  send_bounded fd b k n k' : sys_send fd b k = (SysOk n, k') -> 0 <= n <= Z.of_nat (length b);
  recv_bounded fd len k n data k' :
    sys_recv fd len k = (SysOk n, data, k') -> Z.of_nat (length data) = n /\ (length data <= len)%nat;
  recvfrom_bounded fd len k n data sa k' :
    sys_recvfrom fd len k = (SysOk n, data, sa, k') -> Z.of_nat (length data) = n /\ (length data <= len)%nat
}.

(** The loops that read until the kernel has nothing left rely on the input
    that is pending, and the interruptions by signals, being finitely many:
    [work] bounds them. *)
Definition interrupted (r : sysret) : bool :=
  match r with
  | SysErr 4%positive => true
  | _ => false
  end.

Definition transferred (r : sysret) : bool :=
  match r with
  | SysOk n => 0 <? n
  | SysErr _ => false
  end.

Definition succeeded (r : sysret) : bool :=
  match r with
  | SysOk _ => true
  | SysErr _ => false
  end.

Class KernelProgress (K : Type) `{Kernel K} := {
  work : K -> nat;
  send_work fd b k r k' :
    sys_send fd b k = (r, k') ->
    (work k' <= work k)%nat /\ (interrupted r = true -> (work k' < work k)%nat);
  recv_work fd len k r data k' :
    sys_recv fd len k = (r, data, k') ->
    (work k' <= work k)%nat /\ (interrupted r || transferred r = true -> (work k' < work k)%nat);
  recvfrom_work fd len k r data sa k' :
    sys_recvfrom fd len k = (r, data, sa, k') ->
    (work k' <= work k)%nat /\ (interrupted r || succeeded r = true -> (work k' < work k)%nat);
  accept_work fd k r sa k' :
    sys_accept fd k = (r, sa, k') ->
    (work k' <= work k)%nat /\ (interrupted r || succeeded r = true -> (work k' < work k)%nat);
  close_work fd k : (work (sys_close fd k) <= work k)%nat;
  shutdown_work fd h k : (work (sys_shutdown fd h k).2 <= work k)%nat;
  so_error_work fd k : (work (sys_so_error fd k).2 <= work k)%nat;
  getfl_work fd k : (work (sys_getfl fd k).2 <= work k)%nat;
  setfl_work fd fl k : (work (sys_setfl fd fl k).2 <= work k)%nat
}.

Definition same_record {K} (heard told : K -> list (bytes * sockaddr)) (k k' : K) : Prop :=
  heard k' = heard k /\ told k' = told k.

(** What the datagram calls moved, on record: [heard] are the datagrams
    recvfrom returned, whole, with their senders, [told] those sendto took,
    with their destinations; no other call of a datagram endpoint adds to
    either. *)
Class DatagramKernel (K : Type) `{Kernel K} := {
  heard : K -> list (bytes * sockaddr);
  told : K -> list (bytes * sockaddr);
  recvfrom_record fd len k r data sa k' :
    sys_recvfrom fd len k = (r, data, sa, k') ->
    heard k' = heard k ++ (if succeeded r then [(data, sa)] else []) /\ told k' = told k;
  sendto_record fd b sa k r k' :
    sys_sendto fd b sa k = (r, k') ->
    heard k' = heard k /\ told k' = told k ++ (if succeeded r then [(b, sa)] else []);
  socket_record d t k : same_record heard told k (sys_socket d t k).2;
  getfl_record fd k : same_record heard told k (sys_getfl fd k).2;
  setfl_record fd fl k : same_record heard told k (sys_setfl fd fl k).2;
  reuseaddr_record fd k : same_record heard told k (sys_reuseaddr fd k).2;
  bind_record fd sa k : same_record heard told k (sys_bind fd sa k).2;
  getsockname_record fd k : same_record heard told k (sys_getsockname fd k).2;
  close_record fd k : same_record heard told k (sys_close fd k);
  getaddrinfo_record n s t k : same_record heard told k (getaddrinfo n s t k).2
}.

(** ** [core::descriptor]: an owning handle; -1 owns nothing *)

Definition invalid_handle := -1.
Definition valid (fd : Z) : bool := 0 <=? fd.

Section backend.
Context {K : Type} `{Kernel K}.
Implicit Types k : K.

(** [state::reset], also the destructor and [close]. *)
Definition close (fd : Z) k : Z * K := if 0 <=? fd then (invalid_handle, sys_close fd k) else (fd, k).

(** Move assignment [dst = std::move(src)]: releases the old handle. *)
Definition move_assign (dst src : Z) k : Z * K := let '(_, k) := close dst k in (src, k).

Definition release (fd : Z) : Z * Z := (fd, invalid_handle).

Definition read (fd : Z) (len : nat) k : transfer * bytes * K :=
  let '(r, data, k) := sys_read fd len k in
  match r with
  | SysErr e => (mk_transfer (-1) (Zpos e), [], k)
  | SysOk n => (mk_transfer n errc_ok, data, k)
  end.

Definition write (fd : Z) (b : bytes) k : transfer * K :=
  let '(r, k) := sys_write fd b k in
  match r with
  | SysErr e => (mk_transfer (-1) (Zpos e), k)
  | SysOk n => (mk_transfer n errc_ok, k)
  end.

(** ** Endpoints *)

(** [std::string::c_str] as a C function reads it: up to the first NUL. *)
Fixpoint c_str (s : bytes) : bytes :=
  match s with
  | [] => []
  | c :: s' => if byte_val c =? 0 then [] else c :: c_str s'
  end.

(** Host and network order differ by a swap of the two bytes. *)
Definition htons (p : Z) : Z := u16 (Z.lor (Z.shiftl (Z.land p 0xFF) 8) (Z.shiftr p 8)).
Definition ntohs (p : Z) : Z := htons p.

(** [sockaddr_storage storage{}]: zeroed, so an address inet_pton rejects
    stays all zero. *)
Definition to_sockaddr (a : socket_address) : sockaddr :=
  if family a =? AF_INET6 then
    mk_sockaddr AF_INET6 (htons (port a)) (default (replicate 16 Byte.x00) (inet_pton AF_INET6 (c_str (address a))))
  else
    mk_sockaddr AF_INET (htons (port a)) (default (replicate 4 Byte.x00) (inet_pton AF_INET (c_str (address a)))).

Definition from_sockaddr (sa : sockaddr) : socket_address :=
  if sa_family sa =? AF_INET6 then
    mk_address (inet_ntop AF_INET6 (sa_addr sa)) (ntohs (sa_port sa)) AF_INET6
  else
    mk_address (inet_ntop AF_INET (sa_addr sa)) (ntohs (sa_port sa)) AF_INET.

(** ** [core::socket_ops] *)

Definition af_of (d : domain) : Z := match d with inet6 => AF_INET6 | inet => AF_INET end.
Definition type_of (t : transport) : Z := match t with datagram => 2 | stream => 1 end.

Definition errc_of (r : sysret) : Z := match r with SysOk _ => errc_ok | SysErr e => Zpos e end.
Definition transfer_of (r : sysret) : transfer :=
  match r with
  | SysOk n => mk_transfer n errc_ok
  | SysErr e => mk_transfer (-1) (Zpos e)
  end.

(** [open]: the handle (invalid on failure) and the error. *)
Definition open (d : domain) (t : transport) k : Z * Z * K :=
  let '(r, k) := sys_socket (af_of d) (type_of t) k in
  match r with
  | SysErr e => (invalid_handle, Zpos e, k)
  | SysOk fd => (fd, errc_ok, k)
  end.

Definition O_NONBLOCK := 0x800.

Definition set_nonblocking (fd : Z) k : Z * K :=
  let '(r, k) := sys_getfl fd k in
  match r with
  | SysErr e => (Zpos e, k)
  | SysOk flags => let '(r, k) := sys_setfl fd (Z.lor flags O_NONBLOCK) k in (errc_of r, k)
  end.

Definition set_reuse_addr (fd : Z) k : Z * K := let '(r, k) := sys_reuseaddr fd k in (errc_of r, k).

Definition connect (fd : Z) (a : socket_address) k : Z * K :=
  let '(r, k) := sys_connect fd (to_sockaddr a) k in
  match r with
  | SysOk _ => (errc_ok, k)
  | SysErr e => (if Zpos e =? EINPROGRESS then EINPROGRESS else Zpos e, k)
  end.

Definition bind (fd : Z) (a : socket_address) k : Z * K :=
  let '(r, k) := sys_bind fd (to_sockaddr a) k in (errc_of r, k).

Definition listen (fd backlog : Z) k : Z * K := let '(r, k) := sys_listen fd backlog k in (errc_of r, k).

(** [accept]: handle, peer and error. *)
Definition accept (fd : Z) k : Z * socket_address * Z * K :=
  let '(r, sa, k) := sys_accept fd k in
  match r with
  | SysErr e => (invalid_handle, no_address, Zpos e, k)
  | SysOk cfd => (cfd, from_sockaddr sa, errc_ok, k)
  end.

Definition send (fd : Z) (b : bytes) k : transfer * K :=
  let '(r, k) := sys_send fd b k in (transfer_of r, k).

Definition recv (fd : Z) (len : nat) k : transfer * bytes * K :=
  let '(r, data, k) := sys_recv fd len k in (transfer_of r, data, k).

Definition send_to (fd : Z) (b : bytes) (a : socket_address) k : transfer * K :=
  let '(r, k) := sys_sendto fd b (to_sockaddr a) k in (transfer_of r, k).

Definition recv_from (fd : Z) (len : nat) k : received * K :=
  let '(r, data, sa, k) := sys_recvfrom fd len k in
  match r with
  | SysErr e => (mk_received (-1) no_address (Zpos e) [], k)
  | SysOk n => (mk_received n (from_sockaddr sa) errc_ok data, k)
  end.

Definition shutdown (fd : Z) (how : shut) k : Z * K :=
  let h := match how with shut_read => 0 | shut_write => 1 | shut_both => 2 end in
  let '(r, k) := sys_shutdown fd h k in (errc_of r, k).

Definition local_endpoint (fd : Z) k : socket_address * K :=
  let '(r, sa, k) := sys_getsockname fd k in
  match r with
  | SysErr _ => (no_address, k)
  | SysOk _ => (from_sockaddr sa, k)
  end.

Definition pending_error (fd : Z) k : Z * K :=
  let '(r, err, k) := sys_so_error fd k in
  match r with
  | SysErr e => (Zpos e, k)
  | SysOk _ => (err, k)
  end.

Definition describe (e : Z) (prefix : bytes) : bytes := prefix ++ str ": " ++ generic_message e.

(** ** [core::resolver] *)

(** [std::to_string] of a 16-bit port: decimal digits, most significant
    first; five are enough. *)
Fixpoint digits (fuel : nat) (n : Z) : bytes :=
  match fuel with
  | O => []
  | S fuel' => (if n <? 10 then [] else digits fuel' (n / 10)) ++ [to_byte (48 + n mod 10)]
  end.
Definition port_string (p : Z) : bytes := digits 5 p.

Definition resolve (host : bytes) (p : Z) (is_datagram : bool) k : list socket_address * K :=
  let '(r, k) := getaddrinfo (c_str host) (port_string p) (if is_datagram then 2 else 1) k in
  match r with
  | None => ([], k)
  | Some sas => (map from_sockaddr sas, k)
  end.

Definition resolve_one (host : bytes) (p : Z) (is_datagram : bool) k : option socket_address * K :=
  let '(all, k) := resolve host p is_datagram k in
  match all with
  | [] => (None, k)
  | a :: _ => (Some a, k)
  end.

End backend.

(** ** Lemmas *)

Lemma make_buffer_id bs : make_buffer bs = bs.
Proof. unfold make_buffer. induction bs; simpl; [done|]. by rewrite to_byte_val, IHbs. Qed.

Lemma to_string_id bs : to_string bs = bs.
Proof. exact (make_buffer_id bs). Qed.

(** Swapping the bytes of a 16-bit word. *)
Lemma htons_val p : is_u16 p -> htons p = (p mod 256) * 256 + p / 256.
Proof.
  unfold is_u16. intros Hp. unfold htons. change 0xFF with (Z.ones 8). rewrite Z.land_ones by lia.
  rewrite Z.shiftr_div_pow2 by lia. change (2 ^ 8) with 256.
  assert (0 <= p / 256 < 256) by (split; [apply Z.div_pos; lia|apply Z.div_lt_upper_bound; lia]).
  pose proof (Z.mod_pos_bound p 256 ltac:(lia)).
  rewrite lor_shiftl_add by lia. apply u16_small. unfold is_u16. lia.
Qed.

Lemma htons_is_u16 p : is_u16 (htons p).
Proof. apply Z.mod_pos_bound. done. Qed.

Lemma ntohs_htons p : is_u16 p -> ntohs (htons p) = p.
Proof.
  intros Hp. unfold ntohs. rewrite (htons_val (htons p)) by apply htons_is_u16.
  rewrite (htons_val p Hp). unfold is_u16 in Hp.
  assert (0 <= p / 256 < 256) as Hhi by (split; [apply Z.div_pos; lia|apply Z.div_lt_upper_bound; lia]).
  rewrite Z.div_add_l, (Z.div_small (p / 256)) by lia.
  rewrite (Z.add_comm (p mod 256 * 256)), Z_mod_plus_full, Z.mod_small by lia.
  pose proof (Z.div_mod p 256 ltac:(lia)). lia.
Qed.

(** Text that [inet_ntop] produces has no NUL. *)
Lemma c_str_id s : Forall (fun c => byte_val c <> 0) s -> c_str s = s.
Proof. induction 1 as [|c s Hc _ IH]; simpl; [done|]. branch; [lia|]. by rewrite IH. Qed.

(** ** Operations that leave the record of datagrams alone *)

Section record.
Context {K : Type} `{DatagramKernel K}.
Implicit Types k : K.
Abbreviation same := (same_record (K := K) heard told).

Lemma same_record_refl k : same k k.
Proof. done. Qed.

Lemma same_record_trans k1 k2 k3 : same k1 k2 -> same k2 k3 -> same k1 k3.
Proof. intros [E1 E2] [E3 E4]. split; congruence. Qed.

Lemma open_same d t k : same k (Net.open d t k).2.
Proof. unfold open. pose proof (socket_record (af_of d) (type_of t) k) as Hs. by destruct (sys_socket _ _ _) as [[] ?]. Qed.

Lemma close_same fd k : same k (close fd k).2.
Proof. unfold close. destruct (0 <=? fd); [apply close_record|done]. Qed.

Lemma move_assign_same d fd k : same k (move_assign d fd k).2.
Proof. unfold move_assign. pose proof (close_same d k). by destruct (close d k). Qed.

Lemma set_nonblocking_same fd k : same k (set_nonblocking fd k).2.
Proof.
  unfold set_nonblocking. pose proof (getfl_record fd k) as Hg. destruct (sys_getfl fd k) as [[fl|e] k1]; [|done].
  pose proof (setfl_record fd (Z.lor fl O_NONBLOCK) k1) as Hs. destruct (sys_setfl _ _ _). by eapply same_record_trans.
Qed.

Lemma set_reuse_addr_same fd k : same k (set_reuse_addr fd k).2.
Proof. unfold set_reuse_addr. pose proof (reuseaddr_record fd k). by destruct (sys_reuseaddr _ _). Qed.

Lemma bind_same fd a k : same k (bind fd a k).2.
Proof. unfold bind. pose proof (bind_record fd (to_sockaddr (K := K) a) k). by destruct (sys_bind _ _ _). Qed.

Lemma local_endpoint_same fd k : same k (local_endpoint fd k).2.
Proof. unfold local_endpoint. pose proof (getsockname_record fd k). by destruct (sys_getsockname _ _) as [[[] ?] ?]. Qed.

Lemma resolve_one_same host p dg k : same k (resolve_one host p dg k).2.
Proof.
  unfold resolve_one, resolve. pose proof (getaddrinfo_record (c_str host) (port_string p) (if dg then 2 else 1) k) as Hs.
  destruct (getaddrinfo _ _ _ _) as [[[|]|] k1]; done.
Qed.

(** [send_to] without an error has handed the datagram over. *)
Lemma send_to_record fd b a k n k' :
  send_to fd b a k = (n, k') ->
  heard k' = heard k /\
  told k' = told k ++ (if terror n =? errc_ok then [(b, to_sockaddr (K := K) a)] else []).
Proof.
  unfold send_to. destruct (sys_sendto _ _ _ _) as [r k1] eqn:E. intros [= <- <-].
  apply sendto_record in E as [-> ->]. by destruct r.
Qed.

(** [recv_from] returns what the kernel delivered. *)
Lemma recv_from_record fd len k got k' :
  recv_from fd len k = (got, k') ->
  told k' = told k /\
  exists new, heard k' = heard k ++ new /\
    if rerror got =? errc_ok then exists sa, new = [(rdata got, sa)] /\ from got = from_sockaddr (K := K) sa else new = [].
Proof.
  unfold recv_from. destruct (sys_recvfrom _ _ _) as [[[r data] sa] k1] eqn:E.
  apply recvfrom_record in E as [Eh Et]. destruct r as [n|e]; intros [= <- <-]; simpl in *.
  - split; [done|]. exists [(data, sa)]. split; [done|]. by exists sa.
  - split; [done|]. by exists [].
Qed.

End record.

(** ** A scripted kernel

    A concrete instance of the three classes: every call answers from a list
    of prepared results (EAGAIN when it is exhausted), clamped to what the
    call may return.  The witnesses of the theorems about the protocols run
    on it. *)

Module Scripted.

Record script := mk_script {
  sends : list sysret; (* answers of send and sendto *)
  recvs : list (sysret * bytes * sockaddr); (* answers of recv and recvfrom *)
  accepts : list (sysret * sockaddr);
  next_fd : Z;
  closed_fds : list Z;
  fcntls : list sysret; (* answers of fcntl F_GETFL, success when exhausted *)
  bound_to : list sockaddr;
  names : list (bytes * sockaddr) (* what getaddrinfo knows *)
}.

Definition blank : script := mk_script [] [] [] 3 [] [] [] [].

Definition set_sends (k : script) x := mk_script x (recvs k) (accepts k) (next_fd k) (closed_fds k) (fcntls k) (bound_to k) (names k).
Definition set_recvs (k : script) x := mk_script (sends k) x (accepts k) (next_fd k) (closed_fds k) (fcntls k) (bound_to k) (names k).
Definition set_accepts (k : script) x := mk_script (sends k) (recvs k) x (next_fd k) (closed_fds k) (fcntls k) (bound_to k) (names k).
Definition set_next_fd (k : script) x := mk_script (sends k) (recvs k) (accepts k) x (closed_fds k) (fcntls k) (bound_to k) (names k).
Definition set_closed (k : script) x := mk_script (sends k) (recvs k) (accepts k) (next_fd k) x (fcntls k) (bound_to k) (names k).
Definition set_fcntls (k : script) x := mk_script (sends k) (recvs k) (accepts k) (next_fd k) (closed_fds k) x (bound_to k) (names k).
Definition set_bound (k : script) x := mk_script (sends k) (recvs k) (accepts k) (next_fd k) (closed_fds k) (fcntls k) x (names k).
Definition set_names (k : script) x := mk_script (sends k) (recvs k) (accepts k) (next_fd k) (closed_fds k) (fcntls k) (bound_to k) x.

Definition eagain : sysret := SysErr 11.
Definition nowhere : sockaddr := mk_sockaddr 0 0 [].

Definition answer_send (fd : Z) (b : bytes) (k : script) : sysret * script :=
  if fd <? 0 then (SysErr 9, k)
  else
    match sends k with
    | [] => (eagain, k)
    | SysOk n :: rest => (SysOk (Z.max 0 (Z.min n (Z.of_nat (length b)))), set_sends k rest)
    | SysErr e :: rest => (SysErr e, set_sends k rest)
    end.

Definition answer_recv (fd : Z) (len : nat) (k : script) : sysret * bytes * sockaddr * script :=
  if fd <? 0 then (SysErr 9, [], nowhere, k)
  else
    match recvs k with
    | [] => (eagain, [], nowhere, k)
    | (SysOk _, data, sa) :: rest =>
        (SysOk (Z.of_nat (length (take len data))), take len data, sa, set_recvs k rest)
    | (SysErr e, _, sa) :: rest => (SysErr e, [], sa, set_recvs k rest)
    end.

Definition answer_accept (fd : Z) (k : script) : sysret * sockaddr * script :=
  if fd <? 0 then (SysErr 9, nowhere, k)
  else
    match accepts k with
    | [] => (eagain, nowhere, k)
    | (SysOk n, sa) :: rest => (SysOk (if Z.max 0 n =? fd then fd + 1 else Z.max 0 n), sa, set_accepts k rest)
    | (SysErr e, sa) :: rest => (SysErr e, sa, set_accepts k rest)
    end.

Fixpoint known (host : bytes) (ns : list (bytes * sockaddr)) : list sockaddr :=
  match ns with
  | [] => []
  | (n, sa) :: ns' => if bool_decide (n = host) then sa :: known host ns' else known host ns'
  end.

(** A presentation form is the raw address itself. *)
#[global] Instance scripted : Kernel script := {|
  sys_socket _ _ k := (SysOk (Z.max 0 (next_fd k)), set_next_fd k (next_fd k + 1));
  sys_getfl fd k := match fcntls k with [] => (SysOk 2, k) | r :: rest => (r, set_fcntls k rest) end;
  sys_setfl fd _ k := (SysOk 0, k);
  sys_reuseaddr fd k := (SysOk 0, k);
  sys_connect fd _ k := (SysErr 115, k);
  sys_bind fd sa k := (SysOk 0, set_bound k (bound_to k ++ [sa]));
  sys_listen fd _ k := (SysOk 0, k);
  sys_accept := answer_accept;
  sys_read fd len k := let '(r, data, _, k) := answer_recv fd len k in (r, data, k);
  sys_write := answer_send;
  sys_send := answer_send;
  sys_recv fd len k := let '(r, data, _, k) := answer_recv fd len k in (r, data, k);
  sys_sendto fd b _ k := answer_send fd b k;
  sys_recvfrom := answer_recv;
  sys_shutdown fd _ k := (SysOk 0, k);
  sys_getsockname fd k := (SysOk 0, default nowhere (last (bound_to k)), k);
  sys_so_error fd k := (SysOk 0, 0, k);
  sys_close fd k := set_closed k (closed_fds k ++ [fd]);
  getaddrinfo host _ _ k := (match known host (names k) with [] => None | sas => Some sas end, k);
  inet_pton af s :=
    if (length s =? addr_len af)%nat then Some s
    else if bool_decide (s = str "0.0.0.0") then Some (replicate (addr_len af) Byte.x00) else None;
  inet_ntop af raw := raw;
  generic_message e := str "error " ++ digits 5 e
|}.

Lemma answer_send_bounded fd b k n k' : answer_send fd b k = (SysOk n, k') -> 0 <= n <= Z.of_nat (length b).
Proof. unfold answer_send. branch; [done|]. destruct (sends k) as [|[m|e] rest]; intros [=]; subst; lia. Qed.

Lemma answer_recv_bounded fd len k n data sa k' :
  answer_recv fd len k = (SysOk n, data, sa, k') -> Z.of_nat (length data) = n /\ (length data <= len)%nat.
Proof.
  unfold answer_recv. branch; [done|].
  destruct (recvs k) as [|[[[m|e] d] a] rest]; intros [=]; subst. split; [done|]. rewrite length_take. lia.
Qed.

#[global] Instance scripted_laws : KernelLaws script.
Proof.
  split; simpl; intros.
  - simplify_eq. lia.
  - unfold answer_accept in *. branch_in H; [done|]. destruct (accepts k) as [|[[m|e] a] rest]; simplify_eq. branch; lia.
  - eauto using answer_send_bounded.
  - destruct (answer_recv fd len k) as [[[r d] sa] k''] eqn:E. simplify_eq. eauto using answer_recv_bounded.
  - eauto using answer_recv_bounded.
Qed.

Definition script_work (k : script) : nat := length (sends k) + length (recvs k) + length (accepts k).

Lemma answer_recv_work fd len k r data sa k' :
  answer_recv fd len k = (r, data, sa, k') ->
  (script_work k' <= script_work k)%nat /\ (interrupted r || succeeded r = true -> (script_work k' < script_work k)%nat).
Proof.
  unfold answer_recv, script_work. branch; [by intros [=]; subst|].
  destruct (recvs k) as [|[[[m|e] d] a] rest] eqn:E; intros [=]; subst; simpl; rewrite ?E; simpl; (split; [lia|]).
  - done.
  - lia.
  - lia.
Qed.

Lemma transferred_succeeded r : interrupted r || transferred r = true -> interrupted r || succeeded r = true.
Proof. destruct r; simpl; [done|]. by rewrite !orb_false_r. Qed.

#[global] Program Instance scripted_progress : KernelProgress script := {| work := script_work |}.
Next Obligation.
  simpl. intros fd b k r k'. unfold answer_send, script_work. branch; [by intros [=]; subst|].
  destruct (sends k) as [|[m|e] rest] eqn:E; intros [=]; subst; simpl; rewrite ?E; simpl; split; done || lia.
Qed.
Next Obligation.
  simpl. intros fd len k r data k'. destruct (answer_recv fd len k) as [[[r' d] sa] k''] eqn:E. intros [=]; subst.
  destruct (answer_recv_work _ _ _ _ _ _ _ E) as [? Hs]. split; [done|]. intros Ht. apply Hs, transferred_succeeded, Ht.
Qed.
Next Obligation. simpl. eauto using answer_recv_work. Qed.
Next Obligation.
  simpl. intros fd k r sa k'. unfold answer_accept, script_work. branch; [by intros [=]; subst|].
  destruct (accepts k) as [|[[m|e] a] rest] eqn:E; intros [=]; subst; simpl; rewrite ?E; simpl; split; done || lia.
Qed.
Next Obligation. done. Qed.
Next Obligation. done. Qed.
Next Obligation. done. Qed.
Next Obligation. simpl. intros fd k. by destruct (fcntls k). Qed.
Next Obligation. done. Qed.

End Scripted.

(** ** Recording a kernel

    Any kernel with a record of its datagram calls beside it. *)

Module Tap.

Record tapped (K : Type) := mk_tapped { kernel : K; ins : list (bytes * sockaddr); outs : list (bytes * sockaddr) }.
Arguments mk_tapped {K}.
Arguments kernel {K}.
Arguments ins {K}.
Arguments outs {K}.

Section tap.
Context {K : Type} `{KK : Kernel K}.
Implicit Types k : tapped K.

Definition tap (k : K) : tapped K := mk_tapped k [] [].

(** A call that is not recorded. *)
Definition past {T} k (r : T * K) : T * tapped K := (r.1, mk_tapped r.2 (ins k) (outs k)).

#[global] Instance tapped_kernel : Kernel (tapped K) := {|
  sys_socket d t k := past k (sys_socket d t (kernel k));
  sys_getfl fd k := past k (sys_getfl fd (kernel k));
  sys_setfl fd fl k := past k (sys_setfl fd fl (kernel k));
  sys_reuseaddr fd k := past k (sys_reuseaddr fd (kernel k));
  sys_connect fd sa k := past k (sys_connect fd sa (kernel k));
  sys_bind fd sa k := past k (sys_bind fd sa (kernel k));
  sys_listen fd n k := past k (sys_listen fd n (kernel k));
  sys_accept fd k := past k (sys_accept fd (kernel k));
  sys_read fd len k := past k (sys_read fd len (kernel k));
  sys_write fd b k := past k (sys_write fd b (kernel k));
  sys_send fd b k := past k (sys_send fd b (kernel k));
  sys_recv fd len k := past k (sys_recv fd len (kernel k));
  sys_sendto fd b sa k :=
    let '(r, k') := sys_sendto fd b sa (kernel k) in
    (r, mk_tapped k' (ins k) (outs k ++ (if succeeded r then [(b, sa)] else [])));
  sys_recvfrom fd len k :=
    let '(r, data, sa, k') := sys_recvfrom fd len (kernel k) in
    (r, data, sa, mk_tapped k' (ins k ++ (if succeeded r then [(data, sa)] else [])) (outs k));
  sys_shutdown fd h k := past k (sys_shutdown fd h (kernel k));
  sys_getsockname fd k := past k (sys_getsockname fd (kernel k));
  sys_so_error fd k := past k (sys_so_error fd (kernel k));
  sys_close fd k := mk_tapped (sys_close fd (kernel k)) (ins k) (outs k);
  getaddrinfo n s t k := past k (getaddrinfo n s t (kernel k));
  inet_pton af t := inet_pton (K := K) af t;
  inet_ntop af raw := inet_ntop (K := K) af raw;
  generic_message e := generic_message (K := K) e
|}.

#[global] Program Instance tapped_record : DatagramKernel (tapped K) := {| heard := ins; told := outs |}.
Next Obligation.
  intros fd len k r data sa k'. simpl. destruct (sys_recvfrom _ _ _) as [[[r' d] sa'] k0]. by intros [= <- <- <- <-].
Qed.
Next Obligation. intros fd b sa k r k'. simpl. destruct (sys_sendto _ _ _ _) as [r' k0]. by intros [= <- <-]. Qed.
Next Obligation. done. Qed.
Next Obligation. done. Qed.
Next Obligation. done. Qed.
Next Obligation. done. Qed.
Next Obligation. done. Qed.
Next Obligation. done. Qed.
Next Obligation. done. Qed.
Next Obligation. done. Qed.

Lemma past_inv {T} k (r : T * K) x k' : past k r = (x, k') -> r = (x, kernel k').
Proof. unfold past. destruct r. by intros [= <- <-]. Qed.

#[global] Instance tapped_laws `{!KernelLaws K} : KernelLaws (tapped K).
Proof.
  split; simpl.
  - intros d t k n k' E%past_inv. by eapply socket_nonneg.
  - intros fd k n sa k' E%past_inv. by eapply accept_fresh.
  - intros fd b k n k' E%past_inv. by eapply send_bounded.
  - intros fd len k n data k' E%past_inv. by eapply recv_bounded.
  - intros fd len k n data sa k'. destruct (sys_recvfrom _ _ _) as [[[r' d] sa'] k0] eqn:E. intros [= -> -> -> <-].
    by eapply recvfrom_bounded.
Qed.

#[global] Program Instance tapped_progress `{!KernelProgress K} : KernelProgress (tapped K) := {| work k := work (kernel k) |}.
Next Obligation. simpl. intros ? fd b k r k' E%past_inv. by eapply send_work. Qed.
Next Obligation. simpl. intros ? fd len k r data k' E%past_inv. by eapply recv_work. Qed.
Next Obligation.
  simpl. intros ? fd len k r data sa k'. destruct (sys_recvfrom _ _ _) as [[[r' d] sa'] k0] eqn:E. intros [= <- <- <- <-].
  by eapply recvfrom_work.
Qed.
Next Obligation. simpl. intros ? fd k r sa k' E%past_inv. by eapply accept_work. Qed.
Next Obligation. simpl. intros. apply close_work. Qed.
Next Obligation. simpl. intros. apply shutdown_work. Qed.
Next Obligation. simpl. intros. apply so_error_work. Qed.
Next Obligation. simpl. intros. apply getfl_work. Qed.
Next Obligation. simpl. intros. apply setfl_work. Qed.

End tap.
End Tap.

(** ** Endpoint conversion *)

(** Endpoint conversion is lossless: provided inet_pton inverts inet_ntop
    and inet_ntop produces text without NUL bytes, an address in the canonical
    text form of either family, with a 16-bit port, survives [to_sockaddr]
    and [from_sockaddr] unchanged, and the port is stored byte-swapped. *)
Theorem endpoint_roundtrip {K} `{Kernel K} (af : Z) (raw : bytes) (p : Z) :
  (forall af raw, (af = AF_INET6 \/ af = AF_INET) -> length raw = addr_len af ->
     inet_pton af (inet_ntop af raw) = Some raw) ->
  Forall (fun c => byte_val c <> 0) (inet_ntop af raw) ->
  af = AF_INET6 \/ af = AF_INET ->
  length raw = addr_len af ->
  is_u16 p ->
  let a := mk_address (inet_ntop af raw) p af in
  to_sockaddr a = mk_sockaddr af ((p mod 256) * 256 + p / 256) raw /\ from_sockaddr (to_sockaddr a) = a.
Proof.
  intros Hpton Htext Haf Hraw Hp a.
  assert (to_sockaddr a = mk_sockaddr af (htons p) raw) as E.
  { unfold to_sockaddr. simpl. rewrite c_str_id by done.
    destruct Haf as [-> | ->]; simpl; rewrite Hpton; auto. }
  rewrite E, <- htons_val by done. split; [done|]. unfold from_sockaddr. simpl.
  rewrite ntohs_htons by done. by destruct Haf as [-> | ->].
Qed.

Lemma endpoint_roundtrip_witness :
  let a := mk_address (inet_ntop (K := Scripted.script) AF_INET (str "abcd")) 8080 AF_INET in
  to_sockaddr (K := Scripted.script) a = mk_sockaddr AF_INET (8080 mod 256 * 256 + 8080 / 256) (str "abcd") /\
  from_sockaddr (K := Scripted.script) (to_sockaddr (K := Scripted.script) a) = a.
Proof.
  apply (endpoint_roundtrip (K := Scripted.script) AF_INET (str "abcd") 8080).
  - simpl. intros af raw [-> | ->] Hlen; simpl in *; by rewrite Hlen.
  - repeat constructor; by vm_compute.
  - by right.
  - done.
  - by vm_compute.
Defined.
