(* ===== verification/Descriptor.v ===== *)
(** * Ownership of descriptors

    The class [state] of core/impl/posix/descriptor.hpp, as objects with
    identities: construction, move, assignment, [reset], [release] and
    destruction, against the kernel's table of open descriptors.  [Net] uses
    the effect of these functions on one object; here many objects live at the
    same time and the question is who closes what. *)

From S2P Require Import Prelude Net.
#[local] Open Scope Z_scope.

(** The objects by identity, with their [fd_]; the descriptors open in the
    kernel; those handed out by [release]; and whether close(2) was ever called
    on a descriptor that was not open. *)
Record heap := mk_heap {
  objs : gmap nat Z;
  open_fds : gset Z;
  released : gset Z;
  bad_close : bool
}.

Definition new_heap : heap := mk_heap ∅ ∅ ∅ false.

Definition set_fd (o : nat) (fd : Z) (h : heap) : heap :=
  mk_heap (<[o := fd]> (objs h)) (open_fds h) (released h) (bad_close h).

Definition sys_close_fd (fd : Z) (h : heap) : heap :=
  mk_heap (objs h) (open_fds h ∖ {[fd]}) (released h) (bad_close h || bool_decide (fd ∉ open_fds h)).

(** [state::reset]. *)
Definition reset (o : nat) (h : heap) : option heap :=
  match objs h !! o with
  | None => None
  | Some fd => Some (if 0 <=? fd then set_fd o invalid_handle (sys_close_fd fd h) else h)
  end.

(** [std::exchange(fd_, invalid_handle)]. *)
Definition exchange (o : nat) (h : heap) : option (Z * heap) :=
  match objs h !! o with
  | None => None
  | Some fd => Some (fd, set_fd o invalid_handle h)
  end.

Definition construct (o : nat) (fd : Z) (h : heap) : option heap :=
  match objs h !! o with
  | Some _ => None
  | None => Some (set_fd o fd h)
  end.

(** The move constructor and the move assignment. *)
Definition move_construct (o src : nat) (h : heap) : option heap :=
  match exchange src h with
  | None => None
  | Some (fd, h) => construct o fd h
  end.

Definition move_assign_obj (o src : nat) (h : heap) : option heap :=
  if bool_decide (o = src) then (match objs h !! o with Some _ => Some h | None => None end)
  else
    match reset o h with
    | None => None
    | Some h =>
        match exchange src h with
        | None => None
        | Some (fd, h) => Some (set_fd o fd h)
        end
    end.

Definition release_obj (o : nat) (h : heap) : option (Z * heap) := exchange o h.

(** [~state]. *)
Definition destruct_obj (o : nat) (h : heap) : option heap :=
  match reset o h with
  | None => None
  | Some h => Some (mk_heap (delete o (objs h)) (open_fds h) (released h) (bad_close h))
  end.

(** What a program does with such objects.  A descriptor comes from the kernel
    (any number not in use, or a failure) or back from an earlier [release]. *)
Inductive action :=
  | Default (o : nat)
  | AdoptOpened (o : nat) (fd : Z)
  | AdoptFailed (o : nat)
  | AdoptReleased (o : nat) (fd : Z)
  | MoveConstruct (o src : nat)
  | MoveAssign (o src : nat)
  | Reset (o : nat)
  | Release (o : nat)
  | Destroy (o : nat).

(** [None]: the program uses an object that does not exist, or the kernel is
    asked for a descriptor that is in use. *)
Definition act (a : action) (h : heap) : option heap :=
  match a with
  | Default o => construct o invalid_handle h
  | AdoptOpened o fd =>
      if bool_decide (0 <= fd /\ fd ∉ open_fds h) then
        construct o fd (mk_heap (objs h) ({[fd]} ∪ open_fds h) (released h) (bad_close h))
      else None
  | AdoptFailed o => construct o (-1) h
  | AdoptReleased o fd =>
      if bool_decide (fd ∈ released h) then
        construct o fd (mk_heap (objs h) (open_fds h) (released h ∖ {[fd]}) (bad_close h))
      else None
  | MoveConstruct o src => move_construct o src h
  | MoveAssign o src => move_assign_obj o src h
  | Reset o => reset o h
  | Release o =>
      match release_obj o h with
      | None => None
      | Some (fd, h) =>
          Some (if 0 <=? fd then mk_heap (objs h) (open_fds h) ({[fd]} ∪ released h) (bad_close h) else h)
      end
  | Destroy o => destruct_obj o h
  end.

Fixpoint act_all (xs : list action) (h : heap) : option heap :=
  match xs with
  | [] => Some h
  | a :: xs' => match act a h with Some h' => act_all xs' h' | None => None end
  end.

(** ** Invariant *)

(** Every open descriptor has one owner: an object, or the caller of
    [release]; nothing else is owned. *)
Definition owner (h : heap) (o : nat) (fd : Z) : Prop := objs h !! o = Some fd /\ 0 <= fd.

Record heap_ok (h : heap) : Prop := {
  hk_closes : bad_close h = false;
  hk_unique o1 o2 fd : owner h o1 fd -> owner h o2 fd -> o1 = o2;
  hk_owned o fd : owner h o fd -> fd ∈ open_fds h /\ fd ∉ released h;
  hk_released fd : fd ∈ released h -> fd ∈ open_fds h /\ 0 <= fd;
  hk_open fd : fd ∈ open_fds h -> (exists o, owner h o fd) \/ fd ∈ released h
}.

Lemma new_heap_ok : heap_ok new_heap.
Proof. split; [done|..]; unfold owner; simpl; set_solver. Qed.

Lemma owner_set o fd h o' fd' :
  owner (set_fd o fd h) o' fd' <-> (o' = o /\ fd' = fd /\ 0 <= fd) \/ (o' <> o /\ owner h o' fd').
Proof.
  unfold owner. simpl. destruct (decide (o' = o)) as [->|Hne].
  - rewrite lookup_insert_eq. split; [intros [[= ->] ?]; by left|intros [(_ & -> & ?)|[? _]]; done].
  - rewrite lookup_insert_ne by done. split; [intros; by right|intros [[? _]|[_ ?]]; done].
Qed.

(** An object that owned nothing takes a descriptor that nobody owns. *)
Lemma take_ownership o fd h fds rel :
  heap_ok h -> (forall fd', ~ owner h o fd') ->
  (0 <= fd -> (forall o', ~ owner h o' fd) /\ fd ∈ fds /\ fd ∉ rel) ->
  (forall x, x ∈ fds <-> x ∈ open_fds h \/ x = fd /\ 0 <= fd) -> (forall x, x ∈ rel <-> x ∈ released h /\ x <> fd) ->
  (0 <= fd -> fd ∈ released h \/ fd ∉ open_fds h) -> (fd < 0 -> fd ∉ released h) ->
  heap_ok (mk_heap (<[o := fd]> (objs h)) fds rel (bad_close h)).
Proof.
  intros [H1 H2 H3 H4 H5] Hno Hfd Hfds Hrel Hsrc Hneg.
  assert (forall o' fd', owner (mk_heap (<[o := fd]> (objs h)) fds rel (bad_close h)) o' fd' <->
    (o' = o /\ fd' = fd /\ 0 <= fd) \/ (o' <> o /\ owner h o' fd')) as Ho by exact (owner_set o fd h).
  split; simpl; [done|..].
  - intros o1 o2 fd'. rewrite !Ho. intros [(-> & -> & Hp)|[Hn1 Ho1]] [(-> & E & _)|[Hn2 Ho2]]; [done| | |by eapply H2].
    + by destruct (proj1 (Hfd Hp) o2).
    + subst. destruct (proj1 (Hfd ltac:(by destruct Ho1)) o1). done.
  - intros o' fd'. rewrite Ho, Hfds, Hrel. intros [(-> & -> & Hp)|[_ Ho']]; [|destruct (H3 _ _ Ho'); tauto].
    destruct (Hfd Hp) as (_ & ? & ?). split; [by right|tauto].
  - intros x. rewrite Hfds, Hrel. intros [Hx _]. destruct (H4 x Hx). tauto.
  - intros x. rewrite Hfds, Hrel. intros [Hx|[-> Hp]]; [|left; exists o; apply Ho; tauto].
    destruct (decide (x = fd)) as [->|Hne].
    + destruct (decide (0 <= fd)); [left; exists o; apply Ho; tauto|].
      destruct (H5 _ Hx) as [[o' [_ ?]]|Hr]; [lia|]. destruct (H4 _ Hr). lia.
    + destruct (H5 _ Hx) as [[o' Ho']|Hr]; [|by right]. left. exists o'. apply Ho. right. split; [|done].
      intros ->. by apply (Hno x).
Qed.

Lemma reset_ok o h h' :
  heap_ok h -> reset o h = Some h' ->
  heap_ok h' /\ (forall fd, ~ owner h' o fd) /\ (forall o', is_Some (objs h' !! o') <-> is_Some (objs h !! o')).
Proof.
  intros Hh E. unfold reset in E. destruct (objs h !! o) as [fd|] eqn:Eo; [|done]. injection E as <-.
  branch.
  2: { split_and!; [done| |done]. intros fd' [E ?]. rewrite Eo in E. simplify_eq. lia. }
  pose proof Hh as [H1 H2 H3 H4 H5]. assert (owner h o fd) as Hown by by split.
  destruct (H3 _ _ Hown) as [Hopen Hnr].
  assert (forall o' fd', owner (set_fd o invalid_handle (sys_close_fd fd h)) o' fd' <-> o' <> o /\ owner h o' fd') as Ho.
  { intros o' fd'. rewrite owner_set. unfold owner, invalid_handle. simpl. split; [intros [(_ & _ & ?)|?]; [lia|done]|by right]. }
  split_and!.
  - split; simpl; [by rewrite H1, bool_decide_false by tauto|..].
    + intros o1 o2 fd'. rewrite !Ho. intros [_ ?] [_ ?]. by eapply H2.
    + intros o' fd'. rewrite Ho. intros [Hne Ho']. destruct (H3 _ _ Ho'). split; [|done]. apply elem_of_difference.
      split; [done|]. intros ->%elem_of_singleton. by apply Hne, (H2 o' o fd).
    + intros x Hx. destruct (H4 x Hx). split; [|done]. apply elem_of_difference. split; [done|]. by intros ->%elem_of_singleton.
    + intros x [Hx Hne]%elem_of_difference. destruct (H5 _ Hx) as [[o' Ho']|]; [|by right]. left. exists o'. apply Ho.
      split; [|done]. intros ->. apply Hne, elem_of_singleton. destruct Ho' as [E _]. congruence.
  - intros fd'. rewrite Ho. by intros [? _].
  - intros o'. simpl. destruct (decide (o' = o)) as [->|]; [rewrite lookup_insert_eq, Eo; split; by eexists|by rewrite lookup_insert_ne].
Qed.

(** A descriptor goes from one object to another that owned none. *)
Lemma transfer_ok o src fd h :
  heap_ok h -> o <> src -> objs h !! src = Some fd -> (forall fd', ~ owner h o fd') ->
  heap_ok (set_fd o fd (set_fd src invalid_handle h)).
Proof.
  intros [H1 H2 H3 H4 H5] Hne Es Hno.
  assert (forall o' fd', owner (set_fd o fd (set_fd src invalid_handle h)) o' fd' <->
    (o' = o /\ owner h src fd') \/ (o' <> o /\ o' <> src /\ owner h o' fd')) as Ho.
  { intros o' fd'. rewrite !owner_set. unfold invalid_handle. unfold owner. rewrite Es. split.
    - intros [(-> & -> & ?)|(? & [(_ & _ & ?)|?])]; [by left|lia|tauto].
    - intros [(-> & [= ->] & ?)|(? & ? & ?)]; [by left|tauto]. }
  split; simpl; [done|..].
  - intros o1 o2 fd'. rewrite !Ho. intros [(-> & A)|(? & N1 & A)] [(-> & B)|(? & N2 & B)]; [done| | |by eapply H2].
    + destruct N2. by eapply H2.
    + destruct N1. by eapply H2.
  - intros o' fd'. rewrite Ho. intros [(_ & A)|(_ & _ & A)]; by apply (H3 _ _ A).
  - exact H4.
  - intros x Hx. destruct (H5 _ Hx) as [[o' A]|]; [|by right]. left. destruct (decide (o' = src)) as [->|].
    + exists o. apply Ho. by left.
    + exists o'. apply Ho. right. split_and!; [|done|done]. intros ->. by apply (Hno x).
Qed.

Lemma construct_ok o fd h fds rel h' :
  heap_ok h -> construct o fd (mk_heap (objs h) fds rel (bad_close h)) = Some h' ->
  (0 <= fd -> (forall o', ~ owner h o' fd) /\ fd ∈ fds /\ fd ∉ rel) ->
  (forall x, x ∈ fds <-> x ∈ open_fds h \/ x = fd /\ 0 <= fd) -> (forall x, x ∈ rel <-> x ∈ released h /\ x <> fd) ->
  (0 <= fd -> fd ∈ released h \/ fd ∉ open_fds h) -> heap_ok h'.
Proof.
  intros Hh E Hfd Hfds Hrel Hsrc. unfold construct in E. simpl in E. destruct (objs h !! o) eqn:Eo; [done|]. injection E as <-.
  refine (take_ownership o fd h fds rel Hh _ Hfd Hfds Hrel Hsrc _).
  - intros fd' [E _]. congruence.
  - intros Hneg Hr. destruct (hk_released _ Hh _ Hr). lia.
Qed.

Lemma construct_invalid_ok o h h' : heap_ok h -> construct o invalid_handle h = Some h' -> heap_ok h'.
Proof.
  intros Hh E. destruct h as [ob fds rel bc]. refine (construct_ok o invalid_handle (mk_heap ob fds rel bc) fds rel h' Hh E _ _ _ _);
    unfold invalid_handle; simpl; try lia.
  - intros x. split; [by left|intros [|[_ ?]]; [done|lia]].
  - intros x. split; [|by intros [? _]]. intros Hx. split; [done|]. intros ->. destruct (hk_released _ Hh _ Hx). lia.
Qed.

(** [release] hands the descriptor to the caller. *)
Lemma release_ok o h h' : heap_ok h -> act (Release o) h = Some h' -> heap_ok h'.
Proof.
  intros Hh E. simpl in E.
  unfold release_obj, exchange in E. destruct (objs h !! o) as [fd|] eqn:Eo; [|done]. injection E as <-.
  pose proof Hh as [H1 H2 H3 H4 H5].
  assert (forall o' fd', owner (set_fd o invalid_handle h) o' fd' <-> o' <> o /\ owner h o' fd') as Ho.
  { intros o' fd'. rewrite owner_set. unfold invalid_handle. split; [intros [(_ & _ & ?)|?]; [lia|done]|by right]. }
  branch.
  + assert (owner h o fd) as Hown by done. destruct (H3 _ _ Hown). split; simpl; [done|..].
    * intros o1 o2 fd' A%Ho B%Ho. by eapply H2; [apply A|apply B].
    * intros o' fd' [Hne A]%Ho. destruct (H3 _ _ A). split; [done|]. intros [->%elem_of_singleton|]%elem_of_union; [|done].
      by apply Hne, (H2 o' o fd).
    * intros x [->%elem_of_singleton|Hx]%elem_of_union; [done|by apply H4].
    * intros x Hx. destruct (H5 _ Hx) as [[o' A]|]; [|right; set_solver]. destruct (decide (o' = o)) as [->|].
      { right. destruct A as [E _]. set_solver. }
      left. exists o'. by apply Ho.
  + split; simpl; [done|..|done|].
    * intros o1 o2 fd' A%Ho B%Ho. by eapply H2; [apply A|apply B].
    * intros o' fd' [_ A]%Ho. by apply (H3 o').
    * intros x Hx. destruct (H5 _ Hx) as [[o' A]|]; [|by right]. left. exists o'. apply Ho. split; [|done].
      intros ->. destruct A as [E ?]. simplify_eq. lia.
Qed.

Lemma destruct_ok o h h' : heap_ok h -> destruct_obj o h = Some h' -> heap_ok h'.
Proof.
  intros Hh E.
  unfold destruct_obj in E. destruct (reset o h) as [h1|] eqn:Er; [|done]. injection E as <-.
  destruct (reset_ok _ _ _ Hh Er) as ([H1 H2 H3 H4 H5] & Hno & _).
  assert (forall o' fd', owner (mk_heap (delete o (objs h1)) (open_fds h1) (released h1) (bad_close h1)) o' fd' <-> owner h1 o' fd') as Ho.
  { intros o' fd'. unfold owner. simpl. destruct (decide (o' = o)) as [->|]; [|by rewrite lookup_delete_ne].
    rewrite lookup_delete_eq. split; [by intros [? _]|]. intros A. by destruct (Hno fd'). }
  split; simpl; [done|..|done|].
  + intros o1 o2 fd' A%Ho B%Ho. by eapply H2.
  + intros o' fd' A%Ho. by apply (H3 o').
  + intros x Hx. destruct (H5 _ Hx) as [[o' A]|]; [|by right]. left. exists o'. by apply Ho.
Qed.

Lemma act_ok a h h' : heap_ok h -> act a h = Some h' -> heap_ok h'.
Proof.
  intros Hh E. destruct a as [o|o fd|o|o fd|o src|o src|o|o|o]; simpl in E.
  - by eapply construct_invalid_ok.
  - case_bool_decide as Hfd; [|done]. destruct Hfd as [Hp Hn]. eapply (construct_ok o fd h); [done|exact E|..].
    + intros _. split_and!; [|set_solver|].
      * intros o' Ho'. by destruct (hk_owned _ Hh _ _ Ho').
      * intros Hr. by destruct (hk_released _ Hh _ Hr).
    + set_solver.
    + intros x. split; [|by intros [? _]]. intros Hx. split; [done|]. intros ->. by destruct (hk_released _ Hh _ Hx).
    + by right.
  - by eapply construct_invalid_ok.
  - case_bool_decide as Hfd; [|done]. destruct (hk_released _ Hh _ Hfd) as [Ho Hp]. eapply (construct_ok o fd h); [done|exact E|..].
    + intros _. split_and!; [|done|set_solver]. intros o' Ho'. by destruct (hk_owned _ Hh _ _ Ho').
    + set_solver.
    + set_solver.
    + by left.
  - unfold move_construct, exchange in E. destruct (objs h !! src) as [fd|] eqn:Es; [|done].
    unfold construct in E. simpl in E. destruct (decide (o = src)) as [->|Hne]; [by rewrite lookup_insert_eq in E|].
    rewrite lookup_insert_ne in E by done. destruct (objs h !! o) eqn:Eo; [done|]. injection E as <-.
    apply transfer_ok; try done. intros fd' [E _]. congruence.
  - unfold move_assign_obj in E. case_bool_decide as Hne; [by destruct (objs h !! o); simplify_eq|].
    destruct (reset o h) as [h1|] eqn:Er; [|done]. destruct (reset_ok _ _ _ Hh Er) as (Hh1 & Hno & _).
    unfold exchange in E. destruct (objs h1 !! src) as [fd|] eqn:Es; [|done]. injection E as <-. by apply transfer_ok.
  - by apply (reset_ok o h).
  - by apply (release_ok o h).
  - by apply (destruct_ok o h).
Qed.

(** C34. Descriptors are closed once.  Whatever a program does with descriptor
    objects (constructing, moving, assigning, also to itself, resetting,
    releasing and destroying them, in any order), as long as it adopts only
    descriptors the kernel just opened or that were released: close(2) is never
    called on a descriptor that is not open, no descriptor has two owners, and
    none leaks: each open one is held by exactly one object or was released. *)
Theorem descriptors_owned_once xs h :
  act_all xs new_heap = Some h ->
  bad_close h = false /\
  (forall o1 o2 fd, 0 <= fd -> objs h !! o1 = Some fd -> objs h !! o2 = Some fd -> o1 = o2) /\
  (forall fd, 0 <= fd -> fd ∈ open_fds h <-> (exists o, objs h !! o = Some fd) \/ fd ∈ released h) /\
  (objs h = ∅ -> open_fds h = released h).
Proof.
  intros E. assert (heap_ok h) as Hh.
  { revert E. generalize new_heap_ok. generalize new_heap. induction xs as [|a xs IH]; intros h0 Hh0 E; simpl in E; [by simplify_eq|].
    destruct (act a h0) as [h1|] eqn:Ea; [|done]. eapply IH; [|exact E]. by eapply act_ok. }
  pose proof Hh as [H1 H2 H3 H4 H5]. split_and!; [done| | |].
  - intros o1 o2 fd Hp A B. by apply (H2 o1 o2 fd).
  - intros fd Hp. split.
    + intros Hx. destruct (H5 _ Hx) as [[o [A _]]|]; [left; by exists o|by right].
    + intros [[o A]|Hr]; [by apply (H3 o)|by apply H4].
  - intros Eo. apply set_eq. intros x. split; [|apply H4]. intros Hx. destruct (H5 _ Hx) as [[o [A _]]|]; [|done].
    by rewrite Eo, lookup_empty in A.
Qed.

Module examples.

(** A descriptor is opened and moved twice, assigned over another one and
    released; a second one is destroyed. *)
Definition program : list action :=
  [AdoptOpened 0 3; MoveConstruct 1 0; AdoptOpened 2 4; MoveAssign 2 1; MoveAssign 2 2; Destroy 0; AdoptOpened 0 4; Release 2;
   Destroy 1; Destroy 2; Destroy 0].
Definition final : heap := default new_heap (act_all program new_heap).

Lemma descriptors_owned_once_witness : bad_close final = false /\ open_fds final = {[3]}.
Proof.
  assert (act_all program new_heap = Some final) as E by by vm_compute.
  destruct (descriptors_owned_once program final E) as (Hb & _ & _ & Hl). split; [exact Hb|].
  rewrite Hl; by vm_compute.
Defined.

End examples.
