(* ===== verification/Standalone.v ===== *)
(** * The standalone backends

    core/impl/standalone/: the scaffolds that let the facades compile without
    an operating system.  The descriptor is a 64-bit handle with 0 as the
    invalid one, every socket operation reports "function not supported", the
    poller only has its wake channel, and the resolver knows literals. *)

From S2P Require Import Prelude Poller Net.
#[local] Open Scope Z_scope.

Module descriptor.

Definition invalid_handle := 0.
Definition adopt (h : Z) : Z := u64 h.
(** Move assignment: the new value of the target and of the source. *)
Definition move_assign (dst src : Z) : Z * Z := (src, invalid_handle).
Definition read (d : Z) (len : nat) : transfer := mk_transfer (-1) ENOSYS.
Definition write (d : Z) (b : bytes) : transfer := mk_transfer (-1) ENOSYS.
Definition close (d : Z) : Z := invalid_handle.
Definition valid (d : Z) : bool := negb (d =? invalid_handle).
Definition native (d : Z) : Z := d.
Definition release (d : Z) : Z * Z := (d, invalid_handle).

End descriptor.

Module socket_ops.

Definition unsupported := ENOSYS.
Definition open (d : domain) (t : transport) : Z * Z := (descriptor.invalid_handle, unsupported).
Definition set_nonblocking (s : Z) : Z := unsupported.
Definition set_reuse_addr (s : Z) : Z := unsupported.
Definition connect (s : Z) (a : socket_address) : Z := unsupported.
Definition bind (s : Z) (a : socket_address) : Z := unsupported.
Definition listen (s backlog : Z) : Z := unsupported.
Definition accept (s : Z) : Z * socket_address * Z := (descriptor.invalid_handle, no_address, unsupported).
Definition send (s : Z) (b : bytes) : transfer := mk_transfer (-1) unsupported.
Definition recv (s : Z) (len : nat) : transfer := mk_transfer (-1) unsupported.
Definition send_to (s : Z) (b : bytes) (a : socket_address) : transfer := mk_transfer (-1) unsupported.
Definition recv_from (s : Z) (len : nat) : received := mk_received (-1) no_address unsupported [].
Definition shutdown (s : Z) (how : shut) : Z := unsupported.
Definition local_endpoint (s : Z) : socket_address := no_address.
Definition pending_error (s : Z) : Z := unsupported.
Definition describe {K} `{Kernel K} (e : Z) (prefix : bytes) : bytes := prefix ++ str ": " ++ generic_message e.

End socket_ops.

Module poller.

(** [state]: the wake flag and the interests. *)
Record state := mk_state { poked : bool; fds : gmap Z Z }.

Definition new_state : state := mk_state false ∅.
Definition interrupt (p : state) : state := mk_state true (fds p).
Definition add (p : state) (h i : Z) : state := interrupt (mk_state (poked p) (<[h := i]> (fds p))).
Definition update (p : state) (h i : Z) : state :=
  interrupt (match fds p !! h with
             | Some _ => mk_state (poked p) (<[h := i]> (fds p))
             | None => p
             end).
Definition drop_ (p : state) (h : Z) : state := interrupt (mk_state (poked p) (delete h (fds p))).

(** [wait] returns when poked or, with a timeout, when that elapsed ([None]:
    it is still blocked); [elapsed] says whether it did. *)
Definition wait (p : state) (out : list event) (timeout : option Z) (elapsed : bool) : option (Z * list event * state) :=
  if poked p || match timeout with Some _ => elapsed | None => false end then Some (0, [], mk_state false (fds p))
  else None.

End poller.

Module resolver.

Definition find_colon (host : bytes) : bool := existsb (fun c => byte_val c =? 58) host.

Definition resolve (host : bytes) (p : Z) (is_datagram : bool) : list socket_address :=
  let v6 := find_colon host in
  let text :=
    if bool_decide (host = str "localhost") then str "127.0.0.1"
    else if bool_decide (host = []) || bool_decide (host = str "0.0.0.0") then str "0.0.0.0"
    else host in
  [mk_address text p (if v6 then AF_INET6 else AF_INET)].

End resolver.

(** ** Agreement with the contract of the facades *)

(** The wake channel: every change of the watch set makes the next [wait]
    return, also one without a timeout, and [wait] consumes the wake-up. *)
Theorem standalone_no_lost_wakeup p h i out timeout :
  (forall p', p' = poller.add p h i \/ p' = poller.update p h i \/ p' = poller.drop_ p h \/ p' = poller.interrupt p ->
     exists p'', poller.wait p' out timeout false = Some (0, [], p'') /\ poller.poked p'' = false /\
       poller.fds p'' = poller.fds p') /\
  (poller.poked p = false -> poller.wait p out None false = None).
Proof.
  split.
  - intros p' Hp'. unfold poller.wait. assert (poller.poked p' = true) as -> by naive_solver. by eexists.
  - intros Hp. unfold poller.wait. by rewrite Hp.
Qed.

(** No socket can be opened, so the clients of the facade see an error on
    every path and never a descriptor. *)
Theorem standalone_never_opens d t :
  let '(h, e) := socket_ops.open d t in
  descriptor.valid h = false /\ e <> errc_ok /\ would_block e = false /\ e <> EINTR.
Proof. by vm_compute. Qed.

(** Names resolve to exactly one address, whose family is decided by a colon
    and which keeps the port. *)
Theorem standalone_resolve_one host p dg :
  exists a, resolver.resolve host p dg = [a] /\ port a = p /\
    (is_inet6 a = true <-> exists c, c ∈ host /\ byte_val c = 58).
Proof.
  eexists. split; [done|]. split; [done|]. unfold is_inet6. simpl. unfold resolver.find_colon.
  destruct (existsb _ host) eqn:E; simpl; (split; [|intros Hc]); try done.
  - intros _. apply existsb_exists in E as (c & Hin & Hc). exists c. split; [by apply list_elem_of_In|lia].
  - destruct Hc as (c & Hin & Hc). assert (existsb (fun c => byte_val c =? 58) host = true); [|congruence].
    apply existsb_exists. exists c. split; [by apply list_elem_of_In|lia].
Qed.
