(* ===== verification/Facade.v ===== *)
(** * The facades of core/ and the selection of a backend

    core/config.hpp chooses one of two backends by preprocessor conditions;
    core/descriptor.hpp, core/socket_ops.hpp, core/resolver.hpp and
    core/poller.hpp forward each operation to the chosen one and state, by
    static assertions, what a backend has to provide.  The POSIX backends are
    those of [Net] and [Poller], the other ones those of [Standalone].  What
    clients of a poller may rely on is stated as an abstract poller, which both
    backends implement. *)

From stdpp Require Import sorting.
From S2P Require Import Prelude Poller Net Standalone.
#[local] Open Scope Z_scope.

(** ** core/config.hpp *)

Inductive backend := posix | standalone.

#[export] Instance backend_eq_dec : EqDecision backend.
Proof. solve_decision. Defined.

(** A macro before the header: not defined, or with the value of its
    expansion; [defined(M) && (M + 0)]. *)
Definition requested (m : option Z) : bool := match m with Some v => negb (v =? 0) | None => false end.

(** The values the header gives to LNW_NET_BACKEND_POSIX and
    LNW_NET_BACKEND_STANDALONE. *)
Definition config (standalone_macro posix_macro : option Z) (unix apple linux : bool) : Z * Z :=
  if requested standalone_macro then (0, 1)
  else if requested posix_macro then (1, 0)
  else if unix || apple || linux then (1, 0)
  else (0, 1).

(** The [#if] ... [#elif] of the facades: an alias for one of the two
    namespaces, or none. *)
Definition selected (macros : Z * Z) : option backend :=
  if negb (macros.1 =? 0) then Some posix
  else if negb (macros.2 =? 0) then Some standalone
  else None.

(** Configuration.  Whatever is defined on the command line and whatever
    the platform, exactly one of the two macros is 1 and the other 0, so every
    facade has a backend; a request for the standalone backend prevails over
    everything else, and without any request Unix gets the POSIX one.  A
    request spelled as zero does not count: POSIX=0 on Unix selects POSIX. *)
Theorem config_selects_one sm pm unix apple linux :
  (config sm pm unix apple linux = (1, 0) \/ config sm pm unix apple linux = (0, 1)) /\
  exists b, selected (config sm pm unix apple linux) = Some b /\
    (b = standalone <->
     requested sm = true \/ requested pm = false /\ unix = false /\ apple = false /\ linux = false).
Proof.
  unfold config. destruct (requested sm), (requested pm), unix, apple, linux; simpl;
    (split; [auto|]); eexists; (split; [reflexivity|]); intuition congruence.
Qed.

(** ** core/descriptor.hpp

    What the static assertions ask of a backend, together with the operations
    the facades forward without asking for them, is a record of operations;
    each backend namespace is one such record and a facade forwards to the
    selected one. *)

Record descriptor_ops (K : Type) := mk_descriptor_ops {
  do_invalid : Z;
  do_adopt : Z -> Z;
  do_read : Z -> nat -> K -> transfer * bytes * K;
  do_write : Z -> bytes -> K -> transfer * K;
  do_close : Z -> K -> Z * K;
  do_valid : Z -> bool;
  do_native : Z -> Z;
  do_release : Z -> Z * Z
}.
Arguments mk_descriptor_ops {K}.
Arguments do_invalid {K}. Arguments do_adopt {K}. Arguments do_read {K}. Arguments do_write {K}.
Arguments do_close {K}. Arguments do_valid {K}. Arguments do_native {K}. Arguments do_release {K}.

Module descriptor_facade.
Section facade.
Context {K : Type} `{Kernel K}.

Definition posix_ops : descriptor_ops K :=
  mk_descriptor_ops Net.invalid_handle (fun h => h) Net.read Net.write Net.close Net.valid (fun d => d) Net.release.

Definition standalone_ops : descriptor_ops K :=
  mk_descriptor_ops descriptor.invalid_handle descriptor.adopt
    (fun d len k => (descriptor.read d len, [], k)) (fun d bs k => (descriptor.write d bs, k))
    (fun d k => (descriptor.close d, k)) descriptor.valid descriptor.native descriptor.release.

Variable b : backend.
Definition ops : descriptor_ops K := match b with posix => posix_ops | standalone => standalone_ops end.

Definition invalid_handle : Z := do_invalid ops.
Definition adopt (h : Z) : Z := do_adopt ops h.
Definition read (d : Z) (len : nat) (k : K) : transfer * bytes * K := do_read ops d len k.
Definition write (d : Z) (bs : bytes) (k : K) : transfer * K := do_write ops d bs k.
Definition close (d : Z) (k : K) : Z * K := do_close ops d k.
Definition valid (d : Z) : bool := do_valid ops d.
Definition native (d : Z) : Z := do_native ops d.
Definition release (d : Z) : Z * Z := do_release ops d.

End facade.
End descriptor_facade.

(** ** core/socket_ops.hpp *)

Record socket_ops_of (K : Type) := mk_socket_ops {
  so_open : domain -> transport -> K -> Z * Z * K;
  so_set_nonblocking : Z -> K -> Z * K;
  so_set_reuse_addr : Z -> K -> Z * K;
  so_connect : Z -> socket_address -> K -> Z * K;
  so_bind : Z -> socket_address -> K -> Z * K;
  so_listen : Z -> Z -> K -> Z * K;
  so_accept : Z -> K -> Z * socket_address * Z * K;
  so_send : Z -> bytes -> K -> transfer * K;
  so_recv : Z -> nat -> K -> transfer * bytes * K;
  so_send_to : Z -> bytes -> socket_address -> K -> transfer * K;
  so_recv_from : Z -> nat -> K -> received * K;
  so_shutdown : Z -> shut -> K -> Z * K;
  so_local_endpoint : Z -> K -> socket_address * K;
  so_pending_error : Z -> K -> Z * K;
  so_describe : Z -> bytes -> bytes
}.
Arguments mk_socket_ops {K}.
Arguments so_open {K}. Arguments so_set_nonblocking {K}. Arguments so_set_reuse_addr {K}. Arguments so_connect {K}.
Arguments so_bind {K}. Arguments so_listen {K}. Arguments so_accept {K}. Arguments so_send {K}. Arguments so_recv {K}.
Arguments so_send_to {K}. Arguments so_recv_from {K}. Arguments so_shutdown {K}. Arguments so_local_endpoint {K}.
Arguments so_pending_error {K}. Arguments so_describe {K}.

Module socket_facade.
Section facade.
Context {K : Type} `{Kernel K}.

Definition posix_ops : socket_ops_of K :=
  mk_socket_ops Net.open Net.set_nonblocking Net.set_reuse_addr Net.connect Net.bind Net.listen Net.accept Net.send
    Net.recv Net.send_to Net.recv_from Net.shutdown Net.local_endpoint Net.pending_error (Net.describe (K := K)).

(** None of the scaffolds touches the kernel. *)
Definition standalone_ops : socket_ops_of K :=
  mk_socket_ops (fun d t k => (socket_ops.open d t, k)) (fun s k => (socket_ops.set_nonblocking s, k))
    (fun s k => (socket_ops.set_reuse_addr s, k)) (fun s a k => (socket_ops.connect s a, k))
    (fun s a k => (socket_ops.bind s a, k)) (fun s n k => (socket_ops.listen s n, k))
    (fun s k => (socket_ops.accept s, k)) (fun s bs k => (socket_ops.send s bs, k))
    (fun s len k => (socket_ops.recv s len, [], k)) (fun s bs a k => (socket_ops.send_to s bs a, k))
    (fun s len k => (socket_ops.recv_from s len, k)) (fun s how k => (socket_ops.shutdown s how, k))
    (fun s k => (socket_ops.local_endpoint s, k)) (fun s k => (socket_ops.pending_error s, k))
    (socket_ops.describe (K := K)).

Variable b : backend.
Definition ops : socket_ops_of K := match b with posix => posix_ops | standalone => standalone_ops end.

Definition open (d : domain) (t : transport) (k : K) : Z * Z * K := so_open ops d t k.
Definition set_nonblocking (s : Z) (k : K) : Z * K := so_set_nonblocking ops s k.
Definition set_reuse_addr (s : Z) (k : K) : Z * K := so_set_reuse_addr ops s k.
Definition connect (s : Z) (a : socket_address) (k : K) : Z * K := so_connect ops s a k.
Definition bind (s : Z) (a : socket_address) (k : K) : Z * K := so_bind ops s a k.
Definition listen (s backlog : Z) (k : K) : Z * K := so_listen ops s backlog k.
Definition accept (s : Z) (k : K) : Z * socket_address * Z * K := so_accept ops s k.
Definition send (s : Z) (bs : bytes) (k : K) : transfer * K := so_send ops s bs k.
Definition recv (s : Z) (len : nat) (k : K) : transfer * bytes * K := so_recv ops s len k.
Definition send_to (s : Z) (bs : bytes) (a : socket_address) (k : K) : transfer * K := so_send_to ops s bs a k.
Definition recv_from (s : Z) (len : nat) (k : K) : received * K := so_recv_from ops s len k.
Definition shutdown (s : Z) (how : shut) (k : K) : Z * K := so_shutdown ops s how k.
Definition local_endpoint (s : Z) (k : K) : socket_address * K := so_local_endpoint ops s k.
Definition pending_error (s : Z) (k : K) : Z * K := so_pending_error ops s k.
Definition describe (e : Z) (prefix : bytes) : bytes := so_describe ops e prefix.

End facade.
End socket_facade.

(** ** core/resolver.hpp *)

Module resolver_facade.

Record resolver_ops (K : Type) := mk_resolver_ops {
  ro_resolve : bytes -> Z -> bool -> K -> list socket_address * K
}.
Arguments mk_resolver_ops {K}.
Arguments ro_resolve {K}.

Section facade.
Context {K : Type} `{Kernel K}.
Variable b : backend.

Definition ops : resolver_ops K :=
  match b with
  | posix => mk_resolver_ops Net.resolve
  | standalone => mk_resolver_ops (fun host p datagram k => (resolver.resolve host p datagram, k))
  end.

Definition resolve (host : bytes) (p : Z) (datagram : bool) (k : K) : list socket_address * K :=
  ro_resolve ops host p datagram k.

Definition resolve_one (host : bytes) (p : Z) (datagram : bool) (k : K) : option socket_address * K :=
  let '(all, k) := resolve host p datagram k in
  match all with
  | [] => (None, k)
  | a :: _ => (Some a, k)
  end.

End facade.
End resolver_facade.

(** ** core/poller.hpp *)

(** The operations a backend provides (the static assertion of the header);
    [X] is what the environment answers to [wait], which returns [None] while
    it is blocked. *)
Class PollerBackend (P X : Type) := {
  pb_new : P;
  pb_add : P -> Z -> Z -> P;
  pb_update : P -> Z -> Z -> P;
  pb_drop : P -> Z -> P;
  pb_interrupt : P -> P;
  pb_wait : P -> list event -> X -> option (Z * list event * P)
}.

#[export] Instance posix_poller : PollerBackend Poller.poller poll_result := {|
  pb_new := new_poller;
  pb_add := Poller.add;
  pb_update := Poller.update;
  pb_drop := Poller.drop_;
  pb_interrupt := Poller.interrupt;
  pb_wait p out res := Some (Poller.wait p out res)
|}.

(** The answer: the timeout given, and whether it elapsed. *)
#[export] Instance standalone_poller : PollerBackend poller.state (option Z * bool) := {|
  pb_new := poller.new_state;
  pb_add := poller.add;
  pb_update := poller.update;
  pb_drop := poller.drop_;
  pb_interrupt := poller.interrupt;
  pb_wait p out x := poller.wait p out x.1 x.2
|}.

(** *** The abstract poller *)

(** Who is interested in what, and whether a wake-up is pending. *)
Record spec := mk_spec { interests : gmap Z Z; pending : bool }.

Definition spec_add (s : spec) (h i : Z) : spec := mk_spec (<[h := i]> (interests s)) true.
Definition spec_update (s : spec) (h i : Z) : spec :=
  mk_spec (match interests s !! h with Some _ => <[h := i]> (interests s) | None => interests s end) true.
Definition spec_drop (s : spec) (h : Z) : spec := mk_spec (delete h (interests s)) true.
Definition spec_interrupt (s : spec) : spec := mk_spec (interests s) true.

(** What holds of a handle, whoever asks: input, room for output, an error, a
    hang-up, not an open descriptor. *)
Record conditions := mk_conditions { c_in : bool; c_out : bool; c_err : bool; c_hup : bool; c_nval : bool }.

(** What surrounds a wait: the condition of every handle, whether its timeout
    elapsed, and whether it is made to fail, by a signal ([true]) or else. *)
Record environment := mk_environment { condition : Z -> conditions; elapsed : bool; fault : option bool }.

(** What a watcher interested in [i] is to be told: input and output if it
    asked for them, the other conditions always. *)
Definition visible (i : Z) (c : conditions) : ready :=
  mk_ready (c_in c && has i interest.read) (c_out c && has i interest.write) (c_err c) (c_hup c).
Definition due (i : Z) (c : conditions) : bool :=
  (c_in c && has i interest.read) || (c_out c && has i interest.write) || c_err c || c_hup c || c_nval c.

(** [wait] reports each watched handle that has something to report, exactly
    once, with what it is to be told and nothing else, in ascending order; it
    says how many there are, consumes the wake-up, leaves the interests alone,
    and returns only for a reason.  If it fails it says 0 after a signal and -1
    otherwise, and leaves everything as it was, the caller's vector included. *)
Inductive spec_wait (en : environment) (s : spec) (out : list event) : Z -> list event -> spec -> Prop :=
  | spec_wait_reports out' :
      fault en = None ->
      (forall h r, mk_event h r ∈ out' <->
         exists i, interests s !! h = Some i /\ due i (condition en h) = true /\ r = visible i (condition en h)) ->
      StronglySorted Z.lt (handle <$> out') ->
      (pending s = true \/ out' <> [] \/ elapsed en = true) ->
      spec_wait en s out (Z.of_nat (length out')) out' (mk_spec (interests s) false)
  | spec_wait_fails eintr :
      fault en = Some eintr -> spec_wait en s out (if eintr then 0 else -1) out s.

(** Calls on a poller, the vector [out] being the caller's. *)
Inductive poller_call (X : Type) :=
  | CAdd (h i : Z)
  | CUpdate (h i : Z)
  | CDrop (h : Z)
  | CInterrupt
  | CWait (en : environment) (x : X).
Arguments CAdd {X}.
Arguments CUpdate {X}.
Arguments CDrop {X}.
Arguments CInterrupt {X}.
Arguments CWait {X}.

Section calls.
Context {P X : Type} `{PollerBackend P X}.

(** The results of the waits, in order, and the poller after the calls;
    [None] if a wait stays blocked. *)
Fixpoint run_calls (cs : list (poller_call X)) (p : P) (out : list event) : option (list (Z * list event) * P) :=
  match cs with
  | [] => Some ([], p)
  | CAdd h i :: cs' => run_calls cs' (pb_add p h i) out
  | CUpdate h i :: cs' => run_calls cs' (pb_update p h i) out
  | CDrop h :: cs' => run_calls cs' (pb_drop p h) out
  | CInterrupt :: cs' => run_calls cs' (pb_interrupt p) out
  | CWait _ x :: cs' =>
      match pb_wait p out x with
      | Some (n, out, p) =>
          match run_calls cs' p out with
          | Some (rs, p') => Some ((n, out) :: rs, p')
          | None => None
          end
      | None => None
      end
  end.

(** The abstract poller makes the same calls with the same results. *)
Inductive spec_run : list (poller_call X) -> spec -> list event -> list (Z * list event) -> spec -> Prop :=
  | spec_run_nil s out : spec_run [] s out [] s
  | spec_run_add h i cs s out rs s' : spec_run cs (spec_add s h i) out rs s' -> spec_run (CAdd h i :: cs) s out rs s'
  | spec_run_update h i cs s out rs s' : spec_run cs (spec_update s h i) out rs s' -> spec_run (CUpdate h i :: cs) s out rs s'
  | spec_run_drop h cs s out rs s' : spec_run cs (spec_drop s h) out rs s' -> spec_run (CDrop h :: cs) s out rs s'
  | spec_run_interrupt cs s out rs s' : spec_run cs (spec_interrupt s) out rs s' -> spec_run (CInterrupt :: cs) s out rs s'
  | spec_run_wait en x cs s out n out1 s1 rs s' :
      spec_wait en s out n out1 s1 -> spec_run cs s1 out1 rs s' -> spec_run (CWait en x :: cs) s out ((n, out1) :: rs) s'.

End calls.

(** What a backend owes: a relation to the abstract poller that its
    operations keep, as long as the environment answers as documented. *)
Class PollerLaws (P X : Type) `{PollerBackend P X} := {
  represents : spec -> P -> Prop;
  honest : P -> environment -> X -> Prop;
  represents_new : represents (mk_spec ∅ false) pb_new;
  represents_add s p h i : represents s p -> represents (spec_add s h i) (pb_add p h i);
  represents_update s p h i : represents s p -> represents (spec_update s h i) (pb_update p h i);
  represents_drop s p h : represents s p -> represents (spec_drop s h) (pb_drop p h);
  represents_interrupt s p : represents s p -> represents (spec_interrupt s) (pb_interrupt p);
  represents_wait s p out en x n out' p' :
    represents s p -> honest p en x -> pb_wait p out x = Some (n, out', p') ->
    exists s', spec_wait en s out n out' s' /\ represents s' p'
}.

(** *** The two implementations *)

#[local] Obligation Tactic := idtac.

Definition bit (set b : Z) : bool := negb (Z.land set b =? 0).

Lemma to_poll_mask_in i : bit (to_poll_mask i) POLLIN = has i interest.read.
Proof. unfold to_poll_mask. by destruct (has i interest.read), (has i interest.write). Qed.

Lemma to_poll_mask_out i : bit (to_poll_mask i) POLLOUT = has i interest.write.
Proof. unfold to_poll_mask. by destruct (has i interest.read), (has i interest.write). Qed.

(** The map of poll(2) masks is the map of interests, translated; the eventfd
    counter is positive exactly while a wake-up is pending. *)
Definition posix_represents (s : spec) (p : Poller.poller) : Prop :=
  Poller.fds p = to_poll_mask <$> interests s /\ 0 <= wake p /\ pending s = (0 <? wake p).

(** poll(2) as documented.  It may fail, with EINTR or another error.  If not,
    input on the eventfd is reported exactly when its counter is positive; of
    each polled descriptor POLLIN and POLLOUT are reported exactly when they
    hold and were asked for, POLLERR and POLLHUP exactly when they hold, and
    [revents] is zero exactly when none of these and not POLLNVAL is to be
    reported; and with nothing to report it returns only when the timeout
    elapsed.  There are fewer descriptors than an int can count. *)
Definition revents_ok (mask : Z) (c : conditions) (re : Z) : Prop :=
  bit re POLLIN = c_in c && bit mask POLLIN /\ bit re POLLOUT = c_out c && bit mask POLLOUT /\
  bit re POLLERR = c_err c /\ bit re POLLHUP = c_hup c /\
  (re =? 0) = negb ((c_in c && bit mask POLLIN) || (c_out c && bit mask POLLOUT) || c_err c || c_hup c || c_nval c).

Definition posix_honest (p : Poller.poller) (en : environment) (res : poll_result) : Prop :=
  match res with
  | PollFailed eintr => fault en = Some eintr
  | PollReady wake_re revents =>
      fault en = None /\ bit wake_re POLLIN = (0 <? wake p) /\
      map_Forall (fun fd mask => revents_ok mask (condition en fd) (revents fd)) (Poller.fds p) /\
      (0 < wake p \/ (exists fd mask, Poller.fds p !! fd = Some mask /\ revents fd <> 0) \/ elapsed en = true) /\
      Z.of_nat (size (Poller.fds p)) < 2 ^ 31
  end.

Lemma poke_represents s p p' :
  0 <= wake p -> wake p' = wake p -> Poller.fds p' = to_poll_mask <$> interests s -> pending s = true ->
  posix_represents s (poke p').
Proof.
  intros Hw Hp Hf Hs. split_and!; [done|by apply poke_nonneg; rewrite Hp|].
  pose proof (poke_wakes p' ltac:(by rewrite Hp)). rewrite Hs. lia.
Qed.

Lemma filter_handles_sorted (f : Z * Z -> Prop) `{!forall x, Decision (f x)} (l : list (Z * Z)) :
  StronglySorted fd_le l -> NoDup l.*1 -> StronglySorted Z.lt (filter f l).*1.
Proof.
  induction 1 as [|x l Hs IH Hx]; intros Hnd; simpl in *; [constructor|].
  apply NoDup_cons in Hnd as [Hnx Hnd]. rewrite filter_cons. destruct (decide (f x)); [|by apply IH].
  simpl. constructor; [by apply IH|]. apply Forall_forall. intros z (y & -> & [_ Hy]%list_elem_of_filter)%list_elem_of_fmap.
  rewrite Forall_forall in Hx. specialize (Hx y Hy). unfold fd_le in Hx.
  assert (x.1 <> y.1); [|lia]. intros E. apply Hnx. rewrite E. by apply list_elem_of_fmap_2.
Qed.

Lemma collect_length es revents : (length (collect es revents) <= length es)%nat.
Proof.
  rewrite <- (length_fmap handle), collect_handles, length_fmap. apply length_filter.
Qed.

Lemma collect_reports s p en revents h r :
  Poller.fds p = to_poll_mask <$> interests s ->
  map_Forall (fun fd mask => revents_ok mask (condition en fd) (revents fd)) (Poller.fds p) ->
  mk_event h r ∈ collect (entries p) revents <->
  exists i, interests s !! h = Some i /\ due i (condition en h) = true /\ r = visible i (condition en h).
Proof.
  intros Hf Hre. rewrite collect_elem. simpl. setoid_rewrite entries_elem. split.
  - intros (mask & Hin & Hne & ->). destruct (Hre _ _ Hin) as (Hi & Ho & He & Hh & Hz). rewrite Hf, lookup_fmap in Hin.
    destruct (interests s !! h) as [i|] eqn:Ei; simpl in Hin; [|done]. injection Hin as <-.
    rewrite to_poll_mask_in in Hi, Hz. rewrite to_poll_mask_out in Ho, Hz. exists i. unfold bit in *. split_and!; [done| |].
    + apply Z.eqb_neq in Hne. rewrite Hne in Hz. symmetry in Hz. by apply negb_false_iff in Hz.
    + unfold mk_ready_of, visible. by rewrite Hi, Ho, He, Hh.
  - intros (i & Ei & Hdue & ->). assert (Poller.fds p !! h = Some (to_poll_mask i)) as Hin by by rewrite Hf, lookup_fmap, Ei.
    destruct (Hre _ _ Hin) as (Hi & Ho & He & Hh & Hz). exists (to_poll_mask i).
    rewrite to_poll_mask_in in Hi, Hz. rewrite to_poll_mask_out in Ho, Hz. unfold bit in *. split_and!; [done| |].
    + apply Z.eqb_neq. rewrite Hz. by apply negb_false_iff.
    + unfold mk_ready_of, visible. by rewrite Hi, Ho, He, Hh.
Qed.

Lemma posix_wait_spec s p out en x n out' p' :
  posix_represents s p -> posix_honest p en x -> Poller.wait p out x = (n, out', p') ->
  exists s', spec_wait en s out n out' s' /\ posix_represents s' p'.
Proof.
  intros (Hf & Hw & Hp) Hx E. destruct x as [e|wake_re revents].
  { injection E as <- <- <-. exists s. by split; [constructor|]. }
  destruct Hx as (Hfault & Hwake & Hre & Hwhy & Hsize).
  injection E as <- <- <-. exists (mk_spec (interests s) false). split.
  - pose proof (collect_length (entries p) revents) as Hl. rewrite length_entries in Hl.
    unfold to_int. rewrite Z.mod_small by lia. replace (_ + _ - _) with (Z.of_nat (length (collect (entries p) revents))) by lia.
    apply spec_wait_reports; [done| | |].
    + intros h r. by apply collect_reports.
    + rewrite collect_handles. apply filter_handles_sorted; [apply entries_sorted|apply entries_NoDup].
    + destruct Hwhy as [Hlt|[(fd & mask & Hin & Hne)|He]]; [left|right; left|by right; right].
      * rewrite Hp. lia.
      * intros En. apply (not_elem_of_nil (mk_event fd (mk_ready_of (revents fd)))). rewrite <- En.
        apply collect_elem. exists mask. by rewrite entries_elem.
  - unfold bit in Hwake. rewrite Hwake. destruct (Z.ltb_spec 0 (wake p)); simpl; [done|]. split_and!; [done|done|simpl; lia].
Qed.

#[export] Program Instance posix_poller_laws : PollerLaws Poller.poller poll_result := {|
  represents := posix_represents;
  honest := posix_honest
|}.
Next Obligation. split_and!; [simpl; by rewrite fmap_empty|done|done]. Qed.
Next Obligation.
  intros s p h i (Hf & Hw & _). apply (poke_represents _ p); [done|done| |done]. simpl. by rewrite Hf, fmap_insert.
Qed.
Next Obligation.
  intros s p h i (Hf & Hw & _). unfold pb_update. simpl. unfold update, set_if_present, spec_update.
  apply (poke_represents _ p); [done|by destruct (Poller.fds p !! h)| |done].
  rewrite Hf, lookup_fmap. simpl. destruct (interests s !! h); simpl; [|done]. by rewrite ?Hf, fmap_insert.
Qed.
Next Obligation.
  intros s p h (Hf & Hw & _). apply (poke_represents _ p); [done|done| |done]. simpl. by rewrite Hf, fmap_delete.
Qed.
Next Obligation. intros s p (Hf & Hw & _). by apply (poke_represents _ p). Qed.
Next Obligation. intros s p out en x n out' p' Hs Hx [= E]. by eapply posix_wait_spec. Qed.

Definition standalone_represents (s : spec) (p : poller.state) : Prop :=
  poller.fds p = interests s /\ poller.poked p = pending s.

(** The scaffold has no source of readiness and nothing to fail: it implements
    the abstract poller in an environment where nothing is to be reported of
    the watched handles. *)
Definition standalone_honest (p : poller.state) (en : environment) (x : option Z * bool) : Prop :=
  fault en = None /\ elapsed en = x.2 /\ map_Forall (fun h i => due i (condition en h) = false) (poller.fds p).

#[export] Program Instance standalone_poller_laws : PollerLaws poller.state (option Z * bool) := {|
  represents := standalone_represents;
  honest := standalone_honest
|}.
Next Obligation. done. Qed.
Next Obligation. intros s p h i [Hf Hp]. split; [|done]. simpl. by rewrite Hf. Qed.
Next Obligation.
  intros s p h i [Hf Hp]. split; [|done]. simpl. rewrite Hf. by destruct (interests s !! h).
Qed.
Next Obligation. intros s p h [Hf Hp]. split; [|done]. simpl. by rewrite Hf. Qed.
Next Obligation. intros s p [Hf Hp]. by split. Qed.
Next Obligation.
  intros s p out en [timeout elapsed] n out' p' [Hf Hp] (Hfault & He & Hq). simpl in *. unfold poller.wait.
  destruct (poller.poked p || _) eqn:Ew; [|done]. intros [= <- <- <-]. exists (mk_spec (interests s) false).
  split; [|by split]. apply (spec_wait_reports en s out []); [done| |constructor|].
  - intros h r. split; [by intros ?%not_elem_of_nil|]. intros (i & Hi & Hdue & _). rewrite <- Hf in Hi.
    apply Hq in Hi. congruence.
  - rewrite <- Hp, He. apply orb_true_iff in Ew as [Ew|Ew]; [by left|right; right]. by destruct timeout.
Qed.

(** *** Refinement *)

Section refinement.
Context {P X : Type} `{PollerLaws P X}.

(** The environment answers honestly in every wait of a run. *)
Fixpoint honest_run (cs : list (poller_call X)) (p : P) (out : list event) : Prop :=
  match cs with
  | [] => True
  | CAdd h i :: cs' => honest_run cs' (pb_add p h i) out
  | CUpdate h i :: cs' => honest_run cs' (pb_update p h i) out
  | CDrop h :: cs' => honest_run cs' (pb_drop p h) out
  | CInterrupt :: cs' => honest_run cs' (pb_interrupt p) out
  | CWait en x :: cs' =>
      honest p en x /\
      match pb_wait p out x with
      | Some (_, out, p) => honest_run cs' p out
      | None => True
      end
  end.

Lemma run_calls_refines cs : forall s p out rs p',
  represents s p -> honest_run cs p out -> run_calls cs p out = Some (rs, p') ->
  exists s', spec_run cs s out rs s' /\ represents s' p'.
Proof.
  induction cs as [|[h i|h i|h| |en x] cs IH]; simpl; intros s p out rs p' Hs Hh E.
  - injection E as <- <-. exists s. split; [constructor|done].
  - destruct (IH _ _ _ _ _ (represents_add s p h i Hs) Hh E) as (s' & ? & ?). exists s'. split; [by constructor|done].
  - destruct (IH _ _ _ _ _ (represents_update s p h i Hs) Hh E) as (s' & ? & ?). exists s'. split; [by constructor|done].
  - destruct (IH _ _ _ _ _ (represents_drop s p h Hs) Hh E) as (s' & ? & ?). exists s'. split; [by constructor|done].
  - destruct (IH _ _ _ _ _ (represents_interrupt s p Hs) Hh E) as (s' & ? & ?). exists s'. split; [by constructor|done].
  - destruct Hh as [Hx Hh]. destruct (pb_wait p out x) as [[[n out1] p1]|] eqn:Ew; [|done].
    destruct (run_calls cs p1 out1) as [[rs1 p2]|] eqn:Er; [|done]. injection E as <- <-.
    destruct (represents_wait _ _ _ _ _ _ _ _ Hs Hx Ew) as (s1 & Hw & Hs1).
    destruct (IH _ _ _ _ _ Hs1 Hh Er) as (s' & ? & ?). exists s'. split; [by econstructor|done].
Qed.

End refinement.

(** C29. Both pollers implement the abstract one.  Start from a new poller and
    make any sequence of calls.  With the poll(2) backend, whatever poll(2)
    answers within its documentation, failures and interruptions included, each
    wait reports exactly the watched handles that have something to report,
    each once and in ascending order, with the conditions asked for, consumes
    the wake-up and does not return without a reason; a failed or interrupted
    wait says -1 or 0, and leaves the wake-up pending and the caller's vector
    as it was.  The standalone backend does the same as long as nothing is to
    be reported: it has no source of readiness. *)
Theorem pollers_refine_spec :
  (forall cs rs p', honest_run cs new_poller [] -> run_calls cs new_poller [] = Some (rs, p') ->
     exists s', spec_run cs (mk_spec ∅ false) [] rs s' /\ posix_represents s' p') /\
  (forall cs rs p', honest_run cs poller.new_state [] -> run_calls cs poller.new_state [] = Some (rs, p') ->
     exists s', spec_run cs (mk_spec ∅ false) [] rs s' /\ standalone_represents s' p').
Proof.
  split; intros cs rs p' Hh E; exact (run_calls_refines cs _ _ _ _ _ represents_new Hh E).
Qed.

Module examples.

(** Descriptor 7 is watched for reading, then for writing too, and has room for
    output; poll(2) is interrupted first, then reports. *)
Definition idle : conditions := mk_conditions false false false false false.
Definition room (fd : Z) : conditions := if fd =? 7 then mk_conditions false true false false false else idle.
Definition calls : list (poller_call poll_result) :=
  [CAdd 7 interest.read; CUpdate 7 (interest_or interest.read interest.write);
   CWait (mk_environment room false (Some true)) (PollFailed true);
   CWait (mk_environment room false None) (PollReady POLLIN (fun fd => if fd =? 7 then POLLOUT else 0))].
Definition reported : list (Z * list event) := [(0, []); (1, [mk_event 7 (mk_ready false true false false)])].
Definition afterwards : Poller.poller := mk_poller 0 {[ 7 := 5 ]}.

Lemma pollers_refine_spec_witness :
  run_calls calls new_poller [] = Some (reported, afterwards) /\
  exists s', spec_run calls (mk_spec ∅ false) [] reported s' /\ posix_represents s' afterwards.
Proof.
  split; [by vm_compute|].
  apply pollers_refine_spec.
  - split; [done|]. split; [|exact I]. split_and!.
    + done.
    + by vm_compute.
    + intros fd mask Hfd. assert (fd = 7 /\ mask = 5) as [-> ->]; [|by vm_compute].
      change (({[ 7 := 5 ]} : gmap Z Z) !! fd = Some mask) in Hfd. by apply lookup_singleton_Some in Hfd as [-> ->].
    + left. by vm_compute.
    + by vm_compute.
  - by vm_compute.
Defined.

End examples.
