(* ===== verification/Inspect.v ===== *)
(** * lnw-dns-inspect

    The inspection tool (tools/lnw-dns-inspect/main.cpp): standard input is
    one datagram; the result is the exit status and what goes to the two
    output streams. *)

From S2P Require Import Prelude Net Reader Header Message.
#[local] Open Scope Z_scope.

Definition opcode_name (code : Z) : bytes :=
  if code =? opcode.query then str "QUERY"
  else if code =? opcode.iquery then str "IQUERY"
  else if code =? opcode.status then str "STATUS"
  else if code =? opcode.notify then str "NOTIFY"
  else if code =? opcode.update then str "UPDATE"
  else str "?".

Definition rcode_name (code : Z) : bytes :=
  if code =? rcode.no_error then str "NOERROR"
  else if code =? rcode.format_error then str "FORMERR"
  else if code =? rcode.server_failure then str "SERVFAIL"
  else if code =? rcode.name_error then str "NXDOMAIN"
  else if code =? rcode.not_implemented then str "NOTIMP"
  else if code =? rcode.refused then str "REFUSED"
  else str "?".

Definition newline : bytes := [Byte.x0a].
Definition tab : bytes := [Byte.x09].

(** printf's %u and %zu: twenty digits are enough for 64 bits. *)
Definition decimal (n : Z) : bytes := digits 20 n.

(** %-30s. *)
Definition pad30 (s : bytes) : bytes := s ++ replicate (30 - length s) Byte.x20.

Definition when_ (b : bool) (s : bytes) : bytes := if b then s else [].

Definition print_header (h : header) : bytes :=
  str ";; ->>HEADER<<- opcode: " ++ opcode_name (opcode_ h) ++ str ", status: " ++ rcode_name (rcode_ h) ++
  str ", id: " ++ decimal (id h) ++ newline ++
  str ";; flags:" ++ when_ (response h) (str " qr") ++ when_ (authoritative h) (str " aa") ++
  when_ (truncated h) (str " tc") ++ when_ (recursion_desired h) (str " rd") ++
  when_ (recursion_available h) (str " ra") ++
  str "; QUERY: " ++ decimal (question_count h) ++ str ", ANSWER: " ++ decimal (answer_count h) ++
  str ", AUTHORITY: " ++ decimal (authority_count h) ++ str ", ADDITIONAL: " ++ decimal (additional_count h) ++ newline.

(** The name is printed as a C string. *)
Definition print_question (q : question) : bytes :=
  str ";" ++ pad30 (c_str (name q)) ++ tab ++ str "IN" ++ tab ++ decimal (type q) ++ newline.

(** Exit status, standard output, standard error. *)
Definition main (raw : bytes) : exec (Z * bytes * bytes) :=
  match raw with
  | [] => Done (1, [], str "lnw-dns-inspect: nothing on stdin" ++ newline)
  | _ =>
      let datagram := map (fun c => to_byte (byte_val c)) raw in
      do m := parse datagram in
      match m with
      | None =>
          Done (1, [], str "lnw-dns-inspect: not a well-formed DNS message (" ++
                         decimal (Z.of_nat (length datagram)) ++ str " bytes)" ++ newline)
      | Some m =>
          Done (0, print_header (header_ m) ++ newline ++ str ";; QUESTION SECTION:" ++ newline ++
                     concat (print_question <$> questions m), [])
      end
  end.

(** ** Behaviour *)

(** The tool survives any input: it ends with status 0 exactly when the input
    is a well-formed message, then prints one line per question and nothing on
    standard error; otherwise it prints nothing on standard output. *)
Theorem inspect_total raw :
  buf_ok raw ->
  exists status out err, main raw = Done (status, out, err) /\
    (status = 0 <-> raw <> [] /\ exists m, parse raw = Done (Some m)) /\
    (status <> 0 -> status = 1 /\ out = []) /\ (status = 0 -> err = []).
Proof.
  intros Hb. unfold main. destruct raw as [|c raw].
  { eexists _, _, _. split; [done|]. naive_solver. }
  change (map (fun c => to_byte (byte_val c)) (c :: raw)) with (make_buffer (c :: raw)). rewrite make_buffer_id.
  destruct (parse_done (c :: raw) Hb) as (o & -> & _). simpl.
  destruct o as [m|]; eexists _, _, _; (split; [done|]); naive_solver.
Qed.

(** Names of distinct known codes are distinct, so the printed line determines
    the code. *)
Theorem code_names_injective a b :
  (opcode_name a = opcode_name b -> opcode_name a <> str "?" -> a = b) /\
  (rcode_name a = rcode_name b -> rcode_name a <> str "?" -> a = b).
Proof.
  split.
  - unfold opcode_name. repeat (branch; [subst; repeat (branch; [by subst|]); done|]). done.
  - unfold rcode_name. repeat (branch; [subst; repeat (branch; [by subst|]); done|]). done.
Qed.
