(* ===== verification/Testing.v ===== *)
(** * The testing facility

    testing/test_context.hpp, test_case.hpp, test_group.hpp, registry.hpp,
    run_all.hpp and loop_harness.hpp: checks that record failures, cases and
    groups, and the runner, which executes plain cases in its own process and
    isolated ones in a child that it starts with --run.  The bodies of the
    cases are parameters.  A body runs on the global state [P] of its process
    and returns, throws or is killed by a signal. *)

From S2P Require Import Prelude Net Inspect.
#[local] Open Scope Z_scope.

(** ** [test_context] *)

(** [std::source_location]: file name and line. *)
Record location := mk_location { file_name : bytes; line : Z }.

(** The failures recorded so far. *)
Definition context : Type := list bytes.

(** A thrown value: an object derived from [std::exception], of some class and
    with its [what()], or anything else. *)
Inductive exn := StdException (class : nat) (what : bytes) | OtherValue.

Definition fail (where_ : location) (description : bytes) (c : context) : context :=
  c ++ [file_name where_ ++ str ":" ++ decimal (line where_) ++ str ": " ++ description].

Definition check (condition : bool) (description : bytes) (where_ : location) (c : context) : bool * context :=
  (condition, if condition then c else fail where_ description c).

(** [check_equal], for types with an equality and an output operator. *)
Section check_equal.
Context {A E : Type} (eqb : A -> E -> bool) (show_a : A -> bytes) (show_e : E -> bytes).

Definition check_equal (actual : A) (expected : E) (label : bytes) (where_ : location) (c : context) : bool * context :=
  let equal := eqb actual expected in
  (equal,
   if equal then c
   else fail where_ ((match label with [] => [] | _ => label ++ str ": " end) ++ str "expected [" ++ show_e expected ++
                     str "] but got [" ++ show_a actual ++ str "]") c).
End check_equal.

(** [check_throws]: [fn] returned, or threw; [wanted] tells the exception
    type.  A value that is not an exception passes through. *)
Definition check_throws (wanted : exn -> bool) (fn : option exn) (label : bytes) (where_ : location) (c : context) :
    (bool * context) + exn :=
  match fn with
  | Some e =>
      if wanted e then inl (true, c)
      else
        match e with
        | StdException _ what => inl (false, fail where_ (label ++ str ": threw the wrong exception type (" ++ what ++ str ")") c)
        | OtherValue => inr e
        end
  | None => inl (false, fail where_ (label ++ str ": expected an exception, none was thrown") c)
  end.

Definition require_ := check.
Definition require_equal {A E : Type} := @check_equal A E.

Definition failed (c : context) : bool := match c with [] => false | _ => true end.

(** ** Cases, groups and the registry *)

(** How a body ends, with the failures it recorded. *)
Inductive body_result := Returned (c : context) | Threw (e : exn) (c : context) | Killed (signal : Z).

Section facility.
Context {P : Type}.

Record test_case := mk_case {
  case_name : bytes;
  body_ : P -> context -> body_result * P;
  isolated_ : bool;
  expect_crash_ : bool
}.

Definition new_case (name : bytes) (body : P -> context -> body_result * P) : test_case := mk_case name body false false.
Definition isolated (t : test_case) : test_case := mk_case (case_name t) (body_ t) true (expect_crash_ t).
Definition expect_crash (t : test_case) : test_case := mk_case (case_name t) (body_ t) true true.

Record test_group := mk_group { group_name : bytes; cases : list test_case }.

(** The registry: groups in the order of their construction. *)
Definition registry : Type := list test_group.
Definition add_group (g : test_group) (r : registry) : registry := r ++ [g].

(** ** The runner *)

(** How a process ends. *)
Inductive status := Exited (code : Z) | Signaled (signal : Z).

Definition SIGABRT := 6.

(** Nothing catches in the child: a throw ends in [std::terminate]. *)
Definition single_status (r : body_result) : status :=
  match r with
  | Returned c => Exited (if failed c then 1 else 0)
  | Threw _ _ => Signaled SIGABRT
  | Killed s => Signaled s
  end.

Fixpoint find_case (name : bytes) (ts : list test_case) : option test_case :=
  match ts with
  | [] => None
  | t :: ts' => if bool_decide (case_name t <> name) then find_case name ts' else Some t
  end.

Fixpoint run_single (r : registry) (group case : bytes) (p : P) : status :=
  match r with
  | [] => Exited 2
  | g :: r' =>
      if bool_decide (group_name g <> group) then run_single r' group case p
      else
        match find_case case (cases g) with
        | Some t => single_status (body_ t p []).1
        | None => run_single r' group case p
        end
  end.

(** [arg.find("::")]. *)
Fixpoint find_separator (s : bytes) : option nat :=
  match s with
  | [] => None
  | c :: s' =>
      match s' with
      | c' :: _ =>
          if (byte_val c =? 58) && (byte_val c' =? 58) then Some O else S <$> find_separator s'
      | [] => None
      end
  end.

(** [run_all] with "--run" [arg], in a process whose state is [p]: [npos + 2]
    is 1, and [substr] throws when that is past the end. *)
Definition run_one (r : registry) (arg : bytes) (p : P) : status :=
  match find_separator arg with
  | Some i => run_single r (take i arg) (drop (i + 2) arg) p
  | None => if (length arg <? 1)%nat then Signaled SIGABRT else run_single r arg (drop 1 arg) p
  end.

(** What fork(2) and execl(3) did. *)
Inductive launch := ForkFailed | ExecFailed | Started.

(** The raw status word, as far as the macros look at it: [status] is 0 when
    there was no child to wait for. *)
Definition wait_status (l : launch) (child : status) : status :=
  match l with
  | ForkFailed => Exited 0
  | ExecFailed => Exited 127
  | Started => child
  end.

Definition crashed (s : status) : bool := match s with Signaled _ => true | Exited _ => false end.
Definition exited_cleanly (s : status) : bool := match s with Exited c => c =? 0 | Signaled _ => false end.

Definition combined (group case : bytes) : bytes := group ++ str "::" ++ case.

(** A child starts from the state [p0] of a new process. *)
Definition run_isolated (r : registry) (p0 : P) (l : launch) (group case : bytes) (expects_crash : bool) : bool :=
  let s := wait_status l (run_one r (c_str (combined group case)) p0) in
  if expects_crash then crashed s else exited_cleanly s.

(** The two [catch] clauses of [run_all], at their source locations. *)
Variables (catch_exception catch_other : location).

(** The context after the [try]; [None] is a process killed by a signal. *)
Definition guarded (r : body_result) : option context :=
  match r with
  | Returned c => Some c
  | Threw (StdException _ what) c => Some (fail catch_exception (str "uncaught exception: " ++ what) c)
  | Threw OtherValue c => Some (fail catch_other (str "uncaught non-exception value") c)
  | Killed _ => None
  end.

Definition killed_by (r : body_result) : Z := match r with Killed s => s | _ => 0 end.

(** One case: whether it passed, its failures and the process state after
    it. *)
Definition run_case (r : registry) (p0 : P) (l : launch) (group : bytes) (t : test_case) (p : P) :
    (bool * context * P) + Z :=
  if isolated_ t then inl (run_isolated r p0 l group (case_name t) (expect_crash_ t), [], p)
  else
    let '(res, p) := body_ t p [] in
    match guarded res with
    | Some c => inl (negb (failed c), c, p)
    | None => inr (killed_by res)
    end.

Definition report (ok : bool) (group case : bytes) (failures : context) : bytes :=
  (if ok then str "[  OK  ] " else str "[ FAIL ] ") ++ group ++ str "::" ++ case ++ newline ++
  concat ((fun f => str "         " ++ f ++ newline) <$> failures).

(** What is printed, how many cases ran and how many passed; the process
    state goes from case to case.  [launches] is what happens at the
    successive forks. *)
Record tally := mk_tally { total : Z; passed : Z; printed : bytes }.

Definition count_case (ok : bool) (out : bytes) (y : tally) : tally :=
  mk_tally (total y + 1) (passed y + (if ok then 1 else 0)) (printed y ++ out).

Fixpoint run_cases (r : registry) (p0 : P) (launches : bytes -> bytes -> launch) (group : bytes) (ts : list test_case)
    (y : tally) (p : P) : (tally * P) + Z :=
  match ts with
  | [] => inl (y, p)
  | t :: ts' =>
      match run_case r p0 (launches group (case_name t)) group t p with
      | inr s => inr s
      | inl (ok, failures, p) =>
          run_cases r p0 launches group ts' (count_case ok (report ok group (case_name t) failures) y) p
      end
  end.

Fixpoint run_groups (r : registry) (p0 : P) (launches : bytes -> bytes -> launch) (gs : registry) (y : tally) (p : P) :
    (tally * P) + Z :=
  match gs with
  | [] => inl (y, p)
  | g :: gs' =>
      match run_cases r p0 launches (group_name g) (cases g) y p with
      | inr s => inr s
      | inl (y, p) => run_groups r p0 launches gs' y p
      end
  end.

(** [run_all] without arguments, and what it prints; a process that is killed
    may have printed anything. *)
Definition run_all (r : registry) (launches : bytes -> bytes -> launch) (p0 : P) : status * bytes :=
  match run_groups r p0 launches r (mk_tally 0 0 []) p0 with
  | inr s => (Signaled s, [])
  | inl (y, _) =>
      (Exited (if passed y =? total y then 0 else 1),
       printed y ++ newline ++ decimal (passed y) ++ str "/" ++ decimal (total y) ++ str " tests passed" ++ newline)
  end.

End facility.
Arguments test_case : clear implicits.
Arguments test_group : clear implicits.
Arguments registry : clear implicits.

(** ** loop_harness.hpp

    A future that becomes ready at some time, with a value or an exception;
    [await] gives up after [timeout]. *)
Inductive future (T : Type) := Never | ReadyAt (t : Z) (v : T + exn).
Arguments Never {T}.
Arguments ReadyAt {T}.

Definition await {T} (f : future T) (now timeout : Z) : option T + exn :=
  match f with
  | ReadyAt t v => if now + timeout <? t then inl None else match v with inl v => inl (Some v) | inr e => inr e end
  | Never => inl None
  end.

(** ** What a verdict means *)

Section verdicts.
Context {P : Type}.
Implicit Types (r : registry P) (t : test_case P).

(** All cases with the names of their groups, in order. *)
Definition flat r : list (bytes * test_case P) := r ≫= fun g => (fun t => (group_name g, t)) <$> cases g.

Definition full_name (x : bytes * test_case P) : bytes * bytes := (x.1, case_name x.2).

(** A plain case passes when its body returns without a failed check.  An
    isolated one is judged by how its body ends on the state of a new
    process, whatever ran before. *)
Definition plain_pass (b : body_result) : bool := match b with Returned [] => true | _ => false end.
Definition crash_pass (b : body_result) : bool := match b with Returned _ => false | _ => true end.

Definition verdict (p0 p : P) t : bool :=
  if isolated_ t then
    if expect_crash_ t then crash_pass (body_ t p0 []).1 else plain_pass (body_ t p0 []).1
  else plain_pass (body_ t p []).1.

Definition after t (p : P) : P := if isolated_ t then p else (body_ t p []).2.

Fixpoint verdicts (p0 p : P) (xs : list (bytes * test_case P)) : list bool :=
  match xs with
  | [] => []
  | x :: xs' => verdict p0 p x.2 :: verdicts p0 (after x.2 p) xs'
  end.

(** No plain case kills the runner. *)
Fixpoint survives (p : P) (xs : list (bytes * test_case P)) : Prop :=
  match xs with
  | [] => True
  | x :: xs' =>
      (isolated_ x.2 = false -> match (body_ x.2 p []).1 with Killed _ => False | _ => True end) /\
      survives (after x.2 p) xs'
  end.

(** The name of a group followed by a colon has no "::", so that the first
    "::" of a combined name is the separator; and names are C strings. *)
Definition good_name (x : bytes * bytes) : Prop :=
  find_separator (x.1 ++ str ":") = None /\ Forall (fun c => byte_val c <> 0) (x.1 ++ x.2).

Definition well_named r : Prop := NoDup (full_name <$> flat r) /\ Forall good_name (full_name <$> flat r).

(** *** The child runs the case it was started for *)

Lemma find_separator_combined g c : find_separator (g ++ str ":") = None -> find_separator (combined g c) = Some (length g).
Proof.
  unfold combined. induction g as [|x g IH]; [done|]. intros Hx. destruct g as [|y g].
  - simpl in *. by destruct ((byte_val x =? 58) && true).
  - change (find_separator (x :: y :: (g ++ str ":")) = None) in Hx.
    change (find_separator (x :: y :: (g ++ str "::" ++ c)) = Some (S (length (y :: g)))).
    cbn [find_separator] in Hx |- *. destruct ((byte_val x =? 58) && (byte_val y =? 58)); [done|].
    apply fmap_None in Hx. apply IH in Hx. apply fmap_Some. exists (S (length g)). by split.
Qed.

Lemma find_case_first t ts :
  t ∈ ts -> NoDup (case_name <$> ts) -> find_case (case_name t) ts = Some t.
Proof.
  induction ts as [|u ts IH]; intros Ht Hnd; [by apply elem_of_nil in Ht|]. simpl.
  apply NoDup_cons in Hnd as [Hu Hnd]. apply elem_of_cons in Ht as [->|Ht].
  - by rewrite bool_decide_false by tauto.
  - rewrite bool_decide_true; [by apply IH|]. intros E. apply Hu. rewrite E. by apply list_elem_of_fmap_2.
Qed.

Lemma find_case_none name ts : name ∉ case_name <$> ts -> find_case name ts = None (A := test_case P).
Proof.
  induction ts as [|u ts IH]; intros Hn; [done|]. simpl in *. apply not_elem_of_cons in Hn as [Hu Hn].
  rewrite bool_decide_true by congruence. by apply IH.
Qed.

Lemma flat_cons g r : flat (g :: r) = ((fun t => (group_name g, t)) <$> cases g) ++ flat r.
Proof. done. Qed.

Lemma run_single_found r g t (p : P) :
  (g, t) ∈ flat r -> NoDup (full_name <$> flat r) ->
  run_single r g (case_name t) p = single_status (body_ t p []).1.
Proof.
  induction r as [|h r IH]; intros Ht Hnd; [by apply elem_of_nil in Ht|]. rewrite flat_cons in *.
  rewrite fmap_app, <- list_fmap_compose in Hnd. apply NoDup_app in Hnd as (Hh & Hdis & Hnd).
  assert (NoDup (case_name <$> cases h)) as Hcases.
  { apply (NoDup_fmap_1 (pair (group_name h))). by rewrite <- list_fmap_compose. }
  simpl. apply elem_of_app in Ht as [(u & [= -> ->] & Hu)%list_elem_of_fmap|Ht].
  - rewrite bool_decide_false by tauto. by rewrite find_case_first.
  - case_bool_decide as Hg; [by apply IH|]. subst g.
    rewrite find_case_none; [by apply IH|]. intros (u & Eu & Hu)%list_elem_of_fmap.
    apply (Hdis (full_name (group_name h, u))).
    + apply list_elem_of_fmap. by exists u.
    + apply list_elem_of_fmap. exists (group_name h, t). split; [|done]. unfold full_name. simpl. by rewrite Eu.
Qed.

Lemma run_isolated_verdict r (p0 : P) g t :
  well_named r -> (g, t) ∈ flat r -> isolated_ t = true ->
  forall p, run_isolated r p0 Started g (case_name t) (expect_crash_ t) = verdict p0 p t.
Proof.
  intros [Hnd Hgood] Ht Hi p. rewrite Forall_forall in Hgood.
  destruct (Hgood (g, case_name t)) as [Hsep Hstr]; [by apply (list_elem_of_fmap_2 full_name _ (g, t))|]. simpl in *.
  unfold run_isolated, verdict. rewrite Hi.
  assert (c_str (combined g (case_name t)) = combined g (case_name t)) as ->.
  { apply c_str_id. unfold combined. apply Forall_app in Hstr as [? ?]. apply Forall_app. split; [done|].
    apply Forall_app. split; [by repeat constructor|done]. }
  unfold run_one. rewrite (find_separator_combined _ _ Hsep). unfold combined.
  rewrite take_app_length, <- drop_drop, drop_app_length. change (drop 2 (str "::" ++ case_name t)) with (case_name t).
  rewrite (run_single_found r g t p0 Ht Hnd). destruct (body_ t p0 []) as [[[|f c]|e c|s] p']; by destruct (expect_crash_ t).
Qed.

(** *** The tally *)

Variables (catch_exception catch_other : location).

Definition count_true (bs : list bool) : Z := Z.of_nat (length (filter (fun b => b = true) bs)).

Lemma guarded_verdict b c : guarded catch_exception catch_other b = Some c -> negb (failed c) = plain_pass b.
Proof.
  destruct b as [[|f c']|[class what|] c'|s]; simpl; intros [= <-]; try done; unfold fail;
    by destruct (c' ++ [_]) eqn:E; [apply app_nil in E as [_ ?]|].
Qed.

Lemma run_case_verdict r (p0 p : P) g t :
  well_named r -> (g, t) ∈ flat r ->
  (isolated_ t = false -> match (body_ t p []).1 with Killed _ => False | _ => True end) ->
  exists failures, run_case catch_exception catch_other r p0 Started g t p = inl (verdict p0 p t, failures, after t p).
Proof.
  intros Hr Ht Hs. unfold run_case, after. destruct (isolated_ t) eqn:Hi.
  - exists []. by rewrite (run_isolated_verdict r p0 g t Hr Ht Hi p).
  - specialize (Hs eq_refl). unfold verdict. rewrite Hi. destruct (body_ t p []) as [b p'] eqn:Eb. simpl in *.
    destruct (guarded catch_exception catch_other b) as [c|] eqn:Eg; [|by destruct b as [|[]|]].
    exists c. by rewrite (guarded_verdict b c Eg).
Qed.

(** Going through part of the registry counts its verdicts. *)
Definition counted (y y' : tally) (bs : list bool) : Prop :=
  total y' = total y + Z.of_nat (length bs) /\ passed y' = passed y + count_true bs.

Lemma counted_cons b bs out y y' : counted (count_case b out y) y' bs -> counted y y' (b :: bs).
Proof. unfold counted, count_true. simpl. intros [-> ->]. rewrite filter_cons. destruct b; simpl; lia. Qed.

Lemma counted_app bs bs' y1 y2 y3 : counted y1 y2 bs -> counted y2 y3 bs' -> counted y1 y3 (bs ++ bs').
Proof. unfold counted, count_true. rewrite filter_app, !length_app. intros [-> ->] [-> ->]. lia. Qed.

Fixpoint state_after (p : P) (xs : list (bytes * test_case P)) : P :=
  match xs with
  | [] => p
  | x :: xs' => state_after (after x.2 p) xs'
  end.

Lemma state_after_app xs ys : forall p, state_after p (xs ++ ys) = state_after (state_after p xs) ys.
Proof. induction xs as [|x xs IH]; intros p; simpl; auto. Qed.

Lemma verdicts_app p0 xs ys : forall p, verdicts p0 p (xs ++ ys) = verdicts p0 p xs ++ verdicts p0 (state_after p xs) ys.
Proof. induction xs as [|x xs IH]; intros p; simpl; [done|]. by rewrite IH. Qed.

Lemma survives_app xs ys : forall p, survives p (xs ++ ys) <-> survives p xs /\ survives (state_after p xs) ys.
Proof. induction xs as [|x xs IH]; intros p; simpl; [tauto|]. rewrite IH. tauto. Qed.

Lemma run_cases_verdicts r (p0 : P) g ts : forall y p,
  well_named r -> (forall t, t ∈ ts -> (g, t) ∈ flat r) -> survives p (pair g <$> ts) ->
  exists y', run_cases catch_exception catch_other r p0 (fun _ _ => Started) g ts y p = inl (y', state_after p (pair g <$> ts)) /\
    counted y y' (verdicts p0 p (pair g <$> ts)).
Proof.
  induction ts as [|t ts IH]; intros y p Hr Hts Hs; simpl.
  - exists y. split; [done|]. unfold counted, count_true. simpl. lia.
  - destruct Hs as [Ht Hs]. simpl in Ht.
    destruct (run_case_verdict r p0 p g t Hr (Hts t ltac:(left)) Ht) as [c ->].
    destruct (IH (count_case (verdict p0 p t) (report (verdict p0 p t) g (case_name t) c) y) (after t p) Hr) as (y' & -> & Hc);
      [intros; apply Hts; by right|done|].
    exists y'. split; [done|]. by eapply counted_cons.
Qed.

Lemma run_groups_verdicts r (p0 : P) gs : forall y p,
  well_named r -> (forall x, x ∈ flat gs -> x ∈ flat r) -> survives p (flat gs) ->
  exists y', run_groups catch_exception catch_other r p0 (fun _ _ => Started) gs y p = inl (y', state_after p (flat gs)) /\
    counted y y' (verdicts p0 p (flat gs)).
Proof.
  induction gs as [|g gs IH]; intros y p Hr Hgs Hs; simpl.
  - exists y. split; [done|]. unfold counted, count_true. simpl. lia.
  - rewrite flat_cons in *. apply survives_app in Hs as [Hs1 Hs2].
    destruct (run_cases_verdicts r p0 (group_name g) (cases g) y p Hr) as (y1 & -> & Hc1); [|done|].
    { intros t Ht. apply Hgs, elem_of_app. left. by apply list_elem_of_fmap_2. }
    destruct (IH y1 (state_after p (pair (group_name g) <$> cases g)) Hr) as (y2 & -> & Hc2); [|done|].
    { intros x Hx. apply Hgs, elem_of_app. by right. }
    exists y2. rewrite verdicts_app. split; [|by eapply counted_app].
    by rewrite state_after_app.
Qed.

Lemma count_true_all bs : count_true bs = Z.of_nat (length bs) <-> Forall (fun b => b = true) bs.
Proof.
  unfold count_true. induction bs as [|b bs IH]; [done|]. rewrite filter_cons, Forall_cons.
  pose proof (length_filter (fun b => b = true) bs). destruct b; cbn [length].
  - rewrite decide_True by done. rewrite <- IH. cbn [length]. split; [intros E; split; [done|lia]|lia].
  - rewrite decide_False by done. split; [lia|by intros [? _]].
Qed.

(** The exit status of the test runner.  When the names of the cases are
    distinct and can be split again, children start and no plain case kills
    the runner, [run_all] exits with 0 exactly when every registered case
    passes, and with 1 otherwise; an isolated case is judged by its own body
    run in a fresh process, independent of the cases before it. *)
Theorem run_all_exit r (p0 : P) :
  well_named r -> survives p0 (flat r) ->
  ((run_all catch_exception catch_other r (fun _ _ => Started) p0).1 = Exited 0 <->
   Forall (fun b => b = true) (verdicts p0 p0 (flat r))) /\
  ((run_all catch_exception catch_other r (fun _ _ => Started) p0).1 = Exited 1 <->
   ~ Forall (fun b => b = true) (verdicts p0 p0 (flat r))).
Proof.
  intros Hr Hs. unfold run_all.
  destruct (run_groups_verdicts r p0 r (mk_tally 0 0 []) p0 Hr (fun x Hx => Hx) Hs) as (y & -> & Ht & Hp).
  cbn [total passed] in *. rewrite <- count_true_all. rewrite Z.add_0_l in Ht, Hp. rewrite <- Ht, <- Hp.
  simpl. branch; split; split; done.
Qed.

(** When fork(2) fails, [status] keeps its initial 0 and an isolated case that
    is not expected to crash is reported as passed, whatever its body does. *)
Theorem fork_failure_passes r (p0 p : P) g t :
  isolated_ t = true -> expect_crash_ t = false ->
  run_case catch_exception catch_other r p0 ForkFailed g t p = inl (true, [], p).
Proof. intros Hi He. unfold run_case, run_isolated. by rewrite Hi, He. Qed.

End verdicts.

Module examples.

Definition here := mk_location (str "run_all.hpp") 87.
Definition group_test := str "core".

(** Cases that share a counter with the process they run in. *)
Definition bumps : test_case nat :=
  new_case (str "bumps") (fun p c => (Returned (check (p =? 0)%nat (str "first") here c).2, S p)).
Definition again : test_case nat :=
  isolated (new_case (str "again") (fun p c => (Returned (check (p =? 0)%nat (str "first") here c).2, S p))).
Definition aborts : test_case nat := expect_crash (new_case (str "aborts") (fun p c => (Killed 11, p))).
Definition throws : test_case nat := new_case (str "throws") (fun p c => (Threw (StdException 0 (str "oops")) c, p)).

Definition passing : registry nat := add_group (mk_group group_test [bumps; again; aborts]) [].

Lemma passing_names : well_named passing.
Proof. split; [|repeat constructor; by vm_compute]. apply (bool_decide_unpack _). by vm_compute. Qed.

Lemma run_all_exit_witness :
  (run_all here here passing (fun _ _ => Started) O).1 = Exited 0 /\
  Forall (fun b => b = true) (verdicts O O (flat passing)).
Proof.
  assert ((run_all here here passing (fun _ _ => Started) O).1 = Exited 0) as E by by vm_compute.
  split; [exact E|]. apply (run_all_exit here here passing O); [exact passing_names|by vm_compute|exact E].
Defined.

(** The transcript of a failing run. *)
Theorem failing_transcript :
  run_all here here [mk_group group_test [throws]] (fun _ _ => Started) O =
    (Exited 1,
     str "[ FAIL ] core::throws" ++ newline ++
     str "         run_all.hpp:87: uncaught exception: oops" ++ newline ++ newline ++
     str "0/1 tests passed" ++ newline).
Proof. by vm_compute. Qed.

(** Two cases of the same name: the child of the second runs the first. *)
Definition shadowing : registry nat :=
  [mk_group group_test [isolated (new_case (str "x") (fun p c => (Returned c, p)));
                        isolated (new_case (str "x") (fun p c => (Returned (check false (str "wrong") here c).2, p)))]].

Theorem same_name_hides_failure :
  (run_all here here shadowing (fun _ _ => Started) O).1 = Exited 0 /\ verdicts O O (flat shadowing) = [true; false].
Proof. split; by vm_compute. Qed.

End examples.
