(* ===== verification/WireTests.v ===== *)
(** * The unit tests of the DNS wire format

    protocol/dns/wire/testing/reader_test.hpp, writer_test.hpp and
    protocol/dns/testing/message_test.hpp: the bodies of the cases, on the
    modelled reader, writer and message, in the modelled testing facility.
    They are the repository's own statement of what these components do, and
    the model passes them. *)

From S2P Require Import Prelude Reader Writer Names Header Message Net Inspect Testing.
#[local] Open Scope Z_scope.

(** ** Bodies

    A body goes from context to context and may be undefined; in a process that
    is a crash. *)
Definition test_body : Type := context -> exec context.

Definition SIGSEGV := 11.

Definition body_of (t : test_body) (p : unit) (c : context) : body_result * unit :=
  match t c with
  | Done c => (Returned c, p)
  | _ => (Killed SIGSEGV, p)
  end.

Definition case_of (name : bytes) (t : test_body) : test_case unit := new_case name (body_of t).

(** [*opt] and [opt.value_or(v)]. *)
Definition deref {A} (o : option A) : exec A := match o with Some x => Done x | None => Undef end.
Definition value_or {A} (o : option A) (v : A) : A := default v o.

Section bodies.
(** Where the calls are; [show_u8] is how a stream prints a [std::uint8_t]. *)
Variable here : location.

Definition show_u8 (z : Z) : bytes := [to_byte z].
Definition show_string (s : bytes) : bytes := s.
Definition string_eqb (a b : bytes) : bool := bool_decide (a = b).

Definition expect (b : bool) (description : bytes) (c : context) : context := (check b description here c).2.
Definition expect_u8 (actual expected : Z) (label : bytes) (c : context) : context :=
  (check_equal Z.eqb show_u8 show_u8 actual expected label here c).2.
Definition expect_int (actual expected : Z) (label : bytes) (c : context) : context :=
  (check_equal Z.eqb decimal decimal actual expected label here c).2.
Definition expect_string (actual expected label : bytes) (c : context) : context :=
  (check_equal string_eqb show_string show_string actual expected label here c).2.

Definition has_value {A} (o : option A) : bool := match o with Some _ => true | None => false end.

(** ** dns::wire::reader *)

Definition reads_integers : test_body := fun c =>
  let reader := new_reader (to_byte <$> [0x12; 0x34; 0xAB; 0xCD; 0x00; 0x00; 0xFF]) in
  do (a, reader) := read_u8 reader in
  let c := expect_u8 (value_or a 0) 0x12 (str "u8") c in
  do (b, reader) := read_u16 reader in
  let c := expect_int (value_or b 0) 0x34AB (str "u16") c in
  do (d, reader) := read_u32 reader in
  let c := expect_int (value_or d 0) 0xCD0000FF (str "u32") c in
  Done (expect (at_end reader) (str "cursor should be exhausted") c).

Definition reads_past_end : test_body := fun c =>
  let reader := new_reader [to_byte 1] in
  do (a, _) := read_u16 reader in
  Done (expect (negb (has_value a)) (str "u16 on a 1-byte buffer must fail") c).

Definition compressed : bytes := to_byte 3 :: str "www" ++ to_byte 7 :: str "example" ++ to_byte 3 :: str "com" ++ (to_byte <$> [0; 0xC0; 4]).

Definition reads_compressed_name : test_body := fun c =>
  let reader := new_reader compressed in
  do (a, reader) := read_name reader in
  let c := expect_string (value_or a (str "?")) (str "www.example.com") (str "full name") c in
  let c := expect_int (Z.of_nat (position reader)) 17 (str "cursor past first name") c in
  do (b, reader) := read_name reader in
  let c := expect_string (value_or b (str "?")) (str "example.com") (str "pointer name") c in
  Done (expect_int (Z.of_nat (position reader)) 19 (str "cursor past the 2-byte pointer") c).

Definition dns_wire_reader_test : test_group unit := mk_group (str "dns::wire::reader")
  [case_of (str "reads big-endian integers and advances the cursor") reads_integers;
   case_of (str "read past the end yields nullopt, not a crash") reads_past_end;
   case_of (str "decodes a domain name with a compression pointer") reads_compressed_name].

(** ** dns::wire::writer *)

Definition integers_round_trip : test_body := fun c =>
  let writer := write_u32 (write_u16 (write_u8 new_writer 0x2A) 0xBEEF) 0xDEADC0DE in
  let c := expect_int (Z.of_nat (length writer)) 7 (str "encoded size") c in
  let reader := new_reader writer in
  do (a, reader) := read_u8 reader in
  let c := expect_u8 (value_or a 0) 0x2A (str "u8") c in
  do (b, reader) := read_u16 reader in
  let c := expect_int (value_or b 0) 0xBEEF (str "u16") c in
  do (d, _) := read_u32 reader in
  Done (expect_int (value_or d 0) 0xDEADC0DE (str "u32") c).

Definition name_round_trips : test_body := fun c =>
  do (ok, writer) := write_name new_writer (str "mail.lambdatech.io") in
  let c := expect ok (str "write_name should accept a valid name") c in
  do (a, _) := read_name (new_reader writer) in
  Done (expect_string (value_or a (str "?")) (str "mail.lambdatech.io") (str "name") c).

Definition long_label_rejected : test_body := fun c =>
  do (ok, _) := write_name new_writer (replicate 64 (to_byte 97)) in
  Done (expect (negb ok) (str "a 64-byte label must be rejected") c).

Definition dns_wire_writer_test : test_group unit := mk_group (str "dns::wire::writer")
  [case_of (str "integers round-trip through reader") integers_round_trip;
   case_of (str "a name round-trips through reader") name_round_trips;
   case_of (str "an over-long label is rejected") long_label_rejected].

(** ** dns::message *)

(** The default header with these members set. *)
Definition header_with (id : Z) (recursion_desired : bool) (question_count : Z) : header :=
  let h := default_header in
  mk_header id (response h) (opcode_ h) (authoritative h) (truncated h) recursion_desired (recursion_available h) (rcode_ h)
    question_count (answer_count h) (authority_count h) (additional_count h).

Definition the_query : message :=
  mk_message (header_with 0x1234 true 0) [mk_question (str "www.lambdatech.io") record_type.a record_class.in_].

Definition query_round_trips : test_body := fun c =>
  do wire := serialize the_query in
  let c := expect (has_value wire) (str "serialize() should succeed") c in
  do wire := deref wire in
  do parsed := parse wire in
  let c := expect (has_value parsed) (str "parse() should succeed") c in
  do parsed := deref parsed in
  let c := expect_int (id (header_ parsed)) 0x1234 (str "id") c in
  let c := expect (recursion_desired (header_ parsed)) (str "RD bit should survive the round trip") c in
  let c := expect (negb (response (header_ parsed))) (str "QR should still be a query") c in
  let c := expect_int (Z.of_nat (length (questions parsed))) 1 (str "question count") c in
  do q := deref (questions parsed !! 0%nat) in
  let c := expect_string (name q) (str "www.lambdatech.io") (str "qname") c in
  Done (expect (message_eqb parsed the_query) (str "the full message should compare equal") c).

Definition runt_rejected : test_body := fun c =>
  do parsed := parse (replicate 5 (to_byte 0)) in
  Done (expect (negb (has_value parsed)) (str "a 5-byte datagram cannot be a DNS message") c).

Definition missing_question_rejected : test_body := fun c =>
  let writer := write_header (header_with 0 false 1) new_writer in
  do parsed := parse writer in
  Done (expect (negb (has_value parsed)) (str "a QDCOUNT/body mismatch should not read out of bounds") c).

Definition dns_message_test : test_group unit := mk_group (str "dns::message")
  [case_of (str "a query serializes and parses back to an equal value") query_round_trips;
   case_of (str "a truncated datagram parses to nullopt") runt_rejected;
   case_of (str "a header-declared question that is absent fails cleanly") missing_question_rejected].

(** The groups registered by these headers. *)
Definition wire_tests : registry unit := [dns_wire_reader_test; dns_wire_writer_test; dns_message_test].

End bodies.

(** The repository's tests of the wire format pass in the model: the runner
    exits with status 0 and reports nine of nine cases, whatever fork(2) does
    (no case is isolated) and wherever the checks stand in the source. *)
Theorem wire_tests_pass here catch_exception catch_other launches :
  exists lines, run_all catch_exception catch_other (wire_tests here) launches tt =
    (Exited 0, lines ++ newline ++ str "9/9 tests passed" ++ newline).
Proof.
  unfold run_all. destruct (run_groups _ _ _ _ _ _ _ _) as [[y p]|s] eqn:E; vm_compute in E; [|done].
  exists (printed y). by injection E as <- <-.
Qed.
