(* ===== verification/TcpSocket.v ===== *)
(** * [protocol::tcp::socket]

    The connection object of protocol/tcp/socket.hpp, whole: connecting,
    writing with a backlog, half-closing, reading until the kernel would
    block, failing and closing.  Every function runs on a [world]: the socket,
    the event loop it is registered with, the kernel, the application's own
    state and a history of what happened on the socket.  Listeners are code of
    the application that the socket calls back synchronously and that may call
    the socket again; they are a variable of the section, and [react] ties the
    knot for an arbitrary application program. *)

From S2P Require Import Prelude Poller EventLoop Net.
#[local] Open Scope Z_scope.

Inductive tcp_state := idle | connecting | open_ | closed.

#[export] Instance tcp_state_eq_dec : EqDecision tcp_state.
Proof. solve_decision. Defined.

(** The data members of the class. *)
Record socket := mk_socket {
  desc_ : Z;
  state_ : tcp_state;
  peer_ : socket_address;
  outbuf_ : bytes;
  out_offset_ : nat;
  ended_ : bool
}.

(** The six events. *)
Inductive tcp_event :=
  | EvConnect
  | EvData (chunk : bytes)
  | EvDrain
  | EvEnd
  | EvError (message : bytes)
  | EvClose.

(** What the socket put on the wire. *)
Inductive wire_item := WData (b : bytes) | WFin.

(** What happened so far: events emitted, bytes [write] took, bytes and FINs
    given to the kernel, bytes the kernel delivered, how often the socket
    acquired a descriptor, and how often that took the place of one it still
    had.  The code neither stores nor reads any of it. *)
Record history := mk_history {
  trace : list tcp_event;
  accepted : bytes;
  wire : list wire_item;
  arrived : bytes;
  opened : nat;
  replaced : nat
}.

Record world (K A D C : Type) := mk_world {
  sk : socket;
  lp : loop D C;
  kn : K;
  env : A;
  hist : history
}.
Arguments mk_world {K A D C}.
Arguments sk {K A D C}.
Arguments lp {K A D C}.
Arguments kn {K A D C}.
Arguments env {K A D C}.
Arguments hist {K A D C}.

(** [socket(loop)] and the adopting constructor used by [tcp::server]. *)
Definition new_socket : socket := mk_socket invalid_handle idle no_address [] 0 false.
Definition adopted_socket (d : Z) (p : socket_address) : socket := mk_socket d open_ p [] 0 false.

Definition set_desc (d : Z) (s : socket) : socket :=
  mk_socket d (state_ s) (peer_ s) (outbuf_ s) (out_offset_ s) (ended_ s).
Definition set_state (st : tcp_state) (s : socket) : socket :=
  mk_socket (desc_ s) st (peer_ s) (outbuf_ s) (out_offset_ s) (ended_ s).
Definition set_peer (p : socket_address) (s : socket) : socket :=
  mk_socket (desc_ s) (state_ s) p (outbuf_ s) (out_offset_ s) (ended_ s).
Definition set_out (b : bytes) (off : nat) (s : socket) : socket :=
  mk_socket (desc_ s) (state_ s) (peer_ s) b off (ended_ s).
Definition set_ended (s : socket) : socket :=
  mk_socket (desc_ s) (state_ s) (peer_ s) (outbuf_ s) (out_offset_ s) true.

Definition is_state (s : socket) (st : tcp_state) : bool := bool_decide (state_ s = st).

(** [out_offset_ < outbuf_.size()]. *)
Definition has_backlog (s : socket) : bool := (out_offset_ s <? length (outbuf_ s))%nat.

(** Updates of the history. *)
Definition log_event (ev : tcp_event) (h : history) : history :=
  mk_history (trace h ++ [ev]) (accepted h) (wire h) (arrived h) (opened h) (replaced h).
Definition log_accepted (b : bytes) (h : history) : history :=
  mk_history (trace h) (accepted h ++ b) (wire h) (arrived h) (opened h) (replaced h).
Definition log_wire (i : wire_item) (h : history) : history :=
  mk_history (trace h) (accepted h) (wire h ++ [i]) (arrived h) (opened h) (replaced h).
Definition log_arrived (b : bytes) (h : history) : history :=
  mk_history (trace h) (accepted h) (wire h) (arrived h ++ b) (opened h) (replaced h).
Definition log_opened (had : bool) (h : history) : history :=
  mk_history (trace h) (accepted h) (wire h) (arrived h) (S (opened h)) (if had then S (replaced h) else replaced h).
Definition no_history : history := mk_history [] [] [] [] 0 0.

Section socket.
Context {K A D C : Type} `{Kernel K}.
Abbreviation world := (world K A D C).
Implicit Types w : world.

(** The closure registered with the loop (it calls [on_io] through a weak
    pointer), the deferred closure of [connect], and the application. *)
Variable io_cb : C.
Variable connect_done : list socket_address -> D.
Variable listeners : tcp_event -> world -> exec world.

Definition upd_sk (f : socket -> socket) w : world := mk_world (f (sk w)) (lp w) (kn w) (env w) (hist w).
Definition set_lp (l : loop D C) w : world := mk_world (sk w) l (kn w) (env w) (hist w).
Definition set_kn (k : K) w : world := mk_world (sk w) (lp w) k (env w) (hist w).
Definition upd_hist (f : history -> history) w : world := mk_world (sk w) (lp w) (kn w) (env w) (f (hist w)).

Definition emit (ev : tcp_event) w : exec world := listeners ev (upd_hist (log_event ev) w).

Definition modify_interest (i : Z) w : world := set_lp (modify (lp w) (desc_ (sk w)) i) w.

(** [sock::shutdown(desc_, sock::shut::write)], its result ignored. *)
Definition shutdown_write w : world :=
  upd_hist (log_wire WFin) (set_kn (Net.shutdown (desc_ (sk w)) shut_write (kn w)).2 w).

Definition close_with w : exec world :=
  let was_live := negb (is_state (sk w) closed) && valid (desc_ (sk w)) in
  let w := upd_sk (set_state closed) w in
  if negb was_live then Done w
  else
    let w := set_lp (unwatch (lp w) (desc_ (sk w))) w in
    let '(d, k) := Net.close (desc_ (sk w)) (kn w) in
    emit EvClose (set_kn k (upd_sk (set_desc d) w)).

Definition fail (message : bytes) w : exec world :=
  do w := emit (EvError message) w in
  close_with w.

(** The [while] of [pump_output]; one unit of fuel per iteration. *)
Fixpoint pump_output (fuel : nat) w : exec world :=
  match fuel with
  | O => OutOfFuel
  | S fuel' =>
      let s := sk w in
      if (out_offset_ s <? length (outbuf_ s))%nat then
        do chunk := slice (outbuf_ s) (out_offset_ s) (length (outbuf_ s) - out_offset_ s) in
        let '(sent, k) := Net.send (desc_ s) chunk (kn w) in
        let w := set_kn k w in
        if 0 <? count sent then
          let n := Z.to_nat (count sent) in
          let w := upd_hist (log_wire (WData (take n chunk))) w in
          pump_output fuel' (upd_sk (set_out (outbuf_ s) (out_offset_ s + n)) w)
        else if (count sent <? 0) && would_block (terror sent) then Done w
        else if (count sent <? 0) && (terror sent =? EINTR) then pump_output fuel' w
        else fail (describe (K := K) (terror sent) (str "send")) w
      else Done (upd_sk (set_out [] 0) w)
  end.

Definition write_after_end : bytes := str "ERR_STREAM_WRITE_AFTER_END: socket is not open".

Definition write (fuel : nat) (chunk : bytes) w : exec (bool * world) :=
  if negb (is_state (sk w) open_) then
    do w := fail write_after_end w in
    Done (false, w)
  else
    let had_backlog := has_backlog (sk w) in
    let w := upd_hist (log_accepted chunk)
               (upd_sk (fun s => set_out (append (outbuf_ s) chunk) (out_offset_ s) s) w) in
    do w := (if negb had_backlog then pump_output fuel w else Done w) in
    let buffered := has_backlog (sk w) in
    let w := if buffered then modify_interest (interest_or interest.read interest.write) w else w in
    Done (negb buffered, w).

Definition end_ w : world :=
  let w := upd_sk set_ended w in
  if is_state (sk w) open_ && negb (has_backlog (sk w)) then shutdown_write w else w.

Definition destroy w : exec world := close_with w.

Definition connection_state w : tcp_state := state_ (sk w).
Definition remote_address w : socket_address := peer_ (sk w).

Definition begin_reading w : world := set_lp (watch (lp w) (desc_ (sk w)) interest.read io_cb) w.

(** The local descriptor [d] is closed by its destructor on the early
    returns after it was opened; the error is emitted before that. *)
Definition fail_closing (d : Z) (message : bytes) w : exec world :=
  do w := fail message w in
  Done (set_kn (Net.close d (kn w)).2 w).

Definition start_connect (addr : socket_address) w : exec world :=
  let '(d, e, k) := Net.open (if is_inet6 addr then inet6 else inet) stream (kn w) in
  let w := set_kn k w in
  if negb (e =? errc_ok) then fail (describe (K := K) e (str "socket")) w
  else
    let '(nb, k) := set_nonblocking d (kn w) in
    let w := set_kn k w in
    if negb (nb =? errc_ok) then fail_closing d (describe (K := K) nb (str "socket")) w
    else
      let '(ec, k) := Net.connect d addr (kn w) in
      let w := set_kn k w in
      if negb (ec =? errc_ok) && negb (ec =? EINPROGRESS) then fail_closing d (describe (K := K) ec (str "connect")) w
      else
        let w := upd_hist (log_opened (valid (desc_ (sk w)))) w in
        let '(d, k) := move_assign (desc_ (sk w)) d (kn w) in
        let w := set_kn k (upd_sk (fun s => set_peer addr (set_state connecting (set_desc d s))) w) in
        Done (set_lp (watch (lp w) (desc_ (sk w)) interest.write io_cb) w).

(** [~socket]: the descriptor is closed, the loop is not told. *)
Definition destructor w : world :=
  let '(d, k) := Net.close (desc_ (sk w)) (kn w) in
  set_kn k (upd_sk (set_desc d) w).

(** [connect]: the job given to the thread pool, and the closure it defers. *)
Definition connect (port : Z) (host : bytes) w : world :=
  let '(addrs, k) := resolve host port false (kn w) in
  let w := set_kn k w in
  set_lp (defer (lp w) (connect_done addrs)) w.

Definition not_found : bytes := str "ENOTFOUND: getaddrinfo returned no results".

Definition on_resolved (addrs : list socket_address) w : exec world :=
  match addrs with
  | [] => fail not_found w
  | addr :: _ => start_connect addr w
  end.

Definition recv_size : nat := Z.to_nat 65536.

(** The [while (true)] of [drain_input]. *)
Fixpoint drain_input (fuel : nat) w : exec world :=
  match fuel with
  | O => OutOfFuel
  | S fuel' =>
      let '(got, tmp, k) := Net.recv (desc_ (sk w)) recv_size (kn w) in
      let w := set_kn k w in
      if 0 <? count got then
        let chunk := take (Z.to_nat (count got)) tmp in
        do w := emit (EvData (make_buffer chunk)) (upd_hist (log_arrived chunk) w) in
        drain_input fuel' w
      else if count got =? 0 then
        do w := emit EvEnd w in
        close_with w
      else if would_block (terror got) then Done w
      else if terror got =? EINTR then drain_input fuel' w
      else fail (describe (K := K) (terror got) (str "recv")) w
  end.

Definition on_connecting w : exec world :=
  let '(err, k) := pending_error (desc_ (sk w)) (kn w) in
  let w := set_kn k w in
  if negb (err =? errc_ok) then fail (describe (K := K) err (str "connect")) w
  else
    let w := modify_interest interest.read (upd_sk (set_state open_) w) in
    do w := emit EvConnect w in
    Done (if has_backlog (sk w) then modify_interest (interest_or interest.read interest.write) w else w).

Definition on_writable (fuel : nat) w : exec world :=
  do w := pump_output fuel w in
  if negb (has_backlog (sk w)) then
    do w := emit EvDrain (modify_interest interest.read w) in
    Done (if ended_ (sk w) then shutdown_write w else w)
  else Done w.

Definition on_io (fuel : nat) (r : ready) w : exec world :=
  match state_ (sk w) with
  | connecting => on_connecting w
  | open_ =>
      do w := (if writable r then on_writable fuel w else Done w) in
      if readable r || hangup r then drain_input fuel w else Done w
  | _ => Done w
  end.

(** ** Application programs

    A listener body: calls on the socket, each choosing how to continue from
    its result. *)
Inductive prog :=
  | PRet
  | PWrite (chunk : bytes) (k : bool -> prog)
  | PEnd (k : prog)
  | PDestroy (k : prog)
  | PConnect (port : Z) (host : bytes) (k : prog)
  | PState (k : tcp_state -> prog).

Fixpoint run_prog (fuel : nat) (p : prog) w : exec world :=
  match p with
  | PRet => Done w
  | PWrite chunk k => do (b, w) := write fuel chunk w in run_prog fuel (k b) w
  | PEnd k => run_prog fuel k (end_ w)
  | PDestroy k => do w := destroy w in run_prog fuel k w
  | PConnect port host k => run_prog fuel k (connect port host w)
  | PState k => run_prog fuel (k (connection_state w)) w
  end.

End socket.

(** [react depth] runs the application's listener for an event: the
    application updates its own state and chooses a program; calls the program
    makes may emit again, one level deeper. *)
Section react.
Context {K A D C : Type} `{Kernel K}.
Variable connect_done : list socket_address -> D.
Variable app : tcp_event -> A -> A * prog.
Variable fuel : nat.

Fixpoint react (depth : nat) (ev : tcp_event) (w : world K A D C) : exec (world K A D C) :=
  match depth with
  | O => OutOfFuel
  | S depth' =>
      let '(a, p) := app ev (env w) in
      run_prog connect_done (react depth') fuel p (mk_world (sk w) (lp w) (kn w) a (hist w))
  end.

(** What can happen to a socket from outside: readiness reported by the
    loop, calls by the application, the deferred end of [connect]. *)
Inductive stimulus :=
  | SIo (r : ready)
  | SCall (p : prog)
  | SResolved (addrs : list socket_address).

Definition stimulate (io_cb : C) (depth : nat) (s : stimulus) (w : world K A D C) : exec (world K A D C) :=
  match s with
  | SIo r => on_io (react depth) fuel r w
  | SCall p => run_prog connect_done (react depth) fuel p w
  | SResolved addrs => on_resolved io_cb (react depth) addrs w
  end.

Fixpoint stimulate_all (io_cb : C) (depth : nat) (ss : list stimulus) (w : world K A D C) : exec (world K A D C) :=
  match ss with
  | [] => Done w
  | s :: ss' => do w := stimulate io_cb depth s w in stimulate_all io_cb depth ss' w
  end.

End react.

(** ** Invariant *)

Definition wire_bytes (i : wire_item) : bytes := match i with WData b => b | WFin => [] end.
Definition sent (h : history) : bytes := concat (wire_bytes <$> wire h).

Definition data_bytes (ev : tcp_event) : bytes := match ev with EvData b => b | _ => [] end.
Definition delivered (h : history) : bytes := concat (data_bytes <$> trace h).

Definition is_close (ev : tcp_event) : bool := match ev with EvClose => true | _ => false end.
Definition closes (h : history) : nat := length (filter (fun ev => is_close ev = true) (trace h)).

(** The socket holds a descriptor exactly while it is connecting or open. *)
Definition active (s : socket) : bool := is_state s connecting || is_state s open_.

(** What the loop must be watching the descriptor for. *)
Definition watched_for (st : tcp_state) (i : Z) : Prop :=
  match st with
  | connecting => has i interest.write = true
  | open_ => has i interest.read = true
  | _ => True
  end.

Section invariant.
Context {K A D C : Type} `{KernelLaws K}.
Variable io_cb : C.
Abbreviation world := (world K A D C).
Implicit Types w : world.

(** Output: what was sent and what is still buffered is what [write] took. *)
Definition out_ok w : Prop :=
  (out_offset_ (sk w) <= length (outbuf_ (sk w)))%nat /\
  sent (hist w) ++ drop (out_offset_ (sk w)) (outbuf_ (sk w)) = accepted (hist w).

(** Descriptor: valid exactly when the state says so, then registered with
    the loop under this socket's closure; every descriptor acquired was given up
    with a [close] event, or was replaced without one, or is the one held. *)
Definition registered w : Prop :=
  exists i, watches_ (lp w) !! desc_ (sk w) = Some (mk_watch_entry i io_cb) /\ watched_for (state_ (sk w)) i.

Definition desc_ok w : Prop :=
  valid (desc_ (sk w)) = active (sk w) /\ (active (sk w) = true -> registered w) /\
  (closes (hist w) + replaced (hist w) + (if active (sk w) then 1 else 0) = opened (hist w))%nat.

Definition world_ok w : Prop :=
  loop_ok (lp w) /\ out_ok w /\ delivered (hist w) = arrived (hist w) /\ desc_ok w.

(** No stuck output: an open socket with a backlog waits for writability. *)
Definition output_live w : Prop :=
  state_ (sk w) = open_ -> has_backlog (sk w) = true ->
  exists i, watches_ (lp w) !! desc_ (sk w) = Some (mk_watch_entry i io_cb) /\ has i interest.write = true.

(** What every call, and every listener made of such calls, guarantees:
    listeners cannot reopen a socket. *)
Definition keeps w w' : Prop :=
  world_ok w' /\ (state_ (sk w) = closed -> state_ (sk w') = closed) /\
  (state_ (sk w') = connecting -> state_ (sk w) = connecting) /\
  (output_live w -> output_live w').

Lemma keeps_refl w : world_ok w -> keeps w w.
Proof. intros Hw. by split_and!. Qed.

Lemma keeps_trans w1 w2 w3 : keeps w1 w2 -> keeps w2 w3 -> keeps w1 w3.
Proof. intros (? & ? & ? & ?) (? & ? & ? & ?). split_and!; auto. Qed.

(** *** Steps that do not call listeners *)

Lemma delivered_snoc ev h : delivered (log_event ev h) = delivered h ++ data_bytes ev.
Proof. unfold delivered. simpl. rewrite fmap_app, concat_app. simpl. by rewrite app_nil_r. Qed.

Lemma sent_snoc i h : sent (log_wire i h) = sent h ++ wire_bytes i.
Proof. unfold sent. simpl. rewrite fmap_app, concat_app. simpl. by rewrite app_nil_r. Qed.

Lemma closes_snoc ev h : closes (log_event ev h) = (closes h + (if is_close ev then 1 else 0))%nat.
Proof. unfold closes. simpl. rewrite filter_app, length_app. f_equal. by destruct ev. Qed.

Lemma tcp_log_quiet_ok ev w :
  data_bytes ev = [] -> is_close ev = false -> world_ok w -> world_ok (upd_hist (log_event ev) w).
Proof.
  intros Hd Hc (Hl & Ho & Ha & Hv & Hr & Hn). split_and!; [done|exact Ho| |split_and!; [exact Hv|exact Hr|]].
  - simpl. by rewrite delivered_snoc, Hd, app_nil_r.
  - simpl in *. rewrite closes_snoc, Hc. simpl. lia.
Qed.

Lemma modify_lookup (l : loop D C) h i e :
  watches_ l !! h = Some e -> watches_ (modify l h i) !! h = Some (mk_watch_entry i (cb e)).
Proof. intros E. unfold modify. rewrite E. simpl. by rewrite lookup_insert_eq. Qed.

Lemma modify_interest_ok i w :
  (active (sk w) = true -> watched_for (state_ (sk w)) i) -> world_ok w -> world_ok (modify_interest i w).
Proof.
  intros Hi (Hl & Ho & Ha & Hv & Hr & Hn).
  split_and!; [by apply modify_ok|exact Ho|exact Ha|split_and!; [exact Hv| |exact Hn]].
  intros Hact. destruct (Hr Hact) as (j & Hj & _). exists i. split; [|auto].
  simpl. by rewrite (modify_lookup _ _ _ _ Hj).
Qed.

Lemma modify_interest_live i w :
  world_ok w -> (has_backlog (sk w) = true -> has i interest.write = true) -> output_live (modify_interest i w).
Proof.
  intros (_ & _ & _ & _ & Hr & _) Hi Hst Hb. simpl in Hst.
  assert (active (sk w) = true) as Hact by (unfold active, is_state; by rewrite Hst).
  destruct (Hr Hact) as (j & Hj & _). exists i. split; [|auto].
  simpl. by rewrite (modify_lookup _ _ _ _ Hj).
Qed.

Lemma shutdown_write_keeps w : world_ok w -> keeps w (shutdown_write w).
Proof.
  intros (Hl & [Ho Hs] & Ha & Hd). split_and!; [|done|done|done].
  split_and!; [done| |done|done]. split; [done|]. simpl. by rewrite sent_snoc, app_nil_r.
Qed.

Lemma end_keeps w : world_ok w -> keeps w (end_ w).
Proof.
  intros Hw. assert (keeps w (upd_sk set_ended w)) as He by by split_and!.
  unfold end_. branch; [|done]. branch; [done|].
  eapply keeps_trans; [exact He|]. apply shutdown_write_keeps, He.
Qed.

Lemma closed_unsafe_live w : state_ (sk w) <> open_ -> output_live w.
Proof. intros Hs Hst. congruence. Qed.

(** Closing a live descriptor, up to the emission of the event. *)
Lemma tcp_released_ok w k :
  world_ok w -> active (sk w) = true ->
  world_ok (upd_hist (log_event EvClose)
    (mk_world (set_desc invalid_handle (set_state closed (sk w))) (unwatch (lp w) (desc_ (sk w))) k (env w) (hist w))).
Proof.
  intros (Hl & Ho & Ha & Hv & Hr & Hn) Hact. rewrite Hact in Hn.
  split_and!; [by apply unwatch_ok|exact Ho| |split_and!; [done|done|]].
  - simpl. by rewrite delivered_snoc, app_nil_r.
  - simpl. rewrite closes_snoc. simpl. lia.
Qed.

Lemma set_closed_ok w : world_ok w -> active (sk w) = false -> world_ok (upd_sk (set_state closed) w).
Proof.
  intros (Hl & Ho & Ha & Hv & Hr & Hn) Hact. rewrite Hact in *.
  split_and!; [done|exact Ho|exact Ha|]. split_and!; [done|done|]. simpl. lia.
Qed.

(** The backlog as bytes are taken out of it, when it is emptied, and as
    [write] appends to it. *)
Lemma advanced_out w k n :
  out_ok w -> (0 < n <= length (outbuf_ (sk w)) - out_offset_ (sk w))%nat ->
  out_ok (upd_sk (set_out (outbuf_ (sk w)) (out_offset_ (sk w) + n))
    (upd_hist (log_wire (WData (take n (drop (out_offset_ (sk w)) (outbuf_ (sk w)))))) (set_kn k w))).
Proof.
  intros [Ho Hs] Hn. split; simpl; [lia|].
  rewrite sent_snoc, <- Hs, <- app_assoc. simpl. f_equal. rewrite <- drop_drop. apply take_drop.
Qed.

Lemma emptied_out w : out_ok w -> has_backlog (sk w) = false -> out_ok (upd_sk (set_out [] 0) w).
Proof.
  intros [Ho Hs] Hb. unfold has_backlog in Hb. split; simpl; [done|].
  rewrite drop_ge in Hs by lia. done.
Qed.

Lemma appended_out w chunk :
  out_ok w ->
  out_ok (upd_hist (log_accepted chunk)
            (upd_sk (fun s => set_out (append (outbuf_ s) chunk) (out_offset_ s) s) w)).
Proof.
  intros [Ho Hs]. unfold append. split; simpl; [rewrite length_app; lia|].
  rewrite drop_app_le by lia. rewrite <- Hs. by rewrite app_assoc.
Qed.

Lemma tcp_advance_ok w k n :
  world_ok w -> (0 < n <= length (outbuf_ (sk w)) - out_offset_ (sk w))%nat ->
  keeps w (upd_sk (set_out (outbuf_ (sk w)) (out_offset_ (sk w) + n))
    (upd_hist (log_wire (WData (take n (drop (out_offset_ (sk w)) (outbuf_ (sk w)))))) (set_kn k w))).
Proof.
  intros (Hl & Ho & Ha & Hd) Hn. split_and!; [|done|done|].
  - split_and!; [done|by apply advanced_out|done|done].
  - intros Hlive Hst Hb. apply Hlive; [done|]. unfold has_backlog in *. simpl in *. lia.
Qed.

Lemma emptied_ok w :
  world_ok w -> has_backlog (sk w) = false -> keeps w (upd_sk (set_out [] 0) w).
Proof.
  intros (Hl & Ho & Ha & Hd) Hb. split_and!; [|done|done|done].
  split_and!; [done|by apply emptied_out|done|done].
Qed.

Lemma appended_ok w chunk :
  world_ok w ->
  world_ok (upd_hist (log_accepted chunk)
              (upd_sk (fun s => set_out (append (outbuf_ s) chunk) (out_offset_ s) s) w)).
Proof. intros (Hl & Ho & Ha & Hd). split_and!; [done|by apply appended_out|done|done]. Qed.

(** A chunk came in and is announced. *)
Lemma tcp_arrived_ok chunk w :
  world_ok w -> world_ok (upd_hist (log_event (EvData chunk)) (upd_hist (log_arrived chunk) w)).
Proof.
  intros (Hl & Ho & Ha & Hv & Hr & Hn). split_and!; [done|exact Ho| |split_and!; [exact Hv|exact Hr|]].
  - simpl. rewrite delivered_snoc. simpl. by f_equal.
  - simpl. rewrite closes_snoc. simpl. unfold closes in *. simpl. lia.
Qed.

(** [connect] only defers. *)
Lemma connect_keeps connect_done port host w : world_ok w -> keeps w (connect connect_done port host w).
Proof.
  intros (Hl & Hrest). unfold connect. destruct (resolve _ _ _ _) as [addrs k].
  split_and!; [|done|done|done]. split; [by apply defer_ok|exact Hrest].
Qed.

(** The connection is established. *)
Lemma established_ok w :
  world_ok w -> state_ (sk w) = connecting -> world_ok (modify_interest interest.read (upd_sk (set_state open_) w)).
Proof.
  intros (Hl & Ho & Ha & Hv & Hr & Hn) Hst.
  assert (active (sk w) = true) as Hact by (unfold active, is_state; by rewrite Hst).
  rewrite Hact in *. destruct (Hr eq_refl) as (i & Hi & _).
  split_and!; [by apply modify_ok|exact Ho|exact Ha|]. split_and!; [done| |exact Hn].
  intros _. exists interest.read. split; [|done]. simpl. by rewrite (modify_lookup _ _ _ _ Hi).
Qed.

(** A new descriptor replaces whatever the socket had. *)
Lemma connecting_ok w d addr k :
  world_ok w -> 0 <= d ->
  world_ok (mk_world (set_peer addr (set_state connecting (set_desc d (sk w))))
              (watch (lp w) d interest.write io_cb) k (env w) (log_opened (valid (desc_ (sk w))) (hist w))).
Proof.
  intros (Hl & Ho & Ha & Hv & Hr & Hn) Hd.
  split_and!; [by apply watch_ok|exact Ho|exact Ha|split_and!].
  - change (valid d = true). unfold valid. lia.
  - intros _. exists interest.write. split; [|done]. simpl. by rewrite lookup_insert_eq.
  - rewrite <- Hv in Hn. unfold closes in *. simpl. destruct (valid (desc_ (sk w))); lia.
Qed.

(** *** Steps that call listeners *)

Variable listeners : tcp_event -> world -> exec world.
Hypothesis listeners_keep : forall ev w, world_ok w -> post (listeners ev w) (keeps w).

Definition shut w w' : Prop := keeps w w' /\ state_ (sk w') = closed.

Lemma shut_keeps m w : post m (shut w) -> post m (keeps w).
Proof. intros Hm. eapply post_mono; [exact Hm|]. by intros ? []. Qed.

Lemma emit_quiet_keeps ev w :
  data_bytes ev = [] -> is_close ev = false -> world_ok w -> post (emit listeners ev w) (keeps w).
Proof.
  intros Hd Hc Hw. eapply post_mono; [apply listeners_keep; by apply tcp_log_quiet_ok|].
  intros w' Hk. exact Hk.
Qed.

Lemma emit_data_keeps chunk w :
  world_ok w -> post (emit listeners (EvData chunk) (upd_hist (log_arrived chunk) w)) (keeps w).
Proof.
  intros Hw. eapply post_mono; [by apply listeners_keep, tcp_arrived_ok|]. intros w' Hk. exact Hk.
Qed.

Lemma close_with_keeps w : world_ok w -> post (close_with listeners w) (shut w).
Proof.
  intros Hw. destruct (Hw) as (_ & _ & _ & Hv & _). unfold close_with.
  destruct (active (sk w)) eqn:Hact.
  - assert (is_state (sk w) closed = false) as Hnc.
    { unfold active, is_state in *. by destruct (state_ (sk w)). }
    rewrite Hnc, Hv. cbn [negb andb]. unfold Net.close. unfold valid in Hv. simpl. rewrite Hv.
    eapply post_mono; [apply listeners_keep, (tcp_released_ok w); done|].
    intros w' (Hw' & Hcl & Hco & _). specialize (Hcl eq_refl).
    split; [|done]. split_and!; [done|done|congruence|]. intros _. apply closed_unsafe_live. congruence.
  - rewrite Hv, andb_false_r. simpl. split; [|done].
    split_and!; [by apply set_closed_ok|done|done|]. intros _. by apply closed_unsafe_live.
Qed.

Lemma fail_keeps m w : world_ok w -> post (fail listeners m w) (shut w).
Proof.
  intros Hw. eapply post_bind; [by apply (emit_quiet_keeps (EvError m))|].
  intros w1 Hk. eapply post_mono; [apply close_with_keeps, Hk|].
  intros w2 [Hk2 Hc]. split; [|done]. by eapply keeps_trans.
Qed.

Lemma pump_output_keeps fuel : forall w, world_ok w -> post (pump_output listeners fuel w) (keeps w).
Proof.
  induction fuel as [|fuel IH]; intros w Hw; [done|]. simpl.
  destruct (Nat.ltb_spec (out_offset_ (sk w)) (length (outbuf_ (sk w)))) as [Hlt|Hge].
  2: { simpl. apply emptied_ok; [done|]. unfold has_backlog. by apply Nat.ltb_ge. }
  rewrite slice_done by lia. simpl.
  rewrite (take_ge (drop _ _)) by (rewrite length_drop; lia).
  unfold Net.send. destruct (sys_send _ _ _) as [r k] eqn:Es.
  destruct r as [n|e]; simpl.
  - apply send_bounded in Es. rewrite length_drop in Es. branch.
    + pose proof (tcp_advance_ok w k (Z.to_nat n) Hw ltac:(lia)) as Hk.
      eapply post_mono; [apply IH, Hk|]. intros w' Hk'. by eapply keeps_trans.
    + branch; [lia|]. apply shut_keeps. by apply (fail_keeps _ (set_kn k w)).
  - branch; [by apply (keeps_refl (set_kn k w))|]. branch; [by apply (IH (set_kn k w))|].
    apply shut_keeps. by apply (fail_keeps _ (set_kn k w)).
Qed.

Definition rw : Z := interest_or interest.read interest.write.

Lemma rw_ok st : watched_for st rw.
Proof. by destruct st. Qed.

Lemma write_keeps fuel chunk w :
  world_ok w -> post (write listeners fuel chunk w) (fun r => keeps w r.2 /\ output_live r.2 \/ shut w r.2).
Proof.
  intros Hw. unfold write. destruct (is_state (sk w) open_) eqn:Hst; cbn [negb].
  2: { eapply post_bind; [by apply fail_keeps|]. intros w1 Hk. by right. }
  unfold is_state in Hst. apply bool_decide_eq_true in Hst.
  set (w1 := upd_hist _ _). assert (world_ok w1) as Hw1 by by apply appended_ok.
  assert (state_ (sk w1) = open_) as Hst1 by done.
  eapply (post_bind _ _ (fun w2 => world_ok w2 /\ state_ (sk w2) <> connecting)).
  { branch.
    - split; [done|]. rewrite Hst1. done.
    - eapply post_mono; [by apply pump_output_keeps|]. intros w2 (? & _ & Hco & _).
      split; [done|]. intros Hc. rewrite Hst1 in Hco. by specialize (Hco Hc). }
  intros w2 [Hw2 Hst2]. simpl. left.
  assert (output_live (if has_backlog (sk w2) then modify_interest rw w2 else w2) /\
          world_ok (if has_backlog (sk w2) then modify_interest rw w2 else w2)) as [Hlive Hok].
  { branch; [split; [by apply modify_interest_live|apply modify_interest_ok; [intros _; apply rw_ok|done]]|].
    split; [|done]. intros _ Hb. congruence. }
  split; [|done]. split_and!; [done|congruence| |done].
  intros Hco. destruct (has_backlog (sk w2)); by simpl in Hco.
Qed.

Lemma drain_input_keeps fuel : forall w, world_ok w -> post (drain_input listeners fuel w) (keeps w).
Proof.
  induction fuel as [|fuel IH]; intros w Hw; [done|]. simpl. unfold Net.recv.
  destruct (sys_recv _ _ _) as [[r data] k] eqn:Er.
  destruct r as [n|e]; simpl.
  - apply recv_bounded in Er as [En _]. branch.
    + rewrite make_buffer_id. eapply post_bind; [by apply (emit_data_keeps _ (set_kn k w))|].
      intros w1 Hk1. eapply post_mono; [apply IH, Hk1|]. intros w2 Hk2. by eapply keeps_trans.
    + branch; [|lia]. eapply post_bind; [by apply (emit_quiet_keeps EvEnd (set_kn k w))|].
      intros w1 Hk1. apply shut_keeps. eapply post_mono; [apply close_with_keeps, Hk1|].
      intros w2 [Hk2 ?]. split; [|done]. by eapply keeps_trans.
  - branch; [by apply (keeps_refl (set_kn k w))|]. branch; [by apply (IH (set_kn k w))|].
    apply shut_keeps. by apply (fail_keeps _ (set_kn k w)).
Qed.

Lemma on_connecting_keeps w :
  world_ok w -> state_ (sk w) = connecting -> post (on_connecting listeners w) (fun w' => keeps w w' /\ output_live w').
Proof.
  intros Hw Hst. unfold on_connecting. destruct (pending_error _ _) as [err k].
  destruct (err =? errc_ok); cbn [negb].
  2: { eapply post_mono; [by apply (fail_keeps _ (set_kn k w))|]. intros w' [Hk Hc]. split; [done|].
       apply closed_unsafe_live. congruence. }
  assert (world_ok (set_kn k w)) as Hw0 by done.
  eapply post_bind; [apply (emit_quiet_keeps EvConnect); [done|done|by apply established_ok]|].
  intros w2 (Hw2 & _ & Hco & _).
  assert (output_live (if has_backlog (sk w2) then modify_interest rw w2 else w2) /\
          world_ok (if has_backlog (sk w2) then modify_interest rw w2 else w2)) as [Hlive Hok].
  { branch; [split; [by apply modify_interest_live|apply modify_interest_ok; [intros _; apply rw_ok|done]]|].
    split; [|done]. intros _ Hb. congruence. }
  simpl. split; [|done]. split_and!; [done|congruence|done|done].
Qed.

Lemma on_writable_keeps fuel w :
  world_ok w -> state_ (sk w) = open_ -> post (on_writable listeners fuel w) (keeps w).
Proof.
  intros Hw Hst. unfold on_writable. eapply post_bind; [by apply pump_output_keeps|].
  intros w1 Hk1. destruct (has_backlog (sk w1)) eqn:Hb; cbn [negb]; [done|].
  assert (state_ (sk w1) <> connecting) as Hnc.
  { intros Hc. apply Hk1 in Hc. congruence. }
  assert (keeps w1 (modify_interest interest.read w1)) as Hkm.
  { split_and!; [|done|done|].
    - apply modify_interest_ok; [|apply Hk1]. unfold active, is_state, watched_for. by destruct (state_ (sk w1)).
    - intros _. apply modify_interest_live; [apply Hk1|]. intros ?. congruence. }
  eapply post_bind; [apply (emit_quiet_keeps EvDrain); [done|done|apply Hkm]|].
  intros w2 Hk2. assert (keeps w w2) as Hk by (repeat (eapply keeps_trans; [eassumption|]); by apply keeps_refl, Hk2).
  simpl. branch; [|done]. eapply keeps_trans; [exact Hk|]. apply shutdown_write_keeps, Hk.
Qed.

Lemma on_io_keeps fuel r w : world_ok w -> post (on_io listeners fuel r w) (keeps w).
Proof.
  intros Hw. unfold on_io. destruct (state_ (sk w)) eqn:Hst; try by apply keeps_refl.
  - eapply post_mono; [by apply on_connecting_keeps|]. by intros w' [].
  - eapply (post_bind _ _ (keeps w)).
    { branch; [by apply on_writable_keeps|by apply keeps_refl]. }
    intros w1 Hk1. branch; [|branch; [|done]];
      (eapply post_mono; [apply drain_input_keeps, Hk1|]; intros w2 Hk2; by eapply keeps_trans).
Qed.

Lemma run_prog_keeps connect_done fuel p :
  forall w, world_ok w -> post (run_prog connect_done listeners fuel p w) (keeps w).
Proof.
  induction p as [|chunk k IH|k IH|k IH|port host k IH|k IH]; intros w Hw; simpl; [by apply keeps_refl| | | | |by apply IH].
  - eapply post_bind; [by apply write_keeps|]. intros [b w1] Hk. simpl in Hk.
    assert (keeps w w1) as Hk1 by (destruct Hk as [[? _]|[? _]]; done).
    eapply post_mono; [apply IH, Hk1|]. intros w2 Hk2. by eapply keeps_trans.
  - pose proof (end_keeps w Hw) as Hk1. eapply post_mono; [apply IH, Hk1|]. intros w2 Hk2. by eapply keeps_trans.
  - eapply post_bind; [by apply close_with_keeps|]. intros w1 [Hk1 _].
    eapply post_mono; [apply IH, Hk1|]. intros w2 Hk2. by eapply keeps_trans.
  - pose proof (connect_keeps connect_done port host w Hw) as Hk1.
    eapply post_mono; [apply IH, Hk1|]. intros w2 Hk2. by eapply keeps_trans.
Qed.

Definition good w : Prop := world_ok w /\ output_live w.

Lemma shut_good w w' : shut w w' -> good w'.
Proof. intros [Hk Hc]. split; [apply Hk|]. apply closed_unsafe_live. congruence. Qed.

Lemma fail_closing_good d m w : world_ok w -> post (fail_closing listeners d m w) good.
Proof. intros Hw. eapply post_bind; [by apply fail_keeps|]. intros w1 Hs. exact (shut_good _ _ Hs). Qed.

Lemma start_connect_good addr w : world_ok w -> post (start_connect io_cb listeners addr w) good.
Proof.
  intros Hw. unfold start_connect, Net.open. destruct (sys_socket _ _ _) as [r k] eqn:Es.
  destruct r as [d|e]; simpl.
  2: { eapply post_mono; [by apply (fail_keeps _ (set_kn k w))|]. apply shut_good. }
  apply socket_nonneg in Es.
  destruct (set_nonblocking _ _) as [nb k1]. branch; [|by apply (fail_closing_good _ _ (set_kn k1 w))].
  destruct (Net.connect _ _ _) as [ec k2]. unfold move_assign. destruct (Net.close _ _) as [d' k3].
  assert (good (mk_world (set_peer addr (set_state connecting (set_desc d (sk w))))
              (watch (lp w) d interest.write io_cb) k3 (env w) (log_opened (valid (desc_ (sk w))) (hist w)))) as Hgo.
  { split; [by apply connecting_ok|]. by apply closed_unsafe_live. }
  branch; [exact Hgo|]. branch; [exact Hgo|]. by apply (fail_closing_good _ _ (set_kn k2 w)).
Qed.

End invariant.

(** ** Arbitrary applications *)

Section reachable.
Context {K A D C : Type} `{KernelLaws K}.
Variable io_cb : C.
Variable connect_done : list socket_address -> D.
Variable app : tcp_event -> A -> A * prog.
Variable fuel : nat.
Implicit Types w : world K A D C.

Lemma react_keeps depth ev w : world_ok io_cb w -> post (react connect_done app fuel depth ev w) (keeps io_cb w).
Proof.
  revert ev w. induction depth as [|depth IH]; intros ev w Hw; [done|]. simpl.
  destruct (app ev (env w)) as [a p]. exact (run_prog_keeps io_cb (react connect_done app fuel depth) IH connect_done fuel p (mk_world (sk w) (lp w) (kn w) a (hist w)) Hw).
Qed.

Lemma stimulate_good depth s w : good io_cb w -> post (stimulate connect_done app fuel io_cb depth s w) (good io_cb).
Proof.
  intros [Hw Hlive].
  assert (forall w', keeps io_cb w w' -> good io_cb w') as Hk by (intros w' (? & _ & _ & ?); split; auto).
  pose proof (react_keeps depth) as Hr.
  destruct s as [r|p|[|addr addrs]]; simpl.
  - eapply post_mono; [by apply on_io_keeps|done].
  - eapply post_mono; [by apply run_prog_keeps|done].
  - eapply post_mono; [by apply fail_keeps|apply shut_good].
  - by apply start_connect_good.
Qed.

Lemma stimulate_all_good depth ss :
  forall w, good io_cb w -> post (stimulate_all connect_done app fuel io_cb depth ss w) (good io_cb).
Proof.
  induction ss as [|s ss IH]; intros w Hw; [done|]. simpl.
  eapply post_bind; [by apply stimulate_good|]. apply IH.
Qed.

(** A socket as [create] makes it, or as the server does: adopted and watched. *)
Definition created (l : loop D C) (k : K) (a : A) : world K A D C := mk_world new_socket l k a no_history.
Definition adopted (d : Z) (p : socket_address) (l : loop D C) (k : K) (a : A) : world K A D C :=
  begin_reading io_cb (mk_world (adopted_socket d p) l k a (log_opened false no_history)).

Inductive initial : world K A D C -> Prop :=
  | initial_created l k a : loop_ok l -> initial (created l k a)
  | initial_adopted d p l k a : loop_ok l -> 0 <= d -> initial (adopted d p l k a).

Lemma initial_good w : initial w -> good io_cb w.
Proof.
  destruct 1 as [l k a Hl|d p l k a Hl Hd].
  - split; [|done]. split_and!; [done|done|done|]. by split_and!.
  - split; [|done]. split_and!; [by apply watch_ok|done|done|]. split_and!; [|intros _|done].
    + change (valid d = true). unfold valid. lia.
    + exists interest.read. split; [|done]. simpl. by rewrite lookup_insert_eq.
Qed.

Lemma reachable_good depth ss w w' :
  initial w -> stimulate_all connect_done app fuel io_cb depth ss w = Done w' -> good io_cb w'.
Proof. intros Hi. apply post_done, stimulate_all_good, initial_good, Hi. Qed.

(** C3. Stream integrity.  Whatever the application's listeners do and however
    the kernel splits transfers, no buffer access is out of bounds, and at
    every point the bytes handed to the kernel followed by the bytes still
    buffered are exactly the bytes [write] accepted, in order; the bytes
    delivered to the data listeners are exactly those the kernel returned. *)
Theorem tcp_stream_integrity depth ss w :
  initial w ->
  stimulate_all connect_done app fuel io_cb depth ss w <> Undef /\
  (forall w', stimulate_all connect_done app fuel io_cb depth ss w = Done w' ->
     sent (hist w') ++ drop (out_offset_ (sk w')) (outbuf_ (sk w')) = accepted (hist w') /\
     delivered (hist w') = arrived (hist w')).
Proof.
  intros Hi. split.
  - intros E. pose proof (stimulate_all_good depth ss w (initial_good _ Hi)) as Hp. by rewrite E in Hp.
  - intros w' E. destruct (reachable_good _ _ _ _ Hi E) as [(_ & [_ Ho] & Ha & _) _]. done.
Qed.

(** C23. Descriptor discipline.  The socket holds a descriptor exactly while it
    is connecting or open; then the loop watches it with this socket's
    callback, for writability while connecting and for readability while open.
    Of the descriptors it ever acquired one is held while it is active, one
    [close] was emitted for each that was closed by [close_with], and the others
    are those that a second [connect] replaced while they were live, which are
    closed without the event. *)
Theorem tcp_descriptor_lifecycle depth ss w w' :
  initial w -> stimulate_all connect_done app fuel io_cb depth ss w = Done w' ->
  valid (desc_ (sk w')) = active (sk w') /\ (active (sk w') = true -> registered io_cb w') /\
  (closes (hist w') + replaced (hist w') + (if active (sk w') then 1 else 0) = opened (hist w'))%nat.
Proof. intros Hi E. destruct (reachable_good _ _ _ _ Hi E) as [(_ & _ & _ & Hd) _]. exact Hd. Qed.

(** C12. No stuck output, for a socket whose methods are called by one thread at
    a time (from its listeners and from other code of the loop thread, each call
    running to its end).  Whenever control is back in the event loop, an open
    socket that still has buffered bytes is being watched for writability, so
    the next writable report resumes sending.  When [write] is called from
    another thread at the same time it does not hold: see
    [concurrent_write_loses_writability] in [TcpConcurrent]. *)
Theorem tcp_output_not_stuck depth ss w w' :
  initial w -> stimulate_all connect_done app fuel io_cb depth ss w = Done w' ->
  state_ (sk w') = open_ -> has_backlog (sk w') = true ->
  exists i, watches_ (lp w') !! desc_ (sk w') = Some (mk_watch_entry i io_cb) /\ has i interest.write = true.
Proof. intros Hi E. apply (reachable_good _ _ _ _ Hi E). Qed.

End reachable.

(** ** Termination *)

Section termination.
Context {K A D C : Type} `{KP : KernelProgress K} `{!KernelLaws K}.
Variable io_cb : C.
Variable listeners : tcp_event -> world K A D C -> exec (world K A D C).
Implicit Types w : world K A D C.

(** [returns m w]: [m] ends, having kept the invariant and consumed kernel
    work only. *)
Definition returns (m : exec (world K A D C)) w : Prop :=
  exists w', m = Done w' /\ keeps io_cb w w' /\ (work (kn w') <= work (kn w))%nat.

Hypothesis listeners_return : forall ev w, world_ok io_cb w -> returns (listeners ev w) w.

Lemma listeners_return_keep ev w : world_ok io_cb w -> post (listeners ev w) (keeps io_cb w).
Proof. intros Hw. by destruct (listeners_return ev w Hw) as (w' & -> & ? & _). Qed.

Lemma returns_bind m k w :
  returns m w -> (forall w1, keeps io_cb w w1 -> (work (kn w1) <= work (kn w))%nat -> returns (k w1) w1) ->
  returns (exec_bind m k) w.
Proof.
  intros (w1 & -> & Hk1 & Hw1) Hk. destruct (Hk w1 Hk1 Hw1) as (w2 & E2 & Hk2 & Hw2).
  exists w2. split_and!; [exact E2|by eapply keeps_trans|lia].
Qed.

Lemma returns_done w w' : keeps io_cb w w' -> (work (kn w') <= work (kn w))%nat -> returns (Done w') w.
Proof. intros. by exists w'. Qed.

(** A call that returns and is known to keep the invariant. *)
Lemma returns_of m w w' :
  m = Done w' -> post m (keeps io_cb w) -> (work (kn w') <= work (kn w))%nat -> returns m w.
Proof. intros -> ? ?. by exists w'. Qed.

Lemma emit_quiet_returns ev w :
  data_bytes ev = [] -> is_close ev = false -> world_ok io_cb w -> returns (emit listeners ev w) w.
Proof.
  intros Hd Hc Hw. destruct (listeners_return ev (upd_hist (log_event ev) w)) as (w' & E & _ & Hwk).
  { by apply tcp_log_quiet_ok. }
  eapply returns_of; [exact E| |exact Hwk]. by apply (emit_quiet_keeps _ _ listeners_return_keep).
Qed.

Lemma close_work_le (d : Z) (k : K) : (work (Net.close d k).2 <= work k)%nat.
Proof. unfold Net.close. branch; simpl; [apply close_work|done]. Qed.

Lemma close_with_returns w : world_ok io_cb w -> returns (close_with listeners w) w.
Proof.
  intros Hw. pose proof (close_with_keeps _ _ listeners_return_keep w Hw) as Hp.
  apply shut_keeps in Hp. revert Hp. unfold close_with.
  destruct (negb (is_state (sk w) closed) && valid (desc_ (sk w))) eqn:Hlive; cbn [negb].
  2: { intros Hp. by eexists. }
  pose proof (close_work_le (desc_ (sk w)) (kn w)) as Hcw.
  assert (active (sk w) = true) as Hact.
  { destruct Hw as (_ & _ & _ & Hv & _). apply andb_true_iff in Hlive as [_ Hl]. by rewrite <- Hv. }
  unfold valid in Hlive. apply andb_true_iff in Hlive as [_ Hl]. unfold Net.close in *. simpl in *. rewrite Hl in *.
  intros Hp. edestruct listeners_return as (w' & E & _ & Hwk); [apply (tcp_released_ok io_cb w); done|].
  eapply returns_of; [exact E|exact Hp|]. etransitivity; [exact Hwk|exact Hcw].
Qed.

Lemma fail_returns m w : world_ok io_cb w -> returns (fail listeners m w) w.
Proof.
  intros Hw. apply returns_bind; [by apply emit_quiet_returns|]. intros w1 Hk _. apply close_with_returns, Hk.
Qed.

Lemma returns_kn m k w : (work k <= work (kn w))%nat -> returns m (set_kn k w) -> returns m w.
Proof. intros Hk (w' & -> & Hkeep & Hwk). simpl in Hwk. exists w'. split_and!; [done|exact Hkeep|lia]. Qed.

Lemma pump_output_returns fuel : forall w,
  world_ok io_cb w -> (length (outbuf_ (sk w)) - out_offset_ (sk w) + work (kn w) < fuel)%nat ->
  returns (pump_output listeners fuel w) w.
Proof.
  induction fuel as [|fuel IH]; intros w Hw Hfuel; [lia|]. simpl.
  destruct (Nat.ltb_spec (out_offset_ (sk w)) (length (outbuf_ (sk w)))) as [Hlt|Hge].
  2: { eexists. split_and!; [done| |done]. apply emptied_ok; [done|]. unfold has_backlog. by apply Nat.ltb_ge. }
  rewrite slice_done by lia. simpl. rewrite (take_ge (drop _ _)) by (rewrite length_drop; lia).
  unfold Net.send. destruct (sys_send _ _ _) as [r k] eqn:Es.
  destruct (send_work _ _ _ _ _ Es) as [Hwk Hin].
  destruct r as [n|e]; simpl.
  - apply send_bounded in Es. rewrite length_drop in Es. branch.
    + pose proof (tcp_advance_ok io_cb w k (Z.to_nat n) Hw ltac:(lia)) as Hk.
      destruct (IH _ (proj1 Hk)) as (w' & E & Hk' & Hwk'); [simpl; lia|].
      exists w'. split_and!; [done|by eapply keeps_trans|simpl in Hwk'; lia].
    + branch; [lia|]. eapply returns_kn; [exact Hwk|]. by apply (fail_returns _ (set_kn k w)).
  - eapply returns_kn; [exact Hwk|]. branch; [apply returns_done; [by apply (keeps_refl io_cb (set_kn k w))|done]|].
    branch; [|by apply (fail_returns _ (set_kn k w))].
    apply (IH (set_kn k w)); [done|]. assert (work k < work (kn w))%nat by (apply Hin; simpl; by rewrite G0). simpl. lia.
Qed.

Lemma drain_input_returns fuel : forall w,
  world_ok io_cb w -> (work (kn w) < fuel)%nat -> returns (drain_input listeners fuel w) w.
Proof.
  induction fuel as [|fuel IH]; intros w Hw Hfuel; [lia|]. simpl. unfold Net.recv.
  destruct (sys_recv _ _ _) as [[r data] k] eqn:Er. destruct (recv_work _ _ _ _ _ _ Er) as [Hwk Hin].
  eapply returns_kn; [exact Hwk|]. destruct r as [n|e]; simpl.
  - apply recv_bounded in Er as [En _]. branch.
    + assert (work k < work (kn w))%nat as Hlt by (apply Hin; simpl; lia).
      rewrite make_buffer_id. apply returns_bind.
      * pose proof (emit_data_keeps _ _ listeners_return_keep (take (Z.to_nat n) data) (set_kn k w) Hw) as Hp.
        assert (world_ok io_cb (upd_hist (log_event (EvData (take (Z.to_nat n) data)))
                  (upd_hist (log_arrived (take (Z.to_nat n) data)) (set_kn k w)))) as Hw1.
        { by apply tcp_arrived_ok. }
        destruct (listeners_return (EvData (take (Z.to_nat n) data)) _ Hw1) as (w' & E & _ & Hwk').
        eapply returns_of; [exact E|exact Hp|exact Hwk'].
      * intros w1 Hk1 Hwk1. apply IH; [apply Hk1|]. simpl in Hwk1. lia.
    + branch; [|lia]. apply returns_bind; [by apply (emit_quiet_returns EvEnd (set_kn k w))|].
      intros w1 Hk1 _. apply close_with_returns, Hk1.
  - branch; [apply returns_done; [by apply (keeps_refl io_cb (set_kn k w))|done]|].
    branch; [|by apply (fail_returns _ (set_kn k w))].
    apply (IH (set_kn k w)); [done|]. assert (work k < work (kn w))%nat by (apply Hin; simpl; by rewrite G0). simpl. lia.
Qed.

Lemma shutdown_write_returns w : world_ok io_cb w -> returns (Done (shutdown_write w)) w.
Proof.
  intros Hw. apply returns_done; [by apply shutdown_write_keeps|]. unfold shutdown_write, Net.shutdown. simpl.
  pose proof (shutdown_work (desc_ (sk w)) 1 (kn w)) as Hs. by destruct (sys_shutdown _ _ _).
Qed.

Lemma pending_error_work (d : Z) (k : K) : (work (pending_error d k).2 <= work k)%nat.
Proof.
  unfold pending_error. pose proof (so_error_work d k) as Hs. destruct (sys_so_error d k) as [[[n|e] err] k'];
  exact Hs.
Qed.

(** What is known to keep the invariant by [post], and ends. *)
Lemma returns_post m w : (exists w', m = Done w' /\ (work (kn w') <= work (kn w))%nat) -> post m (keeps io_cb w) -> returns m w.
Proof. intros (w' & -> & Hwk) Hp. by exists w'. Qed.

Lemma on_connecting_returns w : world_ok io_cb w -> state_ (sk w) = connecting -> returns (on_connecting listeners w) w.
Proof.
  intros Hw Hst. apply returns_post.
  2: { eapply post_mono; [by apply (on_connecting_keeps _ _ listeners_return_keep)|]. by intros w' []. }
  unfold on_connecting. pose proof (pending_error_work (desc_ (sk w)) (kn w)) as Hpw.
  destruct (pending_error _ _) as [err k]. simpl in Hpw.
  destruct (err =? errc_ok); cbn [negb].
  - destruct (emit_quiet_returns EvConnect (modify_interest interest.read (upd_sk (set_state open_) (set_kn k w))))
      as (w1 & -> & _ & Hwk); [done|done|by apply established_ok|].
    eexists. split; [done|]. simpl in Hwk. branch; simpl; lia.
  - destruct (fail_returns (describe (K := K) err (str "connect")) (set_kn k w) Hw) as (w1 & -> & _ & Hwk).
    eexists. split; [done|]. simpl in Hwk. lia.
Qed.

Lemma on_writable_returns fuel w :
  world_ok io_cb w -> state_ (sk w) = open_ ->
  (length (outbuf_ (sk w)) - out_offset_ (sk w) + work (kn w) < fuel)%nat ->
  returns (on_writable listeners fuel w) w.
Proof.
  intros Hw Hst Hfuel. apply returns_post; [|by apply on_writable_keeps; [apply listeners_return_keep| |]].
  unfold on_writable. destruct (pump_output_returns fuel w Hw Hfuel) as (w1 & -> & Hk1 & Hwk1). simpl.
  destruct (has_backlog (sk w1)) eqn:Hb; cbn [negb]; [by eexists|].
  destruct (emit_quiet_returns EvDrain (modify_interest interest.read w1)) as (w2 & E2 & Hk2 & Hwk2); [done|done| |].
  { apply modify_interest_ok; [|apply Hk1]. destruct Hk1 as (_ & _ & Hco & _).
    unfold active, is_state, watched_for. destruct (state_ (sk w1)); try done. specialize (Hco eq_refl). congruence. }
  rewrite E2. simpl. simpl in Hwk2. destruct (ended_ (sk w2)); [|eexists; split; [done|lia]].
  destruct (shutdown_write_returns w2) as (w3 & E3 & _ & Hwk3); [apply Hk2|].
  exists w3. split; [exact E3|lia].
Qed.

(** C24. Every readiness report is handled in finitely many steps: if the
    listeners return, then so does [on_io], with an iteration bound of the
    bytes buffered plus the kernel's pending work; no loop spins. *)
Theorem on_io_returns fuel r w :
  world_ok io_cb w ->
  (length (outbuf_ (sk w)) - out_offset_ (sk w) + work (kn w) < fuel)%nat ->
  exists w', on_io listeners fuel r w = Done w' /\ world_ok io_cb w' /\ (work (kn w') <= work (kn w))%nat.
Proof.
  intros Hw Hfuel.
  assert (returns (on_io listeners fuel r w) w) as (w' & E & Hk & Hwk).
  { unfold on_io. destruct (state_ (sk w)) eqn:Hst; try (by apply returns_done; [apply keeps_refl|]).
    - by apply on_connecting_returns.
    - apply returns_bind.
      + branch; [by apply on_writable_returns|by apply returns_done; [apply keeps_refl|]].
      + intros w1 Hk1 Hwk1. assert (returns (drain_input listeners fuel w1) w1) as Hdr.
        { apply drain_input_returns; [apply Hk1|lia]. }
        branch; [done|]. branch; [done|]. by apply returns_done; [apply keeps_refl, Hk1|]. }
  exists w'. split_and!; [done|apply Hk|done].
Qed.

End termination.

(** ** Return value of [write] *)

(** C25. What [write] returns: [true] only when every byte ever accepted has
    been handed to the kernel; [false] on a socket that was open means that
    bytes are still buffered; on a socket that was not open nothing is
    accepted, [error] is emitted and the socket ends up closed. *)
Theorem write_result {K A D C} `{KernelLaws K} (io_cb : C) listeners fuel chunk (w w' : world K A D C) (b : bool) :
  (forall ev w, world_ok io_cb w -> post (listeners ev w) (keeps io_cb w)) ->
  world_ok io_cb w -> write listeners fuel chunk w = Done (b, w') ->
  match state_ (sk w) with
  | open_ => b = negb (has_backlog (sk w')) /\ (b = true -> sent (hist w') = accepted (hist w'))
  | _ => b = false /\ fail listeners write_after_end w = Done w' /\ state_ (sk w') = closed
  end.
Proof.
  intros Hlis Hw E.
  pose proof (write_keeps io_cb listeners Hlis fuel chunk w Hw) as Hp. rewrite E in Hp. simpl in Hp.
  assert (world_ok io_cb w') as Hw' by (destruct Hp as [[Hk _]|[Hk _]]; apply Hk).
  unfold write in E. unfold is_state in E. case_bool_decide as Hst; cbn [negb] in E.
  - rewrite Hst. apply exec_bind_done in E as (w1 & _ & E). injection E as <- <-.
    assert (has_backlog (sk (if has_backlog (sk w1) then modify_interest (interest_or interest.read interest.write) w1 else w1)) =
            has_backlog (sk w1)) as Eb by (destruct (has_backlog (sk w1)) eqn:Eh; exact Eh).
    rewrite Eb. split; [done|]. intros Hnb. destruct Hw' as (_ & [_ Ho] & _).
    rewrite drop_ge, app_nil_r in Ho; [done|]. unfold has_backlog in *. lia.
  - apply exec_bind_done in E as (w1 & E & [= <- <-]).
    pose proof (fail_keeps io_cb listeners Hlis write_after_end w Hw) as Hf. rewrite E in Hf.
    destruct Hf as [_ Hc]. by destruct (state_ (sk w)).
Qed.

(** ** Behaviour at the edges *)

(** Half-closing from a drain listener cuts the stream: when the listener
    leaves bytes buffered and has called [end], [on_io] sends the FIN at once,
    in front of those bytes. *)
Theorem end_in_drain_listener_truncates {K A D C} `{KernelLaws K} (io_cb : C) listeners fuel (w w1 w2 : world K A D C) :
  pump_output listeners fuel w = Done w1 -> has_backlog (sk w1) = false ->
  emit listeners EvDrain (modify_interest interest.read w1) = Done w2 ->
  ended_ (sk w2) = true -> has_backlog (sk w2) = true -> world_ok io_cb w2 ->
  exists w3, on_writable listeners fuel w = Done w3 /\ wire (hist w3) = wire (hist w2) ++ [WFin] /\
    (length (sent (hist w3)) < length (accepted (hist w3)))%nat.
Proof.
  intros E1 Hb1 E2 Hend Hb2 (_ & [_ Ho] & _). exists (shutdown_write w2). unfold on_writable.
  rewrite E1. simpl. rewrite Hb1. cbn [negb]. rewrite E2. simpl. rewrite Hend. split_and!; [done|done|].
  rewrite sent_snoc, app_nil_r, <- Ho, length_app, length_drop. unfold has_backlog in Hb2. lia.
Qed.

(** [destroy] does not cancel a pending [connect]: when the name is
    resolved afterwards, a closed socket opens a new descriptor and goes back
    to connecting, keeping bytes a previous connection left unsent. *)
Theorem destroy_does_not_cancel_connect {K A D C} `{KernelLaws K} (io_cb : C) listeners addr rest
    (w : world K A D C) d k1 k2 k3 :
  state_ (sk w) = closed -> desc_ (sk w) = invalid_handle ->
  Net.open (if is_inet6 addr then inet6 else inet) stream (kn w) = (d, errc_ok, k1) ->
  set_nonblocking d k1 = (errc_ok, k2) -> Net.connect d addr k2 = (EINPROGRESS, k3) ->
  exists w', on_resolved io_cb listeners (addr :: rest) w = Done w' /\
    state_ (sk w') = connecting /\ desc_ (sk w') = d /\
    outbuf_ (sk w') = outbuf_ (sk w) /\ out_offset_ (sk w') = out_offset_ (sk w) /\ trace (hist w') = trace (hist w).
Proof.
  intros Hst Hd E1 E2 E3. eexists. split.
  - simpl. unfold start_connect. rewrite E1. simpl. rewrite E2. simpl. rewrite E3. simpl. rewrite Hd. done.
  - done.
Qed.

(** An error listener that writes never returns once the socket is not
    open: [write] fails, which emits [error] again, so the calls nest without
    bound. *)
Theorem write_in_error_listener_diverges {K A D C} `{Kernel K} connect_done (app : tcp_event -> A -> A * prog) fuel chunk :
  (forall m a, exists k, (app (EvError m) a).2 = PWrite chunk k) ->
  forall depth m (w : world K A D C), state_ (sk w) <> open_ -> react connect_done app fuel depth (EvError m) w = OutOfFuel.
Proof.
  intros Happ. induction depth as [|depth IH]; intros m w Hst; [done|]. simpl.
  destruct (Happ m (env w)) as [k Hk]. destruct (app (EvError m) (env w)) as [a p]. simpl in Hk. subst p. simpl.
  unfold write, is_state. simpl. rewrite bool_decide_false by done. simpl.
  unfold fail, emit. by rewrite IH.
Qed.

(** Releasing the last reference to a live socket leaves its watch behind: the
    loop goes on polling a descriptor number that is closed. *)
Theorem destructor_leaves_watch {K A D C} `{KernelLaws K} (io_cb : C) (w : world K A D C) :
  world_ok io_cb w -> active (sk w) = true ->
  kn (destructor w) = sys_close (desc_ (sk w)) (kn w) /\ valid (desc_ (sk (destructor w))) = false /\
  exists i, watches_ (lp (destructor w)) !! desc_ (sk w) = Some (mk_watch_entry i io_cb).
Proof.
  intros (_ & _ & _ & Hv & Hr & _) Hact. rewrite Hact in Hv. unfold valid in Hv. unfold destructor, Net.close. rewrite Hv.
  split; [done|]. split; [done|]. destruct (Hr Hact) as (i & Hi & _). by exists i.
Qed.

Module examples.

Abbreviation W := (world Scripted.script unit (list socket_address) unit).

(** An accepted connection on descriptor 5. *)
Definition connection (k : Scripted.script) : W := adopted tt 5 no_address new_loop k tt.

Definition result (w0 : W) (m : exec W) : W := match m with Done w => w | _ => w0 end.

Definition silent (ev : tcp_event) (a : unit) : unit * prog := (a, PRet).

(** Echoes what it reads and closes at the end of the input. *)
Definition echo (ev : tcp_event) (a : unit) : unit * prog :=
  match ev with
  | EvData b => (a, PWrite b (fun _ => PRet))
  | EvEnd => (a, PEnd PRet)
  | _ => (a, PRet)
  end.

Definition may_send (ns : list Z) : list sysret := map (fun n => if n <? 0 then SysErr 11 else SysOk n) ns.
Definition incoming (b : bytes) := (SysOk 0, b, Scripted.nowhere).

Definition readable_ := mk_ready true false false false.
Definition writable_ := mk_ready false true false false.

Definition echo_kernel := Scripted.set_recvs (Scripted.set_sends Scripted.blank (may_send [3; -1; 9])) [incoming (str "hello")].
Definition echo_start := connection echo_kernel.
Definition echo_run := stimulate_all id echo 20 tt 5 [SIo readable_] echo_start.
Definition echo_end := result echo_start echo_run.

Lemma connection_initial k : initial tt (connection k).
Proof. constructor; [apply new_loop_ok|lia]. Qed.

Lemma tcp_stream_integrity_witness :
  echo_run = Done echo_end /\
  sent (hist echo_end) = str "hel" /\
  sent (hist echo_end) ++ drop (out_offset_ (sk echo_end)) (outbuf_ (sk echo_end)) = accepted (hist echo_end).
Proof.
  split; [by vm_compute|]. split; [by vm_compute|].
  apply (tcp_stream_integrity tt id echo 20 5 [SIo readable_] echo_start).
  - apply connection_initial.
  - by vm_compute.
Defined.

(** A socket that is told to connect a second time while it is connected. *)
Definition loopback := mk_address (str "abcd") 80 AF_INET.
Definition idle_start : W := created new_loop Scripted.blank tt.
Definition reconnect : list stimulus := [SResolved [loopback]; SIo writable_; SResolved [loopback]].
Definition reconnected := result idle_start (stimulate_all id silent 20 tt 5 reconnect idle_start).

Lemma tcp_descriptor_lifecycle_witness :
  opened (hist reconnected) = 2%nat /\ replaced (hist reconnected) = 1%nat /\
  valid (desc_ (sk reconnected)) = active (sk reconnected) /\
  (active (sk reconnected) = true -> registered tt reconnected) /\
  (closes (hist reconnected) + replaced (hist reconnected) + (if active (sk reconnected) then 1 else 0) = opened (hist reconnected))%nat.
Proof.
  split; [by vm_compute|]. split; [by vm_compute|].
  apply (tcp_descriptor_lifecycle tt id silent 20 5 reconnect idle_start).
  - apply initial_created, new_loop_ok.
  - by vm_compute.
Defined.

(** A second [connect] on a live socket closes the old descriptor behind the
    back of everybody: no [close] event, and the loop goes on polling the
    number. *)
Theorem reconnect_leaves_watch :
  trace (hist reconnected) = [EvConnect] /\ desc_ (sk reconnected) = 4 /\ Scripted.closed_fds (kn reconnected) = [3] /\
  watches_ (lp reconnected) !! 3 = Some (mk_watch_entry interest.read tt).
Proof. by vm_compute. Qed.

Lemma tcp_output_not_stuck_witness :
  exists i, watches_ (lp echo_end) !! desc_ (sk echo_end) = Some (mk_watch_entry i tt) /\ has i interest.write = true.
Proof.
  apply (tcp_output_not_stuck tt id echo 20 5 [SIo readable_] echo_start).
  - apply connection_initial.
  - by vm_compute.
  - by vm_compute.
  - by vm_compute.
Defined.

Lemma silent_returns (ev : tcp_event) (w : W) : world_ok tt w -> returns tt (react id silent 20 1 ev w) w.
Proof. intros Hw. destruct w. eexists. split_and!; [done|by apply keeps_refl|done]. Qed.

Lemma on_io_returns_witness :
  exists w', on_io (react id silent 20 1) 20 readable_ echo_start = Done w' /\ world_ok tt w' /\ (work (kn w') <= work (kn echo_start))%nat.
Proof.
  apply (on_io_returns tt (react id silent 20 1)).
  - apply silent_returns.
  - apply initial_good, connection_initial.
  - vm_compute. lia.
Defined.

Definition write_run := write (react id silent 20 1) 20 (str "hello") echo_start.
Definition write_end := match write_run with Done (_, w) => w | _ => echo_start end.

Lemma write_result_witness :
  write_run = Done (false, write_end) /\
  (false = negb (has_backlog (sk write_end)) /\ (false = true -> sent (hist write_end) = accepted (hist write_end))).
Proof.
  split; [by vm_compute|].
  apply (write_result tt (react id silent 20 1) 20 (str "hello") echo_start write_end false).
  - intros ev w Hw. by apply react_keeps.
  - apply initial_good, connection_initial.
  - by vm_compute.
Defined.

(** A drain listener that sends a last chunk and ends. *)
Definition last_chunk (ev : tcp_event) (a : unit) : unit * prog :=
  match ev with
  | EvDrain => (a, PWrite (str "bbbb") (fun _ => PEnd PRet))
  | _ => (a, PRet)
  end.

Definition truncating_kernel := Scripted.set_sends Scripted.blank (may_send [2; -1; 2; 1; -1; 9]).
Definition truncating_start := connection truncating_kernel.
Definition backlogged :=
  result truncating_start (stimulate_all id last_chunk 20 tt 5 [SCall (PWrite (str "aaaa") (fun _ => PRet))] truncating_start).
Definition pumped := result backlogged (pump_output (react id last_chunk 20 5) 20 backlogged).
Definition drained := result pumped (emit (react id last_chunk 20 5) EvDrain (modify_interest interest.read pumped)).

Lemma backlogged_ok : world_ok tt backlogged.
Proof.
  assert (stimulate_all id last_chunk 20 tt 5 [SCall (PWrite (str "aaaa") (fun _ => PRet))] truncating_start =
          Done backlogged) as E by by vm_compute.
  exact (proj1 (reachable_good _ _ _ _ _ _ _ _ (connection_initial truncating_kernel) E)).
Qed.

Lemma pumped_ok : world_ok tt pumped.
Proof.
  assert (pump_output (react id last_chunk 20 5) 20 backlogged = Done pumped) as E by by vm_compute.
  exact (proj1 (post_done _ _ _ (pump_output_keeps tt _ (react_keeps tt id last_chunk 20 5) 20 _ backlogged_ok) E)).
Qed.

Lemma drained_ok : world_ok tt drained.
Proof.
  assert (emit (react id last_chunk 20 5) EvDrain (modify_interest interest.read pumped) = Done drained) as E by by vm_compute.
  assert (world_ok tt (modify_interest interest.read pumped)) as Hm.
  { apply modify_interest_ok; [|exact pumped_ok]. by vm_compute. }
  exact (proj1 (post_done _ _ _
    (emit_quiet_keeps tt _ (react_keeps tt id last_chunk 20 5) EvDrain _ eq_refl eq_refl Hm) E)).
Qed.

Lemma end_in_drain_listener_truncates_witness :
  exists w3, on_writable (react id last_chunk 20 5) 20 backlogged = Done w3 /\
    wire (hist w3) = [WData (str "aa"); WData (str "aa"); WData (str "b")] ++ [WFin] /\
    (length (sent (hist w3)) < length (accepted (hist w3)))%nat.
Proof.
  change [WData (str "aa"); WData (str "aa"); WData (str "b")] with (wire (hist drained)).
  apply (end_in_drain_listener_truncates tt (react id last_chunk 20 5) 20 backlogged pumped drained).
  - by vm_compute.
  - by vm_compute.
  - by vm_compute.
  - by vm_compute.
  - by vm_compute.
  - apply drained_ok.
Defined.

Definition destroyed : W := mk_world (set_state closed new_socket) new_loop Scripted.blank tt no_history.

Lemma destroy_does_not_cancel_connect_witness :
  exists w', on_resolved tt (react id silent 20 1) [loopback] destroyed = Done w' /\ state_ (sk w') = connecting /\
    desc_ (sk w') = 3 /\ outbuf_ (sk w') = [] /\ out_offset_ (sk w') = 0%nat /\ trace (hist w') = [].
Proof.
  eapply (destroy_does_not_cancel_connect tt (react id silent 20 1) loopback [] destroyed 3).
  - done.
  - done.
  - done.
  - done.
  - done.
Defined.

Definition complaining (ev : tcp_event) (a : unit) : unit * prog :=
  match ev with
  | EvError _ => (a, PWrite (str "bye") (fun _ => PRet))
  | _ => (a, PRet)
  end.

Lemma write_in_error_listener_diverges_witness :
  react id complaining 20 1000 (EvError (str "reset")) destroyed = OutOfFuel.
Proof.
  apply (write_in_error_listener_diverges id complaining 20 (str "bye")).
  - intros m a. by eexists.
  - done.
Defined.

(** A data listener that destroys the socket. *)
Definition destroying (ev : tcp_event) (a : unit) : unit * prog :=
  match ev with
  | EvData _ => (a, PDestroy PRet)
  | _ => (a, PRet)
  end.

(** Destroying the socket from a data listener reports a spurious error:
    [drain_input] goes on to read from the closed descriptor, so that after
    [data] and [close] the application gets an [error] it must not get. *)
Theorem destroy_in_data_listener_reports_error :
  let w := result echo_start (stimulate_all id destroying 20 tt 5 [SIo readable_] echo_start) in
  state_ (sk w) = closed /\
  trace (hist w) = [EvData (str "hello"); EvClose; EvError (describe (K := Scripted.script) EBADF (str "recv"))].
Proof. by vm_compute. Qed.

End examples.
