(* ===== verification/TcpConcurrent.v ===== *)
(** * [protocol::tcp::socket] under concurrent calls

    The socket's methods may be called from any thread.  [TcpSocket] has them
    as functions that run to the end; here the same code is cut at the points
    where another thread can come in between.  A thread is a stack of frames,
    and the mutex of the socket is part of the state.  [write] and
    [pump_output] are cut into single reads, writes and system calls, so that
    what they do to the output buffer is whole only because of the mutex; a
    section of another method that is one frame touches the members once.
    [choose] executes one scheduling decision, [run_schedule] a sequence of
    them.  The socket, the loop, the kernel and the history are
    the [world] of [TcpSocket].  The last section relates the two models. *)

From S2P Require Import Prelude Poller EventLoop Net TcpSocket.
#[local] Open Scope Z_scope.

(** What a thread still has to do, innermost first. *)
Inductive frame :=
  (* std::unique_lock: acquiring and releasing mutex_ *)
  | FLock
  | FUnlock
  (* application code *)
  | FProg (p : prog)
  | FEmit (ev : tcp_event)
  (* core::thread_pool::submit in connect() *)
  | FSubmit (port : Z) (host : bytes)
  (* loop_.modify, loop_.unwatch, loop_.watch: they take the loop's own lock *)
  | FModify (i : Z)
  | FUnwatch
  | FWatch (i : Z)
  (* write(): the test of the state, the reading of had_backlog, the appending,
     which reads the buffer and then stores it, and the result *)
  | FWriteBody (chunk : bytes) (k : bool -> prog)
  | FHadBacklog (chunk : bytes) (k : bool -> prog)
  | FAppend (chunk : bytes)
  | FStore (chunk old : bytes)
  | FWriteTail (k : bool -> prog)
  (* pump_output(): the test of the loop, the system call on the span that was
     computed from it, the update of the offset, and the reset at the end *)
  | FPump
  | FSend (off len : nat)
  | FAdvance (n : nat)
  | FSetOffset (off : nat)
  | FClear
  (* end(), connection_state() *)
  | FEnd
  | FReadState (k : tcp_state -> prog)
  (* fail(), close_with() *)
  | FFail (message : bytes)
  | FClose
  | FCloseDecide
  | FCloseDesc
  (* on_io(): its first section, the connecting branch, the writable branch *)
  | FOnIo (r : ready)
  | FIoState (r : ready)
  | FPendingError
  | FSetOpen
  | FRearm
  | FDrained
  | FShutIfEnded
  (* one iteration of drain_input(), and its end *)
  | FRecv
  (* start_connect(): before each system call, and its section *)
  | FResolved (addrs : list socket_address)
  | FStartConnect (addr : socket_address)
  | FNonblocking (d : Z) (addr : socket_address)
  | FConnect (d : Z) (addr : socket_address)
  | FPublish (d : Z) (addr : socket_address)
  | FCloseLocal (d : Z).

Abbreviation stack := (list frame).

(** The shared state, the holder of [mutex_], the jobs [connect] gave to the
    thread pool, and the threads; thread 0 is the loop thread. *)
Record system (K A D C : Type) := mk_system {
  shared : world K A D C;
  owner : option nat;
  jobs : list (Z * bytes);
  threads : list stack
}.
Arguments mk_system {K A D C}.
Arguments shared {K A D C}.
Arguments owner {K A D C}.
Arguments jobs {K A D C}.
Arguments threads {K A D C}.

(** What the scheduler, the kernel and the application can make happen next:
    a thread runs one frame, a pool worker runs a job, the loop thread begins
    to handle a readiness report or the deferred end of a [connect], a thread
    begins a program of calls. *)
Inductive choice :=
  | Run (t : nat)
  | Work
  | Io (r : ready)
  | Resolved (addrs : list socket_address)
  | Call (t : nat) (p : prog).

Section system.
Context {K A D C : Type} `{Kernel K}.
Abbreviation world := (world K A D C).
Abbreviation system := (system K A D C).
Implicit Types (w : world) (s : system).

Variable io_cb : C.
Variable connect_done : list socket_address -> D.
Variable app : tcp_event -> A -> A * prog.

(** The next piece of a thread of the application. *)
Definition prog_step (p : prog) : stack :=
  match p with
  | PRet => []
  | PWrite chunk k => [FLock; FWriteBody chunk k]
  | PEnd k => [FLock; FEnd; FUnlock; FProg k]
  | PDestroy k => [FClose; FProg k]
  | PConnect port host k => [FSubmit port host; FProg k]
  | PState k => [FLock; FReadState k]
  end.

(** [x_.emit(...)]: the application's listener runs on the emitting thread. *)
Definition emit_step (ev : tcp_event) w : stack * world :=
  let '(a, p) := app ev (env w) in
  ([FProg p], mk_world (sk w) (lp w) (kn w) a (log_event ev (hist w))).

Definition write_body (chunk : bytes) (k : bool -> prog) w : stack :=
  if negb (is_state (sk w) open_) then [FUnlock; FFail write_after_end; FProg (k false)]
  else [FHadBacklog chunk k].

Definition had_backlog (chunk : bytes) (k : bool -> prog) w : stack :=
  FAppend chunk :: (if negb (has_backlog (sk w)) then [FPump] else []) ++ [FWriteTail k].

(** [core::append(outbuf_, chunk)] once the buffer was read. *)
Definition store (chunk old : bytes) w : world :=
  upd_hist (log_accepted chunk) (upd_sk (fun s : socket => set_out (append old chunk) (out_offset_ s) s) w).

Definition write_tail (k : bool -> prog) w : stack :=
  let buffered := has_backlog (sk w) in
  (if buffered then [FModify rw] else []) ++ [FUnlock; FProg (k (negb buffered))].

(** The test of the [while] of [pump_output], the lock held on entry and on
    exit. *)
Definition pump_step w : stack :=
  let s := sk w in
  if (out_offset_ s <? length (outbuf_ s))%nat then [FSend (out_offset_ s) (length (outbuf_ s) - out_offset_ s)]
  else [FClear].

(** [sock::send]: the kernel reads the memory of the span. *)
Definition send_step (off len : nat) w : exec (stack * world) :=
  do chunk := slice (outbuf_ (sk w)) off len in
  let '(sent, k) := Net.send (desc_ (sk w)) chunk (kn w) in
  let w := set_kn k w in
  if 0 <? count sent then
    let n := Z.to_nat (count sent) in
    Done ([FAdvance n; FPump], upd_hist (log_wire (WData (take n chunk))) w)
  else if (count sent <? 0) && would_block (terror sent) then Done ([], w)
  else if (count sent <? 0) && (terror sent =? EINTR) then Done ([FPump], w)
  else Done ([FUnlock; FFail (describe (K := K) (terror sent) (str "send")); FLock], w).

Definition set_offset (off : nat) w : world := upd_sk (fun s : socket => set_out (outbuf_ s) off s) w.
Definition clear w : world := upd_sk (fun s : socket => set_out [] (out_offset_ s) s) w.

(** The first section of [close_with], with what the answer leads to. *)
Definition close_decide w : stack * world :=
  let was_live := negb (is_state (sk w) closed) && valid (desc_ (sk w)) in
  (FUnlock :: (if negb was_live then [] else [FUnwatch; FLock; FCloseDesc; FUnlock; FEmit EvClose]),
   upd_sk (set_state closed) w).

Definition close_desc w : world :=
  let '(d, k) := Net.close (desc_ (sk w)) (kn w) in set_kn k (upd_sk (set_desc d) w).

(** The first section of [on_io] and the branch on [current]. *)
Definition io_state (r : ready) w : stack :=
  FUnlock ::
  match state_ (sk w) with
  | connecting => [FPendingError]
  | open_ =>
      (if writable r then [FLock; FPump; FDrained] else []) ++
      (if readable r || hangup r then [FRecv] else [])
  | _ => []
  end.

Definition pending_step w : stack * world :=
  let '(err, k) := pending_error (desc_ (sk w)) (kn w) in
  let w := set_kn k w in
  if negb (err =? errc_ok) then ([FFail (describe (K := K) err (str "connect"))], w)
  else
    ([FLock; FSetOpen; FUnlock; FModify interest.read; FEmit EvConnect; FLock; FRearm; FUnlock], w).

Definition drained_step w : stack :=
  FUnlock ::
  (if negb (has_backlog (sk w))
   then [FModify interest.read; FEmit EvDrain; FLock; FShutIfEnded; FUnlock] else []).

(** One iteration of [drain_input]. *)
Definition recv_step w : stack * world :=
  let '(got, tmp, k) := Net.recv (desc_ (sk w)) recv_size (kn w) in
  let w := set_kn k w in
  if 0 <? count got then
    let chunk := take (Z.to_nat (count got)) tmp in
    ([FEmit (EvData (make_buffer chunk)); FRecv], upd_hist (log_arrived chunk) w)
  else if count got =? 0 then ([FEmit EvEnd; FClose], w)
  else if would_block (terror got) then ([], w)
  else if terror got =? EINTR then ([FRecv], w)
  else ([FFail (describe (K := K) (terror got) (str "recv"))], w).

Definition resolved_step (addrs : list socket_address) : stack :=
  match addrs with
  | [] => [FFail not_found]
  | addr :: _ => [FStartConnect addr]
  end.

Definition open_step (addr : socket_address) w : stack * world :=
  let '(d, e, k) := Net.open (if is_inet6 addr then inet6 else inet) stream (kn w) in
  let w := set_kn k w in
  if negb (e =? errc_ok) then ([FFail (describe (K := K) e (str "socket"))], w)
  else ([FNonblocking d addr], w).

Definition nonblocking_step (d : Z) (addr : socket_address) w : stack * world :=
  let '(nb, k) := set_nonblocking d (kn w) in
  let w := set_kn k w in
  if negb (nb =? errc_ok) then ([FFail (describe (K := K) nb (str "socket")); FCloseLocal d], w)
  else ([FConnect d addr], w).

Definition connect_step (d : Z) (addr : socket_address) w : stack * world :=
  let '(ec, k) := Net.connect d addr (kn w) in
  let w := set_kn k w in
  if negb (ec =? errc_ok) && negb (ec =? EINPROGRESS)
  then ([FFail (describe (K := K) ec (str "connect")); FCloseLocal d], w)
  else ([FLock; FPublish d addr; FUnlock; FWatch interest.write], w).

(** The section of [start_connect] that makes the new descriptor the
    socket's. *)
Definition publish (d : Z) (addr : socket_address) w : world :=
  let w := upd_hist (log_opened (valid (desc_ (sk w)))) w in
  let '(d, k) := move_assign (desc_ (sk w)) d (kn w) in
  set_kn k (upd_sk (fun s : socket => set_peer addr (set_state connecting (set_desc d s))) w).

(** One frame other than the three that concern the system: the frames that
    take its place, and the new shared state. *)
Definition frame_step (f : frame) w : exec (stack * world) :=
  match f with
  | FLock | FUnlock | FSubmit _ _ => Done ([], w)
  | FProg p => Done (prog_step p, w)
  | FEmit ev => Done (emit_step ev w)
  | FModify i => Done ([], modify_interest i w)
  | FUnwatch => Done ([], set_lp (unwatch (lp w) (desc_ (sk w))) w)
  | FWatch i => Done ([], set_lp (watch (lp w) (desc_ (sk w)) i io_cb) w)
  | FWriteBody chunk k => Done (write_body chunk k w, w)
  | FHadBacklog chunk k => Done (had_backlog chunk k w, w)
  | FAppend chunk => Done ([FStore chunk (outbuf_ (sk w))], w)
  | FStore chunk old => Done ([], store chunk old w)
  | FWriteTail k => Done (write_tail k w, w)
  | FPump => Done (pump_step w, w)
  | FSend off len => send_step off len w
  | FAdvance n => Done ([FSetOffset (out_offset_ (sk w) + n)], w)
  | FSetOffset off => Done ([], set_offset off w)
  | FClear => Done ([FSetOffset 0], clear w)
  | FEnd => Done ([], end_ w)
  | FReadState k => Done ([FUnlock; FProg (k (state_ (sk w)))], w)
  | FFail m => Done ([FEmit (EvError m); FClose], w)
  | FClose => Done ([FLock; FCloseDecide], w)
  | FCloseDecide => Done (close_decide w)
  | FCloseDesc => Done ([], close_desc w)
  | FOnIo r => Done ([FLock; FIoState r], w)
  | FIoState r => Done (io_state r w, w)
  | FPendingError => Done (pending_step w)
  | FSetOpen => Done ([], upd_sk (set_state open_) w)
  | FRearm => Done (if has_backlog (sk w) then [FModify rw] else [], w)
  | FDrained => Done (drained_step w, w)
  | FShutIfEnded => Done ([], if ended_ (sk w) then shutdown_write w else w)
  | FRecv => Done (recv_step w)
  | FResolved addrs => Done (resolved_step addrs, w)
  | FStartConnect addr => Done (open_step addr w)
  | FNonblocking d addr => Done (nonblocking_step d addr w)
  | FConnect d addr => Done (connect_step d addr w)
  | FPublish d addr => Done ([], publish d addr w)
  | FCloseLocal d => Done ([], set_kn (Net.close d (kn w)).2 w)
  end.

Definition set_thread (t : nat) (fs : stack) (o : option nat) w s : system :=
  mk_system w o (jobs s) (<[t := fs]> (threads s)).

(** Thread [t] runs its innermost frame; [None] when it has none, or waits for
    the mutex. *)
Definition thread_step (t : nat) s : exec (option system) :=
  match threads s !! t with
  | Some (FLock :: fs) =>
      match owner s with
      | None => Done (Some (set_thread t fs (Some t) (shared s) s))
      | Some _ => Done None
      end
  | Some (FUnlock :: fs) => Done (Some (set_thread t fs None (shared s) s))
  | Some (FSubmit port host :: fs) =>
      Done (Some (mk_system (shared s) (owner s) (jobs s ++ [(port, host)]) (<[t := fs]> (threads s))))
  | Some (f :: fs) =>
      do (new, w) := frame_step f (shared s) in
      Done (Some (set_thread t (new ++ fs) (owner s) w s))
  | _ => Done None
  end.

(** An idle thread begins a piece of code. *)
Definition begin (t : nat) (f : frame) s : exec (option system) :=
  match threads s !! t with
  | Some [] => Done (Some (set_thread t [f] (owner s) (shared s) s))
  | _ => Done None
  end.

(** A pool worker resolves the host and defers the rest to the loop. *)
Definition work_step s : exec (option system) :=
  match jobs s with
  | (port, host) :: js =>
      Done (Some (mk_system (connect connect_done port host (shared s)) (owner s) js (threads s)))
  | [] => Done None
  end.

Definition choose (c : choice) s : exec (option system) :=
  match c with
  | Run t => thread_step t s
  | Work => work_step s
  | Io r => begin 0 (FOnIo r) s
  | Resolved addrs => begin 0 (FResolved addrs) s
  | Call t p => begin t (FProg p) s
  end.

(** A decision that is not possible changes nothing. *)
Fixpoint run_schedule (cs : list choice) s : exec system :=
  match cs with
  | [] => Done s
  | c :: cs' =>
      do o := choose c s in
      run_schedule cs' (default s o)
  end.

(** [n] idle threads over a socket. *)
Definition start (n : nat) w : system := mk_system w None [] (replicate n []).

End system.

(** ** Lock discipline *)

(** Whether a frame runs with the mutex held, and whether it is held when the
    frame and what takes its place are done; [loop_.modify] is called both
    ways. *)
Definition lock_change (f : frame) : option (bool * bool) :=
  match f with
  | FLock => Some (false, true)
  | FUnlock | FWriteBody _ _ | FHadBacklog _ _ | FWriteTail _ | FReadState _ | FCloseDecide | FIoState _ | FDrained => Some (true, false)
  | FAppend _ | FStore _ _ | FPump | FSend _ _ | FAdvance _ | FSetOffset _ | FClear
  | FEnd | FCloseDesc | FSetOpen | FRearm | FShutIfEnded | FPublish _ _ => Some (true, true)
  | FModify _ => None
  | _ => Some (false, false)
  end.

(** A stack that locks and unlocks in turn, from the given state to free. *)
Fixpoint bracketed (held : bool) (fs : stack) : bool :=
  match fs with
  | [] => negb held
  | f :: fs' =>
      match lock_change f with
      | Some (b, a) => eqb held b && bracketed a fs'
      | None => bracketed held fs'
      end
  end.

(** The frames that [frame_step] runs. *)
Definition plain (f : frame) : bool :=
  match f with FLock | FUnlock | FSubmit _ _ => false | _ => true end.

Definition entry (f : frame) : bool :=
  match f with FOnIo _ | FResolved _ | FProg _ => true | _ => false end.

(** Splits the code of a frame into its branches. *)
Ltac frame_cases E :=
  simpl in E;
  unfold emit_step, prog_step, write_body, had_backlog, write_tail, pump_step, send_step, close_decide, io_state, pending_step,
    drained_step, recv_step, resolved_step, open_step, nonblocking_step, connect_step in E;
  repeat match type of E with
  | context [match ?x with _ => _ end] => destruct x; simpl in E
  | context [exec_bind ?m _] => destruct m; simpl in E
  end; simplify_eq.

Section steps.
Context {K A D C : Type} `{Kernel K}.
Variable io_cb : C.
Variable connect_done : list socket_address -> D.
Variable app : tcp_event -> A -> A * prog.
Abbreviation system := (system K A D C).
Implicit Types (w : world K A D C) (s : system).

(** The possible steps as a relation, for reasoning by cases. *)
Inductive step s : system -> Prop :=
  | step_lock t fs :
      threads s !! t = Some (FLock :: fs) -> owner s = None ->
      step s (set_thread t fs (Some t) (shared s) s)
  | step_unlock t fs :
      threads s !! t = Some (FUnlock :: fs) -> step s (set_thread t fs None (shared s) s)
  | step_submit t port host fs :
      threads s !! t = Some (FSubmit port host :: fs) ->
      step s (mk_system (shared s) (owner s) (jobs s ++ [(port, host)]) (<[t := fs]> (threads s)))
  | step_frame t f fs new w :
      threads s !! t = Some (f :: fs) -> plain f = true ->
      frame_step io_cb app f (shared s) = Done (new, w) ->
      step s (set_thread t (new ++ fs) (owner s) w s)
  | step_work port host js :
      jobs s = (port, host) :: js ->
      step s (mk_system (connect connect_done port host (shared s)) (owner s) js (threads s))
  | step_begin t f :
      threads s !! t = Some [] -> entry f = true ->
      step s (set_thread t [f] (owner s) (shared s) s).

Lemma thread_step_plain t f fs s :
  threads s !! t = Some (f :: fs) -> plain f = true ->
  thread_step io_cb app t s =
    do (new, w) := frame_step io_cb app f (shared s) in Done (Some (set_thread t (new ++ fs) (owner s) w s)).
Proof. intros E Hf. unfold thread_step. rewrite E. by destruct f. Qed.

Lemma thread_step_busy t s s' :
  thread_step io_cb app t s = Done (Some s') -> exists f fs, threads s !! t = Some (f :: fs).
Proof. unfold thread_step. destruct (threads s !! t) as [[|f fs]|]; [done| |done]. by exists f, fs. Qed.

Lemma thread_step_sound t s s' : thread_step io_cb app t s = Done (Some s') -> step s s'.
Proof.
  intros Es. destruct (thread_step_busy t s s' Es) as (f & fs & E). destruct (plain f) eqn:Hf.
  - rewrite (thread_step_plain t f fs) in Es by done. apply exec_bind_done in Es as ((new, w) & Ef & [= <-]).
    by eapply step_frame.
  - unfold thread_step in Es. rewrite E in Es. destruct f; try done.
    + destruct (owner s) eqn:Eo; simplify_eq. by apply step_lock.
    + injection Es as <-. by apply step_unlock.
    + injection Es as <-. by apply step_submit.
Qed.

Lemma begin_sound t f s s' : entry f = true -> begin t f s = Done (Some s') -> step s s'.
Proof. unfold begin. intros Hf. destruct (_ !! _) as [[|]|] eqn:E; intros [= <-]. by apply step_begin. Qed.

Lemma choose_sound c s s' : choose io_cb connect_done app c s = Done (Some s') -> step s s'.
Proof.
  destruct c; simpl; [by apply thread_step_sound| |by apply begin_sound..].
  unfold work_step. destruct (jobs s) as [|[port host] js] eqn:E; intros [= <-]. by apply step_work.
Qed.

(** A frame leaves its stack bracketed. *)
Lemma frame_step_bracketed f w new w' held fs :
  plain f = true -> frame_step io_cb app f w = Done (new, w') ->
  bracketed held (f :: fs) = true -> bracketed held (new ++ fs) = true.
Proof. intros Hf E Hb. destruct f; try done; frame_cases E; by destruct held. Qed.

(** Every thread's stack is bracketed from the mutex as it is; the holder is
    one of the threads. *)
Definition lock_ok s : Prop :=
  (forall t fs, threads s !! t = Some fs -> bracketed (bool_decide (owner s = Some t)) fs = true) /\
  (forall t, owner s = Some t -> (t < length (threads s))%nat).

Lemma thread_bracketed s t fs : lock_ok s -> threads s !! t = Some fs -> bracketed (bool_decide (owner s = Some t)) fs = true.
Proof. intros [Hb _]. apply Hb. Qed.

(** Replacing one stack, when the mutex changes hands at most between that
    thread and nobody. *)
Lemma lock_ok_update s t fs fs' o w js :
  lock_ok s -> threads s !! t = Some fs -> bracketed (bool_decide (o = Some t)) fs' = true ->
  (forall t', t' <> t -> o = Some t' <-> owner s = Some t') ->
  lock_ok (mk_system w o js (<[t := fs']> (threads s))).
Proof.
  intros [Hb Ho] Et Hfs Hother. split; simpl.
  - intros t' fs1 E. destruct (decide (t' = t)) as [->|Hne].
    + rewrite list_lookup_insert_eq in E by (by eapply lookup_lt_Some). by injection E as <-.
    + rewrite list_lookup_insert_ne in E by done. rewrite (bool_decide_ext _ _ (Hother t' Hne)). by apply Hb.
  - intros t' E. rewrite length_insert. destruct (decide (t' = t)) as [->|Hne]; [by eapply lookup_lt_Some|].
    apply Ho. by apply Hother.
Qed.

Lemma step_lock_ok s s' : lock_ok s -> step s s' -> lock_ok s'.
Proof.
  intros Hs Hstep. pose proof (fun t fs => thread_bracketed s t fs Hs) as Hb.
  destruct Hstep as [t fs E Ho|t fs E|t port host fs E|t f fs new w E Hf Ef|port host js E|t f E Hf].
  - eapply lock_ok_update; [done|exact E| |]; specialize (Hb t _ E); rewrite Ho in *; simpl in *.
    + by rewrite bool_decide_true.
    + intros t' Hne. split; congruence.
  - eapply lock_ok_update; [done|exact E| |]; specialize (Hb t _ E); simpl in Hb; case_bool_decide as Ho; try done.
    intros t' Hne. rewrite Ho. split; congruence.
  - eapply lock_ok_update; [done|exact E| |done]. specialize (Hb t _ E). simpl in Hb. by case_bool_decide.
  - eapply lock_ok_update; [done|exact E| |done]. eapply frame_step_bracketed; [exact Hf|exact Ef|by apply Hb].
  - exact Hs.
  - eapply lock_ok_update; [done|exact E| |done]. specialize (Hb t _ E). simpl in Hb. case_bool_decide; [done|].
    by destruct f.
Qed.

Lemma frame_step_total f w : frame_step io_cb app f w <> OutOfFuel.
Proof. intros E. destruct f; simpl in E; try done. unfold send_step, slice in E. frame_cases E. Qed.

End steps.

(** ** What holds under every schedule *)

Section concurrent.
Context {K A D C : Type} `{KernelLaws K}.
Variable io_cb : C.
Variable connect_done : list socket_address -> D.
Variable app : tcp_event -> A -> A * prog.
Abbreviation system := (system K A D C).
Abbreviation run_schedule := (run_schedule io_cb connect_done app).
Implicit Types (w : world K A D C) (s : system).

(** *** The output stream

    While a thread is inside [write] or [pump_output] the stream is whole only
    up to what its next frame does: [pre f w] is what holds when frame [f] is
    about to run with the mutex held. *)

(** The bytes sent and those from [off] on are the bytes accepted. *)
Definition owed (off : nat) w : Prop :=
  (off <= length (outbuf_ (sk w)))%nat /\ sent (hist w) ++ drop off (outbuf_ (sk w)) = accepted (hist w).

Definition pre (f : frame) w : Prop :=
  match f with
  | FStore _ old => out_ok w /\ old = outbuf_ (sk w)
  | FSend off len => out_ok w /\ off = out_offset_ (sk w) /\ (off < length (outbuf_ (sk w)))%nat /\ len = (length (outbuf_ (sk w)) - off)%nat
  | FAdvance n => owed (out_offset_ (sk w) + n) w
  | FSetOffset off => owed off w
  | FClear => out_ok w /\ has_backlog (sk w) = false
  | _ => out_ok w
  end.

(** The frames in the middle of an update. *)
Definition midway (f : frame) : bool :=
  match f with FStore _ _ | FSend _ _ | FAdvance _ | FSetOffset _ | FClear => true | _ => false end.

Abbreviation calm := (Forall (fun f => midway f = false)).

Definition head_pre (fs : stack) w : Prop := match fs with f :: _ => pre f w | [] => out_ok w end.

Lemma calm_pre fs w : calm fs -> out_ok w -> head_pre fs w.
Proof. intros Hfs Hw. destruct fs as [|f fs]; [done|]. apply Forall_cons in Hfs as [Hf _]. by destruct f. Qed.

(** What [pre] depends on. *)
Definition same_stream w w' : Prop :=
  sk w' = sk w /\ sent (hist w') = sent (hist w) /\ accepted (hist w') = accepted (hist w).

Lemma pre_same f w w' : same_stream w w' -> pre f w -> pre f w'.
Proof. intros (Es & E1 & E2). destruct f; unfold pre, owed, out_ok; by rewrite Es, E1, E2. Qed.

Lemma head_pre_same fs w w' : same_stream w w' -> head_pre fs w -> head_pre fs w'.
Proof. intros Hs. destruct fs as [|f fs]; [|by apply pre_same]. by apply (pre_same FPump). Qed.

Lemma send_step_pre off len w :
  pre (FSend off len) w -> exists r, send_step off len w = Done r /\ forall fs, calm fs -> head_pre (r.1 ++ fs) r.2.
Proof.
  intros (Ho & -> & Hlt & ->). unfold send_step. rewrite slice_done by lia. cbn [exec_bind].
  rewrite (take_ge (drop _ _)) by (rewrite length_drop; lia).
  unfold Net.send. destruct (sys_send _ _ _) as [[n|e] k] eqn:Es; simpl.
  - apply send_bounded in Es. rewrite length_drop in Es. branch.
    + eexists. split; [done|]. intros fs _. exact (advanced_out w k (Z.to_nat n) Ho ltac:(lia)).
    + branch; eexists; (split; [done|]); intros fs Hfs; [lia|exact Ho].
  - branch; [eexists; split; [done|]; intros fs Hfs; by apply calm_pre|].
    branch; eexists; (split; [done|]); intros fs Hfs; exact Ho.
Qed.

(** The frames between updates leave the stream whole and can always run. *)
Lemma frame_step_out f w :
  midway f = false -> out_ok w -> exists r, frame_step io_cb app f w = Done r /\ out_ok r.2.
Proof.
  intros Hm Ho.
  assert (out_ok (shutdown_write w)) as Hshut.
  { destruct Ho as [Ho Hs]. split; [done|]. simpl. by rewrite sent_snoc, app_nil_r. }
  destruct f; try done; simpl; eexists; (split; [reflexivity|]); try exact Ho.
  - unfold emit_step. by destruct (app _ _).
  - unfold end_. simpl. branch; [|done]. by branch.
  - simpl. unfold close_desc. by destruct (Net.close _ _).
  - unfold pending_step. destruct (pending_error _ _). by branch.
  - simpl. by branch.
  - unfold recv_step. destruct (Net.recv _ _ _) as [[]]. repeat (branch; try done).
  - unfold open_step. destruct (Net.open _ _ _) as [[]]. by branch.
  - unfold nonblocking_step. destruct (set_nonblocking _ _). by branch.
  - unfold connect_step. destruct (Net.connect _ _ _). by repeat branch.
  - simpl. unfold publish. by destruct (move_assign _ _ _).
Qed.

(** The frames that begin an update. *)
Definition begins_update (f : frame) : bool := match f with FAppend _ | FPump => true | _ => false end.

Lemma frame_step_calm f w new w' :
  midway f = false -> begins_update f = false -> frame_step io_cb app f w = Done (new, w') -> calm new.
Proof. intros Hm Hb E. destruct f; try done; frame_cases E; by repeat constructor. Qed.

(** Every frame takes over what the one before it left, and can run. *)
Lemma frame_step_pre f w :
  pre f w -> exists r, frame_step io_cb app f w = Done r /\ forall fs, calm fs -> head_pre (r.1 ++ fs) r.2.
Proof.
  intros Hpre. destruct (midway f) eqn:Hm.
  - destruct f; try done; [| by apply send_step_pre | | |]; eexists; (split; [reflexivity|]); intros fs Hfs.
    + destruct Hpre as [Ho ->]. apply calm_pre; [done|]. exact (appended_out w chunk Ho).
    + exact Hpre.
    + apply calm_pre; [done|]. exact Hpre.
    + destruct Hpre as [[Ho Hs] Hb]. unfold has_backlog in Hb. split; [simpl; lia|]. simpl. by rewrite drop_ge in Hs by lia.
  - assert (out_ok w) as Ho by by destruct f. destruct (begins_update f) eqn:Hb.
    + destruct f; try done; eexists; (split; [reflexivity|]); intros fs _; [done|]. simpl. unfold pump_step.
      destruct (Nat.ltb_spec (out_offset_ (sk w)) (length (outbuf_ (sk w)))); [done|]. split; [done|]. by apply Nat.ltb_ge.
    + destruct (frame_step_out f w Hm Ho) as ([new w'] & E & Ho'). exists (new, w'). split; [done|]. intros fs Hfs.
      apply calm_pre; [|done]. apply Forall_app. split; [|done]. by eapply frame_step_calm.
Qed.

(** What follows the innermost frame of a stack is not in the middle of
    anything. *)
Lemma frame_step_tidy f w new w' fs : frame_step io_cb app f w = Done (new, w') -> calm fs -> calm (tail (new ++ fs)).
Proof.
  intros E Hfs. assert (calm (tail new)) as Hn by (destruct f; frame_cases E; by repeat constructor).
  destruct new as [|f' new]; simpl in *; [by destruct Hfs|]. apply Forall_app. by split.
Qed.

(** Code that runs without the mutex writes neither the data members nor the
    stream. *)
Lemma frame_step_unlocked f w new w' :
  plain f = true -> frame_step io_cb app f w = Done (new, w') ->
  match lock_change f with Some (true, _) => True | _ => same_stream w w' end.
Proof. intros Hf E. destruct f; try done; frame_cases E; by split_and!. Qed.

(** Lock discipline and output stream, together: the stream is whole, or the
    holder of the mutex is about to make it so. *)
Definition stream_ok s : Prop :=
  match owner s with
  | None => out_ok (shared s)
  | Some t => exists fs, threads s !! t = Some fs /\ head_pre fs (shared s)
  end.

Definition conc_ok s : Prop :=
  lock_ok s /\ Forall (fun fs => calm (tail fs)) (threads s) /\ stream_ok s.

Lemma midway_locked f : midway f = true -> lock_change f = Some (true, true).
Proof. by destruct f. Qed.

(** The innermost frame of any thread can run. *)
Lemma conc_frame s t f fs :
  conc_ok s -> threads s !! t = Some (f :: fs) ->
  (owner s = Some t -> pre f (shared s)) /\ (owner s <> Some t -> midway f = false) /\
  exists r, frame_step io_cb app f (shared s) = Done r.
Proof.
  intros (Hl & Hc & Hs) E. unfold stream_ok in Hs.
  assert (owner s = Some t -> pre f (shared s)) as Hown.
  { intros Ho. rewrite Ho in Hs. destruct Hs as (fs' & E' & Hp). by simplify_eq. }
  assert (owner s <> Some t -> midway f = false) as Hother.
  { intros Ho. destruct (midway f) eqn:Hm; [|done]. pose proof (thread_bracketed s t _ Hl E) as Hb. simpl in Hb.
    rewrite (midway_locked f Hm), bool_decide_false in Hb by done. done. }
  split_and!; [done|done|]. destruct (decide (owner s = Some t)) as [Ho|Ho].
  - destruct (frame_step_pre f _ (Hown Ho)) as (r & ? & _). by exists r.
  - specialize (Hother Ho). destruct f; try done; by eexists.
Qed.

(** A step of a thread that does not hold the mutex, or of nobody's. *)
Lemma stream_ok_other s t fs fs' w js :
  stream_ok s -> threads s !! t = Some fs -> owner s <> Some t -> same_stream (shared s) w ->
  stream_ok (mk_system w (owner s) js (<[t := fs']> (threads s))).
Proof.
  unfold stream_ok. simpl. intros Hs E Ho Hw. destruct (owner s) as [t'|]; [|by apply (pre_same FPump (shared s))].
  destruct Hs as (fs1 & E1 & Hp). exists fs1. split; [|by apply (head_pre_same fs1 (shared s))].
  rewrite list_lookup_insert_ne by congruence. done.
Qed.

Lemma same_stream_refl w : same_stream w w.
Proof. done. Qed.

Lemma calm_insert s t fs : Forall (fun fs => calm (tail fs)) (threads s) -> calm (tail fs) -> Forall (fun fs => calm (tail fs)) (<[t := fs]> (threads s)).
Proof. intros. by apply Forall_insert. Qed.

Lemma step_stream_ok s s' : conc_ok s -> step io_cb connect_done app s s' -> stream_ok s'.
Proof.
  intros Hs Hstep. pose proof Hs as (Hl & Hc & Hst). rewrite Forall_lookup in Hc.
  pose proof (fun t fs => thread_bracketed s t fs Hl) as Hb.
  destruct Hstep as [t fs E Ho|t fs E|t port host fs E|t f fs new w E Hf Ef|port host js E|t f E Hf]; unfold set_thread.
  - unfold stream_ok. simpl. exists fs. split; [apply list_lookup_insert_eq; by eapply lookup_lt_Some|].
    apply calm_pre; [exact (Hc _ _ E)|]. unfold stream_ok in Hst. by rewrite Ho in Hst.
  - unfold stream_ok. simpl. destruct (conc_frame s t _ _ Hs E) as [Hp _]. apply Hp. specialize (Hb t _ E). simpl in Hb.
    by case_bool_decide.
  - apply (stream_ok_other _ _ (FSubmit port host :: fs)); [done|done| |apply same_stream_refl]. specialize (Hb t _ E). simpl in Hb.
    by case_bool_decide.
  - destruct (decide (owner s = Some t)) as [Ho|Ho].
    + destruct (conc_frame s t _ _ Hs E) as (Hp & _). destruct (frame_step_pre f _ (Hp Ho)) as (r & Er & Hr).
      assert (r = (new, w)) as -> by congruence.
      unfold stream_ok. simpl. rewrite Ho. eexists. split; [apply list_lookup_insert_eq; by eapply lookup_lt_Some|].
      exact (Hr fs (Hc _ _ E)).
    + apply (stream_ok_other _ _ (f :: fs)); [done|done|done|]. pose proof (frame_step_unlocked f _ _ _ Hf Ef) as Hu.
      specialize (Hb t _ E). simpl in Hb. rewrite bool_decide_false in Hb by done. by destruct (lock_change f) as [[[]]|].
  - unfold stream_ok, connect in *. destruct (resolve _ _ _ _). simpl. destruct (owner s); [|done].
    destruct Hst as (fs & ? & ?). exists fs. split; [done|]. by eapply head_pre_same.
  - apply (stream_ok_other _ _ []); [done|done| |apply same_stream_refl]. specialize (Hb t _ E). simpl in Hb.
    by case_bool_decide.
Qed.

Lemma step_conc_ok s s' : conc_ok s -> step io_cb connect_done app s s' -> conc_ok s'.
Proof.
  intros Hs Hstep. pose proof Hs as (Hl & Hc & _).
  split_and!; [by eapply step_lock_ok| |by eapply step_stream_ok].
  assert (forall t f fs, threads s !! t = Some (f :: fs) -> calm fs) as Htail.
  { intros t f fs E. rewrite Forall_lookup in Hc. exact (Hc _ _ E). }
  assert (forall fs : stack, calm fs -> calm (tail fs)) as Hsub by (intros fs Hfs; by destruct Hfs).
  destruct Hstep as [t fs E _|t fs E|t port host fs E|t f fs new w E Hf Ef|port host js E|t f E Hf]; simpl.
  - eauto using calm_insert.
  - eauto using calm_insert.
  - eauto using calm_insert.
  - apply calm_insert; [done|]. eapply frame_step_tidy; [exact Ef|eauto].
  - done.
  - by apply calm_insert.
Qed.

(** Every decision is defined, and keeps the invariant. *)
Lemma choose_conc_ok c s :
  conc_ok s -> exists o, choose io_cb connect_done app c s = Done o /\ conc_ok (default s o).
Proof.
  intros Hs. assert (exists o, choose io_cb connect_done app c s = Done o) as [o Eo].
  { destruct c as [t| | | |]; simpl; unfold begin, work_step.
    - unfold thread_step. destruct (threads s !! t) as [[|f fs]|] eqn:E; [by eexists| |by eexists].
      destruct (conc_frame s t f fs Hs E) as (_ & _ & [new w] & Ef).
      destruct f; rewrite ?Ef; try (by eexists). destruct (owner s); by eexists.
    - destruct (jobs s) as [|[]]; by eexists.
    - destruct (_ !! _) as [[]|]; by eexists.
    - destruct (_ !! _) as [[]|]; by eexists.
    - destruct (_ !! _) as [[]|]; by eexists. }
  exists o. split; [done|]. destruct o as [s'|]; [|done].
  eapply step_conc_ok; [exact Hs|]. by eapply choose_sound.
Qed.

Lemma run_schedule_ok cs : forall s, conc_ok s -> exists s', run_schedule cs s = Done s' /\ conc_ok s'.
Proof.
  induction cs as [|c cs IH]; intros s Hs; simpl; [by exists s|].
  destruct (choose_conc_ok c s Hs) as (o & -> & Ho). simpl. by apply IH.
Qed.

Lemma start_conc_ok n w : initial io_cb w -> conc_ok (start n w).
Proof.
  intros [(_ & Ho & _) _]%initial_good. split_and!; [|by apply Forall_replicate|done]. split; simpl; [|done].
  intros t fs [-> _]%lookup_replicate. done.
Qed.

(** C6. Stream integrity under concurrency.  Any number of threads may write,
    end, destroy and connect while the loop thread handles readiness, and
    between any two reads, writes or system calls of [write] and [pump_output]
    other threads may run: every schedule is free of out-of-bounds accesses,
    and whenever nobody is inside a critical section the bytes handed to the
    kernel followed by the bytes still buffered are exactly the chunks the
    writes appended, whole and in the order of their critical sections. *)
Theorem tcp_concurrent_stream n cs w :
  initial io_cb w ->
  exists s, run_schedule cs (start n w) = Done s /\
    (owner s = None ->
     (out_offset_ (sk (shared s)) <= length (outbuf_ (sk (shared s))))%nat /\
     sent (hist (shared s)) ++ drop (out_offset_ (sk (shared s))) (outbuf_ (sk (shared s))) = accepted (hist (shared s))).
Proof.
  intros Hi. destruct (run_schedule_ok cs _ (start_conc_ok n w Hi)) as (s & E & _ & _ & Ho). exists s. split; [done|].
  intros Hn. unfold stream_ok in Ho. by rewrite Hn in Ho.
Qed.

Lemma waiting_not_owner s t f fs :
  lock_ok s -> threads s !! t = Some (f :: fs) -> lock_change f = Some (false, true) -> owner s <> Some t.
Proof. intros Hl E Hf. pose proof (thread_bracketed s t _ Hl E) as Hb. simpl in Hb. rewrite Hf in Hb. by case_bool_decide. Qed.

(** A thread whose innermost frame does not acquire the mutex can run it. *)
Lemma thread_can_run s t f fs :
  conc_ok s -> threads s !! t = Some (f :: fs) -> (f = FLock -> owner s = None) ->
  exists s', thread_step io_cb app t s = Done (Some s').
Proof.
  intros Hs E Hlock. destruct (conc_frame s t f fs Hs E) as (_ & _ & [new w] & Ef).
  unfold thread_step. rewrite E. destruct f; rewrite ?Ef; try (by eexists). rewrite Hlock by done. by eexists.
Qed.

Lemma owner_can_run s t : conc_ok s -> owner s = Some t -> exists s', thread_step io_cb app t s = Done (Some s').
Proof.
  intros Hs Ho. pose proof Hs as [Hl _]. destruct (lookup_lt_is_Some_2 (threads s) t) as [fs E]; [by apply Hl|].
  pose proof (thread_bracketed s t fs Hl E) as Hb. rewrite bool_decide_true in Hb by done.
  destruct fs as [|f fs]; [done|]. eapply thread_can_run; [done|exact E|]. by intros ->.
Qed.

(** The data members are the lock holder's. *)
Lemma members_stable s t c s' :
  lock_ok s -> owner s = Some t -> c <> Run t -> choose io_cb connect_done app c s = Done (Some s') ->
  sk (shared s') = sk (shared s).
Proof.
  intros Hl Ho Hc Ec.
  destruct c as [t'| | | |]; simpl in Ec; unfold begin, work_step in Ec.
  - destruct (thread_step_busy _ _ _ _ _ Ec) as (f & fs & Et). destruct (plain f) eqn:Hf.
    + rewrite (thread_step_plain _ _ t' f fs) in Ec by done.
      apply exec_bind_done in Ec as ([new w1] & Ef & [= <-]). apply frame_step_unlocked in Ef; [|done].
      pose proof (thread_bracketed s t' _ Hl Et) as Hb. simpl in Hb. rewrite bool_decide_false in Hb by congruence.
      destruct (lock_change f) as [[[]]|]; [done|apply Ef..].
    + unfold thread_step in Ec. rewrite Et in Ec. destruct f; try done; try destruct (owner s); by simplify_eq.
  - destruct (jobs s) as [|[]]; simplify_eq. simpl. unfold connect. by destruct (resolve _ _ _ _).
  - by destruct (_ !! _) as [[]|]; simplify_eq.
  - by destruct (_ !! _) as [[]|]; simplify_eq.
  - by destruct (_ !! _) as [[]|]; simplify_eq.
Qed.

(** C13. The mutex is used correctly.  Under every schedule no thread tries to
    lock it while holding it, no thread unlocks it without holding it, it is
    free when all threads are idle, and the threads never deadlock: as long as
    one of them has something left to do, one of them can run.  While a thread
    holds it, no step of another thread, of the thread pool or of the loop's
    dispatch changes a data member of the socket. *)
Theorem tcp_mutex_discipline n cs w s :
  initial io_cb w -> run_schedule cs (start n w) = Done s ->
  (forall t fs, threads s !! t = Some (FLock :: fs) -> owner s <> Some t) /\
  (forall t fs, threads s !! t = Some (FUnlock :: fs) -> owner s = Some t) /\
  (Forall (fun fs => fs = []) (threads s) -> owner s = None) /\
  (forall t f fs, threads s !! t = Some (f :: fs) -> exists t' s', choose io_cb connect_done app (Run t') s = Done (Some s')) /\
  (forall t c s', owner s = Some t -> c <> Run t -> choose io_cb connect_done app c s = Done (Some s') ->
     sk (shared s') = sk (shared s)).
Proof.
  intros Hi E. destruct (run_schedule_ok cs _ (start_conc_ok n w Hi)) as (s1 & E1 & Hs).
  assert (s1 = s) as -> by congruence. pose proof (proj1 Hs) as Hl. split_and!.
  - intros t fs Et. by eapply waiting_not_owner.
  - intros t fs Et. pose proof (thread_bracketed s t _ Hl Et) as Hb. simpl in Hb. by case_bool_decide.
  - intros Hidle. destruct (owner s) as [t|] eqn:Ho; [|done].
    destruct (owner_can_run s t Hs Ho) as [s' E']. apply thread_step_busy in E' as (f & fs & Et).
    rewrite Forall_lookup in Hidle. by specialize (Hidle t _ Et).
  - intros t f fs Et. destruct (owner s) as [t'|] eqn:Ho.
    + exists t'. by apply owner_can_run.
    + exists t. by eapply thread_can_run.
  - intros t c s'. by apply members_stable.
Qed.

(** *** Accepted connections close once *)

(** Frames of a connection attempt. *)
Definition connecting_frame (f : frame) : bool :=
  match f with
  | FPendingError | FSetOpen | FResolved _ | FStartConnect _ | FNonblocking _ _ | FConnect _ _ | FPublish _ _ => true
  | _ => false
  end.

Definition emits_close (f : frame) : nat := match f with FEmit EvClose => 1 | _ => 0 end.
Definition closes_due (fs : stack) : nat := sum_list_with emits_close fs.

Definition live (x : socket) : nat := if negb (is_state x closed) && valid (desc_ x) then 1 else 0.

(** An accepted connection is open with a descriptor, or closed. *)
Definition open_or_closed (x : socket) : Prop :=
  state_ x = open_ /\ valid (desc_ x) = true \/ state_ x = closed.

(** A frame of an accepted connection, the socket being in state [st]. *)
Definition frame_ok (st : tcp_state) (f : frame) : Prop :=
  connecting_frame f = false /\ (f = FCloseDesc -> st = closed).

(** [close] was emitted, is about to be, or the connection is live; which of
    them, exactly once. *)
Definition accepted_ok s : Prop :=
  let st := state_ (sk (shared s)) in
  open_or_closed (sk (shared s)) /\ Forall (Forall (frame_ok st)) (threads s) /\
  (closes (hist (shared s)) + sum_list_with closes_due (threads s) + live (sk (shared s)) = 1)%nat.

(** All frames but four neither open, close nor emit. *)
Definition decisive (f : frame) : bool :=
  match f with FEmit _ | FCloseDecide | FCloseDesc | FIoState _ => true | _ => connecting_frame f end.

Definition quiet (f : frame) : Prop := connecting_frame f = false /\ f <> FCloseDesc /\ emits_close f = 0%nat.

Lemma frame_step_quiet f w new w' :
  plain f = true -> decisive f = false -> frame_step io_cb app f w = Done (new, w') ->
  state_ (sk w') = state_ (sk w) /\ desc_ (sk w') = desc_ (sk w) /\ trace (hist w') = trace (hist w) /\ Forall quiet new.
Proof.
  intros Hf Hd E. destruct f; try done; frame_cases E;
    try (by split_and!; [..|repeat constructor]).
  unfold end_. by repeat branch.
Qed.

Lemma quiet_ok st fs : Forall quiet fs -> Forall (frame_ok st) fs /\ closes_due fs = 0%nat.
Proof.
  induction 1 as [|f fs (Hc & Hd & He) _ [IHf IHc]]; [done|]. split; [by constructor|].
  unfold closes_due in *. simpl. lia.
Qed.

Lemma frame_step_accepted f w new w' :
  plain f = true -> frame_step io_cb app f w = Done (new, w') ->
  open_or_closed (sk w) -> frame_ok (state_ (sk w)) f ->
  open_or_closed (sk w') /\ (state_ (sk w) = closed -> state_ (sk w') = closed) /\
  Forall (frame_ok (state_ (sk w'))) new /\
  (closes (hist w') + closes_due new + live (sk w') = closes (hist w) + emits_close f + live (sk w))%nat.
Proof.
  intros Hf E Hst [Hc Hd]. destruct (decisive f) eqn:Hdec.
  - destruct f; try done; simpl in E.
    + unfold emit_step in E. destruct (app ev (env w)) as [a p]. injection E as <- <-.
      split_and!; [done|done|by repeat constructor|]. simpl. rewrite closes_snoc. unfold closes_due. simpl.
      destruct ev; simpl; lia.
    + unfold close_decide in E. injection E as <- <-.
      assert (live (upd_sk (set_state closed) w).(sk) = 0%nat) as Hdead by done. rewrite Hdead.
      split_and!; [by right|done|destruct (negb _ && _); by repeat constructor|].
      unfold live, closes_due, closes. destruct (negb (is_state (sk w) closed) && valid (desc_ (sk w))); simpl; lia.
    + specialize (Hd eq_refl). injection E as <- <-. unfold close_desc. destruct (Net.close _ _) as [d k].
      split_and!; [by right|done|done|]. unfold live, is_state. simpl. rewrite Hd. simpl. unfold closes_due. simpl. lia.
    + injection E as <- <-. unfold io_state. split_and!; [done|done| |].
      * destruct Hst as [[-> _] | ->]; repeat branch; by repeat constructor.
      * destruct Hst as [[-> _] | ->]; repeat branch; unfold closes_due; simpl; lia.
  - destruct (frame_step_quiet f w new w' Hf Hdec E) as (Es & Ed & Et & Hq).
    destruct (quiet_ok (state_ (sk w')) new Hq) as [Hfs ->]. unfold closes, live, is_state, open_or_closed. rewrite Es, Ed, Et.
    split_and!; [done|done|by rewrite <- Es|]. destruct f; simpl in *; try done; lia.
Qed.

(** Replacing the innermost frame of a thread by what it led to. *)
Lemma accepted_ok_frame s t f fs new w' o js :
  accepted_ok s -> threads s !! t = Some (f :: fs) ->
  open_or_closed (sk w') ->
  (state_ (sk (shared s)) = closed -> state_ (sk w') = closed) ->
  Forall (frame_ok (state_ (sk w'))) new ->
  (closes (hist w') + closes_due new + live (sk w') = closes (hist (shared s)) + emits_close f + live (sk (shared s)))%nat ->
  accepted_ok (mk_system w' o js (<[t := new ++ fs]> (threads s))).
Proof.
  intros (_ & Hfs & Hsum) E Hst Hmono Hnew Hcount.
  assert (Forall (Forall (frame_ok (state_ (sk w')))) (threads s)) as Hfs'.
  { eapply Forall_impl; [exact Hfs|]. intros fs0 Hfs0. eapply Forall_impl; [exact Hfs0|].
    intros f0 [Hc Hd]. split; auto. }
  split_and!; [done| |]; simpl.
  - apply Forall_insert; [done|]. apply Forall_app. split; [done|].
    rewrite Forall_lookup in Hfs'. specialize (Hfs' t _ E). by apply Forall_cons in Hfs' as [_ ?].
  - pose proof (sum_list_with_insert closes_due (threads s) t _ (new ++ fs) E) as Hi.
    unfold closes_due in *. rewrite sum_list_with_app in Hi. simpl in Hi. lia.
Qed.

Lemma accepted_ok_begin s t f :
  accepted_ok s -> threads s !! t = Some [] -> quiet f -> accepted_ok (set_thread t [f] (owner s) (shared s) s).
Proof.
  intros (Hst & Hfs & Hsum) E (Hc & Hd & He). split_and!; [done| |]; simpl.
  - apply Forall_insert; [done|]. by repeat constructor.
  - pose proof (sum_list_with_insert closes_due (threads s) t _ [f] E) as Hi. unfold closes_due in *. simpl in Hi. lia.
Qed.

Definition not_resolved (c : choice) : Prop := match c with Resolved _ => False | _ => True end.

Lemma begin_accepted_ok t f s s' :
  accepted_ok s -> quiet f -> begin t f s = Done (Some s') -> accepted_ok s'.
Proof. intros Hs Hq. unfold begin. destruct (_ !! _) as [[|]|] eqn:E; intros [= <-]. by apply accepted_ok_begin. Qed.

Lemma choose_accepted_ok c s s' :
  accepted_ok s -> not_resolved c -> choose io_cb connect_done app c s = Done (Some s') -> accepted_ok s'.
Proof.
  intros Hs Hc E. pose proof Hs as (Hst & Hfs & Hsum).
  destruct c as [t| | | |]; simpl in E; [| |eapply begin_accepted_ok; [exact Hs| |exact E]; by split_and!|done|
    eapply begin_accepted_ok; [exact Hs| |exact E]; by split_and!].
  - destruct (thread_step_busy _ _ _ _ _ E) as (f & fs & Et).
    assert (frame_ok (state_ (sk (shared s))) f) as Hok.
    { rewrite Forall_lookup in Hfs. specialize (Hfs t _ Et). by apply Forall_cons in Hfs as [? _]. }
    destruct (plain f) eqn:Hf.
    + rewrite (thread_step_plain _ _ t f fs) in E by done. apply exec_bind_done in E as ([new w] & Ef & [= <-]).
      destruct (frame_step_accepted f _ new w Hf Ef Hst Hok) as (? & ? & ? & ?). by eapply accepted_ok_frame.
    + unfold thread_step in E. rewrite Et in E.
      destruct f; try done; try destruct (owner s); simplify_eq;
        by eapply (accepted_ok_frame s t _ fs []).
  - unfold work_step in E. destruct (jobs s) as [|[port host] js]; simplify_eq.
    unfold accepted_ok. simpl. unfold connect. by destruct (resolve _ _ _ _).
Qed.

Lemma run_schedule_accepted_ok cs : forall s s',
  accepted_ok s -> Forall not_resolved cs -> run_schedule cs s = Done s' -> accepted_ok s'.
Proof.
  induction cs as [|c cs IH]; simpl; intros s s' Hs HP E; [by injection E as <-|].
  apply Forall_cons in HP as [Hc HP]. apply exec_bind_done in E as ([s1|] & Ec & E); [|by eapply IH].
  eapply IH; [by eapply choose_accepted_ok|done|exact E].
Qed.

(** However many threads destroy, end or write to an accepted connection
    while the loop thread reads from it, [close] is emitted at most once; and
    once all calls have returned it has been emitted exactly if the
    connection is closed. *)
Theorem accepted_closes_once n cs d p l k a s :
  0 <= d -> Forall not_resolved cs ->
  run_schedule cs (start n (adopted io_cb d p l k a)) = Done s ->
  (closes (hist (shared s)) <= 1)%nat /\
  (Forall (fun fs => fs = []) (threads s) ->
   (closes (hist (shared s)) = 1%nat <-> state_ (sk (shared s)) = closed)).
Proof.
  intros Hd Hcs E. assert (accepted_ok s) as (Hst & _ & Hsum).
  { assert (valid d = true) as Hv by (unfold valid; lia).
    eapply run_schedule_accepted_ok; [|exact Hcs|exact E]. split_and!; [by left| |].
    - apply Forall_replicate. constructor.
    - simpl. assert (sum_list_with closes_due (replicate n []) = 0%nat) as -> by (clear E; induction n; simpl; auto).
      unfold live. simpl. by rewrite Hv. }
  split; [lia|]. intros Hidle.
  assert (sum_list_with closes_due (threads s) = 0%nat) as Hz.
  { revert Hidle. generalize (threads s) as ths. induction 1 as [|fs ths -> _ IH]; [done|]. exact IH. }
  rewrite Hz in Hsum. unfold live, is_state in Hsum.
  destruct Hst as [[Hst Hv] | Hst]; rewrite Hst in *; simpl in Hsum; [rewrite Hv in Hsum; simpl in Hsum|]; split; try done; lia.
Qed.

End concurrent.

(** ** The sequential model is one of the schedules *)

Section sequential.
Context {K A D C : Type} `{Kernel K}.
Variable io_cb : C.
Variable connect_done : list socket_address -> D.
Variable app : tcp_event -> A -> A * prog.
Abbreviation system := (system K A D C).
Abbreviation run_schedule := (run_schedule io_cb connect_done app).
Implicit Types (w : world K A D C) (s : system).

(** Only thread [t] and the pool worker run. *)
Definition solo (t : nat) s s' : Prop :=
  exists cs, Forall (fun c => c = Run t \/ c = Work) cs /\ run_schedule cs s = Done s'.

Lemma run_schedule_app cs1 cs2 s s' s'' :
  run_schedule cs1 s = Done s' -> run_schedule cs2 s' = Done s'' -> run_schedule (cs1 ++ cs2) s = Done s''.
Proof.
  revert s. induction cs1 as [|c cs1 IH]; simpl; intros s E1 E2; [by injection E1 as ->|].
  apply exec_bind_done in E1 as (o & -> & E1). simpl. by apply IH.
Qed.

Lemma solo_refl t s : solo t s s.
Proof. by exists []. Qed.

Lemma solo_trans t s s' s'' : solo t s s' -> solo t s' s'' -> solo t s s''.
Proof.
  intros (cs1 & F1 & E1) (cs2 & F2 & E2). exists (cs1 ++ cs2). split; [by apply Forall_app|].
  by eapply run_schedule_app.
Qed.

Lemma solo_choose t c s s' :
  c = Run t \/ c = Work -> choose io_cb connect_done app c s = Done (Some s') -> solo t s s'.
Proof. intros Hc E. exists [c]. split; [by apply Forall_singleton|]. simpl. by rewrite E. Qed.

(** Thread [t] among others, [fs] left to do. *)
Variable t : nat.
Variable ths : list stack.
Hypothesis Ht : (t < length ths)%nat.

Definition focus (o : option nat) (fs : stack) w : system := mk_system w o [] (<[t := fs]> ths).

Lemma focus_lookup o fs w : threads (focus o fs w) !! t = Some fs.
Proof. simpl. by apply list_lookup_insert_eq. Qed.

Lemma focus_set o o' fs fs' w w' : set_thread t fs' o' w' (focus o fs w) = focus o' fs' w'.
Proof. unfold set_thread, focus. simpl. by rewrite list_insert_insert_eq. Qed.

Lemma solo_frame f fs o w r s :
  plain f = true -> frame_step io_cb app f w = Done r ->
  solo t (focus o (r.1 ++ fs) r.2) s -> solo t (focus o (f :: fs) w) s.
Proof.
  destruct r as [new w']. intros Hf E. apply solo_trans. eapply solo_choose; [by left|]. simpl.
  rewrite (thread_step_plain _ _ t f fs) by (done || apply focus_lookup).
  change (shared _) with w. rewrite E. simpl. by rewrite focus_set.
Qed.

Lemma solo_lock fs w s : solo t (focus (Some t) fs w) s -> solo t (focus None (FLock :: fs) w) s.
Proof.
  apply solo_trans. eapply solo_choose; [by left|]. simpl. unfold thread_step. rewrite focus_lookup. simpl.
  by rewrite focus_set.
Qed.

Lemma solo_unlock fs w o s : solo t (focus None fs w) s -> solo t (focus o (FUnlock :: fs) w) s.
Proof.
  apply solo_trans. eapply solo_choose; [by left|]. simpl. unfold thread_step. rewrite focus_lookup.
  by rewrite focus_set.
Qed.

Lemma solo_submit port host fs w o s :
  solo t (focus o fs (connect connect_done port host w)) s -> solo t (focus o (FSubmit port host :: fs) w) s.
Proof.
  apply solo_trans. exists [Run t; Work]. split; [apply Forall_cons; split; [by left|]; apply Forall_singleton; by right|].
  simpl. unfold thread_step.
  rewrite focus_lookup. simpl. unfold focus. by rewrite list_insert_insert_eq.
Qed.

(** From free mutex to free mutex. *)
Definition runs (fs : stack) w (fs' : stack) w' : Prop := solo t (focus None fs w) (focus None fs' w').

Lemma code_runs_refl fs w : runs fs w fs w.
Proof. apply solo_refl. Qed.

Lemma code_runs_trans fs1 w1 fs2 w2 fs3 w3 : runs fs1 w1 fs2 w2 -> runs fs2 w2 fs3 w3 -> runs fs1 w1 fs3 w3.
Proof. apply solo_trans. Qed.

(** Executes frames whose step is determined, down to the first that is
    not; [cut] runs the code of a premise. *)
Ltac next := first
  [ eapply solo_lock | eapply solo_unlock
  | eapply solo_frame; [reflexivity|reflexivity|]; cbn [Datatypes.app fst snd] ].

Section listeners.
Variable listeners : tcp_event -> world K A D C -> exec (world K A D C).
Hypothesis listeners_run : forall ev w w' fs, emit listeners ev w = Done w' -> runs (FEmit ev :: fs) w fs w'.

Lemma close_with_runs w w' fs : close_with listeners w = Done w' -> runs (FClose :: fs) w fs w'.
Proof.
  unfold close_with. intros E. unfold runs. do 2 next. eapply solo_frame; [done|done|]. unfold close_decide.
  destruct (negb (is_state (sk w) closed) && valid (desc_ (sk w))); simpl in E |- *.
  - do 5 next. unfold close_desc. simpl. destruct (Net.close _ _) as [d k]. by apply listeners_run.
  - injection E as <-. next. apply solo_refl.
Qed.

Lemma fail_runs m w w' fs : fail listeners m w = Done w' -> runs (FFail m :: fs) w fs w'.
Proof.
  intros (w1 & E1 & E2)%exec_bind_done. unfold runs. next.
  eapply code_runs_trans; [by apply listeners_run|by apply close_with_runs].
Qed.

Lemma pump_output_runs fuel : forall w w' fs,
  pump_output listeners fuel w = Done w' -> solo t (focus (Some t) (FPump :: fs) w) (focus (Some t) fs w').
Proof.
  induction fuel as [|fuel IH]; simpl; intros w w' fs E; [done|].
  eapply solo_frame; [done|done|]. unfold pump_step. destruct (_ <? _)%nat; cbn [fst snd Datatypes.app].
  2: { injection E as <-. do 2 next. apply solo_refl. }
  apply exec_bind_done in E as (chunk & Es & E). destruct (Net.send _ _ _) as [sent k] eqn:En.
  assert (forall r, send_step (out_offset_ (sk w)) (length (outbuf_ (sk w)) - out_offset_ (sk w)) w = Done r ->
            solo t (focus (Some t) (r.1 ++ fs) r.2) (focus (Some t) fs w') ->
            solo t (focus (Some t) (FSend (out_offset_ (sk w)) (length (outbuf_ (sk w)) - out_offset_ (sk w)) :: fs) w)
              (focus (Some t) fs w')) as Hgo.
  { intros r Ef. by apply solo_frame. }
  unfold send_step in Hgo. rewrite Es in Hgo. simpl in Hgo. rewrite En in Hgo.
  destruct (0 <? count sent); [eapply Hgo; [done|]; simpl; do 2 next; by apply IH|].
  destruct ((count sent <? 0) && would_block (terror sent)); [injection E as <-; eapply Hgo; [done|apply solo_refl]|].
  destruct ((count sent <? 0) && (terror sent =? EINTR)); [eapply Hgo; [done|by apply IH]|].
  eapply Hgo; [done|]. simpl. next. eapply solo_trans; [by apply fail_runs|]. next. apply solo_refl.
Qed.

Lemma write_runs fuel chunk k w b w' fs :
  write listeners fuel chunk w = Done (b, w') -> runs (FProg (PWrite chunk k) :: fs) w (FProg (k b) :: fs) w'.
Proof.
  unfold write. intros E. unfold runs. next. next. eapply solo_frame; [done|done|]. unfold write_body.
  destruct (negb (is_state (sk w) open_)); simpl in E |- *.
  { apply exec_bind_done in E as (w1 & E1 & [= <- <-]). next. by apply fail_runs. }
  apply exec_bind_done in E as (w1 & E1 & E2). eapply solo_frame; [done|done|]. unfold had_backlog.
  assert (forall s, solo t (focus (Some t) (FWriteTail k :: fs) w1) s ->
    solo t (focus (Some t) (((if negb (has_backlog (sk w)) then [FPump] else []) ++ [FWriteTail k]) ++ fs)
      (store chunk (outbuf_ (sk w)) w)) s) as Hp.
  { intros s. destruct (negb (has_backlog (sk w))); simpl in *; [|by injection E1 as <-].
    apply solo_trans. by eapply pump_output_runs. }
  cbn [fst snd Datatypes.app]. do 2 next. apply Hp. eapply solo_frame; [done|done|]. unfold write_tail.
  destruct (has_backlog (sk w1)); injection E2 as <- <-; simpl; [next|]; next; apply solo_refl.
Qed.

Lemma drain_input_runs fuel : forall w w' fs, drain_input listeners fuel w = Done w' -> runs (FRecv :: fs) w fs w'.
Proof.
  induction fuel as [|fuel IH]; simpl; intros w w' fs E; [done|]. unfold runs.
  eapply solo_frame; [done|done|]. unfold recv_step. destruct (Net.recv _ _ _) as [[got tmp] k].
  destruct (0 <? count got); [|destruct (count got =? 0)]; simpl.
  - apply exec_bind_done in E as (w1 & E1 & E2). eapply code_runs_trans; [by apply listeners_run|by apply IH].
  - apply exec_bind_done in E as (w1 & E1 & E2). eapply code_runs_trans; [by apply listeners_run|by apply close_with_runs].
  - destruct (would_block _); simpl; [injection E as <-; apply solo_refl|].
    destruct (terror got =? EINTR); simpl; [by apply IH|by apply fail_runs].
Qed.

Lemma on_connecting_runs w w' fs : on_connecting listeners w = Done w' -> runs (FPendingError :: fs) w fs w'.
Proof.
  unfold on_connecting. intros E. unfold runs. eapply solo_frame; [done|done|]. unfold pending_step.
  destruct (pending_error _ _) as [err k]. destruct (negb _); simpl; [by apply fail_runs|].
  apply exec_bind_done in E as (w1 & E1 & [= <-]). do 4 next.
  eapply solo_trans; [by apply listeners_run|]. next. eapply solo_frame; [done|done|].
  destruct (has_backlog (sk w1)); simpl; repeat next; apply solo_refl.
Qed.

Lemma on_writable_runs fuel w w' fs :
  on_writable listeners fuel w = Done w' -> runs (FLock :: FPump :: FDrained :: fs) w fs w'.
Proof.
  intros (w1 & E1 & E2)%exec_bind_done. unfold runs. next.
  eapply solo_trans; [by eapply pump_output_runs|]. eapply solo_frame; [done|done|]. unfold drained_step.
  destruct (negb (has_backlog (sk w1))); simpl.
  - apply exec_bind_done in E2 as (w2 & E2 & [= <-]). do 2 next.
    eapply solo_trans; [by apply listeners_run|]. repeat next. apply solo_refl.
  - injection E2 as <-. next. apply solo_refl.
Qed.

Lemma on_io_runs fuel r w w' fs : on_io listeners fuel r w = Done w' -> runs (FOnIo r :: fs) w fs w'.
Proof.
  unfold on_io. intros E. unfold runs. do 2 next. eapply solo_frame; [done|done|]. unfold io_state.
  destruct (state_ (sk w)); simpl; next; try (injection E as <-; apply solo_refl); [by apply on_connecting_runs|].
  apply exec_bind_done in E as (w1 & E1 & E2).
  assert (runs (((if writable r then [FLock; FPump; FDrained] else []) ++
                 (if readable r || hangup r then [FRecv] else [])) ++ fs) w
               ((if readable r || hangup r then [FRecv] else []) ++ fs) w1) as Hw.
  { destruct (writable r); simpl; [by eapply on_writable_runs|injection E1 as <-; apply code_runs_refl]. }
  eapply solo_trans; [exact Hw|].
  destruct (readable r || hangup r); simpl; [by eapply drain_input_runs|injection E2 as <-; apply solo_refl].
Qed.

Lemma start_connect_runs addr w w' fs :
  start_connect io_cb listeners addr w = Done w' -> runs (FStartConnect addr :: fs) w fs w'.
Proof.
  assert (forall d m w fs, fail_closing listeners d m w = Done w' -> runs (FFail m :: FCloseLocal d :: fs) w fs w') as Hfc.
  { intros d m w0 fs0 (w1 & E1 & [= <-])%exec_bind_done. eapply code_runs_trans; [by apply fail_runs|].
    unfold runs. next. apply solo_refl. }
  unfold start_connect. intros E. unfold runs. eapply solo_frame; [done|done|]. unfold open_step.
  destruct (Net.open _ _ _) as [[d e] k]. destruct (negb (e =? errc_ok)); simpl; [by apply fail_runs|].
  eapply solo_frame; [done|done|]. unfold nonblocking_step. simpl in E |- *.
  destruct (set_nonblocking _ _) as [nb k1]. destruct (negb (nb =? errc_ok)); simpl; [by apply Hfc|].
  eapply solo_frame; [done|done|]. unfold connect_step. simpl in E |- *.
  destruct (Net.connect _ _ _) as [ec k2]. destruct (negb _ && _); simpl; [by apply Hfc|].
  destruct (move_assign _ _ _) as [d' k3] eqn:Em. injection E as <-. next. next. unfold publish. simpl in Em |- *.
  rewrite Em. repeat next. apply solo_refl.
Qed.

Lemma run_prog_runs fuel p : forall w w' fs,
  run_prog connect_done listeners fuel p w = Done w' -> runs (FProg p :: fs) w fs w'.
Proof.
  induction p as [|chunk k IH|k IH|k IH|port host k IH|k IH]; simpl; intros w w' fs E.
  - injection E as <-. unfold runs. next. apply solo_refl.
  - apply exec_bind_done in E as ([b w1] & E1 & E2). eapply code_runs_trans; [by eapply write_runs|by apply IH].
  - unfold runs. do 4 next. by apply IH.
  - apply exec_bind_done in E as (w1 & E1 & E2). unfold runs. next.
    eapply code_runs_trans; [by apply close_with_runs|by apply IH].
  - unfold runs. next. apply solo_submit. by apply IH.
  - unfold runs. do 4 next. by apply IH.
Qed.

End listeners.
(** The listeners of an arbitrary application. *)
Lemma react_runs fuel depth : forall ev w w' fs,
  emit (react connect_done app fuel depth) ev w = Done w' -> runs (FEmit ev :: fs) w fs w'.
Proof.
  induction depth as [|depth IH]; intros ev w w' fs E; [done|]. unfold emit in E. simpl in E. unfold runs.
  eapply solo_frame; [done|done|]. unfold emit_step. destruct (app ev (env w)) as [a p].
  eapply run_prog_runs; [exact IH|exact E].
Qed.

End sequential.

Section refinement.
Context {K A D C : Type} `{Kernel K}.
Variable io_cb : C.
Variable connect_done : list socket_address -> D.
Variable app : tcp_event -> A -> A * prog.
Implicit Types (w : world K A D C).

(** What begins a stimulus on the loop thread, and its frame. *)
Definition begins (x : stimulus) : choice :=
  match x with SIo r => Io r | SCall p => Call 0 p | SResolved addrs => Resolved addrs end.

Definition first_frame (x : stimulus) : frame :=
  match x with SIo r => FOnIo r | SCall p => FProg p | SResolved addrs => FResolved addrs end.

Lemma stimulate_runs fuel depth x n w w' :
  stimulate connect_done app fuel io_cb depth x w = Done w' ->
  runs io_cb connect_done app 0 (replicate (S n) []) [first_frame x] w [] w'.
Proof.
  assert (0 < length (replicate (S n) ([] : stack)))%nat as Ht by (simpl; lia).
  pose proof (react_runs io_cb connect_done app 0 _ Ht fuel depth) as Hr.
  destruct x as [r|p|[|addr addrs]]; simpl; intros E.
  - by eapply on_io_runs.
  - by eapply run_prog_runs.
  - eapply solo_frame; [done|done|done|]. by eapply fail_runs.
  - eapply solo_frame; [done|done|done|]. by eapply start_connect_runs.
Qed.

(** C14. The sequential model is sound for the concurrent one: whatever
    [TcpSocket] computes for a sequence of stimuli, for any application, some
    schedule of the frames computes too, ending with all threads idle and the
    mutex free. *)
Theorem sequential_is_schedule fuel depth n xs : forall w w',
  stimulate_all connect_done app fuel io_cb depth xs w = Done w' ->
  exists cs, run_schedule io_cb connect_done app cs (start (S n) w) = Done (start (S n) w').
Proof.
  induction xs as [|x xs IH]; simpl; intros w w' E; [injection E as <-; by exists []|].
  apply exec_bind_done in E as (w1 & E1 & E2). destruct (IH w1 w' E2) as (cs2 & Hcs2).
  destruct (stimulate_runs fuel depth x n w w1 E1) as (cs1 & _ & Hcs1).
  exists (begins x :: cs1 ++ cs2). simpl.
  assert (choose io_cb connect_done app (begins x) (start (S n) w) =
          Done (Some (focus 0 (replicate (S n) []) None [first_frame x] w))) as -> by by destruct x.
  simpl. eapply run_schedule_app; [exact Hcs1|exact Hcs2].
Qed.

End refinement.

(** ** Races *)

Module examples.
Import TcpSocket.examples.

Abbreviation Sys := (system Scripted.script unit (list socket_address) unit).

(** Two threads on an accepted connection; thread 0 is the loop's. *)
Definition two_threads (k : Scripted.script) : Sys := start 2 (connection k).
Definition run (app : tcp_event -> unit -> unit * prog) (cs : list choice) (s : Sys) : exec Sys :=
  run_schedule tt id app cs s.
Definition reached (s0 : Sys) (m : exec Sys) : Sys := match m with Done s => s | _ => s0 end.

Definition turns (t n : nat) : list choice := replicate n (Run t).
Definition writes (b : bytes) : prog := PWrite b (fun _ => PRet).

(** A thread writes three bytes the kernel does not take yet; the descriptor
    becomes writable and the loop thread flushes them; before it turns off the
    interest in writability, the thread writes two more. *)
Definition racing_start := two_threads (Scripted.set_sends Scripted.blank (may_send [-1; 3; -1])).
Definition race_before : list choice :=
  Call 1 (writes (str "abc")) :: turns 1 20 ++ Io writable_ :: turns 0 14.
Definition race : list choice :=
  race_before ++ Call 1 (writes (str "de")) :: turns 1 20 ++ turns 0 20.
Definition race_end := reached racing_start (run silent race racing_start).

(** Output can get stuck under concurrency.  There is a schedule of one
    writing thread and the loop thread after which both are idle and the
    mutex is free, the socket is open with two bytes of the writer buffered,
    and the descriptor is watched for reading only, so that nothing will ever
    send them: [on_io] turns off the interest in writability after it released
    the lock under which it saw the buffer empty. *)
Theorem concurrent_write_loses_writability :
  exists s, run silent race racing_start = Done s /\
    threads s = [[]; []] /\ owner s = None /\
    state_ (sk (shared s)) = open_ /\ outbuf_ (sk (shared s)) = str "de" /\ out_offset_ (sk (shared s)) = 0%nat /\
    sent (hist (shared s)) = str "abc" /\ accepted (hist (shared s)) = str "abcde" /\
    watches_ (lp (shared s)) !! desc_ (sk (shared s)) = Some (mk_watch_entry interest.read tt).
Proof. exists race_end. by vm_compute. Qed.

(** [destroy] called from another thread runs the close listener on that
    thread, not on the loop's. *)
Theorem listener_runs_off_the_loop :
  exists s, run silent (Call 1 (PDestroy PRet) :: turns 1 9) racing_start = Done s /\
    threads s = [[]; [FEmit EvClose; FProg PRet]].
Proof.
  exists (reached racing_start (run silent (Call 1 (PDestroy PRet) :: turns 1 9) racing_start)). by vm_compute.
Qed.

(** A socket whose connection attempt is about to be reported. *)
Definition connecting_start : Sys :=
  reached racing_start (run silent (Resolved [loopback] :: turns 0 20)
    (start 2 (created new_loop Scripted.blank tt))).

(** [destroy] between the test of the state in [on_io] and the assignment of
    [state::open] brings the socket back: [close] was emitted and the
    descriptor is gone, then [connect] is emitted and the state stays open. *)
Theorem destroy_races_connect :
  exists s, run silent (Io writable_ :: turns 0 4 ++ Call 1 (PDestroy PRet) :: turns 1 20 ++ turns 0 20) connecting_start = Done s /\
    threads s = [[]; []] /\ state_ (sk (shared s)) = open_ /\ desc_ (sk (shared s)) = invalid_handle /\
    trace (hist (shared s)) = [EvClose; EvConnect].
Proof.
  exists (reached racing_start (run silent (Io writable_ :: turns 0 4 ++ Call 1 (PDestroy PRet) :: turns 1 20 ++ turns 0 20) connecting_start)).
  by vm_compute.
Qed.

(** *** Witnesses *)

Lemma tcp_concurrent_stream_witness :
  exists s, run silent race racing_start = Done s /\ owner s = None /\ accepted (hist (shared s)) = str "abcde" /\
    sent (hist (shared s)) ++ drop (out_offset_ (sk (shared s))) (outbuf_ (sk (shared s))) = accepted (hist (shared s)).
Proof.
  destruct (tcp_concurrent_stream tt id silent 2 race (connection (Scripted.set_sends Scripted.blank (may_send [-1; 3; -1]))))
    as (s & E & Hs); [apply connection_initial|].
  assert (s = race_end) as Hend by (unfold race_end, run, racing_start, two_threads; by rewrite E).
  assert (owner s = None) as Ho by (rewrite Hend; by vm_compute).
  exists s. split; [exact E|]. split; [exact Ho|]. split; [rewrite Hend; by vm_compute|]. apply (Hs Ho).
Defined.

(** The writer about to call send(2), the loop thread about to act. *)
Definition contended : list choice := race_before ++ Call 1 (writes (str "de")) :: turns 1 7.
Definition contended_end := reached racing_start (run silent contended racing_start).

Definition after_modify := match choose tt id silent (Run 0) contended_end with Done (Some s) => s | _ => contended_end end.

Lemma tcp_mutex_discipline_witness :
  owner contended_end = Some 1%nat /\
  (exists t' s', choose tt id silent (Run t') contended_end = Done (Some s')) /\
  sk (shared after_modify) = sk (shared contended_end).
Proof.
  split; [by vm_compute|].
  destruct (tcp_mutex_discipline tt id silent 2 contended (shared racing_start) contended_end) as (_ & _ & _ & Hrun & Hstable).
  - apply connection_initial.
  - by vm_compute.
  - split.
    + apply (Hrun 1%nat (FSend 0 2) [FWriteTail (fun _ => PRet)]). by vm_compute.
    + apply (Hstable 1%nat (Run 0)); [by vm_compute|discriminate|by vm_compute].
Defined.

(** Both threads destroy the connection. *)
Definition double_destroy : list choice :=
  Call 1 (PDestroy PRet) :: turns 1 3 ++ Call 0 (PDestroy PRet) :: turns 0 20 ++ turns 1 20 ++ turns 0 20.
Definition destroyed_end := reached racing_start (run silent double_destroy racing_start).

Lemma accepted_closes_once_witness :
  closes (hist (shared destroyed_end)) = 1%nat <-> state_ (sk (shared destroyed_end)) = closed.
Proof.
  apply (accepted_closes_once tt id silent 2 double_destroy 5 no_address new_loop
           (Scripted.set_sends Scripted.blank (may_send [-1; 3; -1])) tt destroyed_end).
  - lia.
  - repeat constructor.
  - by vm_compute.
  - assert (threads destroyed_end = [[]; []]) as -> by by vm_compute. by repeat constructor.
Defined.

Lemma sequential_is_schedule_witness :
  exists cs, run_schedule tt id echo cs (start 1 echo_start) = Done (start 1 echo_end).
Proof. apply (sequential_is_schedule tt id echo 20 5 0 [SIo readable_]). by vm_compute. Defined.

End examples.
