(* ===== verification/TcpSteps.v ===== *)
(** * Assertions about a [tcp::socket]

    A proof principle for assertions that refer to the kernel and the loop of
    an established socket.  [Moves] lists the elementary steps the code takes
    between two calls of listeners, with the system call each of them made;
    an assertion that is kept by all of them is kept by every operation, with
    every application.  [Steps] is the same for given listeners, and [Stable]
    the coarser form for assertions that do not look at the kernel at all. *)

From S2P Require Import Prelude Poller EventLoop Net TcpSocket.
#[local] Open Scope Z_scope.

Definition was_live (x : socket) : bool := negb (is_state x closed) && valid (desc_ x).

(** The events that carry no data and do not close. *)
Definition other_event (ev : tcp_event) : bool := match ev with EvData _ | EvClose => false | _ => true end.

(** The bytes still to be sent. *)
Definition backlog (x : socket) : bytes := drop (out_offset_ x) (outbuf_ x).

Section steps.
Context {K B D C : Type} `{KernelLaws K}.
Abbreviation world := (TcpSocket.world K B D C).
Implicit Types w : world.

(** The descriptor is given up, before [close] is emitted. *)
Definition released w : world :=
  set_kn (sys_close (desc_ (sk w)) (kn w))
    (upd_sk (set_desc invalid_handle)
       (set_lp (unwatch (lp w) (desc_ (sk w))) (upd_sk (set_state closed) w))).

(** The kernel took [n] bytes of the backlog. *)
Definition advanced (n : nat) (k : K) w : world :=
  upd_sk (set_out (outbuf_ (sk w)) (out_offset_ (sk w) + n))
    (upd_hist (log_wire (WData (take n (backlog (sk w))))) (set_kn k w)).

Definition appended (chunk : bytes) w : world :=
  upd_hist (log_accepted chunk) (upd_sk (fun s => set_out (append (outbuf_ s) chunk) (out_offset_ s) s) w).

Lemma advanced_ok n k w : out_ok w -> (0 < n <= length (backlog (sk w)))%nat -> out_ok (advanced n k w).
Proof. unfold backlog. rewrite length_drop. apply advanced_out. Qed.

(** The steps that call no listener. *)
Class QuietSteps (J : world -> Prop) : Prop := {
  J_established w : J w -> state_ (sk w) <> connecting;
  J_modify i w : J w -> J (modify_interest i w);
  J_advance n k w :
    J w -> sys_send (desc_ (sk w)) (backlog (sk w)) (kn w) = (SysOk (Z.of_nat n), k) ->
    (0 < n <= length (backlog (sk w)))%nat -> J (advanced n k w);
  J_refused r k w :
    J w -> sys_send (desc_ (sk w)) (backlog (sk w)) (kn w) = (r, k) -> transferred r = false -> J (set_kn k w);
  J_emptied w : J w -> has_backlog (sk w) = false -> J (upd_sk (set_out [] 0) w);
  J_ended w : J w -> J (upd_sk set_ended w);
  J_fin w : J w -> J (shutdown_write w);
  J_dead w : J w -> was_live (sk w) = false -> J (upd_sk (set_state closed) w);
  J_nothing r data k w :
    J w -> sys_recv (desc_ (sk w)) recv_size (kn w) = (r, data, k) -> succeeded r = false -> J (set_kn k w)
}.

(** The steps that end in a call of the listeners: first those inside
    [write]. *)
Class Failures (J : world -> Prop) (listeners : tcp_event -> world -> exec world) : Prop := {
  failures_quiet :: QuietSteps J;
  J_error m w : J w -> post (emit listeners (EvError m) w) J;
  J_close w : J w -> was_live (sk w) = true -> post (emit listeners EvClose (released w)) J
}.

Class Steps (J : world -> Prop) (listeners : tcp_event -> world -> exec world) : Prop := {
  steps_failures :: Failures J listeners;
  J_drain w : J w -> post (emit listeners EvDrain w) J;
  J_eof data k w :
    J w -> sys_recv (desc_ (sk w)) recv_size (kn w) = (SysOk 0, data, k) ->
    post (emit listeners EvEnd (set_kn k w)) J;
  J_data n data k w :
    J w -> sys_recv (desc_ (sk w)) recv_size (kn w) = (SysOk n, data, k) -> 0 < n ->
    post (emit listeners (EvData data) (upd_hist (log_arrived data) (set_kn k w))) J
}.

Section failing.
Variable J : world -> Prop.
Variable listeners : tcp_event -> world -> exec world.
Context `{!Failures J listeners}.
Variable fuel : nat.

Lemma close_with_preserves w : J w -> post (close_with listeners w) J.
Proof.
  intros Hw. unfold close_with. fold (was_live (sk w)). destruct (was_live (sk w)) eqn:Hl; simpl; [|by apply J_dead].
  unfold Net.close. pose proof Hl as Hv. apply andb_true_iff in Hv as [_ Hv]. unfold valid in Hv. rewrite Hv. by apply J_close.
Qed.

Lemma fail_preserves m w : J w -> post (fail listeners m w) J.
Proof. intros Hw. eapply post_bind; [by apply J_error|]. apply close_with_preserves. Qed.

Lemma pump_output_preserves n : forall w, J w -> post (pump_output listeners n w) J.
Proof.
  induction n as [|n IH]; intros w Hw; [done|]. simpl.
  destruct (Nat.ltb_spec (out_offset_ (sk w)) (length (outbuf_ (sk w)))) as [Hlt|Hge].
  2: { simpl. apply J_emptied; [done|]. unfold has_backlog. by apply Nat.ltb_ge. }
  rewrite slice_done by lia. simpl. rewrite (take_ge (drop _ _)) by (rewrite length_drop; lia).
  fold (backlog (sk w)). unfold Net.send. destruct (sys_send _ _ _) as [[m|e] k] eqn:Es; simpl.
  - pose proof (send_bounded _ _ _ _ _ Es) as Hm. branch.
    + apply IH, (J_advance (Z.to_nat m) k w); [done| |lia]. by rewrite Z2Nat.id by lia.
    + branch; [lia|]. eapply fail_preserves, J_refused; [done|exact Es|]. simpl. lia.
  - pose proof (J_refused _ _ _ Hw Es eq_refl) as Hw1. branch; [done|]. branch; [by apply IH|]. by apply fail_preserves.
Qed.

(** [write], if the assertion holds once the chunk is appended. *)
Lemma write_preserves chunk w :
  (state_ (sk w) = open_ -> J (appended chunk w)) -> (state_ (sk w) <> open_ -> J w) ->
  post (write listeners fuel chunk w) (fun r => J r.2).
Proof.
  intros Happ Hnot. unfold write, is_state. case_bool_decide as Hst; cbn [negb].
  2: { eapply post_bind; [by apply fail_preserves, Hnot|]. by intros. }
  specialize (Happ Hst). eapply (post_bind _ _ J).
  { branch; [done|]. by apply pump_output_preserves. }
  intros w1 Hw1. simpl. branch; [by apply J_modify|done].
Qed.

Lemma end_preserves w : J w -> J (end_ w).
Proof. intros Hw. unfold end_. branch; [branch|]; [by apply J_ended|by apply J_fin, J_ended|by apply J_ended]. Qed.

End failing.

Section operations.
Variable J : world -> Prop.
Variable listeners : tcp_event -> world -> exec world.
Context `{!Steps J listeners}.
Variable fuel : nat.

Lemma drain_input_preserves n : forall w, J w -> post (drain_input listeners n w) J.
Proof.
  induction n as [|n IH]; intros w Hw; [done|]. simpl. unfold Net.recv.
  destruct (sys_recv _ _ _) as [[[m|e] data] k] eqn:Er; simpl.
  - pose proof (recv_bounded _ _ _ _ _ _ Er) as [En _]. branch.
    + rewrite make_buffer_id, take_ge by lia. eapply post_bind; [by eapply J_data|exact IH].
    + branch; [|lia]. assert (m = 0) as -> by lia.
      eapply post_bind; [by eapply J_eof|intros; by apply (close_with_preserves J listeners)].
  - pose proof (J_nothing _ _ _ _ Hw Er eq_refl) as Hw1. branch; [done|]. branch; [by apply IH|]. by apply (fail_preserves J listeners).
Qed.

Lemma on_writable_preserves w : J w -> post (on_writable listeners fuel w) J.
Proof.
  intros Hw. unfold on_writable. eapply post_bind; [by apply (pump_output_preserves J listeners)|].
  intros w1 Hw1. branch; [done|]. eapply post_bind; [by apply J_drain, J_modify|].
  intros w2 Hw2. simpl. branch; [by apply J_fin|done].
Qed.

Lemma on_io_preserves r w : J w -> post (on_io listeners fuel r w) J.
Proof.
  intros Hw. unfold on_io. pose proof (J_established w Hw) as Hst. destruct (state_ (sk w)); try done.
  eapply (post_bind _ _ J); [branch; [by apply on_writable_preserves|done]|].
  intros w1 Hw1. branch; [by apply drain_input_preserves|]. branch; [by apply drain_input_preserves|done].
Qed.

End operations.

(** ** Arbitrary applications *)

Class Moves (connect_done : list socket_address -> D) (J : world -> Prop) : Prop := {
  moves_quiet :: QuietSteps J;
  M_event ev w : other_event ev = true -> ev <> EvEnd -> J w -> J (upd_hist (log_event ev) w);
  M_eof data k w :
    J w -> sys_recv (desc_ (sk w)) recv_size (kn w) = (SysOk 0, data, k) ->
    J (upd_hist (log_event EvEnd) (set_kn k w));
  M_data n data k w :
    J w -> sys_recv (desc_ (sk w)) recv_size (kn w) = (SysOk n, data, k) -> 0 < n ->
    J (upd_hist (log_event (EvData data)) (upd_hist (log_arrived data) (set_kn k w)));
  M_close w : J w -> was_live (sk w) = true -> J (upd_hist (log_event EvClose) (released w));
  M_append chunk w : J w -> state_ (sk w) = open_ -> J (appended chunk w);
  M_connect port host w : J w -> J (connect connect_done port host w);
  M_env a w : J w -> J (mk_world (sk w) (lp w) (kn w) a (hist w))
}.

Section applications.
Variable connect_done : list socket_address -> D.
Variable J : world -> Prop.
Context `{!Moves connect_done J}.
Variable fuel : nat.

#[local] Instance moves_steps listeners : (forall ev w, J w -> post (listeners ev w) J) -> Steps J listeners.
Proof.
  intros Hl. split; [split; [apply _|..]|..]; intros; apply Hl.
  - by apply M_event.
  - by apply M_close.
  - by apply M_event.
  - by eapply M_eof.
  - by eapply M_data.
Qed.

Lemma run_prog_preserves listeners p :
  (forall ev w, J w -> post (listeners ev w) J) ->
  forall w, J w -> post (run_prog connect_done listeners fuel p w) J.
Proof.
  intros Hl. pose proof (moves_steps listeners Hl) as Hs.
  induction p as [|chunk k IH|k IH|k IH|port host k IH|k IH]; intros w Hw; simpl.
  - done.
  - eapply (post_bind _ _ (fun r => J r.2)); [|intros [b w1]; apply IH].
    apply (write_preserves J); [apply _|by apply M_append|done].
  - apply IH. by apply (end_preserves J listeners).
  - eapply post_bind; [by apply (close_with_preserves J listeners)|exact IH].
  - by apply IH, M_connect.
  - by apply IH.
Qed.

Lemma react_preserves app depth : forall ev w, J w -> post (react connect_done app fuel depth ev w) J.
Proof.
  induction depth as [|depth IH]; intros ev w Hw; [done|]. simpl. destruct (app ev (env w)) as [a p].
  apply run_prog_preserves; [exact IH|]. by apply M_env.
Qed.

(** Everything that happens to an established socket but the end of a
    [connect]. *)
Definition established_stimulus (s : stimulus) : bool := match s with SResolved _ => false | _ => true end.

Lemma stimulate_preserves app io_cb depth s w :
  established_stimulus s = true -> J w -> post (stimulate connect_done app fuel io_cb depth s w) J.
Proof.
  intros Hs Hw. pose proof (moves_steps _ (react_preserves app depth)) as Hst. destruct s as [r|p|]; simpl; [| |done].
  - by apply on_io_preserves.
  - apply run_prog_preserves; [apply react_preserves|done].
Qed.

End applications.

(** ** Assertions that look neither at the kernel nor at the loop *)

Class Stable (J : world -> Prop) (listeners : tcp_event -> world -> exec world) : Prop := {
  Stable_established w : J w -> state_ (sk w) <> connecting;
  Stable_kn k w : J w -> J (set_kn k w);
  Stable_lp l w : J w -> J (set_lp l w);
  Stable_advance n w : J w -> (0 < n <= length (backlog (sk w)))%nat -> J (advanced n (kn w) w);
  Stable_emptied w : J w -> has_backlog (sk w) = false -> J (upd_sk (set_out [] 0) w);
  Stable_ended w : J w -> J (upd_sk set_ended w);
  Stable_fin w : J w -> J (upd_hist (log_wire WFin) w);
  Stable_dead w : J w -> was_live (sk w) = false -> J (upd_sk (set_state closed) w);
  Stable_quiet ev w : other_event ev = true -> J w -> post (emit listeners ev w) J;
  Stable_data chunk w : J w -> post (emit listeners (EvData chunk) (upd_hist (log_arrived chunk) w)) J;
  Stable_close w : J w -> was_live (sk w) = true -> post (emit listeners EvClose (released w)) J
}.

#[export] Instance stable_steps J listeners : Stable J listeners -> Steps J listeners.
Proof.
  intros Hst. split; [split; [split|..]|..].
  - apply Stable_established.
  - intros i w. apply Stable_lp.
  - intros n k w Hw _ Hn. apply (Stable_advance n (set_kn k w)); [by apply Stable_kn|done].
  - intros r k w Hw _ _. by apply Stable_kn.
  - apply Stable_emptied.
  - apply Stable_ended.
  - intros w Hw. by apply Stable_fin, Stable_kn.
  - apply Stable_dead.
  - intros r data k w Hw _ _. by apply Stable_kn.
  - intros m w. by apply Stable_quiet.
  - apply Stable_close.
  - intros w. by apply Stable_quiet.
  - intros data k w Hw _. by apply Stable_quiet, Stable_kn.
  - intros n data k w Hw _ _. by apply Stable_data, Stable_kn.
Qed.

End steps.
