(* ===== verification/TcpLink.v ===== *)
(** * Two connected sockets

    What a [tcp::socket] is for: the bytes one end writes reach the other end.
    Each end is a socket of [TcpSocket] with its own loop, kernel and
    application.  [StreamKernel] states what TCP promises about a connected
    descriptor (reliable, in order, a FIN after the last byte) in terms of the
    stream the kernel keeps for it; the network between the kernels is two
    more operations of the class that move bytes and FINs over.  A run of
    [link_step] is any interleaving of readiness reports and calls on both
    ends with the network. *)

From S2P Require Import Prelude Poller EventLoop Net TcpSocket TcpSteps.
#[local] Open Scope Z_scope.

(** ** The streams of a connected descriptor

    [outgoing] is every byte the kernel took, [incoming] what came from the
    network and was not read yet, [consumed] what was read. *)
Record stream := mk_stream {
  outgoing : bytes;
  fin_out : bool;
  consumed : bytes;
  incoming : bytes;
  fin_in : bool
}.

Definition no_stream : stream := mk_stream [] false [] [] false.

Definition taken (b : bytes) (s : stream) : stream :=
  mk_stream (outgoing s ++ b) (fin_out s) (consumed s) (incoming s) (fin_in s).
Definition handed_over (b : bytes) (s : stream) : stream :=
  mk_stream (outgoing s) (fin_out s) (consumed s ++ b) (drop (length b) (incoming s)) (fin_in s).
Definition finished (s : stream) : stream := mk_stream (outgoing s) true (consumed s) (incoming s) (fin_in s).
Definition came_in (b : bytes) (s : stream) : stream :=
  mk_stream (outgoing s) (fin_out s) (consumed s) (incoming s ++ b) (fin_in s).
Definition fin_came_in (s : stream) : stream :=
  mk_stream (outgoing s) (fin_out s) (consumed s) (incoming s) true.

(** Everything that came over the network. *)
Definition received (s : stream) : bytes := consumed s ++ incoming s.

Definition moved (r : sysret) : nat := match r with SysOk n => Z.to_nat n | SysErr _ => 0 end.

Class StreamKernel (K : Type) `{Kernel K} := {
  stream_of : Z -> K -> stream;
  arrive : Z -> bytes -> K -> K;
  arrive_fin : Z -> K -> K;
  send_stream fd b k r k' d :
    sys_send fd b k = (r, k') ->
    stream_of d k' = if decide (d = fd) then taken (take (moved r) b) (stream_of d k) else stream_of d k;
  send_refused fd b k r k' :
    sys_send fd b k = (r, k') -> fd < 0 \/ fin_out (stream_of fd k) = true -> transferred r = false;
  recv_stream fd len k r data k' d :
    sys_recv fd len k = (r, data, k') ->
    stream_of d k' = if decide (d = fd /\ succeeded r = true) then handed_over data (stream_of d k) else stream_of d k;
  recv_prefix fd len k n data k' :
    sys_recv fd len k = (SysOk n, data, k') -> 0 <= fd /\ data `prefix_of` incoming (stream_of fd k);
  recv_eof fd len k data k' :
    sys_recv fd len k = (SysOk 0, data, k') -> (0 < len)%nat ->
    incoming (stream_of fd k) = [] /\ fin_in (stream_of fd k) = true;
  shutdown_stream fd how k d :
    stream_of d (sys_shutdown fd how k).2 = stream_of d k \/
    d = fd /\ stream_of d (sys_shutdown fd how k).2 = finished (stream_of d k);
  close_stream fd k d :
    stream_of d (sys_close fd k) = stream_of d k \/
    d = fd /\ stream_of d (sys_close fd k) = finished (stream_of d k);
  resolve_stream host service socktype k d :
    stream_of d (getaddrinfo host service socktype k).2 = stream_of d k;
  arrive_stream fd b k : stream_of fd (arrive fd b k) = came_in b (stream_of fd k);
  arrive_fin_stream fd k : stream_of fd (arrive_fin fd k) = fin_came_in (stream_of fd k)
}.

(** What the calls of one end can do to its stream. *)
Definition advances (s s' : stream) : Prop :=
  outgoing s `prefix_of` outgoing s' /\
  (fin_out s = true -> fin_out s' = true /\ outgoing s' = outgoing s) /\
  received s' = received s /\ fin_in s' = fin_in s.

#[export] Instance advances_preorder : PreOrder advances.
Proof.
  split.
  - intros s. by split_and!.
  - intros s1 s2 s3 (H1 & H2 & H3 & H4) (G1 & G2 & G3 & G4). split_and!; [by etrans| |congruence|congruence].
    intros Hf. destruct (H2 Hf) as [Hf2 E2]. destruct (G2 Hf2) as [? ?]. split; congruence.
Qed.

(** One direction: what came out at [b] is a prefix of what went in at [a],
    and all of it once the FIN came out. *)
Definition flow (a b : stream) : Prop :=
  received b `prefix_of` outgoing a /\ (fin_in b = true -> received b = outgoing a /\ fin_out a = true).

Lemma flow_advances a a' b b' : flow a b -> advances a a' -> advances b b' -> flow a' b'.
Proof.
  intros [Hp Hf] (A1 & A2 & _ & _) (_ & _ & B3 & B4). unfold flow. rewrite B3, B4. split; [by etrans|].
  intros Hfin. destruct (Hf Hfin) as [E Ho]. destruct (A2 Ho) as [? Ea]. split; congruence.
Qed.

(** What is on its way from [a] to [b]. *)
Definition in_flight (a b : stream) : bytes := drop (length (received b)) (outgoing a).

Lemma flow_split a b : flow a b -> outgoing a = received b ++ in_flight a b.
Proof. intros [[t E] _]. unfold in_flight. by rewrite E, drop_app_length. Qed.

(** ** The link *)

Section link.
Context {K A D C : Type} `{KernelLaws K} `{!StreamKernel K}.
Abbreviation world := (TcpSocket.world K A D C).
Implicit Types w : world.

(** The two ends, and the descriptor each of them has. *)
Record link := mk_link { left : world; right : world }.

Variables (dl dr : Z).
Variable connect_done : list socket_address -> D.
Variable io_cb : C.
Variables (app_left app_right : tcp_event -> A -> A * prog).
Variable fuel : nat.

Inductive link_event :=
  | AtLeft (s : stimulus)
  | AtRight (s : stimulus)
  | ToRight (n : nat)      (* the network carries up to n bytes *)
  | ToLeft (n : nat)
  | FinToRight
  | FinToLeft.

Definition stream_at (d : Z) w : stream := stream_of d (kn w).

Definition carry (n : nat) (from : stream) (d : Z) w : world :=
  set_kn (arrive d (take n (in_flight from (stream_at d w))) (kn w)) w.

Definition carry_fin (from : stream) (d : Z) w : world :=
  if fin_out from && bool_decide (in_flight from (stream_at d w) = []) then set_kn (arrive_fin d (kn w)) w else w.

Definition link_step (depth : nat) (e : link_event) (l : link) : exec link :=
  match e with
  | AtLeft s => do w := stimulate connect_done app_left fuel io_cb depth s (left l) in Done (mk_link w (right l))
  | AtRight s => do w := stimulate connect_done app_right fuel io_cb depth s (right l) in Done (mk_link (left l) w)
  | ToRight n => Done (mk_link (left l) (carry n (stream_at dl (left l)) dr (right l)))
  | ToLeft n => Done (mk_link (carry n (stream_at dr (right l)) dl (left l)) (right l))
  | FinToRight => Done (mk_link (left l) (carry_fin (stream_at dl (left l)) dr (right l)))
  | FinToLeft => Done (mk_link (carry_fin (stream_at dr (right l)) dl (left l)) (right l))
  end.

Fixpoint link_run (depth : nat) (es : list link_event) (l : link) : exec link :=
  match es with
  | [] => Done l
  | e :: es' => do l := link_step depth e l in link_run depth es' l
  end.

(** The connection stays the one it is: no [connect] comes to its end. *)
Definition established_event (e : link_event) : bool :=
  match e with
  | AtLeft s | AtRight s => established_stimulus s
  | _ => true
  end.

(** An end of a fresh connection. *)
Definition fresh_end (d : Z) w : Prop :=
  0 <= d /\ desc_ (sk w) = d /\ state_ (sk w) = open_ /\ outbuf_ (sk w) = [] /\ out_offset_ (sk w) = 0%nat /\
  accepted (hist w) = [] /\ wire (hist w) = [] /\ arrived (hist w) = [] /\ trace (hist w) = [] /\
  stream_at d w = no_stream.

(** ** Invariant of one end *)

Definition end_ok (d : Z) w : Prop :=
  (desc_ (sk w) = d \/ desc_ (sk w) = invalid_handle) /\ state_ (sk w) <> connecting /\ out_ok w /\
  delivered (hist w) = arrived (hist w) /\
  sent (hist w) = outgoing (stream_at d w) /\ arrived (hist w) = consumed (stream_at d w) /\
  (EvEnd ∈ trace (hist w) -> incoming (stream_at d w) = [] /\ fin_in (stream_at d w) = true).

(** Calls on this end, from a time its stream was [s0]. *)
Definition end_from (d : Z) (s0 : stream) w : Prop := end_ok d w /\ advances s0 (stream_at d w).

(** Steps that move no bytes, but may finish the stream. *)
Lemma end_from_step d s0 w w' :
  stream_at d w' = stream_at d w \/ stream_at d w' = finished (stream_at d w) ->
  (desc_ (sk w') = desc_ (sk w) \/ desc_ (sk w') = invalid_handle) ->
  (state_ (sk w') = state_ (sk w) \/ state_ (sk w') = closed) ->
  (out_ok w -> out_ok w') -> delivered (hist w') = delivered (hist w) -> arrived (hist w') = arrived (hist w) ->
  sent (hist w') = sent (hist w) -> (EvEnd ∈ trace (hist w') -> EvEnd ∈ trace (hist w)) ->
  end_from d s0 w -> end_from d s0 w'.
Proof.
  intros Es Ed Est Hout E1 E2 E3 Htr [(Hd & Hst & Ho & Hda & Hs & Ha & He) Hadv].
  assert (advances (stream_at d w) (stream_at d w') /\ outgoing (stream_at d w') = outgoing (stream_at d w) /\
    consumed (stream_at d w') = consumed (stream_at d w) /\ incoming (stream_at d w') = incoming (stream_at d w))
    as (Hadv' & Eo & Ec & Ei).
  { destruct Es as [->| ->]; [by split_and!|]. by split_and!. }
  unfold end_from, end_ok. split; [|by etrans].
  rewrite Eo, Ec, Ei, (proj2 (proj2 (proj2 Hadv'))).
  split_and!; [destruct Ed as [->|]; auto|destruct Est as [->| ->]; done|auto|congruence..|auto].
Qed.

Lemma event_not_end ev w : ev <> EvEnd -> EvEnd ∈ trace (log_event ev (hist w)) -> EvEnd ∈ trace (hist w).
Proof. intros Hev [?|?%list_elem_of_singleton]%elem_of_app; [done|congruence]. Qed.

Lemma advanced_end d s0 n k w :
  0 <= d -> end_from d s0 w -> sys_send (desc_ (sk w)) (backlog (sk w)) (kn w) = (SysOk (Z.of_nat n), k) ->
  (0 < n <= length (backlog (sk w)))%nat -> end_from d s0 (advanced n k w).
Proof.
  intros Hd [(Hdesc & Hst & Ho & Hda & Hs & Ha & He) Hadv] Es Hn.
  destruct Hdesc as [Hdesc|Hdesc].
  2: { assert (desc_ (sk w) < 0) as Hneg by (rewrite Hdesc; done).
       pose proof (send_refused _ _ _ _ _ Es (or_introl Hneg)) as Hr. simpl in Hr. lia. }
  pose proof (send_stream _ _ _ _ _ d Es) as Hk. rewrite decide_True in Hk by done. simpl in Hk. rewrite Nat2Z.id in Hk.
  assert (fin_out (stream_at d w) = false) as Hf.
  { destruct (fin_out (stream_at d w)) eqn:Hf; [|done]. unfold stream_at in Hf. rewrite <- Hdesc in Hf.
    pose proof (send_refused _ _ _ _ _ Es (or_intror Hf)) as Hr. simpl in Hr. lia. }
  unfold end_from, end_ok, stream_at in *. simpl. rewrite Hk. split.
  - split_and!; [by left|done|by apply advanced_ok|done| |done|done]. rewrite sent_snoc. simpl. by rewrite Hs.
  - etrans; [exact Hadv|]. split_and!; simpl; [by apply prefix_app_r|congruence|done|done].
Qed.

(** Reading: the bytes handed over leave the front of the queue. *)
Lemma received_handed_over b s : b `prefix_of` incoming s -> received (handed_over b s) = received s.
Proof. intros [t E]. unfold received. simpl. by rewrite E, drop_app_length, <- app_assoc. Qed.

Lemma arrived_end d s0 n data k w :
  0 <= d -> end_from d s0 w -> sys_recv (desc_ (sk w)) recv_size (kn w) = (SysOk n, data, k) ->
  end_from d s0 (upd_hist (log_event (EvData data)) (upd_hist (log_arrived data) (set_kn k w))).
Proof.
  intros Hd [(Hdesc & Hst & Ho & Hda & Hs & Ha & He) Hadv] Er.
  destruct (recv_prefix _ _ _ _ _ _ Er) as [Hpos Hpre].
  assert (desc_ (sk w) = d) as Hdw by (destruct Hdesc; [done|unfold invalid_handle in *; lia]).
  pose proof (recv_stream _ _ _ _ _ _ d Er) as Hk. rewrite decide_True in Hk by done. rewrite Hdw in Hpre.
  unfold end_from, end_ok, stream_at in *. simpl. rewrite Hk. split.
  - split_and!; [by left|done|done| |done| |].
    + rewrite delivered_snoc. simpl. unfold delivered in *. simpl. by rewrite Hda.
    + simpl. by rewrite Ha.
    + intros [Hin|[=]%list_elem_of_singleton]%elem_of_app. destruct (He Hin) as [Ei Hf].
      rewrite Ei in *. apply prefix_nil_inv in Hpre as ->. simpl. by rewrite Ei.
  - etrans; [exact Hadv|]. split_and!; [done|done|by apply received_handed_over|done].
Qed.

Lemma eof_end d s0 data k w :
  0 <= d -> end_from d s0 w -> sys_recv (desc_ (sk w)) recv_size (kn w) = (SysOk 0, data, k) ->
  end_from d s0 (upd_hist (log_event EvEnd) (set_kn k w)).
Proof.
  intros Hd [(Hdesc & Hst & Ho & Hda & Hs & Ha & He) Hadv] Er.
  destruct (recv_prefix _ _ _ _ _ _ Er) as [Hpos Hpre].
  assert (desc_ (sk w) = d) as Hdw by (destruct Hdesc; [done|unfold invalid_handle in *; lia]).
  pose proof (recv_stream _ _ _ _ _ _ d Er) as Hk. rewrite decide_True in Hk by done. rewrite Hdw in Hpre.
  destruct (recv_eof _ _ _ _ _ Er) as [Ei Hf]; [unfold recv_size; lia|]. rewrite Hdw in Ei, Hf.
  rewrite Ei in Hpre. apply prefix_nil_inv in Hpre as ->.
  unfold end_from, end_ok, stream_at in *. simpl. rewrite Hk. simpl. rewrite Ei, app_nil_r. split.
  - split_and!; try done. by rewrite delivered_snoc, app_nil_r.
  - etrans; [exact Hadv|]. split_and!; [done|done|apply received_handed_over, prefix_nil|done].
Qed.

#[local] Instance end_moves d s0 : 0 <= d -> Moves connect_done (end_from d s0).
Proof.
  intros Hd. split; [split|..].
  - by intros w [(_ & ? & _) _].
  - intros i w. apply end_from_step; auto.
  - intros n k w. by apply advanced_end.
  - intros r k w Hw Es Hr. revert Hw. apply end_from_step; auto. left.
    unfold stream_at. simpl. rewrite (send_stream _ _ _ _ _ d Es). case_decide; [|done].
    destruct r as [n|e]; simpl in *; [|by destruct (stream_of _ _); unfold taken; simpl; rewrite app_nil_r].
    replace (Z.to_nat n) with 0%nat by lia. destruct (stream_of _ _). unfold taken. simpl. by rewrite app_nil_r.
  - intros w Hw Hb. revert Hw. apply end_from_step; auto. intros Ho. by apply emptied_out.
  - intros w. apply end_from_step; auto.
  - intros w. apply end_from_step; auto.
    + unfold stream_at, shutdown_write, Net.shutdown. simpl. destruct (sys_shutdown _ _ _) as [r k] eqn:E.
      destruct (shutdown_stream (desc_ (sk w)) 1 (kn w) d) as [G|[_ G]]; rewrite E in G; auto.
    + intros [Ho Hs]. split; [done|]. simpl. by rewrite sent_snoc, app_nil_r.
    + simpl. by rewrite sent_snoc, app_nil_r.
  - intros w Hw _. revert Hw. apply end_from_step; auto.
  - intros r data k w Hw Er Hr. revert Hw. apply end_from_step; auto. left.
    unfold stream_at. simpl. rewrite (recv_stream _ _ _ _ _ _ d Er). rewrite decide_False; [done|]. rewrite Hr. by intros [_ ?].
  - intros ev w Hev Hne. apply end_from_step; auto; [|by apply event_not_end].
    simpl. rewrite delivered_snoc. destruct ev; try done; apply app_nil_r.
  - intros data k w. by apply eof_end.
  - intros n data k w Hw Er _. by eapply arrived_end.
  - intros w Hw _. revert Hw. apply end_from_step; auto; [|by simpl; rewrite delivered_snoc, app_nil_r|by apply event_not_end].
    unfold stream_at, released. simpl. destruct (close_stream (desc_ (sk w)) (kn w) d) as [->|[_ ->]]; auto.
  - intros chunk w Hw _. revert Hw. apply end_from_step; auto. apply appended_out.
  - intros port host w. unfold connect, resolve. destruct (getaddrinfo _ _ _ _) as [[sas|] k] eqn:E;
      apply end_from_step; auto; left; unfold stream_at; simpl;
      by rewrite <- (resolve_stream (c_str host) (port_string port) 1 (kn w) d), E.
  - intros a w. apply end_from_step; auto.
Qed.

(** ** Invariant of the link *)

Definition link_ok (l : link) : Prop :=
  0 <= dl /\ 0 <= dr /\ end_ok dl (left l) /\ end_ok dr (right l) /\
  flow (stream_at dl (left l)) (stream_at dr (right l)) /\ flow (stream_at dr (right l)) (stream_at dl (left l)).

Lemma stimulate_end app depth s d w :
  0 <= d -> established_stimulus s = true -> end_ok d w ->
  post (stimulate connect_done app fuel io_cb depth s w) (end_from d (stream_at d w)).
Proof. intros Hd Hs Hw. apply stimulate_preserves; [by apply end_moves|done|by split]. Qed.

(** The network at the receiving end [b]. *)
Lemma carry_ok n a d w :
  end_ok d w -> flow a (stream_at d w) -> end_ok d (carry n a d w) /\ flow a (stream_at d (carry n a d w)).
Proof.
  intros (Hd & Hst & Ho & Hda & Hs & Ha & He) Hf. unfold end_ok, carry, stream_at in *. simpl. rewrite arrive_stream.
  pose proof (flow_split _ _ Hf) as Esplit. destruct Hf as [Hp Hfin]. split.
  - split_and!; try done. simpl. intros Hin. destruct (He Hin) as [-> Hfi]. split; [|done].
    destruct (Hfin Hfi) as [Er _]. unfold in_flight. by rewrite Er, drop_all, take_nil.
  - unfold flow, received in *. simpl. split.
    + rewrite app_assoc. etrans; [apply prefix_app, prefix_take|]. by rewrite <- Esplit.
    + intros Hfi. destruct (Hfin Hfi) as [Er ?]. split; [|done]. unfold in_flight, received.
      rewrite Er, drop_all, take_nil, app_nil_r. done.
Qed.

Lemma carry_outgoing n a d w : outgoing (stream_at d (carry n a d w)) = outgoing (stream_at d w).
Proof. unfold stream_at, carry. simpl. by rewrite arrive_stream. Qed.
Lemma carry_fin_out n a d w : fin_out (stream_at d (carry n a d w)) = fin_out (stream_at d w).
Proof. unfold stream_at, carry. simpl. by rewrite arrive_stream. Qed.

Lemma carry_fin_ok a d w :
  end_ok d w -> flow a (stream_at d w) -> end_ok d (carry_fin a d w) /\ flow a (stream_at d (carry_fin a d w)) /\
    outgoing (stream_at d (carry_fin a d w)) = outgoing (stream_at d w) /\
    fin_out (stream_at d (carry_fin a d w)) = fin_out (stream_at d w).
Proof.
  intros Hw Hf. pose proof (flow_split _ _ Hf) as Esplit. unfold carry_fin.
  destruct (fin_out a) eqn:Hfo; simpl; [|done]. case_bool_decide as Hfl; [|done].
  destruct Hw as (Hd & Hst & Ho & Hda & Hs & Ha & He). unfold end_ok, stream_at in *. simpl. rewrite arrive_fin_stream.
  rewrite Hfl, app_nil_r in Esplit. split_and!; try done.
  - simpl. intros Hin. by destruct (He Hin).
  - by destruct Hf.
Qed.

(** The other direction sees only what [b] sends. *)
Lemma flow_same a b b' : outgoing b' = outgoing b -> fin_out b' = fin_out b -> flow b a -> flow b' a.
Proof. unfold flow. by intros -> ->. Qed.

Lemma link_step_ok depth e l :
  established_event e = true -> link_ok l -> post (link_step depth e l) link_ok.
Proof.
  intros He (Hl & Hr & HL & HR & Hlr & Hrl). destruct e as [s|s|n|n| |]; simpl in *.
  - eapply post_bind; [by apply (stimulate_end app_left depth s dl (left l))|]. intros w [Hw Hadv]. simpl.
    split_and!; try done; [exact (flow_advances _ _ _ _ Hlr Hadv ltac:(reflexivity))|exact (flow_advances _ _ _ _ Hrl ltac:(reflexivity) Hadv)].
  - eapply post_bind; [by apply (stimulate_end app_right depth s dr (right l))|]. intros w [Hw Hadv]. simpl.
    split_and!; try done; [exact (flow_advances _ _ _ _ Hlr ltac:(reflexivity) Hadv)|exact (flow_advances _ _ _ _ Hrl Hadv ltac:(reflexivity))].
  - destruct (carry_ok n _ dr _ HR Hlr) as [Hw Hf]. split_and!; simpl; try done.
    eapply flow_same; [apply carry_outgoing|apply carry_fin_out|done].
  - destruct (carry_ok n _ dl _ HL Hrl) as [Hw Hf]. split_and!; simpl; try done.
    eapply flow_same; [apply carry_outgoing|apply carry_fin_out|done].
  - destruct (carry_fin_ok _ dr _ HR Hlr) as (Hw & Hf & Ho & Hfo). split_and!; simpl; try done. by eapply flow_same.
  - destruct (carry_fin_ok _ dl _ HL Hrl) as (Hw & Hf & Ho & Hfo). split_and!; simpl; try done. by eapply flow_same.
Qed.

Lemma link_run_ok depth es : forall l,
  Forall (fun e => established_event e = true) es -> link_ok l -> post (link_run depth es l) link_ok.
Proof.
  induction es as [|e es IH]; intros l Hes Hl; [done|]. simpl. inversion Hes as [|?? He Hes']; subst.
  eapply post_bind; [by apply link_step_ok|]. intros l' Hl'. by apply IH.
Qed.

Lemma fresh_end_ok d w : fresh_end d w -> end_ok d w.
Proof.
  intros (Hd & Ed & Est & Eb & Eo & Ea & Ew & Er & Et & Es). unfold end_ok, out_ok, delivered, sent.
  rewrite Est, Eb, Eo, Ea, Ew, Er, Et, Es. split_and!; try done; [by left|]. by intros ?%elem_of_nil.
Qed.

Lemma fresh_link_ok l : fresh_end dl (left l) -> fresh_end dr (right l) -> link_ok l.
Proof.
  intros Hl Hr. pose proof Hl as (? & _ & _ & _ & _ & _ & _ & _ & _ & E1). pose proof Hr as (? & _ & _ & _ & _ & _ & _ & _ & _ & E2).
  split_and!; auto using fresh_end_ok; rewrite E1, E2; by split.
Qed.

(** What [a] wrote, as seen from [b]. *)
Lemma flow_bytes da db a b :
  end_ok da a -> end_ok db b -> flow (stream_at da a) (stream_at db b) ->
  accepted (hist a) =
    delivered (hist b) ++ incoming (stream_at db b) ++ in_flight (stream_at da a) (stream_at db b) ++ backlog (sk a) /\
  (EvEnd ∈ trace (hist b) -> delivered (hist b) = sent (hist a)).
Proof.
  intros (_ & _ & [_ Ho] & _ & Hs & _) (_ & _ & _ & Hda & _ & Ha & He) Hf. split.
  - rewrite <- Ho, Hs, (flow_split _ _ Hf). unfold received. rewrite Hda, Ha, <- !app_assoc. done.
  - intros Hin. destruct (He Hin) as [Ei Hfin]. destruct Hf as [_ Hf]. destruct (Hf Hfin) as [Er _].
    unfold received in Er. rewrite Ei, app_nil_r in Er. congruence.
Qed.

(** C4. Two connected sockets are a pair of byte channels.  Whatever the two
    applications do, however the kernels split transfers and however the
    network delays bytes: nothing is undefined, and in both directions what
    [write] took at one end is, in this order, what the data listeners of the
    other end were given, what waits in its kernel, what is on the way, and
    what is still buffered; so nothing is lost, duplicated or reordered.  An
    end that saw [end] has been given everything the other end sent. *)
Theorem link_streams depth es l :
  fresh_end dl (left l) -> fresh_end dr (right l) ->
  Forall (fun e => established_event e = true) es ->
  link_run depth es l <> Undef /\
  (forall l', link_run depth es l = Done l' ->
    let sl := stream_at dl (left l') in
    let sr := stream_at dr (right l') in
    accepted (hist (left l')) =
      delivered (hist (right l')) ++ incoming sr ++ in_flight sl sr ++ backlog (sk (left l')) /\
    accepted (hist (right l')) =
      delivered (hist (left l')) ++ incoming sl ++ in_flight sr sl ++ backlog (sk (right l')) /\
    (EvEnd ∈ trace (hist (right l')) -> delivered (hist (right l')) = sent (hist (left l'))) /\
    (EvEnd ∈ trace (hist (left l')) -> delivered (hist (left l')) = sent (hist (right l')))).
Proof.
  intros Hl Hr Hes. pose proof (fresh_link_ok l Hl Hr) as Hok.
  pose proof (link_run_ok depth es l Hes Hok) as Hp. destruct (link_run depth es l) as [l'| |]; [|done|done].
  split; [done|]. intros l'' [= <-]. destruct Hp as (_ & _ & HL & HR & Hlr & Hrl).
  destruct (flow_bytes _ _ _ _ HL HR Hlr). destruct (flow_bytes _ _ _ _ HR HL Hrl). done.
Qed.

End link.

(** ** A concrete kernel

    One stream per descriptor; [quota] says how many bytes each call of
    send(2) takes, 0 being "would block". *)
Module StreamHost.

Record host := mk_host { streams : gmap Z stream; quota : list nat }.

Definition stream_at_fd (d : Z) (k : host) : stream := default no_stream (streams k !! d).
Definition on_stream (d : Z) (f : stream -> stream) (k : host) : host :=
  mk_host (<[d := f (stream_at_fd d k)]> (streams k)) (quota k).

Lemma on_stream_eq d f k : stream_at_fd d (on_stream d f k) = f (stream_at_fd d k).
Proof. unfold stream_at_fd at 1. simpl. by rewrite lookup_insert_eq. Qed.
Lemma on_stream_ne d d' f k : d' <> d -> stream_at_fd d' (on_stream d f k) = stream_at_fd d' k.
Proof. intros Hne. unfold stream_at_fd. simpl. by rewrite lookup_insert_ne. Qed.

Definition take_bytes (fd : Z) (b : bytes) (k : host) : sysret * host :=
  if fd <? 0 then (SysErr 9, k)
  else if fin_out (stream_at_fd fd k) then (SysErr 32, k)
  else
    match quota k with
    | [] | O :: _ => (SysErr 11, mk_host (streams k) (tail (quota k)))
    | n :: q =>
        let b := take n b in
        (SysOk (Z.of_nat (length b)), on_stream fd (taken b) (mk_host (streams k) q))
    end.

Definition give_bytes (fd : Z) (len : nat) (k : host) : sysret * bytes * host :=
  if fd <? 0 then (SysErr 9, [], k)
  else
    match incoming (stream_at_fd fd k) with
    | [] => if fin_in (stream_at_fd fd k) then (SysOk 0, [], on_stream fd (handed_over []) k) else (SysErr 11, [], k)
    | inc =>
        let data := take len inc in
        (SysOk (Z.of_nat (length data)), data, on_stream fd (handed_over data) k)
    end.

#[global] Instance host_kernel : Kernel host := {|
  sys_socket _ _ k := (SysErr 24, k);
  sys_getfl _ k := (SysOk 2, k);
  sys_setfl _ _ k := (SysOk 0, k);
  sys_reuseaddr _ k := (SysOk 0, k);
  sys_connect _ _ k := (SysErr 115, k);
  sys_bind _ _ k := (SysOk 0, k);
  sys_listen _ _ k := (SysOk 0, k);
  sys_accept _ k := (SysErr 11, Scripted.nowhere, k);
  sys_read := give_bytes;
  sys_write := take_bytes;
  sys_send := take_bytes;
  sys_recv := give_bytes;
  sys_sendto _ _ _ k := (SysErr 11, k);
  sys_recvfrom _ _ k := (SysErr 11, [], Scripted.nowhere, k);
  sys_shutdown fd _ k := (SysOk 0, on_stream fd finished k);
  sys_getsockname _ k := (SysOk 0, Scripted.nowhere, k);
  sys_so_error _ k := (SysOk 0, 0, k);
  sys_close fd k := on_stream fd finished k;
  getaddrinfo _ _ _ k := (None, k);
  inet_pton _ s := None;
  inet_ntop _ raw := raw;
  generic_message e := digits 5 e
|}.

#[global] Instance host_laws : KernelLaws host.
Proof.
  split; simpl; try done.
  - intros fd b k n k'. unfold take_bytes. branch; [done|]. branch; [done|].
    destruct (quota k) as [|[|m] q]; intros [=]; subst. rewrite length_take. lia.
  - intros fd len k n data k'. unfold give_bytes. branch; [done|].
    destruct (incoming _) as [|x inc] eqn:E; [branch|]; intros [=]; subst; simpl; (split; [done|]).
    + lia.
    + rewrite length_take. lia.
Qed.

#[global] Program Instance host_streams : StreamKernel host := {|
  stream_of := stream_at_fd;
  arrive fd b k := on_stream fd (came_in b) k;
  arrive_fin fd k := on_stream fd fin_came_in k
|}.
Next Obligation.
  simpl. intros fd b k r k' d. assert (forall s, s = taken [] s) as Hnil.
  { intros []. unfold taken. simpl. by rewrite app_nil_r. }
  intros E. unfold take_bytes in E. branch_in E; [injection E as <- <-; case_decide; apply Hnil || done|].
  branch_in E; [injection E as <- <-; case_decide; apply Hnil || done|].
  destruct (quota k) as [|[|m] q]; injection E as <- <-; case_decide; subst; try (apply Hnil || done).
  - rewrite on_stream_eq. simpl. rewrite Nat2Z.id. unfold taken. simpl. f_equal. f_equal.
    rewrite length_take. destruct (Nat.min_spec (S m) (length b)) as [[? ->]|[? ->]]; [done|]. by rewrite !take_ge by lia.
  - by rewrite on_stream_ne.
Qed.
Next Obligation.
  simpl. intros fd b k r k' E [Hfd|Hf]; unfold take_bytes in E.
  - rewrite (proj2 (Z.ltb_lt fd 0) Hfd) in E. by injection E as <- <-.
  - rewrite Hf in E. branch_in E; by injection E as <- <-.
Qed.
Next Obligation.
  simpl. intros fd len k r data k' d.
  assert (forall b, stream_at_fd d (on_stream fd (handed_over b) k) =
    if decide (d = fd /\ true = true) then handed_over b (stream_at_fd d k) else stream_at_fd d k) as Hon.
  { intros b. case_decide as Hd; [destruct Hd as [-> _]; apply on_stream_eq|]. apply on_stream_ne. intros ->. by apply Hd. }
  assert (forall s s' : stream, s' = if decide (d = fd /\ false = true) then s else s') as Hoff.
  { intros s s'. by rewrite decide_False by by intros [_ [=]]. }
  intros E. unfold give_bytes in E. branch_in E; [injection E as <- <- <-; apply Hoff|].
  destruct (incoming _) as [|x inc] eqn:Ei; [branch_in E|]; injection E as <- <- <-; apply Hon || apply Hoff.
Qed.
Next Obligation.
  simpl. intros fd len k n data k'. unfold give_bytes. branch; [done|].
  destruct (incoming _) as [|x inc] eqn:Ei; [branch|]; intros [=]; subst; split; try lia; try done. apply prefix_take.
Qed.
Next Obligation.
  simpl. intros fd len k data k'. unfold give_bytes. branch; [done|].
  destruct (incoming _) as [|x inc] eqn:Ei; [branch|]; intros [=] Hlen; subst; [done|]. rewrite length_take in *. simpl in *. lia.
Qed.
Next Obligation. simpl. intros. destruct (decide (d = fd)) as [->|]; [right; by rewrite on_stream_eq|left; by apply on_stream_ne]. Qed.
Next Obligation. simpl. intros. destruct (decide (d = fd)) as [->|]; [right; by rewrite on_stream_eq|left; by apply on_stream_ne]. Qed.
Next Obligation. done. Qed.
Next Obligation. simpl. intros. by rewrite on_stream_eq. Qed.
Next Obligation. simpl. intros. by rewrite on_stream_eq. Qed.

End StreamHost.

Module examples.

Abbreviation W := (TcpSocket.world StreamHost.host unit (list socket_address) unit).

Definition silent (ev : tcp_event) (a : unit) : unit * prog := (a, PRet).
Definition echo (ev : tcp_event) (a : unit) : unit * prog :=
  match ev with
  | EvData b => (a, PWrite b (fun _ => PRet))
  | _ => (a, PRet)
  end.

Definition end_at (d : Z) (quota : list nat) : W :=
  mk_world (adopted_socket d no_address) new_loop (StreamHost.mk_host ∅ quota) tt no_history.
Definition start_with (quota : list nat) : link (K := StreamHost.host) :=
  mk_link (end_at 5 [4; 0; 20]%nat) (end_at 9 quota).
Definition start := start_with [2; 30; 30]%nat.

Definition readable_ := TcpSocket.examples.readable_.
Definition writable_ := TcpSocket.examples.writable_.

(** The left end writes, half-closes and reads; the right one echoes. *)
Definition script : list link_event :=
  [AtLeft (SCall (PWrite (str "hello world") (fun _ => PEnd PRet))); ToRight 3; AtRight (SIo readable_);
   AtLeft (SIo writable_); ToRight 20; FinToRight; ToLeft 2; AtLeft (SIo readable_); AtRight (SIo readable_);
   ToLeft 20; AtLeft (SIo readable_)].

Definition final := match link_run 5 9 id tt silent echo 10 5 script start with Done l => l | _ => start end.

Lemma link_streams_witness :
  link_run 5 9 id tt silent echo 10 5 script start = Done final /\
  EvEnd ∈ trace (hist (right final)) /\
  delivered (hist (right final)) = sent (hist (left final)) /\
  delivered (hist (right final)) = str "hello world" /\ delivered (hist (left final)) = str "hello world".
Proof.
  destruct (link_streams 5 9 id tt silent echo 10 5 script start) as [_ Hs].
  - by split_and!.
  - by split_and!.
  - by repeat constructor.
  - assert (link_run 5 9 id tt silent echo 10 5 script start = Done final) as E by by vm_compute.
    destruct (Hs final E) as (_ & _ & Hend & _).
    assert (EvEnd ∈ trace (hist (right final))) as Hin.
    { apply (list_elem_of_lookup_2 _ 2). by vm_compute. }
    split; [exact E|]. split; [exact Hin|]. split; [by apply Hend|]. split; vm_compute; reflexivity.
Defined.

(** The same run with a slower kernel at the right end.  Its socket closes as
    soon as it has read the FIN ([allowHalfOpen] is false), with the echo of
    the last bytes still buffered: they are accepted and never sent. *)
Theorem eof_discards_backlog :
  exists l, link_run 5 9 id tt silent echo 10 5 script (start_with [2; 30]%nat) = Done l /\
    state_ (sk (right l)) = closed /\ accepted (hist (right l)) = str "hello world" /\
    sent (hist (right l)) = str "hel" /\ backlog (sk (right l)) = str "lo world".
Proof. eexists. split; [by vm_compute|]. split_and!; by vm_compute. Qed.

End examples.
