(* ===== verification/TcpProgress.v ===== *)
(** * Delivery over a link

    [TcpLink] shows that nothing is lost or reordered between two connected
    sockets; here it is shown that everything arrives.  [LiveKernel] states
    what readiness means: a descriptor reported as writable takes at least one
    byte, and one with input gives some.  A [round] is what the network and
    the event loops do when nothing else happens: room is made in the left
    end's kernel, the left end is told that it can write, the network carries
    what is on its way, and the right end is told that it can read. *)

From S2P Require Import Prelude Poller EventLoop Net TcpSocket TcpSteps TcpLink.
#[local] Open Scope Z_scope.

Class LiveKernel (K : Type) `{StreamKernel K} := {
  can_send : Z -> K -> bool;
  room : Z -> K -> K;
  room_can_send fd k : can_send fd (room fd k) = true;
  room_stream fd k d : stream_of d (room fd k) = stream_of d k;
  send_ready fd b k :
    0 <= fd -> b <> [] -> fin_out (stream_of fd k) = false ->
    (exists n k', sys_send fd b k = (SysOk n, k') /\ 0 < n) \/
    (can_send fd k = false /\ exists k', sys_send fd b k = (SysErr 11, k'));
  recv_ready fd len k :
    0 <= fd -> (0 < len)%nat -> incoming (stream_of fd k) <> [] ->
    exists n data k', sys_recv fd len k = (SysOk n, data, k') /\ 0 < n;
  recv_blocks fd len k :
    0 <= fd -> incoming (stream_of fd k) = [] -> fin_in (stream_of fd k) = false ->
    exists data k', sys_recv fd len k = (SysErr 11, data, k')
}.

Section progress.
Context {K A D C : Type} `{KernelLaws K} `{!StreamKernel K} `{!LiveKernel K}.
Abbreviation world := (TcpSocket.world K A D C).
Abbreviation link := (TcpLink.link (K := K) (A := A) (D := D) (C := C)).
Implicit Types (w : world) (l : link).
Variables (dl dr : Z).
Variable connect_done : list socket_address -> D.
Variable io_cb : C.
Variables fuel depth : nat.

(** The applications keep quiet. *)
Definition quiet (ev : tcp_event) (a : A) : A * prog := (a, PRet).
Abbreviation listeners := (react connect_done quiet fuel (S depth)).

Lemma emit_quiet ev w : emit listeners ev w = Done (upd_hist (log_event ev) w).
Proof. by destruct w. Qed.

(** The connection is up at this end. *)
Definition up (d : Z) w : Prop := state_ (sk w) = open_ /\ desc_ (sk w) = d.

(** ** Writing *)

(** The state of a sender: it has called neither [end] nor [destroy]. *)
Definition sending (d : Z) w : Prop :=
  up d w /\ ended_ (sk w) = false /\ fin_out (stream_at d w) = false.

(** What a readiness report leaves: a shorter backlog, unless there was none or
    the kernel had no room. *)
Definition sent_some (d : Z) (n : nat) w w' : Prop :=
  sending d w' /\ accepted (hist w') = accepted (hist w) /\ (length (backlog (sk w')) <= n)%nat /\
  incoming (stream_at d w') = incoming (stream_at d w).

Lemma sent_stream d b k r k' :
  sys_send d b k = (r, k') ->
  fin_out (stream_of d k') = fin_out (stream_of d k) /\ incoming (stream_of d k') = incoming (stream_of d k).
Proof. intros E. pose proof (send_stream _ _ _ _ _ d E) as Hs. rewrite decide_True in Hs by done. by rewrite Hs. Qed.

Lemma pump_progress d n : forall w,
  0 <= d -> sending d w -> (length (backlog (sk w)) < n)%nat ->
  exists w', pump_output listeners n w = Done w' /\
    sent_some d (if can_send d (kn w) then pred (length (backlog (sk w))) else length (backlog (sk w))) w w'.
Proof.
  induction n as [|n IH]; intros w Hd Hs Hn; [lia|]. cbn [pump_output].
  pose proof Hs as ([Hst Hdesc] & Hend & Hfin). destruct (Nat.ltb_spec (out_offset_ (sk w)) (length (outbuf_ (sk w)))) as [Hlt|Hge].
  - rewrite slice_done by lia. cbn [exec_bind]. rewrite (take_ge (drop _ _)) by (rewrite length_drop; lia).
    fold (backlog (sk w)). assert (backlog (sk w) <> []) as Hne.
    { intros E. apply (f_equal length) in E. unfold backlog in E. rewrite length_drop in E. simpl in E. lia. }
    unfold Net.send. rewrite Hdesc. destruct (send_ready d (backlog (sk w)) (kn w) Hd Hne Hfin) as [(m & k & E & Hm)|(Hno & k & E)];
      rewrite E; cbn.
    + pose proof (send_bounded _ _ _ _ _ E) as Hb. destruct (Z.ltb_spec 0 m); [|lia]. set (w1 := upd_sk _ _).
      assert (length (backlog (sk w1)) = length (backlog (sk w)) - Z.to_nat m)%nat as Hlen.
      { unfold backlog. simpl. rewrite !length_drop. lia. }
      destruct (sent_stream _ _ _ _ _ E) as [Ef Ei].
      destruct (IH w1) as (w' & E' & Hs' & Ha & Hlen' & Hin); [done|split_and!; try done; unfold stream_at in *; simpl; congruence|lia|].
      exists w'. split; [done|]. split_and!; [done|done| |unfold stream_at in *; simpl in *; congruence].
      rewrite Hlen in Hlen'. destruct (can_send d (kn w)), (can_send d (kn w1)); lia.
    + eexists. split; [reflexivity|]. rewrite Hno. destruct (sent_stream _ _ _ _ _ E) as [Ef Ei].
      split_and!; try done. split_and!; try done. unfold stream_at in *. simpl. congruence.
  - eexists. split; [reflexivity|]. split_and!; try done. unfold backlog. simpl. lia.
Qed.

Lemma writable_progress d w :
  0 <= d -> sending d w -> (length (backlog (sk w)) < fuel)%nat -> can_send d (kn w) = true ->
  exists w', on_io listeners fuel (mk_ready false true false false) w = Done w' /\
    sent_some d (pred (length (backlog (sk w)))) w w'.
Proof.
  intros Hd Hs Hn Hcan. destruct (pump_progress d fuel w Hd Hs Hn) as (w1 & E1 & H1). rewrite Hcan in H1.
  pose proof Hs as ([Hst _] & _). unfold on_io. rewrite Hst. cbn [writable readable hangup]. unfold on_writable. rewrite E1. cbn [exec_bind].
  destruct (has_backlog (sk w1)); cbn [negb]; [eexists; split; [reflexivity|done]|].
  rewrite emit_quiet. cbn. pose proof H1 as ((_ & Hend & _) & _). rewrite Hend. cbn.
  eexists. split; [reflexivity|]. exact H1.
Qed.

(** ** Reading *)

Definition receiving (d : Z) w : Prop := up d w /\ fin_in (stream_at d w) = false.

Lemma drain_progress d n : forall w,
  0 <= d -> receiving d w -> (length (incoming (stream_at d w)) < n)%nat ->
  exists w', drain_input listeners n w = Done w' /\ receiving d w' /\ incoming (stream_at d w') = [].
Proof.
  induction n as [|n IH]; intros w Hd Hr Hn; [lia|]. cbn [drain_input]. pose proof Hr as ([Hst Hdesc] & Hfin).
  unfold Net.recv. rewrite Hdesc. destruct (decide (incoming (stream_at d w) = [])) as [He|Hne].
  - destruct (recv_blocks d recv_size (kn w) Hd He Hfin) as (data & k & E). rewrite E. cbn.
    pose proof (recv_stream _ _ _ _ _ _ d E) as Hk. rewrite decide_False in Hk by (by intros [_ ?]).
    eexists. split; [reflexivity|]. unfold receiving, stream_at in *. simpl. rewrite Hk. by split_and!.
  - destruct (recv_ready d recv_size (kn w) Hd ltac:(unfold recv_size; lia) Hne) as (m & data & k & E & Hm). rewrite E. cbn -[emit].
    pose proof (recv_bounded _ _ _ _ _ _ E) as [Hlen _]. destruct (Z.ltb_spec 0 m); [|lia]. rewrite emit_quiet. cbn [exec_bind].
    pose proof (recv_stream _ _ _ _ _ _ d E) as Hk. rewrite decide_True in Hk by done.
    apply IH; [done| |]; unfold receiving, stream_at in *; simpl; rewrite Hk; simpl; [done|].
    destruct (recv_prefix _ _ _ _ _ _ E) as [_ [t Et]]. rewrite Et, drop_app_length in *. rewrite length_app in Hn. lia.
Qed.

Lemma readable_progress d w :
  0 <= d -> receiving d w -> (length (incoming (stream_at d w)) < fuel)%nat ->
  exists w', on_io listeners fuel (mk_ready true false false false) w = Done w' /\ receiving d w' /\ incoming (stream_at d w') = [].
Proof.
  intros Hd Hr Hn. unfold on_io. pose proof Hr as ([Hst _] & _). rewrite Hst. cbn [writable readable hangup orb exec_bind]. by apply drain_progress.
Qed.

(** ** Rounds *)

Definition make_room l : link := mk_link (set_kn (room dl (kn (left l))) (left l)) (right l).

Abbreviation quiet_step := (link_step dl dr connect_done io_cb quiet quiet fuel (S depth)).

Definition round l : exec link :=
  let l := make_room l in
  do l := quiet_step (AtLeft (SIo (mk_ready false true false false))) l in
  do l := quiet_step (ToRight (length (outgoing (stream_at dl (left l))))) l in
  quiet_step (AtRight (SIo (mk_ready true false false false))) l.

Fixpoint rounds (n : nat) l : exec link :=
  match n with
  | O => Done l
  | S n' => do l := round l in rounds n' l
  end.

(** The left end sends, the right one receives, and the fuel is enough for all
    that [write] took. *)
Definition live l : Prop :=
  link_ok dl dr l /\ sending dl (left l) /\ up dr (right l) /\ (length (accepted (hist (left l))) < fuel)%nat.

(** Nothing is waiting but what the left end still buffers. *)
Definition settled l : Prop :=
  incoming (stream_at dr (right l)) = [] /\ in_flight (stream_at dl (left l)) (stream_at dr (right l)) = [].

Lemma live_lengths l :
  live l ->
  (length (incoming (stream_at dr (right l))) + length (in_flight (stream_at dl (left l)) (stream_at dr (right l))) +
   length (backlog (sk (left l))) < fuel)%nat.
Proof.
  intros ((_ & _ & HL & HR & Hlr & _) & _ & _ & Hfuel). destruct (flow_bytes _ _ _ _ HL HR Hlr) as [E _].
  rewrite E, !length_app in Hfuel. lia.
Qed.

Lemma make_room_live l : live l -> live (make_room l) /\ can_send dl (kn (left (make_room l))) = true.
Proof.
  intros ((Hl & Hr & HL & HR & Hlr & Hrl) & (Hup & Hend & Hfin) & Hright & Hfuel).
  assert (stream_at dl (left (make_room l)) = stream_at dl (left l)) as E by apply room_stream.
  split; [|apply room_can_send]. unfold live, link_ok, sending, end_ok in *. rewrite E. destruct_and!. by split_and!.
Qed.

Lemma left_step l :
  live l -> can_send dl (kn (left l)) = true ->
  exists l', quiet_step (AtLeft (SIo (mk_ready false true false false))) l = Done l' /\ live l' /\
    (length (backlog (sk (left l'))) <= pred (length (backlog (sk (left l)))))%nat /\
    accepted (hist (left l')) = accepted (hist (left l)).
Proof.
  intros Hlive Hcan. pose proof (live_lengths l Hlive) as Hlen. destruct Hlive as (Hok & Hs & Hright & Hfuel).
  pose proof Hok as (Hl & _).
  destruct (writable_progress dl (left l) Hl Hs ltac:(lia) Hcan) as (w & E & Hs' & Ha & Hb & _).
  pose proof (link_step_ok dl dr connect_done io_cb quiet quiet fuel (S depth) (AtLeft (SIo (mk_ready false true false false))) l eq_refl Hok) as Hp.
  cbn [link_step stimulate] in *. rewrite E in *. eexists. split; [reflexivity|]. split_and!; [|done|done]. split_and!; try done.
  simpl. by rewrite Ha.
Qed.

Lemma carried_all a b : flow a b -> in_flight a (came_in (in_flight a b) b) = [].
Proof.
  intros Hf. assert (received (came_in (in_flight a b) b) = outgoing a) as E.
  { rewrite (flow_split a b Hf). unfold received. simpl. by rewrite app_assoc. }
  unfold in_flight at 1. rewrite E. apply drop_all.
Qed.

Lemma carry_step l :
  live l -> let l' := mk_link (left l) (carry (length (outgoing (stream_at dl (left l)))) (stream_at dl (left l)) dr (right l)) in
  live l' /\ in_flight (stream_at dl (left l')) (stream_at dr (right l')) = [].
Proof.
  intros (Hok & Hs & Hright & Hfuel) l'. split.
  - split_and!; try done. exact (link_step_ok dl dr connect_done io_cb quiet quiet fuel (S depth) (ToRight _) l eq_refl Hok).
  - destruct Hok as (_ & _ & _ & _ & Hlr & _). subst l'. simpl. unfold stream_at, carry in *. simpl. rewrite arrive_stream.
    rewrite take_ge by (unfold in_flight; rewrite length_drop; lia). by apply carried_all.
Qed.

Lemma right_step l :
  live l -> in_flight (stream_at dl (left l)) (stream_at dr (right l)) = [] ->
  exists l', quiet_step (AtRight (SIo (mk_ready true false false false))) l = Done l' /\ live l' /\ settled l' /\ left l' = left l.
Proof.
  intros Hlive Hfl. pose proof (live_lengths l Hlive) as Hlen. destruct Hlive as (Hok & Hs & Hright & Hfuel).
  pose proof Hok as (_ & Hr & _ & _ & Hlr & _).
  assert (fin_in (stream_at dr (right l)) = false) as Hfin.
  { destruct (fin_in (stream_at dr (right l))) eqn:E; [|done]. destruct Hlr as [_ Hf]. destruct (Hf E) as [_ Ho].
    destruct Hs as (_ & _ & Hno). congruence. }
  destruct (readable_progress dr (right l) Hr (conj Hright Hfin) ltac:(lia)) as (w & E & [Hup _] & Hin).
  pose proof (stimulate_end connect_done io_cb fuel quiet (S depth) (SIo (mk_ready true false false false)) dr (right l) Hr eq_refl) as Hadv.
  pose proof (link_step_ok dl dr connect_done io_cb quiet quiet fuel (S depth) (AtRight (SIo (mk_ready true false false false))) l eq_refl Hok) as Hp.
  cbn [link_step stimulate] in *. rewrite E in *. eexists. split; [reflexivity|]. split; [by split_and!|]. split; [|done].
  split; [done|]. simpl. destruct Hok as (_ & _ & _ & HR & _). destruct (Hadv HR) as [_ (_ & _ & Hrec & _)].
  unfold in_flight. rewrite Hrec. exact Hfl.
Qed.

Lemma round_progress l :
  live l -> exists l', round l = Done l' /\ live l' /\ settled l' /\
    (length (backlog (sk (left l'))) <= pred (length (backlog (sk (left l)))))%nat /\
    accepted (hist (left l')) = accepted (hist (left l)).
Proof.
  intros Hlive. destruct (make_room_live l Hlive) as [Hlive0 Hcan].
  destruct (left_step _ Hlive0 Hcan) as (l1 & E1 & Hlive1 & Hb & Ha).
  destruct (carry_step l1 Hlive1) as [Hlive2 Hfl]. destruct (right_step _ Hlive2 Hfl) as (l3 & E3 & Hlive3 & Hset & El).
  exists l3. unfold round. cbv zeta. rewrite E1. cbn [exec_bind]. split; [exact E3|]. rewrite El. by split_and!.
Qed.

Lemma rounds_progress n : forall l,
  live l -> (length (backlog (sk (left l))) < n)%nat ->
  exists l', rounds n l = Done l' /\ live l' /\ settled l' /\ backlog (sk (left l')) = [] /\
    accepted (hist (left l')) = accepted (hist (left l)).
Proof.
  induction n as [|n IH]; intros l Hlive Hn; [lia|]. cbn [rounds].
  destruct (round_progress l Hlive) as (l1 & -> & Hlive1 & Hset & Hb & Ha). cbn [exec_bind].
  destruct (decide (length (backlog (sk (left l1))) < n)%nat) as [Hlt|Hge].
  - destruct (IH l1 Hlive1 Hlt) as (l' & E & ? & ? & ? & Ha'). exists l'. split_and!; try done. congruence.
  - assert (n = 0%nat) as -> by lia. exists l1. split; [done|]. split_and!; try done. apply length_zero_iff_nil. lia.
Qed.

(** C5. What is written arrives.  Take two connected sockets after any run of
    their applications, loops and the network, with both ends open and no
    [end] called at the left one.  If from then on the applications keep quiet
    and each end is told of the readiness its kernel reports, then after at
    most one more round than there are buffered bytes, each of which returns,
    the data listeners of the right end have been given exactly the bytes the
    left end's [write] took. *)
Theorem link_delivers app_left app_right fuel0 depth0 es l0 l n :
  fresh_end dl (left l0) -> fresh_end dr (right l0) -> Forall (fun e => established_event e = true) es ->
  link_run dl dr connect_done io_cb app_left app_right fuel0 depth0 es l0 = Done l ->
  sending dl (left l) -> up dr (right l) ->
  (length (accepted (hist (left l))) < fuel)%nat -> (length (backlog (sk (left l))) < n)%nat ->
  exists l', rounds n l = Done l' /\
    delivered (hist (right l')) = accepted (hist (left l')) /\ accepted (hist (left l')) = accepted (hist (left l)).
Proof.
  intros Hfl Hfr Hes Erun Hs Hup Hfuel Hn. assert (link_ok dl dr l) as Hok.
  { eapply post_done; [|exact Erun]. apply link_run_ok; [done|]. by apply fresh_link_ok. }
  destruct (rounds_progress n l) as (l' & E & ((_ & _ & HL & HR & Hlr & _) & _) & [Hin Hfl'] & Hb & Ha); [by split_and!|done|].
  exists l'. split; [done|]. split; [|done]. destruct (flow_bytes _ _ _ _ HL HR Hlr) as [Ebytes _].
  by rewrite Ebytes, Hin, Hfl', Hb, !app_nil_r.
Qed.
End progress.

(** ** The concrete kernel of [TcpLink]

    It has room when its next quota is positive; a round makes room for four
    bytes. *)
Import StreamHost.

#[export] Instance host_live : LiveKernel host.
Proof.
  refine {|
    can_send _ k := match quota k with S _ :: _ => true | _ => false end;
    room _ k := mk_host (streams k) (4%nat :: quota k)
  |}; simpl; try done.
  - intros fd b k Hfd Hb Hfin. unfold take_bytes. rewrite (proj2 (Z.ltb_ge fd 0) Hfd), Hfin.
    destruct (quota k) as [|[|m] q]; [right; eauto|right; eauto|left]. eexists _, _. split; [reflexivity|].
    destruct b; [done|]. simpl. lia.
  - intros fd len k Hfd Hlen Hin. unfold give_bytes. rewrite (proj2 (Z.ltb_ge fd 0) Hfd).
    destruct (incoming (stream_at_fd fd k)) as [|x inc]; [done|]. eexists _, _, _. split; [reflexivity|].
    destruct len; [lia|]. simpl. lia.
  - intros fd len k Hfd Hin Hfin. unfold give_bytes. rewrite (proj2 (Z.ltb_ge fd 0) Hfd), Hin, Hfin. eauto.
Defined.

Module examples.
Import TcpLink.examples.

(** The left end writes; the kernel takes four bytes and then blocks. *)
Definition stalled_script : list link_event := [AtLeft (SCall (PWrite (str "hello world") (fun _ => PRet)))].
Definition stalled := match link_run 5 9 id tt silent silent 10 5 stalled_script start with Done l => l | _ => start end.

Lemma link_delivers_witness :
  backlog (sk (left stalled)) = str "o world" /\
  exists l', rounds 5 9 id tt 20 3 8 stalled = Done l' /\
    delivered (hist (right l')) = accepted (hist (left l')) /\ accepted (hist (left l')) = accepted (hist (left stalled)).
Proof.
  split; [by vm_compute|].
  apply (link_delivers 5 9 id tt 20 3 silent silent 10 5 stalled_script start stalled 8).
  - by split_and!.
  - by split_and!.
  - by repeat constructor.
  - by vm_compute.
  - by vm_compute.
  - by vm_compute.
  - vm_compute. lia.
  - vm_compute. lia.
Defined.

End examples.
