(* ===== verification/Echo.v ===== *)
(** * Applications that only write, and echoing over a link

    Most listeners of the programs in examples/ and benchmarks/ do nothing to
    a connection but write to it.  [Writer] says what such an application
    writes as a function of its state and of the bytes it was given; the
    section shows that [write] then took exactly this, in order, as long as
    the socket is open, whatever the kernel does.  An application that echoes
    is one instance, and over a link ([TcpLink]) its peer gets back what it
    wrote. *)

From S2P Require Import Prelude Poller EventLoop Net TcpSocket TcpSteps TcpLink.
#[local] Open Scope Z_scope.

(** The program that writes some chunks one after the other. *)
Fixpoint writes (chunks : list bytes) : prog :=
  match chunks with
  | [] => PRet
  | chunk :: rest => PWrite chunk (fun _ => writes rest)
  end.

(** Events that can come while the application is writing. *)
Definition nested_event (ev : tcp_event) : bool := match ev with EvError _ | EvClose => true | _ => false end.

(** [wants a d]: everything the application has ever written, when its state is
    [a] and it was given the bytes [d]; [inv] is its own invariant.  The socket
    is established, and [data] comes in pieces of what one recv(2) returns. *)
Class Writer {A} (app : tcp_event -> A -> A * prog) (wants : A -> bytes -> bytes) (inv : A -> bytes -> Prop) : Prop :=
  writer_step ev a d :
    inv a d -> ev <> EvConnect -> (length (data_bytes ev) <= recv_size)%nat ->
    exists chunks, (app ev a).2 = writes chunks /\ (nested_event ev = true -> chunks = []) /\
      wants (app ev a).1 (d ++ data_bytes ev) = wants a d ++ concat chunks /\
      inv (app ev a).1 (d ++ data_bytes ev).

Section writer.
Context {K A D C : Type} `{KernelLaws K}.
Context (app : tcp_event -> A -> A * prog) (wants : A -> bytes -> bytes) (inv : A -> bytes -> Prop) `{!Writer app wants inv}.
Abbreviation world := (world K A D C).
Implicit Types w : world.
Variable io_cb : C.
Variable connect_done : list socket_address -> D.
Variable fuel : nat.

(** While the socket is open, [write] has taken everything but [rest], which the
    running listener has not written yet; in any case it took nothing else. *)
Definition owes (rest : bytes) w : Prop :=
  out_ok w /\ delivered (hist w) = arrived (hist w) /\ state_ (sk w) <> connecting /\ inv (env w) (delivered (hist w)) /\
  (state_ (sk w) = open_ -> accepted (hist w) ++ rest = wants (env w) (delivered (hist w))) /\
  accepted (hist w) `prefix_of` wants (env w) (delivered (hist w)).

Definition written w : Prop := owes [] w.

Lemma owes_same rest w w' :
  (out_ok w -> out_ok w') -> arrived (hist w') = arrived (hist w) ->
  state_ (sk w') = state_ (sk w) \/ state_ (sk w') = closed ->
  accepted (hist w') = accepted (hist w) -> delivered (hist w') = delivered (hist w) -> env w' = env w ->
  owes rest w -> owes rest w'.
Proof.
  intros Hout Harr Hst Ha Hd He (Ho & Hda & Hnc & Hi & Hw & Hp). unfold owes. rewrite Ha, Hd, He.
  split_and!; [auto|congruence|destruct Hst; congruence|done| |done]. intros Hopen. apply Hw. destruct Hst; congruence.
Qed.

(** Writing the next chunk pays for it. *)
Lemma owes_appended chunk rest w : state_ (sk w) = open_ -> owes (chunk ++ rest) w -> owes rest (appended chunk w).
Proof.
  intros Hst (Ho & Hda & Hnc & Hi & Hw & Hp). specialize (Hw Hst). split_and!; [by apply appended_out|done|done|done|..]; simpl.
  - intros _. by rewrite <- app_assoc.
  - exists rest. rewrite <- app_assoc. exact (eq_sym Hw).
Qed.

Lemma owes_closed rest rest' w : state_ (sk w) <> open_ -> owes rest w -> owes rest' w.
Proof. intros Hst (Ho & Hda & Hnc & Hi & Hw & Hp). by split_and!. Qed.

#[local] Instance owes_quiet rest : QuietSteps (owes rest).
Proof.
  split.
  - by intros w (_ & _ & ? & _).
  - intros i w. by apply owes_same; [..|by left| | |].
  - intros n k w Hw _ Hn. revert Hw. apply owes_same; [|done|by left|done|done|done]. intros Ho. by apply advanced_ok.
  - intros r k w Hw _ _. revert Hw. by apply owes_same; [..|by left| | |].
  - intros w Hw Hb. revert Hw. apply owes_same; [|done|by left|done|done|done]. intros Ho. by apply emptied_out.
  - intros w. by apply owes_same; [..|by left| | |].
  - intros w. apply owes_same; [|done|by left|done|done|done].
    intros [Ho Hs]. split; [done|]. simpl. by rewrite sent_snoc, app_nil_r.
  - intros w Hw _. revert Hw. by apply owes_same; [..|by right| | |].
  - intros r data k w Hw _ _. revert Hw. by apply owes_same; [..|by left| | |].
Qed.

Section listeners.
Variable listeners : tcp_event -> world -> exec world.
Hypothesis listeners_nested : forall rest, Failures (owes rest) listeners.

Lemma writes_pay chunks : forall w, owes (concat chunks) w -> post (run_prog connect_done listeners fuel (writes chunks) w) written.
Proof.
  induction chunks as [|chunk rest IH]; intros w Hw; [done|]. simpl.
  eapply (post_bind _ _ (fun r => owes (concat rest) r.2)); [|intros [b w1]; apply IH].
  apply (write_preserves (owes (concat rest))); [done|intros; by apply owes_appended|intros; by eapply owes_closed].
Qed.

End listeners.

(** An event was emitted and the application has not been called yet; it was
    given the bytes [d] before. *)
Definition heard (ev : tcp_event) (d rest : bytes) w : Prop :=
  out_ok w /\ delivered (hist w) = d ++ data_bytes ev /\ delivered (hist w) = arrived (hist w) /\ state_ (sk w) <> connecting /\
  inv (env w) d /\ (state_ (sk w) = open_ -> accepted (hist w) ++ rest = wants (env w) d) /\
  accepted (hist w) `prefix_of` wants (env w) d.

Lemma owes_heard ev rest w : data_bytes ev = [] -> owes rest w -> heard ev (delivered (hist w)) rest (upd_hist (log_event ev) w).
Proof.
  intros Hev (Ho & Hda & Hnc & Hi & Hw & Hp). unfold heard. simpl. rewrite delivered_snoc, Hev, app_nil_r. by split_and!.
Qed.

Lemma react_heard depth ev d rest w :
  rest = [] \/ nested_event ev = true -> ev <> EvConnect -> (length (data_bytes ev) <= recv_size)%nat ->
  (forall rest, Failures (owes rest) (react connect_done app fuel depth)) ->
  heard ev d rest w -> post (react connect_done app fuel (S depth) ev w) (owes rest).
Proof.
  intros Hrest Hcon Hlen IH (Ho & Hd & Hda & Hnc & Hi & Hw & Hp). simpl.
  destruct (writer_step (app := app) (wants := wants) ev (env w) d Hi Hcon Hlen) as (chunks & Ec & Hnest & Hwant & Hinv).
  destruct (app ev (env w)) as [a p]. simpl in *. subst p. rewrite <- Hd in Hwant, Hinv.
  destruct Hrest as [->|Hev]; [apply writes_pay; [done|]|rewrite (Hnest Hev) in *; simpl in *; rewrite app_nil_r in Hwant].
  - split_and!; [done|done|done|done|..]; simpl; rewrite Hwant.
    + intros Hst. rewrite <- (Hw Hst), app_nil_r. done.
    + by apply prefix_app_r.
  - split_and!; [done|done|done|done|..]; simpl; by rewrite Hwant.
Qed.

Lemma owes_failures depth : forall rest, Failures (owes rest) (react connect_done app fuel depth).
Proof.
  induction depth as [|depth IH]; intros rest; (split; [apply _|..]); try done.
  - intros m w Hw. eapply react_heard; [by right|done|simpl; lia|done|]. by apply owes_heard.
  - intros w Hw _. eapply react_heard; [by right|done|simpl; lia|done|]. apply owes_heard; [done|]. revert Hw. by apply owes_same; [..|by right| | |].
Qed.

#[local] Instance written_steps depth : Steps written (react connect_done app fuel depth).
Proof.
  split; [apply owes_failures|..]; (destruct depth as [|depth]; [done|]).
  - intros w Hw. eapply react_heard; [by left|done|simpl; lia|apply owes_failures|]. by apply owes_heard.
  - intros data k w Hw _. eapply react_heard; [by left|done|simpl; lia|apply owes_failures|]. apply owes_heard; [done|].
    revert Hw. by apply owes_same; [..|by left| | |].
  - intros n data k w (Ho & Hda & Hnc & Hi & Hw & Hp) Er _. apply recv_bounded in Er as [_ Hlen].
    eapply react_heard; [by left|done|done|apply owes_failures|].
    split_and!; try done; simpl; rewrite delivered_snoc; simpl; [done|]. unfold delivered in *. simpl. congruence.
Qed.

(** What happens to the connection: readiness, and calls that neither write
    nor connect. *)
Definition io_only (x : stimulus) : bool :=
  match x with
  | SIo _ | SCall PRet | SCall (PEnd PRet) | SCall (PDestroy PRet) => true
  | _ => false
  end.

Lemma stimulate_written depth x w :
  io_only x = true -> written w -> post (stimulate connect_done app fuel io_cb depth x w) written.
Proof.
  intros Hx Hw. destruct x as [r|p|]; simpl; [by apply (on_io_preserves written _)| |done].
  destruct p as [| |[]|[]| |]; try done; simpl.
  - by apply (end_preserves written (react connect_done app fuel depth)).
  - eapply post_bind; [by apply (close_with_preserves written _)|]. by intros.
Qed.

Lemma run_written depth xs : forall w,
  Forall (fun x => io_only x = true) xs -> written w ->
  post (stimulate_all connect_done app fuel io_cb depth xs w) written.
Proof.
  induction xs as [|x xs IH]; intros w HP Hw; [done|]. apply Forall_cons in HP as [Hx HP]. simpl.
  eapply post_bind; [by apply stimulate_written|]. intros w1 Hw1. by apply IH.
Qed.

End writer.

(** ** Echoing *)

Lemma echoing_writer {A} (app : tcp_event -> A -> A * prog) :
  (forall ev a, (app ev a).2 = match ev with EvData chunk => PWrite chunk (fun _ => PRet) | _ => PRet end) ->
  Writer app (fun _ d => d) (fun _ _ => True).
Proof.
  intros Happ ev a d _ _ _. exists (match ev with EvData chunk => [chunk] | _ => [] end).
  split_and!; [by destruct ev|by destruct ev| |done]. by destruct ev; simpl; rewrite ?app_nil_r.
Qed.

(** ** A peer of an echoing end *)

Section link.
Context {K A D C : Type} `{KernelLaws K} `{!StreamKernel K}.
Variables (dl dr : Z).
Variable connect_done : list socket_address -> D.
Variable io_cb : C.
Variables (app_left app_right : tcp_event -> A -> A * prog).
Hypothesis right_echoes :
  forall ev a, (app_right ev a).2 = match ev with EvData chunk => PWrite chunk (fun _ => PRet) | _ => PRet end.
Variable fuel : nat.
Abbreviation link := (link (K := K) (A := A) (D := D) (C := C)).
Implicit Types l : link.

Definition echo_event (e : link_event) : bool :=
  match e with
  | AtRight s => io_only s
  | _ => established_event e
  end.

Lemma echo_event_established e : echo_event e = true -> established_event e = true.
Proof. destruct e as [s|s| | | |]; try done. by destruct s as [|[]|]. Qed.

Definition echo_link_ok l : Prop :=
  link_ok dl dr l /\ written (fun _ d => d) (fun _ _ => True) (right l).

Lemma written_kn (w : world K A D C) k : written (fun _ d => d) (fun _ _ => True) w -> written (fun _ d => d) (fun _ _ => True) (set_kn k w).
Proof. by apply owes_same; [..|by left| | |]. Qed.

Lemma echo_link_step depth e l :
  echo_event e = true -> echo_link_ok l ->
  post (link_step dl dr connect_done io_cb app_left app_right fuel depth e l) echo_link_ok.
Proof.
  intros He [Hl Hw]. pose proof (echoing_writer _ right_echoes) as Hwriter.
  pose proof (link_step_ok dl dr connect_done io_cb app_left app_right fuel depth e l (echo_event_established e He) Hl) as Hok.
  destruct e as [s|s|n|n| |]; simpl in *.
  - destruct (stimulate _ _ _ _ _ _ _); [|done|done]. by split.
  - pose proof (stimulate_written app_right _ _ io_cb connect_done fuel depth s _ He Hw) as Hs.
    destruct (stimulate _ _ _ _ _ _ _); [|done|done]. by split.
  - split; [done|by apply written_kn].
  - by split.
  - split; [done|]. simpl. unfold carry_fin. destruct (_ && _); [by apply (written_kn (right l))|done].
  - by split.
Qed.

Lemma echo_link_run depth es : forall l,
  Forall (fun e => echo_event e = true) es -> echo_link_ok l ->
  post (link_run dl dr connect_done io_cb app_left app_right fuel depth es l) echo_link_ok.
Proof.
  induction es as [|e es IH]; intros l Hes Hl; [done|]. simpl. apply Forall_cons in Hes as [He Hes].
  eapply post_bind; [by apply echo_link_step|]. intros l' Hl'. by apply IH.
Qed.

(** What the left end is given is what it wrote, and what [write] took there is,
    in order, what came back, what is on the way back, and what has not
    reached the right end's application. *)
Lemma echo_link_bytes l :
  echo_link_ok l -> delivered (hist (left l)) `prefix_of` accepted (hist (left l)).
Proof.
  intros [(_ & _ & HL & HR & Hlr & Hrl) (_ & _ & _ & _ & _ & Hp)].
  destruct (flow_bytes _ _ _ _ HL HR Hlr) as [El _]. destruct (flow_bytes _ _ _ _ HR HL Hrl) as [Er _].
  rewrite El. apply prefix_app_r. etrans; [|exact Hp]. rewrite Er. by apply prefix_app_r.
Qed.

(** *** A left end that only writes, too *)

Context (wants : A -> bytes -> bytes) (inv : A -> bytes -> Prop) `{!Writer app_left wants inv}.

Definition pair_ok l : Prop := echo_link_ok l /\ written wants inv (left l).

Definition pair_event (e : link_event) : bool :=
  match e with
  | AtLeft s | AtRight s => io_only s
  | _ => true
  end.

Lemma pair_step depth e l :
  pair_event e = true -> pair_ok l -> post (link_step dl dr connect_done io_cb app_left app_right fuel depth e l) pair_ok.
Proof.
  intros He [Hl Hw].
  assert (echo_event e = true) as Hecho. { destruct e as [s|s| | | |]; try done. by destruct s as [|[]|]. }
  pose proof (echo_link_step depth e l Hecho Hl) as Hp. destruct e as [s|s|n|n| |]; simpl in *.
  - pose proof (stimulate_written app_left wants inv io_cb connect_done fuel depth s _ He Hw) as Hs.
    destruct (stimulate _ _ _ _ _ _ _); [|done|done]. by split.
  - destruct (stimulate _ _ _ _ _ _ _); [|done|done]. by split.
  - by split.
  - split; [done|]. revert Hw. by apply owes_same; [..|by left| | |].
  - by split.
  - split; [done|]. simpl. unfold carry_fin. destruct (_ && _); [|done]. revert Hw. by apply owes_same; [..|by left| | |].
Qed.

(** The first thing that happens on a fresh connection is that the left end
    writes [chunks]. *)
Lemma pair_start depth chunks l :
  fresh_end dl (left l) -> fresh_end dr (right l) -> inv (env (left l)) [] -> wants (env (left l)) [] = concat chunks ->
  post (link_step dl dr connect_done io_cb app_left app_right fuel depth (AtLeft (SCall (writes chunks))) l) pair_ok.
Proof.
  intros Hl Hr Hinv Hwants. assert (echo_link_ok l) as Hl0.
  { pose proof Hr as (? & _ & Est & Eb & Eo & Ea & Ew & Er & Et & E2). pose proof Hl as (? & _ & _ & _ & _ & _ & _ & _ & _ & E1).
    pose proof (fresh_end_ok _ _ Hl). pose proof (fresh_end_ok _ _ Hr) as Hrok. split.
    - split_and!; try done; simpl; unfold stream_at in *; simpl; rewrite E1, E2; by split.
    - destruct Hrok as (_ & ? & ? & ? & _). split_and!; try done; simpl; unfold delivered; rewrite Ea, Et; done. }
  assert (owes wants inv (concat chunks) (left l)) as Howes.
  { pose proof (fresh_end_ok _ _ Hl) as (_ & ? & ? & ? & _). destruct Hl as (_ & _ & _ & _ & _ & Ea & _ & _ & Et & _).
    assert (delivered (hist (left l)) = []) as Ed by (unfold delivered; by rewrite Et).
    split_and!; [done|done|done|..]; simpl; rewrite ?Ea, Ed; [done|by rewrite Hwants|apply prefix_nil]. }
  pose proof (echo_link_step depth (AtLeft (SCall (writes chunks))) l eq_refl Hl0) as Hp.
  simpl in *. pose proof (writes_pay wants inv connect_done fuel _ (owes_failures app_left wants inv connect_done fuel depth) chunks (left l) Howes) as Hw.
  destruct (run_prog _ _ _ _ _); [|done|done]. by split.
Qed.

(** What comes back is what the left end means to write. *)
Lemma pair_bytes l : pair_ok l -> delivered (hist (left l)) `prefix_of` wants (env (left l)) (delivered (hist (left l))).
Proof. intros [Hl (_ & _ & _ & _ & _ & Hp)]. etrans; [by apply echo_link_bytes|exact Hp]. Qed.

End link.
