(* ===== verification/TcpServer.v ===== *)
(** * [protocol::tcp::server]

    The listening socket of protocol/tcp/server.hpp: [listen], the accept
    loop, [close] and the list that keeps accepted connections alive.
    Accepted connections are numbered in order; [socks] is the sockets created
    so far, each as the adopting constructor of [tcp::socket] makes it. *)

From S2P Require Import Prelude Poller EventLoop Net.
From S2P Require TcpSocket.
#[local] Open Scope Z_scope.

Record server := mk_server { fd_ : Z; bound_ : socket_address; conns_ : list nat }.

Definition new_server : server := mk_server invalid_handle no_address [].

Inductive server_event :=
  | SListening
  | SConnection (conn : nat)
  | SError (m : bytes)
  | SClose.

Record world (K A D C : Type) := mk_world {
  srv : server;
  socks : list TcpSocket.socket;
  lp : loop D C;
  kn : K;
  env : A;
  trace : list server_event
}.
Arguments mk_world {K A D C}.
Arguments srv {K A D C}.
Arguments socks {K A D C}.
Arguments lp {K A D C}.
Arguments kn {K A D C}.
Arguments env {K A D C}.
Arguments trace {K A D C}.

Section server.
Context {K A D C : Type} `{Kernel K}.
Abbreviation world := (world K A D C).
Implicit Types w : world.

(** The loop closures: the server's, and that of each connection. *)
Variable accept_cb : C.
Variable conn_cb : nat -> C.
Variable listeners : server_event -> world -> exec world.

Definition set_srv (s : server) w : world := mk_world s (socks w) (lp w) (kn w) (env w) (trace w).
Definition set_lp (l : loop D C) w : world := mk_world (srv w) (socks w) l (kn w) (env w) (trace w).
Definition set_kn (k : K) w : world := mk_world (srv w) (socks w) (lp w) k (env w) (trace w).
Definition set_env (a : A) w : world := mk_world (srv w) (socks w) (lp w) (kn w) a (trace w).

Definition emit (ev : server_event) w : exec world :=
  listeners ev (mk_world (srv w) (socks w) (lp w) (kn w) (env w) (trace w ++ [ev])).

(** An early return of [listen] after the descriptor was opened: the error is
    emitted, then the local [fd] is destroyed. *)
Definition give_up_on (fd : Z) (message : bytes) w : exec world :=
  do w := emit (SError message) w in
  Done (set_kn (Net.close fd (kn w)).2 w).

Definition listen (port : Z) (host : bytes) w : exec world :=
  let '(addr, k) := resolve_one host port false (kn w) in
  let w := set_kn k w in
  match addr with
  | None => emit (SError (str "EADDRNOTAVAIL: could not resolve " ++ host)) w
  | Some addr =>
      let '(fd, e, k) := Net.open (if is_inet6 addr then inet6 else inet) stream (kn w) in
      let w := set_kn k w in
      if negb (e =? errc_ok) then emit (SError (describe (K := K) e (str "socket"))) w
      else
        let '(_, k) := set_reuse_addr fd (kn w) in
        let w := set_kn k w in
        let '(e, k) := Net.bind fd addr (kn w) in
        let w := set_kn k w in
        if negb (e =? errc_ok) then give_up_on fd (describe (K := K) e (str "bind")) w
        else
          let '(e, k) := Net.listen fd 1024 (kn w) in
          let w := set_kn k w in
          if negb (e =? errc_ok) then give_up_on fd (describe (K := K) e (str "listen")) w
          else
            let '(e, k) := set_nonblocking fd (kn w) in
            let w := set_kn k w in
            if negb (e =? errc_ok) then give_up_on fd (describe (K := K) e (str "listen")) w
            else
              let '(b, k) := local_endpoint fd (kn w) in
              let '(d, k) := move_assign (fd_ (srv w)) fd k in
              let w := set_kn k (set_srv (mk_server d b (conns_ (srv w))) w) in
              let w := set_lp (watch (lp w) (fd_ (srv w)) interest.read accept_cb) w in
              emit SListening w
  end.

Definition close w : exec world :=
  if negb (valid (fd_ (srv w))) then Done w
  else
    let w := set_lp (unwatch (lp w) (fd_ (srv w))) w in
    let '(d, k) := Net.close (fd_ (srv w)) (kn w) in
    emit SClose (set_kn k (set_srv (mk_server d (bound_ (srv w)) (conns_ (srv w))) w)).

Definition address w : socket_address := bound_ (srv w).

(** One accepted connection: construct, [begin_reading], [push_back]. *)
Definition adopt (handle : Z) (peer : socket_address) w : nat * world :=
  let conn := length (socks w) in
  let w := mk_world (srv w) (socks w ++ [TcpSocket.adopted_socket handle peer]) (lp w) (kn w) (env w) (trace w) in
  let w := set_lp (watch (lp w) handle interest.read (conn_cb conn)) w in
  (conn, set_srv (mk_server (fd_ (srv w)) (bound_ (srv w)) (conns_ (srv w) ++ [conn])) w).

(** The [while (true)] of [accept_ready]. *)
Fixpoint accept_ready (fuel : nat) w : exec world :=
  match fuel with
  | O => OutOfFuel
  | S fuel' =>
      let '(handle, peer, error, k) := Net.accept (fd_ (srv w)) (kn w) in
      let w := set_kn k w in
      if negb (error =? errc_ok) then
        if would_block error then Done w
        else if error =? EINTR then accept_ready fuel' w
        else emit (SError (describe (K := K) error (str "accept"))) w
      else
        let '(nb, k) := set_nonblocking handle (kn w) in
        let w := set_kn k w in
        if negb (nb =? errc_ok) then accept_ready fuel' (set_kn (Net.close handle (kn w)).2 w)
        else
          let '(conn, w) := adopt handle peer w in
          do w := emit (SConnection conn) w in
          accept_ready fuel' w
  end.

(** [drop], called when a connection emits [close]: [std::erase]. *)
Definition drop_ (conn : nat) w : world :=
  set_srv (mk_server (fd_ (srv w)) (bound_ (srv w)) (filter (fun c => c <> conn) (conns_ (srv w)))) w.

End server.

(** Application programs; [PConnClosed] is a connection that emits [close],
    which runs the listener the server added. *)
Inductive prog :=
  | PRet
  | PListen (port : Z) (host : bytes) (k : prog)
  | PClose (k : prog)
  | PConnClosed (conn : nat) (k : prog).

Section react.
Context {K A D C : Type} `{Kernel K}.
Variable accept_cb : C.
Variable conn_cb : nat -> C.
Variable app : server_event -> A -> A * prog.

Fixpoint run_prog (listeners : server_event -> world K A D C -> exec (world K A D C)) (p : prog)
    (w : world K A D C) : exec (world K A D C) :=
  match p with
  | PRet => Done w
  | PListen port host k => do w := listen accept_cb listeners port host w in run_prog listeners k w
  | PClose k => do w := close listeners w in run_prog listeners k w
  | PConnClosed conn k => run_prog listeners k (drop_ conn w)
  end.

Fixpoint react (depth : nat) (ev : server_event) (w : world K A D C) : exec (world K A D C) :=
  match depth with
  | O => OutOfFuel
  | S depth' => let '(a, p) := app ev (env w) in run_prog (react depth') p (set_env a w)
  end.

Inductive stimulus := SAcceptable | SCall (p : prog).

Definition stimulate (fuel depth : nat) (s : stimulus) (w : world K A D C) : exec (world K A D C) :=
  match s with
  | SAcceptable => accept_ready conn_cb (react depth) fuel w
  | SCall p => run_prog (react depth) p w
  end.

Fixpoint stimulate_all (fuel depth : nat) (ss : list stimulus) (w : world K A D C) : exec (world K A D C) :=
  match ss with
  | [] => Done w
  | s :: ss' => do w := stimulate fuel depth s w in stimulate_all fuel depth ss' w
  end.

End react.

(** ** Invariant *)

Definition conn_of (ev : server_event) : option nat :=
  match ev with
  | SConnection c => Some c
  | _ => None
  end.

(** ** Preservation

    Any assertion that the elementary steps of the server keep, and that the
    listeners keep, is kept by its operations. *)

Section preserve.
Context {K A D C : Type} `{KernelLaws K}.
Variable accept_cb : C.
Variable conn_cb : nat -> C.
Abbreviation world := (world K A D C).
Implicit Types w : world.
Variable J : world -> Prop.
Variable listeners : server_event -> world -> exec world.

Hypothesis J_kn : forall k w, J w -> J (set_kn k w).
Hypothesis J_quiet : forall ev w, conn_of ev = None -> J w -> post (emit listeners ev w) J.
Hypothesis J_listening : forall w k b d, J w -> 0 <= d ->
  J (mk_world (mk_server d b (conns_ (srv w))) (socks w) (watch (lp w) d interest.read accept_cb) k (env w) (trace w)).
Hypothesis J_closing : forall w k, J w -> valid (fd_ (srv w)) = true ->
  J (mk_world (mk_server invalid_handle (bound_ (srv w)) (conns_ (srv w))) (socks w) (unwatch (lp w) (fd_ (srv w))) k
       (env w) (trace w)).
Hypothesis J_adopt : forall handle peer w, J w -> 0 <= handle -> handle <> fd_ (srv w) ->
  let '(conn, w') := adopt conn_cb handle peer w in post (emit listeners (SConnection conn) w') J.

Lemma give_up_on_preserves fd m w : J w -> post (give_up_on listeners fd m w) J.
Proof. intros Hw. eapply post_bind; [by apply J_quiet|]. intros w1 Hw1. by apply J_kn. Qed.

Lemma listen_preserves port host w : J w -> post (listen accept_cb listeners port host w) J.
Proof.
  intros Hw. unfold listen. destruct (resolve_one _ _ _ _) as [[addr|] k0]; [|by apply J_quiet, J_kn].
  unfold Net.open. destruct (sys_socket _ _ _) as [[d|e] k1] eqn:Es; simpl; [|by apply J_quiet, J_kn, J_kn].
  apply socket_nonneg in Es. destruct (set_reuse_addr _ _) as [? k2].
  destruct (Net.bind _ _ _) as [e3 k3]. branch; [|by apply give_up_on_preserves, (J_kn k3 w)].
  destruct (Net.listen _ _ _) as [e4 k4]. branch; [|by apply give_up_on_preserves, (J_kn k4 w)].
  destruct (set_nonblocking _ _) as [e5 k5]. branch; [|by apply give_up_on_preserves, (J_kn k5 w)].
  destruct (local_endpoint _ _) as [b k6]. unfold move_assign. destruct (Net.close _ _) as [? k7].
  apply J_quiet; [done|]. exact (J_listening w k7 b d Hw Es).
Qed.

Lemma close_preserves w : J w -> post (close listeners w) J.
Proof.
  intros Hw. unfold close. destruct (valid (fd_ (srv w))) eqn:Hv; cbn [negb]; [|done].
  unfold Net.close. simpl. unfold valid in Hv. rewrite Hv.
  apply J_quiet; [done|]. by apply (J_closing w).
Qed.

Lemma accept_ready_preserves fuel : forall w, J w -> post (accept_ready conn_cb listeners fuel w) J.
Proof.
  induction fuel as [|fuel IH]; intros w Hw; [done|]. simpl. unfold Net.accept.
  destruct (sys_accept _ _) as [[[n|e] sa] k] eqn:Ea; simpl.
  2: { branch; [by apply J_kn|]. branch; [by apply IH, J_kn|]. by apply J_quiet, J_kn. }
  apply accept_fresh in Ea as [Hn Hne]. destruct (set_nonblocking _ _) as [nb k1].
  branch; [|by apply IH, (J_kn (Net.close n k1).2 w)].
  eapply post_bind; [|exact IH].
  by apply (J_adopt n (from_sockaddr sa) (set_kn k1 w) (J_kn k1 w Hw)).
Qed.

End preserve.

Section invariant.
Context {K A D C : Type} `{KernelLaws K}.
Variable accept_cb : C.
Variable conn_cb : nat -> C.
Abbreviation world := (world K A D C).
Implicit Types w : world.

Definition listening w : Prop :=
  watches_ (lp w) !! fd_ (srv w) = Some (mk_watch_entry interest.read accept_cb).

(** Each accepted connection is announced once, in order; those kept alive
    are distinct accepted ones; every socket was created open on a valid
    descriptor; and a server that holds a descriptor is registered for it. *)
Definition world_ok w : Prop :=
  watching_ok (lp w) /\
  omap conn_of (trace w) = seq 0 (length (socks w)) /\
  (NoDup (conns_ (srv w)) /\ Forall (fun c => (c < length (socks w))%nat) (conns_ (srv w))) /\
  Forall (fun s => TcpSocket.state_ s = TcpSocket.open_ /\ valid (TcpSocket.desc_ s) = true) (socks w) /\
  (valid (fd_ (srv w)) = true -> listening w) /\
  (valid (fd_ (srv w)) = false -> fd_ (srv w) = invalid_handle).

Lemma server_log_quiet_ok ev w :
  conn_of ev = None -> world_ok w -> world_ok (mk_world (srv w) (socks w) (lp w) (kn w) (env w) (trace w ++ [ev])).
Proof.
  intros He (Hl & Ht & Hrest). split; [done|]. split; [|exact Hrest].
  simpl. rewrite omap_app, Ht. simpl. by rewrite He, app_nil_r.
Qed.

Lemma drop_ok conn w : world_ok w -> world_ok (drop_ conn w).
Proof.
  intros (Hl & Ht & [Hn Hc] & Hs & Hr). split; [done|]. split; [done|]. split; [|done]. simpl.
  split; [by apply NoDup_filter|by apply Forall_filter_keep].
Qed.

Lemma adopt_ok handle peer w :
  world_ok w -> 0 <= handle -> handle <> fd_ (srv w) ->
  let '(conn, w') := adopt conn_cb handle peer w in
  world_ok (mk_world (srv w') (socks w') (lp w') (kn w') (env w') (trace w' ++ [SConnection conn])).
Proof.
  intros (Hl & Ht & [Hn Hc] & Hs & Hr & Hi) Hh Hne. simpl. split_and!; simpl.
  - by apply watch_watching.
  - rewrite omap_app, Ht, length_app. simpl. by rewrite seq_app.
  - apply NoDup_app. split_and!; [done| |apply NoDup_singleton]. intros c Hin ->%list_elem_of_singleton.
    rewrite Forall_forall in Hc. specialize (Hc _ Hin). lia.
  - rewrite length_app. simpl. apply Forall_app. split; [|constructor; [lia|done]].
    eapply Forall_impl; [exact Hc|]. simpl. lia.
  - apply Forall_app. split; [done|]. constructor; [|done]. split; [done|]. unfold valid. simpl. lia.
  - intros Hv. unfold listening. simpl. rewrite lookup_insert_ne by done. by apply Hr.
  - done.
Qed.

Variable listeners : server_event -> world -> exec world.
Hypothesis listeners_keep : forall ev w, world_ok w -> post (listeners ev w) world_ok.

Lemma server_emit_quiet_ok ev w : conn_of ev = None -> world_ok w -> post (emit listeners ev w) world_ok.
Proof. intros. by apply listeners_keep, server_log_quiet_ok. Qed.

Lemma listening_ok w k b d :
  world_ok w -> 0 <= d ->
  world_ok (mk_world (mk_server d b (conns_ (srv w))) (socks w) (watch (lp w) d interest.read accept_cb) k (env w) (trace w)).
Proof.
  intros (Hl & Ht & Hc & Hs & Hr & Hi) Hd. split; [by apply watch_watching|]. do 3 (split; [done|]). simpl. split.
  - intros _. unfold listening. simpl. by rewrite lookup_insert_eq.
  - unfold valid. lia.
Qed.

Lemma closing_ok w k :
  world_ok w -> valid (fd_ (srv w)) = true ->
  world_ok (mk_world (mk_server invalid_handle (bound_ (srv w)) (conns_ (srv w))) (socks w)
              (unwatch (lp w) (fd_ (srv w))) k (env w) (trace w)).
Proof. intros (Hl & Ht & Hc & Hs & Hr & Hi) Hv. split; [by apply unwatch_watching|]. by do 3 (split; [done|]). Qed.

Lemma listen_ok port host w : world_ok w -> post (listen accept_cb listeners port host w) world_ok.
Proof. apply listen_preserves; auto using server_emit_quiet_ok, listening_ok. Qed.

Lemma server_close_ok w : world_ok w -> post (close listeners w) world_ok.
Proof. apply close_preserves; auto using server_emit_quiet_ok, closing_ok. Qed.

Lemma accept_ready_ok fuel w : world_ok w -> post (accept_ready conn_cb listeners fuel w) world_ok.
Proof.
  apply accept_ready_preserves; auto using server_emit_quiet_ok.
  intros handle peer w0 Hw Hh Hne. apply listeners_keep. exact (adopt_ok handle peer w0 Hw Hh Hne).
Qed.

Lemma server_run_prog_ok p : forall w, world_ok w -> post (run_prog accept_cb listeners p w) world_ok.
Proof.
  induction p as [|port host k IH|k IH|conn k IH]; intros w Hw; simpl; [done| | |by apply IH, drop_ok].
  - eapply post_bind; [by apply listen_ok|exact IH].
  - eapply post_bind; [by apply server_close_ok|exact IH].
Qed.

End invariant.

Section reachable.
Context {K A D C : Type} `{KernelLaws K}.
Variable accept_cb : C.
Variable conn_cb : nat -> C.
Variable app : server_event -> A -> A * prog.

Lemma server_react_ok depth : forall ev (w : world K A D C),
  world_ok accept_cb w -> post (react accept_cb app depth ev w) (world_ok accept_cb).
Proof.
  induction depth as [|depth IH]; intros ev w Hw; [done|]. simpl. destruct (app ev (env w)) as [a p].
  by apply server_run_prog_ok.
Qed.

Lemma server_stimulate_all_ok fuel depth ss : forall (w : world K A D C),
  world_ok accept_cb w -> post (stimulate_all accept_cb conn_cb app fuel depth ss w) (world_ok accept_cb).
Proof.
  induction ss as [|s ss IH]; intros w Hw; [done|]. simpl. eapply post_bind; [|exact IH].
  destruct s as [|p]; simpl; [apply accept_ready_ok|apply server_run_prog_ok]; auto using server_react_ok.
Qed.

Definition created (l : loop D C) (k : K) (a : A) : world K A D C := mk_world new_server [] l k a [].

(** Accepting.  Whatever listeners do, the server performs no undefined
    operation; every connection it accepts becomes an open socket on a valid
    descriptor and is announced exactly once, in order; the list that keeps
    connections alive holds distinct accepted ones; and while the server
    holds its descriptor the loop watches it with the accept callback. *)
Theorem server_accepts fuel depth ss l (k : K) (a : A) :
  watching_ok l ->
  stimulate_all accept_cb conn_cb app fuel depth ss (created l k a) <> Undef /\
  (forall w, stimulate_all accept_cb conn_cb app fuel depth ss (created l k a) = Done w ->
     omap conn_of (trace w) = seq 0 (length (socks w)) /\
     (NoDup (conns_ (srv w)) /\ Forall (fun c => (c < length (socks w))%nat) (conns_ (srv w))) /\
     Forall (fun s => TcpSocket.state_ s = TcpSocket.open_ /\ valid (TcpSocket.desc_ s) = true) (socks w) /\
     (valid (fd_ (srv w)) = true -> listening accept_cb w)).
Proof.
  intros Hl. assert (world_ok accept_cb (created l k a)) as Hw.
  { split; [done|]. split; [done|]. split; [split; [apply NoDup_nil_2|done]|]. by split_and!. }
  pose proof (server_stimulate_all_ok fuel depth ss _ Hw) as Hp.
  destruct (stimulate_all _ _ _ _ _ _ _) as [w| |]; [|done|done]. split; [done|].
  intros w' [= <-]. destruct Hp as (_ & ? & ? & ? & ? & _). done.
Qed.

End reachable.

Module examples.

Abbreviation W := (world Scripted.script unit unit (option nat)).

Definition quiet (ev : server_event) (a : unit) : unit * prog := (a, PRet).
Definition client_addr := mk_sockaddr AF_INET (htons 4000) (str "abcd").
Definition kernel := Scripted.set_names
  (Scripted.set_accepts Scripted.blank
     [(SysOk 7, client_addr); (SysErr 4, client_addr); (SysOk 8, client_addr); (SysErr 11, client_addr)])
  [(str "0.0.0.0", client_addr)].
Definition start : W := created new_loop kernel tt.
Definition script := [SCall (PListen 80 (str "0.0.0.0") PRet); SAcceptable; SCall (PConnClosed 0 PRet)].
Definition run := stimulate_all None Some quiet 20 5 script start.
Definition final : W := match run with Done w => w | _ => start end.

Lemma server_accepts_witness :
  run = Done final /\ conns_ (srv final) = [1%nat] /\ omap conn_of (trace final) = seq 0 (length (socks final)).
Proof.
  split; [by vm_compute|]. split; [by vm_compute|].
  refine (proj1 (proj2 (server_accepts None Some quiet 20 5 script new_loop kernel tt _) final _)).
  - by split.
  - by vm_compute.
Defined.

End examples.
