(* ===== verification/TcpNet.v ===== *)
(** * A [tcp::server] and its connections

    [TcpServer] and [TcpSocket] put together: the connections a server accepts
    are full sockets that live in the server's world, on the same event loop
    and kernel, and the close listener that [accept_ready] adds to each of
    them is what removes it from the server's list.  The application is one
    program over both: a listener of the server or of any connection may call
    any of them.  An operation on a connection runs on [focus], the world of
    [TcpSocket] whose application state is the rest of this one. *)

From S2P Require Import Prelude Poller EventLoop Net.
From S2P Require TcpSocket.
From S2P Require Import TcpSteps TcpServer.
#[local] Open Scope Z_scope.

(** Events of the server and of a connection. *)
Inductive net_event :=
  | NServer (ev : server_event)
  | NConn (conn : nat) (ev : TcpSocket.tcp_event).

(** The histories of the connections, those that were destroyed with their
    last [std::shared_ptr] (see [Reactor]), and the application's state. *)
Record net_env (A : Type) := mk_env { hists : gmap nat TcpSocket.history; freed : gset nat; aenv : A }.
Arguments mk_env {A}.
Arguments hists {A}.
Arguments freed {A}.
Arguments aenv {A}.

Section net.
Context {K A D C : Type} `{Kernel K}.
Abbreviation net := (TcpServer.world K (net_env A) D C).
Abbreviation conn_world := (TcpSocket.world K net D C).
Implicit Types w : net.

Variable accept_cb : C.
Variable conn_cb : nat -> C.
Variable listeners : net_event -> net -> exec net.
Variable fuel : nat.

(** What a connection starts with: it acquired its descriptor. *)
Definition new_history : TcpSocket.history := TcpSocket.log_opened false TcpSocket.no_history.

Definition hist_of (conn : nat) w : TcpSocket.history := default new_history (hists (env w) !! conn).

(** The object, as long as it exists. *)
Definition lock (conn : nat) w : option TcpSocket.socket :=
  if bool_decide (conn ∈ freed (env w)) then None else socks w !! conn.

Definition focus (conn : nat) w : option conn_world :=
  match lock conn w with
  | Some x => Some (TcpSocket.mk_world x (lp w) (kn w) w (hist_of conn w))
  | None => None
  end.

Definition unfocus (conn : nat) (tw : conn_world) : net :=
  let w := TcpSocket.env tw in
  mk_world (srv w) (<[conn := TcpSocket.sk tw]> (socks w)) (TcpSocket.lp tw) (TcpSocket.kn tw)
    (mk_env (<[conn := TcpSocket.hist tw]> (hists (env w))) (freed (env w)) (aenv (env w))) (trace w).

(** The listeners of a connection, in the order they were added: the server's
    own on [close], then the application's. *)
Definition conn_listeners (conn : nat) (ev : TcpSocket.tcp_event) (tw : conn_world) : exec conn_world :=
  let w := unfocus conn tw in
  let w := match ev with TcpSocket.EvClose => drop_ conn w | _ => w end in
  do w := listeners (NConn conn ev) w in
  match focus conn w with
  | Some tw => Done tw
  | None => Undef
  end.

(** A call on a connection; a handle the application does not have cannot be
    called. *)
Definition on_conn (conn : nat) (f : conn_world -> exec conn_world) w : exec net :=
  match focus conn w with
  | Some tw => do tw := f tw in Done (unfocus conn tw)
  | None => Done w
  end.

Definition conn_write (conn : nat) (chunk : bytes) w : exec (bool * net) :=
  match focus conn w with
  | Some tw =>
      do (b, tw) := TcpSocket.write (conn_listeners conn) fuel chunk tw in
      Done (b, unfocus conn tw)
  | None => Done (false, w)
  end.

Definition conn_end (conn : nat) w : exec net := on_conn conn (fun tw => Done (TcpSocket.end_ tw)) w.
Definition conn_destroy (conn : nat) w : exec net := on_conn conn (TcpSocket.destroy (conn_listeners conn)) w.
Definition conn_io (conn : nat) (r : ready) w : exec net :=
  on_conn conn (TcpSocket.on_io (conn_listeners conn) fuel r) w.
Definition conn_state (conn : nat) w : option TcpSocket.tcp_state := TcpSocket.state_ <$> lock conn w.

Definition server_listeners (ev : server_event) w : exec net := listeners (NServer ev) w.

End net.

(** Application programs over the server, its connections and the loop's own
    [defer], [set_timeout] and [clear_timeout]; [D] are the functions the
    application gives to the loop. *)
Inductive net_prog (D : Type) :=
  | NRet
  | NListen (port : Z) (host : bytes) (k : net_prog D)
  | NClose (k : net_prog D)
  | NWrite (conn : nat) (chunk : bytes) (k : bool -> net_prog D)
  | NEnd (conn : nat) (k : net_prog D)
  | NDestroy (conn : nat) (k : net_prog D)
  | NState (conn : nat) (k : option TcpSocket.tcp_state -> net_prog D)
  | NDefer (f : D) (k : net_prog D)
  | NTimeout (ms : Z) (f : D) (k : Z -> net_prog D)
  | NClear (id : Z) (k : net_prog D).
Arguments NRet {D}.
Arguments NListen {D}.
Arguments NClose {D}.
Arguments NWrite {D}.
Arguments NEnd {D}.
Arguments NDestroy {D}.
Arguments NState {D}.
Arguments NDefer {D}.
Arguments NTimeout {D}.
Arguments NClear {D}.

Section react.
Context {K A D C : Type} `{Kernel K}.
Abbreviation net := (TcpServer.world K (net_env A) D C).
Variable accept_cb : C.
Variable conn_cb : nat -> C.
Variable app : net_event -> A -> A * net_prog D.
(** The clock [set_timeout] reads. *)
Variable clock : net -> Z.
Variable fuel : nat.

Fixpoint run_net (listeners : net_event -> net -> exec net) (p : net_prog D) (w : net) : exec net :=
  match p with
  | NRet => Done w
  | NListen port host k => do w := TcpServer.listen accept_cb (server_listeners listeners) port host w in run_net listeners k w
  | NClose k => do w := TcpServer.close (server_listeners listeners) w in run_net listeners k w
  | NWrite conn chunk k => do (b, w) := conn_write listeners fuel conn chunk w in run_net listeners (k b) w
  | NEnd conn k => do w := conn_end conn w in run_net listeners k w
  | NDestroy conn k => do w := conn_destroy listeners conn w in run_net listeners k w
  | NState conn k => run_net listeners (k (conn_state conn w)) w
  | NDefer f k => run_net listeners k (set_lp (defer (lp w) f) w)
  | NTimeout ms f k =>
      let '(id, l) := set_timeout (lp w) (clock w) ms f in
      run_net listeners (k id) (set_lp l w)
  | NClear id k => run_net listeners k (set_lp (clear_timeout (lp w) id) w)
  end.

Fixpoint net_react (depth : nat) (ev : net_event) (w : net) : exec net :=
  match depth with
  | O => OutOfFuel
  | S depth' =>
      let '(a, p) := app ev (aenv (env w)) in
      run_net (net_react depth') p (set_env (mk_env (hists (env w)) (freed (env w)) a) w)
  end.

(** The listening socket is readable, a connection is ready, or the
    application calls. *)
Inductive net_stimulus :=
  | NAcceptable
  | NIo (conn : nat) (r : ready)
  | NCall (p : net_prog D).

Definition net_stimulate (depth : nat) (x : net_stimulus) (w : net) : exec net :=
  match x with
  | NAcceptable => TcpServer.accept_ready conn_cb (server_listeners (net_react depth)) fuel w
  | NIo conn r => conn_io (net_react depth) fuel conn r w
  | NCall p => run_net (net_react depth) p w
  end.

Fixpoint net_stimulate_all (depth : nat) (xs : list net_stimulus) (w : net) : exec net :=
  match xs with
  | [] => Done w
  | x :: xs' => do w := net_stimulate depth x w in net_stimulate_all depth xs' w
  end.

Definition net_created (l : loop D C) (k : K) (a : A) : net := mk_world new_server [] l k (mk_env ∅ ∅ a) [].

End react.

(** ** Invariant *)

Section invariant.
Context {K A D C : Type} `{KernelLaws K}.
Abbreviation net := (TcpServer.world K (net_env A) D C).
Abbreviation conn_world := (TcpSocket.world K net D C).
Implicit Types (w : net) (tw : conn_world).

(** What was sent and what is buffered is what [write] took. *)
Definition whole (x : TcpSocket.socket) (h : TcpSocket.history) : Prop :=
  (TcpSocket.out_offset_ x <= length (TcpSocket.outbuf_ x))%nat /\
  TcpSocket.sent h ++ drop (TcpSocket.out_offset_ x) (TcpSocket.outbuf_ x) = TcpSocket.accepted h.

(** A connection: its streams are whole; it is open on a descriptor and has
    not emitted [close], or closed and has, once. *)
Definition conn_ok (x : TcpSocket.socket) (h : TcpSocket.history) : Prop :=
  whole x h /\ TcpSocket.delivered h = TcpSocket.arrived h /\
  (TcpSocket.state_ x = TcpSocket.open_ /\ valid (TcpSocket.desc_ x) = true /\ TcpSocket.closes h = 0%nat \/
   TcpSocket.state_ x = TcpSocket.closed /\ TcpSocket.closes h = 1%nat).

Definition open_conn w (conn : nat) : bool :=
  match socks w !! conn with Some x => TcpSocket.is_state x TcpSocket.open_ | None => false end.

(** The accepted connections that are open, in order. *)
Definition open_conns w : list nat := filter (fun c => open_conn w c = true) (seq 0 (length (socks w))).

(** Connections are announced once and in order, each is in order and none has
    been destroyed. *)
Definition socks_ok w : Prop :=
  omap conn_of (trace w) = seq 0 (length (socks w)) /\
  (forall c x, socks w !! c = Some x -> conn_ok x (hist_of c w)) /\
  (forall c, (length (socks w) <= c)%nat -> hists (env w) !! c = None) /\
  freed (env w) = ∅.

(** The server's list holds exactly the open ones. *)
Definition net_ok w : Prop := socks_ok w /\ conns_ (srv w) = open_conns w.

Lemma new_conn_ok handle peer : 0 <= handle -> conn_ok (TcpSocket.adopted_socket handle peer) new_history.
Proof. intros Hh. split_and!; [done|done|]. left. split_and!; [done| |done]. unfold valid. simpl. lia. Qed.

Lemma focus_Some c w tw :
  focus c w = Some tw ->
  exists x, socks w !! c = Some x /\ (c ∉ freed (env w)) /\ tw = TcpSocket.mk_world x (lp w) (kn w) w (hist_of c w).
Proof.
  unfold focus, lock. case_bool_decide; [done|]. destruct (socks w !! c) as [x|]; [|done]. intros [= <-]. by exists x.
Qed.

Lemma focus_None c w : focus c w = None -> c ∈ freed (env w) \/ (length (socks w) <= c)%nat.
Proof.
  unfold focus, lock. case_bool_decide; [by left|]. destruct (socks w !! c) eqn:E; [done|]. apply lookup_ge_None in E. by right.
Qed.

Lemma open_conns_same w w' :
  length (socks w') = length (socks w) ->
  (forall c, (c < length (socks w))%nat -> open_conn w' c = open_conn w c) -> open_conns w' = open_conns w.
Proof.
  intros Hlen Ho. unfold open_conns. rewrite Hlen. apply filter_ext_elem.
  intros c [_ Hc]%elem_of_seq. by rewrite Ho.
Qed.

Lemma open_conn_unfocus c tw c' :
  (c < length (socks (TcpSocket.env tw)))%nat ->
  open_conn (unfocus c tw) c' =
    if decide (c' = c) then TcpSocket.is_state (TcpSocket.sk tw) TcpSocket.open_ else open_conn (TcpSocket.env tw) c'.
Proof.
  intros Hc. unfold open_conn. simpl. destruct (decide (c' = c)) as [->|Hne].
  - by rewrite list_lookup_insert_eq.
  - by rewrite list_lookup_insert_ne.
Qed.

Lemma unfocus_hist c tw c' :
  hist_of c' (unfocus c tw) = if decide (c' = c) then TcpSocket.hist tw else hist_of c' (TcpSocket.env tw).
Proof.
  unfold hist_of. simpl. destruct (decide (c' = c)) as [->|Hne].
  - by rewrite lookup_insert_eq.
  - by rewrite lookup_insert_ne.
Qed.

Lemma unfocus_conn_ok c tw :
  net_ok (unfocus c tw) -> (c < length (socks (TcpSocket.env tw)))%nat -> conn_ok (TcpSocket.sk tw) (TcpSocket.hist tw).
Proof.
  intros [(_ & Hx & _) _] Hc. specialize (Hx c (TcpSocket.sk tw)). rewrite unfocus_hist in Hx.
  rewrite decide_True in Hx by done. apply Hx. simpl. by apply list_lookup_insert_eq.
Qed.

(** A step of connection [c] that leaves it in order. *)
Lemma unfocus_socks_ok c tw tw' :
  socks_ok (unfocus c tw) -> (c < length (socks (TcpSocket.env tw)))%nat -> TcpSocket.env tw' = TcpSocket.env tw ->
  conn_ok (TcpSocket.sk tw') (TcpSocket.hist tw') -> socks_ok (unfocus c tw').
Proof.
  intros (Ht & Hx & Hh & Hf) Hc He Hok. split_and!.
  - simpl in *. rewrite He, length_insert in *. exact Ht.
  - intros c' x. rewrite unfocus_hist, He. simpl. rewrite He. destruct (decide (c' = c)) as [->|Hne].
    + rewrite list_lookup_insert_eq by done. by intros [= <-].
    + rewrite list_lookup_insert_ne by done. intros Ex. specialize (Hx c' x). rewrite unfocus_hist, decide_False in Hx by done.
      apply Hx. simpl. by rewrite list_lookup_insert_ne.
  - simpl in *. intros c'. rewrite He, length_insert. intros Hc'. rewrite lookup_insert_ne by lia.
    specialize (Hh c'). rewrite length_insert, lookup_insert_ne in Hh by lia. by apply Hh.
  - simpl in *. by rewrite He.
Qed.

(** ... and in the state it was in. *)
Lemma unfocus_step c tw tw' :
  net_ok (unfocus c tw) -> (c < length (socks (TcpSocket.env tw)))%nat -> TcpSocket.env tw' = TcpSocket.env tw ->
  conn_ok (TcpSocket.sk tw') (TcpSocket.hist tw') -> TcpSocket.state_ (TcpSocket.sk tw') = TcpSocket.state_ (TcpSocket.sk tw) ->
  net_ok (unfocus c tw').
Proof.
  intros [Hs Hk] Hc He Hok Hst. split; [by eapply unfocus_socks_ok|].
  transitivity (conns_ (srv (unfocus c tw))); [simpl; by rewrite He|]. rewrite Hk. symmetry.
  apply open_conns_same; [simpl; by rewrite He, !length_insert|]. intros c' _.
  rewrite !open_conn_unfocus by (rewrite ?He; done). unfold TcpSocket.is_state. by rewrite Hst, He.
Qed.

(** Connection [c] closes and the server drops it. *)
Lemma unfocus_close c tw tw' :
  net_ok (unfocus c tw) -> (c < length (socks (TcpSocket.env tw)))%nat -> TcpSocket.env tw' = TcpSocket.env tw ->
  conn_ok (TcpSocket.sk tw') (TcpSocket.hist tw') -> TcpSocket.state_ (TcpSocket.sk tw') = TcpSocket.closed ->
  net_ok (drop_ c (unfocus c tw')).
Proof.
  intros [Hs Hk] Hc He Hok Hst. split; [exact (unfocus_socks_ok c tw tw' Hs Hc He Hok)|].
  simpl. simpl in Hk. rewrite He, Hk. unfold open_conns. simpl. rewrite He, !length_insert, list_filter_filter.
  apply filter_ext_elem. intros c' _. change (open_conn (drop_ c (unfocus c tw')) c') with (open_conn (unfocus c tw') c').
  rewrite !open_conn_unfocus by (rewrite ?He; done). rewrite He. unfold TcpSocket.is_state. rewrite Hst.
  destruct (decide (c' = c)); simpl; intuition congruence.
Qed.

Lemma unfocus_focus c w tw : net_ok w -> focus c w = Some tw -> net_ok (unfocus c tw).
Proof.
  intros [(Ht & Hx & Hh & Hf) Hk] (x & Ex & _ & ->)%focus_Some.
  pose proof (lookup_lt_Some _ _ _ Ex) as Hc. unfold unfocus. simpl.
  assert (forall c', hist_of c' (mk_world (srv w) (<[c := x]> (socks w)) (lp w) (kn w)
            (mk_env (<[c := hist_of c w]> (hists (env w))) (freed (env w)) (aenv (env w))) (trace w)) = hist_of c' w) as Hhist.
  { intros c'. unfold hist_of at 1. simpl. destruct (decide (c' = c)) as [->|Hne].
    - by rewrite lookup_insert_eq.
    - by rewrite lookup_insert_ne. }
  rewrite list_insert_id in * by done. split; [|exact Hk]. split_and!; simpl.
  - exact Ht.
  - intros c' x' Ex'. rewrite Hhist. by apply Hx.
  - intros c' Hc'. rewrite lookup_insert_ne by lia. by apply Hh.
  - exact Hf.
Qed.

(** *** Operations of connections *)

(** What every call and every listener guarantees: the invariant, and
    connections do not disappear. *)
Definition net_keeps w w' : Prop := net_ok w' /\ (length (socks w) <= length (socks w'))%nat.

Variable listeners : net_event -> net -> exec net.
Hypothesis listeners_keep : forall ev w, net_ok w -> post (listeners ev w) (net_keeps w).

(** The assertion about a focused world, [n] connections having been there
    when the operation began. *)
Definition in_net (c n : nat) tw : Prop :=
  net_ok (unfocus c tw) /\ (c < n)%nat /\ (n <= length (socks (TcpSocket.env tw)))%nat.

Lemma in_net_step c n tw tw' :
  in_net c n tw -> TcpSocket.env tw' = TcpSocket.env tw ->
  (conn_ok (TcpSocket.sk tw) (TcpSocket.hist tw) -> conn_ok (TcpSocket.sk tw') (TcpSocket.hist tw')) ->
  TcpSocket.state_ (TcpSocket.sk tw') = TcpSocket.state_ (TcpSocket.sk tw) -> in_net c n tw'.
Proof.
  intros (Hw & Hc & Hn) He Hok Hst. split_and!; [|done|by rewrite He].
  eapply unfocus_step; [exact Hw|lia|done| |done]. apply Hok. eapply unfocus_conn_ok; [exact Hw|lia].
Qed.

(** The application's listener runs on a world in order. *)
Lemma listen_in_net c n ev w tw0 :
  net_ok w -> length (socks w) = length (socks (TcpSocket.env tw0)) -> in_net c n tw0 ->
  post (do w := listeners (NConn c ev) w in match focus c w with Some tw => Done tw | None => Undef end) (in_net c n).
Proof.
  intros Hw Hlen (_ & Hc & Hn). eapply post_bind; [by apply listeners_keep|]. intros w1 [Hw1 Hlen1].
  destruct (focus c w1) as [tw|] eqn:Ef.
  - simpl. split_and!; [by eapply unfocus_focus|done|]. apply focus_Some in Ef as (x & _ & _ & ->). simpl. lia.
  - destruct Hw1 as [(_ & _ & _ & Hf) _]. apply focus_None in Ef as [Hin|]; [|lia]. rewrite Hf in Hin. set_solver.
Qed.

Lemma conn_quiet c n ev tw :
  other_event ev = true -> in_net c n tw -> post (TcpSocket.emit (conn_listeners listeners c) ev tw) (in_net c n).
Proof.
  intros Hev Hw.
  assert (TcpSocket.data_bytes ev = [] /\ TcpSocket.is_close ev = false) as [Hd Hc] by by destruct ev.
  assert (in_net c n (TcpSocket.upd_hist (TcpSocket.log_event ev) tw)) as Hw1.
  { eapply in_net_step; [exact Hw|done| |done]. intros (Ho & Ha & Hl).
    split_and!; [exact Ho| |].
    - simpl. by rewrite TcpSocket.delivered_snoc, Hd, app_nil_r.
    - simpl. rewrite TcpSocket.closes_snoc, Hc, Nat.add_0_r. exact Hl. }
  unfold TcpSocket.emit, conn_listeners. destruct ev; try done;
    (eapply listen_in_net; [apply Hw1| |exact Hw1]; simpl; by rewrite length_insert).
Qed.

Lemma conn_data c n chunk tw :
  in_net c n tw ->
  post (TcpSocket.emit (conn_listeners listeners c) (TcpSocket.EvData chunk) (TcpSocket.upd_hist (TcpSocket.log_arrived chunk) tw))
    (in_net c n).
Proof.
  intros Hw. assert (in_net c n (TcpSocket.upd_hist (TcpSocket.log_event (TcpSocket.EvData chunk))
                        (TcpSocket.upd_hist (TcpSocket.log_arrived chunk) tw))) as Hw1.
  { eapply in_net_step; [exact Hw|done| |done]. intros (Ho & Ha & Hl). split_and!; [exact Ho| |].
    - simpl. rewrite TcpSocket.delivered_snoc. simpl. by f_equal.
    - simpl. rewrite TcpSocket.closes_snoc, Nat.add_0_r. exact Hl. }
  unfold TcpSocket.emit, conn_listeners.
  eapply listen_in_net; [apply Hw1| |exact Hw1]; simpl; by rewrite length_insert.
Qed.

Lemma conn_close c n l k tw :
  in_net c n tw -> was_live (TcpSocket.sk tw) = true ->
  post (TcpSocket.emit (conn_listeners listeners c) TcpSocket.EvClose
    (TcpSocket.set_kn k (TcpSocket.upd_sk (TcpSocket.set_desc invalid_handle)
       (TcpSocket.set_lp l (TcpSocket.upd_sk (TcpSocket.set_state TcpSocket.closed) tw))))) (in_net c n).
Proof.
  intros Hw Hl. pose proof Hw as (Hok & Hc & Hn). unfold TcpSocket.emit, conn_listeners.
  eapply listen_in_net; [|simpl; by rewrite length_insert|exact Hw].
  eapply unfocus_close; [exact Hok|lia|done| |done].
  destruct (unfocus_conn_ok c tw Hok ltac:(lia)) as (Ho & Ha & Hst). split_and!; [exact Ho| |].
  - simpl. by rewrite TcpSocket.delivered_snoc, app_nil_r.
  - right. split; [done|]. simpl. rewrite TcpSocket.closes_snoc. simpl.
    unfold was_live, TcpSocket.is_state in Hl. destruct Hst as [(_ & _ & ->)|[Hst _]]; [done|]. by rewrite Hst in Hl.
Qed.

(** Every elementary step of a connection keeps the invariant of the whole. *)
#[local] Instance in_net_stable c n : Stable (in_net c n) (conn_listeners listeners c).
Proof.
  split.
  - intros tw (Hw & Hc & Hn) Hst. destruct (unfocus_conn_ok c tw Hw ltac:(lia)) as (_ & _ & [[Ho _]|[Ho _]]); congruence.
  - intros k tw Hw. by eapply in_net_step.
  - intros l tw Hw. by eapply in_net_step.
  - intros m tw Hw Hm. eapply in_net_step; [exact Hw|done| |done].
    intros (Ho & Ha & Hl). split_and!; [exact (advanced_ok m (TcpSocket.kn tw) tw Ho Hm)|done|done].
  - intros tw Hw Hb. eapply in_net_step; [exact Hw|done| |done].
    intros (Ho & Ha & Hl). split_and!; [exact (TcpSocket.emptied_out tw Ho Hb)|done|done].
  - intros tw Hw. by eapply in_net_step.
  - intros tw Hw. eapply in_net_step; [exact Hw|done| |done].
    intros ([Ho Hs] & Ha & Hl). split_and!; [|done|done]. split; [done|]. simpl. by rewrite TcpSocket.sent_snoc, app_nil_r.
  - intros tw Hw Hl. pose proof Hw as (Hok & Hc & Hn).
    destruct (unfocus_conn_ok c tw Hok ltac:(lia)) as (_ & _ & [(Hst & Hv & _)|[Hst Hcl]]).
    + unfold was_live, TcpSocket.is_state in Hl. by rewrite Hst, Hv in Hl.
    + eapply in_net_step; [exact Hw|done| |by rewrite Hst]. intros (Ho & Ha & _). split_and!; [done|done|by right].
  - intros ev tw. apply conn_quiet.
  - intros chunk tw. apply conn_data.
  - intros tw. apply conn_close.
Qed.

Lemma focus_in_net c w tw : net_ok w -> focus c w = Some tw -> in_net c (length (socks w)) tw.
Proof.
  intros Hw Ef. split; [by eapply unfocus_focus|]. apply focus_Some in Ef as (x & Ex & _ & ->).
  split; [by eapply lookup_lt_Some|done].
Qed.

Lemma in_net_keeps c w tw : in_net c (length (socks w)) tw -> net_keeps w (unfocus c tw).
Proof. intros (Hw & _ & Hn). split; [done|]. simpl. by rewrite length_insert. Qed.

Lemma on_conn_keeps c f w :
  (forall tw, in_net c (length (socks w)) tw -> post (f tw) (in_net c (length (socks w)))) ->
  net_ok w -> post (on_conn c f w) (net_keeps w).
Proof.
  intros Hf Hw. unfold on_conn. destruct (focus c w) as [tw|] eqn:Ef; [|by split].
  eapply post_bind; [by apply Hf, focus_in_net|]. intros tw' Hw'. by apply in_net_keeps.
Qed.

Lemma conn_write_keeps fuel c chunk w : net_ok w -> post (conn_write listeners fuel c chunk w) (fun r => net_keeps w r.2).
Proof.
  intros Hw. unfold conn_write. destruct (focus c w) as [tw|] eqn:Ef; [|by split].
  pose proof (focus_in_net c w tw Hw Ef) as Hin.
  eapply post_bind; [refine (write_preserves (in_net c (length (socks w))) _ fuel chunk tw _ (fun _ => Hin))|].
  { intros _. eapply in_net_step; [exact Hin|done| |done].
    intros (Ho & Ha & Hl). split_and!; [exact (TcpSocket.appended_out tw chunk Ho)|done|done]. }
  intros [b tw'] Hw'. by apply in_net_keeps.
Qed.

Lemma conn_end_keeps c w : net_ok w -> post (conn_end c w) (net_keeps w).
Proof. apply on_conn_keeps. intros tw Hw. simpl. by apply (end_preserves _ (conn_listeners listeners c)). Qed.

Lemma conn_destroy_keeps c w : net_ok w -> post (conn_destroy listeners c w) (net_keeps w).
Proof. apply on_conn_keeps. intros tw Hw. by apply close_with_preserves; [apply _|]. Qed.

Lemma conn_io_keeps fuel c r w : net_ok w -> post (conn_io listeners fuel c r w) (net_keeps w).
Proof. apply on_conn_keeps. intros tw Hw. by apply on_io_preserves; [apply _|]. Qed.

(** *** Operations of the server *)

Definition grown (n : nat) w : Prop := net_ok w /\ (n <= length (socks w))%nat.

Lemma listeners_grown n ev w : grown n w -> post (listeners ev w) (grown n).
Proof. intros [Hw Hn]. eapply post_mono; [by apply listeners_keep|]. intros w' [Hw' Hl]. split; [done|lia]. Qed.

Lemma server_quiet n ev w : conn_of ev = None -> grown n w -> post (TcpServer.emit (server_listeners listeners) ev w) (grown n).
Proof.
  intros He [Hw Hn]. apply listeners_grown. split; [|done]. destruct Hw as [(Ht & Hrest) Hk]. split; [|exact Hk].
  split; [|exact Hrest]. simpl. rewrite omap_app, Ht. simpl. by rewrite He, app_nil_r.
Qed.

Lemma adopted_net_ok conn_cb handle peer w :
  net_ok w -> 0 <= handle ->
  let '(conn, w') := adopt conn_cb handle peer w in
  net_ok (mk_world (srv w') (socks w') (lp w') (kn w') (env w') (trace w' ++ [SConnection conn])).
Proof.
  intros [(Ht & Hx & Hh & Hf) Hk] Hhandle. simpl. split; [split_and!|].
  - simpl. rewrite omap_app, Ht, length_app. simpl. by rewrite seq_app.
  - simpl. intros c x [Ex|[Hlen Ex]]%lookup_app_Some; [by apply Hx|].
    apply list_lookup_singleton_Some in Ex as [Hc <-]. unfold hist_of. simpl. rewrite Hh by lia. by apply new_conn_ok.
  - simpl. intros c. rewrite length_app. simpl. intros Hc. apply Hh. lia.
  - exact Hf.
  - simpl. rewrite Hk. unfold open_conns. simpl. rewrite length_app. simpl. rewrite seq_app, filter_app. f_equal.
    + apply filter_ext_elem. intros c [_ Hc]%elem_of_seq. unfold open_conn. simpl. by rewrite lookup_app_l by lia.
    + simpl. rewrite filter_cons_True; [done|]. unfold open_conn. simpl. by rewrite list_lookup_middle.
Qed.

Lemma server_adopt conn_cb n handle peer w :
  grown n w -> 0 <= handle -> handle <> fd_ (srv w) ->
  let '(conn, w') := adopt conn_cb handle peer w in
  post (TcpServer.emit (server_listeners listeners) (SConnection conn) w') (grown n).
Proof.
  intros [Hw Hn] Hh _. apply listeners_grown. split; [exact (adopted_net_ok conn_cb handle peer w Hw Hh)|].
  simpl. rewrite length_app. lia.
Qed.

Lemma net_listen_keeps accept_cb port host w :
  net_ok w -> post (TcpServer.listen accept_cb (server_listeners listeners) port host w) (net_keeps w).
Proof.
  intros Hw. apply (listen_preserves accept_cb (grown (length (socks w)))); [done|apply server_quiet|done|by split].
Qed.

Lemma net_close_keeps w : net_ok w -> post (TcpServer.close (server_listeners listeners) w) (net_keeps w).
Proof. intros Hw. apply (close_preserves (grown (length (socks w)))); [apply server_quiet|done|by split]. Qed.

Lemma net_accept_keeps conn_cb fuel w :
  net_ok w -> post (accept_ready conn_cb (server_listeners listeners) fuel w) (net_keeps w).
Proof.
  intros Hw. apply (accept_ready_preserves conn_cb (grown (length (socks w)))); [done|apply server_quiet|apply server_adopt|by split].
Qed.

Lemma run_net_keeps accept_cb clock fuel p : forall w, net_ok w -> post (run_net accept_cb clock fuel listeners p w) (net_keeps w).
Proof.
  assert (forall w w1 (m : exec net), net_keeps w w1 -> post m (net_keeps w1) -> post m (net_keeps w)) as Htrans.
  { intros w w1 m [_ H1] Hm. eapply post_mono; [exact Hm|]. intros w2 [Hw2 H2]. split; [done|lia]. }
  induction p as [|port host k IH|k IH|c chunk k IH|c k IH|c k IH|c k IH|f k IH|ms f k IH|i k IH]; intros w Hw; simpl.
  - by split.
  - eapply post_bind; [by apply net_listen_keeps|]. intros w1 H1. eapply Htrans; [exact H1|]. apply IH, H1.
  - eapply post_bind; [by apply net_close_keeps|]. intros w1 H1. eapply Htrans; [exact H1|]. apply IH, H1.
  - eapply post_bind; [by apply conn_write_keeps|]. intros [b w1] H1. eapply Htrans; [exact H1|]. apply IH, H1.
  - eapply post_bind; [by apply conn_end_keeps|]. intros w1 H1. eapply Htrans; [exact H1|]. apply IH, H1.
  - eapply post_bind; [by apply conn_destroy_keeps|]. intros w1 H1. eapply Htrans; [exact H1|]. apply IH, H1.
  - by apply IH.
  - by apply (IH (set_lp (defer (lp w) f) w)).
  - by apply (IH _ (set_lp _ w)).
  - by apply (IH (set_lp _ w)).
Qed.

End invariant.

(** ** Arbitrary applications *)

Section reachable.
Context {K A D C : Type} `{KernelLaws K}.
Variable accept_cb : C.
Variable conn_cb : nat -> C.
Variable app : net_event -> A -> A * net_prog D.
Variable clock : TcpServer.world K (net_env A) D C -> Z.
Variable fuel : nat.
Abbreviation net := (TcpServer.world K (net_env A) D C).

Lemma net_react_keeps depth : forall ev (w : net), net_ok w -> post (net_react accept_cb app clock fuel depth ev w) (net_keeps w).
Proof.
  induction depth as [|depth IH]; intros ev w Hw; [done|]. simpl. destruct (app ev (aenv (env w))) as [a p].
  exact (run_net_keeps (net_react accept_cb app clock fuel depth) IH accept_cb clock fuel p (set_env (mk_env (hists (env w)) (freed (env w)) a) w) Hw).
Qed.

Lemma net_stimulate_all_ok depth xs : forall (w : net),
  net_ok w -> post (net_stimulate_all accept_cb conn_cb app clock fuel depth xs w) net_ok.
Proof.
  induction xs as [|x xs IH]; intros w Hw; [done|]. simpl. eapply (post_bind _ _ (net_keeps w)); [|intros w' [Hw' _]; by apply IH].
  destruct x as [|c r|p]; simpl; [apply net_accept_keeps|apply conn_io_keeps|apply run_net_keeps]; auto using net_react_keeps.
Qed.

(** C7. A server and all its connections.  Whatever the application does on the
    server and on any connection from any listener, and however the kernel
    splits transfers: no operation is undefined; connections are announced
    once and in order; the server's list holds exactly the accepted
    connections that are open, in the order they were accepted, so each is
    kept alive until it closes and forgotten then; and every connection has
    whole streams in both directions and has emitted [close] once if it is
    closed and never while it is open. *)
Theorem server_with_connections depth xs (l : loop D C) (k : K) (a : A) :
  net_stimulate_all accept_cb conn_cb app clock fuel depth xs (net_created l k a) <> Undef /\
  (forall w, net_stimulate_all accept_cb conn_cb app clock fuel depth xs (net_created l k a) = Done w ->
     omap conn_of (trace w) = seq 0 (length (socks w)) /\
     conns_ (srv w) = filter (fun c => open_conn w c = true) (seq 0 (length (socks w))) /\
     (forall c x, socks w !! c = Some x -> conn_ok x (hist_of c w))).
Proof.
  assert (net_ok (net_created l k a : net)) as Hw by done.
  pose proof (net_stimulate_all_ok depth xs _ Hw) as Hp.
  destruct (net_stimulate_all _ _ _ _ _ _ _ _) as [w| |]; [|done|done]. split; [done|].
  intros w' [= <-]. destruct Hp as [(? & ? & _) ?]. done.
Qed.

End reachable.

Module examples.

Abbreviation W := (TcpServer.world Scripted.script (net_env unit) unit (option nat)).

(** Echoes what connections send; destroys the first when the second is
    announced. *)
Definition echo (ev : net_event) (a : unit) : unit * net_prog unit :=
  match ev with
  | NConn c (TcpSocket.EvData b) => (a, NWrite c b (fun _ => NRet))
  | NServer (SConnection 1) => (a, NDestroy 0 NRet)
  | _ => (a, NRet)
  end.

Definition client_addr := mk_sockaddr AF_INET (htons 4000) (str "abcd").
Definition kernel :=
  Scripted.set_names
    (Scripted.set_accepts
       (Scripted.set_recvs
          (Scripted.set_sends Scripted.blank (TcpSocket.examples.may_send [3; -1]))
          [TcpSocket.examples.incoming (str "hello")])
       [(SysOk 7, client_addr); (SysOk 8, client_addr); (SysErr 11, client_addr)])
    [(str "0.0.0.0", client_addr)].

Definition start : W := net_created new_loop kernel tt.
Definition script : list (net_stimulus (D := unit)) :=
  [NCall (NListen 80 (str "0.0.0.0") NRet); NAcceptable; NIo 1 TcpSocket.examples.readable_].
Definition run : exec W := net_stimulate_all None Some echo (fun _ => 0) 20 6 script start.
Definition final : W := match run with Done w => w | _ => start end.

Lemma server_with_connections_witness :
  run = Done final /\ length (socks final) = 2%nat /\ conns_ (srv final) = [1%nat] /\
  TcpSocket.sent (hist_of 1 final) = str "hel" /\
  conns_ (srv final) = filter (fun c => open_conn final c = true) (seq 0 (length (socks final))).
Proof.
  split; [by vm_compute|]. split; [by vm_compute|]. split; [by vm_compute|]. split; [by vm_compute|].
  refine (proj1 (proj2 (proj2 (server_with_connections None Some echo (fun _ => 0) 20 6 script new_loop kernel tt) final _))).
  by vm_compute.
Defined.

End examples.
