(* ===== verification/Reactor.v ===== *)
(** * The event loop driving a server and its connections

    [TcpNet] lets readiness reports come in any order; here they come from
    the event loop.  The callbacks the loop stores are [OnAccept s] and
    [OnConn c], [call_io] is the code they run, and a turn is
    [EventLoop.iterate].  [FdKernel] says what the kernel promises about
    descriptor numbers: a new one is not in use, close(2) frees it and it may
    be handed out again.

    Objects are owned by [std::shared_ptr]: a connection by the list of its
    server and by the application, the server by the application.  Between
    turns, and at the end of every callback within a turn, the application may
    let go of them, and the destructors close descriptors that the loop goes on
    watching; the closures hold weak pointers, and entering an object that is
    gone is undefined.  The functions the application defers or gives to timers
    are programs over the same objects ([code]).  The theorems are about who is
    watched under which number, and that nothing runs on an object that was
    destroyed. *)

From S2P Require Import Prelude Poller EventLoop Net.
From S2P Require TcpSocket.
From S2P Require Import TcpSteps TcpServer TcpNet.
#[local] Open Scope Z_scope.

(** ** Descriptor numbers *)

Definition same_fds {K} (fd_open : Z -> K -> Prop) (k k' : K) : Prop := forall fd, fd_open fd k' <-> fd_open fd k.

Class FdKernel (K : Type) `{Kernel K} := {
  fd_open : Z -> K -> Prop;
  socket_fd d t k n k' :
    sys_socket d t k = (SysOk n, k') -> ~ fd_open n k /\ forall fd, fd_open fd k' <-> fd_open fd k \/ fd = n;
  socket_failed d t k e k' : sys_socket d t k = (SysErr e, k') -> same_fds fd_open k k';
  accept_fd l k n sa k' :
    sys_accept l k = (SysOk n, sa, k') -> ~ fd_open n k /\ forall fd, fd_open fd k' <-> fd_open fd k \/ fd = n;
  accept_failed l k e sa k' : sys_accept l k = (SysErr e, sa, k') -> same_fds fd_open k k';
  close_fd x k fd : fd_open fd (sys_close x k) <-> fd_open fd k /\ fd <> x;
  getfl_fd x k : same_fds fd_open k (sys_getfl x k).2;
  setfl_fd x v k : same_fds fd_open k (sys_setfl x v k).2;
  reuseaddr_fd x k : same_fds fd_open k (sys_reuseaddr x k).2;
  bind_fd x sa k : same_fds fd_open k (sys_bind x sa k).2;
  listen_fd x n k : same_fds fd_open k (sys_listen x n k).2;
  send_fd x b k : same_fds fd_open k (sys_send x b k).2;
  recv_fd x n k : same_fds fd_open k (sys_recv x n k).2;
  shutdown_fd x n k : same_fds fd_open k (sys_shutdown x n k).2;
  getsockname_fd x k : same_fds fd_open k (sys_getsockname x k).2;
  getaddrinfo_fd a b c k : same_fds fd_open k (getaddrinfo a b c k).2
}.

(** The callbacks the servers and their connections register, with what they
    hold a weak pointer to; servers are numbered as they are created. *)
Inductive callback := OnAccept (s : nat) | OnConn (c : nat).

(** A destroyed connection: what its memory and its history were. *)
Abbreviation relics := (gmap nat (TcpSocket.socket * TcpSocket.history)).

Section reactor.
Context {K A D : Type} `{KernelLaws K} `{!FdKernel K}.
Abbreviation net := (TcpServer.world K (net_env A) D callback).
Abbreviation conn_world := (TcpSocket.world K net D callback).
Implicit Types (w : net) (tw : conn_world) (held : gset Z).

#[local] Instance same_fds_preorder : PreOrder (@same_fds K fd_open).
Proof. split; [by intros k fd|]. intros k1 k2 k3 H1 H2 fd. by rewrite (H2 fd), (H1 fd). Qed.

(** The state and the descriptor of a connection. *)
Definition shape w (c : nat) : option (TcpSocket.tcp_state * Z) :=
  (fun x => (TcpSocket.state_ x, TcpSocket.desc_ x)) <$> (socks w !! c).

(** The object and the history of a connection. *)
Definition record_of w (c : nat) : option (TcpSocket.socket * TcpSocket.history) := (fun x => (x, hist_of c w)) <$> (socks w !! c).

Section lifetime.
(** The number of the server, and the connections that were destroyed. *)
Variable gen : nat.
Variable gone : relics.

(** What is read or written through descriptor [h] on behalf of [t]. *)
Definition owns w (h : Z) (t : callback) : Prop :=
  0 <= h /\
  match t with
  | OnAccept s => s = gen /\ fd_ (srv w) = h
  | OnConn c => gone !! c = None /\ shape w c = Some (TcpSocket.open_, h)
  end.

(** Owners are registered under their own callback and their descriptors are
    open and not [held] by code that has not handed them on yet; the callback
    of a connection that exists is registered for nothing else; such a
    connection is open on a descriptor or closed without one; the others are
    as they were when they were destroyed. *)
Record reg_ok held w : Prop := {
  rg_owner h t : owns w h t -> fd_open h (kn w) /\ (h ∉ held) /\ exists i, watches_ (lp w) !! h = Some (mk_watch_entry i t);
  rg_watch h i c : watches_ (lp w) !! h = Some (mk_watch_entry i (OnConn c)) -> gone !! c = None -> owns w h (OnConn c);
  rg_held h : h ∈ held -> fd_open h (kn w) /\ 0 <= h;
  rg_conn c st d : gone !! c = None -> shape w c = Some (st, d) ->
    (st = TcpSocket.open_ /\ 0 <= d) \/ (st = TcpSocket.closed /\ d = invalid_handle);
  rg_server : 0 <= fd_ (srv w) \/ fd_ (srv w) = invalid_handle;
  rg_gone c x : gone !! c = Some x -> record_of w c = Some x;
  rg_freed : freed (env w) = dom gone
}.

(** What destroyed connections are concerned with. *)
Definition same_relics w w' : Prop :=
  freed (env w') = freed (env w) /\ forall c x, gone !! c = Some x -> record_of w c = Some x -> record_of w' c = Some x.

Lemma same_relics_refl w w' :
  freed (env w') = freed (env w) -> hists (env w') = hists (env w) -> socks w' = socks w -> same_relics w w'.
Proof. intros Hf Hh Hs. split; [done|]. intros c x _. unfold record_of, hist_of. by rewrite Hs, Hh. Qed.

(** Steps that change neither owners, nor callbacks, nor open descriptors. *)
Lemma reg_ok_same held w w' :
  reg_ok held w -> same_fds fd_open (kn w) (kn w') ->
  (forall h, cb <$> watches_ (lp w') !! h = cb <$> watches_ (lp w) !! h) ->
  fd_ (srv w') = fd_ (srv w) -> (forall c, shape w' c = shape w c) -> same_relics w w' -> reg_ok held w'.
Proof.
  intros [H1 H2 H3 H4 H5 H6 H7] Hk Hw Hs Hx [Hf Hr].
  assert (forall h t, owns w' h t <-> owns w h t) as Ho.
  { intros h t. unfold owns. rewrite Hs. by destruct t; rewrite ?Hx. }
  split.
  - intros h t Hown%Ho. destruct (H1 h t Hown) as (? & ? & i & Hi). split_and!; [by apply Hk|done|].
    specialize (Hw h). rewrite Hi in Hw. destruct (watches_ (lp w') !! h) as [[j t']|]; simpl in Hw; simplify_eq. by exists j.
  - intros h i c Hi. rewrite Ho. specialize (Hw h). rewrite Hi in Hw.
    destruct (watches_ (lp w) !! h) as [[j t']|] eqn:Ej; simpl in Hw; simplify_eq. by eapply H2.
  - intros h Hh. destruct (H3 h Hh). split; [by apply Hk|done].
  - intros c st d. rewrite Hx. apply H4.
  - by rewrite Hs.
  - intros c x Hc. by eapply Hr, H6.
  - by rewrite Hf.
Qed.

(** Steps of the server and of the loop touch no object. *)
Lemma reg_ok_kept held w w' :
  reg_ok held w -> same_fds fd_open (kn w) (kn w') ->
  (forall h, cb <$> watches_ (lp w') !! h = cb <$> watches_ (lp w) !! h) ->
  fd_ (srv w') = fd_ (srv w) -> socks w' = socks w ->
  freed (env w') = freed (env w) -> hists (env w') = hists (env w) -> reg_ok held w'.
Proof.
  intros Hok Hk Hw Hs Hx Hf Hh. apply (reg_ok_same held w); [done..| |by apply same_relics_refl].
  intros c. unfold shape. by rewrite Hx.
Qed.

(** An owner gives up its descriptor: unwatch, close(2), forget. *)
Lemma reg_ok_released held w w' h t :
  reg_ok held w -> owns w h t ->
  watches_ (lp w') = delete h (watches_ (lp w)) -> kn w' = sys_close h (kn w) ->
  (forall h' t', owns w' h' t' <-> owns w h' t' /\ t' <> t) ->
  (forall c st d, shape w' c = Some (st, d) ->
     shape w c = Some (st, d) \/ (st = TcpSocket.closed /\ d = invalid_handle)) ->
  (fd_ (srv w') = fd_ (srv w) \/ fd_ (srv w') = invalid_handle) -> same_relics w w' -> reg_ok held w'.
Proof.
  intros [H1 H2 H3 H4 H5 H6 H7] Hown Hw Hk Ho Hx Hs [Hf Hr].
  assert (forall h' t', owns w h' t' -> t' <> t -> h' <> h) as Hne.
  { intros h' t' Hown' Ht ->. destruct (H1 _ _ Hown) as (_ & _ & i & Hi). destruct (H1 _ _ Hown') as (_ & _ & j & Hj). congruence. }
  split.
  - intros h' t' [Hown' Ht]%Ho. destruct (H1 _ _ Hown') as (? & ? & i & Hi). pose proof (Hne _ _ Hown' Ht).
    split_and!; [rewrite Hk; by apply close_fd|done|]. exists i. by rewrite Hw, lookup_delete_ne.
  - intros h' i c Hi Hg. rewrite Hw in Hi. apply lookup_delete_Some in Hi as [Hh Hi]. apply Ho. specialize (H2 _ _ _ Hi Hg).
    split; [done|]. intros <-. destruct Hown as (_ & _ & E1), H2 as (_ & _ & E2). congruence.
  - intros h' Hh. destruct (H3 _ Hh). split; [|done]. rewrite Hk. apply close_fd. split; [done|]. intros ->.
    by destruct (H1 _ _ Hown) as (_ & ? & _).
  - intros c st d Hg Hc. destruct (Hx _ _ _ Hc) as [?|?]; [by apply (H4 c)|by right].
  - destruct Hs as [->| ->]; [done|by right].
  - intros c x Hc. by eapply Hr, H6.
  - by rewrite Hf.
Qed.

(** A held descriptor is closed. *)
Lemma reg_ok_dropped held h w k :
  reg_ok ({[h]} ∪ held) w -> h ∉ held -> kn w = k -> reg_ok held (set_kn (sys_close h k) w).
Proof.
  intros [H1 H2 H3 H4 H5 H6 H7] Hh <-. split; simpl; try done.
  - intros h' t Hown. destruct (H1 h' t Hown) as (? & ? & ?). split_and!; [apply close_fd; split; [done|set_solver]|set_solver|done].
  - intros h' Hh'. destruct (H3 h'); [set_solver|]. split; [|done]. apply close_fd. split; [done|]. by intros ->.
Qed.

(** The kernel hands out a descriptor. *)
Lemma reg_ok_opened held h w k' :
  reg_ok held w -> 0 <= h -> ~ fd_open h (kn w) -> (forall fd, fd_open fd k' <-> fd_open fd (kn w) \/ fd = h) ->
  reg_ok ({[h]} ∪ held) (set_kn k' w) /\ h ∉ held.
Proof.
  intros [H1 H2 H3 H4 H5 H6 H7] Hp Hn Hk. split.
  - split; simpl; try done.
    + intros h' t Hown. destruct (H1 h' t Hown) as (? & ? & ?). split_and!; [apply Hk; by left| |done].
      intros [->%elem_of_singleton|?]%elem_of_union; done.
    + intros h' [->%elem_of_singleton|Hh]%elem_of_union; [split; [apply Hk; by right|done]|].
      destruct (H3 _ Hh). split; [apply Hk; by left|done].
  - intros Hh. by destruct (H3 _ Hh).
Qed.

(** ** Connections *)

Definition in_reg (c : nat) held (n : nat) tw : Prop :=
  reg_ok held (unfocus c tw) /\ gone !! c = None /\ (c < n <= length (socks (TcpSocket.env tw)))%nat.

Definition reg_grown held (n : nat) w : Prop := reg_ok held w /\ (n <= length (socks w))%nat.
Abbreviation reg_keeps held w := (reg_grown held (length (socks w))).

Lemma shape_unfocus c tw c' :
  (c < length (socks (TcpSocket.env tw)))%nat ->
  shape (unfocus c tw) c' =
    if decide (c' = c) then Some (TcpSocket.state_ (TcpSocket.sk tw), TcpSocket.desc_ (TcpSocket.sk tw))
    else shape (TcpSocket.env tw) c'.
Proof.
  intros Hc. unfold shape. simpl. destruct (decide (c' = c)) as [->|Hne].
  - by rewrite list_lookup_insert_eq.
  - by rewrite list_lookup_insert_ne.
Qed.

Lemma unfocus_relics c tw tw' :
  gone !! c = None -> TcpSocket.env tw' = TcpSocket.env tw -> same_relics (unfocus c tw) (unfocus c tw').
Proof.
  intros Hg He. split; [simpl; by rewrite He|]. intros c' x Hx. unfold record_of. rewrite !unfocus_hist. simpl. rewrite He.
  assert (c' <> c) as Hne by congruence. by rewrite !decide_False, !list_lookup_insert_ne by done.
Qed.

Lemma in_reg_step c held n tw tw' :
  in_reg c held n tw -> TcpSocket.env tw' = TcpSocket.env tw ->
  same_fds fd_open (TcpSocket.kn tw) (TcpSocket.kn tw') ->
  (forall h, cb <$> watches_ (TcpSocket.lp tw') !! h = cb <$> watches_ (TcpSocket.lp tw) !! h) ->
  TcpSocket.state_ (TcpSocket.sk tw') = TcpSocket.state_ (TcpSocket.sk tw) ->
  TcpSocket.desc_ (TcpSocket.sk tw') = TcpSocket.desc_ (TcpSocket.sk tw) -> in_reg c held n tw'.
Proof.
  intros (Hw & Hg & Hn) He Hk Hl Hst Hd. split_and!; [|done|rewrite ?He; lia..].
  apply (reg_ok_same held (unfocus c tw)); simpl; [done..|by rewrite He| |by apply unfocus_relics].
  intros c'. rewrite !shape_unfocus by (rewrite ?He; lia). by rewrite He, Hst, Hd.
Qed.

Lemma in_reg_state c held n tw :
  in_reg c held n tw ->
  (TcpSocket.state_ (TcpSocket.sk tw) = TcpSocket.open_ /\ 0 <= TcpSocket.desc_ (TcpSocket.sk tw)) \/
  (TcpSocket.state_ (TcpSocket.sk tw) = TcpSocket.closed /\ TcpSocket.desc_ (TcpSocket.sk tw) = invalid_handle).
Proof. intros (Hw & Hg & Hn). apply (rg_conn _ _ Hw c); [done|]. rewrite shape_unfocus by lia. by rewrite decide_True. Qed.

Lemma reg_ok_focus c held w tw : reg_ok held w -> focus c w = Some tw -> in_reg c held (length (socks w)) tw.
Proof.
  intros Hw (x & Ex & Hf & ->)%focus_Some. pose proof (lookup_lt_Some _ _ _ Ex).
  rewrite (rg_freed _ _ Hw) in Hf. apply not_elem_of_dom in Hf. split_and!; [|done|simpl; lia..].
  apply (reg_ok_same held w); [done..| |].
  - intros c'. rewrite shape_unfocus by done. simpl. case_decide; [subst; unfold shape; by rewrite Ex|done].
  - split; [done|]. intros c' y Hy. unfold record_of. rewrite unfocus_hist. simpl. assert (c' <> c) by congruence.
    by rewrite decide_False, list_lookup_insert_ne by done.
Qed.

#[local] Instance in_reg_quiet c held n : QuietSteps (in_reg c held n).
Proof.
  split.
  - intros tw Hw. destruct (in_reg_state _ _ _ _ Hw) as [[-> _]|[-> _]]; done.
  - intros i tw Hw. eapply in_reg_step; [exact Hw|done|done| |done|done]. intros h. simpl. unfold modify.
    destruct (watches_ (TcpSocket.lp tw) !! TcpSocket.desc_ (TcpSocket.sk tw)) as [e|] eqn:E; [|done]. simpl.
    destruct (decide (h = TcpSocket.desc_ (TcpSocket.sk tw))) as [->|]; [by rewrite lookup_insert_eq, E|by rewrite lookup_insert_ne].
  - intros m k tw Hw Es _. eapply in_reg_step; [exact Hw|done| |done|done|done]. simpl.
    pose proof (send_fd (TcpSocket.desc_ (TcpSocket.sk tw)) (backlog (TcpSocket.sk tw)) (TcpSocket.kn tw)) as Hk. by rewrite Es in Hk.
  - intros r k tw Hw Es _. eapply in_reg_step; [exact Hw|done| |done|done|done]. simpl.
    pose proof (send_fd (TcpSocket.desc_ (TcpSocket.sk tw)) (backlog (TcpSocket.sk tw)) (TcpSocket.kn tw)) as Hk. by rewrite Es in Hk.
  - intros tw Hw _. by eapply in_reg_step.
  - intros tw Hw. by eapply in_reg_step.
  - intros tw Hw. eapply in_reg_step; [exact Hw|done| |done|done|done]. simpl. unfold Net.shutdown.
    pose proof (shutdown_fd (TcpSocket.desc_ (TcpSocket.sk tw)) 1 (TcpSocket.kn tw)) as Hk. by destruct (sys_shutdown _ _ _).
  - intros tw Hw Hl. eapply in_reg_step; [exact Hw|done|done|done| |done]. simpl.
    destruct (in_reg_state _ _ _ _ Hw) as [[Hst Hd]|[Hst _]]; [|done].
    unfold was_live, TcpSocket.is_state, valid in Hl. rewrite Hst in Hl. simpl in Hl. lia.
  - intros r data k tw Hw Er _. eapply in_reg_step; [exact Hw|done| |done|done|done]. simpl.
    pose proof (recv_fd (TcpSocket.desc_ (TcpSocket.sk tw)) TcpSocket.recv_size (TcpSocket.kn tw)) as Hk. by rewrite Er in Hk.
Qed.

Section listeners.
Variable listeners : net_event -> net -> exec net.
Hypothesis listeners_keep : forall held ev w, reg_ok held w -> post (listeners ev w) (reg_keeps held w).

Lemma listen_in_reg c held n ev w tw0 :
  reg_ok held w -> length (socks w) = length (socks (TcpSocket.env tw0)) -> in_reg c held n tw0 ->
  post (do w := listeners (NConn c ev) w in match focus c w with Some tw => Done tw | None => Undef end) (in_reg c held n).
Proof.
  intros Hw Hlen (_ & Hg & Hn). eapply post_bind; [by apply listeners_keep|]. intros w1 [Hw1 Hlen1].
  destruct (focus c w1) as [tw|] eqn:Ef.
  - simpl. destruct (reg_ok_focus _ _ _ _ Hw1 Ef) as [Hr _]. apply focus_Some in Ef as (x & _ & _ & ->).
    split_and!; [done|done|simpl; lia..].
  - apply focus_None in Ef as [Hf|]; [|lia]. rewrite (rg_freed _ _ Hw1) in Hf. by apply not_elem_of_dom in Hg.
Qed.

(** Listeners of an event other than [close]. *)
Lemma conn_event c held n ev tw :
  ev <> TcpSocket.EvClose -> in_reg c held n tw -> post (conn_listeners listeners c ev tw) (in_reg c held n).
Proof.
  intros Hev Hw. unfold conn_listeners. destruct ev; try done;
    (eapply listen_in_reg; [apply Hw|simpl; by rewrite length_insert|exact Hw]).
Qed.

Lemma conn_closed c held n tw :
  in_reg c held n tw -> was_live (TcpSocket.sk tw) = true ->
  post (TcpSocket.emit (conn_listeners listeners c) TcpSocket.EvClose (released tw)) (in_reg c held n).
Proof.
  intros Hw Hl. pose proof Hw as (Hok & Hg & Hn). unfold TcpSocket.emit, conn_listeners.
  destruct (in_reg_state _ _ _ _ Hw) as [[Hst Hd]|[Hst _]].
  2: { unfold was_live, TcpSocket.is_state in Hl. by rewrite Hst in Hl. }
  eapply listen_in_reg; [|simpl; by rewrite length_insert|exact Hw].
  assert (shape (unfocus c tw) c = Some (TcpSocket.open_, TcpSocket.desc_ (TcpSocket.sk tw))) as Hsh.
  { rewrite shape_unfocus by lia. by rewrite decide_True, Hst. }
  assert (forall c', shape (drop_ c (unfocus c (TcpSocket.upd_hist (TcpSocket.log_event TcpSocket.EvClose) (released tw)))) c' =
    if decide (c' = c) then Some (TcpSocket.closed, invalid_handle) else shape (unfocus c tw) c') as Hsh'.
  { intros c'. etrans; [exact (shape_unfocus c (TcpSocket.upd_hist (TcpSocket.log_event TcpSocket.EvClose) (released tw)) c' ltac:(simpl; lia))|].
    case_decide; [done|]. rewrite shape_unfocus by lia. by rewrite decide_False. }
  eapply (reg_ok_released held (unfocus c tw) _ (TcpSocket.desc_ (TcpSocket.sk tw)) (OnConn c)); [done|done|done|done|..].
  - intros h' t'. unfold owns. destruct t' as [|c']; simpl; [naive_solver|]. rewrite Hsh'.
    case_decide as Hc; [subst; naive_solver|]. split; [intros []; split; [done|congruence]|by intros []].
  - intros c' st d. rewrite Hsh'. case_decide; [intros [= <- <-]; by right|by left].
  - by left.
  - exact (unfocus_relics c tw (TcpSocket.upd_hist (TcpSocket.log_event TcpSocket.EvClose) (released tw)) Hg eq_refl).
Qed.

#[local] Instance in_reg_steps c held n : Steps (in_reg c held n) (conn_listeners listeners c).
Proof.
  assert (forall k tw, in_reg c held n tw -> same_fds fd_open (TcpSocket.kn tw) k -> forall f, in_reg c held n (TcpSocket.upd_hist f (TcpSocket.set_kn k tw))) as Hk.
  { intros k tw Hw Hk f. by eapply in_reg_step. }
  split; [split; [apply _|..]|..].
  - intros m tw Hw. apply conn_event; [done|]. by eapply in_reg_step.
  - intros tw Hw Hl. by apply conn_closed.
  - intros tw Hw. apply conn_event; [done|]. by eapply in_reg_step.
  - intros data k tw Hw Er. apply conn_event; [done|]. apply Hk; [done|].
    pose proof (recv_fd (TcpSocket.desc_ (TcpSocket.sk tw)) TcpSocket.recv_size (TcpSocket.kn tw)) as Hf. by rewrite Er in Hf.
  - intros m data k tw Hw Er _. apply conn_event; [done|]. eapply in_reg_step; [exact Hw|done| |done|done|done]. simpl.
    pose proof (recv_fd (TcpSocket.desc_ (TcpSocket.sk tw)) TcpSocket.recv_size (TcpSocket.kn tw)) as Hf. by rewrite Er in Hf.
Qed.

Lemma in_reg_keeps c held w tw : in_reg c held (length (socks w)) tw -> reg_keeps held w (unfocus c tw).
Proof. intros (Hw & _ & Hn). split; [done|]. simpl. rewrite length_insert. lia. Qed.

Lemma on_conn_reg c held f w :
  (forall tw, in_reg c held (length (socks w)) tw -> post (f tw) (in_reg c held (length (socks w)))) ->
  reg_ok held w -> post (on_conn c f w) (reg_keeps held w).
Proof.
  intros Hf Hw. unfold on_conn. destruct (focus c w) as [tw|] eqn:Ef; [|by split].
  eapply post_bind; [by apply Hf, reg_ok_focus|]. intros tw' Hw'. by apply in_reg_keeps.
Qed.

Lemma conn_write_reg fuel c held chunk w : reg_ok held w -> post (conn_write listeners fuel c chunk w) (fun r => reg_keeps held w r.2).
Proof.
  intros Hw. unfold conn_write. destruct (focus c w) as [tw|] eqn:Ef; [|by split].
  pose proof (reg_ok_focus _ _ _ _ Hw Ef) as Hin.
  eapply post_bind; [refine (write_preserves (in_reg c held (length (socks w))) _ fuel chunk tw _ (fun _ => Hin))|].
  { intros _. by eapply in_reg_step. }
  intros [b tw'] Hw'. by apply in_reg_keeps.
Qed.

Lemma conn_end_reg c held w : reg_ok held w -> post (conn_end c w) (reg_keeps held w).
Proof. apply on_conn_reg. intros tw Hw. simpl. by apply (end_preserves _ (conn_listeners listeners c)). Qed.

Lemma conn_destroy_reg c held w : reg_ok held w -> post (conn_destroy listeners c w) (reg_keeps held w).
Proof. apply on_conn_reg. intros tw Hw. by apply close_with_preserves; [apply _|]. Qed.

Lemma conn_io_reg fuel c held r w : reg_ok held w -> post (conn_io listeners fuel c r w) (reg_keeps held w).
Proof. apply on_conn_reg. intros tw Hw. by apply on_io_preserves; [apply _|]. Qed.

(** ** The server *)

Lemma reg_ok_kn held w k : reg_ok held w -> same_fds fd_open (kn w) k -> reg_ok held (set_kn k w).
Proof. intros Hw Hk. by apply (reg_ok_kept held w). Qed.

Lemma server_event held n ev w :
  reg_ok held w -> (n <= length (socks w))%nat -> post (TcpServer.emit (server_listeners listeners) ev w) (reg_grown held n).
Proof.
  intros Hw Hn. unfold TcpServer.emit, server_listeners. eapply post_mono; [apply (listeners_keep held); by apply (reg_ok_kept held w)|].
  intros w' [Hw' Hl]. split; [done|]. simpl in Hl. lia.
Qed.

Lemma resolve_one_fds host p (k : K) : same_fds fd_open k (resolve_one host p false k).2.
Proof.
  unfold resolve_one, resolve. pose proof (getaddrinfo_fd (c_str host) (port_string p) 1 k) as Hk.
  destruct (getaddrinfo _ _ _ _) as [[sas|] k']; simpl in *; [|done]. by destruct (map from_sockaddr sas).
Qed.

Lemma set_nonblocking_fds fd (k : K) : same_fds fd_open k (set_nonblocking fd k).2.
Proof.
  unfold set_nonblocking. pose proof (getfl_fd fd k) as H1. destruct (sys_getfl fd k) as [[n|e] k1]; [|done]. simpl in *.
  pose proof (setfl_fd fd (Z.lor n O_NONBLOCK) k1) as H2. destruct (sys_setfl _ _ _) as [r k2]. simpl in *. by etrans.
Qed.

Lemma reg_ok_not_held held n w k : reg_ok ({[n]} ∪ held) w -> n ∉ held -> 0 <= n -> kn w = k -> reg_ok held (set_kn (Net.close n k).2 w).
Proof. intros Hw Hn Hp Hk. unfold Net.close. rewrite (proj2 (Z.leb_le 0 n) Hp). by apply reg_ok_dropped. Qed.

Lemma give_up_reg held n m w :
  reg_ok ({[n]} ∪ held) w -> n ∉ held -> 0 <= n -> post (give_up_on (server_listeners listeners) n m w) (reg_keeps held w).
Proof.
  intros Hw Hn Hp. unfold give_up_on. eapply post_bind; [by apply (server_event ({[n]} ∪ held) (length (socks w)))|].
  intros w1 [Hw1 Hl]. split; [|done]. by apply reg_ok_not_held.
Qed.

(** The new descriptor becomes the listening one; an old one is closed. *)
Lemma reg_ok_listening held n b w k :
  reg_ok ({[n]} ∪ held) w -> n ∉ held -> same_fds fd_open (kn w) k ->
  reg_ok held (mk_world (mk_server n b (conns_ (srv w))) (socks w) (watch (lp w) n interest.read (OnAccept gen))
    (Net.close (fd_ (srv w)) k).2 (env w) (trace w)).
Proof.
  intros [H1 H2 H3 H4 H5 H6 H7] Hn Hk. set (w' := mk_world _ _ _ _ _ _).
  destruct (H3 n) as [Hopen Hp]; [set_solver|].
  assert (forall h, fd_open h (kn w') <-> fd_open h (kn w) /\ (0 <= fd_ (srv w) -> h <> fd_ (srv w))) as Hk'.
  { intros h. simpl. unfold Net.close. branch; simpl; [rewrite close_fd, (Hk h); naive_solver|]. rewrite (Hk h). split; [|by intros []].
    intros. split; [done|lia]. }
  assert (0 <= fd_ (srv w) -> owns w (fd_ (srv w)) (OnAccept gen)) as Hold by done.
  assert (forall h c, owns w h (OnConn c) -> h <> n /\ (0 <= fd_ (srv w) -> h <> fd_ (srv w))) as Hne.
  { intros h c Hown. destruct (H1 _ _ Hown) as (_ & Hh & i & Hi). split; [set_solver|]. intros Hpos ->.
    destruct (H1 _ _ (Hold Hpos)) as (_ & _ & j & Hj). congruence. }
  split.
  - intros h [s|c] Hown.
    + destruct Hown as (_ & -> & Eh). simpl in Eh. subst h. split_and!; [|done|exists interest.read; simpl; by rewrite lookup_insert_eq].
      apply Hk'. split; [done|]. intros Hpos E. destruct (H1 _ _ (Hold Hpos)) as (_ & ? & _). rewrite <- E in *. set_solver.
    + destruct (Hne h c Hown) as [? ?]. destruct (H1 h (OnConn c) Hown) as (? & ? & i & Hi).
      split_and!; [by apply Hk'|set_solver|]. exists i. simpl. by rewrite lookup_insert_ne.
  - intros h i c. simpl. destruct (decide (h = n)) as [->|]; [by rewrite lookup_insert_eq|]. rewrite lookup_insert_ne by done.
    apply H2.
  - intros h Hh. destruct (H3 h) as [? ?]; [set_solver|]. split; [|done]. apply Hk'. split; [done|].
    intros Hpos ->. destruct (H1 _ _ (Hold Hpos)) as (_ & ? & _). set_solver.
  - exact H4.
  - by left.
  - exact H6.
  - exact H7.
Qed.

Lemma listen_reg port host held w :
  reg_ok held w -> post (TcpServer.listen (OnAccept gen) (server_listeners listeners) port host w) (reg_keeps held w).
Proof.
  intros Hw. unfold TcpServer.listen. pose proof (resolve_one_fds host port (kn w)) as Hk0.
  destruct (resolve_one _ _ _ _) as [[addr|] k0]; simpl in Hk0; [|by apply server_event; [apply reg_ok_kn|]].
  unfold Net.open. simpl. destruct (sys_socket _ _ _) as [[n|e] k1] eqn:Es; simpl.
  2: { apply server_event; [|done]. apply reg_ok_kn; [by apply reg_ok_kn|by eapply socket_failed]. }
  pose proof (socket_nonneg _ _ _ _ _ Es) as Hn. destruct (socket_fd _ _ _ _ _ Es) as [Hfresh Hk1].
  destruct (reg_ok_opened held n (set_kn k0 w) k1) as [Hw1 Hnh]; [by apply reg_ok_kn|done|done|done|].
  unfold set_reuse_addr, Net.bind, Net.listen, errc_of.
  pose proof (reuseaddr_fd n k1) as Hk2. destruct (sys_reuseaddr _ _) as [? k2]. simpl in Hk2 |- *.
  pose proof (bind_fd n (to_sockaddr addr) k2) as Hk3. destruct (sys_bind _ _ _) as [r3 k3]. simpl in Hk3 |- *.
  assert (forall k, same_fds fd_open k1 k -> reg_ok ({[n]} ∪ held) (set_kn k w)) as Hgo.
  { intros k Hk. exact (reg_ok_kn _ _ k Hw1 Hk). }
  branch; [|apply (give_up_reg held n _ (set_kn k3 w)); [apply Hgo; by etrans|done|done]].
  pose proof (listen_fd n 1024 k3) as Hk4. destruct (sys_listen _ _ _) as [r4 k4]. simpl in Hk4 |- *.
  assert (same_fds fd_open k1 k4) as Hk14 by (etrans; [|exact Hk4]; by etrans).
  branch; [|apply (give_up_reg held n _ (set_kn k4 w)); [by apply Hgo|done|done]].
  pose proof (set_nonblocking_fds n k4) as Hk5. destruct (set_nonblocking _ _) as [e5 k5]. simpl in Hk5 |- *.
  assert (same_fds fd_open k1 k5) as Hk15 by by etrans.
  branch; [|apply (give_up_reg held n _ (set_kn k5 w)); [by apply Hgo|done|done]].
  unfold local_endpoint. pose proof (getsockname_fd n k5) as Hk6. destruct (sys_getsockname _ _) as [[r6 sa] k6]. simpl in Hk6.
  assert (forall b, post (TcpServer.emit (server_listeners listeners) SListening
     (mk_world (mk_server n b (conns_ (srv w))) (socks w) (watch (lp w) n interest.read (OnAccept gen)) (Net.close (fd_ (srv w)) k6).2 (env w) (trace w)))
     (reg_keeps held w)) as Hfin.
  { intros b. apply server_event; [|done]. apply (reg_ok_listening held n b (set_kn k5 w) k6); [by apply Hgo|done|done]. }
  unfold move_assign. destruct r6; destruct (Net.close _ _) as [? k7]; simpl;
    [specialize (Hfin (from_sockaddr sa))|specialize (Hfin no_address)]; exact Hfin.
Qed.

Lemma close_reg held w : reg_ok held w -> post (TcpServer.close (server_listeners listeners) w) (reg_keeps held w).
Proof.
  intros Hw. unfold TcpServer.close. destruct (valid (fd_ (srv w))) eqn:Hv; cbn [negb]; [|by split].
  unfold Net.close. simpl. unfold valid in Hv. rewrite Hv. apply server_event; [|done].
  eapply (reg_ok_released held w _ (fd_ (srv w)) (OnAccept gen)); [done|split; [lia|done]|done|done|..].
  - intros h' t'. unfold owns. destruct t' as [s|c]; simpl; [|naive_solver]. unfold invalid_handle. split; [lia|].
    intros [(_ & -> & _) Hne]. done.
  - intros c st d Hc. by left.
  - by right.
  - by apply same_relics_refl.
Qed.

(** An accepted connection takes the descriptor. *)
Lemma reg_ok_adopted held n peer w :
  reg_ok ({[n]} ∪ held) w -> n ∉ held -> reg_ok held (adopt OnConn n peer w).2.
Proof.
  intros [H1 H2 H3 H4 H5 H6 H7] Hn. destruct (H3 n) as [Hopen Hp]; [set_solver|].
  assert (gone !! length (socks w) = None) as Hnew.
  { destruct (gone !! length (socks w)) as [x|] eqn:Ex; [|done]. apply H6 in Ex. unfold record_of in Ex.
    by rewrite lookup_ge_None_2 in Ex by lia. }
  assert (forall c, shape (adopt OnConn n peer w).2 c = if decide (c = length (socks w)) then Some (TcpSocket.open_, n) else shape w c) as Hsh.
  { intros c. unfold shape. simpl. case_decide as Hc; [subst; by rewrite list_lookup_middle|].
    destruct (decide (c < length (socks w))%nat); [by rewrite lookup_app_l|].
    rewrite !lookup_ge_None_2; [done|lia|rewrite length_app; simpl; lia]. }
  assert (forall h t, owns (adopt OnConn n peer w).2 h t -> (h = n /\ t = OnConn (length (socks w))) \/ owns w h t) as Ho.
  { intros h [s|c] [Hh Hown]; simpl in Hown; [right; by split|]. rewrite Hsh in Hown. case_decide; [left; naive_solver|by right]. }
  split.
  - intros h t [[-> ->]|Hown]%Ho; [split_and!; [done|done|]|].
    + eexists. simpl. by rewrite lookup_insert_eq.
    + destruct (H1 h t Hown) as (? & ? & i & Hi). split_and!; [done|set_solver|]. exists i. simpl. rewrite lookup_insert_ne; [done|set_solver].
  - intros h i c. simpl. destruct (decide (h = n)) as [->|].
    + rewrite lookup_insert_eq. intros [= _ <-] _. split; [done|]. rewrite Hsh. by rewrite decide_True.
    + rewrite lookup_insert_ne by done. intros Hi Hg. destruct (H2 _ _ _ Hi Hg) as (? & _ & Hown). split; [done|]. rewrite Hsh.
      rewrite decide_False; [done|]. intros ->. unfold shape in Hown. by rewrite lookup_ge_None_2 in Hown by lia.
  - intros h Hh. apply (H3 h). set_solver.
  - intros c st d. rewrite Hsh. case_decide; [intros _ [= <- <-]; by left|apply H4].
  - exact H5.
  - intros c x Hc. apply H6 in Hc as Hr. unfold record_of in Hr |- *. simpl. apply fmap_Some in Hr as (y & Ey & ->).
    by rewrite (lookup_app_l_Some _ _ _ _ Ey).
  - exact H7.
Qed.

Lemma accept_reg fuel : forall held w, reg_ok held w -> post (accept_ready OnConn (server_listeners listeners) fuel w) (reg_keeps held w).
Proof.
  induction fuel as [|fuel IH]; intros held w Hw; [done|]. cbn [accept_ready]. unfold Net.accept.
  destruct (sys_accept _ _) as [[[n|e] sa] k] eqn:Ea; simpl.
  2: { pose proof (reg_ok_kn held w k Hw (accept_failed _ _ _ _ _ Ea)) as Hw1.
       branch; [by split|]. branch; [by apply (IH held (set_kn k w))|]. by apply server_event. }
  pose proof (accept_fresh _ _ _ _ _ Ea) as [Hn _]. destruct (accept_fd _ _ _ _ _ Ea) as [Hfresh Hk].
  destruct (reg_ok_opened held n w k Hw Hn Hfresh Hk) as [Hw1 Hnh].
  pose proof (set_nonblocking_fds n k) as Hk1. destruct (set_nonblocking _ _) as [nb k1]. simpl in Hk1.
  pose proof (reg_ok_kn _ _ k1 Hw1 Hk1) as Hw2. branch.
  2: { apply (IH held (set_kn (Net.close n k1).2 w)). exact (reg_ok_not_held held n _ k1 Hw2 Hnh Hn eq_refl). }
  eapply post_bind; [exact (server_event held (length (socks w)) _ _ (reg_ok_adopted held n (from_sockaddr sa) _ Hw2 Hnh) ltac:(simpl; rewrite length_app; lia))|].
  intros w1 [Hw3 Hl]. eapply post_mono; [by apply IH|]. intros w2 [Hw4 Hl2]. split; [done|lia].
Qed.

Lemma run_net_reg clock fuel p : forall held w, reg_ok held w -> post (run_net (OnAccept gen) clock fuel listeners p w) (reg_keeps held w).
Proof.
  assert (forall held w w1 (m : exec net), reg_keeps held w w1 -> post m (reg_keeps held w1) -> post m (reg_keeps held w)) as Htrans.
  { intros held w w1 m [_ H1] Hm. eapply post_mono; [exact Hm|]. intros w2 [Hw2 H2]. split; [done|lia]. }
  induction p as [|port host k IH|k IH|c chunk k IH|c k IH|c k IH|c k IH|f k IH|ms f k IH|i k IH]; intros held w Hw; simpl.
  - by split.
  - eapply post_bind; [by apply listen_reg|]. intros w1 H1. eapply Htrans; [exact H1|]. apply IH, H1.
  - eapply post_bind; [by apply close_reg|]. intros w1 H1. eapply Htrans; [exact H1|]. apply IH, H1.
  - eapply post_bind; [by apply conn_write_reg|]. intros [b w1] H1. eapply Htrans; [exact H1|]. apply IH, H1.
  - eapply post_bind; [by apply conn_end_reg|]. intros w1 H1. eapply Htrans; [exact H1|]. apply IH, H1.
  - eapply post_bind; [by apply conn_destroy_reg|]. intros w1 H1. eapply Htrans; [exact H1|]. apply IH, H1.
  - by apply IH.
  - apply (IH held (set_lp (defer (lp w) f) w)). by apply (reg_ok_kept held w).
  - apply (IH _ held (set_lp _ w)). by apply (reg_ok_kept held w).
  - apply (IH held (set_lp _ w)). by apply (reg_ok_kept held w).
Qed.

End listeners.

(** ** Applications *)

Section application.
Variable app : net_event -> A -> A * net_prog D.
Variable clock : net -> Z.
Variable fuel : nat.

Lemma net_react_reg depth : forall held ev w, reg_ok held w -> post (net_react (OnAccept gen) app clock fuel depth ev w) (reg_keeps held w).
Proof.
  induction depth as [|depth IH]; intros held ev w Hw; [done|]. simpl. destruct (app ev (aenv (env w))) as [a p].
  apply (run_net_reg _ IH clock fuel p held (set_env (mk_env (hists (env w)) (freed (env w)) a) w)). by apply (reg_ok_kept held w).
Qed.

Lemma net_stimulate_reg depth x w : reg_ok ∅ w -> post (net_stimulate (OnAccept gen) OnConn app clock fuel depth x w) (reg_ok ∅).
Proof.
  intros Hw. apply (post_mono _ (reg_keeps ∅ w)); [|by intros ? []].
  destruct x as [|c r|p]; simpl; [apply accept_reg|apply conn_io_reg|apply run_net_reg]; auto using net_react_reg.
Qed.

End application.
End lifetime.
(** ** Destructors *)

(** [~socket] of connection [c], whose last owner let go: from here on weak
    pointers to it are empty. *)
Definition free_conn (c : nat) w : net :=
  match focus c w with
  | Some tw =>
      let w := unfocus c (TcpSocket.destructor tw) in
      set_env (mk_env (hists (env w)) ({[c]} ∪ freed (env w)) (aenv (env w))) w
  | None => w
  end.

Definition free_conns (cs : list nat) w : net := fold_left (fun w c => free_conn c w) cs w.

(** [~server], when the application puts a new server in its place: the
    descriptor is closed, and the list lets go of the connections, of which
    those in [kept] have another owner. *)
Definition server_destructor (kept : gset nat) w : net :=
  let k := (Net.close (fd_ (srv w)) (kn w)).2 in
  free_conns (filter (fun c => c ∉ kept) (conns_ (srv w))) (set_srv new_server (set_kn k w)).

(** An object goes with its descriptor, which stays watched. *)
Lemma reg_ok_freed gen gone c w tw :
  reg_ok gen gone ∅ w -> focus c w = Some tw ->
  reg_ok gen (<[c := (TcpSocket.sk (TcpSocket.destructor tw), TcpSocket.hist tw)]> gone) ∅ (free_conn c w).
Proof.
  intros Hw Ef. pose proof (reg_ok_focus gen gone c ∅ w tw Hw Ef) as Hin. pose proof (in_reg_state _ _ _ _ _ _ Hin) as Hst.
  destruct Hin as (_ & Hg & _ & Hlen). unfold free_conn. rewrite Ef. apply focus_Some in Ef as (x & Ex & Hf & ->).
  unfold TcpSocket.destructor in *. destruct (Net.close _ _) as [d k] eqn:Ec. simpl in *.
  destruct Hw as [H1 H2 H3 H4 H5 H6 H7]. set (w' := set_env _ _). set (gone' := <[c := _]> gone).
  pose proof (lookup_lt_Some _ _ _ Ex) as Hc.
  assert (forall c', c' <> c -> shape w' c' = shape w c') as Hsh.
  { intros c' Hne. unfold shape. simpl. by rewrite list_lookup_insert_ne. }
  assert (forall h t, owns gen gone' w' h t <-> owns gen gone w h t /\ t <> OnConn c) as Ho.
  { intros h [s|c']; unfold owns; simpl; [naive_solver|]. destruct (decide (c' = c)) as [->|Hne].
    - unfold gone'. rewrite lookup_insert_eq. naive_solver.
    - unfold gone'. rewrite lookup_insert_ne, Hsh by done. naive_solver. }
  assert (forall h t, owns gen gone w h t -> t <> OnConn c -> fd_open h k) as Hk.
  { intros h t Hown Ht. destruct (H1 h t Hown) as (Hop & _ & i & Hi). unfold Net.close in Ec.
    destruct (0 <=? TcpSocket.desc_ x) eqn:Ed; simplify_eq; [|done]. apply close_fd. split; [done|]. intros ->.
    assert (owns gen gone w (TcpSocket.desc_ x) (OnConn c)) as Hme.
    { split; [lia|]. split; [done|]. unfold shape. rewrite Ex. simpl. destruct Hst as [[-> _]|[_ E]]; [done|].
      unfold invalid_handle in E. lia. }
    destruct (H1 _ _ Hme) as (_ & _ & j & Hj). congruence. }
  split.
  - intros h t [Hown Ht]%Ho. split_and!; [by eapply Hk|set_solver|]. by destruct (H1 h t Hown) as (_ & _ & ?).
  - intros h i c' Hi Hg'. apply Ho. unfold gone' in Hg'. apply lookup_insert_None in Hg' as [Hg' Hne].
    split; [by eapply H2|congruence].
  - intros h Hh. set_solver.
  - intros c' st d' Hg'. unfold gone' in Hg'. apply lookup_insert_None in Hg' as [Hg' Hne]. rewrite Hsh by done. by apply H4.
  - exact H5.
  - intros c' y Hy. unfold gone' in Hy. unfold record_of, hist_of. simpl. destruct (decide (c' = c)) as [->|Hne].
    + rewrite lookup_insert_eq in Hy. rewrite lookup_insert_eq, list_lookup_insert_eq by done. exact Hy.
    + rewrite lookup_insert_ne in Hy by done. rewrite lookup_insert_ne, list_lookup_insert_ne by done. exact (H6 c' y Hy).
  - simpl. unfold gone'. by rewrite dom_insert_L, H7.
Qed.

Lemma free_conn_ok gen gone c w :
  reg_ok gen gone ∅ w -> exists gone', gone ⊆ gone' /\ reg_ok gen gone' ∅ (free_conn c w).
Proof.
  intros Hw. destruct (focus c w) as [tw|] eqn:Ef; [|exists gone; unfold free_conn; by rewrite Ef].
  eexists. split; [|by apply reg_ok_freed]. destruct (reg_ok_focus gen gone c ∅ w tw Hw Ef) as (_ & Hg & _). by apply insert_subseteq.
Qed.

Lemma free_conns_ok gen cs : forall gone w,
  reg_ok gen gone ∅ w -> exists gone', gone ⊆ gone' /\ reg_ok gen gone' ∅ (free_conns cs w).
Proof.
  induction cs as [|c cs IH]; intros gone w Hw; [by exists gone|]. simpl.
  destruct (free_conn_ok gen gone c w Hw) as (g1 & S1 & Hw1). destruct (IH g1 _ Hw1) as (g2 & S2 & Hw2).
  exists g2. split; [by etrans|done].
Qed.

Lemma server_destructor_ok gen gone kept w :
  reg_ok gen gone ∅ w -> exists gone', gone ⊆ gone' /\ reg_ok (S gen) gone' ∅ (server_destructor kept w).
Proof.
  intros [H1 H2 H3 H4 H5 H6 H7]. apply free_conns_ok. set (w' := set_srv _ _).
  assert (forall h c, owns (S gen) gone w' h (OnConn c) <-> owns gen gone w h (OnConn c)) as Ho by done.
  split; simpl; try done.
  - intros h [s|c] Hown.
    + destruct Hown as (Hh & _ & E). simpl in E. unfold invalid_handle in E. lia.
    + destruct (H1 _ _ (proj1 (Ho h c) Hown)) as (Hop & ? & i & Hi). split_and!; [|done|by exists i].
      unfold Net.close. destruct (0 <=? fd_ (srv w)) eqn:Ed; [|done]. apply close_fd. split; [done|]. intros ->.
      destruct (H1 (fd_ (srv w)) (OnAccept gen)) as (_ & _ & j & Hj); [split; [lia|done]|]. congruence.
  - by right.
Qed.

(** ** Turns of the loop *)

(** The application lets go of objects: it replaces its server, keeping some of
    the connections, or drops its pointer to a connection, which is destroyed
    unless the server has it in its list. *)
Inductive release_ := Renew (kept : gset nat) | Forget (c : nat).

Section turns.
Variable app : net_event -> A -> A * net_prog D.
Variable clock : net -> Z.
(** The functions the application gave to [defer] and [set_timeout], and what
    it lets go of when a callback returns. *)
Variable code : D -> A -> A * net_prog D.
Variable drops : A -> A * list release_.
Variable fuel : nat.

(** The whole program: the net, whether its code ran into undefined behaviour
    or out of fuel, and the number of the server. *)
Inductive status := Running | Undefined | Exhausted.
Record machine := mk_machine { m_net : net; m_status : status; m_gen : nat }.

#[export] Program Instance machine_loop : HasLoop machine D callback := {|
  get_loop m := lp (m_net m);
  put_loop l m := mk_machine (TcpServer.set_lp l (m_net m)) (m_status m) (m_gen m)
|}.
Next Obligation. done. Qed.

Definition set_net w (m : machine) : machine := mk_machine w (m_status m) (m_gen m).
Definition set_app (a : A) w : net := set_env (mk_env (hists (env w)) (freed (env w)) a) w.

Definition let_go (r : release_) (m : machine) : machine :=
  match r with
  | Renew kept => mk_machine (server_destructor kept (m_net m)) (m_status m) (S (m_gen m))
  | Forget c => if bool_decide (c ∈ conns_ (srv (m_net m))) then m else set_net (free_conn c (m_net m)) m
  end.

Definition let_go_all (rs : list release_) (m : machine) : machine := fold_left (fun m r => let_go r m) rs m.

(** A piece of code runs to its end; what the application let go of in it is
    destroyed then. *)
Definition perform (depth : nat) (x : net_stimulus) (m : machine) : machine :=
  match m_status m with
  | Running =>
      match net_stimulate (OnAccept (m_gen m)) OnConn app clock fuel depth x (m_net m) with
      | Done w =>
          let '(a, rs) := drops (aenv (env w)) in
          let_go_all rs (mk_machine (set_app a w) Running (m_gen m))
      | Undef => mk_machine (m_net m) Undefined (m_gen m)
      | OutOfFuel => mk_machine (m_net m) Exhausted (m_gen m)
      end
  | _ => m
  end.

(** [weak.lock()] in the closures given to [watch]. *)
Definition locked (c : callback) (m : machine) : bool :=
  match c with
  | OnAccept s => (s =? m_gen m)%nat
  | OnConn c => bool_decide (c ∉ freed (env (m_net m)))
  end.

(** Whether the object a pointer was made for is still there. *)
Definition exists_ (c : callback) (m : machine) : bool :=
  match c with
  | OnAccept s => (s =? m_gen m)%nat
  | OnConn c => match focus c (m_net m) with Some _ => true | None => false end
  end.

(** [self->accept_ready()] and [self->on_io(r)]: undefined through a pointer to
    an object that is gone. *)
Definition enter (depth : nat) (c : callback) (r : ready) (m : machine) : machine :=
  if exists_ c m then
    perform depth (match c with OnAccept _ => NAcceptable | OnConn c => NIo c r end) m
  else mk_machine (m_net m) Undefined (m_gen m).

Definition call_io (depth : nat) (c : callback) (r : ready) (m : machine) : machine :=
  if locked c m then enter depth c r m else m.

(** A deferred function or the function of a timer. *)
Definition call_d (depth : nat) (f : D) (m : machine) : machine :=
  let '(a, p) := code f (aenv (env (m_net m))) in
  perform depth (NCall p) (set_net (set_app a (m_net m)) m).

(** What happens: a turn of the loop, for any answer of poll(2) and any time; a
    call of the application; or it lets go of something between two turns. *)
Inductive event_ :=
  | Turn (res : poll_result) (now : Z)
  | Call (p : net_prog D)
  | LetGo (r : release_).

Definition happen (depth : nat) (e : event_) (m : machine) : machine :=
  match e with
  | Turn res now => (iterate (call_d depth) (call_io depth) res now m).1
  | Call p => perform depth (NCall p) m
  | LetGo r => let_go r m
  end.

Definition happen_all (depth : nat) (es : list event_) (m : machine) : machine :=
  fold_left (fun m e => happen depth e m) es m.

Definition machine_ok (gone : relics) (m : machine) : Prop := reg_ok (m_gen m) gone ∅ (m_net m) /\ m_status m <> Undefined.

(** More may have been destroyed than [gone]. *)
Definition machine_from (gone : relics) (m : machine) : Prop := exists gone', gone ⊆ gone' /\ machine_ok gone' m.

Lemma machine_from_step (f : machine -> machine) gone m :
  (forall gone m, machine_ok gone m -> machine_from gone (f m)) -> machine_from gone m -> machine_from gone (f m).
Proof. intros Hf (g & Hg & Hm). destruct (Hf g m Hm) as (g' & Hg' & Hm'). exists g'. split; [by etrans|done]. Qed.

Lemma machine_from_fold {T} (f : T -> machine -> machine) gone :
  (forall x gone m, machine_ok gone m -> machine_from gone (f x m)) ->
  forall xs m, machine_from gone m -> machine_from gone (fold_left (fun m x => f x m) xs m).
Proof.
  intros Hf xs. induction xs as [|x xs IH]; intros m Hm; [done|]. simpl. apply IH. apply machine_from_step; [apply Hf|done].
Qed.

Lemma machine_ok_from gone m : machine_ok gone m -> machine_from gone m.
Proof. by exists gone. Qed.

Lemma let_go_ok r gone m : machine_ok gone m -> machine_from gone (let_go r m).
Proof.
  intros [Hw Hs]. destruct r as [kept|c]; simpl.
  - destruct (server_destructor_ok _ _ kept _ Hw) as (gone' & ? & ?). by exists gone'.
  - case_bool_decide; [by exists gone|]. destruct (free_conn_ok _ _ c _ Hw) as (gone' & ? & ?). by exists gone'.
Qed.

Lemma set_app_ok gen gone a w : reg_ok gen gone ∅ w -> reg_ok gen gone ∅ (set_app a w).
Proof. intros Hw. by apply (reg_ok_kept _ _ ∅ w). Qed.

Lemma perform_ok depth x gone m : machine_ok gone m -> machine_from gone (perform depth x m).
Proof.
  intros Hm. pose proof Hm as [Hw Hs]. unfold perform. destruct (m_status m) eqn:E; try by apply machine_ok_from.
  pose proof (net_stimulate_reg (m_gen m) gone app clock fuel depth x _ Hw) as Hp.
  destruct (net_stimulate _ _ _ _ _ _ _ _) as [w| |]; [|done|by apply machine_ok_from; split].
  destruct (drops _) as [a rs]. apply machine_from_fold; [apply let_go_ok|]. apply machine_ok_from. split; [|done]. by apply set_app_ok.
Qed.

(** A closure of the watch table that found its object alive runs on an object
    that exists. *)
Lemma locked_exists gone h i c m :
  machine_ok gone m -> watches_ (lp (m_net m)) !! h = Some (mk_watch_entry i c) -> locked c m = true -> exists_ c m = true.
Proof.
  intros [Hw _] Hi Hl. destruct c as [s|c]; [done|]. simpl in *. apply bool_decide_eq_true in Hl.
  pose proof Hl as Hg. rewrite (rg_freed _ _ _ _ Hw) in Hg. apply not_elem_of_dom in Hg.
  destruct (rg_watch _ _ _ _ Hw h i c Hi Hg) as (_ & _ & Hsh). unfold shape in Hsh.
  unfold focus, lock. rewrite bool_decide_false by done. by destruct (socks (m_net m) !! c).
Qed.

Lemma call_io_ok depth h i c r gone m :
  machine_ok gone m -> watches_ (lp (m_net m)) !! h = Some (mk_watch_entry i c) -> machine_from gone (call_io depth c r m).
Proof.
  intros Hm Hi. unfold call_io. destruct (locked c m) eqn:Hl; [|by apply machine_ok_from].
  unfold enter. rewrite (locked_exists gone h i c m Hm Hi Hl). by apply perform_ok.
Qed.

Lemma call_d_ok depth f gone m : machine_ok gone m -> machine_from gone (call_d depth f m).
Proof.
  intros [Hw Hs]. unfold call_d. destruct (code _ _) as [a p]. apply perform_ok. split; [by apply set_app_ok|done].
Qed.

(** The loop's own bookkeeping touches none of this. *)
Lemma put_loop_ok gone l m : watches_ l = watches_ (lp (m_net m)) -> machine_ok gone m -> machine_ok gone (put_loop l m).
Proof. intros E [Hw Hs]. split; [|done]. apply (reg_ok_kept _ _ ∅ (m_net m)); try done. intros h. simpl. by rewrite E. Qed.

Lemma put_loop_from gone l m : watches_ l = watches_ (lp (m_net m)) -> machine_from gone m -> machine_from gone (put_loop l m).
Proof. intros E (g & Hg & Hm). exists g. split; [done|]. by apply put_loop_ok. Qed.

Lemma call_all_ok gone depth fs m : machine_from gone m -> machine_from gone (call_all (call_d depth) fs m).
Proof. apply machine_from_fold. intros f. apply call_d_ok. Qed.

Lemma dispatch_ok gone depth evs : forall m, machine_from gone m -> machine_from gone (dispatch (call_io depth) evs m).1.
Proof.
  induction evs as [|ev evs IH]; intros m Hm; [done|]. simpl. branch; [done|].
  destruct (watches_ (lp (m_net m)) !! handle ev) as [[i c]|] eqn:Ei; [|by apply IH]. simpl.
  assert (machine_from gone (call_io depth c (what ev) m)) as Hm1.
  { destruct Hm as (g & Hg & Hm). destruct (call_io_ok depth _ _ _ (what ev) _ _ Hm Ei) as (g' & Hg' & Hm'). exists g'. split; [by etrans|done]. }
  specialize (IH _ Hm1). by destruct (dispatch _ _ _).
Qed.

Lemma turn_ok gone depth res now m : machine_ok gone m -> machine_from gone (iterate (call_d depth) (call_io depth) res now m).1.
Proof.
  intros Hm%machine_ok_from. unfold iterate. branch; [done|].
  destruct (wait (poller_ (get_loop m)) (ready_ (get_loop m)) res) as [[n evs] p] eqn:Ew. branch; [by apply put_loop_from|].
  set (m1 := put_loop _ (put_loop _ m)).
  assert (machine_from gone m1) as Hm1 by (apply put_loop_from; [done|by apply put_loop_from]).
  apply (call_all_ok gone depth (deferred_ (lp (m_net m)))) in Hm1. unfold fire_due_timers.
  change (deferred_ (set_ready (get_loop m) p evs)) with (deferred_ (lp (m_net m))).
  set (m2 := call_all _ _ _) in *. destruct (take_due now (timers_ (get_loop m2))) as [due rest].
  match goal with |- context [call_all _ (fn <$> due) ?m3] => assert (machine_from gone m3) as Hm3 by by apply put_loop_from end.
  apply (call_all_ok gone depth (fn <$> due)) in Hm3. apply (dispatch_ok gone depth evs) in Hm3. by destruct (dispatch _ _ _).
Qed.

Lemma happen_ok depth e gone m : machine_ok gone m -> machine_from gone (happen depth e m).
Proof. destruct e as [res now|p|r]; simpl; [apply turn_ok|apply perform_ok|apply let_go_ok]. Qed.

Lemma happen_all_ok depth es gone m : machine_ok gone m -> machine_from gone (happen_all depth es m).
Proof. intros Hm%machine_ok_from. apply machine_from_fold; [|done]. intros e. apply happen_ok. Qed.

Definition booted (k : K) (a : A) : machine := mk_machine (net_created new_loop k a) Running 0.

Lemma booted_ok k a : machine_ok ∅ (booted k a).
Proof.
  split; [|done]. split; simpl; try done.
  - intros h [s|c] [Hh Hown]; simpl in *; [destruct Hown as [_ Hown]; unfold invalid_handle in Hown; lia|by destruct Hown].
  - by right.
Qed.

(** C8. Every watch belongs to whom it should.  For a server and its connections
    run by the event loop, whatever poll(2) answers in each turn, whatever the
    application does in its listeners, in the functions it defers and in its
    timers, whenever it replaces the server or lets go of a connection between
    two turns or at the end of a callback within one, and with descriptor
    numbers reused as the kernel likes: no operation is undefined, in particular
    no closure runs on an object that is gone; each open connection has an open
    descriptor, different from those of the others and of the server, registered with its
    own callback; the callback of a connection that exists is registered only
    for the descriptor of that connection while it is open, so readiness of a
    number is reported to the connection that has it now, never to a closed
    one; a closed connection holds no descriptor; and a listening server is
    registered.  What destroyed objects leave watched is in nobody's way.  A run
    whose loops pass the iteration bound is stopped where it was. *)
Theorem reactor_registers depth es k a :
  let m := happen_all depth es (booted k a) in
  let w := m_net m in
  let alive c := c ∉ freed (env w) in
  m_status m <> Undefined /\
  (forall c x, alive c -> socks w !! c = Some x -> TcpSocket.state_ x = TcpSocket.open_ ->
     0 <= TcpSocket.desc_ x /\ fd_open (TcpSocket.desc_ x) (kn w) /\ TcpSocket.desc_ x <> fd_ (srv w) /\
     exists i, watches_ (lp w) !! TcpSocket.desc_ x = Some (mk_watch_entry i (OnConn c))) /\
  (forall h i c, alive c -> watches_ (lp w) !! h = Some (mk_watch_entry i (OnConn c)) ->
     exists x, socks w !! c = Some x /\ TcpSocket.state_ x = TcpSocket.open_ /\ TcpSocket.desc_ x = h) /\
  (forall c1 c2 x1 x2, alive c1 -> alive c2 -> socks w !! c1 = Some x1 -> socks w !! c2 = Some x2 ->
     TcpSocket.state_ x1 = TcpSocket.open_ -> TcpSocket.state_ x2 = TcpSocket.open_ ->
     TcpSocket.desc_ x1 = TcpSocket.desc_ x2 -> c1 = c2) /\
  (forall c x, alive c -> socks w !! c = Some x -> TcpSocket.state_ x <> TcpSocket.open_ -> TcpSocket.desc_ x = invalid_handle) /\
  (0 <= fd_ (srv w) -> fd_open (fd_ (srv w)) (kn w) /\
     exists i, watches_ (lp w) !! fd_ (srv w) = Some (mk_watch_entry i (OnAccept (m_gen m)))).
Proof.
  intros m w alive. destruct (happen_all_ok depth es ∅ _ (booted_ok k a)) as (gone & _ & [H1 H2 H3 H4 H5 H6 H7] & Hs).
  fold m in Hs. fold m w in H1, H2, H4, H5, H7.
  assert (forall c, alive c -> gone !! c = None) as Hal.
  { intros c Hc. apply not_elem_of_dom. by rewrite <- H7. }
  assert (forall c x, socks w !! c = Some x -> shape w c = Some (TcpSocket.state_ x, TcpSocket.desc_ x)) as Hsh.
  { intros c x Ex. unfold shape. by rewrite Ex. }
  assert (forall c x, alive c -> socks w !! c = Some x -> TcpSocket.state_ x = TcpSocket.open_ ->
            owns (m_gen m) gone w (TcpSocket.desc_ x) (OnConn c)) as Hown.
  { intros c x Hc Ex Hst. destruct (H4 c _ _ (Hal c Hc) (Hsh c x Ex)) as [[_ Hd]|[? _]]; [|congruence].
    split; [done|]. split; [by apply Hal|]. by rewrite (Hsh c x Ex), Hst. }
  split_and!; [done|..].
  - intros c x Hc Ex Hst. destruct (H1 _ _ (Hown c x Hc Ex Hst)) as (Ho & _ & i & Hi). pose proof (Hown c x Hc Ex Hst) as [Hp _].
    split_and!; [done|done| |by exists i]. intros E. assert (owns (m_gen m) gone w (TcpSocket.desc_ x) (OnAccept (m_gen m))) as Hacc by by split.
    destruct (H1 _ _ Hacc) as (_ & _ & j & Hj). congruence.
  - intros h i c Hc Hi. destruct (H2 _ _ _ Hi (Hal c Hc)) as (_ & _ & Hx). unfold shape in Hx.
    apply fmap_Some in Hx as (x & Ex & [= ? ?]). by exists x.
  - intros c1 c2 x1 x2 A1 A2 E1 E2 S1 S2 Ed. destruct (H1 _ _ (Hown _ _ A1 E1 S1)) as (_ & _ & i & Hi).
    destruct (H1 _ _ (Hown _ _ A2 E2 S2)) as (_ & _ & j & Hj). congruence.
  - intros c x Hc Ex Hst. by destruct (H4 c _ _ (Hal c Hc) (Hsh c x Ex)) as [[? _]|[_ ?]].
  - intros Hp. destruct (H1 (fd_ (srv w)) (OnAccept (m_gen m))) as (? & _ & ?); [by split|]. done.
Qed.

(** C9. Nothing runs on a destroyed connection.  After the last owner of a
    connection let go of it, between turns or at the end of a callback within
    one, whatever happens then (its number is still polled, ready in any way,
    given to another connection; the application calls, defers and lets go of
    whatever it likes): no closure is entered on an object that is gone, which
    would be undefined, and the connection is never used again, so it emits
    nothing, reads nothing and sends nothing. *)
Theorem destroyed_never_runs depth es es' k a c :
  let m := happen_all depth es (booted k a) in
  let m' := happen_all depth es' m in
  c ∈ freed (env (m_net m)) ->
  m_status m' <> Undefined /\ (c ∈ freed (env (m_net m'))) /\ record_of (m_net m') c = record_of (m_net m) c.
Proof.
  intros m m' Hc. destruct (happen_all_ok depth es ∅ _ (booted_ok k a)) as (g1 & _ & Hm). fold m in Hm.
  destruct (happen_all_ok depth es' g1 m Hm) as (g2 & S2 & [H2 Hs]). fold m' in H2, Hs. destruct Hm as [H1 _].
  rewrite (rg_freed _ _ _ _ H1) in Hc. apply elem_of_dom in Hc as [x Hx]. pose proof (lookup_weaken _ _ _ _ Hx S2) as Hx2.
  split; [done|]. split; [rewrite (rg_freed _ _ _ _ H2); by apply elem_of_dom|].
  by rewrite (rg_gone _ _ _ _ H1 c x Hx), (rg_gone _ _ _ _ H2 c x Hx2).
Qed.

End turns.
End reactor.

(** ** A concrete kernel

    A table of at most [limit] descriptors that hands out the lowest free one;
    [clients] wait to be accepted and [sends] is what they send, to whoever
    reads next. *)
Module FdTable.

Record table := mk_table { opened : gset Z; clients : nat; sends : list bytes }.

Definition limit : nat := 16.
Definition lowest_free (s : gset Z) : option Z := snd <$> list_find (fun n => n ∉ s) (Z.of_nat <$> seq 3 limit).

Lemma lowest_free_fresh s n : lowest_free s = Some n -> (n ∉ s) /\ 0 <= n.
Proof.
  unfold lowest_free. intros ([i m] & E & ->)%fmap_Some. apply list_find_Some in E as (Hi & Hm & _). split; [done|].
  rewrite list_lookup_fmap in Hi. apply fmap_Some in Hi as (j & _ & E). simpl. lia.
Qed.

Definition open_one (k : table) : sysret * table :=
  match lowest_free (opened k) with
  | Some n => (SysOk n, mk_table ({[n]} ∪ opened k) (clients k) (sends k))
  | None => (SysErr 24, k)
  end.

Lemma open_one_ok k n k' :
  open_one k = (SysOk n, k') -> (n ∉ opened k) /\ 0 <= n /\ forall fd, fd ∈ opened k' <-> fd ∈ opened k \/ fd = n.
Proof.
  unfold open_one. destruct (lowest_free (opened k)) as [m|] eqn:E; intros [= <- <-].
  destruct (lowest_free_fresh _ _ E). split_and!; [done|done|]. intros fd. simpl. set_solver.
Qed.

Lemma open_one_failed k e k' : open_one k = (SysErr e, k') -> k' = k.
Proof. unfold open_one. by destruct (lowest_free (opened k)); intros [=]. Qed.

Definition take_client (fd : Z) (k : table) : sysret * sockaddr * table :=
  if bool_decide (fd ∉ opened k) then (SysErr 9, Scripted.nowhere, k)
  else
    match clients k with
    | O => (SysErr 11, Scripted.nowhere, k)
    | S n =>
        match open_one k with
        | (SysOk fd, k) => (SysOk fd, Scripted.nowhere, mk_table (opened k) n (sends k))
        | (SysErr e, k) => (SysErr e, Scripted.nowhere, k)
        end
    end.

Definition take_input (fd : Z) (len : nat) (k : table) : sysret * bytes * table :=
  match sends k with
  | [] => (SysErr 11, [], k)
  | b :: bs => let data := take len b in (SysOk (Z.of_nat (length data)), data, mk_table (opened k) (clients k) bs)
  end.

#[global] Instance table_kernel : Kernel table := {|
  sys_socket _ _ k := open_one k;
  sys_getfl _ k := (SysOk 2, k);
  sys_setfl _ _ k := (SysOk 0, k);
  sys_reuseaddr _ k := (SysOk 0, k);
  sys_connect _ _ k := (SysErr 115, k);
  sys_bind _ _ k := (SysOk 0, k);
  sys_listen _ _ k := (SysOk 0, k);
  sys_accept := take_client;
  sys_read := take_input;
  sys_write _ b k := (SysOk (Z.of_nat (length b)), k);
  sys_send _ b k := (SysOk (Z.of_nat (length b)), k);
  sys_recv := take_input;
  sys_sendto _ b _ k := (SysErr 11, k);
  sys_recvfrom _ _ k := (SysErr 11, [], Scripted.nowhere, k);
  sys_shutdown _ _ k := (SysOk 0, k);
  sys_getsockname _ k := (SysOk 0, Scripted.nowhere, k);
  sys_so_error _ k := (SysOk 0, 0, k);
  sys_close fd k := mk_table (opened k ∖ {[fd]}) (clients k) (sends k);
  getaddrinfo _ _ _ k := (Some [Scripted.nowhere], k);
  inet_pton _ s := None;
  inet_ntop _ raw := raw;
  generic_message e := digits 5 e
|}.

#[global] Instance table_laws : KernelLaws table.
Proof.
  split; simpl; try done.
  - intros _ _ k n k' (_ & ? & _)%open_one_ok. done.
  - intros fd k n sa k'. unfold take_client. case_bool_decide as Hfd; [done|]. destruct (clients k); [done|].
    destruct (open_one k) as [[m|e] k1] eqn:E; intros [= -> _ _]. apply open_one_ok in E as (Hn & Hp & _).
    split; [done|]. by intros ->.
  - intros _ b k n k' [= <- _]. lia.
  - intros fd len k n data k'. unfold take_input. destruct (sends k); intros [= <- <- _]. rewrite length_take. lia.
Qed.

#[global] Instance table_fds : FdKernel table.
Proof.
  refine {| fd_open fd k := fd ∈ opened k |}; try done.
  - intros d t k n k' (? & _ & ?)%open_one_ok. done.
  - intros d t k e k' ->%open_one_failed. done.
  - intros l k n sa k'. simpl. unfold take_client. case_bool_decide; [done|]. destruct (clients k); [done|].
    destruct (open_one k) as [[m|e] k1] eqn:E; intros [= -> _ <-]. by apply open_one_ok in E as (? & _ & ?).
  - intros l k e sa k'. simpl. unfold take_client. case_bool_decide; [by intros [= _ _ ->]|].
    destruct (clients k); [by intros [= _ _ ->]|]. destruct (open_one k) as [[m|e'] k1] eqn:E; intros [= -> _ <-].
    by apply open_one_failed in E as ->.
  - intros x k fd. simpl. set_solver.
  - intros x n k. simpl. unfold take_input. by destruct (sends k).
Defined.

End FdTable.

Module examples.

Abbreviation M := (machine (K := FdTable.table) (A := bool) (D := nat)).
Abbreviation application := (net_event -> bool -> bool * net_prog nat).

Definition host := FdTable.mk_table {[0; 1; 2]} 2 [str "ping"; []].
Definition start : M := booted host false.

(** The deferred function 0 destroys connection 1.  When the application's
    state is [true], it lets go of the server and all its connections as soon
    as the callback that made it so returns. *)
Definition code (f : nat) (a : bool) : bool * net_prog nat := (a, match f with O => NDestroy 1 NRet | _ => NRet end).
Definition drops (a : bool) : bool * list release_ := (false, if a then [Renew ∅; Forget 0] else []).
Definition clock {W : Type} (w : W) : Z := 0.

(** poll(2) reporting descriptors as readable. *)
Definition reports (fds : list Z) : poll_result := PollReady 0 (fun h => if bool_decide (h ∈ fds) then POLLIN else 0).

Definition run (app : application) (es : list (event_ (D := nat))) (m : M) : M := happen_all app clock code drops 20 6 es m.
Definition ignore : application := fun ev a => (a, NRet).

(** Listen on 3, accept 4 and 5; 4 sends, and the listener defers the end of
    the other connection to the next turn. *)
Definition defers : application := fun ev a =>
  match ev with
  | NConn 0 (TcpSocket.EvData _) => (a, NDefer 0%nat NRet)
  | _ => (a, NRet)
  end.
Definition script : list (event_ (D := nat)) :=
  [Call (NListen 80 (str "0.0.0.0") NRet); Turn (reports [3]) 0; Turn (reports [4]) 1; Turn (reports []) 2].
Definition final : M := run defers script start.

(** The connection of descriptor 4 read the end of its stream and is closed;
    the deferred function closed the other one; both descriptors are free. *)
Lemma reactor_registers_witness :
  length (socks (m_net final)) = 2%nat /\ FdTable.opened (kn (m_net final)) = {[0; 1; 2; 3]} /\
  (TcpSocket.state_ <$> socks (m_net final)) = [TcpSocket.closed; TcpSocket.closed] /\
  forall c x, (c ∉ freed (env (m_net final))) -> socks (m_net final) !! c = Some x -> TcpSocket.state_ x <> TcpSocket.open_ -> TcpSocket.desc_ x = invalid_handle.
Proof.
  split; [by vm_compute|]. split; [by apply (bool_decide_unpack _); vm_compute|]. split; [by vm_compute|].
  exact (proj1 (proj2 (proj2 (proj2 (proj2 (reactor_registers defers clock code drops 20 6 script host false)))))).
Defined.

(** Connections 4 and 5 are both readable in one turn, and the listener of the
    first lets go of the server and of both: when the loop comes to 5 in the
    same turn, its closure finds the object gone.  3, 4 and 5 are closed and
    still watched; in a later turn poll(2) reports 4, a closed number, and its
    closure does nothing.  A new server listens on 3. *)
Definition quits : application := fun ev a =>
  match ev with
  | NConn 0 (TcpSocket.EvData _) => (true, NRet)
  | _ => (a, NRet)
  end.
Definition quitting : list (event_ (D := nat)) :=
  [Call (NListen 80 (str "0.0.0.0") NRet); Turn (reports [3]) 0; Turn (reports [4; 5]) 1].
Definition again : list (event_ (D := nat)) := [Turn (reports [4; 5]) 2; Call (NListen 80 (str "0.0.0.0") NRet); Turn (reports [3]) 3].
Definition left : M := run quits quitting start.
Definition later : M := run quits again left.

Lemma destroyed_never_runs_witness :
  freed (env (m_net left)) = {[0%nat; 1%nat]} /\ FdTable.opened (kn (m_net left)) = {[0; 1; 2]} /\
  (cb <$> watches_ (lp (m_net left)) !! 5 = Some (OnConn 1)) /\
  m_status later <> Undefined /\ record_of (m_net later) 1 = record_of (m_net left) 1.
Proof.
  split; [by apply (bool_decide_unpack _); vm_compute|]. split; [by apply (bool_decide_unpack _); vm_compute|].
  split; [by vm_compute|].
  destruct (destroyed_never_runs quits clock code drops 20 6 quitting again host false 1) as (Hs & _ & Hr).
  - by apply (bool_decide_unpack _); vm_compute.
  - split; [exact Hs|exact Hr].
Defined.

(** A second [listen] moves the new descriptor into [fd_], which closes the old
    one, and leaves the old one watched: poll(2) reports it as invalid at once
    in every turn, and [accept_ready] runs each time. *)
Definition relistened : M := run ignore [Call (NListen 80 (str "0.0.0.0") (NListen 81 (str "0.0.0.0") NRet))] start.
Definition POLLNVAL := 32.
Definition invalid_reports : poll_result :=
  PollReady 0 (fun h => if bool_decide (h ∈ FdTable.opened (kn (m_net relistened))) then 0 else POLLNVAL).

Example relisten_leaves_watch :
  fd_ (srv (m_net relistened)) = 4 /\ (3 ∉ FdTable.opened (kn (m_net relistened))) /\
  watches_ (lp (m_net relistened)) !! 3 = Some (mk_watch_entry interest.read (OnAccept 0)) /\
  (iterate (call_d ignore clock code drops 20 6) (call_io ignore clock drops 20 6) invalid_reports 0 relistened).2 =
    [CIo 3 (OnAccept 0) (mk_ready false false false false)].
Proof. split_and!; [by vm_compute|by apply (bool_decide_unpack _); vm_compute|by vm_compute|by vm_compute]. Qed.

End examples.
