(* ===== verification/UdpPeer.v ===== *)
(** * [protocol::udp::peer]

    The datagram endpoint of protocol/udp/peer.hpp: bind, send, close and the
    read loop.  As for TCP, every function runs on a [world] that holds the
    peer, the event loop, the kernel, the state of the code above ([env]) and
    a history; listeners are a variable. *)

From S2P Require Import Prelude Poller EventLoop Net.
#[local] Open Scope Z_scope.

Record peer := mk_peer { family_ : domain; fd_ : Z; reading_ : bool; local_ : socket_address }.

Inductive udp_event :=
  | UListening
  | UMessage (datagram : bytes) (from : socket_address)
  | UError (message : bytes)
  | UClose.

(** What happened: events emitted, datagrams [send] handed over, and how many
    descriptors were given up because the kernel refused non-blocking mode. *)
Record history := mk_history {
  trace : list udp_event;
  departed : list (bytes * socket_address);
  refused : nat
}.

Definition no_history : history := mk_history [] [] 0.

Record world (K A D C : Type) := mk_world {
  pr : peer;
  lp : loop D C;
  kn : K;
  env : A;
  hist : history
}.
Arguments mk_world {K A D C}.
Arguments pr {K A D C}.
Arguments lp {K A D C}.
Arguments kn {K A D C}.
Arguments env {K A D C}.
Arguments hist {K A D C}.

Definition udp6 : bytes := str "udp6".

(** [create(family, loop)]. *)
Definition new_peer (family : bytes) : peer :=
  mk_peer (if bool_decide (family = udp6) then inet6 else inet) invalid_handle false no_address.

Definition set_fd (d : Z) (p : peer) : peer := mk_peer (family_ p) d (reading_ p) (local_ p).
Definition set_reading (b : bool) (p : peer) : peer := mk_peer (family_ p) (fd_ p) b (local_ p).
Definition set_local (a : socket_address) (p : peer) : peer := mk_peer (family_ p) (fd_ p) (reading_ p) a.

Definition log_event (ev : udp_event) (h : history) : history :=
  mk_history (trace h ++ [ev]) (departed h) (refused h).
Definition log_departed (d : bytes * socket_address) (h : history) : history :=
  mk_history (trace h) (departed h ++ [d]) (refused h).
Definition log_refused (h : history) : history := mk_history (trace h) (departed h) (S (refused h)).

Definition is_inet6_domain (d : domain) : bool := bool_decide (d = inet6).

Section peer.
Context {K A D C : Type} `{Kernel K}.
Abbreviation world := (world K A D C).
Implicit Types w : world.
Variable io_cb : C.
Variable listeners : udp_event -> world -> exec world.

Definition upd_pr (f : peer -> peer) w : world := mk_world (f (pr w)) (lp w) (kn w) (env w) (hist w).
Definition set_lp (l : loop D C) w : world := mk_world (pr w) l (kn w) (env w) (hist w).
Definition set_kn (k : K) w : world := mk_world (pr w) (lp w) k (env w) (hist w).
Definition set_env (a : A) w : world := mk_world (pr w) (lp w) (kn w) a (hist w).
Definition upd_hist (f : history -> history) w : world := mk_world (pr w) (lp w) (kn w) (env w) (f (hist w)).

Definition emit (ev : udp_event) w : exec world := listeners ev (upd_hist (log_event ev) w).
Definition emit_error (message : bytes) w : exec world := emit (UError message) w.

Definition open_socket w : exec (bool * world) :=
  if valid (fd_ (pr w)) then Done (true, w)
  else
    let '(d, e, k) := Net.open (family_ (pr w)) datagram (kn w) in
    let w := set_kn k w in
    if negb (e =? errc_ok) then
      do w := emit_error (describe (K := K) e (str "socket")) w in
      Done (false, w)
    else
      let '(d, k) := move_assign (fd_ (pr w)) d (kn w) in
      let w := set_kn k (upd_pr (set_fd d) w) in
      let '(e, k) := set_nonblocking (fd_ (pr w)) (kn w) in
      let w := set_kn k w in
      if negb (e =? errc_ok) then
        do w := emit_error (describe (K := K) e (str "socket")) w in
        let '(d, k) := Net.close (fd_ (pr w)) (kn w) in
        Done (false, upd_hist log_refused (set_kn k (upd_pr (set_fd d) w)))
      else
        let '(_, k) := set_reuse_addr (fd_ (pr w)) (kn w) in
        Done (true, set_kn k w).

Definition read_back_local w : world :=
  let '(a, k) := local_endpoint (fd_ (pr w)) (kn w) in
  set_kn k (upd_pr (set_local a) w).

Definition begin_reading w : world :=
  if reading_ (pr w) then w
  else
    let w := upd_pr (set_reading true) w in
    set_lp (watch (lp w) (fd_ (pr w)) interest.read io_cb) w.

Definition any4 : bytes := str "0.0.0.0".
Definition any6 : bytes := str "::".

Definition bind (port : Z) (addr : bytes) w : exec world :=
  let is6 := is_inet6_domain (family_ (pr w)) in
  let addr := if is6 && bool_decide (addr = any4) then any6 else addr in
  do (ok, w) := open_socket w in
  if negb ok then Done w
  else
    let is6 := is_inet6_domain (family_ (pr w)) in
    let local := mk_address addr port (if is6 then AF_INET6 else AF_INET) in
    let '(e, k) := Net.bind (fd_ (pr w)) local (kn w) in
    let w := set_kn k w in
    if negb (e =? errc_ok) then emit_error (describe (K := K) e (str "bind")) w
    else emit UListening (begin_reading (read_back_local w)).

Definition send (dgram : bytes) (port : Z) (host : bytes) w : exec (bool * world) :=
  do (ok, w) := (if negb (valid (fd_ (pr w))) then open_socket w else Done (true, w)) in
  if negb ok then Done (false, w)
  else
    let '(dest, k) := resolve_one host port true (kn w) in
    let w := set_kn k w in
    match dest with
    | None =>
        do w := emit_error (str "ENOTFOUND: " ++ host) w in
        Done (false, w)
    | Some dest =>
        let '(n, k) := send_to (fd_ (pr w)) dgram dest (kn w) in
        let w := set_kn k w in
        if negb (terror n =? errc_ok) then
          do w := emit_error (describe (K := K) (terror n) (str "sendto")) w in
          Done (false, w)
        else
          let w := upd_hist (log_departed (dgram, dest)) w in
          let w := if negb (reading_ (pr w)) then begin_reading (read_back_local w) else w in
          Done (true, w)
    end.

Definition close w : exec world :=
  if negb (valid (fd_ (pr w))) then Done w
  else
    let w := set_lp (unwatch (lp w) (fd_ (pr w))) w in
    let '(d, k) := Net.close (fd_ (pr w)) (kn w) in
    let w := set_kn k (upd_pr (fun p => set_reading false (set_fd d p)) w) in
    emit UClose w.

Definition address w : socket_address := local_ (pr w).

Definition recv_size : nat := Z.to_nat 65536.

(** The [while (true)] of [drain]. *)
Fixpoint drain (fuel : nat) w : exec world :=
  match fuel with
  | O => OutOfFuel
  | S fuel' =>
      let '(got, k) := recv_from (fd_ (pr w)) recv_size (kn w) in
      let w := set_kn k w in
      if (0 <=? rcount got) && (rerror got =? errc_ok) then
        let datagram := take (Z.to_nat (rcount got)) (rdata got) in
        do w := emit (UMessage (make_buffer datagram) (from got)) w in
        drain fuel' w
      else if would_block (rerror got) then Done w
      else if rerror got =? EINTR then drain fuel' w
      else emit_error (describe (K := K) (rerror got) (str "recvfrom")) w
  end.

End peer.

(** ** Invariant *)

Definition message_of (ev : udp_event) : option (bytes * socket_address) :=
  match ev with
  | UMessage b a => Some (b, a)
  | _ => None
  end.
Definition delivered (h : history) : list (bytes * socket_address) := omap message_of (trace h).

(** A datagram fits the receive buffer. *)
Definition event_ok (ev : udp_event) : Prop :=
  match ev with
  | UMessage d _ => (length d <= recv_size)%nat
  | _ => True
  end.

(** The datagrams the kernel has returned so far, with the senders as the code
    names them. *)
Definition received_of {K} `{DatagramKernel K} (k : K) : list (bytes * socket_address) :=
  map (fun '(d, sa) => (d, from_sockaddr (K := K) sa)) (heard k).

Definition addressed_to {K} `{Kernel K} (d : bytes * socket_address) : bytes * sockaddr := (d.1, to_sockaddr (K := K) d.2).

Section invariant.
Context {K A D C : Type} `{KL : KernelLaws K} `{KD : !DatagramKernel K}.
Variable io_cb : C.
Abbreviation world := (world K A D C).
Implicit Types w : world.

Definition registered w : Prop := watches_ (lp w) !! fd_ (pr w) = Some (mk_watch_entry interest.read io_cb).

(** Unless non-blocking mode was refused, a peer that reads holds a descriptor
    that the loop watches for input. *)
Definition peer_ok w : Prop :=
  watching_ok (lp w) /\
  (refused (hist w) = 0%nat -> reading_ (pr w) = true -> valid (fd_ (pr w)) = true /\ registered w) /\
  (valid (fd_ (pr w)) = false -> fd_ (pr w) = invalid_handle).

(** What the peer does not touch: the state of the code above it, the timers
    of the loop, and the datagrams that have come in. *)
Definition apart w w' : Prop :=
  env w' = env w /\ timers_ (lp w') = timers_ (lp w) /\ next_timer_id_ (lp w') = next_timer_id_ (lp w).

(** A step of the peer without a datagram coming in: what goes out, if
    anything, the kernel took. *)
Definition same_above w w' : Prop :=
  apart w w' /\ heard (kn w') = heard (kn w) /\ delivered (hist w') = delivered (hist w) /\
  exists out, told (kn w') = told (kn w) ++ map (addressed_to (K := K)) out /\ departed (hist w') = departed (hist w) ++ out.

(** A datagram came in and was announced. *)
Definition arrives (d : bytes * socket_address) w w' : Prop :=
  apart w w' /\ received_of (kn w') = received_of (kn w) ++ [d] /\ delivered (hist w') = delivered (hist w) ++ [d] /\
  told (kn w') = told (kn w) /\ departed (hist w') = departed (hist w).

(** The code above the peer has its own invariant [above]. *)
Variable above : world -> Prop.
Hypothesis above_frame : forall w w', same_above w w' -> above w -> above w'.

Definition world_ok w : Prop := peer_ok w /\ above w.

Lemma world_ok_step w w' : world_ok w -> same_above w w' -> (peer_ok w -> peer_ok w') -> world_ok w'.
Proof. intros [Hp Ha] Hs Hk. split; [auto|]. by eapply above_frame. Qed.

(** Nothing went out. *)
Lemma same_above_quiet w w' :
  apart w w' -> same_record heard told (kn w) (kn w') -> delivered (hist w') = delivered (hist w) ->
  departed (hist w') = departed (hist w) -> same_above w w'.
Proof. intros Ha [Hh Ht] Hd Hp. split_and!; [done..|]. exists []. by rewrite !app_nil_r. Qed.

Lemma delivered_log ev h : message_of ev = None -> delivered (log_event ev h) = delivered h.
Proof. intros Hm. unfold delivered. simpl. rewrite omap_app. simpl. by rewrite Hm, app_nil_r. Qed.

Lemma udp_log_quiet_ok ev w : message_of ev = None -> world_ok w -> world_ok (upd_hist (log_event ev) w).
Proof.
  intros Hm Hw. eapply world_ok_step; [exact Hw| |done]. apply same_above_quiet; [done|done|by apply delivered_log|done].
Qed.

Lemma udp_set_kn_ok k w : same_record heard told (kn w) k -> world_ok w -> world_ok (set_kn k w).
Proof. intros Hs Hw. eapply world_ok_step; [exact Hw| |done]. by apply same_above_quiet. Qed.

Lemma read_back_ok w : world_ok w -> world_ok (read_back_local w).
Proof.
  intros Hw. unfold read_back_local. pose proof (local_endpoint_same (fd_ (pr w)) (kn w)) as Hs.
  destruct (local_endpoint _ _). eapply world_ok_step; [exact Hw|by apply same_above_quiet|done].
Qed.

Lemma read_back_fd w : fd_ (pr (read_back_local w)) = fd_ (pr w).
Proof. unfold read_back_local. by destruct (local_endpoint _ _). Qed.

Lemma begin_reading_ok w : world_ok w -> valid (fd_ (pr w)) = true -> world_ok (begin_reading io_cb w).
Proof.
  intros Hw Hv. unfold begin_reading. branch; [done|]. eapply world_ok_step; [exact Hw|by apply same_above_quiet|].
  intros (Hl & Hr & Hi). split_and!; [by apply watch_watching| |done]. intros _ _. split; [done|].
  unfold registered. simpl. by rewrite lookup_insert_eq.
Qed.

Lemma udp_released_ok w k :
  world_ok w -> same_record heard told (kn w) k ->
  world_ok (set_kn k (upd_pr (fun p => set_reading false (set_fd invalid_handle p))
    (set_lp (unwatch (lp w) (fd_ (pr w))) w))).
Proof.
  intros Hw Hs. eapply world_ok_step; [exact Hw|by apply same_above_quiet|].
  intros (Hl & Hr & Hi). split_and!; [by apply unwatch_watching|done|done].
Qed.

Variable listeners : udp_event -> world -> exec world.
Hypothesis listeners_keep : forall ev w, message_of ev = None -> world_ok w -> post (listeners ev w) world_ok.

Lemma udp_emit_quiet_ok ev w : message_of ev = None -> world_ok w -> post (emit listeners ev w) world_ok.
Proof. intros. apply listeners_keep; [done|by apply udp_log_quiet_ok]. Qed.

Lemma emit_error_ok m w : world_ok w -> post (emit_error listeners m w) world_ok.
Proof. intros Hw. by apply udp_emit_quiet_ok. Qed.

(** A descriptor for a peer that has none. *)
Lemma set_fd_ok d k w :
  valid (fd_ (pr w)) = false -> world_ok w -> 0 <= d -> same_record heard told (kn w) k ->
  world_ok (set_kn k (upd_pr (set_fd d) w)).
Proof.
  intros Hv Hw Hd Hs. eapply world_ok_step; [exact Hw|by apply same_above_quiet|].
  intros (Hl & Hr & Hi). split_and!; [done| |]; simpl.
  - intros Hz Hreads. destruct (Hr Hz Hreads). congruence.
  - unfold valid. lia.
Qed.

(** Non-blocking mode was refused: the descriptor is given up after the error
    listeners ran, and they may have made the peer read from it. *)
Lemma given_up_ok w :
  world_ok w ->
  let r := Net.close (fd_ (pr w)) (kn w) in world_ok (upd_hist log_refused (set_kn r.2 (upd_pr (set_fd r.1) w))).
Proof.
  intros Hw r. pose proof (close_same (fd_ (pr w)) (kn w)) as Hs. eapply world_ok_step; [exact Hw|by apply same_above_quiet|].
  intros (Hl & Hr & Hi). split_and!; [done|done|]. subst r. unfold Net.close. simpl.
  destruct (0 <=? fd_ (pr w)) eqn:E; simpl; [done|]. intros _. by apply Hi.
Qed.

Lemma open_socket_ok w :
  world_ok w -> post (open_socket listeners w) (fun r => world_ok r.2 /\ (r.1 = true -> valid (fd_ (pr r.2)) = true)).
Proof.
  intros Hw. unfold open_socket. destruct (valid (fd_ (pr w))) eqn:Hv; [done|].
  pose proof (open_same (family_ (pr w)) datagram (kn w)) as Ho.
  unfold Net.open in *. destruct (sys_socket _ _ _) as [r k] eqn:Es. destruct r as [d|e]; simpl in *.
  2: { eapply post_bind; [by apply emit_error_ok, udp_set_kn_ok|]. intros w1 Hw1. by split. }
  apply socket_nonneg in Es. unfold move_assign, Net.close. unfold valid in Hv. rewrite Hv. simpl.
  pose proof (set_nonblocking_same d k) as Hn. destruct (set_nonblocking d k) as [e k1]. simpl in *.
  pose proof (same_record_trans _ _ _ Ho Hn) as Hs. destruct (e =? errc_ok); simpl.
  - pose proof (set_reuse_addr_same d k1) as Hr. destruct (set_reuse_addr d k1) as [e' k2]. simpl in *.
    split; [|intros _; unfold valid; lia]. apply (set_fd_ok d k2 w); [done|done|done|]. by eapply same_record_trans.
  - eapply post_bind; [by apply emit_error_ok, (set_fd_ok d k1 w)|]. intros w1 Hw1.
    pose proof (given_up_ok w1 Hw1) as Hg. unfold Net.close in Hg. by destruct (0 <=? fd_ (pr w1)).
Qed.

Lemma bind_ok port addr w : world_ok w -> post (bind io_cb listeners port addr w) world_ok.
Proof.
  intros Hw. unfold bind. eapply post_bind; [by apply open_socket_ok|]. intros [ok w1] [Hw1 Hv]. simpl in *.
  destruct ok; cbn [negb]; [|done].
  match goal with |- context [Net.bind ?d ?a ?k] => pose proof (bind_same d a k) as Hs; destruct (Net.bind d a k) as [e k'] end.
  apply (udp_set_kn_ok _ w1 Hs) in Hw1. destruct (e =? errc_ok); cbn [negb]; [|by apply emit_error_ok].
  apply udp_emit_quiet_ok; [done|]. apply begin_reading_ok; [by apply read_back_ok|]. rewrite read_back_fd. auto.
Qed.

(** The kernel took the datagram. *)
Lemma sent_ok dgram dest n k w :
  send_to (fd_ (pr w)) dgram dest (kn w) = (n, k) -> (terror n =? errc_ok) = true ->
  world_ok w -> world_ok (upd_hist (log_departed (dgram, dest)) (set_kn k w)).
Proof.
  intros Es He Hw. apply send_to_record in Es as [Hh Ht]. rewrite He in Ht.
  eapply world_ok_step; [exact Hw| |done]. split_and!; [done|done|done|]. by exists [(dgram, dest)].
Qed.

(** The kernel did not. *)
Lemma unsent_ok dgram dest n k w :
  send_to (fd_ (pr w)) dgram dest (kn w) = (n, k) -> (terror n =? errc_ok) = false -> world_ok w -> world_ok (set_kn k w).
Proof.
  intros Es He Hw. apply send_to_record in Es as [Hh Ht]. rewrite He, app_nil_r in Ht. by apply udp_set_kn_ok.
Qed.

Lemma send_ok dgram port host w : world_ok w -> post (send io_cb listeners dgram port host w) (fun r => world_ok r.2).
Proof.
  intros Hw. unfold send.
  eapply (post_bind _ _ (fun r => world_ok r.2 /\ (r.1 = true -> valid (fd_ (pr r.2)) = true))).
  { destruct (valid (fd_ (pr w))) eqn:Hv; cbn [negb]; [done|]. by apply open_socket_ok. }
  intros [ok w1] [Hw1 Hv]. simpl in *. destruct ok; cbn [negb]; [|done].
  pose proof (resolve_one_same host port true (kn w1)) as Hs. destruct (resolve_one _ _ _ _) as [dest k].
  apply (udp_set_kn_ok k w1 Hs) in Hw1. destruct dest as [dest|].
  2: { eapply post_bind; [by apply emit_error_ok|]. by intros. }
  destruct (send_to _ _ _ _) as [n k1] eqn:Et. destruct (terror n =? errc_ok) eqn:He; cbn [negb].
  2: { eapply post_bind; [by apply emit_error_ok, (unsent_ok _ _ _ _ (set_kn k w1) Et)|]. by intros. }
  pose proof (sent_ok _ _ _ _ (set_kn k w1) Et He Hw1) as Hok. simpl in *.
  branch; [done|]. apply begin_reading_ok; [by apply read_back_ok|]. rewrite read_back_fd. auto.
Qed.

Lemma close_ok w : world_ok w -> post (close listeners w) world_ok.
Proof.
  intros Hw. unfold close. destruct (valid (fd_ (pr w))) eqn:Hv; cbn [negb]; [|done].
  pose proof (close_same (fd_ (pr w)) (kn w)) as Hs. unfold Net.close in *. unfold valid in Hv. simpl. rewrite Hv in *.
  apply udp_emit_quiet_ok; [done|]. by apply udp_released_ok.
Qed.

(** When the loop reads, [arriving d] is what the code above relies on while
    its listeners of datagram [d] run. *)
Variable arriving : bytes * socket_address -> world -> Prop.
Hypothesis above_arrives : forall d w w', arrives d w w' -> above w -> arriving d w'.
Hypothesis listeners_take : forall d a w,
  (length d <= recv_size)%nat -> peer_ok w -> arriving (d, a) w -> post (listeners (UMessage d a) w) world_ok.

Lemma drain_ok fuel : forall w, world_ok w -> post (drain listeners fuel w) world_ok.
Proof.
  induction fuel as [|fuel IH]; intros w Hw; [done|]. simpl.
  destruct (recv_from _ _ _) as [got k] eqn:Er. pose proof (recv_from_record _ _ _ _ _ Er) as (Ht & new & Hh & Hnew).
  unfold recv_from in Er. destruct (sys_recvfrom _ _ _) as [[[r data] sa] k1] eqn:Es.
  destruct r as [n|e]; injection Er as <- <-; simpl in *.
  - destruct Hnew as (sa' & -> & Hfrom). apply recvfrom_bounded in Es as [<- Hlen].
    replace (0 <=? Z.of_nat (length data)) with true by lia. cbn [andb]. rewrite Nat2Z.id, firstn_all, make_buffer_id.
    eapply post_bind; [|exact IH]. destruct Hw as [Hp Ha]. apply listeners_take; [done|exact Hp|].
    apply (above_arrives _ w); [|done]. split_and!; [done| | |done|done]; simpl.
    + unfold received_of. simpl. rewrite Hh, map_app. simpl. by rewrite Hfrom.
    + unfold delivered. simpl. by rewrite omap_app.
  - subst new. rewrite app_nil_r in Hh.
    assert (world_ok (set_kn k1 w)) as Hw1 by by apply udp_set_kn_ok.
    branch; [done|]. branch; [by apply IH|]. by apply emit_error_ok.
Qed.

End invariant.

(** ** Arbitrary applications *)

Inductive prog :=
  | PRet
  | PBind (port : Z) (addr : bytes) (k : prog)
  | PSend (dgram : bytes) (port : Z) (host : bytes) (k : bool -> prog)
  | PClose (k : prog).

Section react.
Context {K A D C : Type} `{Kernel K}.
Variable io_cb : C.

Fixpoint run_prog (listeners : udp_event -> world K A D C -> exec (world K A D C)) (p : prog)
    (w : world K A D C) : exec (world K A D C) :=
  match p with
  | PRet => Done w
  | PBind port addr k => do w := bind io_cb listeners port addr w in run_prog listeners k w
  | PSend dgram port host k => do (b, w) := send io_cb listeners dgram port host w in run_prog listeners (k b) w
  | PClose k => do w := close listeners w in run_prog listeners k w
  end.

Variable app : udp_event -> A -> A * prog.

Fixpoint react (depth : nat) (ev : udp_event) (w : world K A D C) : exec (world K A D C) :=
  match depth with
  | O => OutOfFuel
  | S depth' => let '(a, p) := app ev (env w) in run_prog (react depth') p (set_env a w)
  end.

Inductive stimulus := SReadable | SCall (p : prog).

Definition stimulate (fuel depth : nat) (s : stimulus) (w : world K A D C) : exec (world K A D C) :=
  match s with
  | SReadable => drain (react depth) fuel w
  | SCall p => run_prog (react depth) p w
  end.

Fixpoint stimulate_all (fuel depth : nat) (ss : list stimulus) (w : world K A D C) : exec (world K A D C) :=
  match ss with
  | [] => Done w
  | s :: ss' => do w := stimulate fuel depth s w in stimulate_all fuel depth ss' w
  end.

End react.

Definition created {K A D C} (family : bytes) (l : loop D C) (k : K) (a : A) : world K A D C :=
  mk_world (new_peer family) l k a no_history.

Definition anything {K A D C} (w : world K A D C) : Prop := True.

Section reachable.
Context {K A D C : Type} `{KL : KernelLaws K} `{KD : !DatagramKernel K}.
Variable io_cb : C.
Variable app : udp_event -> A -> A * prog.
Variable k0 : K.

(** Everything that came in since [k0] was announced and everything that went
    out was passed to [send]. *)
Definition recorded (w : world K A D C) : Prop :=
  received_of (kn w) = received_of k0 ++ delivered (hist w) /\
  told (kn w) = told k0 ++ map (addressed_to (K := K)) (departed (hist w)).

Abbreviation ok := (world_ok (K := K) (A := A) (D := D) io_cb recorded).

Lemma recorded_frame (w w' : world K A D C) : same_above w w' -> recorded w -> recorded w'.
Proof.
  intros (_ & Hh & Hd & out & Ht & Ho) [E1 E2]. unfold recorded, received_of in *. rewrite Hh, Hd, Ht, Ho, E2, map_app.
  by rewrite app_assoc.
Qed.

Lemma recorded_arrives d (w w' : world K A D C) : arrives d w w' -> recorded w -> recorded w'.
Proof. intros (_ & Hr & Hd & Ht & Ho) [E1 E2]. unfold recorded. by rewrite Hr, Hd, Ht, Ho, E1, E2, app_assoc. Qed.

Lemma udp_run_prog_ok listeners :
  (forall ev w, ok w -> post (listeners ev w) ok) -> forall p w, ok w -> post (run_prog io_cb listeners p w) ok.
Proof.
  intros Hlis. induction p as [|port addr k IH|d port host k IH|k IH]; intros w Hw; simpl; [done| | |].
  - eapply post_bind; [apply (bind_ok io_cb recorded recorded_frame); auto|]. apply IH.
  - eapply post_bind; [apply (send_ok io_cb recorded recorded_frame); auto|]. intros [b w1]. apply IH.
  - eapply post_bind; [apply (close_ok io_cb recorded recorded_frame); auto|]. apply IH.
Qed.

Lemma udp_react_ok depth : forall ev w, ok w -> post (react io_cb app depth ev w) ok.
Proof.
  induction depth as [|depth IH]; intros ev w Hw; [done|]. simpl. destruct (app ev (env w)) as [a p].
  by apply udp_run_prog_ok.
Qed.

Lemma udp_stimulate_all_ok fuel depth ss : forall w, ok w -> post (stimulate_all io_cb app fuel depth ss w) ok.
Proof.
  induction ss as [|s ss IH]; intros w Hw; [done|]. simpl. eapply post_bind; [|exact IH].
  destruct s as [|p]; simpl; [|apply udp_run_prog_ok; auto using udp_react_ok].
  apply (drain_ok io_cb recorded recorded_frame _ (fun ev w _ => udp_react_ok depth ev w) (fun _ => recorded) recorded_arrives); [|done].
  intros d a w1 _ Hp Ha. apply udp_react_ok. by split.
Qed.

End reachable.

Section delivery.
Context {K A D C : Type} `{KL : KernelLaws K} `{KD : !DatagramKernel K}.
Variable io_cb : C.
Variable app : udp_event -> A -> A * prog.

(** C33. Datagram delivery.  Whatever the application does in its listeners
    and whatever calls fail, a peer performs no undefined operation, announces
    exactly the datagrams that recvfrom returned, whole, in order and with
    their senders, and has handed to sendto exactly the datagrams for which
    [send] got that far.  While it is in reading mode it holds a descriptor
    that the loop watches for input, unless the kernel refused non-blocking
    mode for one of its descriptors ([refusal_leaves_reading]). *)
Theorem udp_delivery fuel depth ss family (l : loop D C) (k : K) (a : A) :
  watching_ok l ->
  stimulate_all io_cb app fuel depth ss (created family l k a) <> Undef /\
  (forall w, stimulate_all io_cb app fuel depth ss (created family l k a) = Done w ->
     received_of (kn w) = received_of k ++ delivered (hist w) /\
     told (kn w) = told k ++ map (addressed_to (K := K)) (departed (hist w)) /\
     (refused (hist w) = 0%nat -> reading_ (pr w) = true -> valid (fd_ (pr w)) = true /\ registered io_cb w)).
Proof.
  intros Hl. assert (world_ok io_cb (recorded k) (created (A := A) family l k a)) as Hw.
  { split; [by split_and!|]. split; unfold delivered; simpl; by rewrite app_nil_r. }
  pose proof (udp_stimulate_all_ok io_cb app k fuel depth ss _ Hw) as Hp.
  destruct (stimulate_all _ _ _ _ _ _) as [w| |]; [|done|done]. split; [done|].
  intros w' [= <-]. destruct Hp as [(_ & Hr & _) [Ha Ht]]. by split_and!.
Qed.

End delivery.

(** ** Functional behaviour *)

Section functional.
Context {K A D C : Type} `{KernelLaws K}.
Variable io_cb : C.
Variable listeners : udp_event -> world K A D C -> exec (world K A D C).
Implicit Types w : world K A D C.

Lemma open_socket_true w w' :
  open_socket listeners w = Done (true, w') -> hist w' = hist w /\ (valid (fd_ (pr w')) = true) /\ kn w' = kn w' /\
  reading_ (pr w') = reading_ (pr w) /\ lp w' = lp w.
Proof.
  unfold open_socket. destruct (valid (fd_ (pr w))) eqn:Hv; [by intros [= <-]|].
  unfold Net.open. destruct (sys_socket _ _ _) as [[d|e] k] eqn:Es; simpl.
  - apply socket_nonneg in Es. unfold move_assign. destruct (Net.close _ _) as [? k1]. simpl.
    destruct (set_nonblocking d k1) as [e k2]. destruct (e =? errc_ok); cbn [negb].
    + destruct (set_reuse_addr _ _) as [? k3]. intros [= <-]. simpl. split_and!; try done. unfold valid. lia.
    + intros (w1 & _ & E)%exec_bind_done. by destruct (Net.close _ _).
  - intros (w1 & _ & [=])%exec_bind_done.
Qed.

Lemma open_socket_told `{KD : !DatagramKernel K} (L : udp_event -> world K A D C -> exec (world K A D C)) w w' :
  open_socket L w = Done (true, w') -> told (kn w') = told (kn w).
Proof.
  unfold open_socket. destruct (valid (fd_ (pr w))); [by intros [= <-]|].
  pose proof (open_same (family_ (pr w)) datagram (kn w)) as [_ H1]. destruct (Net.open _ _ _) as [[d e] k]. simpl in H1.
  destruct (e =? errc_ok); cbn [negb].
  2: { intros (? & _ & [=])%exec_bind_done. }
  simpl. pose proof (move_assign_same (fd_ (pr w)) d k) as [_ H2]. destruct (move_assign _ _ _) as [d1 k1]. simpl in *.
  pose proof (set_nonblocking_same d1 k1) as [_ H3]. destruct (set_nonblocking _ _) as [e1 k2]. simpl in *.
  destruct (e1 =? errc_ok); cbn [negb].
  2: { intros (? & _ & E)%exec_bind_done. by destruct (Net.close _ _). }
  pose proof (set_reuse_addr_same d1 k2) as [_ H4]. destruct (set_reuse_addr _ _) as [? k3]. intros [= <-]. simpl in *. congruence.
Qed.

Lemma begin_reading_reads w : reading_ (pr (begin_reading io_cb w)) = true.
Proof. unfold begin_reading. by destruct (reading_ (pr w)) eqn:Hr. Qed.

(** A [send] that returns true has handed this one datagram, whole and
    once, to the kernel for an address the resolver gave for the host, has
    called no listener, and leaves the peer reading, so that a reply to a
    peer that was never bound is delivered too. *)
Theorem send_true_departed dgram port host w w' :
  send io_cb listeners dgram port host w = Done (true, w') ->
  exists dest k k', resolve_one host port true k = (Some dest, k') /\
    departed (hist w') = departed (hist w) ++ [(dgram, dest)] /\ trace (hist w') = trace (hist w) /\
    valid (fd_ (pr w')) = true /\ reading_ (pr w') = true.
Proof.
  unfold send. intros ([ok w1] & E1 & E)%exec_bind_done.
  assert (ok = true -> hist w1 = hist w /\ valid (fd_ (pr w1)) = true) as Hopen.
  { intros ->. destruct (valid (fd_ (pr w))) eqn:Hv; cbn [negb] in E1; [by injection E1 as <-|].
    apply open_socket_true in E1 as (? & ? & _). done. }
  destruct ok; cbn [negb] in E; [|done]. destruct (Hopen eq_refl) as [Hh Hv].
  destruct (resolve_one host port true (kn w1)) as [[dest|] k] eqn:Er.
  2: { apply exec_bind_done in E as (w2 & _ & [=]). }
  destruct (send_to _ _ _ _) as [n k1]. destruct (terror n =? errc_ok); cbn [negb] in E.
  2: { apply exec_bind_done in E as (w2 & _ & [=]). }
  exists dest, (kn w1), k. split; [done|]. injection E as <-. rewrite <- Hh. cbn [pr hist upd_hist set_kn].
  destruct (reading_ (pr w1)) eqn:Hr; cbn [negb]; [done|].
  rewrite begin_reading_reads. unfold begin_reading, read_back_local. simpl. destruct (local_endpoint _ _). simpl.
  by rewrite Hr.
Qed.

(** Whether [send] succeeds depends on the peer and the kernel only, and then
    it changes nothing but them, the watches of the loop and the history. *)
Lemma open_socket_true_any (L : udp_event -> world K A D C -> exec (world K A D C)) w w0 w' :
  open_socket L w = Done (true, w0) -> pr w' = pr w -> kn w' = kn w ->
  open_socket listeners w' = Done (true, mk_world (pr w0) (lp w') (kn w0) (env w') (hist w')).
Proof.
  intros E Ep Ek. unfold open_socket in *. rewrite Ep, Ek in *. destruct (valid (fd_ (pr w))) eqn:Hv.
  { injection E as <-. rewrite <- Ep, <- Ek. by destruct w'. }
  destruct (Net.open _ _ _) as [[d e] k]. destruct (e =? errc_ok); cbn [negb] in *.
  2: { apply exec_bind_done in E as (w1 & _ & [=]). }
  simpl in *. rewrite ?Ep. destruct (move_assign _ _ _) as [d1 k1]. simpl in *. rewrite ?Ep.
  destruct (set_nonblocking _ _) as [e1 k2]. destruct (e1 =? errc_ok); cbn [negb] in *.
  2: { apply exec_bind_done in E as (w1 & _ & E). by destruct (Net.close _ _). }
  destruct (set_reuse_addr _ _) as [? k3]. injection E as <-. unfold set_kn, upd_pr. simpl. by rewrite Ep.
Qed.

Lemma send_true_any `{KD : !DatagramKernel K} (L : udp_event -> world K A D C -> exec (world K A D C)) dgram port host w w0 w' :
  send io_cb L dgram port host w = Done (true, w0) -> pr w' = pr w -> kn w' = kn w ->
  exists w1 dest, send io_cb listeners dgram port host w' = Done (true, w1) /\
    env w1 = env w' /\ timers_ (lp w1) = timers_ (lp w') /\ next_timer_id_ (lp w1) = next_timer_id_ (lp w') /\
    told (kn w1) = told (kn w') ++ [(dgram, to_sockaddr (K := K) dest)].
Proof.
  unfold send. intros ([ok w1] & E1 & E)%exec_bind_done Ep Ek. destruct ok; cbn [negb] in E; [|done].
  assert (exists w2, (if negb (valid (fd_ (pr w'))) then open_socket listeners w' else Done (true, w')) = Done (true, w2) /\
    pr w2 = pr w1 /\ kn w2 = kn w1 /\ env w2 = env w' /\ lp w2 = lp w' /\ told (kn w2) = told (kn w')) as (w2 & -> & Ep2 & Ek2 & Ee & El & Et).
  { rewrite Ep. destruct (negb (valid (fd_ (pr w)))).
    - rewrite (open_socket_true_any _ _ _ _ E1 Ep Ek). eexists. split_and!; try done. simpl.
      rewrite Ek. exact (open_socket_told _ _ _ E1).
    - injection E1 as <-. by exists w'. }
  simpl. rewrite Ek2. pose proof (resolve_one_same host port true (kn w1)) as [_ Hs].
  destruct (resolve_one host port true (kn w1)) as [[dest|] k] eqn:Er.
  2: { apply exec_bind_done in E as (? & _ & [=]). }
  rewrite Ep2. simpl in *. destruct (send_to _ _ _ _) as [n k1] eqn:Es. apply send_to_record in Es as [_ Hto].
  destruct (terror n =? errc_ok); cbn [negb] in *.
  2: { apply exec_bind_done in E as (? & _ & [=]). }
  assert (told k1 = told (kn w') ++ [(dgram, to_sockaddr (K := K) dest)]) as Hk by (rewrite Hto, Hs; congruence).
  eexists _, dest. split; [done|]. destruct (reading_ (pr w1)) eqn:Hr; cbn [negb]; [simpl; by rewrite Ee, El|].
  unfold begin_reading, read_back_local. simpl. rewrite ?Ep2.
  pose proof (local_endpoint_same (fd_ (pr w1)) k1) as [_ Hl]. destruct (local_endpoint _ _) as [a k2]. simpl in *.
  rewrite Ep2, Hr. simpl. rewrite Hl, Ee, El. by split_and!.
Qed.

(** The last thing [send] does, if it starts reading at all, is to register the
    descriptor: until then the loop has nothing of this peer. *)
Definition published_last (before : gmap Z (watch_entry C)) w : Prop :=
  watches_ (lp w) = before \/
  exists w1, w = set_lp (watch (lp w1) (fd_ (pr w1)) interest.read io_cb) w1 /\ watches_ (lp w1) = before.

Lemma send_publishes dgram port host w :
  (forall ev w, message_of ev = None -> post (listeners ev w) (fun w' => watches_ (lp w') = watches_ (lp w))) ->
  post (send io_cb listeners dgram port host w) (fun r => published_last (watches_ (lp w)) r.2 /\
    (r.1 = false -> watches_ (lp r.2) = watches_ (lp w))).
Proof.
  intros Hlis.
  assert (forall m w1, watches_ (lp w1) = watches_ (lp w) ->
    post (emit_error listeners m w1) (fun w' => watches_ (lp w') = watches_ (lp w))) as Herr.
  { intros m w1 E1. unfold emit_error, emit. eapply post_mono; [by apply Hlis|]. simpl. intros w2 E2. congruence. }
  unfold send. eapply (post_bind _ _ (fun r => watches_ (lp r.2) = watches_ (lp w))).
  { destruct (negb (valid (fd_ (pr w)))); [|done]. unfold open_socket. destruct (valid _); [done|].
    destruct (Net.open _ _ _) as [[d e] k]. destruct (e =? errc_ok); cbn [negb].
    2: { eapply post_bind; [by apply Herr|]. by intros. }
    destruct (move_assign _ _ _) as [d1 k1]. destruct (set_nonblocking _ _) as [e1 k2]. destruct (e1 =? errc_ok); cbn [negb].
    - by destruct (set_reuse_addr _ _).
    - eapply post_bind; [by apply Herr|]. intros w1 Hw1. by destruct (Net.close _ _). }
  intros [ok w1] E1. simpl in E1. destruct ok; cbn [negb]; [|split; [by left|done]].
  destruct (resolve_one _ _ _ _) as [[dest|] k].
  2: { eapply post_bind; [by apply Herr|]. intros w2 E2. split; [by left|done]. }
  destruct (send_to _ _ _ _) as [n k1]. destruct (terror n =? errc_ok); cbn [negb].
  2: { eapply post_bind; [by apply Herr|]. intros w2 E2. split; [by left|done]. }
  simpl. split; [|done]. destruct (reading_ (pr w1)) eqn:Hr; cbn [negb]; [by left|]. right.
  unfold begin_reading, read_back_local. simpl. destruct (local_endpoint _ _) as [a k2]. simpl. rewrite Hr.
  by exists (upd_pr (set_reading true) (set_kn k2 (upd_pr (set_local a)
    (upd_hist (log_departed (dgram, dest)) (set_kn k1 (set_kn k w1)))))).
Qed.

(** Binding an IPv4 peer to a text that is not an address, a host name
    for instance, is not an error: it is the same as binding to every
    interface. *)
Theorem bind_unparsable_is_wildcard port host w :
  family_ (pr w) = inet ->
  inet_pton (K := K) AF_INET (c_str host) = None ->
  inet_pton (K := K) AF_INET (c_str any4) = Some (replicate 4 Byte.x00) ->
  (forall ev w, family_ (pr w) = inet -> post (listeners ev w) (fun w' => family_ (pr w') = inet)) ->
  bind io_cb listeners port host w = bind io_cb listeners port any4 w.
Proof.
  intros Hf Hbad Hany Hlis. unfold bind. rewrite Hf. simpl.
  assert (post (open_socket listeners w) (fun r => family_ (pr r.2) = inet)) as Hp.
  { unfold open_socket. destruct (valid _); [done|]. destruct (Net.open _ _ _) as [[d e] k].
    destruct (e =? errc_ok); cbn [negb].
    - unfold move_assign. destruct (Net.close _ _) as [? k1]. destruct (set_nonblocking _ _) as [e1 k2].
      destruct (e1 =? errc_ok); cbn [negb]; [by destruct (set_reuse_addr _ _)|].
      eapply post_bind; [by apply Hlis|]. intros w1 Hw1. by destruct (Net.close _ _).
    - eapply post_bind; [by apply Hlis|]. by intros. }
  destruct (open_socket listeners w) as [[ok w1]| |]; [|done|done]. simpl in *. rewrite Hp. simpl.
  destruct ok; [|done]. simpl. unfold Net.bind, to_sockaddr. simpl. by rewrite Hbad, Hany.
Qed.

(** Sending ends when the listeners return. *)
Lemma send_returns dgram port host w :
  (forall ev w, event_ok ev -> exists w', listeners ev w = Done w') ->
  exists b w', send io_cb listeners dgram port host w = Done (b, w').
Proof.
  intros Hlis.
  assert (forall m w, exists w', emit_error listeners m w = Done w') as Herr by (intros; by apply Hlis).
  assert (forall w, exists b w', open_socket listeners w = Done (b, w')) as Hopen.
  { intros w1. unfold open_socket. destruct (valid _); [by do 2 eexists|]. destruct (Net.open _ _ _) as [[d e] k]. branch.
    - destruct (move_assign _ _ _) as [d1 k1]. destruct (set_nonblocking _ _) as [e2 k2]. branch.
      + destruct (set_reuse_addr _ _). by do 2 eexists.
      + edestruct Herr as [w2 ->]. simpl. destruct (Net.close _ _). by do 2 eexists.
    - edestruct Herr as [w2 ->]. by do 2 eexists. }
  unfold send.
  assert (exists b w1, (if negb (valid (fd_ (pr w))) then open_socket listeners w else Done (true, w)) = Done (b, w1)) as (b & w1 & ->).
  { destruct (negb _); [apply Hopen|by do 2 eexists]. }
  simpl. destruct b; simpl; [|by do 2 eexists]. destruct (resolve_one _ _ _ _) as [[dest|] k].
  - destruct (send_to _ _ _ _) as [n k1]. branch; [by do 2 eexists|]. edestruct Herr as [w2 ->]. by do 2 eexists.
  - edestruct Herr as [w2 ->]. by do 2 eexists.
Qed.

End functional.

(** ** Termination *)

Section termination.
Context {K A D C : Type} `{KL : KernelLaws K} `{KP : !KernelProgress K}.
Variable P : world K A D C -> Prop.
Variable listeners : udp_event -> world K A D C -> exec (world K A D C).
Implicit Types w : world K A D C.

Hypothesis P_frame : forall w w', pr w' = pr w -> lp w' = lp w -> env w' = env w -> P w -> P w'.
Hypothesis listeners_return : forall ev w, event_ok ev -> P w ->
  exists w', listeners ev w = Done w' /\ P w' /\ (work (kn w') <= work (kn w))%nat.

Lemma emit_returns ev w :
  event_ok ev -> P w -> exists w', emit listeners ev w = Done w' /\ P w' /\ (work (kn w') <= work (kn w))%nat.
Proof. intros Hev Hw. apply (listeners_return ev (upd_hist (log_event ev) w)); [done|]. by apply (P_frame w). Qed.

(** Reading ends: if the listeners return without creating kernel work,
    [drain] returns after at most as many iterations as there are pending
    datagrams and interruptions. *)
Theorem drain_returns fuel : forall w,
  P w -> (work (kn w) < fuel)%nat ->
  exists w', drain listeners fuel w = Done w' /\ P w' /\ (work (kn w') <= work (kn w))%nat.
Proof.
  induction fuel as [|fuel IH]; intros w Hw Hfuel; [lia|]. simpl. unfold recv_from.
  destruct (sys_recvfrom _ _ _) as [[[r data] sa] k] eqn:Er. destruct (recvfrom_work _ _ _ _ _ _ _ Er) as [Hwk Hin].
  assert (P (set_kn k w)) as Hwk0 by by apply (P_frame w).
  destruct r as [n|e]; simpl.
  - specialize (Hin eq_refl). apply recvfrom_bounded in Er as [_ Hlen]. branch; cbn [andb].
    + rewrite make_buffer_id. set (d := take _ _). assert (event_ok (UMessage d (from_sockaddr sa))) as Hd.
      { simpl. unfold d. rewrite length_take. lia. }
      destruct (emit_returns (UMessage d (from_sockaddr sa)) (set_kn k w))
        as (w1 & -> & Hw1 & Hwk1); [done|by apply (P_frame w)|]. simpl in *.
      destruct (IH w1 Hw1) as (w2 & -> & ? & ?); [lia|]. exists w2. split_and!; [done|done|lia].
    + destruct (emit_returns (UError (describe (K := K) errc_ok (str "recvfrom"))) _ I Hwk0) as (w1 & E1 & ? & ?).
      exists w1. split_and!; [exact E1|done|simpl in *; lia].
  - branch; [by exists (set_kn k w)|]. branch.
    + assert (work k < work (kn w))%nat by (apply Hin; simpl; by rewrite G0).
      destruct (IH (set_kn k w)) as (w2 & -> & ? & ?); [done|simpl; lia|].
      exists w2. split_and!; [done|done|simpl in *; lia].
    + destruct (emit_returns (UError (describe (K := K) (Zpos e) (str "recvfrom"))) _ I Hwk0) as (w1 & E1 & ? & ?).
      exists w1. split_and!; [exact E1|done|simpl in *; lia].
Qed.

End termination.

Module examples.

Abbreviation kernel_state := (Tap.tapped Scripted.script).
Abbreviation W := (world kernel_state unit unit unit).

Definition quiet (ev : udp_event) (a : unit) : unit * prog := (a, PRet).

(** Answers every datagram with its own content. *)
Definition reflect (ev : udp_event) (a : unit) : unit * prog :=
  match ev with
  | UMessage b from => (a, PSend b (port from) (Net.address from) (fun _ => PRet))
  | _ => (a, PRet)
  end.

Definition remote := mk_sockaddr AF_INET (htons 9000) (str "abcd").
Definition script := Scripted.set_names
  (Scripted.set_sends (Scripted.set_recvs Scripted.blank [(SysOk 0, str "ping", remote)]) [SysOk 100])
  [(str "abcd", remote)].
Definition kernel : kernel_state := Tap.tap script.

Definition start : W := created (str "udp4") new_loop kernel tt.
Definition reflect_run := stimulate_all tt reflect 20 5 [SCall (PBind 0 any4 PRet); SReadable] start.
Definition reflect_end : W := match reflect_run with Done w => w | _ => start end.

Lemma udp_delivery_witness :
  reflect_run = Done reflect_end /\ delivered (hist reflect_end) = [(str "ping", from_sockaddr (K := kernel_state) remote)] /\
  received_of (kn reflect_end) = received_of kernel ++ delivered (hist reflect_end) /\
  told (kn reflect_end) = told kernel ++ map (addressed_to (K := kernel_state)) (departed (hist reflect_end)) /\
  (refused (hist reflect_end) = 0%nat -> reading_ (pr reflect_end) = true ->
   valid (fd_ (pr reflect_end)) = true /\ registered tt reflect_end).
Proof.
  split; [by vm_compute|]. split; [by vm_compute|].
  refine (proj2 (udp_delivery tt reflect 20 5 [SCall (PBind 0 any4 PRet); SReadable]
    (str "udp4") new_loop kernel tt _) reflect_end _).
  - by split.
  - by vm_compute.
Defined.

(** An application that binds again when the peer reports an error. *)
Definition insists (ev : udp_event) (a : unit) : unit * prog :=
  match ev with
  | UError _ => (a, PBind 0 any4 PRet)
  | _ => (a, PRet)
  end.

(** When fcntl fails in [open_socket], the error listeners run before the
    descriptor is given up, with the peer still holding it: one that binds
    makes the peer read from it, and then it is closed.  The peer stays in
    reading mode without a descriptor, the closed number stays registered with
    the loop, and a later [bind] opens a descriptor that nobody watches. *)
Definition refusing : W := created (str "udp4") new_loop (Tap.tap (Scripted.set_fcntls script [SysErr 9])) tt.

Theorem refusal_leaves_reading :
  exists w1 w2, stimulate tt insists 20 5 (SCall (PBind 0 any4 PRet)) refusing = Done w1 /\
    fd_ (pr w1) = invalid_handle /\ reading_ (pr w1) = true /\ watches_ (lp w1) !! 3 = Some (mk_watch_entry interest.read tt) /\
    Scripted.closed_fds (Tap.kernel (kn w1)) = [3] /\
    stimulate tt insists 20 5 (SCall (PBind 0 any4 PRet)) w1 = Done w2 /\
    fd_ (pr w2) = 4 /\ watches_ (lp w2) !! 4 = None.
Proof.
  pose (w1 := match stimulate tt insists 20 5 (SCall (PBind 0 any4 PRet)) refusing with Done w => w | _ => refusing end).
  pose (w2 := match stimulate tt insists 20 5 (SCall (PBind 0 any4 PRet)) w1 with Done w => w | _ => w1 end).
  exists w1, w2. by vm_compute.
Qed.

Definition send_run := send tt (react tt quiet 1) (str "hello") 9000 (str "abcd") start.
Definition send_end : W := match send_run with Done (_, w) => w | _ => start end.

Lemma send_true_departed_witness :
  exists dest k k', resolve_one (K := kernel_state) (str "abcd") 9000 true k = (Some dest, k') /\
    departed (hist send_end) = departed (hist start) ++ [(str "hello", dest)] /\ trace (hist send_end) = trace (hist start) /\
    valid (fd_ (pr send_end)) = true /\ reading_ (pr send_end) = true.
Proof.
  apply (send_true_departed tt (react tt quiet 1) (str "hello") 9000 (str "abcd") start send_end).
  by vm_compute.
Defined.

Lemma bind_unparsable_is_wildcard_witness :
  bind tt (react tt quiet 1) 53 (str "localhost") start = bind tt (react tt quiet 1) 53 any4 start.
Proof.
  apply (bind_unparsable_is_wildcard tt (react tt quiet 1)).
  - done.
  - by vm_compute.
  - by vm_compute.
  - intros ev w Hf. by destruct w.
Defined.

Lemma drain_returns_witness :
  exists w', drain (react tt quiet 1) 20 start = Done w' /\ anything w' /\ (work (kn w') <= work (kn start))%nat.
Proof.
  apply (drain_returns anything (react tt quiet 1)).
  - done.
  - intros ev w _ _. destruct w. by eexists.
  - done.
  - vm_compute. lia.
Defined.

End examples.
