(* ===== verification/DnsClient.v ===== *)
(** * [protocol::dns::client]

    The stub resolver of protocol/dns/client.hpp: queries matched to replies
    by the 16-bit message id, each with a timeout.  The client is the code
    above a [udp::peer]; its state is the [env] of the peer's world, and the
    deferred functions of the loop are its expiry closures, represented by the
    id they capture. *)

From S2P Require Import Prelude EventLoop Net Header Message UdpPeer.
#[local] Open Scope Z_scope.

Record pending (H : Type) := mk_pending { handler : H; timer : Z }.
Arguments mk_pending {H}.
Arguments handler {H}.
Arguments timer {H}.

(** The data members; [rng_] is the state of the random engine.  [asked],
    [answered] and [lost] record what happened to each query: handlers passed
    to [query], handlers called and with what, and handlers [emplace] did not
    keep.  [app] is the state of the application. *)
Record client (H R A : Type) := mk_client {
  resolver_host_ : bytes;
  resolver_port_ : Z;
  rng_ : R;
  timeout_ : Z;
  pending_ : gmap Z (pending H);
  asked : list H;
  answered : list (H * option message);
  lost : list H;
  app : A
}.
Arguments mk_client {H R A}.
Arguments resolver_host_ {H R A}.
Arguments resolver_port_ {H R A}.
Arguments rng_ {H R A}.
Arguments timeout_ {H R A}.
Arguments pending_ {H R A}.
Arguments asked {H R A}.
Arguments answered {H R A}.
Arguments lost {H R A}.
Arguments app {H R A}.

Section updates.
Context {H R A : Type}.
Implicit Types c : client H R A.

Definition new_client (host : bytes) (port : Z) (r : R) (a : A) : client H R A :=
  mk_client host port r 5000 ∅ [] [] [] a.

(** [set_timeout], in milliseconds. *)
Definition set_timeout_ms (t : Z) c : client H R A :=
  mk_client (resolver_host_ c) (resolver_port_ c) (rng_ c) t (pending_ c) (asked c) (answered c) (lost c) (app c).
Definition set_rng (r : R) c : client H R A :=
  mk_client (resolver_host_ c) (resolver_port_ c) r (timeout_ c) (pending_ c) (asked c) (answered c) (lost c) (app c).
Definition set_pending (p : gmap Z (pending H)) c : client H R A :=
  mk_client (resolver_host_ c) (resolver_port_ c) (rng_ c) (timeout_ c) p (asked c) (answered c) (lost c) (app c).
Definition set_app (a : A) c : client H R A :=
  mk_client (resolver_host_ c) (resolver_port_ c) (rng_ c) (timeout_ c) (pending_ c) (asked c) (answered c) (lost c) a.
Definition log_asked (h : H) c : client H R A :=
  mk_client (resolver_host_ c) (resolver_port_ c) (rng_ c) (timeout_ c) (pending_ c) (asked c ++ [h]) (answered c) (lost c) (app c).
Definition log_answered (h : H) (m : option message) c : client H R A :=
  mk_client (resolver_host_ c) (resolver_port_ c) (rng_ c) (timeout_ c) (pending_ c) (asked c) (answered c ++ [(h, m)]) (lost c) (app c).
Definition log_lost (h : H) c : client H R A :=
  mk_client (resolver_host_ c) (resolver_port_ c) (rng_ c) (timeout_ c) (pending_ c) (asked c) (answered c) (lost c ++ [h]) (app c).

Definition outstanding c : nat := size (pending_ c).

(** [pending_.emplace(id, ...)]: nothing happens if the key is present. *)
Definition emplace (id : Z) (p : pending H) c : client H R A :=
  match pending_ c !! id with
  | Some _ => log_lost (handler p) c
  | None => set_pending (<[id := p]> (pending_ c)) c
  end.

End updates.

(** Handlers and listeners of the application may ask again. *)
Inductive prog (H : Type) :=
  | PRet
  | PQuery (name : bytes) (type : Z) (h : H) (k : prog H)
  | PTimeout (ms : Z) (k : prog H).
Arguments PRet {H}.
Arguments PQuery {H}.
Arguments PTimeout {H}.

Section client.
Context {K H R A C : Type} `{Kernel K}.
Abbreviation world := (world K (client H R A) Z C).
Implicit Types w : world.

(** The random engine behind [std::uniform_int_distribution], the clock that
    [set_timeout] reads, the loop closure of the peer, the answer handlers and
    the error listeners. *)
Variable draw : R -> Z * R.
Variable now : world -> Z.
Variable io_cb : C.
Variable call_handler : H -> option message -> world -> exec world.
Variable on_error : bytes -> world -> exec world.

Definition upd_env (f : client H R A -> client H R A) w : world := set_env (f (env w)) w.

Definition next_id w : Z * world :=
  let '(x, r) := draw (rng_ (env w)) in
  (u16 x, upd_env (set_rng r) w).

Definition answer (h : H) (m : option message) w : exec world := call_handler h m (upd_env (log_answered h m) w).

Definition resolve (id : Z) (m : option message) w : exec world :=
  match pending_ (env w) !! id with
  | None => Done w
  | Some entry =>
      let w := upd_env (set_pending (delete id (pending_ (env w)))) w in
      let w := set_lp (clear_timeout (lp w) (timer entry)) w in
      answer (handler entry) m w
  end.

Definition expire (id : Z) w : exec world := resolve id None w.

Definition malformed : bytes := str "received a malformed DNS response".

(** [wire_up]: the listeners the client installs on its peer. *)
Definition on_peer (ev : udp_event) w : exec world :=
  match ev with
  | UMessage dgram _ =>
      do parsed := parse dgram in
      match parsed with
      | None => on_error malformed w
      | Some m => resolve (id (header_ m)) (Some m) w
      end
  | UError m => on_error m w
  | _ => Done w
  end.

Definition request_of (id type : Z) (name : bytes) : message :=
  mk_message (mk_header id false opcode.query false false true false rcode.no_error 0 0 0 0)
    [mk_question name type record_class.in_].

Definition query (name : bytes) (type : Z) (on_answer : H) w : exec world :=
  let '(id, w) := next_id w in
  do wire := serialize (request_of id type name) in
  match wire with
  | None =>
      do w := on_error (str "invalid question name: " ++ name) w in
      answer on_answer None (upd_env (log_asked on_answer) w)
  | Some wire =>
      let '(timer, l) := set_timeout (lp w) (now w) (timeout_ (env w)) id in
      let w := set_lp l w in
      let w := upd_env (emplace id (mk_pending on_answer timer)) (upd_env (log_asked on_answer) w) in
      do (ok, w) := send io_cb on_peer wire (resolver_port_ (env w)) (resolver_host_ (env w)) w in
      if negb ok then resolve id None w else Done w
  end.

(** The timers of one turn of the loop: [fire_due_timers] with the closures'
    bodies. *)
Fixpoint expire_all (due : list (EventLoop.timer Z)) w : exec world :=
  match due with
  | [] => Done w
  | t :: due' => do w := expire (fn t) w in expire_all due' w
  end.

Definition fire (at_ : Z) w : exec world :=
  let '(due, rest) := take_due at_ (timers_ (lp w)) in
  expire_all due (set_lp (set_timers (lp w) (poller_ (lp w)) rest (next_timer_id_ (lp w))) w).

(** ** Application programs *)

Fixpoint run_prog (p : prog H) w : exec world :=
  match p with
  | PRet => Done w
  | PQuery name type h k => do w := query name type h w in run_prog k w
  | PTimeout ms k => run_prog k (upd_env (set_timeout_ms ms) w)
  end.

End client.

Section react.
Context {K H R A C : Type} `{Kernel K}.
Abbreviation world := (world K (client H R A) Z C).
Variable draw : R -> Z * R.
Variable now : world -> Z.
Variable io_cb : C.
Variable handle : H -> option message -> A -> A * prog H.
Variable complain : bytes -> A -> A * prog H.

Definition react_with (react : prog H -> world -> exec world) (ap : A * prog H) (w : world) : exec world :=
  react ap.2 (upd_env (set_app ap.1) w).

Fixpoint react (depth : nat) (p : prog H) (w : world) : exec world :=
  match depth with
  | O => OutOfFuel
  | S depth' =>
      run_prog draw now io_cb
        (fun h m w => react_with (react depth') (handle h m (app (env w))) w)
        (fun m w => react_with (react depth') (complain m (app (env w))) w) p w
  end.

Definition call_handler (depth : nat) (h : H) (m : option message) (w : world) : exec world :=
  react_with (react depth) (handle h m (app (env w))) w.
Definition on_error (depth : nat) (m : bytes) (w : world) : exec world :=
  react_with (react depth) (complain m (app (env w))) w.

(** The peer is readable, timers are due, or the application asks. *)
Inductive stimulus := SReadable | SFire (at_ : Z) | SCall (p : prog H).

Definition stimulate (fuel depth : nat) (s : stimulus) (w : world) : exec world :=
  match s with
  | SReadable => drain (on_peer (call_handler depth) (on_error depth)) fuel w
  | SFire at_ => fire (call_handler depth) at_ w
  | SCall p => react depth p w
  end.

Fixpoint stimulate_all (fuel depth : nat) (ss : list stimulus) (w : world) : exec world :=
  match ss with
  | [] => Done w
  | s :: ss' => do w := stimulate fuel depth s w in stimulate_all fuel depth ss' w
  end.

End react.

(** ** Invariant *)

Definition handlers {H} (p : gmap Z (pending H)) : list H := (fun e => handler e.2) <$> map_to_list p.

Lemma handlers_insert {H} (p : gmap Z (pending H)) id e :
  p !! id = None -> handlers (<[id := e]> p) ≡ₚ handler e :: handlers p.
Proof. intros Hn. unfold handlers. by rewrite map_to_list_insert. Qed.

Lemma handlers_delete {H} (p : gmap Z (pending H)) id e :
  p !! id = Some e -> handlers p ≡ₚ handler e :: handlers (delete id p).
Proof. intros Hs. unfold handlers. rewrite <- (map_to_list_delete p id e Hs). done. Qed.

(** Every handler passed to [query] has been called, is waiting, or was
    dropped by [emplace]. *)
Definition accounted {H R A} (c : client H R A) : Prop :=
  asked c ≡ₚ (answered c).*1 ++ handlers (pending_ c) ++ lost c.

Section invariant.
Context {K H R A C : Type} `{KL : KernelLaws K} `{KD : !DatagramKernel K}.
Abbreviation world := (world K (client H R A) Z C).
Implicit Types w : world.
Implicit Types firing : list (EventLoop.timer Z).

(** Every waiting query has its own timer running, or taken out of the list
    to be fired in this turn ([firing]). *)
Definition armed firing w : Prop :=
  forall id e, pending_ (env w) !! id = Some e ->
  exists t, t ∈ timers_ (lp w) ++ firing /\ timer_id t = timer e /\ fn t = id.

Definition ids_ok firing w : Prop :=
  NoDup (timer_id <$> timers_ (lp w) ++ firing) /\
  Forall (fun t => timer_id t < next_timer_id_ (lp w)) (timers_ (lp w) ++ firing) /\
  0 <= next_timer_id_ (lp w) <= 1 + Z.of_nat (length (asked (env w))).

(** Timer ids are 64 bits wide. *)
Definition few w : Prop := Z.of_nat (length (asked (env w))) < 2 ^ 64 - 2.

Definition client_ok firing w : Prop := accounted (env w) /\ (few w -> armed firing w /\ ids_ok firing w).

Lemma client_ok_frame firing w w' : same_above w w' -> client_ok firing w -> client_ok firing w'.
Proof. intros [(He & Ht & Hn) _]. unfold client_ok, few, armed, ids_ok. by rewrite He, Ht, Hn. Qed.

Lemma client_ok_arrives firing d w w' : arrives d w w' -> client_ok firing w -> client_ok firing w'.
Proof. intros [(He & Ht & Hn) _]. unfold client_ok, few, armed, ids_ok. by rewrite He, Ht, Hn. Qed.

(** *** Registering and removing a query *)

Lemma accounted_register (c : client H R A) id h t :
  accounted c -> accounted (emplace id (mk_pending h t) (log_asked h c)).
Proof.
  unfold accounted, emplace. intros Ha. simpl. destruct (pending_ c !! id) eqn:E; simpl; rewrite Ha.
  - by rewrite <- !app_assoc.
  - rewrite handlers_insert by done. simpl.
    rewrite <- Permutation_cons_append, Permutation_middle. done.
Qed.

Lemma emplace_lookup (c : client H R A) id id' h t e :
  pending_ (emplace id (mk_pending h t) (log_asked h c)) !! id' = Some e ->
  pending_ c !! id' = Some e \/ id' = id /\ e = mk_pending h t.
Proof.
  unfold emplace. simpl. destruct (pending_ c !! id) eqn:E; simpl; [by left|].
  rewrite lookup_insert_Some. naive_solver.
Qed.

Lemma emplace_asked (c : client H R A) id h t : asked (emplace id (mk_pending h t) (log_asked h c)) = asked c ++ [h].
Proof. unfold emplace. simpl. by destruct (pending_ c !! id). Qed.

Lemma register_ok firing w (tm now delay id : Z) l h :
  set_timeout (lp w) now delay id = (tm, l) -> client_ok firing w ->
  client_ok firing (upd_env (emplace id (mk_pending h tm)) (upd_env (log_asked h) (set_lp l w))).
Proof.
  unfold set_timeout. intros [= <- <-] [Ha Hrest]. split; [by apply accounted_register|].
  unfold few. simpl. rewrite emplace_asked, length_app. simpl. intros Hfew.
  destruct Hrest as (Harm & Hnd & Hlt & Hn); [unfold few; lia|]. split.
  - intros id' e Hlook. simpl in Hlook. simpl. apply emplace_lookup in Hlook as [Hold|[-> ->]].
    + destruct (Harm id' e Hold) as (t & Hin & Ht). exists t. split; [|done]. set_solver.
    + eexists. split_and!; [apply elem_of_app; left; apply elem_of_app; right; by apply list_elem_of_singleton|done|done].
  - unfold ids_ok. simpl. rewrite emplace_asked, length_app. simpl. rewrite u64_small by lia.
    rewrite <- app_assoc. simpl. rewrite !fmap_app in *. simpl. split_and!; [|..|lia|lia].
    + rewrite <- Permutation_middle. apply NoDup_cons. split; [|done].
      rewrite <- fmap_app, list_elem_of_fmap. intros (t & Ht & Hin). rewrite Forall_forall in Hlt.
      specialize (Hlt t Hin). lia.
    + rewrite <- Permutation_middle. apply Forall_cons. split; [simpl; lia|].
      eapply Forall_impl; [exact Hlt|]. simpl. lia.
Qed.

Lemma remove_ok firing w id e m :
  pending_ (env w) !! id = Some e -> client_ok firing w ->
  client_ok firing (upd_env (log_answered (handler e) m)
    (set_lp (clear_timeout (lp w) (timer e)) (upd_env (set_pending (delete id (pending_ (env w)))) w))).
Proof.
  intros He [Ha Hrest]. split.
  - unfold accounted in *. simpl. rewrite Ha, (handlers_delete _ _ _ He), fmap_app. simpl.
    rewrite <- app_assoc. done.
  - intros Hfew. destruct (Hrest Hfew) as (Harm & Hnd & Hlt & Hn). split; [|split; [|split; [|exact Hn]]].
    + intros id' e' He'. simpl in He'. apply lookup_delete_Some in He' as [Hne He'].
      destruct (Harm id' e' He') as (t & Hin & Ht & Hfn). exists t. split; [|done].
      apply elem_of_app in Hin as [Hin|Hin]; apply elem_of_app; [left|by right]. simpl.
      apply list_elem_of_filter. split; [|done]. intros Heq.
      destruct (Harm id e He) as (t0 & Hin0 & Ht0 & Hfn0).
      assert (t = t0) as ->; [|congruence].
      eapply (NoDup_fmap_inj timer_id); [exact Hnd|set_solver|done|congruence].
    + simpl. eapply sublist_NoDup; [exact Hnd|]. apply fmap_sublist. apply sublist_app; [apply sublist_filter|done].
    + simpl. apply Forall_app in Hlt as [Hlt1 Hlt2]. apply Forall_app. split; [by apply Forall_filter_keep|done].
Qed.

Lemma fired_ok firing w t :
  pending_ (env w) !! fn t = None -> client_ok (t :: firing) w -> client_ok firing w.
Proof.
  intros Hnone [Ha Hrest]. split; [done|]. intros Hfew. destruct (Hrest Hfew) as (Harm & Hnd & Hlt & Hn).
  split; [|split; [|split; [|exact Hn]]].
  - intros id e He. destruct (Harm id e He) as (t' & Hin & Ht & Hfn). exists t'. split; [|done].
    apply elem_of_app in Hin as [Hin|[->|Hin]%elem_of_cons]; [set_solver|congruence|set_solver].
  - rewrite <- Permutation_middle in Hnd. by apply NoDup_cons in Hnd as [_ Hnd].
  - rewrite <- Permutation_middle in Hlt. by apply Forall_cons in Hlt as [_ Hlt].
Qed.

End invariant.

Section operations.
Context {K H R A C : Type} `{KL : KernelLaws K} `{KD : !DatagramKernel K}.
Abbreviation world := (world K (client H R A) Z C).
Implicit Types w : world.
Variable draw : R -> Z * R.
Variable now : world -> Z.
Variable io_cb : C.

Definition ok (firing : list (EventLoop.timer Z)) w : Prop := world_ok io_cb (client_ok firing) w.

(** The peer is indifferent to what the client does with its own state and
    with timers. *)
Lemma peer_ok_above w w' :
  peer_ok io_cb w -> pr w' = pr w -> hist w' = hist w -> watching_ok (lp w') -> watches_ (lp w') = watches_ (lp w) ->
  peer_ok io_cb w'.
Proof.
  intros (_ & Hr & Hi) Ep Eh Hl Ew. unfold peer_ok, registered. rewrite Ep, Eh, Ew. by split_and!.
Qed.

Variable call_handler : H -> option message -> world -> exec world.
Variable on_error : bytes -> world -> exec world.
Hypothesis handler_keeps : forall firing h m w, ok firing w -> post (call_handler h m w) (ok firing).
Hypothesis error_keeps : forall firing m w, ok firing w -> post (on_error m w) (ok firing).

Lemma resolve_ok firing id m w : ok firing w -> post (resolve call_handler id m w) (ok firing).
Proof.
  intros [Hp Hc]. unfold resolve. destruct (pending_ (env w) !! id) as [e|] eqn:He; [|done].
  apply handler_keeps. split; [|exact (remove_ok firing w id e m He Hc)]. apply (peer_ok_above w); [done|done|done| |done].
  apply (clear_timeout_watching (lp w)), Hp.
Qed.

Lemma expire_ok firing t w : ok (t :: firing) w -> post (expire call_handler (fn t) w) (ok firing).
Proof.
  intros [Hp Hc]. unfold expire, resolve. destruct (pending_ (env w) !! fn t) as [e|] eqn:He.
  - apply handler_keeps. split.
    + apply (peer_ok_above w); [done|done|done| |done]. apply (clear_timeout_watching (lp w)), Hp.
    + apply (fired_ok _ _ t); [|exact (remove_ok _ w (fn t) e None He Hc)]. simpl. apply lookup_delete_eq.
  - split; [done|]. by apply (fired_ok _ _ t).
Qed.

Lemma expire_all_ok due : forall firing w, ok (due ++ firing) w -> post (expire_all call_handler due w) (ok firing).
Proof.
  induction due as [|t due IH]; intros firing w Hw; [done|]. simpl.
  eapply post_bind; [by apply expire_ok|]. intros w1 Hw1. by apply IH.
Qed.

Lemma take_due_perm (at_ : Z) (ts : list (EventLoop.timer Z)) : ts ≡ₚ (take_due at_ ts).2 ++ (take_due at_ ts).1.
Proof.
  induction ts as [|t ts IH]; [done|]. simpl. destruct (take_due at_ ts) as [due rest]. simpl in *.
  branch; simpl; rewrite IH; [|done]. by rewrite Permutation_middle.
Qed.

Lemma fire_ok at_ w : ok [] w -> post (fire call_handler at_ w) (ok []).
Proof.
  intros [Hp [Ha Hrest]]. unfold fire. pose proof (take_due_perm at_ (timers_ (lp w))) as Hperm.
  destruct (take_due at_ (timers_ (lp w))) as [due rest]. simpl in Hperm.
  apply expire_all_ok. rewrite app_nil_r. split; [apply (peer_ok_above w); [done|done|done|apply Hp|done]|].
  split; [done|]. intros Hfew. destruct (Hrest Hfew) as (Harm & Hnd & Hlt & Hn). rewrite app_nil_r in Hnd, Hlt.
  split; [|split; [|split; [|exact Hn]]].
  - intros id e He. destruct (Harm id e He) as (t & Hin & Ht). exists t. split; [|done]. simpl.
    rewrite app_nil_r in Hin. by rewrite <- Hperm.
  - simpl. by rewrite <- Hperm.
  - simpl. by rewrite <- Hperm.
Qed.

Lemma on_peer_ok firing ev w :
  event_ok ev -> ok firing w -> post (on_peer call_handler on_error ev w) (ok firing).
Proof.
  intros Hev Hw. destruct ev as [|d a|m|]; simpl; [done| |by apply error_keeps|done].
  destruct (parse_done d) as (o & -> & _).
  { simpl in Hev. unfold Reader.buf_ok, recv_size in *. lia. }
  simpl. destruct o; [by apply resolve_ok|by apply error_keeps].
Qed.

Lemma send_keeps firing d p h w :
  ok firing w -> post (send io_cb (on_peer call_handler on_error) d p h w) (fun r => ok firing r.2).
Proof.
  intros Hw. apply (send_ok io_cb (client_ok firing)); [apply client_ok_frame| |done].
  intros ev w1 Hev. apply on_peer_ok. by destruct ev.
Qed.

Lemma query_ok firing name type h w :
  ok firing w -> post (query draw now io_cb call_handler on_error name type h w) (ok firing).
Proof.
  intros [Hp Hc]. unfold query, next_id. destruct (draw _) as [x r].
  set (w1 := upd_env (set_rng r) w). assert (ok firing w1) as Hw1 by (split; done).
  destruct (serialize_total (request_of (u16 x) type name)) as [o ->]. simpl.
  destruct o as [wire|].
  2: { eapply post_bind; [by apply error_keeps|]. intros w2 [Hp2 [Ha2 Hrest2]]. apply handler_keeps. split; [done|].
       split.
       - unfold accounted in *. simpl. rewrite Ha2, fmap_app. simpl. rewrite <- Permutation_cons_append.
         rewrite <- app_assoc. simpl. apply Permutation_middle.
       - intros Hfew. unfold few in *. simpl in Hfew. rewrite length_app in Hfew. simpl in Hfew.
         destruct Hrest2 as (Harm & Hnd & Hlt & Hn); [lia|]. split; [done|]. split_and!; [done|done|apply Hn|].
         simpl. rewrite length_app. simpl. lia. }
  pose proof (set_timeout_watching (lp w1) (now w1) (timeout_ (env w1)) (u16 x) (proj1 Hp)) as Hl.
  pose proof (register_ok firing w1 _ (now w1) (timeout_ (env w1)) (u16 x) _ h eq_refl Hc) as Hreg.
  eapply post_bind; [apply (send_keeps firing)|].
  - split; [by apply (peer_ok_above w)|exact Hreg].
  - intros [b w2] Hw2. simpl in Hw2. simpl. branch; [done|]. by apply resolve_ok.
Qed.

End operations.

Section reachable.
Context {K H R A C : Type} `{KL : KernelLaws K} `{KD : !DatagramKernel K}.
Abbreviation world := (world K (client H R A) Z C).
Implicit Types w : world.
Variable draw : R -> Z * R.
Variable now : world -> Z.
Variable io_cb : C.
Variable handle : H -> option message -> A -> A * prog H.
Variable complain : bytes -> A -> A * prog H.

Lemma client_run_prog_ok call_handler on_error firing p :
  (forall firing h m w, ok io_cb firing w -> post (call_handler h m w) (ok io_cb firing)) ->
  (forall firing m w, ok io_cb firing w -> post (on_error m w) (ok io_cb firing)) ->
  forall w, ok io_cb firing w -> post (run_prog draw now io_cb call_handler on_error p w) (ok io_cb firing).
Proof.
  intros Hh He. induction p as [|name type h k IH|ms k IH]; intros w Hw; simpl; [done| |].
  - eapply post_bind; [by apply query_ok|]. apply IH.
  - apply IH. exact Hw.
Qed.

Lemma client_react_ok depth : forall firing p w,
  ok io_cb firing w -> post (react draw now io_cb handle complain depth p w) (ok io_cb firing).
Proof.
  induction depth as [|depth IH]; intros firing p w Hw; [done|]. simpl.
  apply client_run_prog_ok; [| |done]; intros; apply IH; done.
Qed.

Lemma handlers_ok depth firing h m w :
  ok io_cb firing w -> post (call_handler draw now io_cb handle complain depth h m w) (ok io_cb firing).
Proof. intros Hw. apply client_react_ok. exact Hw. Qed.

Lemma errors_ok depth firing m w :
  ok io_cb firing w -> post (on_error draw now io_cb handle complain depth m w) (ok io_cb firing).
Proof. intros Hw. apply client_react_ok. exact Hw. Qed.

Lemma client_stimulate_all_ok fuel depth ss :
  forall w, ok io_cb [] w -> post (stimulate_all draw now io_cb handle complain fuel depth ss w) (ok io_cb []).
Proof.
  induction ss as [|s ss IH]; intros w Hw; [done|]. simpl. eapply post_bind; [|exact IH].
  destruct s as [|at_|p]; simpl.
  - apply (drain_ok io_cb (client_ok []) (client_ok_frame []) _) with (arriving := fun _ => client_ok []).
    + intros ev w1 Hev. apply on_peer_ok; [apply handlers_ok|apply errors_ok|by destruct ev].
    + apply client_ok_arrives.
    + intros d a w1 Hd Hp Ha. apply on_peer_ok; [apply handlers_ok|apply errors_ok|done|by split].
    + done.
  - apply fire_ok; [|done]. intros. by apply handlers_ok.
  - by apply client_react_ok.
Qed.

(** A client as [create] makes it. *)
Definition fresh (host : bytes) (port : Z) (r : R) (k : K) (a : A) : world :=
  created (str "udp4") new_loop k (new_client host port r a).

Lemma fresh_ok host port r k a : ok io_cb [] (fresh host port r k a).
Proof.
  split; [by split_and!|]. split; [unfold accounted, handlers; simpl; by rewrite map_to_list_empty|]. intros _. split; [done|]. split_and!; simpl; [apply NoDup_nil_2|done|lia|lia].
Qed.

(** C15. No query is forgotten and none is answered twice.  Whatever the
    network returns and whatever handlers and error listeners do, the client
    performs no undefined operation, and every handler passed to [query] has
    been called exactly once, or is still waiting with its own timeout armed
    in the loop (as long as fewer than 2^64 - 2 queries were made, so that
    timer ids do not repeat), or is one that [emplace] dropped because its id
    was taken. *)
Theorem queries_accounted fuel depth ss host port r k a :
  stimulate_all draw now io_cb handle complain fuel depth ss (fresh host port r k a) <> Undef /\
  (forall w, stimulate_all draw now io_cb handle complain fuel depth ss (fresh host port r k a) = Done w ->
     accounted (env w) /\ (few w -> armed [] w)).
Proof.
  pose proof (client_stimulate_all_ok fuel depth ss _ (fresh_ok host port r k a)) as Hp.
  destruct (stimulate_all _ _ _ _ _ _ _ _ _) as [w| |]; [|done|done]. split; [done|].
  intros w' [= <-]. destruct Hp as [_ [Ha Hrest]]. split; [done|]. intros Hf. apply (Hrest Hf).
Qed.

End reachable.

Module examples.

Definition remote := mk_sockaddr AF_INET (htons 53) (str "abcd").

(** A reply with id 7. *)
Definition reply : message :=
  mk_message (mk_header 7 true opcode.query false false true true rcode.no_error 1 0 0 0)
    [mk_question (str "a.io") record_type.a record_class.in_].
Definition reply_wire : bytes := match serialize reply with Done (Some w) => w | _ => [] end.

Abbreviation kernel_state := (Tap.tapped Scripted.script).
Definition kernel : kernel_state := Tap.tap (Scripted.set_names
  (Scripted.set_sends (Scripted.set_recvs Scripted.blank [(SysOk 0, reply_wire, remote)]) [SysOk 100; SysOk 100])
  [(str "abcd", remote)]).

(** An engine that draws 7 twice. *)
Definition draw (r : unit) : Z * unit := (7, r).
Definition handle (h : Z) (m : option message) (a : unit) : unit * prog Z := (a, PRet).
Definition complain (m : bytes) (a : unit) : unit * prog Z := (a, PRet).

Abbreviation W := (world kernel_state (client Z unit unit) Z unit).
Definition start : W := fresh (str "abcd") 53 tt kernel tt.
Definition script := [SCall (PQuery (str "a.io") 1 101 (PQuery (str "b.io") 1 102 PRet)); SReadable; SFire (10 ^ 20)].
Definition run := stimulate_all draw (fun _ => 0) tt handle complain 20 5 script start.
Definition final : W := match run with Done w => w | _ => start end.

Lemma queries_accounted_witness :
  run = Done final /\ (answered (env final)).*1 = [101] /\ accounted (env final).
Proof.
  split; [by vm_compute|]. split; [by vm_compute|].
  refine (proj1 (proj2 (queries_accounted draw (fun _ => 0) tt handle complain 20 5 script (str "abcd") 53 tt kernel tt) final _)).
  by vm_compute.
Defined.

End examples.
