(* ===== verification/DnsDeadlines.v ===== *)
(** * Deadlines of DNS queries

    [DnsClient] shows that a waiting query has its timer armed; here, that the
    timer does its work: once it has fired, the handler has been called.  The
    first part is a proof principle for assertions about the state of a
    client: what its elementary updates keep, all its operations keep, with
    every application. *)

From S2P Require Import Prelude EventLoop Net Header Message UdpPeer DnsClient.
#[local] Open Scope Z_scope.

Section stable.
Context {K H R A C : Type} `{KL : KernelLaws K} `{KD : !DatagramKernel K}.
Abbreviation world := (UdpPeer.world K (client H R A) Z C).
Implicit Types (w : world) (c : client H R A).

(** The updates [query], [resolve] and [set_timeout] make. *)
Class ClientStable (Q : client H R A -> Prop) : Prop := {
  Q_rng r c : Q c -> Q (set_rng r c);
  Q_app a c : Q c -> Q (set_app a c);
  Q_timeout t c : Q c -> Q (set_timeout_ms t c);
  Q_register id h t c : Q c -> Q (emplace id (mk_pending h t) (log_asked h c));
  Q_rejected h m c : Q c -> Q (log_answered h m (log_asked h c));
  Q_resolved id e m c :
    pending_ c !! id = Some e -> Q c -> Q (log_answered (handler e) m (set_pending (delete id (pending_ c)) c))
}.

Variable draw : R -> Z * R.
Variable now : world -> Z.
Variable io_cb : C.
Variable Q : client H R A -> Prop.
Context `{!ClientStable Q}.

Definition env_ok w : Prop := world_ok io_cb (fun w => Q (env w)) w.

Lemma env_frame w w' : same_above w w' -> Q (env w) -> Q (env w').
Proof. by intros [(-> & _) _]. Qed.

Lemma env_arrives d w w' : arrives d w w' -> Q (env w) -> Q (env w').
Proof. by intros [(-> & _) _]. Qed.

Section listeners.
Variable call_handler : H -> option message -> world -> exec world.
Variable on_error : bytes -> world -> exec world.
Hypothesis handler_keeps : forall h m w, env_ok w -> post (call_handler h m w) env_ok.
Hypothesis error_keeps : forall m w, env_ok w -> post (on_error m w) env_ok.

Lemma resolve_stable id m w : env_ok w -> post (resolve call_handler id m w) env_ok.
Proof.
  intros [Hp Hq]. unfold resolve. destruct (pending_ (env w) !! id) as [e|] eqn:He; [|done].
  apply handler_keeps. split; [|by apply Q_resolved]. apply (peer_ok_above io_cb w); [done|done|done| |done].
  apply (clear_timeout_watching (lp w)), Hp.
Qed.

Lemma on_peer_stable ev w : event_ok ev -> env_ok w -> post (on_peer call_handler on_error ev w) env_ok.
Proof.
  intros Hev Hw. destruct ev as [|d a|m|]; simpl; [done| |by apply error_keeps|done].
  destruct (parse_done d) as (o & -> & _).
  { simpl in Hev. unfold Reader.buf_ok, UdpPeer.recv_size in *. lia. }
  simpl. destruct o; [by apply resolve_stable|by apply error_keeps].
Qed.

(** What [query] does once the handler is registered. *)
Lemma send_query_stable id wire w :
  env_ok w ->
  post (do (ok, w) := send io_cb (on_peer call_handler on_error) wire (resolver_port_ (env w)) (resolver_host_ (env w)) w in
        if negb ok then resolve call_handler id None w else Done w) env_ok.
Proof.
  intros Hw. eapply post_bind.
  - apply (send_ok io_cb (fun w => Q (env w)) env_frame); [|exact Hw]. intros ev w1 Hev. apply on_peer_stable. by destruct ev.
  - intros [b w1] Hw1. simpl in Hw1. simpl. branch; [done|]. by apply resolve_stable.
Qed.

(** The state in which [query] sends. *)
Definition registering (h : H) w : world :=
  let qid := u16 (draw (rng_ (env w))).1 in
  let w := upd_env (set_rng (draw (rng_ (env w))).2) w in
  let '(timer, l) := set_timeout (lp w) (now w) (timeout_ (env w)) qid in
  upd_env (emplace qid (mk_pending h timer)) (upd_env (log_asked h) (set_lp l w)).

Lemma query_sends name type h wire w :
  serialize (request_of (u16 (draw (rng_ (env w))).1) type name) = Done (Some wire) ->
  query draw now io_cb call_handler on_error name type h w =
  do (ok, w') := send io_cb (on_peer call_handler on_error) wire (resolver_port_ (env (registering h w)))
    (resolver_host_ (env (registering h w))) (registering h w) in
  if negb ok then resolve call_handler (u16 (draw (rng_ (env w))).1) None w' else Done w'.
Proof. intros E. unfold query, next_id, registering. destruct (draw _) as [x r]. simpl in E. rewrite E. done. Qed.

Lemma registering_peer h w : peer_ok io_cb w -> peer_ok io_cb (registering h w).
Proof.
  intros Hp. unfold registering. destruct (draw _) as [x r]. simpl.
  apply (peer_ok_above io_cb w); [done|done|done| |done].
  exact (set_timeout_watching (lp w) (now (upd_env (set_rng r) w)) (timeout_ (env w)) (u16 x) (proj1 Hp)).
Qed.

Lemma query_stable name type h w :
  env_ok w -> post (query draw now io_cb call_handler on_error name type h w) env_ok.
Proof.
  intros [Hp Hq]. destruct (serialize_total (request_of (u16 (draw (rng_ (env w))).1) type name)) as [[wire|] Es].
  - rewrite (query_sends _ _ _ _ _ Es). apply send_query_stable. split; [by apply registering_peer|].
    unfold registering. simpl. by apply Q_register, Q_rng.
  - unfold query, next_id. destruct (draw _) as [x r]. simpl in Es. rewrite Es. simpl.
    eapply post_bind; [apply error_keeps; split; [done|by apply Q_rng]|].
    intros w2 [Hp2 Hq2]. apply handler_keeps. split; [done|]. by apply Q_rejected.
Qed.

Lemma expire_all_stable due : forall w, env_ok w -> post (expire_all call_handler due w) env_ok.
Proof. induction due as [|t due IH]; intros w Hw; [done|]. simpl. eapply post_bind; [by apply resolve_stable|exact IH]. Qed.

End listeners.

Variable handle : H -> option message -> A -> A * DnsClient.prog H.
Variable complain : bytes -> A -> A * DnsClient.prog H.

Lemma react_stable depth : forall p w, env_ok w -> post (DnsClient.react draw now io_cb handle complain depth p w) env_ok.
Proof.
  induction depth as [|depth IH]; intros p w Hw; [done|]. simpl.
  assert (forall ap w, env_ok w -> post (react_with (DnsClient.react draw now io_cb handle complain depth) ap w) env_ok) as Hr.
  { intros ap w0 [Hp0 Hq0]. apply IH. split; [done|by apply Q_app]. }
  revert w Hw. induction p as [|name type h k IHp|ms k IHp]; intros w Hw; simpl; [done| |].
  - eapply post_bind; [apply query_stable; [auto|auto|done]|exact IHp].
  - apply IHp. destruct Hw. split; [done|by apply Q_timeout].
Qed.

Lemma handler_stable depth h m w : env_ok w -> post (DnsClient.call_handler draw now io_cb handle complain depth h m w) env_ok.
Proof. intros [Hp Hq]. apply react_stable. split; [done|by apply Q_app]. Qed.

Lemma error_stable depth m w : env_ok w -> post (DnsClient.on_error draw now io_cb handle complain depth m w) env_ok.
Proof. intros [Hp Hq]. apply react_stable. split; [done|by apply Q_app]. Qed.

Lemma stimulate_all_stable fuel depth ss : forall w,
  env_ok w -> post (DnsClient.stimulate_all draw now io_cb handle complain fuel depth ss w) env_ok.
Proof.
  induction ss as [|s ss IH]; intros w Hw; [done|]. simpl. eapply post_bind; [|exact IH]. destruct s as [|at_|p]; simpl.
  - apply (drain_ok io_cb (fun w => Q (env w)) env_frame _) with (arriving := fun _ w => Q (env w)).
    + intros ev w1 Hev. apply on_peer_stable; [apply handler_stable|apply error_stable|by destruct ev].
    + apply env_arrives.
    + intros d a w1 Hd Hp Hq. apply on_peer_stable; [apply handler_stable|apply error_stable|done|by split].
    + done.
  - unfold fire. destruct (take_due _ _) as [due rest]. apply expire_all_stable; [apply handler_stable|].
    destruct Hw as [Hp Hq]. split; [|done]. apply (peer_ok_above io_cb w); [done|done|done|apply Hp|done].
  - by apply react_stable.
Qed.

End stable.

(** ** A query that was due has been answered *)

Section deadlines.
Context {K H R A C : Type} `{KL : KernelLaws K} `{KD : !DatagramKernel K}.
Abbreviation world := (UdpPeer.world K (client H R A) Z C).
Implicit Types w : world.
Variable draw : R -> Z * R.
Variable now : world -> Z.
Variable io_cb : C.
Variable handle : H -> option message -> A -> A * DnsClient.prog H.
Variable complain : bytes -> A -> A * DnsClient.prog H.

Definition was_answered (h : H) (c : client H R A) : Prop := exists m, (h, m) ∈ answered c.

(** Waiting under [id], or answered. *)
Definition waits_or_answered (id : Z) (e : pending H) (c : client H R A) : Prop :=
  was_answered (handler e) c \/ pending_ c !! id = Some e.

Lemma was_answered_snoc h h' m (c c' : client H R A) :
  answered c' = answered c ++ [(h', m)] -> was_answered h c -> was_answered h c'.
Proof. intros E [m' Hin]. exists m'. rewrite E. set_solver. Qed.

#[local] Instance was_answered_stable h : ClientStable (was_answered h).
Proof.
  split; try done.
  - intros id h' t c Hc. unfold emplace. simpl. by destruct (pending_ c !! id).
  - intros h' m c. by apply (was_answered_snoc h h' m).
  - intros id e m c _. by apply (was_answered_snoc h (handler e) m).
Qed.

#[local] Instance waits_stable id e : ClientStable (waits_or_answered id e).
Proof.
  split; try done.
  - intros id' h t c [Hc|Hc].
    + left. unfold emplace. simpl. by destruct (pending_ c !! id').
    + right. unfold emplace. simpl. destruct (pending_ c !! id') eqn:E; [done|]. simpl.
      rewrite lookup_insert_ne; [done|]. congruence.
  - intros h m c [Hc|Hc]; [left; by apply (was_answered_snoc _ h m c)|by right].
  - intros id' e' m c He' [Hc|Hc]; [left; by apply (was_answered_snoc _ (handler e') m c)|].
    destruct (decide (id' = id)) as [->|Hne].
    + left. exists m. simpl. simplify_eq. set_solver.
    + right. simpl. by rewrite lookup_delete_ne.
Qed.

Abbreviation call_handler depth := (DnsClient.call_handler draw now io_cb handle complain depth).

Lemma fired_stable depth Q t w :
  ClientStable Q -> env_ok io_cb Q w -> post (expire (call_handler depth) t w) (env_ok io_cb Q).
Proof. intros HQ Hw. apply resolve_stable; [done| |done]. intros. by apply handler_stable. Qed.

Lemma all_fired_stable depth Q due w :
  ClientStable Q -> env_ok io_cb Q w -> post (expire_all (call_handler depth) due w) (env_ok io_cb Q).
Proof. intros HQ Hw. apply expire_all_stable; [done| |done]. intros. by apply handler_stable. Qed.

(** Going through the due timers. *)
Lemma expire_all_answers depth id e due : forall w,
  env_ok io_cb (waits_or_answered id e) w -> (exists t, t ∈ due /\ fn t = id) ->
  post (expire_all (call_handler depth) due w) (env_ok io_cb (was_answered (handler e))).
Proof.
  induction due as [|t due IH]; intros w [Hp Hq] (t' & Hin & Hfn); [by apply elem_of_nil in Hin|]. simpl.
  destruct Hq as [Hq|Hq].
  { eapply post_bind; [apply (fired_stable depth (was_answered (handler e))); [apply _|by split]|].
    intros w1. apply all_fired_stable, _. }
  apply elem_of_cons in Hin as [->|Hin].
  - eapply (post_bind _ _ (env_ok io_cb (was_answered (handler e)))); [|intros w1; apply all_fired_stable, _].
    unfold expire, resolve. rewrite Hfn, Hq. apply handler_stable; [apply _|]. split.
    + apply (peer_ok_above io_cb w); [done|done|done| |done]. apply (clear_timeout_watching (lp w)), Hp.
    + exists None. simpl. set_solver.
  - eapply post_bind; [apply (fired_stable depth (waits_or_answered id e)); [apply _|split; [done|by right]]|].
    intros w1 Hw1. apply IH; [exact Hw1|by exists t'].
Qed.

Lemma fire_answers depth w at_ w' id e :
  ok io_cb [] w -> few w -> pending_ (env w) !! id = Some e ->
  (forall t, t ∈ timers_ (lp w) -> timer_id t = timer e -> when t <= at_) ->
  fire (call_handler depth) at_ w = Done w' -> was_answered (handler e) (env w').
Proof.
  intros [Hp [_ Hc]] Hfew He Hdue E'.
  destruct (Hc Hfew) as [Harm _]. destruct (Harm id e He) as (t & Hin & Ht & Hfn). rewrite app_nil_r in Hin.
  unfold fire in E'. rewrite take_due_spec in E'.
  refine (proj2 (post_done _ _ _ (expire_all_answers depth id e _ _ _ _) E')).
  - split; [|by right]. apply (peer_ok_above io_cb w); [done|done|done|apply Hp|done].
  - exists t. split; [|done]. apply list_elem_of_filter. auto.
Qed.

(** What was answered stays so. *)
Lemma fire_keeps_answered depth w at_ w' h :
  ok io_cb [] w -> was_answered h (env w) -> fire (call_handler depth) at_ w = Done w' -> was_answered h (env w').
Proof.
  intros [Hp _] Hh E'. unfold fire in E'. rewrite take_due_spec in E'.
  refine (proj2 (post_done _ _ _ (all_fired_stable depth (was_answered h) _ _ _ _) E')).
  split; [|done]. apply (peer_ok_above io_cb w); [done|done|done|apply Hp|done].
Qed.

Lemma reachable_ok fuel depth ss host port r k a w :
  DnsClient.stimulate_all draw now io_cb handle complain fuel depth ss (fresh host port r k a) = Done w -> ok io_cb [] w.
Proof.
  intros E. exact (post_done _ _ _ (client_stimulate_all_ok draw now io_cb handle complain fuel depth ss _
    (fresh_ok io_cb host port r k a)) E).
Qed.

(** Firing returns when the handlers do. *)
Lemma expire_all_returns depth due :
  (forall h m w, exists w', call_handler depth h m w = Done w') ->
  forall w, exists w', expire_all (call_handler depth) due w = Done w'.
Proof.
  intros Hret. induction due as [|t due IH]; intros w; [by eexists|]. simpl.
  assert (exists w1, expire (call_handler depth) (fn t) w = Done w1) as [w1 ->]; [|apply IH].
  unfold expire, resolve. destruct (pending_ (env w) !! fn t) as [e|]; [apply Hret|by eexists].
Qed.

(** C16. No query waits for ever.  After any history with fewer than 2^64 - 2
    queries, and if the answer handlers return, the loop thread gets through
    its due timers, and when it fires them at a time past the deadline of a
    waiting query, the handler of that query has been called by the time the
    turn is over, whatever the handlers called before it in the same turn
    did. *)
Theorem overdue_query_answered fuel depth ss host port r k a w at_ id e :
  (forall h m w, exists w', call_handler depth h m w = Done w') ->
  DnsClient.stimulate_all draw now io_cb handle complain fuel depth ss (fresh host port r k a) = Done w ->
  few w -> pending_ (env w) !! id = Some e ->
  (forall t, t ∈ timers_ (lp w) -> timer_id t = timer e -> when t <= at_) ->
  exists w', DnsClient.stimulate draw now io_cb handle complain fuel depth (SFire at_) w = Done w' /\
    was_answered (handler e) (env w').
Proof.
  intros Hret E Hfew He Hdue.
  assert (exists w', fire (call_handler depth) at_ w = Done w') as [w' E'].
  { unfold fire. destruct (take_due _ _). by apply expire_all_returns. }
  exists w'. split; [exact E'|]. eapply fire_answers; [|done|done|done|exact E']. by eapply reachable_ok.
Qed.

(** ** Colliding ids *)

#[local] Instance lost_stable h : ClientStable (fun c : client H R A => h ∈ lost c).
Proof.
  split; try done. intros id h' t c Hc. unfold emplace. simpl. destruct (pending_ c !! id); simpl; [|done].
  apply elem_of_app. by left.
Qed.

(** C40. A query whose id is taken is lost for good.  After any history, let
    the id the random engine draws be that of a query still waiting, and let
    the name be one that can be encoded.  Then the handler passed to [query]
    is never called, neither with an answer nor with the timeout, whatever
    happens afterwards, as long as the handlers are told apart. *)
Theorem collision_never_answered fuel depth ss ss' host port r k a w w' name type h wire e :
  DnsClient.stimulate_all draw now io_cb handle complain fuel depth ss (fresh host port r k a) = Done w ->
  pending_ (env w) !! u16 (draw (rng_ (env w))).1 = Some e ->
  serialize (request_of (u16 (draw (rng_ (env w))).1) type name) = Done (Some wire) ->
  DnsClient.stimulate_all draw now io_cb handle complain fuel depth
    (DnsClient.SCall (PQuery name type h PRet) :: ss') w = Done w' ->
  NoDup (asked (env w')) -> ~ was_answered h (env w').
Proof.
  intros E He Es E' Hnd. pose proof (reachable_ok _ _ _ _ _ _ _ _ _ E) as Hok.
  assert (h ∈ lost (env w')) as Hlost.
  { refine (proj2 (post_done _ _ _ _ E' : env_ok io_cb (fun c => h ∈ lost c) w')). cbn [DnsClient.stimulate_all].
    eapply post_bind; [|intros w1; apply stimulate_all_stable, _]. destruct depth as [|depth]; [done|]. cbn [DnsClient.stimulate DnsClient.react DnsClient.run_prog].
    eapply post_bind; [|by intros]. rewrite (query_sends _ _ _ _ _ _ _ _ _ _ Es).
    apply send_query_stable; [apply _|..].
    { intros h1 m1 w1 Hw1. by apply (handler_stable draw now io_cb (fun c => h ∈ lost c) handle complain depth h1 m1 w1). }
    { intros m1 w1 Hw1. by apply (error_stable draw now io_cb (fun c => h ∈ lost c) handle complain depth m1 w1). }
    split; [apply registering_peer, Hok|]. unfold registering. simpl. unfold emplace. simpl. rewrite He. simpl.
    apply elem_of_app. right. by apply list_elem_of_singleton. }
  destruct (post_done _ _ _ (client_stimulate_all_ok draw now io_cb handle complain fuel depth _ _ Hok) E') as [_ [Ha _]].
  unfold accounted in Ha. rewrite Ha in Hnd. apply NoDup_app in Hnd as (_ & Hd & _).
  intros [m Hm]. apply (Hd h); [|set_solver]. apply list_elem_of_fmap. by exists (h, m).
Qed.

End deadlines.

Module examples.
Import DnsClient.examples.

(** The query with handler 101 waits; at its deadline it is answered with
    nothing. *)
Definition asked_only : list (DnsClient.stimulus (H := Z)) := [SCall (PQuery (str "a.io") 1 101 PRet)].
Definition waiting : W :=
  match DnsClient.stimulate_all draw (fun _ => 0) tt handle complain 20 5 asked_only start with Done w => w | _ => start end.
Lemma handlers_return h m (w : W) :
  exists w', DnsClient.call_handler draw (fun _ => 0) tt handle complain 5 h m w = Done w'.
Proof. by eexists. Qed.

Lemma overdue_query_answered_witness :
  pending_ (env waiting) !! 7 = Some (mk_pending 101 1) /\
  exists w', DnsClient.stimulate draw (fun _ => 0) tt handle complain 20 5 (SFire (5000 * ns_per_ms)) waiting = Done w' /\
    was_answered 101 (env w').
Proof.
  split; [by vm_compute|].
  apply (overdue_query_answered draw (fun _ => 0) tt handle complain 20 5 asked_only
    (str "abcd") 53 tt kernel tt waiting (5000 * ns_per_ms) 7 (mk_pending 101 1)).
  - apply handlers_return.
  - by vm_compute.
  - by vm_compute.
  - by vm_compute.
  - assert (Forall (fun t => when t <= 5000 * ns_per_ms) (timers_ (lp waiting))) as Hall by (by repeat constructor).
    rewrite Forall_forall in Hall. auto.
Defined.

(** The engine draws 7 again for the query with handler 102, then the reply to
    the first query comes in and the timers fire. *)
Definition second_query : list (DnsClient.stimulus (H := Z)) :=
  [SCall (PQuery (str "b.io") 1 102 PRet); DnsClient.SReadable; SFire (10 ^ 20)].
Definition collided : W :=
  match DnsClient.stimulate_all draw (fun _ => 0) tt handle complain 20 5 second_query waiting with Done w => w | _ => start end.
Definition second_wire : bytes := match serialize (request_of 7 1 (str "b.io")) with Done (Some b) => b | _ => [] end.

Lemma collision_never_answered_witness :
  asked (env collided) = [101; 102] /\ (answered (env collided)).*1 = [101] /\ ~ was_answered 102 (env collided).
Proof.
  split; [by vm_compute|]. split; [by vm_compute|].
  apply (collision_never_answered draw (fun _ => 0) tt handle complain 20 5 asked_only (drop 1 second_query) (str "abcd") 53 tt kernel tt
    waiting collided (str "b.io") 1 102 second_wire (mk_pending 101 1)).
  - by vm_compute.
  - by vm_compute.
  - by vm_compute.
  - by vm_compute.
  - apply (bool_decide_unpack _). by vm_compute.
Defined.

End examples.
