(* ===== verification/DnsServer.v ===== *)
(** * [protocol::dns::server]

    The query server of protocol/dns/server.hpp and its [responder], on top of
    [udp::peer], and the whole exchange between a client and a server. *)

From S2P Require Import Prelude EventLoop Net Names Header Message UdpPeer DnsClient DnsDeadlines.
#[local] Open Scope Z_scope.

(** [responder]: where the reply goes and which id it carries. *)
Record responder := mk_responder { to_ : socket_address; request_id_ : Z }.

Definition peer_address (r : responder) : socket_address := to_ r.
Definition request_id (r : responder) : Z := request_id_ r.

(** The server's events. *)
Inductive server_event :=
  | SListening
  | SQuery (request : message) (reply : responder)
  | SError (m : bytes)
  | SClose.

(** The server itself only adds listeners to its peer: [wired] counts how
    often [listen] did.  [strace] records the events, [sapp] is the
    application's state. *)
Record server (A : Type) := mk_server { wired : nat; strace : list server_event; sapp : A }.
Arguments mk_server {A}.
Arguments wired {A}.
Arguments strace {A}.
Arguments sapp {A}.

(** The header [responder::send] puts on a reply. *)
Definition addressed (id : Z) (reply : message) : message :=
  let h := header_ reply in
  mk_message (mk_header id true (opcode_ h) (authoritative h) (truncated h) (recursion_desired h)
      (recursion_available h) (rcode_ h) (question_count h) (answer_count h) (authority_count h)
      (additional_count h))
    (questions reply).

(** [n] listeners of one event, called one after the other. *)
Fixpoint times {S} (n : nat) (f : S -> exec S) (s : S) : exec S :=
  match n with
  | O => Done s
  | S n' => do s := f s in times n' f s
  end.

Section server.
Context {K A D C : Type} `{Kernel K}.
Abbreviation world := (world K (server A) D C).
Implicit Types w : world.
Variable io_cb : C.
Variable listeners : server_event -> world -> exec world.

Definition emit (ev : server_event) w : exec world :=
  listeners ev (set_env (mk_server (wired (env w)) (strace (env w) ++ [ev]) (sapp (env w))) w).

(** The closures [listen] adds to the peer's events. *)
Definition on_peer_once (ev : udp_event) w : exec world :=
  match ev with
  | UMessage dgram from =>
      do request := parse dgram in
      match request with
      | None => emit (SError (str "dropped a malformed query datagram")) w
      | Some request => emit (SQuery request (mk_responder from (id (header_ request)))) w
      end
  | UError m => emit (SError m) w
  | UListening => emit SListening w
  | UClose => Done w
  end.

Definition on_peer (ev : udp_event) w : exec world := times (wired (env w)) (on_peer_once ev) w.

(** [responder::send]; its peer is never null. *)
Definition responder_send (r : responder) (reply : message) w : exec (bool * world) :=
  let reply := addressed (request_id_ r) reply in
  do wire := serialize reply in
  match wire with
  | None => Done (false, w)
  | Some wire => send io_cb on_peer wire (port (to_ r)) (Net.address (to_ r)) w
  end.

Definition listen (port : Z) (addr : bytes) w : exec world :=
  let w := set_env (mk_server (S (wired (env w))) (strace (env w)) (sapp (env w))) w in
  bind io_cb on_peer port addr w.

Definition close w : exec world :=
  do w := UdpPeer.close on_peer w in
  emit SClose w.

Definition local_address w : socket_address := UdpPeer.address w.

End server.

(** An application: for each event a program of calls on the server and on
    the responder at hand. *)
Inductive sprog :=
  | SRet
  | SReply (r : responder) (m : message) (k : bool -> sprog)
  | SListen (port : Z) (addr : bytes) (k : sprog)
  | SStop (k : sprog).

Section react.
Context {K A D C : Type} `{Kernel K}.
Variable io_cb : C.
Variable app : server_event -> A -> A * sprog.

Fixpoint run_sprog (listeners : server_event -> world K (server A) D C -> exec (world K (server A) D C))
    (p : sprog) (w : world K (server A) D C) : exec (world K (server A) D C) :=
  match p with
  | SRet => Done w
  | SReply r m k => do (b, w) := responder_send io_cb listeners r m w in run_sprog listeners (k b) w
  | SListen port addr k => do w := listen io_cb listeners port addr w in run_sprog listeners k w
  | SStop k => do w := close listeners w in run_sprog listeners k w
  end.

Fixpoint react (depth : nat) (ev : server_event) (w : world K (server A) D C) : exec (world K (server A) D C) :=
  match depth with
  | O => OutOfFuel
  | S depth' =>
      let '(a, p) := app ev (sapp (env w)) in
      run_sprog (react depth') p (set_env (mk_server (wired (env w)) (strace (env w)) a) w)
  end.

(** A readable peer, or calls of the application. *)
Inductive sstimulus := SReadable | SCall (p : sprog).

Definition stimulate (fuel depth : nat) (s : sstimulus) (w : world K (server A) D C) : exec (world K (server A) D C) :=
  match s with
  | SReadable => drain (on_peer (react depth)) fuel w
  | SCall p => run_sprog (react depth) p w
  end.

Fixpoint stimulate_all (fuel depth : nat) (ss : list sstimulus) (w : world K (server A) D C) : exec (world K (server A) D C) :=
  match ss with
  | [] => Done w
  | s :: ss' => do w := stimulate fuel depth s w in stimulate_all fuel depth ss' w
  end.

End react.

Definition new_server {A} (a : A) : server A := mk_server 0 [] a.

(** ** What the server announces *)

Definition announced (ev : server_event) : option (message * responder) :=
  match ev with
  | SQuery m r => Some (m, r)
  | _ => None
  end.
Definition queries {A} (s : server A) : list (message * responder) := omap announced (strace s).

(** What a datagram asks: the message the parser makes of it, with a responder
    for its sender and its id, or nothing when the parser rejects it. *)
Definition query_of (d : bytes * socket_address) : list (message * responder) :=
  match parse d.1 with
  | Done (Some m) => [(m, mk_responder d.2 (id (header_ m)))]
  | _ => []
  end.
Definition asked_times (n : nat) (d : bytes * socket_address) : list (message * responder) := concat (replicate n (query_of d)).
Definition asked_all (ns : list nat) (ds : list (bytes * socket_address)) : list (message * responder) :=
  concat (zip_with asked_times ns ds).

Lemma asked_times_S n d : asked_times (S n) d = asked_times n d ++ query_of d.
Proof.
  unfold asked_times. simpl. induction n as [|n IH]; simpl; [by rewrite app_nil_r|]. by rewrite IH at 1; rewrite app_assoc.
Qed.

Lemma asked_all_snoc ns ds n d :
  length ns = length ds -> asked_all (ns ++ [n]) (ds ++ [d]) = asked_all ns ds ++ asked_times n d.
Proof. intros Hl. unfold asked_all. rewrite zip_with_app by done. rewrite concat_app. simpl. by rewrite app_nil_r. Qed.

Lemma asked_all_once ns ds : length ns = length ds -> Forall (fun n => n = 1%nat) ns -> asked_all ns ds = flat_map query_of ds.
Proof.
  unfold asked_all. revert ds. induction ns as [|n ns IH]; intros [|d ds] Hl Hn; try done.
  apply Forall_cons in Hn as [-> Hn]. simpl. rewrite IH by (simpl in Hl; auto with lia).
  unfold asked_times. simpl. by rewrite app_nil_r.
Qed.

Section invariant.
Context {K A D C : Type} `{KL : KernelLaws K} `{KD : !DatagramKernel K}.
Variable io_cb : C.
Variable app : server_event -> A -> A * sprog.
Variable k0 : K.
Abbreviation world := (world K (server A) D C).
Implicit Types w : world.

(** Every datagram was announced once by each listener that [listen] had added
    when it came in; [cur] is the datagram whose listeners are being called,
    with the number of them that were, and [lo] a number of listeners there
    are at least. *)
Definition server_ok (lo : nat) (cur : option (nat * (bytes * socket_address))) w : Prop :=
  received_of (kn w) = received_of k0 ++ delivered (hist w) /\ (1 <= lo <= wired (env w))%nat /\
  exists ns ds, length ns = length ds /\ Forall (fun n => (1 <= n <= wired (env w))%nat) ns /\
    match cur with
    | None => delivered (hist w) = ds /\ queries (env w) = asked_all ns ds
    | Some (i, d) => delivered (hist w) = ds ++ [d] /\ queries (env w) = asked_all ns ds ++ asked_times i d
    end.
Definition sok lo cur w : Prop := world_ok io_cb (server_ok lo cur) w.

Lemma server_ok_frame lo cur w w' : same_above w w' -> server_ok lo cur w -> server_ok lo cur w'.
Proof. intros ((He & _) & Hh & Hd & _). unfold server_ok, received_of. by rewrite He, Hh, Hd. Qed.

Lemma server_ok_arrives lo d w w' : arrives d w w' -> server_ok lo None w -> server_ok lo (Some (0%nat, d)) w'.
Proof.
  intros ((He & _) & Hr & Hd & _) (Ek & Hlo & ns & ds & Hl & Hns & E1 & E2). unfold server_ok.
  rewrite Hr, Hd, He, Ek, E1. split; [by rewrite app_assoc|]. split; [done|].
  exists ns, ds. split_and!; [done|done|done|]. by rewrite E2, app_nil_r.
Qed.

(** All listeners that there were at least have been called. *)
Lemma server_ok_done lo n d w :
  (1 <= lo)%nat -> server_ok (lo `max` n) (Some (n, d)) w -> (1 <= n)%nat -> server_ok lo None w.
Proof.
  intros Hpos (Ek & Hlo & ns & ds & Hl & Hns & E1 & E2) Hn. split; [done|]. split; [lia|].
  exists (ns ++ [n]), (ds ++ [d]). rewrite !length_app, asked_all_snoc by done. split_and!; [simpl; lia| |done|done].
  apply Forall_app. split; [done|]. constructor; [lia|constructor].
Qed.

Section listeners.
Variable listeners : server_event -> world -> exec world.
Hypothesis listeners_keep : forall lo cur ev w, sok lo cur w -> post (listeners ev w) (sok lo cur).

Lemma queries_log ev (s : server A) :
  queries (mk_server (wired s) (strace s ++ [ev]) (sapp s)) = queries s ++ match announced ev with Some q => [q] | None => [] end.
Proof. unfold queries. simpl. rewrite omap_app. simpl. by destruct (announced ev). Qed.

Lemma dns_emit_ok lo cur ev w : announced ev = None -> sok lo cur w -> post (emit listeners ev w) (sok lo cur).
Proof.
  intros Hev [Hp Hs]. apply listeners_keep. split; [exact Hp|]. unfold server_ok in *. simpl.
  by rewrite queries_log, Hev, app_nil_r.
Qed.

(** One more listener announces the datagram. *)
Lemma announce_ok lo i d a w :
  (length d <= recv_size)%nat -> sok lo (Some (i, (d, a))) w ->
  post (on_peer_once listeners (UMessage d a) w) (sok lo (Some (S i, (d, a)))).
Proof.
  intros Hd Hw. simpl. destruct (parse_done d) as (o & Ep & _); [unfold Reader.buf_ok, recv_size in *; lia|].
  assert (query_of (d, a) = match o with Some m => [(m, mk_responder a (id (header_ m)))] | None => [] end) as Eq.
  { unfold query_of. simpl. rewrite Ep. by destruct o. }
  rewrite Ep. simpl. destruct o as [m|].
  - destruct Hw as [Hp (Ek & Hlo & ns & ds & Hl & Hns & E1 & E2)]. apply listeners_keep. split; [exact Hp|].
    split; [done|]. split; [done|]. exists ns, ds. split_and!; [done|done|done|]. simpl. rewrite queries_log. simpl.
    by rewrite asked_times_S, Eq, app_assoc, E2.
  - eapply post_mono; [by apply dns_emit_ok|]. intros w1 [Hp (Ek & Hlo & ns & ds & Hl & Hns & E1 & E2)]. split; [done|].
    split; [done|]. split; [done|]. exists ns, ds. by rewrite asked_times_S, Eq, app_nil_r.
Qed.

Lemma announce_times_ok lo d a n : forall i w,
  (length d <= recv_size)%nat -> sok lo (Some (i, (d, a))) w ->
  post (times n (on_peer_once listeners (UMessage d a)) w) (sok lo (Some ((n + i)%nat, (d, a)))).
Proof.
  induction n as [|n IH]; intros i w Hd Hw; [done|]. simpl. eapply post_bind; [by apply announce_ok|].
  intros w1 Hw1. eapply post_mono; [by apply IH|]. intros w2. by rewrite Nat.add_succ_r.
Qed.

Lemma on_peer_takes lo d a w :
  (length d <= recv_size)%nat -> peer_ok io_cb w -> server_ok lo (Some (0%nat, (d, a))) w ->
  post (on_peer listeners (UMessage d a) w) (sok lo None).
Proof.
  intros Hd Hp Hs. pose proof Hs as (Ek & Hlo & Hrest). unfold on_peer.
  eapply post_mono; [apply (announce_times_ok (lo `max` wired (env w)) d a _ 0 w Hd)|].
  - split; [done|]. split; [done|]. split; [lia|exact Hrest].
  - rewrite Nat.add_0_r. intros w1 [Hp1 Hs1]. split; [done|]. apply (server_ok_done lo _ _ w1 ltac:(lia) Hs1). lia.
Qed.

Lemma times_ok lo cur (f : world -> exec world) :
  (forall w, sok lo cur w -> post (f w) (sok lo cur)) -> forall n w, sok lo cur w -> post (times n f w) (sok lo cur).
Proof. intros Hf n. induction n as [|n IH]; intros w Hw; simpl; [done|]. eapply post_bind; [by apply Hf|]. apply IH. Qed.

Lemma on_peer_keeps lo cur ev w : message_of ev = None -> sok lo cur w -> post (on_peer listeners ev w) (sok lo cur).
Proof.
  intros Hev Hw. apply times_ok; [|done]. intros w1 Hw1. destruct ev as [|d a|m|]; simpl; [by apply dns_emit_ok|done|by apply dns_emit_ok|done].
Qed.

Lemma dns_listen_ok lo cur port addr w : sok lo cur w -> post (listen io_cb listeners port addr w) (sok lo cur).
Proof.
  intros [Hp (Ek & Hlo & ns & ds & Hl & Hns & Hcur)].
  apply (bind_ok io_cb (server_ok lo cur) (server_ok_frame lo cur) _ (on_peer_keeps lo cur)).
  split; [exact Hp|]. split; [done|]. split; [simpl; lia|]. exists ns, ds. split_and!; [done| |exact Hcur].
  eapply Forall_impl; [exact Hns|]. simpl. lia.
Qed.

Lemma run_sprog_ok lo cur p : forall w, sok lo cur w -> post (run_sprog io_cb listeners p w) (sok lo cur).
Proof.
  induction p as [|r m k IH|port addr k IH|k IH]; intros w Hw; simpl; [done| | |].
  - eapply (post_bind _ _ (fun r => sok lo cur r.2)); [|intros [b w1] Hw1; by apply IH].
    unfold responder_send. destruct (serialize_total (DnsServer.addressed (request_id_ r) m)) as [o ->]. simpl.
    destruct o; [|done]. by apply (send_ok io_cb (server_ok lo cur) (server_ok_frame lo cur) _ (on_peer_keeps lo cur)).
  - eapply post_bind; [by apply dns_listen_ok|exact IH].
  - eapply post_bind; [|exact IH]. unfold close. eapply post_bind; [|intros w1 Hw1; by apply dns_emit_ok].
    by apply (close_ok io_cb (server_ok lo cur) (server_ok_frame lo cur) _ (on_peer_keeps lo cur)).
Qed.

End listeners.

Lemma sreact_ok depth : forall lo cur ev w, sok lo cur w -> post (react io_cb app depth ev w) (sok lo cur).
Proof.
  induction depth as [|depth IH]; intros lo cur ev w Hw; [done|]. simpl. destruct (app ev (sapp (env w))) as [a p].
  by apply run_sprog_ok.
Qed.

Lemma sstimulate_all_ok lo fuel depth ss : forall w, sok lo None w -> post (stimulate_all io_cb app fuel depth ss w) (sok lo None).
Proof.
  induction ss as [|s ss IH]; intros w Hw; [done|]. simpl. eapply post_bind; [|exact IH].
  destruct s as [|p]; simpl; [|apply run_sprog_ok; [apply sreact_ok|done]].
  apply (drain_ok io_cb (server_ok lo None) (server_ok_frame lo None) _) with (arriving := fun d => server_ok lo (Some (0%nat, d))).
  - intros ev w1 Hev. apply on_peer_keeps; [apply sreact_ok|done].
  - apply server_ok_arrives.
  - intros d a w1 Hd. apply on_peer_takes; [apply sreact_ok|done].
  - done.
Qed.

End invariant.

Section traffic.
Context {K A D C : Type} `{KL : KernelLaws K} `{KD : !DatagramKernel K}.
Variable io_cb : C.
Variable app : server_event -> A -> A * sprog.


End traffic.

(** ** The exchange *)

Lemma addressed_ok id reply : is_u16 id -> message_ok reply -> message_ok (addressed id reply).
Proof. intros Hid (_ & Hrest). exact (conj Hid Hrest). Qed.

Lemma request_ok id type name ls :
  is_u16 id -> is_u16 type -> Forall text_label ls -> name = join ls -> message_ok (request_of id type name).
Proof.
  intros Hid Hty Hls Hn. unfold message_ok. simpl. split; [done|]. do 5 (split; [vm_compute; intuition discriminate|]).
  apply Forall_singleton. unfold question_ok. split_and!; [by exists ls|exact Hty|by vm_compute].
Qed.

(** Reading a datagram: the first iteration of [drain] when recvfrom returns
    [d]. *)
Lemma drain_reads {K A D C} `{KL : KernelLaws K} (L : udp_event -> world K A D C -> exec (world K A D C)) fuel w d sa n k :
  sys_recvfrom (fd_ (pr w)) recv_size (kn w) = (SysOk n, d, sa, k) ->
  Reader.buf_ok d /\
  drain L (S fuel) w =
  do w := L (UMessage d (from_sockaddr (K := K) sa))
    (upd_hist (log_event (UMessage d (from_sockaddr (K := K) sa))) (set_kn k w)) in drain L fuel w.
Proof.
  intros E. simpl. unfold recv_from. rewrite E. apply recvfrom_bounded in E as [<- Hlen].
  split; [unfold Reader.buf_ok, recv_size in *; lia|]. simpl.
  replace (0 <=? Z.of_nat (length d)) with true by lia. cbn [andb]. by rewrite Nat2Z.id, firstn_all, make_buffer_id.
Qed.

(** [send] can succeed on this peer with this kernel; a send that succeeds
    calls no listener. *)
Definition sends {K A D C} `{Kernel K} (io_cb : C) (d : bytes) (port : Z) (host : bytes) (w : world K A D C) : Prop :=
  exists w', send io_cb (fun _ w => Done w) d port host w = Done (true, w').

Section exchange.
Context {K K' H R A A' D C : Type}.
Context `{KL : KernelLaws K} `{KD : !DatagramKernel K} `{KL' : KernelLaws K'} `{KD' : !DatagramKernel K'}.
Variable draw : R -> Z * R.
Variable now : world K (client H R A) Z C -> Z.
Variable io_cb : C.
Variable call_handler : H -> option message -> world K (client H R A) Z C -> exec (world K (client H R A) Z C).
Variable on_error : bytes -> world K (client H R A) Z C -> exec (world K (client H R A) Z C).
Variable listeners : server_event -> world K' (server A') D C -> exec (world K' (server A') D C).

(** The id of the next query. *)
Definition drawn (w : world K (client H R A) Z C) : Z := u16 (draw (rng_ (env w))).1.

(** [query] hands the datagram to the kernel and waits under its id. *)
Lemma query_departs name type h wire w :
  serialize (request_of (drawn w) type name) = Done (Some wire) -> pending_ (env w) !! drawn w = None ->
  sends io_cb wire (resolver_port_ (env w)) (resolver_host_ (env w)) w ->
  exists w1 dest tm, query draw now io_cb call_handler on_error name type h w = Done w1 /\
    told (kn w1) = told (kn w) ++ [(wire, to_sockaddr (K := K) dest)] /\
    pending_ (env w1) = <[drawn w := mk_pending h tm]> (pending_ (env w)) /\
    exists t, t ∈ timers_ (lp w1) /\ timer_id t = tm /\ fn t = drawn w.
Proof.
  intros Es Hn [w0 Hs]. rewrite (query_sends _ _ _ _ _ _ _ _ _ _ Es).
  assert (resolver_port_ (env (registering draw now h w)) = resolver_port_ (env w) /\
    resolver_host_ (env (registering draw now h w)) = resolver_host_ (env w)) as [-> ->].
  { unfold registering. simpl. unfold emplace. simpl. by destruct (pending_ (env w) !! _). }
  edestruct (send_true_any io_cb (DnsClient.on_peer call_handler on_error) (fun _ w => Done w) wire
    (resolver_port_ (env w)) (resolver_host_ (env w)) w w0 (registering draw now h w)) as (w1 & dest & -> & Ee & Et & _ & Ht);
    [exact Hs|done|done|].
  simpl. exists w1, dest, (next_timer_id_ (lp w)). split; [done|]. split; [exact Ht|]. rewrite Ee, Et.
  unfold registering. simpl. unfold emplace. simpl. unfold drawn in *. rewrite Hn. simpl. split; [done|].
  eexists. split_and!; [apply elem_of_app; right; by apply list_elem_of_singleton|done|done].
Qed.

(** [responder::send] hands the reply to the kernel. *)
Lemma reply_departs r reply wire w :
  serialize (addressed (request_id_ r) reply) = Done (Some wire) ->
  sends io_cb wire (port (to_ r)) (Net.address (to_ r)) w ->
  exists w1 dest, responder_send io_cb listeners r reply w = Done (true, w1) /\
    told (kn w1) = told (kn w) ++ [(wire, to_sockaddr (K := K') dest)].
Proof.
  intros Es [w0 Hs]. unfold responder_send. rewrite Es. simpl.
  edestruct (send_true_any io_cb (on_peer listeners) (fun _ w => Done w) wire (port (to_ r)) (Net.address (to_ r)) w w0 w)
    as (w1 & dest & -> & _ & _ & _ & Ht); [exact Hs|done|done|]. by exists w1, dest.
Qed.

(** C18. Query and response end to end.  Let a client ask for a name of legal
    labels under an id that is not outstanding, and let its peer be able to
    send.  Then [query] returns, the datagram it handed to the kernel is
    [query_wire], and the handler waits under the id with its timer armed.  A
    server that listens and whose recvfrom returns [query_wire] announces one
    query, with the client's question and a responder for the sender and the
    id.  Whatever well-formed reply with at most 65535 questions is given to
    that responder at any later time, with a peer that can send, the datagram
    handed to the kernel is [reply_wire].  And a client whose recvfrom returns
    [reply_wire] while a query waits under the id calls the handler of that
    query, with the reply as it was given, the id and the response bit set,
    takes the query out and clears its timer.  The request asks for recursion and
    the reply keeps every other field that it was given. *)
Theorem query_response_exchange name ls type reply (wc : world K (client H R A) Z C) h :
  Forall text_label ls -> name = join ls -> is_u16 type ->
  message_ok reply -> Z.of_nat (length (questions reply)) < 65536 ->
  pending_ (env wc) !! drawn wc = None ->
  exists query_wire request reply_wire response,
    serialize (request_of (drawn wc) type name) = Done (Some query_wire) /\
    serialize (addressed (drawn wc) reply) = Done (Some reply_wire) /\
    questions request = [mk_question name type record_class.in_] /\
    header_ request = mk_header (drawn wc) false opcode.query false false true false rcode.no_error 1 0 0 0 /\
    questions response = questions reply /\
    (let h := header_ reply in
     header_ response = mk_header (drawn wc) true (opcode_ h) (authoritative h) (truncated h) (recursion_desired h)
       (recursion_available h) (rcode_ h) (Z.of_nat (length (questions reply))) (answer_count h) (authority_count h)
       (additional_count h)) /\
    (sends io_cb query_wire (resolver_port_ (env wc)) (resolver_host_ (env wc)) wc ->
     exists w1 dest tm, query draw now io_cb call_handler on_error name type h wc = Done w1 /\
       told (kn w1) = told (kn wc) ++ [(query_wire, to_sockaddr (K := K) dest)] /\
       pending_ (env w1) = <[drawn wc := mk_pending h tm]> (pending_ (env wc)) /\
       exists t, t ∈ timers_ (lp w1) /\ timer_id t = tm /\ fn t = drawn wc) /\
    (forall (ws : world K' (server A') D C) fuel n sa k,
       wired (env ws) = 1%nat ->
       sys_recvfrom (fd_ (pr ws)) recv_size (kn ws) = (SysOk n, query_wire, sa, k) ->
       drain (on_peer listeners) (S fuel) ws =
       do w := emit listeners (SQuery request (mk_responder (from_sockaddr (K := K') sa) (drawn wc)))
         (upd_hist (log_event (UMessage query_wire (from_sockaddr (K := K') sa))) (set_kn k ws)) in
       drain (on_peer listeners) fuel w) /\
    (forall (ws : world K' (server A') D C) to,
       sends io_cb reply_wire (port to) (Net.address to) ws ->
       exists w1 dest, responder_send io_cb listeners (mk_responder to (drawn wc)) reply ws = Done (true, w1) /\
         told (kn w1) = told (kn ws) ++ [(reply_wire, to_sockaddr (K := K') dest)]) /\
    (forall (wr : world K (client H R A) Z C) e fuel n sa k,
       pending_ (env wr) !! drawn wc = Some e ->
       sys_recvfrom (fd_ (pr wr)) recv_size (kn wr) = (SysOk n, reply_wire, sa, k) ->
       drain (DnsClient.on_peer call_handler on_error) (S fuel) wr =
       do w := answer call_handler (handler e) (Some response)
         (set_lp (clear_timeout (lp wr) (timer e))
            (upd_env (set_pending (delete (drawn wc) (pending_ (env wr))))
               (upd_hist (log_event (UMessage reply_wire (from_sockaddr (K := K) sa))) (set_kn k wr)))) in
       drain (DnsClient.on_peer call_handler on_error) fuel w).
Proof.
  intros Hls Hname Hty Hreply Hlen Hnone. pose proof (u16_is_u16 (draw (rng_ (env wc))).1) as Hid. fold (drawn wc) in Hid.
  destruct (serialize_parse _ (request_ok _ type name ls Hid Hty Hls Hname)) as (qw & Hq1 & Hq2).
  destruct (serialize_parse _ (addressed_ok _ reply Hid Hreply)) as (rw & Hr1 & Hr2).
  simpl in Hr2. rewrite u16_small, Nat2Z.id, take_ge in Hr2 by (unfold is_u16; lia).
  match type of Hq2 with _ -> _ = Done (Some ?m) => exists qw, m end.
  match type of Hr2 with _ -> _ = Done (Some ?m) => exists rw, m end.
  split; [exact Hq1|]. split; [exact Hr1|]. split; [|split; [|split; [|split; [|split; [|split; [|split]]]]]].
  5: by apply query_departs.
  6: by intros; apply reply_departs.
  5: { intros ws fuel n sa k Hw Er. destruct (drain_reads (on_peer listeners) fuel ws _ _ _ _ Er) as [Hb ->].
       unfold on_peer at 1. simpl. rewrite Hw. simpl. rewrite (Hq2 Hb). simpl. by destruct (emit _ _ _). }
  5: { intros wr e fuel n sa k He Er.
       destruct (drain_reads (DnsClient.on_peer call_handler on_error) fuel wr _ _ _ _ Er) as [Hb ->].
       simpl. rewrite (Hr2 Hb). simpl. unfold resolve. simpl. by rewrite He. }
  all: done.
Qed.

End exchange.

Module examples.
Import DnsClient.examples.

Abbreviation server_world := (world kernel_state (server unit) unit unit).

(** Answers every query with NOTIMP and its own questions. *)
Definition not_implemented (qs : list question) : message :=
  mk_message (mk_header 0 false 0 false false false false rcode.not_implemented 0 0 0 0) qs.
Definition refuse (ev : server_event) (a : unit) : unit * sprog :=
  match ev with
  | SQuery req r => (a, SReply r (not_implemented (questions req)) (fun _ => SRet))
  | _ => (a, SRet)
  end.

Definition query_wire : bytes :=
  match serialize (request_of 7 record_type.a (str "a.io")) with Done (Some w) => w | _ => [] end.

Definition server_kernel : kernel_state := Tap.tap (Scripted.set_names
  (Scripted.set_sends (Scripted.set_recvs Scripted.blank [(SysOk 0, query_wire, remote); (SysOk 0, str "?", remote)])
     [SysOk 100; SysOk 100])
  [(str "abcd", remote)]).

Definition unused : server_world := created (str "udp4") new_loop server_kernel (new_server tt).
Definition served (script : list sstimulus) : exec server_world := stimulate_all tt refuse 20 8 script unused.
Definition result (script : list sstimulus) : server_world := match served script with Done w => w | _ => unused end.
Definition once := [SCall (SListen 53 any4 SRet); SReadable].


(** A server that was closed and listens again handles every query twice:
    [listen] adds its listeners to the peer each time, so one query datagram
    gets two replies. *)
Theorem relisten_duplicates_replies :
  let again := [SCall (SListen 53 any4 (SStop SRet)); SCall (SListen 53 any4 SRet); SReadable] in
  length (heard (kn (result again))) = 2%nat /\
  exists reply, departed (hist (result again)) = [reply; reply].
Proof. vm_compute. split; [done|]. by eexists. Qed.

(** The client asks, the server reads the query and replies, and the client
    reads the reply: the datagrams and the handler that is called. *)
Definition silent_handler (h : Z) (m : option message) (w : W) : exec W := Done w.
Definition silent_error (m : bytes) (w : W) : exec W := Done w.

Lemma query_response_exchange_witness :
  exists w1 dest tm, query draw (fun _ => 0) tt silent_handler silent_error (str "a.io") 1 101 start = Done w1 /\
    told (kn w1) = [(query_wire, to_sockaddr (K := kernel_state) dest)] /\
    pending_ (env w1) = {[ 7 := mk_pending 101 tm ]}.
Proof.
  destruct (query_response_exchange (K' := kernel_state) draw (fun _ => 0) tt silent_handler silent_error
    (fun _ (w : server_world) => Done w) (str "a.io") [str "a"; str "io"] 1 (not_implemented []) start 101)
    as (qw & request & rw & response & Eq & _ & _ & _ & _ & _ & Hquery & _).
  - repeat apply Forall_cons_2; try apply Forall_nil_2; (split; [unfold label_ok; simpl; lia|]);
      apply (bool_decide_unpack _); vm_compute; exact I.
  - done.
  - by vm_compute.
  - do 6 (split; [vm_compute; intuition discriminate|]). constructor.
  - done.
  - done.
  - assert (qw = query_wire) as -> by (vm_compute in Eq; injection Eq as <-; by vm_compute).
    destruct Hquery as (w1 & dest & tm & E & Et & Ep & _).
    + exists (match send tt (fun _ w => Done w) query_wire 53 (str "abcd") start with Done (_, w) => w | _ => start end). by vm_compute.
    + exists w1, dest, tm. split; [exact E|]. split; [exact Et|exact Ep].
Defined.

End examples.
