(* ===== verification/Examples.v ===== *)
(** * The example programs

    examples/lnw-example-tcp-echo.cpp and examples/lnw-example-dns-dig.cpp as
    applications of the library: their listeners are programs over the models
    of the socket and of the DNS client, and the [std::promise] each of them
    waits for is the list of the values it was given.  Setting a promise twice
    throws, so what matters is how often a listener can do it, and that it does
    so at all: [main] waits until then. *)

From S2P Require Import Prelude Poller EventLoop Net.
From S2P Require Header Message UdpPeer DnsClient DnsDeadlines.
From S2P Require Import TcpSocket TcpSteps TcpLink Echo Inspect.
#[local] Open Scope Z_scope.

(** ** lnw-example-tcp-echo *)

Module tcp_echo.

(** The listener the server gives to every connection; the state is standard
    output. *)
Definition on_connection (ev : tcp_event) (out : bytes) : bytes * prog :=
  match ev with
  | EvData chunk =>
      (out ++ str "[server] echoing " ++ decimal (Z.of_nat (length chunk)) ++ str " bytes" ++ newline,
       PWrite chunk (fun _ => PRet))
  | _ => (out, PRet)
  end.

Definition greeting : bytes := str "hello over tcp" ++ newline.

(** The client's listeners; the state is what [echoed.set_value] was called
    with, and what went to standard error. *)
Definition on_client (ev : tcp_event) (a : list bytes * bytes) : (list bytes * bytes) * prog :=
  match ev with
  | EvConnect => (a, PWrite (make_buffer greeting) (fun _ => PRet))
  | EvData chunk => ((a.1 ++ [to_string chunk], a.2), PRet)
  | EvError m => ((a.1, a.2 ++ str "[client] error: " ++ c_str m ++ newline), PRet)
  | _ => (a, PRet)
  end.

(** [server->on_listening()]: what it prints, and the client connects to the
    port the server got. *)
Definition on_listening (bound : socket_address) : bytes * prog :=
  (str "[server] listening on 127.0.0.1:" ++ decimal (Net.port bound) ++ newline,
   PConnect (Net.port bound) (str "127.0.0.1") PRet).

(** Once the future is ready: what [main] prints, and it destroys the
    client. *)
Definition finish (line : bytes) : bytes * prog := (str "[client] got back: " ++ c_str line, PDestroy PRet).

Section echo.
Context {K D C : Type} `{KernelLaws K}.
Abbreviation world := (world K bytes D C).
Implicit Types w : world.
Variable io_cb : C.
Variable connect_done : list socket_address -> D.
Variable fuel : nat.

#[local] Instance on_connection_writer : Writer on_connection (fun _ d => d) (fun _ _ => True).
Proof. apply echoing_writer. by intros []. Qed.

(** The echo server of the example echoes.  On every connection, however
    the kernel splits what arrives and what is sent, the bytes handed to the
    kernel and the bytes still buffered are a prefix of the bytes received,
    and all of them as long as the connection is open. *)
Theorem echo_server_echoes depth xs d p l k out w :
  Forall (fun x => io_only x = true) xs ->
  stimulate_all connect_done on_connection fuel io_cb depth xs (adopted io_cb d p l k out) = Done w ->
  sent (hist w) ++ drop (out_offset_ (sk w)) (outbuf_ (sk w)) `prefix_of` arrived (hist w) /\
  (state_ (sk w) = open_ -> sent (hist w) ++ drop (out_offset_ (sk w)) (outbuf_ (sk w)) = arrived (hist w)).
Proof.
  intros HP E. assert (written (fun _ d => d) (fun _ _ => True) (adopted io_cb d p l k out)) as Hw by (split_and!; done).
  pose proof (run_written on_connection _ _ io_cb connect_done fuel depth xs _ HP Hw) as Hp. rewrite E in Hp.
  destruct Hp as ([_ Ho] & Hda & _ & _ & He & Hpre). rewrite app_nil_r in He. rewrite Ho, <- Hda. done.
Qed.

End echo.

(** *** [main]

    The client at the left end of a link and the connection of the server at
    the right, from the moment the connection is established: the listener for
    [connect] writes the greeting, and [main] waits for the future. *)

(** The connection's listener, on the same type of state as the client. *)
Definition on_server_end (ev : tcp_event) (a : list bytes * bytes) : (list bytes * bytes) * prog :=
  let '(out, p) := on_connection ev a.2 in ((a.1, out), p).

Section main.
Context {K D C : Type} `{KernelLaws K} `{!StreamKernel K}.
Abbreviation link := (link (K := K) (A := list bytes * bytes) (D := D) (C := C)).
Implicit Types l : link.
Variables (dl dr : Z).
Variable connect_done : list socket_address -> D.
Variable io_cb : C.
Variables (fuel depth : nat).

Abbreviation step := (link_step dl dr connect_done io_cb on_client on_server_end fuel depth).

(** [future.get()] while [es] happens. *)
Fixpoint await (es : list link_event) l : exec (option bytes * link) :=
  match (env (left l)).1 with
  | line :: _ => Done (Some line, l)
  | [] =>
      match es with
      | [] => Done (None, l)
      | e :: es' => do l := step e l in await es' l
      end
  end.

(** What [main] prints last, if it gets that far; the listener for [connect]
    leaves the state alone. *)
Definition main (es : list link_event) l : exec (option bytes) :=
  do l := step (AtLeft (SCall (on_client EvConnect (env (left l))).2)) l in
  do (line, l) := await es l in
  match line with
  | None => Done None
  | Some line =>
      let '(out, p) := finish line in
      do _ := step (AtLeft (SCall p)) l in
      Done (Some out)
  end.

Lemma on_server_end_echoes ev a :
  (on_server_end ev a).2 = match ev with EvData chunk => PWrite chunk (fun _ => PRet) | _ => PRet end.
Proof. by destruct ev. Qed.

(** The client writes the greeting and nothing else, and the promise gets what
    it is given. *)
Definition promised_bytes (a : list bytes * bytes) (d : bytes) : Prop := concat a.1 = d.

#[local] Instance on_client_writer : Writer on_client (fun _ _ => greeting) promised_bytes.
Proof.
  intros ev a d Hi Hcon _. exists []. unfold promised_bytes in *.
  destruct ev; try done; simpl; rewrite ?app_nil_r; try done.
  rewrite to_string_id, concat_app. simpl. rewrite app_nil_r. by subst d.
Qed.

Abbreviation echo_ok := (pair_ok dl dr (fun _ _ => greeting) promised_bytes).

Lemma echo_step e l : pair_event e = true -> echo_ok l -> post (step e l) echo_ok.
Proof.
  exact (pair_step dl dr connect_done io_cb on_client on_server_end on_server_end_echoes fuel _ promised_bytes depth e l).
Qed.

Lemma await_ok es : forall l,
  Forall (fun e => pair_event e = true) es -> echo_ok l ->
  post (await es l) (fun r => echo_ok r.2 /\ forall line, r.1 = Some line -> exists rest, (env (left r.2)).1 = line :: rest).
Proof.
  induction es as [|e es IH]; intros l Hes Hl; simpl; destruct ((env (left l)).1) as [|line rest] eqn:El;
    try (simpl; split; [done|]; intros ? [= <-]; by exists rest).
  apply Forall_cons in Hes as [He Hes]. eapply (post_bind _ _ echo_ok); [by apply echo_step|].
  intros l1 Hl1. by apply IH.
Qed.

Lemma echo_ok_line l line rest : echo_ok l -> (env (left l)).1 = line :: rest -> line `prefix_of` greeting.
Proof.
  intros Hl El. pose proof (pair_bytes dl dr _ _ l Hl) as Hp. simpl in Hp. etrans; [|exact Hp].
  destruct Hl as [_ (_ & _ & _ & Hi & _)]. unfold promised_bytes in Hi. rewrite <- Hi, El. simpl. by apply prefix_app_r.
Qed.

Lemma greeting_line line : line `prefix_of` greeting -> c_str line = line.
Proof.
  intros [rest E]. apply c_str_id. assert (Forall (fun c => byte_val c <> 0) greeting) as Hg by (by repeat constructor).
  rewrite E in Hg. by apply Forall_app in Hg as [? _].
Qed.

(** What the example prints.  However the network splits and delays the bytes
    and however little the kernels take at a time, the program does nothing
    undefined, and if it gets to print a line then the line is the greeting or
    the beginning of it. *)
Theorem echo_prints_greeting es l :
  fresh_end dl (left l) -> fresh_end dr (right l) -> env (left l) = ([], []) ->
  Forall (fun e => pair_event e = true) es ->
  main es l <> Undef /\
  forall out, main es l = Done (Some out) ->
  exists line, out = str "[client] got back: " ++ line /\ line `prefix_of` greeting.
Proof.
  intros Hl Hr He Hes.
  assert (post (main es l) (fun o => forall out, o = Some out ->
            exists line, out = str "[client] got back: " ++ line /\ line `prefix_of` greeting)) as Hp.
  { unfold main. eapply (post_bind _ _ echo_ok).
    { cbn [on_client fst snd]. rewrite make_buffer_id.
      apply (pair_start dl dr connect_done io_cb on_client on_server_end on_server_end_echoes fuel _ promised_bytes depth [greeting] l Hl Hr).
      - by rewrite He.
      - cbn [concat]. by rewrite app_nil_r. }
    intros l1 Hl1. eapply post_bind; [by apply await_ok|]. intros [[line|] l2] [Hl2 Hline]; [|done]. simpl in Hl2, Hline.
    destruct (Hline line eq_refl) as [rest El]. pose proof (echo_ok_line l2 line rest Hl2 El) as Hpre.
    unfold finish. eapply (post_bind _ _ echo_ok); [by apply echo_step|].
    intros l3 _ out [= <-]. exists line. by rewrite greeting_line. }
  destruct (main es l) as [o| |]; [|done|done]. split; [done|]. intros out [= ->]. by apply Hp.
Qed.

End main.

(** Nobody sets the promise when the connection cannot be made: after a name
    that was not found, with any kernel, the client's socket is closed and the
    loop has nothing left to do, so [main] waits for ever. *)
Lemma unresolved_hangs {K D C} `{Kernel K} (connect_done : list socket_address -> D) (io_cb : C) fuel depth (k : K) :
  exists w, stimulate_all connect_done on_client fuel io_cb (S depth) [SResolved []] (created new_loop k ([], [])) = Done w /\
    (env w).1 = [] /\ state_ (sk w) = closed /\ watches_ (lp w) = ∅ /\ deferred_ (lp w) = [] /\ timers_ (lp w) = [].
Proof. by eexists. Qed.

(** The client and the promise: one value per chunk that arrives.  An echo
    that arrives in two pieces sets the promise twice, which throws. *)
Module examples.
Import TcpSocket.examples.

Abbreviation W := (world Scripted.script (list bytes * bytes) (list socket_address) unit).

(** A client whose connection is established, then readable twice. *)
Definition client_run (pieces : list bytes) : exec W :=
  stimulate_all id on_client 20 tt 5 [SResolved [loopback]; SIo writable_; SIo readable_]
    (created new_loop
       (Scripted.set_recvs (Scripted.set_sends Scripted.blank (may_send [15])) (incoming <$> pieces)) ([], [])).

Definition promised (pieces : list bytes) : list bytes :=
  match client_run pieces with Done w => (env w).1 | _ => [] end.

Theorem client_promise :
  promised [greeting] = [greeting] /\
  promised [str "hello over"; str " tcp" ++ newline] = [str "hello over"; str " tcp" ++ newline] /\
  match client_run [greeting] with Done w => sent (hist w) | _ => [] end = greeting.
Proof. by vm_compute. Qed.

(** [main] over a network that brings the echo back in one piece or in two, or
    not at all. *)
Definition echo_end_at (d : Z) : TcpSocket.world StreamHost.host (list bytes * bytes) (list socket_address) unit :=
  mk_world (adopted_socket d no_address) new_loop (StreamHost.mk_host ∅ (replicate 9 30%nat)) ([], []) no_history.
Definition connection := mk_link (echo_end_at 5) (echo_end_at 9).
Definition there_and (n : nat) : list link_event :=
  [ToRight 30; AtRight (SIo readable_); ToLeft n; AtLeft (SIo readable_)].
Definition run_main (es : list link_event) : exec (option bytes) := main 5 9 id tt 20 6 es connection.

Lemma echo_prints_greeting_witness :
  run_main (there_and 30) = Done (Some (str "[client] got back: " ++ greeting)) /\
  run_main (there_and 5) = Done (Some (str "[client] got back: hello")) /\ run_main [ToRight 30] = Done None /\
  exists line, str "[client] got back: hello" = str "[client] got back: " ++ line /\ line `prefix_of` greeting.
Proof.
  split; [by vm_compute|]. split; [by vm_compute|]. split; [by vm_compute|].
  refine (proj2 (echo_prints_greeting 5 9 id tt 20 6 (there_and 5) connection _ _ _ _) _ _).
  - by split_and!.
  - by split_and!.
  - reflexivity.
  - by repeat constructor.
  - by vm_compute.
Defined.

Definition echo_kernel := Scripted.set_recvs (Scripted.set_sends Scripted.blank (may_send [3; -1; 9])) [incoming (str "hello"); incoming (str "!")].
Definition echo_start : world Scripted.script bytes (list socket_address) unit :=
  adopted tt 5 no_address new_loop echo_kernel [].
Definition echo_run := stimulate_all id on_connection 20 tt 5 [SIo readable_] echo_start.
Definition echo_end := match echo_run with Done w => w | _ => echo_start end.

Lemma echo_server_echoes_witness :
  sent (hist echo_end) = str "hel" /\
  sent (hist echo_end) ++ drop (out_offset_ (sk echo_end)) (outbuf_ (sk echo_end)) = arrived (hist echo_end).
Proof.
  split; [by vm_compute|].
  refine (proj2 (echo_server_echoes tt id 20 5 [SIo readable_] 5 no_address new_loop echo_kernel [] echo_end _ _) _).
  - by repeat constructor.
  - by vm_compute.
  - by vm_compute.
Defined.

End examples.
End tcp_echo.

(** ** lnw-example-dns-dig *)

Module dns_dig.
Import Header Message UdpPeer DnsClient.

(** The command line: [argc > 1 ? argv[1] : ...]. *)
Definition query_name (argv : list bytes) : bytes := default (str "example.com") (argv !! 1%nat).
Definition resolver_of (argv : list bytes) : bytes := default (str "1.1.1.1") (argv !! 2%nat).

(** What [answered.set_value] was called with, and standard error. *)
Definition outcome : Type := list (option message) * bytes.

Definition handle (h : unit) (m : option message) (a : outcome) : outcome * DnsClient.prog unit :=
  ((a.1 ++ [m], a.2), PRet).
Definition complain (m : bytes) (a : outcome) : outcome * DnsClient.prog unit :=
  ((a.1, a.2 ++ str "error: " ++ c_str m ++ newline), PRet).

(** [set_timeout(3 s)], then the one query. *)
Definition ask (argv : list bytes) : DnsClient.prog unit :=
  PTimeout 3000 (PQuery (query_name argv) record_type.a tt PRet).

(** What [main] does with the reply: exit status, standard output, standard
    error. *)
Definition report (argv : list bytes) (reply : option message) : Z * bytes * bytes :=
  match reply with
  | None => (1, [], str ";; no response from " ++ c_str (resolver_of argv) ++ str " (timed out)" ++ newline)
  | Some m =>
      let h := header_ m in
      (0,
       str ";; got answer from " ++ c_str (resolver_of argv) ++ str " for " ++ c_str (query_name argv) ++ newline ++
       str ";; ->>HEADER<<- id: " ++ decimal (id h) ++ str ", rcode: " ++ decimal (rcode_ h) ++
       str ", flags:" ++ when_ (response h) (str " qr") ++ when_ (recursion_available h) (str " ra") ++
       str "; QUERY: " ++ decimal (question_count h) ++ str ", ANSWER: " ++ decimal (answer_count h) ++
       str ", AUTHORITY: " ++ decimal (authority_count h) ++ str ", ADDITIONAL: " ++ decimal (additional_count h) ++ newline ++
       str ";; (answer-section decoding lands in SRS-001 M3)" ++ newline,
       [])
  end.

Section dig.
Context {K R C : Type} `{KL : KernelLaws K} `{KD : !DatagramKernel K}.
Abbreviation world := (UdpPeer.world K (client unit R outcome) Z C).
Implicit Types w : world.
Variable draw : R -> Z * R.
Variable now : world -> Z.
Variable io_cb : C.

Abbreviation call_handler := (call_handler draw now io_cb handle complain).
Abbreviation on_error := (on_error draw now io_cb handle complain).

Section promise.
(** Timers are due at [limit]. *)
Variable limit : Z.
Definition timely w : Prop := Forall (fun t => when t = limit) (timers_ (lp w)).

(** [n] queries were made, none of them was dropped, the promise got what the
    handlers were called with, and timers are timely. *)
Definition promised (n : nat) w : Prop :=
  length (asked (env w)) = n /\ (app (env w)).1 = (answered (env w)).*2 /\
  lost (env w) = [] /\ (n = 0%nat -> pending_ (env w) = ∅ /\ timeout_ (env w) = 3000) /\ timely w.

Definition dig_ok (n : nat) w : Prop := world_ok io_cb (promised n) w.

Lemma promised_frame n w w' : same_above w w' -> promised n w -> promised n w'.
Proof. intros [(He & Ht & _) _]. unfold promised, timely. by rewrite He, Ht. Qed.

Lemma promised_arrives n d w w' : arrives d w w' -> promised n w -> promised n w'.
Proof. intros [(He & Ht & _) _]. unfold promised, timely. by rewrite He, Ht. Qed.

Lemma answer_dig n depth h m w : dig_ok n w -> post (answer (call_handler depth) h m w) (dig_ok n).
Proof.
  intros [Hp (Hn & Ha & Hl & He & Ht)]. destruct depth as [|depth]; [done|]. split; [exact Hp|].
  split_and!; [done| |done|done|done]. simpl. by rewrite Ha, fmap_app.
Qed.

Lemma error_dig n depth m w : dig_ok n w -> post (on_error depth m w) (dig_ok n).
Proof. intros Hw. by destruct depth. Qed.

Lemma resolve_dig n depth id m w : dig_ok n w -> post (resolve (call_handler depth) id m w) (dig_ok n).
Proof.
  intros Hw. unfold resolve. destruct (pending_ (env w) !! id) as [e|]; [|done]. apply answer_dig.
  destruct Hw as [Hp (Hn & Ha & Hl & He & Ht)]. split; [|split_and!; [done|done|done| |]].
  - apply (peer_ok_above io_cb w); [done|done|done| |done]. apply (clear_timeout_watching (lp w)), Hp.
  - simpl. intros Hz. destruct (He Hz) as [-> ->]. by rewrite delete_empty.
  - by apply Forall_filter_keep.
Qed.

Lemma on_peer_dig n depth ev w :
  event_ok ev -> dig_ok n w -> post (on_peer (call_handler depth) (on_error depth) ev w) (dig_ok n).
Proof.
  intros Hev Hw. destruct ev as [|d a|m|]; simpl; [done| |by apply error_dig|done].
  destruct (parse_done d) as (o & -> & _).
  { simpl in Hev. unfold Reader.buf_ok, UdpPeer.recv_size in *. lia. }
  simpl. destruct o; [by apply resolve_dig|by apply error_dig].
Qed.

Lemma expire_all_dig n depth due : forall w, dig_ok n w -> post (expire_all (call_handler depth) due w) (dig_ok n).
Proof.
  induction due as [|t due IH]; intros w Hw; [done|]. simpl. eapply post_bind; [by apply resolve_dig|exact IH].
Qed.

Lemma fire_dig n depth at_ w : dig_ok n w -> post (fire (call_handler depth) at_ w) (dig_ok n).
Proof.
  intros [Hp (Hn & Ha & Hl & He & Ht)]. unfold fire. rewrite take_due_spec. apply expire_all_dig.
  split; [apply (peer_ok_above io_cb w); [done|done|done|apply Hp|done]|]. split_and!; [done|done|done|done|].
  by apply Forall_filter_keep.
Qed.

(** The clock is read after the random engine was advanced. *)
Definition asking w : world := upd_env (set_rng (draw (rng_ (env w))).2) w.

Lemma query_dig depth name type h w :
  dig_ok 0 w -> now (asking w) + 3000 * ns_per_ms = limit -> post (query draw now io_cb (call_handler depth) (on_error depth) name type h w) (dig_ok 1).
Proof.
  intros [Hp (Hn & Ha & Hl & He & Ht)] Hnow. specialize (He eq_refl) as [He Hms]. unfold query, next_id. unfold asking in Hnow.
  destruct (draw _) as [x r]. simpl in Hnow. set (w1 := upd_env (set_rng r) w) in *. assert (dig_ok 0 w1) as Hw1 by by split_and!.
  destruct (serialize_total (request_of (u16 x) type name)) as [o ->]. simpl. destruct o as [wire|].
  2: { eapply post_bind; [by apply (error_dig 0 depth _ w1)|]. intros w2 [Hp2 (Hn2 & Ha2 & Hl2 & _ & Ht2)].
       apply answer_dig. split; [exact Hp2|]. split_and!; [|done|done|done|done]. simpl. by rewrite length_app, Hn2. }
  pose proof (set_timeout_watching (lp w1) (now w1) (timeout_ (env w1)) (u16 x) (proj1 Hp)) as Hlp.
  eapply post_bind;
    [apply (send_ok io_cb (promised 1)); [apply promised_frame|intros ev w3 Hev; apply on_peer_dig; by destruct ev|]|].
  - split; [by apply (peer_ok_above io_cb w)|]. unfold promised, emplace, timely. simpl. rewrite He, lookup_empty, Hms. simpl.
    rewrite length_app, Hn. split_and!; [done|done|done|done|]. apply Forall_app. split; [exact Ht|by repeat constructor].
  - intros [b w2] Hw2. simpl in Hw2. simpl. branch; [done|]. by apply resolve_dig.
Qed.

(** Afterwards [main] only waits: the loop reads datagrams and fires timers. *)
Definition waiting (x : DnsClient.stimulus (H := unit)) : bool := match x with SCall _ => false | _ => true end.

Lemma waiting_dig fuel depth xs : forall n w,
  Forall (fun x => waiting x = true) xs -> dig_ok n w ->
  post (DnsClient.stimulate_all draw now io_cb handle complain fuel depth xs w) (dig_ok n).
Proof.
  induction xs as [|x xs IH]; intros n w HP Hw; [done|]. apply Forall_cons in HP as [Hx HP]. simpl.
  eapply (post_bind _ _ (dig_ok n)); [|intros w1 Hw1; by apply IH]. destruct x as [|at_|p]; simpl; [|by apply fire_dig|done].
  apply (drain_ok io_cb (promised n) (promised_frame n) _) with (arriving := fun _ => promised n).
  - intros ev w1 Hev. apply on_peer_dig. by destruct ev.
  - apply promised_arrives.
  - intros d a w1 Hd Hp Ha. apply on_peer_dig; [done|by split].
  - done.
Qed.

Lemma dig_counts w : ok io_cb [] w -> dig_ok 1 w ->
  (length (answered (env w)) + length (handlers (pending_ (env w))) = 1)%nat /\
  length (app (env w)).1 = length (answered (env w)).
Proof.
  intros [_ [Hperm _]] [_ (Hn & Ha & Hl & _)]. unfold accounted in Hperm. rewrite Hl, app_nil_r in Hperm.
  apply Permutation_length in Hperm. rewrite length_app, length_fmap in Hperm. rewrite Ha, length_fmap. lia.
Qed.

(** The timers fire past every deadline. *)
Lemma fire_promises depth w at_ w' :
  ok io_cb [] w -> dig_ok 1 w -> (forall t, t ∈ timers_ (lp w) -> when t <= at_) ->
  fire (call_handler depth) at_ w = Done w' -> length (app (env w')).1 = 1%nat.
Proof.
  intros Ho Hd Hdue E'.
  assert (DnsDeadlines.was_answered tt (env w')) as [m Hin].
  { destruct (dig_counts w Ho Hd) as [Hsum _]. destruct (answered (env w)) as [|[[] m] rest] eqn:Ea.
    - destruct (map_to_list (pending_ (env w))) as [|[id e] rest] eqn:Em; unfold handlers in Hsum; rewrite Em in Hsum; [done|].
      assert (pending_ (env w) !! id = Some e) as He by (apply elem_of_map_to_list; rewrite Em; left).
      assert (few w) as Hfew. { destruct Hd as [_ (Hn & _)]. unfold few. rewrite Hn. lia. }
      pose proof (DnsDeadlines.fire_answers draw now io_cb handle complain depth w at_ w' id e Ho Hfew He
        (fun t Ht _ => Hdue t Ht) E') as Hans. by destruct (handler e).
    - apply (DnsDeadlines.fire_keeps_answered draw now io_cb handle complain depth w at_ w'); [done| |done].
      exists m. rewrite Ea. left. }
  assert (ok io_cb [] w' /\ dig_ok 1 w') as [Ho' Hd'].
  { split; (eapply post_done; [|exact E']); simpl; [|by apply fire_dig].
    apply fire_ok; [|done]. intros. by apply handlers_ok. }
  destruct (dig_counts w' Ho' Hd') as [Hsum ->]. destruct (answered (env w')); [by apply elem_of_nil in Hin|]. simpl in *. lia.
Qed.

End promise.

(** What [main] starts from, and when its query is due. *)
Definition opened_client (argv : list bytes) (r : R) (k : K) : world := fresh (resolver_of argv) 53 r k ([], []).
Definition deadline (argv : list bytes) (r : R) (k : K) : Z :=
  now (asking (upd_env (set_timeout_ms 3000) (opened_client argv r k))) + 3000 * ns_per_ms.

(** After the query. *)
Lemma ask_dig fuel depth argv r k :
  post (DnsClient.stimulate draw now io_cb handle complain fuel depth (SCall (ask argv)) (opened_client argv r k))
    (dig_ok (deadline argv r k) 1).
Proof.
  destruct depth as [|depth]; [done|]. simpl. eapply post_bind; [|by intros].
  apply (query_dig (deadline argv r k) depth); [|done]. split; [by split_and!|]. split_and!; try done. by constructor.
Qed.

(** After the query and any waiting. *)
Lemma dig_reaches fuel depth xs argv r k w :
  Forall (fun x => waiting x = true) xs ->
  DnsClient.stimulate_all draw now io_cb handle complain fuel depth (SCall (ask argv) :: xs) (opened_client argv r k) = Done w ->
  ok io_cb [] w /\ dig_ok (deadline argv r k) 1 w.
Proof.
  intros HP E. split.
  { exact (post_done _ _ _ (client_stimulate_all_ok draw now io_cb handle complain fuel depth
      (SCall (ask argv) :: xs) _ (fresh_ok io_cb (resolver_of argv) 53 r k ([], []))) E). }
  eapply post_done; [|exact E]. cbn [DnsClient.stimulate_all]. eapply post_bind; [apply ask_dig|].
  intros w1 Hw1. by apply waiting_dig.
Qed.

(** The dig example never sets its promise twice: whatever the network
    returns (duplicated, late, forged or malformed datagrams, send errors) and
    whenever the timeout fires, the answer handler runs at most once. *)
Theorem dig_promise_set_once fuel depth xs argv r k w :
  Forall (fun x => waiting x = true) xs ->
  DnsClient.stimulate_all draw now io_cb handle complain fuel depth (SCall (ask argv) :: xs)
    (opened_client argv r k) = Done w ->
  (length (app (env w)).1 <= 1)%nat.
Proof. intros HP E. destruct (dig_reaches _ _ _ _ _ _ _ HP E) as [Ho Hd]. pose proof (dig_counts _ w Ho Hd). lia. Qed.

(** *** [main] *)

(** [future.get()] while the loop thread handles [xs]; nothing if the promise
    is still empty then. *)
Fixpoint await (fuel depth : nat) (xs : list (DnsClient.stimulus (H := unit))) w : exec (option (option message) * world) :=
  match (app (env w)).1 with
  | reply :: _ => Done (Some reply, w)
  | [] =>
      match xs with
      | [] => Done (None, w)
      | x :: xs' =>
          do w := DnsClient.stimulate draw now io_cb handle complain fuel depth x w in
          await fuel depth xs' w
      end
  end.

(** Exit status, standard output and standard error, if it gets that far. *)
Definition main (fuel depth : nat) (argv : list bytes) (xs : list (DnsClient.stimulus (H := unit))) (r : R) (k : K) :
    exec (option (Z * bytes * bytes)) :=
  do w := DnsClient.stimulate draw now io_cb handle complain fuel depth (SCall (ask argv)) (opened_client argv r k) in
  do (reply, w) := await fuel depth xs w in
  match reply with
  | None => Done None
  | Some reply =>
      let '(code, out, err) := report argv reply in
      Done (Some (code, out, (app (env w)).2 ++ err))
  end.

(** Nothing in it takes long: calls that return, with the kernel as it was. *)
Definition quick w (m : exec world) : Prop := exists w', m = Done w' /\ kn w' = kn w.

Lemma resolve_quick depth id m w : (0 < depth)%nat -> quick w (resolve (call_handler depth) id m w).
Proof.
  intros Hd. destruct depth as [|depth]; [lia|]. unfold resolve. destruct (pending_ (env w) !! id) as [e|]; [|by exists w].
  by eexists.
Qed.

Lemma on_peer_quick depth ev w :
  (0 < depth)%nat -> event_ok ev -> quick w (on_peer (call_handler depth) (on_error depth) ev w).
Proof.
  intros Hd Hev. assert (forall m, quick w (on_error depth m w)) as Herr. { intros m. destruct depth; [lia|]. by eexists. }
  destruct ev as [|d a|m|]; simpl; [by exists w| |done|by exists w].
  destruct (parse_done d) as (o & -> & _).
  { simpl in Hev. unfold Reader.buf_ok, UdpPeer.recv_size in *. lia. }
  simpl. destruct o; [by apply resolve_quick|done].
Qed.

Lemma expire_all_quick depth due : forall w, (0 < depth)%nat -> quick w (expire_all (call_handler depth) due w).
Proof.
  induction due as [|t due IH]; intros w Hd; [by exists w|]. simpl. unfold expire.
  destruct (resolve_quick depth (fn t) None w Hd) as (w1 & -> & E1). simpl. destruct (IH w1 Hd) as (w2 & -> & E2).
  exists w2. split; [done|congruence].
Qed.

Lemma fire_quick depth at_ w : (0 < depth)%nat -> quick w (fire (call_handler depth) at_ w).
Proof.
  intros Hd. unfold fire. destruct (take_due _ _) as [due rest].
  destruct (expire_all_quick depth due (set_lp (set_timers (lp w) (poller_ (lp w)) rest (next_timer_id_ (lp w))) w) Hd) as (w' & -> & E).
  by exists w'.
Qed.

Lemma ask_returns fuel depth argv w :
  (1 < depth)%nat -> exists w', DnsClient.stimulate draw now io_cb handle complain fuel depth (SCall (ask argv)) w = Done w'.
Proof.
  intros Hd. destruct depth as [|[|depth]]; [lia|lia|]. simpl. set (w0 := upd_env _ w). unfold query, next_id.
  destruct (draw _) as [x r]. destruct (serialize_total (request_of (u16 x) record_type.a (query_name argv))) as [o ->]. simpl.
  destruct o as [wire|]; [|by eexists]. 
  edestruct (send_returns io_cb (on_peer (call_handler (S depth)) (on_error (S depth)))) as (b & w1 & E).
  { intros ev w1 Hev. destruct (on_peer_quick (S depth) ev w1 ltac:(lia) Hev) as (w2 & ? & _). by exists w2. }
  match goal with |- exists w', exec_bind (exec_bind ?x _) _ = _ => replace x with (Done (b, w1) : exec (bool * world)) by (symmetry; exact E) end.
  simpl. destruct b; simpl; [by eexists|].
  edestruct (resolve_quick (S depth) (u16 x) None w1) as (w2 & E2 & _); [lia|].
  match goal with |- exists w', exec_bind ?x _ = _ => replace x with (Done w2 : exec world) by (symmetry; exact E2) end. by eexists.
Qed.

Lemma stimulate_one fuel depth x w w' :
  DnsClient.stimulate draw now io_cb handle complain fuel depth x w = Done w' ->
  DnsClient.stimulate_all draw now io_cb handle complain fuel depth [x] w = Done w'.
Proof. intros E. cbn [DnsClient.stimulate_all]. by rewrite E. Qed.

Lemma stimulate_ok fuel depth x w w' :
  ok io_cb [] w -> DnsClient.stimulate draw now io_cb handle complain fuel depth x w = Done w' -> ok io_cb [] w'.
Proof.
  intros Hw E%stimulate_one. eapply post_done; [|exact E]. by apply client_stimulate_all_ok.
Qed.

Context `{!KernelProgress K}.

Lemma waiting_returns fuel depth x w :
  waiting x = true -> (0 < depth)%nat -> (work (kn w) < fuel)%nat ->
  exists w', DnsClient.stimulate draw now io_cb handle complain fuel depth x w = Done w' /\ (work (kn w') <= work (kn w))%nat.
Proof.
  intros Hx Hd Hf. destruct x as [|at_|p]; simpl; [| |done].
  - destruct (drain_returns anything (on_peer (call_handler depth) (on_error depth)) ltac:(done)) with (fuel := fuel) (w := w)
      as (w' & E & _ & Hwk); [|done|done|by exists w'].
    intros ev w1 Hev _. destruct (on_peer_quick depth ev w1 Hd Hev) as (w2 & E2 & Ek). exists w2. rewrite Ek. split_and!; [done|done|lia].
  - destruct (fire_quick depth at_ w Hd) as (w' & E & Ek). exists w'. rewrite Ek. split; [done|lia].
Qed.

Lemma await_returns fuel depth xs at_ limit : forall w,
  Forall (fun x => waiting x = true) xs -> (0 < depth)%nat -> (work (kn w) < fuel)%nat ->
  ok io_cb [] w -> dig_ok limit 1 w -> limit <= at_ ->
  exists reply w', await fuel depth (xs ++ [SFire at_]) w = Done (Some reply, w').
Proof.
  induction xs as [|x xs IH]; intros w HP Hd Hf Ho Hdig Hat.
  - cbn [Datatypes.app await]. destruct ((DnsClient.app (env w)).1) as [|reply l]; [|by do 2 eexists].
    destruct (waiting_returns fuel depth (SFire at_) w eq_refl Hd Hf) as (w' & E & _). rewrite E. cbn [exec_bind await].
    assert (forall t, t ∈ timers_ (lp w) -> when t <= at_) as Hdue.
    { intros t Ht. destruct Hdig as (_ & _ & _ & _ & _ & Ht0). unfold timely in Ht0. rewrite Forall_forall in Ht0.
      specialize (Ht0 t Ht). lia. }
    pose proof (fire_promises limit depth w at_ w' Ho Hdig Hdue E) as Hone.
    destruct ((DnsClient.app (env w')).1) as [|reply l]; [done|by do 2 eexists].
  - apply Forall_cons in HP as [Hx HP]. cbn [Datatypes.app await]. destruct ((DnsClient.app (env w)).1) as [|reply l]; [|by do 2 eexists].
    destruct (waiting_returns fuel depth x w Hx Hd Hf) as (w' & E & Hwk). rewrite E. cbn [exec_bind].
    apply IH; [done|done|lia| | |done].
    + by eapply stimulate_ok.
    + eapply post_done; [|apply stimulate_one, E]. apply waiting_dig; [by constructor|done].
Qed.

(** While [main] is in [query] the loop thread already runs.  What [query]
    gives it of the client are a timer three seconds ahead and, as the very
    last thing, the watch of the peer's descriptor. *)
Lemma ask_publishes depth argv r k :
  post (DnsClient.stimulate draw now io_cb handle complain 0 depth (SCall (ask argv)) (opened_client argv r k))
    (published_last io_cb ∅).
Proof.
  destruct depth as [|depth]; [done|]. simpl. eapply post_bind; [|by intros]. set (w := upd_env (set_timeout_ms 3000) (opened_client argv r k)).
  assert (watches_ (lp w) = ∅) as E0 by done. revert E0. generalize w. clear w. intros w E0.
  assert (forall m w1, watches_ (lp w1) = ∅ -> post (on_error depth m w1) (fun w' => watches_ (lp w') = ∅)) as Herr.
  { intros m w1 E1. by destruct depth. }
  assert (forall h m w1, watches_ (lp w1) = ∅ -> post (call_handler depth h m w1) (fun w' => watches_ (lp w') = ∅)) as Hh.
  { intros h m w1 E1. by destruct depth. }
  destruct (serialize_total (request_of (u16 (draw (rng_ (env w))).1) record_type.a (query_name argv))) as [[wire|] Es].
  - rewrite (DnsDeadlines.query_sends _ _ _ _ _ _ _ _ _ _ Es). eapply post_bind; [apply send_publishes|].
    + intros ev w1 Hev. destruct ev as [|d a|m|]; [done|done| |done]. simpl. by destruct depth.
    + intros [b w1] [Hp Hb]. simpl in *. rewrite E0 in *. destruct b; simpl; [exact Hp|]. specialize (Hb eq_refl).
      unfold resolve. destruct (pending_ (env w1) !! _) as [e|]; [|by left].
      eapply post_mono; [apply Hh; exact Hb|]. intros w2 E2. by left.
  - unfold query, next_id. destruct (draw _) as [x r0]. simpl in Es. rewrite Es. simpl.
    eapply post_bind; [exact (Herr _ (upd_env (set_rng r0) w) E0)|]. intros w1 E1.
    eapply post_mono; [exact (Hh tt None (upd_env (log_answered tt None) (upd_env (log_asked tt) w1)) E1)|]. intros w2 E2. by left.
Qed.

(** C17. The lookup program comes to an end.  Whatever the network returns
    (duplicated, late, forged or malformed datagrams, nothing at all) and
    whatever system calls fail, once the loop has fired its timers three
    seconds after the query, [main] has got a reply or been told that there is
    none, and exits with the report of it: the iteration bound it needs depends
    only on the work pending in the kernel after the query.  The query and what
    the loop thread does are taken one after the other, although the loop
    already runs; the first part says why: when [query] returns, the watch of
    the descriptor either is the last thing it did or was not made, so before
    that the loop thread can get at the client only through the timer, in case
    the call itself takes three seconds, which is not covered. *)
Theorem dig_exits argv r k depth :
  (1 < depth)%nat ->
  (exists w, DnsClient.stimulate draw now io_cb handle complain 0 depth (SCall (ask argv)) (opened_client argv r k) = Done w /\
     published_last io_cb ∅ w /\ timely (deadline argv r k) w) /\
  exists bound, forall fuel xs at_,
  (bound < fuel)%nat -> Forall (fun x => waiting x = true) xs -> deadline argv r k <= at_ ->
  exists reply complaints,
    main fuel depth argv (xs ++ [SFire at_]) r k =
      (let '(code, out, err) := report argv reply in Done (Some (code, out, complaints ++ err))).
Proof.
  intros Hd. destruct (ask_returns 0 depth argv (opened_client argv r k) Hd) as (w0 & E0).
  pose proof (post_done _ _ _ (ask_dig 0 depth argv r k) E0) as Hdig. split.
  { exists w0. split; [exact E0|]. split; [exact (post_done _ _ _ (ask_publishes depth argv r k) E0)|apply Hdig]. }
  exists (work (kn w0)). intros fuel xs at_ Hf HP Hat. unfold main.
  change (DnsClient.stimulate draw now io_cb handle complain fuel depth (SCall (ask argv)) (opened_client argv r k)) with
    (DnsClient.stimulate draw now io_cb handle complain 0 depth (SCall (ask argv)) (opened_client argv r k)).
  rewrite E0. cbn [exec_bind].
  destruct (await_returns fuel depth xs at_ (deadline argv r k) w0) as (reply & w' & ->); [done|lia|done| |done|done|].
  - eapply stimulate_ok; [|exact E0]. apply fresh_ok.
  - exists reply, ((DnsClient.app (env w')).2). cbn [exec_bind]. by destruct (report argv reply) as [[??]?].
Qed.

End dig.
Module examples.

(** The reply arrives, is duplicated, and the timeout passes afterwards. *)
Definition remote := mk_sockaddr AF_INET (htons 53) (str "abcd").
Definition reply : message :=
  mk_message (mk_header 7 true opcode.query false false true true rcode.no_error 1 0 0 0)
    [mk_question (str "example.com") record_type.a record_class.in_].
Definition reply_wire : bytes := match serialize reply with Done (Some b) => b | _ => [] end.
Abbreviation kernel_state := (Tap.tapped Scripted.script).
Definition kernel : kernel_state := Tap.tap (Scripted.set_names
  (Scripted.set_sends
     (Scripted.set_recvs Scripted.blank [(SysOk 0, reply_wire, remote); (SysOk 0, reply_wire, remote)]) [SysOk 100])
  [(str "1.1.1.1", remote)]).
Definition draw (r : unit) : Z * unit := (7, r).

Abbreviation W := (UdpPeer.world kernel_state (client unit unit outcome) Z unit).
Definition start : W := fresh (resolver_of []) 53 tt kernel ([], []).
Definition xs : list (DnsClient.stimulus (H := unit)) := [SReadable; SFire (10 ^ 20)].
Definition run := DnsClient.stimulate_all draw (fun _ => 0) tt handle complain 20 5 (SCall (ask []) :: xs) start.
Definition final : W := match run with Done w => w | _ => start end.

Lemma dig_promise_set_once_witness :
  (app (env final)).1 = [Some reply] /\ (length (app (env final)).1 <= 1)%nat.
Proof.
  split; [by vm_compute|].
  apply (dig_promise_set_once draw (fun _ => 0) tt 20 5 xs [] tt kernel final).
  - by repeat constructor.
  - by vm_compute.
Defined.

(** Nothing answers; the timeout does. *)
Definition deaf : kernel_state := Tap.tap (Scripted.set_names (Scripted.set_sends Scripted.blank [SysOk 100]) [(str "1.1.1.1", remote)]).
Definition status_of (o : exec (option (Z * bytes * bytes))) : option (Z * bytes) :=
  match o with Done (Some (code, out, err)) => Some (code, err) | _ => None end.
Definition at_deadline : list (DnsClient.stimulus (H := unit)) := [SReadable; SFire (3000 * ns_per_ms)].
Definition dig (k : kernel_state) (xs : list (DnsClient.stimulus (H := unit))) := main draw (fun _ => 0) tt 20 5 [] xs tt k.

Lemma dig_exits_witness :
  status_of (dig deaf at_deadline) = Some (1, str ";; no response from 1.1.1.1 (timed out)" ++ newline) /\
  status_of (dig kernel [SReadable]) = Some (0, []) /\ dig deaf [SReadable] = Done None /\
  exists bound, forall fuel xs at_,
    (bound < fuel)%nat -> Forall (fun x => waiting x = true) xs -> deadline (C := unit) draw (fun _ => 0) [] tt deaf <= at_ ->
    exists reply complaints,
      main draw (fun _ => 0) tt fuel 5 [] (xs ++ [SFire at_]) tt deaf =
        (let '(code, out, err) := report [] reply in Done (Some (code, out, complaints ++ err))).
Proof.
  split; [by vm_compute|]. split; [by vm_compute|]. split; [by vm_compute|].
  refine (proj2 (dig_exits draw (fun _ => 0) tt [] tt deaf 5 _)). lia.
Defined.

End examples.
End dns_dig.
