(* ===== verification/Bench.v ===== *)
(** * The harness of the benchmarks

    benchmarks/cpp/bench_common.hpp: the command line, the latency histogram,
    the frames that carry a timestamp, and the figures of the result line.  A
    [double] is a binary64 number of the specification in the standard
    library; the conversion of text to [double] is a parameter.  The order of
    the bytes of an integer in memory is a parameter too, because the frames
    are filled with [std::memcpy]. *)

From Stdlib Require Import Floats.SpecFloat.
From stdpp Require Import sorting.
From S2P Require Import Prelude Net.
#[local] Open Scope Z_scope.

(** ** [double] *)

Definition double : Type := spec_float.
Definition of_int (n : Z) : double := binary_normalize 53 1024 n 0 false.
Definition mul : double -> double -> double := SFmul 53 1024.
Definition div : double -> double -> double := SFdiv 53 1024.

(** [static_cast<std::uint64_t>(std::ceil(x))]; undefined when the value does
    not fit. *)
Definition ceil_u64 (x : double) : exec Z :=
  let fits n := if (0 <=? n) && (n <? 2 ^ 64) then Done n else Undef in
  match x with
  | S754_zero _ => Done 0
  | S754_finite s m e =>
      let v := if s then Z.neg m else Z.pos m in
      fits (if 0 <=? e then Z.shiftl v e else - Z.shiftr (- v) (- e))
  | _ => Undef
  end.

(** ** Options *)

Record options := mk_options {
  proto : bytes;
  host : bytes;
  port : Z;
  connections : Z;
  duration_s : double;
  warmup_s : double;
  payload : Z;
  pipeline : Z;
  stack : bytes
}.

Definition default_options (stack : bytes) : options :=
  mk_options (str "tcp") (str "127.0.0.1") 0 1 (of_int 10) (of_int 3) 64 1 stack.

Definition set_proto v o := mk_options v (host o) (port o) (connections o) (duration_s o) (warmup_s o) (payload o) (pipeline o) (stack o).
Definition set_host v o := mk_options (proto o) v (port o) (connections o) (duration_s o) (warmup_s o) (payload o) (pipeline o) (stack o).
Definition set_port v o := mk_options (proto o) (host o) v (connections o) (duration_s o) (warmup_s o) (payload o) (pipeline o) (stack o).
Definition set_connections v o := mk_options (proto o) (host o) (port o) v (duration_s o) (warmup_s o) (payload o) (pipeline o) (stack o).
Definition set_duration v o := mk_options (proto o) (host o) (port o) (connections o) v (warmup_s o) (payload o) (pipeline o) (stack o).
Definition set_warmup v o := mk_options (proto o) (host o) (port o) (connections o) (duration_s o) v (payload o) (pipeline o) (stack o).
Definition set_payload v o := mk_options (proto o) (host o) (port o) (connections o) (duration_s o) (warmup_s o) v (pipeline o) (stack o).
Definition set_pipeline v o := mk_options (proto o) (host o) (port o) (connections o) (duration_s o) (warmup_s o) (payload o) v (stack o).

(** [std::stoi]: leading space, a sign, and the longest run of digits; throws
    when there is none or the value is not an [int]. *)
Definition is_space (c : byte) : bool := (byte_val c =? 32) || ((9 <=? byte_val c) && (byte_val c <=? 13)).
Definition digit_of (c : byte) : option Z :=
  if (48 <=? byte_val c) && (byte_val c <=? 57) then Some (byte_val c - 48) else None.

Fixpoint skip_space (s : bytes) : bytes :=
  match s with
  | c :: s' => if is_space c then skip_space s' else s
  | [] => []
  end.

Fixpoint digits_from (acc : Z) (s : bytes) : Z :=
  match s with
  | c :: s' => match digit_of c with Some d => digits_from (acc * 10 + d) s' | None => acc end
  | [] => acc
  end.

Definition unsigned_part (s : bytes) : option Z :=
  match s with
  | c :: s' => match digit_of c with Some d => Some (digits_from d s') | None => None end
  | [] => None
  end.

Definition stoi (s : bytes) : option Z :=
  let value :=
    match skip_space s with
    | c :: s' =>
        if byte_val c =? 45 then Z.opp <$> unsigned_part s'
        else if byte_val c =? 43 then unsigned_part s'
        else unsigned_part (c :: s')
    | [] => None
    end in
  match value with
  | Some v => if (- 2 ^ 31 <=? v) && (v <? 2 ^ 31) then Some v else None
  | None => None
  end.

(** [tok.find('=')]. *)
Fixpoint find_eq (s : bytes) : option nat :=
  match s with
  | [] => None
  | c :: s' => if byte_val c =? 61 then Some O else S <$> find_eq s'
  end.

(** The parsed options; [die_usage] with the argument it names, which exits with
    status 2; or an exception that nobody catches. *)
Inductive parsed := Parsed (o : options) | Usage (arg : bytes) | Uncaught.

Section parse.
Variable stod : bytes -> option double.

(** The assignment of one key: [None] for a key that is not known, and an inner
    [None] for a conversion that throws. *)
Definition assign (key val : bytes) (o : options) : option (option options) :=
  if bool_decide (key = str "--proto") then Some (Some (set_proto val o))
  else if bool_decide (key = str "--host") then Some (Some (set_host val o))
  else if bool_decide (key = str "--port") then Some ((fun v => set_port (u16 v) o) <$> stoi val)
  else if bool_decide (key = str "--connections") || bool_decide (key = str "-c") then
    Some ((fun v => set_connections v o) <$> stoi val)
  else if bool_decide (key = str "--duration") || bool_decide (key = str "-d") then
    Some ((fun v => set_duration v o) <$> stod val)
  else if bool_decide (key = str "--warmup") then Some ((fun v => set_warmup v o) <$> stod val)
  else if bool_decide (key = str "--payload") then Some ((fun v => set_payload v o) <$> stoi val)
  else if bool_decide (key = str "--pipeline") then Some ((fun v => set_pipeline v o) <$> stoi val)
  else None.

(** The loop over the arguments after the program's name. *)
Fixpoint parse_args (args : list bytes) (o : options) : parsed :=
  match args with
  | [] => Parsed o
  | tok :: rest =>
      let '(key, val) :=
        match find_eq tok with
        | Some i => (take i tok, drop (i + 1) tok)
        | None => (tok, match rest with next :: _ => next | [] => [] end)
        end in
      match assign key val o with
      | None => Usage tok
      | Some r =>
          match val with
          | [] => Usage tok
          | _ =>
              match r with
              | None => Uncaught
              | Some o =>
                  match find_eq tok with
                  | Some _ => parse_args rest o
                  | None => parse_args (match rest with _ :: rest' => rest' | [] => rest end) o
                  end
              end
          end
      end
  end.

Definition clamp (o : options) : options :=
  set_connections (Z.max (connections o) 1) (set_pipeline (Z.max (pipeline o) 1) (set_payload (Z.max (payload o) 8) o)).

Definition parse_options (args : list bytes) (stack : bytes) : parsed :=
  match parse_args args (default_options stack) with
  | Parsed o => Parsed (clamp o)
  | r => r
  end.

(** *** What parsed options satisfy *)

Definition is_int (v : Z) : Prop := - 2 ^ 31 <= v < 2 ^ 31.
Definition options_typed (o : options) : Prop :=
  is_u16 (port o) /\ is_int (connections o) /\ is_int (payload o) /\ is_int (pipeline o).

Lemma stoi_int s v : stoi s = Some v -> is_int v.
Proof.
  unfold stoi. set (value := match skip_space s with [] => _ | _ => _ end). destruct value as [z|]; [|done].
  destruct (_ && _) eqn:E; intros [= <-]. unfold is_int. lia.
Qed.

Lemma assign_typed key val o o' : options_typed o -> assign key val o = Some (Some o') -> options_typed o'.
Proof.
  intros (H1 & H2 & H3 & H4) E. unfold assign in E.
  repeat match type of E with
  | (if ?c then _ else _) = _ => destruct c
  | Some ?m = _ => injection E as E
  | (_ <$> _) = _ => apply fmap_Some in E as (v & Ev & ->)
  end; simplify_eq; try (apply stoi_int in Ev); split_and!; try done; apply Z.mod_pos_bound; lia.
Qed.

Lemma parse_args_typed n : forall args o o', (length args <= n)%nat -> options_typed o -> parse_args args o = Parsed o' -> options_typed o'.
Proof.
  induction n as [|n IH]; intros [|tok rest] o o' Hn Ho E; simpl in *; try (by simplify_eq); [lia|].
  destruct (match find_eq tok with Some _ => _ | None => _ end) as [key val].
  destruct (assign key val o) as [[o1|]|] eqn:Ea; [|by destruct val|done]. destruct val as [|c val]; [done|].
  pose proof (assign_typed _ _ _ _ Ho Ea) as Ho1. destruct (find_eq tok); [by eapply IH; [|exact Ho1|exact E]; lia|].
  eapply IH; [|exact Ho1|exact E]. destruct rest; simpl in *; lia.
Qed.

Lemma default_typed st : options_typed (default_options st).
Proof. unfold options_typed, is_u16, is_int. simpl. lia. Qed.

(** Whatever the command line, the options the programs get are usable: a frame
    has room for a timestamp. *)
Lemma options_usable args st o :
  parse_options args st = Parsed o ->
  is_u16 (port o) /\ 8 <= payload o < 2 ^ 31 /\ 1 <= pipeline o < 2 ^ 31 /\ 1 <= connections o < 2 ^ 31.
Proof.
  unfold parse_options. destruct (parse_args args (default_options st)) as [o1| |] eqn:E; [|done|done]. intros [= <-].
  destruct (parse_args_typed _ args _ _ (le_n _) (default_typed st) E) as (H1 & H2 & H3 & H4).
  unfold is_int in *. simpl. split_and!; try apply H1; lia.
Qed.

End parse.

(** ** Histogram *)

Definition us_ceiling : Z := 2000000.

(** [counts_] has [us_ceiling] entries, those not in the map being 0. *)
Record histogram := mk_histogram {
  counts_ : gmap Z Z;
  count_ : Z;
  sum_ns_ : Z;
  overflow_ : Z;
  min_ns_ : Z;
  max_ns_ : Z
}.

Definition new_histogram : histogram := mk_histogram ∅ 0 0 0 (2 ^ 64 - 1) 0.

Definition cell (h : histogram) (i : Z) : Z := default 0 (counts_ h !! i).

Definition record (ns : Z) (h : histogram) : exec histogram :=
  let us := ns / 1000 in
  let '(us, overflow) := if us_ceiling <=? us then (us_ceiling - 1, u64 (overflow_ h + 1)) else (us, overflow_ h) in
  if (0 <=? us) && (us <? us_ceiling) then
    Done (mk_histogram (<[us := u64 (cell h us + 1)]> (counts_ h)) (u64 (count_ h + 1)) (u64 (sum_ns_ h + ns)) overflow
            (Z.min (min_ns_ h) ns) (Z.max (max_ns_ h) ns))
  else Undef.

Definition reset (h : histogram) : histogram := mk_histogram ∅ 0 0 0 (2 ^ 64 - 1) 0.

Definition min_us (h : histogram) : double := if count_ h =? 0 then of_int 0 else div (of_int (min_ns_ h)) (of_int 1000).
Definition max_us (h : histogram) : double := if count_ h =? 0 then of_int 0 else div (of_int (max_ns_ h)) (of_int 1000).
Definition mean_us (h : histogram) : double :=
  if count_ h =? 0 then of_int 0 else div (div (of_int (sum_ns_ h)) (of_int (count_ h))) (of_int 1000).

(** The rank of percentile [p] among [n] samples. *)
Definition target (p : double) (n : Z) : exec Z := do t := ceil_u64 (mul p (of_int n)) in Done (Z.max t 1).

(** The loop of [percentile_us] from index [i]. *)
Fixpoint scan (fuel : nat) (i seen t : Z) (h : histogram) : Z :=
  match fuel with
  | O => us_ceiling - 1
  | S fuel' =>
      let seen := u64 (seen + cell h i) in
      if t <=? seen then i else scan fuel' (i + 1) seen t h
  end.

Definition percentile_us (p : double) (h : histogram) : exec double :=
  if count_ h =? 0 then Done (of_int 0)
  else do t := target p (count_ h) in Done (of_int (scan (Z.to_nat us_ceiling) 0 0 t h)).

Fixpoint record_all (samples : list Z) (h : histogram) : exec histogram :=
  match samples with
  | [] => Done h
  | ns :: rest => do h := record ns h in record_all rest h
  end.

(** *** Percentiles are order statistics *)

(** A sample in microseconds, as the histogram keeps it. *)
Definition capped (ns : Z) : Z := Z.min (ns / 1000) (us_ceiling - 1).

Definition number (P : Z -> Prop) `{!forall x, Decision (P x)} (l : list Z) : Z := Z.of_nat (length (filter P l)).

Lemma number_cons P `{!forall x, Decision (P x)} x l : number P (x :: l) = (if decide (P x) then 1 else 0) + number P l.
Proof. unfold number. rewrite filter_cons. case_decide; simpl; lia. Qed.

Lemma number_snoc P `{!forall x, Decision (P x)} l x : number P (l ++ [x]) = number P l + if decide (P x) then 1 else 0.
Proof. unfold number. rewrite filter_app, length_app, filter_cons. case_decide; simpl; lia. Qed.

Lemma number_perm P `{!forall x, Decision (P x)} l1 l2 : l1 ≡ₚ l2 -> number P l1 = number P l2.
Proof. intros Hp. unfold number. by rewrite Hp. Qed.

Lemma number_length P `{!forall x, Decision (P x)} l : 0 <= number P l <= Z.of_nat (length l).
Proof. unfold number. pose proof (length_filter P l). lia. Qed.

Lemma number_all P `{!forall x, Decision (P x)} l : Forall P l -> number P l = Z.of_nat (length l).
Proof. induction 1 as [|x l Hx _ IH]; [done|]. rewrite number_cons, IH, decide_True by done. simpl. lia. Qed.

Lemma number_none P `{!forall x, Decision (P x)} l : Forall (fun x => ~ P x) l -> number P l = 0.
Proof. induction 1 as [|x l Hx _ IH]; [done|]. by rewrite number_cons, IH, decide_False by done. Qed.

Lemma number_upto i l : number (fun u => u < i + 1) l = number (fun u => u < i) l + number (fun u => u = i) l.
Proof. induction l as [|x l IH]; [done|]. rewrite !number_cons, IH. repeat case_decide; lia. Qed.

Lemma number_mono i j l : i <= j -> number (fun u => u < i) l <= number (fun u => u < j) l.
Proof. intros Hij. induction l as [|x l IH]; [done|]. rewrite !number_cons. repeat case_decide; lia. Qed.

(** The element at position [k] of a sorted list. *)
Lemma sorted_rank l k y :
  StronglySorted Z.le l -> l !! k = Some y ->
  number (fun u => u < y) l <= Z.of_nat k < number (fun u => u < y + 1) l.
Proof.
  revert k. induction l as [|x l IH]; intros k Hs Hk; [done|]. apply StronglySorted_inv in Hs as [Hs Hx].
  destruct k as [|k]; simpl in Hk.
  - injection Hk as ->. rewrite !number_cons, decide_False, decide_True by lia.
    rewrite number_none; [pose proof (number_length (fun u => u < y + 1) l); lia|].
    apply (Forall_impl _ _ _ Hx). intros z Hz. simpl. lia.
  - destruct (IH k Hs Hk). rewrite Forall_forall in Hx. pose proof (Hx y (list_elem_of_lookup_2 _ _ _ Hk)).
    rewrite !number_cons. repeat case_decide; lia.
Qed.

(** The histogram of some samples. *)
Record describes (samples : list Z) (h : histogram) : Prop := {
  ds_count : count_ h = Z.of_nat (length samples);
  ds_cell i : cell h i = number (fun u => u = i) (capped <$> samples);
  ds_min : min_ns_ h = foldr Z.min (2 ^ 64 - 1) samples;
  ds_max : max_ns_ h = foldr Z.max 0 samples;
  ds_sum : sum_ns_ h = u64 (foldr Z.add 0 samples);
  ds_late : overflow_ h = number (fun ns => us_ceiling * 1000 <= ns) samples
}.

Lemma new_describes : describes [] new_histogram.
Proof. split; try done; set_solver. Qed.

Lemma record_describes ns samples h :
  0 <= ns -> Z.of_nat (length samples) + 1 < 2 ^ 64 -> describes samples h ->
  exists h', record ns h = Done h' /\ describes (samples ++ [ns]) h'.
Proof.
  intros Hns Hlen [H1 H2 H3 H4 H5 H6].
  assert (record ns h = Done (mk_histogram (<[capped ns := u64 (cell h (capped ns) + 1)]> (counts_ h)) (u64 (count_ h + 1))
    (u64 (sum_ns_ h + ns)) (if us_ceiling * 1000 <=? ns then u64 (overflow_ h + 1) else overflow_ h)
    (Z.min (min_ns_ h) ns) (Z.max (max_ns_ h) ns))) as ->.
  { unfold record, capped. pose proof (Z.div_pos ns 1000 Hns ltac:(lia)) as Hdiv.
    pose proof (Z.div_mod ns 1000 ltac:(lia)). pose proof (Z.mod_pos_bound ns 1000 ltac:(lia)).
    destruct (Z.leb_spec us_ceiling (ns / 1000)).
    - rewrite (Z.min_r (ns / 1000)) by lia. destruct (Z.leb_spec (us_ceiling * 1000) ns); [done|lia].
    - rewrite (Z.min_l (ns / 1000)) by lia. replace ((0 <=? ns / 1000) && (ns / 1000 <? us_ceiling)) with true by lia.
      destruct (Z.leb_spec (us_ceiling * 1000) ns); [lia|done]. }
  eexists. split; [reflexivity|].
  split; simpl.
  - rewrite H1, length_app, u64_small by lia. simpl. lia.
  - intros i. rewrite fmap_app. simpl. rewrite number_snoc, <- H2. unfold cell. simpl.
    destruct (decide (capped ns = i)) as [<-|Hne]; [rewrite lookup_insert_eq|by rewrite lookup_insert_ne, Z.add_0_r].
    simpl. fold (cell h (capped ns)). rewrite H2. apply u64_small.
    pose proof (number_length (fun u => u = capped ns) (capped <$> samples)) as Hn. rewrite length_fmap in Hn. lia.
  - rewrite H3, foldr_app. cbn [foldr]. generalize (2 ^ 64 - 1). clear. intros z. induction samples; simpl; lia.
  - rewrite H4, foldr_app. cbn [foldr]. generalize 0. clear. intros z. induction samples; simpl; lia.
  - rewrite H5, foldr_app. cbn [foldr]. unfold u64. rewrite Z.add_mod_idemp_l by lia. f_equal.
    clear. induction samples; simpl; lia.
  - rewrite number_snoc, H6. pose proof (number_length (fun x => us_ceiling * 1000 <= x) samples).
    destruct (Z.leb_spec (us_ceiling * 1000) ns); case_decide; try lia. apply u64_small. lia.
Qed.

Lemma record_all_describes rest : forall samples h,
  Forall (fun ns => 0 <= ns) rest -> Z.of_nat (length samples + length rest) < 2 ^ 64 -> describes samples h ->
  exists h', record_all rest h = Done h' /\ describes (samples ++ rest) h'.
Proof.
  induction rest as [|ns rest IH]; intros samples h Hpos Hlen Hh; [exists h; by rewrite app_nil_r|].
  apply Forall_cons in Hpos as [Hns Hpos]. simpl in Hlen |- *.
  destruct (record_describes ns samples h) as (h1 & -> & Hh1); [done|lia|done|]. simpl.
  destruct (IH (samples ++ [ns]) h1) as (h' & E & Hh'); [done|rewrite length_app; simpl; lia|done|].
  exists h'. split; [done|]. by rewrite <- app_assoc in Hh'.
Qed.

(** The loop stops at the first index with [t] samples up to it. *)
Lemma scan_finds samples h t fuel : forall i seen,
  describes samples h -> Forall (fun ns => 0 <= ns) samples -> Z.of_nat (length samples) < 2 ^ 64 ->
  0 <= i -> i + Z.of_nat fuel = us_ceiling -> seen = number (fun u => u < i) (capped <$> samples) ->
  seen < t <= Z.of_nat (length samples) ->
  let x := scan fuel i seen t h in
  number (fun u => u < x) (capped <$> samples) < t <= number (fun u => u < x + 1) (capped <$> samples).
Proof.
  induction fuel as [|fuel IH]; intros i seen Hh Hpos Hlen Hi Hfuel Hseen Ht.
  - assert (number (fun u => u < i) (capped <$> samples) = Z.of_nat (length (capped <$> samples))) as E.
    { apply number_all, Forall_fmap. apply Forall_forall. intros ns _. simpl. unfold capped. lia. }
    rewrite length_fmap in E. lia.
  - cbn [scan]. assert (u64 (seen + cell h i) = number (fun u => u < i + 1) (capped <$> samples)) as Enext.
    { rewrite (ds_cell _ _ Hh), number_upto, Hseen. apply u64_small.
      pose proof (number_length (fun u => u < i + 1) (capped <$> samples)) as Hn.
      rewrite number_upto, length_fmap in Hn. lia. }
    rewrite Enext. destruct (Z.leb_spec t (number (fun u => u < i + 1) (capped <$> samples))); [lia|].
    apply IH; try done; lia.
Qed.

(** C21. The percentiles of the histogram are order statistics.  For any samples,
    given as unsigned nanoseconds, the recording is free of out-of-bounds
    accesses, counts them, and keeps their sum modulo 2^64, their minimum and
    their maximum; and the percentile of rank [t] is the [t]-th
    smallest of the samples, in whole microseconds with everything from two
    seconds on counted as the last one. *)
Theorem percentile_order_statistic samples :
  Forall (fun ns => 0 <= ns < 2 ^ 64) samples -> Z.of_nat (length samples) < 2 ^ 64 ->
  exists h, record_all samples new_histogram = Done h /\
    count_ h = Z.of_nat (length samples) /\ sum_ns_ h = u64 (foldr Z.add 0 samples) /\
    min_ns_ h = foldr Z.min (2 ^ 64 - 1) samples /\ max_ns_ h = foldr Z.max 0 samples /\
    overflow_ h = number (fun ns => us_ceiling * 1000 <= ns) samples /\
    (samples = [] -> forall p, percentile_us p h = Done (of_int 0)) /\
    (forall p t, target p (count_ h) = Done t -> t <= count_ h ->
      exists us, merge_sort Z.le (capped <$> samples) !! Z.to_nat (t - 1) = Some us /\
        percentile_us p h = Done (of_int us)).
Proof.
  intros Hs Hlen. assert (Forall (fun ns => 0 <= ns) samples) as Hpos by (eapply Forall_impl; [exact Hs|simpl; lia]).
  destruct (record_all_describes samples [] new_histogram) as (h & E & Hh); [done|done|apply new_describes|].
  simpl in Hh. exists h. pose proof Hh as [H1 H2 H3 H4 H5 H6]. split_and!; try done.
  - intros -> p. unfold percentile_us. by rewrite H1.
  - intros p t Et Hle.
    assert (1 <= t) as Ht by (unfold target in Et; apply exec_bind_done in Et as (r & _ & [= <-]); lia).
    destruct (lookup_lt_is_Some_2 (merge_sort Z.le (capped <$> samples)) (Z.to_nat (t - 1))) as [us Eus].
    { rewrite (Permutation_length (merge_sort_Permutation _ _)), length_fmap. lia. }
    exists us. split; [done|]. unfold percentile_us. destruct (Z.eqb_spec (count_ h) 0); [lia|]. rewrite Et. cbn [exec_bind].
    assert (forall x, x = us -> Done (of_int x) = Done (of_int us)) as Hof by by intros ? ->. apply Hof. pose proof (sorted_rank _ _ _ (StronglySorted_merge_sort Z.le _) Eus) as Hrank.
    rewrite !(number_perm _ _ _ (merge_sort_Permutation Z.le (capped <$> samples))) in Hrank.
    pose proof (scan_finds samples h t (Z.to_nat us_ceiling) 0 0 Hh Hpos Hlen) as Hx. cbv zeta in Hx.
    set (x := scan _ _ _ _ _) in *. destruct Hx as [Hx1 Hx2]; [lia| | |lia|].
    { rewrite Z2Nat.id; unfold us_ceiling; lia. }
    { symmetry. apply number_none, Forall_fmap, (Forall_impl _ _ _ Hpos). intros ns Hns. simpl. unfold capped.
      pose proof (Z.div_pos ns 1000 Hns ltac:(lia)). unfold us_ceiling. lia. }
    destruct (Z.lt_trichotomy x us) as [Hlt|[Heq|Hgt]]; [|done|].
    + pose proof (number_mono (x + 1) us (capped <$> samples)). lia.
    + pose proof (number_mono (us + 1) x (capped <$> samples)). lia.
Qed.

(** ** Frames *)

Section frames.
Variable big_endian : bool.

(** The eight bytes of a [std::uint64_t] in memory. *)
Fixpoint low_first (n : nat) (v : Z) : bytes :=
  match n with
  | O => []
  | S n' => to_byte v :: low_first n' (v / 256)
  end.
Fixpoint from_low_first (bs : bytes) : Z :=
  match bs with
  | [] => 0
  | b :: bs' => byte_val b + 256 * from_low_first bs'
  end.

Definition in_memory (v : Z) : bytes := let b := low_first 8 v in if big_endian then reverse b else b.
Definition from_memory (bs : bytes) : Z := from_low_first (if big_endian then reverse bs else bs).

Definition put_ts (p : bytes) (ns : Z) : exec bytes :=
  if (8 <=? length p)%nat then Done (in_memory ns ++ drop 8 p) else Undef.
Definition get_ts (p : bytes) : exec Z := do b := slice p 0 8 in Done (from_memory b).

(** [make_frame], with the time [now_ns] returned. *)
Definition make_frame (payload now : Z) : exec bytes := put_ts (replicate (Z.to_nat payload) Byte.x00) now.

Lemma low_first_length n : forall v, length (low_first n v) = n.
Proof. induction n; intros v; simpl; auto. Qed.

Lemma from_low_first_inverse n : forall v, 0 <= v < 256 ^ Z.of_nat n -> from_low_first (low_first n v) = v.
Proof.
  induction n as [|n IH]; intros v Hv; [simpl in *; lia|]. cbn [low_first from_low_first].
  rewrite Nat2Z.inj_succ, Z.pow_succ_r in Hv by lia. rewrite byte_val_to_byte, IH by (split; [apply Z.div_pos; lia|apply Z.div_lt_upper_bound; lia]).
  unfold u8. pose proof (Z.div_mod v 256 ltac:(lia)). change (2 ^ 8) with 256. lia.
Qed.

Lemma in_memory_length v : length (in_memory v) = 8%nat.
Proof. unfold in_memory. destruct big_endian; rewrite ?length_reverse; apply low_first_length. Qed.

Lemma memory_roundtrip v : 0 <= v < 2 ^ 64 -> from_memory (in_memory v) = v.
Proof.
  intros Hv. unfold from_memory, in_memory. destruct big_endian; rewrite ?reverse_involutive; by apply from_low_first_inverse.
Qed.

(** A frame as the client sends it: as long as asked for, with the time in
    front. *)
Definition frame (payload now : Z) : bytes := in_memory now ++ replicate (Z.to_nat payload - 8) Byte.x00.

Lemma make_frame_done payload now : 8 <= payload -> make_frame payload now = Done (frame payload now).
Proof.
  intros Hp. unfold make_frame, put_ts, frame. rewrite length_replicate.
  destruct (Nat.leb_spec 8 (Z.to_nat payload)); [|lia]. by rewrite drop_replicate.
Qed.

Lemma frame_length payload now : 8 <= payload -> length (frame payload now) = Z.to_nat payload.
Proof. intros Hp. unfold frame. rewrite length_app, in_memory_length, length_replicate. lia. Qed.

Lemma get_ts_frame payload now rest :
  8 <= payload -> 0 <= now < 2 ^ 64 -> get_ts (frame payload now ++ rest) = Done now.
Proof.
  intros Hp Hn. unfold get_ts, frame. rewrite slice_done by (rewrite !length_app, in_memory_length; lia). simpl.
  rewrite <- app_assoc, drop_0, take_app_le, take_ge by (rewrite in_memory_length; lia). by rewrite memory_roundtrip.
Qed.

End frames.

(** ** The result line: the values [printf] is given *)

Record result := mk_result {
  r_stack : bytes; r_proto : bytes; r_connections : Z; r_pipeline : Z; r_payload : Z;
  r_duration : double; r_requests : Z; r_errors : Z; r_rps : double; r_mbps : double;
  r_min : double; r_mean : double; r_p50 : double; r_p90 : double; r_p99 : double; r_p999 : double; r_max : double
}.

Definition ratio (a b : Z) : double := div (of_int a) (of_int b).

Definition emit_result (o : options) (h : histogram) (requests errors : Z) (elapsed_s : double) : exec result :=
  let positive := SFltb (of_int 0) elapsed_s in
  let rps := if positive then div (of_int requests) elapsed_s else of_int 0 in
  let mbps :=
    if positive then div (div (mul (mul (of_int requests) (of_int (payload o))) (of_int 2)) elapsed_s) (of_int 1000000)
    else of_int 0 in
  do p50 := percentile_us (ratio 50 100) h in
  do p90 := percentile_us (ratio 90 100) h in
  do p99 := percentile_us (ratio 99 100) h in
  do p999 := percentile_us (ratio 999 1000) h in
  Done (mk_result (stack o) (proto o) (connections o) (pipeline o) (payload o) elapsed_s requests errors rps mbps
          (min_us h) (mean_us h) p50 p90 p99 p999 (max_us h)).

Module examples.

(** Four round trips, one of them too long for the histogram. *)
Definition samples : list Z := [7500; 2999; 3000000000; 3000].

Definition half := ratio 50 100.

Lemma percentile_order_statistic_witness :
  exists h, record_all samples new_histogram = Done h /\ count_ h = 4 /\ overflow_ h = 1 /\
    percentile_us half h = Done (of_int 3) /\ percentile_us (ratio 99 100) h = Done (of_int 1999999).
Proof.
  destruct (percentile_order_statistic samples) as (h & E & Hc & _ & _ & _ & Ho & _ & Hp).
  - by repeat (constructor; [by vm_compute|]).
  - by vm_compute.
  - exists h. rewrite Hc in Hp. split; [exact E|]. split; [exact Hc|]. split; [rewrite Ho; by vm_compute|]. split.
    + destruct (Hp half 2) as (us & Eus & Er); [by vm_compute|by vm_compute|].
      rewrite Er. assert (Some us = Some 3) as [= ->] by (rewrite <- Eus; by vm_compute). reflexivity.
    + destruct (Hp (ratio 99 100) 4) as (us & Eus & Er); [by vm_compute|by vm_compute|].
      rewrite Er. assert (Some us = Some 1999999) as [= ->] by (rewrite <- Eus; by vm_compute). reflexivity.
Defined.

(** A port that does not fit is taken modulo 2^16. *)
Example port_wraps :
  match parse_options (fun _ => None) [str "--port"; str "70000"; str "-c=4"] (str "lnw") with
  | Parsed o => port o = 4464 /\ connections o = 4
  | _ => False
  end.
Proof. by vm_compute. Qed.

(** Without a value, and with a key nobody knows. *)
Example usage_errors :
  parse_options (fun _ => None) [str "--payload=128"; str "--port"] (str "lnw") = Usage (str "--port") /\
  parse_options (fun _ => None) [str "--size"; str "3"] (str "lnw") = Usage (str "--size") /\
  parse_options (fun _ => None) [str "--payload"; str "many"] (str "lnw") = Uncaught.
Proof. by vm_compute. Qed.

End examples.
