(* ===== verification/BenchClient.v ===== *)
(** * The benchmark client and server

    benchmarks/cpp/lnw_echo_client.cpp and lnw_echo_server.cpp.  The listeners
    are applications of [TcpSocket] and functions of the state the programs
    keep.  The clock is a parameter: [clock n] is what the [n]-th call of
    [now_ns] returns.  The state all connections share ([run_state]) is part of
    each connection's state here; what the other connections do to it comes in
    from outside. *)

From S2P Require Import Prelude Poller EventLoop Net.
From S2P Require Import Bench.
From S2P Require Import TcpSocket TcpSteps TcpLink Echo.
#[local] Open Scope Z_scope.

(** ** State *)

Record run_state := mk_state {
  hist_ : histogram;
  measuring : bool;
  running : bool;
  requests : Z;
  errors : Z;
  t_start : Z;
  t_end : Z;
  reads : nat      (* calls of now_ns so far *)
}.

Definition new_state : run_state := mk_state new_histogram false true 0 0 0 0 0.

Definition set_errors (n : Z) (s : run_state) : run_state :=
  mk_state (hist_ s) (measuring s) (running s) (requests s) n (t_start s) (t_end s) (reads s).
Definition set_reads (n : nat) (s : run_state) : run_state :=
  mk_state (hist_ s) (measuring s) (running s) (requests s) (errors s) (t_start s) (t_end s) n.
Definition book (h : histogram) (s : run_state) : run_state :=
  mk_state h (measuring s) (running s) (u64 (requests s + 1)) (errors s) (t_start s) (t_end s) (reads s).

Section client.
Variable o : options.
Variable big_endian : bool.
Variable clock : nat -> Z.

Definition now_ns (s : run_state) : Z * run_state := (clock (reads s), set_reads (S (reads s)) s).

(** The two functions [main] defers to the loop thread. *)
Definition begin_measuring (s : run_state) : run_state :=
  let '(now, s) := now_ns s in
  mk_state (hist_ s) true (running s) (requests s) (errors s) now (t_end s) (reads s).
Definition end_measuring (s : run_state) : run_state :=
  let '(now, s) := now_ns s in
  mk_state (hist_ s) false false (requests s) (errors s) (t_start s) now (reads s).

(** [++st.errors]. *)
Definition count_error (s : run_state) : run_state := set_errors (u64 (errors s + 1)) s.

(** ** run_tcp *)

(** A connection, with the shared state; [stamps] are the times put into the
    frames it sent and [echoes] those read back; [broken] is set when an
    operation is undefined. *)
Record conn := mk_conn {
  st : run_state;
  in_ : bytes;
  stamps : list Z;
  echoes : list Z;
  broken : bool
}.

Definition new_conn (s : run_state) : conn := mk_conn s [] [] [] false.
Definition set_st (s : run_state) (c : conn) : conn := mk_conn s (in_ c) (stamps c) (echoes c) (broken c).
Definition break (c : conn) : conn := mk_conn (st c) (in_ c) (stamps c) (echoes c) true.

(** [send_one]: the connection and the frame it writes. *)
Definition send_one (c : conn) : conn * list bytes :=
  let '(now, s) := now_ns (st c) in
  match make_frame big_endian (payload o) now with
  | Done f => (mk_conn s (in_ c) (stamps c ++ [now]) (echoes c) (broken c), [f])
  | _ => (break c, [])
  end.

Fixpoint send_many (n : nat) (c : conn) : conn * list bytes :=
  match n with
  | O => (c, [])
  | S n' =>
      let '(c, f) := send_one c in
      let '(c, fs) := send_many n' c in
      (c, f ++ fs)
  end.

(** One turn of the [while] of the data listener. *)
Definition take_frame (c : conn) : conn * list bytes :=
  match get_ts big_endian (in_ c) with
  | Done ts =>
      let c := mk_conn (st c) (drop (Z.to_nat (payload o)) (in_ c)) (stamps c) (echoes c ++ [ts]) (broken c) in
      let c :=
        if measuring (st c) then
          let '(now, s) := now_ns (st c) in
          match record (u64 (now - ts)) (hist_ s) with
          | Done h => set_st (book h s) c
          | _ => break c
          end
        else c in
      if running (st c) then send_one c else (c, [])
  | _ => (break c, [])
  end.

(** The fuel is one more than the bytes there are: each turn takes some. *)
Fixpoint take_frames (fuel : nat) (c : conn) : conn * list bytes :=
  match fuel with
  | O => (c, [])
  | S fuel' =>
      if payload o <=? to_int (Z.of_nat (length (in_ c))) then
        let '(c, f) := take_frame c in
        let '(c, fs) := take_frames fuel' c in
        (c, f ++ fs)
      else (c, [])
  end.

Definition on_data (chunk : bytes) (c : conn) : conn * list bytes :=
  let c := mk_conn (st c) (in_ c ++ chunk) (stamps c) (echoes c) (broken c) in
  take_frames (S (length (in_ c))) c.

(** The program writes each frame as soon as it is made, here the frames of one
    event are written after its loop.  While [write] runs only the error and
    close listeners can be called, and of these only the first does something,
    so this makes no difference: counting an error between any two turns of the
    loop has the same effect as counting it before or after. *)
Definition note_error (c : conn) : conn := set_st (count_error (st c)) c.

Lemma send_one_error c : send_one (note_error c) = (note_error (send_one c).1, (send_one c).2).
Proof. unfold send_one, now_ns. simpl. by destruct (make_frame _ _ _). Qed.

Lemma take_frame_error c : take_frame (note_error c) = (note_error (take_frame c).1, (take_frame c).2).
Proof.
  unfold take_frame. simpl. destruct (get_ts _ _) as [ts| |]; [|done|done]. unfold now_ns. simpl.
  set (c1 := mk_conn (st c) _ _ _ _). destruct (measuring (st c)); simpl.
  - destruct (record _ _) as [h| |]; simpl; (destruct (running (st c)); [|done]);
      [exact (send_one_error (set_st (book h (set_reads (S (reads (st c))) (st c))) c1))|exact (send_one_error (break c1))..].
  - destruct (running (st c)); [exact (send_one_error c1)|done].
Qed.

Lemma take_frames_error fuel : forall c, take_frames fuel (note_error c) = (note_error (take_frames fuel c).1, (take_frames fuel c).2).
Proof.
  induction fuel as [|fuel IH]; intros c; [done|]. cbn [take_frames]. change (in_ (note_error c)) with (in_ c).
  destruct (_ <=? _); [|done]. rewrite take_frame_error. destruct (take_frame c) as [c1 f]. simpl. rewrite IH.
  by destruct (take_frames fuel c1).
Qed.

(** The listeners of a connection. *)
Definition client (ev : tcp_event) (c : conn) : conn * prog :=
  match ev with
  | EvConnect => let '(c, fs) := send_many (Z.to_nat (pipeline o)) c in (c, writes fs)
  | EvData chunk => let '(c, fs) := on_data chunk c in (c, writes fs)
  | EvError _ => (note_error c, PRet)
  | _ => (c, PRet)
  end.

(** The data listener of lnw_echo_server, which has no state. *)
Definition serve {A} (ev : tcp_event) (a : A) : A * prog :=
  (a, match ev with EvData chunk => PWrite chunk (fun _ => PRet) | _ => PRet end).

(** *** What a connection has read and sent *)

Hypothesis clock_u64 : forall n, 0 <= clock n < 2 ^ 64.
Hypothesis payload_ok : 8 <= payload o < 2 ^ 31 - 65536.
Hypothesis pipeline_ok : 1 <= pipeline o.

Definition psize : nat := Z.to_nat (payload o).
Definition out_frame (ts : Z) : bytes := frame big_endian (payload o) ts.

(** The bytes read so far are whole frames, whose times are [echoes], and the
    beginning of the next.  [budget] frames may be on their way. *)
Definition reading (d : bytes) (c : conn) : Prop :=
  exists blocks, d = concat blocks ++ in_ c /\ Forall2 (fun b ts => length b = psize /\ get_ts big_endian b = Done ts) blocks (echoes c).

Record mid_ok (c : conn) (d : bytes) : Prop := {
  co_whole : broken c = false;
  co_reading : reading d c;
  co_stamps : Forall (fun ts => 0 <= ts < 2 ^ 64) (stamps c);
  co_window : (length (stamps c) <= length (echoes c) + Z.to_nat (pipeline o))%nat;
  co_running : running (st c) = true -> length (stamps c) = (length (echoes c) + Z.to_nat (pipeline o))%nat;
  co_count : requests (st c) = count_ (hist_ (st c))
}.

(** Between events less than a frame waits. *)
Definition conn_ok (c : conn) (d : bytes) : Prop := mid_ok c d /\ (length (in_ c) < psize)%nat.

Definition client_wants (c : conn) (_ : bytes) : bytes := concat (out_frame <$> stamps c).

Lemma send_one_done c :
  send_one c = (mk_conn (set_reads (S (reads (st c))) (st c)) (in_ c) (stamps c ++ [clock (reads (st c))]) (echoes c) (broken c),
                [out_frame (clock (reads (st c)))]).
Proof. unfold send_one, now_ns. by rewrite make_frame_done by lia. Qed.

Lemma wants_snoc c c' d ts :
  stamps c' = stamps c ++ [ts] -> client_wants c' d = client_wants c d ++ concat [out_frame ts].
Proof. intros E. unfold client_wants. by rewrite E, fmap_app, concat_app. Qed.

Lemma record_defined ns h : 0 <= ns -> exists h', record ns h = Done h' /\ count_ h' = u64 (count_ h + 1).
Proof.
  intros Hns. unfold record. pose proof (Z.div_pos ns 1000 Hns ltac:(lia)).
  destruct (Z.leb_spec us_ceiling (ns / 1000)); [by eexists|].
  replace ((0 <=? ns / 1000) && (ns / 1000 <? us_ceiling)) with true by lia. by eexists.
Qed.

(** The state after the booking of one frame. *)
Lemma booked_ok ts c :
  exists s, (if measuring (st c) then
               let '(now, s) := now_ns (st c) in
               match record (u64 (now - ts)) (hist_ s) with
               | Done h => set_st (book h s) c
               | _ => break c
               end
             else c) = set_st s c /\ running s = running (st c) /\
    (requests (st c) = count_ (hist_ (st c)) -> requests s = count_ (hist_ s)).
Proof.
  destruct (measuring (st c)); [|exists (st c); by destruct c]. unfold now_ns.
  destruct (record_defined (u64 (clock (reads (st c)) - ts)) (hist_ (st c))) as (h & Eh & Ec); [apply Z.mod_pos_bound; lia|].
  eexists. simpl. rewrite Eh. split; [reflexivity|]. split; [done|]. intros E. simpl. by rewrite Ec, E.
Qed.

Lemma take_frame_ok c d :
  mid_ok c d -> (psize <= length (in_ c))%nat ->
  mid_ok (take_frame c).1 d /\ length (in_ (take_frame c).1) = (length (in_ c) - psize)%nat /\
  client_wants (take_frame c).1 d = client_wants c d ++ concat (take_frame c).2.
Proof.
  intros [H1 (blocks & Hd & Hb) H3 H4 H5 H6] Hlen. unfold take_frame.
  assert (exists ts, get_ts big_endian (in_ c) = Done ts /\ get_ts big_endian (take psize (in_ c)) = Done ts) as (ts & -> & Hts).
  { unfold get_ts. rewrite !slice_done by (unfold psize in *; rewrite ?length_take; lia). simpl. eexists.
    split; [reflexivity|]. rewrite !drop_0, take_take. by rewrite Nat.min_l by (unfold psize; lia). }
  set (c1 := mk_conn _ _ _ _ _). destruct (booked_ok ts c1) as (s & -> & Hrun & Hcount).
  assert (reading d (set_st s c1)) as Hread.
  { exists (blocks ++ [take psize (in_ c)]). split; simpl.
    - rewrite concat_app. simpl. rewrite app_nil_r, <- app_assoc. unfold psize. by rewrite take_drop.
    - apply Forall2_app; [done|]. constructor; [|done]. rewrite length_take. split; [lia|done]. }
  destruct (running (st (set_st s c1))) eqn:Er; simpl in Er.
  - rewrite send_one_done. simpl. split_and!; [|by rewrite length_drop|by apply wants_snoc].
    assert (running (st c) = true) as Hr by exact (eq_trans (eq_sym Hrun) Er). specialize (H5 Hr).
    split; simpl; [done|done| | | |by apply Hcount]; rewrite ?length_app; simpl; [|lia|lia].
    apply Forall_app. split; [done|]. by apply Forall_singleton.
  - simpl. split_and!; [|by rewrite length_drop|by rewrite app_nil_r].
    split; simpl; [done|done|done| | |by apply Hcount]; rewrite ?length_app; simpl; [lia|congruence].
Qed.

Lemma to_int_small n : 0 <= n < 2 ^ 31 -> to_int n = n.
Proof. intros Hn. unfold to_int. rewrite Z.mod_small; lia. Qed.

Lemma take_frames_ok fuel : forall c d,
  mid_ok c d -> (length (in_ c) < fuel)%nat -> Z.of_nat (length (in_ c)) < 2 ^ 31 ->
  conn_ok (take_frames fuel c).1 d /\ client_wants (take_frames fuel c).1 d = client_wants c d ++ concat (take_frames fuel c).2.
Proof.
  induction fuel as [|fuel IH]; intros c d Hc Hfuel Hint; [lia|]. cbn [take_frames]. rewrite to_int_small by lia.
  destruct (Z.leb_spec (payload o) (Z.of_nat (length (in_ c)))).
  - destruct (take_frame_ok c d Hc ltac:(unfold psize; lia)) as (Hc1 & Hlen & Hw).
    destruct (take_frame c) as [c1 f]. simpl in *.
    destruct (IH c1 d Hc1) as [Hc2 Hw2]; [unfold psize in *; lia|lia|]. destruct (take_frames fuel c1) as [c2 fs]. simpl in *.
    split; [done|]. by rewrite Hw2, Hw, concat_app, app_assoc.
  - simpl. rewrite app_nil_r. split; [|done]. split; [done|]. unfold psize. lia.
Qed.

Lemma on_data_ok chunk c d :
  conn_ok c d -> (length chunk <= recv_size)%nat ->
  conn_ok (on_data chunk c).1 (d ++ chunk) /\
  client_wants (on_data chunk c).1 (d ++ chunk) = client_wants c d ++ concat (on_data chunk c).2.
Proof.
  intros [[H1 (blocks & Hd & Hb) H3 H4 H5 H6] Hshort] Hlen. unfold on_data. set (c1 := mk_conn _ _ _ _ _).
  assert (mid_ok c1 (d ++ chunk)) as Hc1.
  { split; try done. exists blocks. by rewrite Hd, <- app_assoc. }
  assert (Z.of_nat recv_size = 65536) as Hsize by (unfold recv_size; lia).
  refine (take_frames_ok _ c1 (d ++ chunk) Hc1 (le_n _) _). subst c1. simpl. rewrite length_app. unfold psize in Hshort. lia.
Qed.

#[local] Instance client_writer : Writer client client_wants conn_ok.
Proof.
  intros ev c d Hc Hcon Hlen.
  assert (match ev with EvData _ => True | _ => conn_ok (client ev c).1 d /\ stamps (client ev c).1 = stamps c end) as Hquiet.
  { destruct ev; try done. destruct Hc as [[H1 H2 H3 H4 H5 H6] H7]. by split. }
  destruct ev; try done; simpl in *;
    try (exists []; unfold client_wants; rewrite ?app_nil_r; split_and!; by destruct Hquiet).
  destruct (on_data_ok _ c d Hc Hlen) as [Hc' Hw]. destruct (on_data _ c) as [c' fs]. simpl in *. exists fs. by split_and!.
Qed.

(** *** Frames that came back *)

Lemma blocks_prefix (blocks frames : list bytes) rest :
  Forall (fun b => length b = psize) blocks -> Forall (fun b => length b = psize) frames ->
  concat blocks ++ rest `prefix_of` concat frames -> blocks `prefix_of` frames.
Proof.
  revert frames. induction blocks as [|b blocks IH]; intros frames Hb Hf Hp; [apply prefix_nil|].
  apply Forall_cons in Hb as [Hlen Hb]. destruct frames as [|f frames].
  - apply prefix_nil_inv in Hp. simpl in Hp. destruct b; [|done]. unfold psize in Hlen. simpl in Hlen. lia.
  - apply Forall_cons in Hf as [Hflen Hf]. destruct Hp as [k Hk]. simpl in Hk. rewrite <- !app_assoc in Hk.
    apply app_inj_1 in Hk as [<- Hk]; [|congruence]. apply prefix_cons, IH; try done. exists k. by rewrite <- app_assoc.
Qed.

(** A block of a stream with the time in it. *)
Definition timed (b : bytes) (ts : Z) : Prop := length b = psize /\ get_ts big_endian b = Done ts.

Lemma times_prefix blocks tss rest ss :
  Forall2 timed blocks tss -> Forall (fun ts => 0 <= ts < 2 ^ 64) ss ->
  concat blocks ++ rest `prefix_of` concat (out_frame <$> ss) -> tss `prefix_of` ss.
Proof.
  intros Hb Hs Hp. apply blocks_prefix in Hp as [more Hmore].
  - assert (forall ts, ts ∈ ss -> get_ts big_endian (out_frame ts) = Done ts) as Hget.
    { intros ts Hin. rewrite Forall_forall in Hs. rewrite <- (app_nil_r (out_frame ts)). apply get_ts_frame; [lia|by apply Hs]. }
    clear Hs. revert ss Hmore Hget. induction Hb as [|b ts blocks tss [_ Hts] Hb IH]; intros ss Hmore Hget.
    + apply prefix_nil.
    + destruct ss as [|s ss]; [done|]. injection Hmore as <- Hmore. rewrite Hget in Hts by (by left). injection Hts as <-.
      apply prefix_cons, IH; [done|]. intros ts' Hin. apply Hget. by right.
  - eapply Forall2_Forall_l; [exact Hb|]. apply Forall_forall. by intros ts _ b [? _].
  - apply Forall_fmap, Forall_forall. intros ts _. apply frame_length. lia.
Qed.

Lemma echoes_prefix c d :
  conn_ok c d -> d `prefix_of` client_wants c d -> echoes c `prefix_of` stamps c.
Proof.
  intros [[_ (blocks & Hd & Hb) Hs _ _ _] _] Hp. rewrite Hd in Hp. by eapply times_prefix.
Qed.

(** The listener for [connect] fills the pipeline. *)
Lemma send_many_ok n : forall c,
  let c' := (send_many n c).1 in
  in_ c' = in_ c /\ echoes c' = echoes c /\ broken c' = broken c /\ running (st c') = running (st c) /\
  (requests (st c') = count_ (hist_ (st c')) <-> requests (st c) = count_ (hist_ (st c))) /\
  exists new, length new = n /\ Forall (fun ts => 0 <= ts < 2 ^ 64) new /\ stamps c' = stamps c ++ new /\
    concat (send_many n c).2 = concat (out_frame <$> new).
Proof.
  induction n as [|n IH]; intros c; cbn [send_many]; [split_and!; try done; exists []; by rewrite app_nil_r|].
  rewrite send_one_done. set (c1 := mk_conn _ _ _ _ _). specialize (IH c1).
  destruct (send_many n c1) as [c2 fs]. cbn [fst snd] in *.
  destruct IH as (H1 & H2 & H3 & H4 & H5 & new & Hlen & Hnew & Hst & Hout).
  split_and!; try done. exists (clock (reads (st c)) :: new). split_and!.
  - simpl. by rewrite Hlen.
  - by constructor.
  - rewrite Hst. simpl. by rewrite <- app_assoc.
  - simpl. by rewrite Hout.
Qed.

Lemma connected_ok s :
  requests s = count_ (hist_ s) ->
  let '(c, p) := client EvConnect (new_conn s) in
  conn_ok c [] /\ exists chunks, p = writes chunks /\ client_wants c [] = concat chunks.
Proof.
  intros Hs. unfold client. pose proof (send_many_ok (Z.to_nat (pipeline o)) (new_conn s)) as Hsend.
  destruct (send_many _ _) as [c fs]. cbn [fst snd] in Hsend.
  destruct Hsend as (H1 & H2 & H3 & H4 & H5 & new & Hlen & Hnew & Hst & Hout). simpl in *.
  split; [|exists fs; split; [done|]; unfold client_wants; by rewrite Hst, Hout].
  split; [|rewrite H1; unfold psize; simpl; lia]. split; [done| | | | |by apply H5].
  - exists []. rewrite H1, H2. split; [done|constructor].
  - by rewrite Hst.
  - rewrite Hst, H2. simpl. lia.
  - rewrite Hst, H2. simpl. lia.
Qed.

(** *** One connection to the echo server *)

Section link.
Context {K D C : Type} `{KernelLaws K} `{!StreamKernel K}.
Variables (dl dr : Z).
Variable connect_done : list socket_address -> D.
Variable io_cb : C.
Variable fuel depth : nat.
Abbreviation link := (link (K := K) (A := conn) (D := D) (C := C)).
Implicit Types l : link.

Definition with_env {A} (a : A) (w : world K A D C) : world K A D C := mk_world (sk w) (lp w) (kn w) a (hist w).

(** A step of the link, or a change of the shared state by deferred functions
    and by other connections. *)
Inductive bench_event := Link (e : link_event) | Shared (f : run_state -> run_state).

Definition bench_step (e : bench_event) l : exec link :=
  match e with
  | Link e => link_step dl dr connect_done io_cb client serve fuel depth e l
  | Shared f => Done (mk_link (with_env (set_st (f (st (env (left l)))) (env (left l))) (left l)) (right l))
  end.

Fixpoint bench_run (es : list bench_event) l : exec link :=
  match es with
  | [] => Done l
  | e :: es' => do l := bench_step e l in bench_run es' l
  end.

(** The connection is established: its listener for [connect] runs. *)
Definition run_connected l : exec link :=
  let '(c, p) := client EvConnect (env (left l)) in
  bench_step (Link (AtLeft (SCall p))) (mk_link (with_env c (left l)) (right l)).

(** [running] is never set again, and each request is recorded. *)
Definition fair_change (f : run_state -> run_state) : Prop :=
  forall s, (running (f s) = true -> running s = true) /\ (requests s = count_ (hist_ s) -> requests (f s) = count_ (hist_ (f s))).

Definition fair (e : bench_event) : Prop :=
  match e with
  | Link e => pair_event e = true
  | Shared f => fair_change f
  end.

Definition bench_ok l : Prop := pair_ok dl dr client_wants conn_ok l.

Lemma serve_echoes (ev : tcp_event) (a : conn) :
  (serve ev a).2 = match ev with EvData chunk => PWrite chunk (fun _ => PRet) | _ => PRet end.
Proof. done. Qed.

Lemma bench_step_ok e l : fair e -> bench_ok l -> post (bench_step e l) bench_ok.
Proof.
  intros He Hl. destruct e as [e|f].
  { exact (pair_step dl dr connect_done io_cb client serve serve_echoes fuel client_wants conn_ok depth e l He Hl). }
  destruct Hl as [Hl Hw]. simpl in *.
  split; [exact Hl|]. destruct Hw as (Ho & Hda & Hnc & [[H1 H2 H3 H4 H5 H6] H7] & Hw & Hp). destruct (He (st (env (left l)))) as [Hr Hc].
  split_and!; try done. split; [|done]. split; try done; simpl; auto.
Qed.

Lemma bench_run_ok es : forall l, Forall fair es -> bench_ok l -> post (bench_run es l) bench_ok.
Proof.
  induction es as [|e es IH]; intros l Hes Hl; [done|]. simpl. apply Forall_cons in Hes as [He Hes].
  eapply post_bind; [by apply bench_step_ok|]. intros l' Hl'. by apply IH.
Qed.

Lemma run_connected_ok s l :
  fresh_end dl (left l) -> fresh_end dr (right l) -> env (left l) = new_conn s -> requests s = count_ (hist_ s) ->
  post (run_connected l) bench_ok.
Proof.
  intros Hl Hr He Hs. unfold run_connected. rewrite He. pose proof (connected_ok s Hs) as Hc.
  destruct (client EvConnect (new_conn s)) as [c p]. destruct Hc as (Hc & chunks & -> & Hwants).
  exact (pair_start dl dr connect_done io_cb client serve serve_echoes fuel client_wants conn_ok depth chunks
    (mk_link (with_env c (left l)) (right l)) Hl Hr Hc Hwants).
Qed.

Lemma frames_length tss : length (concat (out_frame <$> tss)) = (length tss * psize)%nat.
Proof.
  induction tss as [|ts tss IH]; [done|]. rewrite fmap_cons. cbn [concat length]. rewrite length_app, IH.
  unfold out_frame. rewrite frame_length by lia. done.
Qed.

Lemma reading_length d c : reading d c -> length d = (length (echoes c) * psize + length (in_ c))%nat.
Proof.
  intros (blocks & -> & Hb). rewrite length_app. f_equal.
  induction Hb as [|b ts blocks tss [Hlen _] _ IH]; [done|]. simpl. by rewrite length_app, Hlen, IH.
Qed.

(** What holds for a connection at any time. *)
Lemma bench_ok_conn l :
  bench_ok l ->
  let c := env (left l) in
  let w := hist (left l) in
  let got := (length (delivered w) / psize)%nat in
  broken c = false /\
  (delivered w `prefix_of` accepted w /\ accepted w `prefix_of` concat (out_frame <$> stamps c)) /\
  (echoes c `prefix_of` stamps c /\ length (echoes c) = got) /\
  (length (accepted w) <= (got + Z.to_nat (pipeline o)) * psize)%nat /\
  (state_ (sk (left l)) = open_ -> running (st c) = true -> length (accepted w) = ((got + Z.to_nat (pipeline o)) * psize)%nat) /\
  requests (st c) = count_ (hist_ (st c)).
Proof.
  intros Hl. pose proof (pair_bytes dl dr _ _ l Hl) as Hp.
  destruct Hl as [Hecho (_ & _ & _ & Hc & Hopen & Htook)]. pose proof (echo_link_bytes dl dr l Hecho) as Hback.
  pose proof Hc as [[H1 Hread _ H4 H5 H6] Hshort]. intros c w got.
  assert (length (echoes c) = got) as Hgot.
  { unfold got, w. rewrite (reading_length _ _ Hread). rewrite Nat.div_add_l by (unfold psize; lia). rewrite Nat.div_small by done. unfold c. lia. }
  split_and!; try done.
  - by eapply echoes_prefix.
  - rewrite <- Hgot. pose proof (prefix_length _ _ Htook) as Hlen. unfold client_wants in Hlen. rewrite frames_length in Hlen.
    etrans; [exact Hlen|]. by apply Nat.mul_le_mono_r.
  - intros Hst Hrun. specialize (Hopen Hst). rewrite app_nil_r in Hopen. unfold w. rewrite Hopen. unfold client_wants.
    rewrite frames_length, <- Hgot. f_equal. by apply H5.
Qed.

End link.
End client.

(** The command line is accepted, the clock returns unsigned 64-bit values, and
    a frame and one more read fit an [int]. *)
Definition configured (stod : bytes -> option double) (args : list bytes) (clock : nat -> Z) (o : options) : Prop :=
  parse_options stod args (str "lnw") = Parsed o /\ payload o < 2 ^ 31 - 65536 /\ (forall n, 0 <= clock n < 2 ^ 64).

(** C26. The benchmark measures what it means to.  A connection of the client to
    the echo server, from the [connect] event on, with a payload less than
    2^31 - 65536 bytes, with any timing, splitting and buffering in between and
    with any other connections sharing the counters: nothing is undefined; what
    comes back is a prefix of the bytes that [write] took, which are, in order,
    the frames carrying [stamps], so that the times read out of the frames that
    came back are those of the frames that were sent and each sample is the
    round trip of its own frame.  Of the bytes taken by [write] never more than
    [pipeline] frames are not yet back as a whole, and exactly so many while the
    connection is open and the benchmark runs; and as many requests are counted
    as samples were recorded. *)
Theorem closed_loop {K D C} `{KernelLaws K} `{!StreamKernel K} (dl dr : Z) (connect_done : list socket_address -> D) (io_cb : C)
    fuel depth stod args big_endian clock o s es (l : link (K := K) (A := conn) (D := D) (C := C)) :
  configured stod args clock o ->
  fresh_end dl (left l) -> fresh_end dr (right l) ->
  env (left l) = new_conn s -> requests s = count_ (hist_ s) -> Forall fair es ->
  let r := do l := run_connected o big_endian clock dl dr connect_done io_cb fuel depth l in
           bench_run o big_endian clock dl dr connect_done io_cb fuel depth es l in
  r <> Undef /\
  forall l', r = Done l' ->
    let c := env (left l') in
    let w := hist (left l') in
    let size := Z.to_nat (payload o) in
    let got := (length (delivered w) / size)%nat in
    broken c = false /\
    (delivered w `prefix_of` accepted w /\ accepted w `prefix_of` concat (frame big_endian (payload o) <$> stamps c)) /\
    (echoes c `prefix_of` stamps c /\ length (echoes c) = got) /\
    (length (accepted w) <= (got + Z.to_nat (pipeline o)) * size)%nat /\
    (state_ (sk (left l')) = open_ -> running (st c) = true ->
       length (accepted w) = ((got + Z.to_nat (pipeline o)) * size)%nat) /\
    requests (st c) = count_ (hist_ (st c)).
Proof.
  intros (Ho & Hmax & Hclock) Hl Hr He Hs Hes r. destruct (options_usable _ _ _ _ Ho) as (_ & Hpay & Hpipe & _).
  assert (8 <= payload o < 2 ^ 31 - 65536) as Hpayload by lia. assert (1 <= pipeline o) as Hpipeline by lia.
  assert (post r (bench_ok o big_endian dl dr)) as Hpost.
  { eapply post_bind; [by eapply run_connected_ok|]. intros l1 Hl1. by apply bench_run_ok. }
  destruct r as [l'| |] eqn:Er; [|done|done]. split; [done|]. intros l'' [= <-].
  exact (bench_ok_conn o big_endian Hpayload Hpipeline dl dr l' Hpost).
Qed.

(** ** run_udp *)

Record flow := mk_flow { inflight : Z; last_rx : Z }.
Definition new_flow : flow := mk_flow 0 0.

Definition late_ns : Z := 250000000.
Definition stale_ns : Z := 200000000.

Section udp.
Variable o : options.
Variable big_endian : bool.
Variable clock : nat -> Z.

(** [fire]: the datagram handed to [send]. *)
Definition fire (s : run_state) (f : flow) : exec (run_state * flow * list bytes) :=
  let '(now, s) := now_ns clock s in
  do d := make_frame big_endian (payload o) now in
  Done (s, mk_flow (inflight f + 1) (last_rx f), [d]).

(** [refill]; the fuel is what is missing in the pipeline. *)
Fixpoint refill_loop (fuel : nat) (s : run_state) (f : flow) : exec (run_state * flow * list bytes) :=
  if (inflight f <? pipeline o) && running s then
    match fuel with
    | O => OutOfFuel
    | S fuel' =>
        do (s, f, d) := fire s f in
        do (s, f, ds) := refill_loop fuel' s f in
        Done (s, f, d ++ ds)
    end
  else Done (s, f, []).

Definition refill (s : run_state) (f : flow) : exec (run_state * flow * list bytes) :=
  refill_loop (Z.to_nat (pipeline o - inflight f)) s f.

(** The booking of a reply that is long enough to carry a time. *)
Definition book_reply (msg : bytes) (s : run_state) : exec run_state :=
  if (8 <=? length msg)%nat then
    let '(now, s) := now_ns clock s in
    do ts := get_ts big_endian msg in
    let rtt := u64 (now - ts) in
    if late_ns <? rtt then Done (count_error s)
    else if measuring s then do h := record rtt (hist_ s) in Done (book h s)
    else Done s
  else Done s.

(** The message listener of a flow. *)
Definition on_message (msg : bytes) (s : run_state) (f : flow) : exec (run_state * flow * list bytes) :=
  do s := book_reply msg s in
  let n := if 0 <? inflight f then inflight f - 1 else inflight f in
  let '(now, s) := now_ns clock s in
  refill s (mk_flow n now).

(** One flow in the sweep, at time [now]. *)
Definition sweep_flow (now : Z) (s : run_state) (f : flow) : exec (run_state * flow * list bytes) :=
  let '(s, f) :=
    if (0 <? inflight f) && negb (last_rx f =? 0) && (stale_ns <? u64 (now - last_rx f)) then
      (set_errors (u64 (errors s + inflight f)) s, mk_flow 0 (last_rx f))
    else (s, f) in
  refill s (mk_flow (inflight f) now).

Fixpoint sweep_flows (now : Z) (s : run_state) (fs : list flow) : exec (run_state * list flow * list bytes) :=
  match fs with
  | [] => Done (s, [], [])
  | f :: rest =>
      do (s, f, d) := sweep_flow now s f in
      do (s, rest, ds) := sweep_flows now s rest in
      Done (s, f :: rest, d ++ ds)
  end.

(** The sweep; it is scheduled again while the benchmark runs. *)
Definition sweep (s : run_state) (fs : list flow) : exec (run_state * list flow * list bytes * bool) :=
  let '(now, s) := now_ns clock s in
  do (s, fs, ds) := sweep_flows now s fs in
  Done (s, fs, ds, running s).

(** The function deferred at the start. *)
Fixpoint start_flows (s : run_state) (fs : list flow) : exec (run_state * list flow * list bytes) :=
  match fs with
  | [] => Done (s, [], [])
  | f :: rest =>
      let '(now, s) := now_ns clock s in
      do (s, f, d) := refill s (mk_flow (inflight f) now) in
      do (s, rest, ds) := start_flows s rest in
      Done (s, f :: rest, d ++ ds)
  end.

(** Sweeps one after the other, as long as they are scheduled, with no message
    in between. *)
Fixpoint sweeps (n : nat) (s : run_state) (fs : list flow) : exec (run_state * list flow * list bytes) :=
  match n with
  | O => Done (s, fs, [])
  | S n' =>
      do (s, fs, ds, again) := sweep s fs in
      if again then
        do (s, fs, ds') := sweeps n' s fs in
        Done (s, fs, ds ++ ds')
      else Done (s, fs, ds)
  end.

(** *** The window *)

Hypothesis payload_ok : 8 <= payload o.

Lemma refill_loop_ok fuel : forall s f,
  Z.to_nat (pipeline o - inflight f) = fuel -> running s = true ->
  exists s' ds, refill_loop fuel s f = Done (s', mk_flow (Z.max (inflight f) (pipeline o)) (last_rx f), ds) /\
    length ds = fuel /\ running s' = true /\ errors s' = errors s /\ reads s' = (reads s + fuel)%nat /\
    Forall (fun d => length d = Z.to_nat (payload o)) ds.
Proof.
  induction fuel as [|fuel IH]; intros s f Hf Hr; cbn [refill_loop]; rewrite Hr, andb_true_r.
  - destruct (Z.ltb_spec (inflight f) (pipeline o)); [lia|]. exists s, []. rewrite Z.max_l by lia. destruct f.
    split_and!; try done; lia.
  - destruct (Z.ltb_spec (inflight f) (pipeline o)); [|lia]. unfold fire, now_ns. rewrite make_frame_done by lia. cbn [exec_bind].
    destruct (IH (set_reads (S (reads s)) s) (mk_flow (inflight f + 1) (last_rx f))) as (s' & ds & E & Hlen & Hr' & He & Hrd & Hall);
      [simpl; lia|done|].
    rewrite E. cbn [exec_bind]. eexists s', _. simpl. rewrite !Z.max_r by lia. split; [reflexivity|]. simpl in *.
    split_and!; [by rewrite Hlen|done|done|lia|]. constructor; [by apply frame_length|done].
Qed.

(** While the benchmark runs, a refill tops the pipeline up, with frames that
    can hold a time. *)
Lemma refill_ok s f :
  running s = true ->
  exists s' ds, refill s f = Done (s', mk_flow (Z.max (inflight f) (pipeline o)) (last_rx f), ds) /\
    length ds = Z.to_nat (pipeline o - inflight f) /\ running s' = true /\ errors s' = errors s /\
    reads s' = (reads s + Z.to_nat (pipeline o - inflight f))%nat /\ Forall (fun d => length d = Z.to_nat (payload o)) ds.
Proof. intros Hr. by apply refill_loop_ok. Qed.

(** *** The sweep *)

(** Readings of the clock grow, by at most 200 ms from one to the next. *)
Definition steady (n : nat) : Prop := 0 < clock n < 2 ^ 64 /\ clock n <= clock (S n) <= clock n + stale_ns.

(** All of a flow's datagrams are on their way, or lost. *)
Definition full (f : flow) : Prop := inflight f = pipeline o.

Lemma sweep_flow_full now s f :
  full f -> last_rx f <= now <= last_rx f + stale_ns -> 0 < last_rx f -> now < 2 ^ 64 ->
  sweep_flow now s f = Done (s, mk_flow (pipeline o) now, []).
Proof.
  intros Hf Hnow Hpos Hmax. unfold sweep_flow. rewrite u64_small by lia.
  destruct (Z.ltb_spec stale_ns (now - last_rx f)); [lia|]. rewrite andb_false_r. unfold refill, refill_loop. simpl.
  rewrite Hf, Z.sub_diag. simpl. by rewrite Z.ltb_irrefl.
Qed.

Lemma sweep_flows_full now s fs :
  Forall (fun f => full f /\ last_rx f <= now <= last_rx f + stale_ns /\ 0 < last_rx f) fs -> now < 2 ^ 64 ->
  sweep_flows now s fs = Done (s, (fun _ => mk_flow (pipeline o) now) <$> fs, []).
Proof.
  intros Hfs Hmax. induction Hfs as [|f fs (Hf & Hnow & Hpos) _ IH]; [done|]. simpl.
  rewrite sweep_flow_full by done. cbn [exec_bind]. by rewrite IH.
Qed.

Lemma sweeps_full n : forall s fs,
  (forall i, steady i) ->
  Forall (fun f => full f /\ last_rx f <= clock (reads s) <= last_rx f + stale_ns /\ 0 < last_rx f) fs ->
  exists s' fs', sweeps n s fs = Done (s', fs', []) /\ errors s' = errors s /\ length fs' = length fs /\ Forall full fs'.
Proof.
  induction n as [|n IH]; intros s fs Hclock Hfs.
  - exists s, fs. split_and!; try done. eapply Forall_impl; [exact Hfs|]. by intros f [? _].
  - cbn [sweeps]. unfold sweep, now_ns. destruct (Hclock (reads s)) as [Hpos Hstep].
    rewrite sweep_flows_full; [|done|lia]. cbn [exec_bind]. simpl.
    destruct (running s).
    + destruct (IH (set_reads (S (reads s)) s) ((fun _ => mk_flow (pipeline o) (clock (reads s))) <$> fs) Hclock) as (s' & fs' & E & He & Hlen & Hfull).
      { apply Forall_fmap, Forall_forall. intros f _. simpl. split; [done|]. lia. }
      rewrite E. cbn [exec_bind]. exists s', fs'. rewrite length_fmap in Hlen. by split_and!.
    + eexists _, _. split; [reflexivity|]. split; [done|]. split; [by rewrite length_fmap|].
      apply Forall_fmap, Forall_forall. by intros f _.
Qed.
End udp.

(** The liveness sweep never acts.  It is meant to write off the datagrams of
    a flow that has been silent for 200 ms and to send new ones; but it also
    renews the time it compares with.  As long as consecutive readings of the
    clock are at most 200 ms apart, which a sweep every 100 ms makes them, any
    number of sweeps over flows that have lost all their datagrams sends
    nothing, counts nothing, and leaves the flows as they are. *)
Theorem sweep_never_writes_off o big_endian clock n s fs :
  (forall i, steady clock i) ->
  Forall (fun f => full o f /\ last_rx f <= clock (reads s) <= last_rx f + stale_ns /\ 0 < last_rx f) fs ->
  exists s' fs', sweeps o big_endian clock n s fs = Done (s', fs', []) /\
    errors s' = errors s /\ length fs' = length fs /\ Forall (full o) fs'.
Proof. apply sweeps_full. Qed.

(** ** main *)

(** The time the measurement took. *)
Definition elapsed (o : options) (s : run_state) : double :=
  if t_start s <? t_end s then div (of_int (t_end s - t_start s)) (of_int 1000000000) else duration_s o.

Definition report (o : options) (s : run_state) : exec result :=
  emit_result o (hist_ s) (requests s) (errors s) (elapsed o s).

Module examples.
Import TcpLink.examples.

Definition args : list bytes := [str "--payload"; str "8"; str "--pipeline=2"; str "--port"; str "7001"].
Definition no_stod (s : bytes) : option double := None.
Definition opts : options := match parse_options no_stod args (str "lnw") with Parsed o => o | _ => default_options [] end.
Definition ticks (n : nat) : Z := u64 (1000 * Z.of_nat (S n)).

Abbreviation W := (TcpSocket.world StreamHost.host conn (list socket_address) unit).
Definition conn_end (d : Z) (quota : list nat) : W :=
  mk_world (adopted_socket d no_address) new_loop (StreamHost.mk_host ∅ quota) (new_conn new_state) no_history.
Definition start : link (K := StreamHost.host) := mk_link (conn_end 5 [3; 30; 30; 30]%nat) (conn_end 9 [10; 30; 30]%nat).

(** Two frames go out in pieces and come back in others. *)
Definition script : list bench_event :=
  [Shared (begin_measuring ticks); Link (AtLeft (SIo writable_)); Link (ToRight 11); Link (AtRight (SIo readable_));
   Link (ToLeft 9); Link (AtLeft (SIo readable_)); Link (ToRight 20); Link (AtRight (SIo readable_)); Link (AtRight (SIo writable_));
   Link (ToLeft 30); Link (AtLeft (SIo readable_))].

Lemma begin_measuring_fair clock : fair_change (begin_measuring clock).
Proof. by intros s. Qed.

Abbreviation run :=
  (do l := run_connected opts false ticks 5 9 id tt 20 6 start in bench_run opts false ticks 5 9 id tt 20 6 script l).
Definition final := match run with Done l => l | _ => start end.

Lemma script_fair : Forall fair script.
Proof.
  unfold script.
  repeat (apply Forall_cons; split; [first [reflexivity | apply begin_measuring_fair]|]). by apply Forall_nil.
Qed.

Lemma closed_loop_witness :
  run = Done final /\ echoes (env (left final)) = [1000; 2000; 5000] /\ requests (st (env (left final))) = 3 /\
  echoes (env (left final)) `prefix_of` stamps (env (left final)) /\
  length (accepted (hist (left final))) = ((length (delivered (hist (left final))) / 8 + 2) * 8)%nat.
Proof.
  assert (run = Done final) as E by by vm_compute. split; [exact E|]. split; [by vm_compute|]. split; [by vm_compute|].
  destruct (closed_loop 5 9 id tt 20 6 no_stod args false ticks opts new_state script start) as [_ H].
  - split; [by vm_compute|]. split; [by vm_compute|]. intros n. apply Z.mod_pos_bound. lia.
  - by split_and!.
  - by split_and!.
  - reflexivity.
  - reflexivity.
  - exact script_fair.
  - destruct (H final E) as (_ & _ & [Hpre _] & _ & Hfull & _). split; [exact Hpre|]. apply Hfull; by vm_compute.
Defined.

(** A clock that advances by 100 ms per reading. *)
Definition every_100ms (n : nat) : Z := Z.min (100000000 * Z.of_nat (S n)) (2 ^ 63).

(** Three flows with everything lost, swept twenty times. *)
Definition wedged : list flow := replicate 3 (mk_flow 2 100000000).

Lemma sweep_never_writes_off_witness :
  exists s' fs', sweeps opts false every_100ms 20 (set_reads 1 new_state) wedged = Done (s', fs', []) /\
    errors s' = 0 /\ length fs' = 3%nat /\ Forall (full opts) fs'.
Proof.
  apply (sweep_never_writes_off opts false every_100ms 20 (set_reads 1 new_state) wedged).
  - intros i. unfold steady, every_100ms, stale_ns. lia.
  - unfold wedged. repeat (constructor; [by vm_compute|]). constructor.
Defined.

(** A single sweep that comes 300 ms after the last one does write off. *)
Example late_sweep_writes_off :
  match sweep opts false (fun n => 400000000) new_state wedged with
  | Done (s, fs, ds, again) => errors s = 6 /\ length ds = 6%nat /\ again = true
  | _ => False
  end.
Proof. by vm_compute. Qed.

End examples.
