(* ===== verification/BenchAsio.v ===== *)
(** * The benchmark programs on Boost.Asio

    benchmarks/cpp/asio_echo_client.cpp and asio_echo_server.cpp, the reference
    point of the benchmark.  Asio itself is not modelled: an asynchronous
    operation is outstanding from the call that starts it until its completion
    handler is called, and the completions, with what they report, are inputs,
    in any order.  What Asio's documentation forbids is undefined: a second
    [async_write], or a second read, while one is outstanding on the socket.
    The shared state, the clock and the functions posted by [main] are those of
    [BenchClient]. *)

From S2P Require Import Prelude Poller.
From S2P Require Import Bench BenchClient.
#[local] Open Scope Z_scope.

(** ** The TCP client *)

Module tcp_client.

(** A connection: its members, the operations that are outstanding, and a
    history: the times put into the frames it made and those it read back, the
    frames given to [async_write], the bytes that came in, and whether a write
    failed. *)
Record tcp_conn := mk_conn {
  st_ : run_state;
  acc_ : bytes;
  wq_ : list bytes;
  writing_ : bool;
  inflight_ : Z;
  connect_op : bool;
  read_op : bool;
  write_op : bool;
  stamps : list Z;
  echoes : list Z;
  given : list bytes;
  got : bytes;
  cut : bool
}.

Definition new_conn (s : run_state) : tcp_conn := mk_conn s [] [] false 0 false false false [] [] [] [] false.

Definition set_st (s : run_state) (c : tcp_conn) : tcp_conn :=
  mk_conn s (acc_ c) (wq_ c) (writing_ c) (inflight_ c) (connect_op c) (read_op c) (write_op c) (stamps c) (echoes c) (given c) (got c) (cut c).
Definition set_writing (b : bool) (c : tcp_conn) : tcp_conn :=
  mk_conn (st_ c) (acc_ c) (wq_ c) b (inflight_ c) (connect_op c) (read_op c) (write_op c) (stamps c) (echoes c) (given c) (got c) (cut c).
Definition set_connect_op (b : bool) (c : tcp_conn) : tcp_conn :=
  mk_conn (st_ c) (acc_ c) (wq_ c) (writing_ c) (inflight_ c) b (read_op c) (write_op c) (stamps c) (echoes c) (given c) (got c) (cut c).
Definition set_read_op (b : bool) (c : tcp_conn) : tcp_conn :=
  mk_conn (st_ c) (acc_ c) (wq_ c) (writing_ c) (inflight_ c) (connect_op c) b (write_op c) (stamps c) (echoes c) (given c) (got c) (cut c).
Definition end_write (failed : bool) (c : tcp_conn) : tcp_conn :=
  mk_conn (st_ c) (acc_ c) (wq_ c) (writing_ c) (inflight_ c) (connect_op c) (read_op c) false (stamps c) (echoes c) (given c) (got c)
    (cut c || failed).
Definition add_acc (data : bytes) (c : tcp_conn) : tcp_conn :=
  mk_conn (st_ c) (acc_ c ++ data) (wq_ c) (writing_ c) (inflight_ c) (connect_op c) (read_op c) (write_op c) (stamps c) (echoes c)
    (given c) (got c ++ data) (cut c).

Section client.
Variable o : options.
Variable big_endian : bool.
Variable clock : nat -> Z.

(** Starting operations. *)
Definition async_connect (c : tcp_conn) : exec tcp_conn := if connect_op c then Undef else Done (set_connect_op true c).
Definition async_read_some (c : tcp_conn) : exec tcp_conn := if read_op c then Undef else Done (set_read_op true c).
Definition async_write (frames : list bytes) (c : tcp_conn) : exec tcp_conn :=
  if write_op c then Undef
  else Done (mk_conn (st_ c) (acc_ c) (wq_ c) (writing_ c) (inflight_ c) (connect_op c) (read_op c) true (stamps c) (echoes c)
               (given c ++ frames) (got c) (cut c)).

(** The whole queue goes into one write. *)
Definition flush (c : tcp_conn) : exec tcp_conn :=
  match wq_ c with
  | [] => Done (set_writing false c)
  | batch =>
      async_write batch
        (mk_conn (st_ c) (acc_ c) [] true (inflight_ c) (connect_op c) (read_op c) (write_op c) (stamps c) (echoes c) (given c) (got c) (cut c))
  end.

Definition enqueue (c : tcp_conn) : exec tcp_conn :=
  let '(now, s) := now_ns clock (st_ c) in
  do frame := make_frame big_endian (payload o) now in
  let c := mk_conn s (acc_ c) (wq_ c ++ [frame]) (writing_ c) (inflight_ c + 1) (connect_op c) (read_op c) (write_op c)
             (stamps c ++ [now]) (echoes c) (given c) (got c) (cut c) in
  if negb (writing_ c) then flush c else Done c.

Fixpoint enqueue_many (n : nat) (c : tcp_conn) : exec tcp_conn :=
  match n with
  | O => Done c
  | S n' => do c := enqueue c in enqueue_many n' c
  end.

Definition read (c : tcp_conn) : exec tcp_conn := async_read_some c.

(** [connect] and its completion. *)
Definition connect (c : tcp_conn) : exec tcp_conn := async_connect c.

Definition on_connect (failed : bool) (c : tcp_conn) : exec tcp_conn :=
  if failed then Done (set_st (count_error (st_ c)) c)
  else
    do c := enqueue_many (Z.to_nat (pipeline o)) c in
    read c.

Definition on_write (failed : bool) (c : tcp_conn) : exec tcp_conn :=
  if failed then Done (set_st (count_error (st_ c)) c) else flush c.

(** One turn of the loop over the frames that are complete. *)
Definition take_frame (c : tcp_conn) : exec tcp_conn :=
  do ts := get_ts big_endian (acc_ c) in
  let rest := drop (Z.to_nat (payload o)) (acc_ c) in
  do s :=
    (if measuring (st_ c) then
       let '(now, s) := now_ns clock (st_ c) in
       do h := record (u64 (now - ts)) (hist_ s) in
       Done (book h s)
     else Done (st_ c)) in
  Done (mk_conn s rest (wq_ c) (writing_ c) (inflight_ c - 1) (connect_op c) (read_op c) (write_op c) (stamps c) (echoes c ++ [ts])
          (given c) (got c) (cut c)).

Fixpoint take_frames (fuel : nat) (c : tcp_conn) : exec tcp_conn :=
  if payload o <=? to_int (Z.of_nat (length (acc_ c))) then
    match fuel with
    | O => OutOfFuel
    | S fuel' => do c := take_frame c in take_frames fuel' c
    end
  else Done c.

(** The loop that fills the pipeline. *)
Fixpoint refill (fuel : nat) (c : tcp_conn) : exec tcp_conn :=
  if running (st_ c) && (inflight_ c <? pipeline o) then
    match fuel with
    | O => OutOfFuel
    | S fuel' => do c := enqueue c in refill fuel' c
    end
  else Done c.

(** The completion of a read: bytes, or an error. *)
Definition on_read (r : option bytes) (c : tcp_conn) : exec tcp_conn :=
  match r with
  | None => Done (set_st (count_error (st_ c)) c)
  | Some data =>
      let c := add_acc data c in
      do c := take_frames (length (acc_ c)) c in
      do c := refill (Z.to_nat (pipeline o - inflight_ c)) c in
      if running (st_ c) then read c else Done c
  end.

(** A completion of an operation that is outstanding, or a change of the
    shared state by posted functions and other connections. *)
Inductive completion := Connected (failed : bool) | Wrote (failed : bool) | Got (r : option bytes) | Posted (f : run_state -> run_state).

Definition complete (e : completion) (c : tcp_conn) : exec tcp_conn :=
  match e with
  | Connected failed => if connect_op c then on_connect failed (set_connect_op false c) else Done c
  | Wrote failed => if write_op c then on_write failed (end_write failed c) else Done c
  | Got r => if read_op c then on_read r (set_read_op false c) else Done c
  | Posted f => Done (set_st (f (st_ c)) c)
  end.

Fixpoint complete_all (es : list completion) (c : tcp_conn) : exec tcp_conn :=
  match es with
  | [] => Done c
  | e :: es' => do c := complete e c in complete_all es' c
  end.

Definition run (es : list completion) (s : run_state) : exec tcp_conn :=
  do c := connect (new_conn s) in
  complete_all es c.

(** *** Invariant *)

Hypothesis clock_u64 : forall n, 0 <= clock n < 2 ^ 64.
Hypothesis payload_ok : 8 <= payload o < 2 ^ 31 - 65536.
Hypothesis pipeline_ok : 1 <= pipeline o.

Abbreviation psize := (psize o).
Abbreviation timed := (timed o big_endian).
Abbreviation out_frame := (out_frame o big_endian).

(** Frames go out in the order they were made; a connection that is not writing
    has nothing queued; what is in flight is what was made and has not been read
    back, at most a pipeline of it; what came in is whole frames and the
    beginning of the next. *)
Record mid_inv (c : tcp_conn) : Prop := {
  ai_sent : given c ++ wq_ c = out_frame <$> stamps c;
  ai_flight : inflight_ c = Z.of_nat (length (stamps c)) - Z.of_nat (length (echoes c));
  ai_window : inflight_ c <= pipeline o;
  ai_idle : writing_ c = false -> write_op c = false /\ wq_ c = [];
  ai_busy : writing_ c = true -> write_op c = true \/ cut c = true;
  ai_stamps : Forall (fun ts => 0 <= ts < 2 ^ 64) (stamps c);
  ai_read : exists blocks, got c = concat blocks ++ acc_ c /\ Forall2 timed blocks (echoes c);
  ai_count : requests (st_ c) = count_ (hist_ (st_ c))
}.

(** Between completions: less than a frame waits, the pipeline of a connection
    that got through is full while the benchmark runs, and nothing is going on
    while the connection is being made. *)
Record conn_inv (c : tcp_conn) : Prop := {
  ai_mid : mid_inv c;
  ai_short : (length (acc_ c) < psize)%nat;
  ai_full : running (st_ c) = true -> stamps c <> [] -> inflight_ c = pipeline o;
  ai_start : connect_op c = true -> read_op c = false /\ stamps c = [] /\ echoes c = []
}.

(** What an operation leaves alone. *)
Definition keeps (c c' : tcp_conn) : Prop :=
  acc_ c' = acc_ c /\ read_op c' = read_op c /\ connect_op c' = connect_op c /\ running (st_ c') = running (st_ c).

(** [flush] when no write is outstanding. *)
Lemma asio_flush_ok c :
  write_op c = false -> given c ++ wq_ c = out_frame <$> stamps c ->
  inflight_ c = Z.of_nat (length (stamps c)) - Z.of_nat (length (echoes c)) -> inflight_ c <= pipeline o ->
  Forall (fun ts => 0 <= ts < 2 ^ 64) (stamps c) ->
  (exists blocks, got c = concat blocks ++ acc_ c /\ Forall2 timed blocks (echoes c)) ->
  requests (st_ c) = count_ (hist_ (st_ c)) ->
  exists c', flush c = Done c' /\ mid_inv c' /\ keeps c c' /\ inflight_ c' = inflight_ c /\ stamps c' = stamps c /\ echoes c' = echoes c.
Proof.
  intros Hw Hs Hf Hp Hst Hr Hc. unfold flush, async_write. destruct (wq_ c) as [|f fs] eqn:Eq; simpl.
  - eexists. split; [reflexivity|]. split_and!; try done. split; simpl; rewrite ?Eq; try done.
  - rewrite Hw. eexists. split; [reflexivity|]. split_and!; try done. split; simpl; try done; [by rewrite app_nil_r|by left].
Qed.

Lemma asio_enqueue_ok c :
  mid_inv c -> inflight_ c < pipeline o ->
  exists c', enqueue c = Done c' /\ mid_inv c' /\ keeps c c' /\ inflight_ c' = inflight_ c + 1 /\ stamps c' <> [] /\ echoes c' = echoes c.
Proof.
  intros [H1 H2 H3 H4 H5 H6 H7 H8] Hlt. unfold enqueue, now_ns. rewrite make_frame_done by lia. cbn [exec_bind writing_].
  assert (given c ++ wq_ c ++ [frame big_endian (payload o) (clock (reads (st_ c)))] = out_frame <$> stamps c ++ [clock (reads (st_ c))]) as Hsent.
  { by rewrite app_assoc, H1, fmap_app. }
  assert (Forall (fun ts => 0 <= ts < 2 ^ 64) (stamps c ++ [clock (reads (st_ c))])) as Hstamps.
  { apply Forall_app. split; [done|]. by apply Forall_singleton. }
  assert (stamps c ++ [clock (reads (st_ c))] <> []) as Hne by (by destruct (stamps c)).
  destruct (writing_ c) eqn:Ew; simpl.
  - eexists. split; [reflexivity|]. split_and!; try done. split; simpl; try done; rewrite ?length_app; simpl; lia.
  - destruct (H4 eq_refl) as [Hop Hq]. edestruct asio_flush_ok as (c' & -> & Hc' & Hk & Hi & Hss & He);
      [..|exists c'; split_and!; try apply Hk; [done|done|exact Hi|by rewrite Hss|exact He]]; simpl; try done; rewrite ?length_app; simpl; lia.
Qed.

Lemma asio_enqueue_many_ok n : forall c,
  mid_inv c -> inflight_ c + Z.of_nat n <= pipeline o ->
  exists c', enqueue_many n c = Done c' /\ mid_inv c' /\ keeps c c' /\ inflight_ c' = inflight_ c + Z.of_nat n /\ echoes c' = echoes c.
Proof.
  induction n as [|n IH]; intros c Hc Hn; simpl.
  - exists c. split_and!; try done. lia.
  - destruct (asio_enqueue_ok c Hc) as (c1 & -> & Hc1 & (K1 & K2 & K3 & K4) & Hi & _ & He); [lia|]. simpl.
    destruct (IH c1 Hc1) as (c2 & -> & Hc2 & (L1 & L2 & L3 & L4) & Hi2 & He2); [lia|].
    exists c2. split_and!; try done; try congruence; [split_and!; congruence|lia].
Qed.

Lemma asio_refill_ok fuel : forall c,
  mid_inv c -> Z.to_nat (pipeline o - inflight_ c) = fuel ->
  exists c', refill fuel c = Done c' /\ mid_inv c' /\ keeps c c' /\ (running (st_ c) = true -> inflight_ c' = pipeline o).
Proof.
  induction fuel as [|fuel IH]; intros c Hc Hf; simpl; pose proof (ai_window c Hc).
  - destruct (Z.ltb_spec (inflight_ c) (pipeline o)); [lia|]. rewrite andb_false_r. exists c. split_and!; try done. lia.
  - destruct (Z.ltb_spec (inflight_ c) (pipeline o)); [|lia]. rewrite andb_true_r. destruct (running (st_ c)) eqn:Er; [|by exists c].
    destruct (asio_enqueue_ok c Hc) as (c1 & -> & Hc1 & (K1 & K2 & K3 & K4) & Hi & _ & _); [lia|]. simpl.
    destruct (IH c1 Hc1) as (c2 & -> & Hc2 & (L1 & L2 & L3 & L4) & Hi2); [lia|].
    exists c2. split_and!; try done; [split_and!; congruence|]. intros _. apply Hi2. congruence.
Qed.

Lemma asio_take_frame_ok c :
  mid_inv c -> (psize <= length (acc_ c))%nat ->
  exists c', take_frame c = Done c' /\ mid_inv c' /\ length (acc_ c') = (length (acc_ c) - psize)%nat /\
    read_op c' = read_op c /\ connect_op c' = connect_op c /\ running (st_ c') = running (st_ c) /\ stamps c' = stamps c.
Proof.
  intros [H1 H2 H3 H4 H5 H6 (blocks & Hg & Hb) H8] Hlen. unfold take_frame.
  assert (exists ts, get_ts big_endian (acc_ c) = Done ts /\ get_ts big_endian (take psize (acc_ c)) = Done ts) as (ts & -> & Hts).
  { unfold get_ts. rewrite !slice_done by (unfold psize in *; rewrite ?length_take; lia). simpl. eexists.
    split; [reflexivity|]. rewrite !drop_0, take_take. by rewrite Nat.min_l by (unfold psize; lia). }
  cbn [exec_bind].
  assert (exists s, (if measuring (st_ c) then
       let '(now, s) := now_ns clock (st_ c) in
       do h := record (u64 (now - ts)) (hist_ s) in
       Done (book h s)
     else Done (st_ c)) = Done s /\ running s = running (st_ c) /\ requests s = count_ (hist_ s)) as (s & -> & Hrun & Hcount).
  { destruct (measuring (st_ c)); [|by exists (st_ c)]. unfold now_ns. simpl.
    destruct (record_defined (u64 (clock (reads (st_ c)) - ts)) (hist_ (st_ c))) as (h & -> & Ec); [apply Z.mod_pos_bound; lia|].
    eexists. split; [reflexivity|]. split; [done|]. simpl. by rewrite Ec, H8. }
  cbn [exec_bind]. eexists. split; [reflexivity|]. simpl. split_and!; [|by rewrite length_drop|done..].
  split; simpl; try done; rewrite ?length_app; simpl; [lia|lia|].
  exists (blocks ++ [take psize (acc_ c)]). split.
  - rewrite Hg, concat_app. simpl. rewrite app_nil_r, <- app_assoc. unfold psize. by rewrite take_drop.
  - apply Forall2_app; [done|]. constructor; [|done]. split; [rewrite length_take; lia|done].
Qed.

Lemma asio_take_frames_ok fuel : forall c,
  mid_inv c -> (length (acc_ c) <= fuel)%nat -> Z.of_nat (length (acc_ c)) < 2 ^ 31 ->
  exists c', take_frames fuel c = Done c' /\ mid_inv c' /\ (length (acc_ c') < psize)%nat /\
    read_op c' = read_op c /\ connect_op c' = connect_op c /\ running (st_ c') = running (st_ c) /\ stamps c' = stamps c.
Proof.
  induction fuel as [|fuel IH]; intros c Hc Hfuel Hint; cbn [take_frames]; rewrite to_int_small by lia;
    destruct (Z.leb_spec (payload o) (Z.of_nat (length (acc_ c)))); try (exists c; split_and!; try done; unfold psize; lia).
  destruct (asio_take_frame_ok c Hc) as (c1 & -> & Hc1 & Hlen & K1 & K2 & K3 & K4); [unfold psize; lia|]. cbn [exec_bind].
  destruct (IH c1 Hc1) as (c2 & -> & Hc2 & Hs & L1 & L2 & L3 & L4); [unfold psize in *; lia|lia|].
  exists c2. split_and!; try done; congruence.
Qed.

(** A read returns at most what its buffer holds; posted functions do not start
    the benchmark again, and book each request they count. *)
Definition possible (e : completion) : Prop :=
  match e with
  | Got (Some data) => (length data <= Z.to_nat 65536)%nat
  | Posted f => fair_change f
  | _ => True
  end.

Lemma asio_count_error_ok c : mid_inv c -> mid_inv (set_st (count_error (st_ c)) c).
Proof. intros []. by split. Qed.

Lemma asio_on_connect_ok failed c :
  conn_inv c -> connect_op c = true -> exists c', on_connect failed (set_connect_op false c) = Done c' /\ conn_inv c'.
Proof.
  intros [Hm Hs Hf Ha] Hop. destruct (Ha Hop) as (Hrd & Hst & Hec). unfold on_connect.
  assert (mid_inv (set_connect_op false c)) as Hm1 by (destruct Hm; by split).
  destruct failed.
  - eexists. split; [reflexivity|]. split; simpl; try done. exact (asio_count_error_ok _ Hm1).
  - pose proof (ai_flight c Hm) as Hz. rewrite Hst, Hec in Hz. simpl in Hz.
    destruct (asio_enqueue_many_ok (Z.to_nat (pipeline o)) _ Hm1) as (c1 & -> & Hc1 & (K1 & K2 & K3 & K4) & Hi & He); [simpl; lia|].
    cbn [exec_bind]. unfold read, async_read_some. rewrite K2. simpl. rewrite Hrd. eexists. split; [reflexivity|].
    split; simpl; [destruct Hc1; by split|by rewrite K1| |by rewrite K3]. intros _ _. rewrite Hi. simpl. lia.
Qed.

Lemma asio_on_write_ok failed c :
  conn_inv c -> write_op c = true -> exists c', on_write failed (end_write failed c) = Done c' /\ conn_inv c'.
Proof.
  intros [Hm Hs Hf Ha] Hop. unfold on_write. destruct failed.
  - eexists. split; [reflexivity|]. split; simpl; try done. destruct Hm as [H1 H2 H3 H4 H5 H6 H7 H8]. split; simpl; try done.
    + intros Hw. destruct (H4 Hw); congruence.
    + intros _. right. by rewrite orb_true_r.
  - destruct Hm as [H1 H2 H3 H4 H5 H6 H7 H8].
    destruct (asio_flush_ok (end_write false c)) as (c' & -> & Hc' & (K1 & K2 & K3 & K4) & Hi & Hss & He); simpl; try done.
    exists c'. split; [done|]. simpl in *. split; [done|by rewrite K1| |]; rewrite ?K4, ?K3, ?K2, ?Hss, ?Hi, ?He; done.
Qed.

Lemma asio_on_read_ok r c :
  conn_inv c -> read_op c = true -> possible (Got r) -> exists c', on_read r (set_read_op false c) = Done c' /\ conn_inv c'.
Proof.
  intros [Hm Hs Hf Ha] Hop Hr. assert (connect_op c = false) as Hnc. { destruct (connect_op c); [|done]. destruct (Ha eq_refl); congruence. }
  unfold on_read. destruct r as [data|].
  2: { eexists. split; [reflexivity|]. split; simpl; try done; [|congruence]. destruct Hm; by split. }
  set (c0 := add_acc data (set_read_op false c)). simpl in Hr.
  assert (mid_inv c0) as Hm0.
  { destruct Hm as [H1 H2 H3 H4 H5 H6 (blocks & Hg & Hb) H8]. split; simpl; try done. exists blocks. split; [|done]. by rewrite Hg, app_assoc. }
  destruct (asio_take_frames_ok (length (acc_ c0)) c0 Hm0) as (c1 & -> & Hc1 & Hs1 & K1 & K2 & K3 & K4); [done| |].
  { simpl. rewrite length_app. unfold psize in Hs. lia. }
  cbn [exec_bind].
  destruct (asio_refill_ok _ c1 Hc1 eq_refl) as (c2 & -> & Hc2 & (L1 & L2 & L3 & L4) & Hi). cbn [exec_bind].
  assert (forall c3, mid_inv c3 -> acc_ c3 = acc_ c2 -> running (st_ c3) = running (st_ c2) -> inflight_ c3 = inflight_ c2 ->
            connect_op c3 = connect_op c2 -> conn_inv c3) as Hfin.
  { intros c3 M1 M2 M3 M4 M5. split; [done|by rewrite M2, L1| |].
    - rewrite M3, M4. intros Hrun _. apply Hi. congruence.
    - rewrite M5, L3, K2. simpl. congruence. }
  destruct (running (st_ c2)) eqn:Er; [|exists c2; split; [done|by apply Hfin]].
  unfold read, async_read_some. rewrite L2, K1. simpl. eexists. split; [reflexivity|]. apply Hfin; try done. destruct Hc2; by split.
Qed.

Lemma asio_complete_ok e c : possible e -> conn_inv c -> exists c', complete e c = Done c' /\ conn_inv c'.
Proof.
  intros He Hc. destruct e as [failed|failed|r|f]; simpl.
  - destruct (connect_op c) eqn:E; [by apply asio_on_connect_ok|by exists c].
  - destruct (write_op c) eqn:E; [by apply asio_on_write_ok|by exists c].
  - destruct (read_op c) eqn:E; [by apply asio_on_read_ok|by exists c].
  - eexists. split; [reflexivity|]. destruct Hc as [[H1 H2 H3 H4 H5 H6 H7 H8] Hs Hf Ha]. destruct (He (st_ c)) as [Hr Hcount].
    split; simpl; try done; [split; simpl; auto|auto].
Qed.

Lemma asio_complete_all_ok es : forall c, Forall possible es -> conn_inv c -> exists c', complete_all es c = Done c' /\ conn_inv c'.
Proof.
  induction es as [|e es IH]; intros c Hes Hc; simpl; [by exists c|]. apply Forall_cons in Hes as [He Hes].
  destruct (asio_complete_ok e c He Hc) as (c1 & -> & Hc1). simpl. by apply IH.
Qed.

Lemma asio_start_ok s : requests s = count_ (hist_ s) -> conn_inv (set_connect_op true (new_conn s)).
Proof.
  intros Hs. split; simpl; try done; [|unfold psize; lia]. split; simpl; try done; [lia|]. by exists [].
Qed.

End client.

(** The Asio client does what it is compared for.  For every order in which
    connects, reads and writes complete or fail, however they are split, and
    whatever the other connections do to the shared state: a completion handler
    always returns, and never starts a write while another is outstanding;
    frames go out whole and in the order they were made, and none is left
    queued unless a write is outstanding or has failed; the requests in flight
    are those made and not read back, never more than the pipeline, and exactly
    so many while the benchmark runs; when what came in is the echo of what went
    out, the times read back are the times of the frames, in order. *)
Theorem asio_client_pipelines stod args big_endian clock o s es :
  configured stod args clock o -> requests s = count_ (hist_ s) -> Forall possible es ->
  exists c, run o big_endian clock es s = Done c /\
    given c ++ wq_ c = out_frame o big_endian <$> stamps c /\
    (wq_ c <> [] -> write_op c = true \/ cut c = true) /\
    Z.of_nat (length (stamps c)) <= Z.of_nat (length (echoes c)) + pipeline o /\
    (running (st_ c) = true -> stamps c <> [] -> Z.of_nat (length (stamps c)) = Z.of_nat (length (echoes c)) + pipeline o) /\
    (got c `prefix_of` concat (given c) -> echoes c `prefix_of` stamps c) /\
    requests (st_ c) = count_ (hist_ (st_ c)).
Proof.
  intros (Ho & Hmax & Hclock) Hs Hes. destruct (options_usable _ _ _ _ Ho) as (_ & Hpay & Hpipe & _).
  assert (8 <= payload o < 2 ^ 31 - 65536) as Hp by lia. assert (1 <= pipeline o) as Hq by lia.
  destruct (asio_complete_all_ok o big_endian clock Hclock Hp Hq es _ Hes (asio_start_ok o big_endian Hp Hq s Hs)) as (c & E & Hc).
  exists c. split; [exact E|]. destruct Hc as [[H1 H2 H3 H4 H5 H6 (blocks & Hg & Hb) H8] Hsh Hf Ha]. split_and!; try done.
  - intros Hne. destruct (writing_ c) eqn:Ew; [by apply H5|]. by destruct (H4 eq_refl) as [_ ?].
  - lia.
  - intros Hr Hst. specialize (Hf Hr Hst). lia.
  - intros Hpre. eapply (times_prefix o big_endian); [done|exact Hb|done|]. rewrite <- Hg, <- H1, concat_app.
    etrans; [exact Hpre|]. by apply prefix_app_r.
Qed.

End tcp_client.

(** ** The UDP client *)

Module udp_client.

Record udp_flow := mk_flow { inflight_ : Z; last_activity_ : Z }.
Definition new_flow : udp_flow := mk_flow 0 0.

Section client.
Variable o : options.
Variable big_endian : bool.
Variable clock : nat -> Z.

(** Whether [send_to] of the frame with the [n]-th reading of the clock
    fails. *)
Variable send_fails : nat -> bool.

(** The [while] of [top_up]; the fuel is what is missing in the pipeline.
    The datagrams that were sent are returned. *)
Fixpoint send_loop (fuel : nat) (s : run_state) (f : udp_flow) : exec (run_state * udp_flow * list bytes) :=
  if running s && (inflight_ f <? pipeline o) then
    match fuel with
    | O => OutOfFuel
    | S fuel' =>
        let n := reads s in
        let '(now, s) := now_ns clock s in
        do frame := make_frame big_endian (payload o) now in
        if send_fails n then Done (count_error s, f, [])
        else
          do (s, f, ds) := send_loop fuel' s (mk_flow (inflight_ f + 1) (last_activity_ f)) in
          Done (s, f, frame :: ds)
    end
  else Done (s, f, []).

Definition top_up (s : run_state) (f : udp_flow) : exec (run_state * udp_flow * list bytes) :=
  do (s, f, ds) := send_loop (Z.to_nat (pipeline o - inflight_ f)) s f in
  let '(now, s) := now_ns clock s in
  Done (s, mk_flow (inflight_ f) now, ds).

Definition reap (now : Z) (s : run_state) (f : udp_flow) : exec (run_state * udp_flow * list bytes) :=
  let '(s, f) :=
    if (0 <? inflight_ f) && (stale_ns <? u64 (now - last_activity_ f)) then
      (set_errors (u64 (errors s + inflight_ f)) s, mk_flow 0 (last_activity_ f))
    else (s, f) in
  top_up s f.

(** The completion of [async_receive_from]; the last component says that the
    next one is started. *)
Definition on_receive (r : option bytes) (s : run_state) (f : udp_flow) : exec (run_state * udp_flow * list bytes * bool) :=
  match r with
  | Some data =>
      if (8 <=? length data)%nat then
        let '(now, s) := now_ns clock s in
        do ts := get_ts big_endian data in
        let rtt := u64 (now - ts) in
        do s :=
          (if late_ns <? rtt then Done (count_error s)
           else if measuring s then do h := record rtt (hist_ s) in Done (book h s)
           else Done s) in
        let f := if 0 <? inflight_ f then mk_flow (inflight_ f - 1) (last_activity_ f) else f in
        do (s, f, ds) := top_up s f in
        Done (s, f, ds, running s)
      else Done (s, f, [], running s)
  | None => Done (s, f, [], running s)
  end.

Definition start (s : run_state) (f : udp_flow) : exec (run_state * udp_flow * list bytes) := top_up s f.

Fixpoint reap_all (now : Z) (s : run_state) (fs : list udp_flow) : exec (run_state * list udp_flow * list bytes) :=
  match fs with
  | [] => Done (s, [], [])
  | f :: rest =>
      do (s, f, d) := reap now s f in
      do (s, rest, ds) := reap_all now s rest in
      Done (s, f :: rest, d ++ ds)
  end.

(** The handler of the timer; the last component says that it is armed
    again. *)
Definition tick (failed : bool) (s : run_state) (fs : list udp_flow) : exec (run_state * list udp_flow * list bytes * bool) :=
  if failed || negb (running s) then Done (s, fs, [], false)
  else
    let '(now, s) := now_ns clock s in
    do (s, fs, ds) := reap_all now s fs in
    Done (s, fs, ds, true).

(** Ticks one after the other with nothing received in between. *)
Fixpoint ticks (n : nat) (s : run_state) (fs : list udp_flow) : exec (run_state * list udp_flow * list bytes) :=
  match n with
  | O => Done (s, fs, [])
  | S n' =>
      do (s, fs, ds, again) := tick false s fs in
      if again then
        do (s, fs, ds') := ticks n' s fs in
        Done (s, fs, ds ++ ds')
      else Done (s, fs, ds)
  end.

(** *** The window *)

Hypothesis clock_u64 : forall n, 0 <= clock n < 2 ^ 64.
Hypothesis payload_ok : 8 <= payload o.

Definition in_window (f : udp_flow) : Prop := 0 <= inflight_ f <= pipeline o.

Lemma asio_send_loop_ok fuel : forall s f,
  in_window f -> Z.to_nat (pipeline o - inflight_ f) = fuel ->
  exists s' f' ds, send_loop fuel s f = Done (s', f', ds) /\ in_window f' /\
    inflight_ f' = inflight_ f + Z.of_nat (length ds) /\ running s' = running s /\
    (running s = true -> (inflight_ f' = pipeline o \/ errors s' = u64 (errors s + 1))) /\
    Forall (fun d => length d = Z.to_nat (payload o)) ds.
Proof.
  induction fuel as [|fuel IH]; intros s f Hf Hn; cbn [send_loop]; unfold in_window in *.
  - destruct (Z.ltb_spec (inflight_ f) (pipeline o)); [lia|]. rewrite andb_false_r. eexists _, _, _. split; [reflexivity|].
    split_and!; try done; simpl; lia.
  - destruct (Z.ltb_spec (inflight_ f) (pipeline o)); [|lia]. rewrite andb_true_r.
    destruct (running s) eqn:Er; [|eexists _, _, _; split; [reflexivity|]; split_and!; try done; simpl; lia].
    unfold now_ns. rewrite make_frame_done by lia. cbn [exec_bind]. destruct (send_fails (reads s)).
    { eexists _, _, _. split; [reflexivity|]. split_and!; try done; simpl; lia. }
    destruct (IH (set_reads (S (reads s)) s) (mk_flow (inflight_ f + 1) (last_activity_ f))) as (s' & f' & ds & -> & Hw & Hi & Hr & Hfull & Hall);
      [simpl; lia|simpl; lia|]. cbn [exec_bind]. eexists _, _, _. split; [reflexivity|]. simpl in *.
    split_and!; try done; try lia. constructor; [|done]. by apply frame_length.
Qed.

Lemma asio_top_up_ok s f :
  in_window f ->
  exists s' f' ds, top_up s f = Done (s', f', ds) /\ in_window f' /\ running s' = running s /\
    (running s = true -> inflight_ f' = pipeline o \/ errors s' = u64 (errors s + 1)).
Proof.
  intros Hf. unfold top_up. destruct (asio_send_loop_ok _ s f Hf eq_refl) as (s' & f' & ds & -> & Hw & _ & Hr & Hfull & _).
  cbn [exec_bind]. unfold now_ns. eexists _, _, _. split; [reflexivity|]. by split_and!.
Qed.

(** Whatever comes back, early, late, twice or not at all, a flow handles it and
    has at most a pipeline of datagrams on its way; after a reply and while the
    benchmark runs it has exactly that, or an error was counted. *)
Theorem receive_keeps_window r s f :
  in_window f ->
  exists s' f' ds again, on_receive r s f = Done (s', f', ds, again) /\ in_window f' /\ again = running s /\
    (forall data, r = Some data -> (8 <= length data)%nat -> running s = true ->
       inflight_ f' = pipeline o \/ errors s' <> errors s).
Proof.
  intros Hf. unfold on_receive. destruct r as [data|]; [|by eexists _, _, _, _].
  destruct (Nat.leb_spec 8 (length data)) as [Hlen|]; [|eexists _, _, _, _; split; [reflexivity|]; split_and!; try done; intros ? [= <-]; lia].
  unfold now_ns, get_ts. rewrite slice_done by lia. cbn [exec_bind]. set (rtt := u64 _).
  assert (exists s1, (if late_ns <? rtt then Done (count_error (set_reads (S (reads s)) s))
    else if measuring (set_reads (S (reads s)) s) then
      do h := record rtt (hist_ (set_reads (S (reads s)) s)) in Done (book h (set_reads (S (reads s)) s))
    else Done (set_reads (S (reads s)) s)) = Done s1 /\ running s1 = running s /\ (errors s1 = errors s \/ errors s1 = u64 (errors s + 1)))
    as (s1 & -> & Hr & He).
  { destruct (late_ns <? rtt); [eexists; split; [reflexivity|]; by auto|]. destruct (measuring _); [|eexists; split; [reflexivity|]; by auto].
    destruct (record_defined rtt (hist_ s)) as (h & E & _); [apply Z.mod_pos_bound; lia|]. simpl. rewrite E.
    eexists. split; [reflexivity|]. by auto. }
  cbn [exec_bind]. set (f1 := if 0 <? inflight_ f then _ else f).
  assert (in_window f1) as Hf1. { unfold f1, in_window in *. destruct (Z.ltb_spec 0 (inflight_ f)); simpl; lia. }
  destruct (asio_top_up_ok s1 f1 Hf1) as (s' & f' & ds & -> & Hw & Hr' & Hfull). cbn [exec_bind].
  eexists _, _, _, _. split; [reflexivity|]. split_and!; [done|congruence|]. intros ? _ _ Hrun. destruct Hfull as [?|E]; [congruence|by left|right].
  rewrite E. intros Heq. unfold u64 in *. clear -He Heq. destruct He as [E1|E1]; rewrite E1 in Heq; Z.div_mod_to_equations; lia.
Qed.

Lemma reap_full now s f :
  inflight_ f = pipeline o -> last_activity_ f <= now <= last_activity_ f + stale_ns -> 0 <= last_activity_ f -> now < 2 ^ 64 ->
  reap now s f = Done (set_reads (S (reads s)) s, mk_flow (pipeline o) (clock (reads s)), []).
Proof.
  intros Hf Hnow Hpos Hmax. unfold reap, top_up. rewrite u64_small by lia.
  destruct (Z.ltb_spec stale_ns (now - last_activity_ f)); [lia|]. rewrite andb_false_r, Hf, Z.sub_diag. simpl.
  rewrite Hf, Z.ltb_irrefl, andb_false_r. unfold now_ns. cbn [exec_bind]. by rewrite Hf.
Qed.

End client.

(** The readings of the clock up to [k] apart are in order and at most 200 ms
    apart. *)
Definition calm (clock : nat -> Z) (k : nat) : Prop :=
  forall i j, (i <= j <= i + k)%nat -> 0 <= clock i <= clock j /\ clock j <= clock i + stale_ns /\ clock j < 2 ^ 64.

Section stuck.
Variable o : options.
Variable big_endian : bool.
Variable clock : nat -> Z.
Variable send_fails : nat -> bool.

(** Flows with a full pipeline, active at the readings [n], [n + 1], ... *)
Fixpoint stuck (n : nat) (fs : list udp_flow) : Prop :=
  match fs with
  | [] => True
  | f :: rest => f = mk_flow (pipeline o) (clock n) /\ stuck (S n) rest
  end.

Lemma stuck_full fs : forall n, stuck n fs -> Forall (fun f => inflight_ f = pipeline o) fs.
Proof. induction fs as [|f fs IH]; intros n Hs; [done|]. destruct Hs as [-> Hs]. constructor; [done|by eapply IH]. Qed.

Lemma reap_all_stuck now fs : forall n s,
  stuck n fs -> (forall i, (i < length fs)%nat -> 0 <= clock (n + i) <= now /\ now <= clock (n + i) + stale_ns) -> now < 2 ^ 64 ->
  exists fs', reap_all o big_endian clock send_fails now s fs = Done (set_reads (reads s + length fs) s, fs', []) /\
    stuck (reads s) fs' /\ length fs' = length fs.
Proof.
  induction fs as [|f fs IH]; intros n s Hst Hnow Hmax.
  - exists []. simpl. rewrite Nat.add_0_r. destruct s. by split_and!.
  - destruct Hst as [-> Hst]. pose proof (Hnow 0%nat ltac:(simpl; lia)) as H0. rewrite Nat.add_0_r in H0. cbn [reap_all].
    rewrite reap_full by (simpl; done || lia). cbn [exec_bind].
    destruct (IH (S n) (set_reads (S (reads s)) s) Hst) as (fs' & -> & Hfs' & Hlen); [|done|].
    { intros i Hi. specialize (Hnow (S i) ltac:(simpl; lia)). by rewrite Nat.add_succ_r in Hnow. }
    cbn [exec_bind]. eexists. split; [simpl; rewrite Nat.add_succ_r; reflexivity|]. split; [|simpl; by rewrite Hlen].
    split; [done|exact Hfs'].
Qed.

Lemma ticks_stuck k n : forall s fs m,
  calm clock (S k) -> length fs = k -> reads s = (m + k)%nat -> stuck m fs ->
  exists s' fs', ticks o big_endian clock send_fails n s fs = Done (s', fs', []) /\ errors s' = errors s /\
    length fs' = length fs /\ Forall (fun f => inflight_ f = pipeline o) fs'.
Proof.
  induction n as [|n IH]; intros s fs m Hcalm Hlen Hreads Hst.
  - exists s, fs. split_and!; try done. by eapply stuck_full.
  - cbn [ticks]. unfold tick. simpl. destruct (running s) eqn:Er; simpl.
    2: { exists s, fs. split_and!; try done. by eapply stuck_full. }
    destruct (reap_all_stuck (clock (reads s)) fs m (set_reads (S (reads s)) s) Hst) as (fs1 & -> & Hfs1 & Hlen1).
    { intros i Hi. destruct (Hcalm (m + i)%nat (reads s)) as (? & ? & ?); lia. }
    { destruct (Hcalm (reads s) (reads s)) as (? & ? & ?); lia. }
    cbn [exec_bind]. match goal with |- context [ticks _ _ _ _ n ?s1 fs1] => destruct (IH s1 fs1 (S (reads s)) Hcalm) as (s' & fs' & -> & He & Hl & Hall) end;
      [lia|simpl; lia|exact Hfs1|].
    cbn [exec_bind]. exists s', fs'. split_and!; try done. lia.
Qed.
End stuck.

(** The Asio client's timer never writes off either.  [reap] is meant to count
    the datagrams of a flow that was silent for 200 ms as lost; but the
    [top_up] at its end renews the time it compares with, although it sends
    nothing.  With ticks every 100 ms, flows whose datagrams were all lost stay
    as they are, for any number of ticks. *)
Theorem reap_never_writes_off o big_endian clock send_fails n s fs m :
  calm clock (S (length fs)) -> reads s = (m + length fs)%nat -> stuck o clock m fs ->
  exists s' fs', ticks o big_endian clock send_fails n s fs = Done (s', fs', []) /\ errors s' = errors s /\
    length fs' = length fs /\ Forall (fun f => inflight_ f = pipeline o) fs'.
Proof. intros Hc Hr Hs. by eapply ticks_stuck. Qed.

End udp_client.

(** ** The servers *)

Module echo_server.

(** The array [buf_] after [data] was received into it. *)
Definition received (data buf : bytes) : bytes := data ++ drop (length data) buf.

(** *** [tcp_session]

    A write that is outstanding reads [buf_] until it completes: what it sends
    is what the buffer holds then.  [came] and [gone] are the bytes that were
    received and sent. *)
Record tcp_session := mk_session {
  buf_ : bytes;
  read_op : bool;
  write_op : option nat;
  came : bytes;
  gone : bytes
}.

Definition async_read_some (x : tcp_session) : exec tcp_session :=
  if read_op x then Undef else Done (mk_session (buf_ x) true (write_op x) (came x) (gone x)).
Definition async_write (n : nat) (x : tcp_session) : exec tcp_session :=
  match write_op x with
  | Some _ => Undef
  | None => Done (mk_session (buf_ x) (read_op x) (Some n) (came x) (gone x))
  end.

Definition read (x : tcp_session) : exec tcp_session := async_read_some x.

(** [tcp_session::start]. *)
Definition start (buf : bytes) : exec tcp_session := read (mk_session buf false None [] []).

(** The completion handlers of [read]. *)
Definition on_read (r : option bytes) (x : tcp_session) : exec tcp_session :=
  match r with
  | None => Done x
  | Some data => async_write (length data) x
  end.
Definition on_write (failed : bool) (x : tcp_session) : exec tcp_session := if failed then Done x else read x.

(** Completions: a read brings its bytes into the buffer; a write that fails
    may have sent any part. *)
Inductive completion := Got (r : option bytes) | Wrote | Failed (sent : nat).

Definition complete (e : completion) (x : tcp_session) : exec tcp_session :=
  match e, write_op x with
  | Got r, _ =>
      if read_op x then
        let data := default [] r in
        on_read r (mk_session (received data (buf_ x)) false (write_op x) (came x ++ data) (gone x))
      else Done x
  | Wrote, Some n => on_write false (mk_session (buf_ x) (read_op x) None (came x) (gone x ++ take n (buf_ x)))
  | Failed m, Some n => on_write true (mk_session (buf_ x) (read_op x) None (came x) (gone x ++ take (Nat.min m n) (buf_ x)))
  | _, None => Done x
  end.

Fixpoint complete_all (es : list completion) (x : tcp_session) : exec tcp_session :=
  match es with
  | [] => Done x
  | e :: es' => do x := complete e x in complete_all es' x
  end.

(** Reading and writing take turns; what was sent is what came, up to the
    write that is outstanding. *)
Definition session_inv (x : tcp_session) : Prop :=
  match write_op x with
  | Some n => read_op x = false /\ came x = gone x ++ take n (buf_ x)
  | None => gone x `prefix_of` came x /\ (read_op x = true -> came x = gone x)
  end.

Lemma session_complete_ok e x : session_inv x -> exists x', complete e x = Done x' /\ session_inv x'.
Proof.
  intros Hinv. pose proof Hinv as Hx. unfold session_inv in Hx. destruct e as [r| |m]; simpl.
  - destruct (read_op x) eqn:Er; [|by exists x]. destruct (write_op x) as [n|] eqn:Ew; [by destruct Hx|].
    destruct Hx as [_ Hx]. rewrite (Hx eq_refl). destruct r as [data|]; simpl; (eexists; split; [reflexivity|]); unfold session_inv; simpl.
    + unfold received. by rewrite take_app_length.
    + rewrite app_nil_r. by split.
  - destruct (write_op x) as [n|] eqn:Ew; [|by exists x]. destruct Hx as [Hr Hx]. unfold read, async_read_some. simpl.
    rewrite Hr. eexists. split; [reflexivity|]. unfold session_inv. simpl. rewrite <- Hx. by split.
  - destruct (write_op x) as [n|] eqn:Ew; [|by exists x]. destruct Hx as [Hr Hx].
    eexists. split; [reflexivity|]. unfold session_inv. simpl. split; [|by rewrite Hr]. rewrite Hx. apply prefix_app.
    rewrite <- (take_take (buf_ x) m n). apply prefix_take.
Qed.

Lemma session_complete_all_ok es : forall x, session_inv x -> exists x', complete_all es x = Done x' /\ session_inv x'.
Proof.
  induction es as [|e es IH]; intros x Hx; simpl; [by exists x|]. destruct (session_complete_ok e x Hx) as (x1 & -> & Hx1). simpl. by apply IH.
Qed.

(** The session of the Asio server echoes: whatever completes or fails, the
    handlers never start an operation that is already outstanding nor touch the
    buffer of a write in progress, and the bytes sent are the bytes received, in
    order, up to the write in progress. *)
Theorem session_echoes buf es :
  exists x, (do x := start buf in complete_all es x) = Done x /\ gone x `prefix_of` came x /\
    (write_op x <> None -> read_op x = false) /\ (write_op x = None -> read_op x = true -> gone x = came x).
Proof.
  assert (session_inv (mk_session buf true None [] [])) as H0 by by split.
  destruct (session_complete_all_ok es _ H0) as (x & E & Hx). exists x. split; [exact E|]. unfold session_inv in Hx.
  destruct (write_op x) as [n|].
  - destruct Hx as [Hr Hx]. split_and!; try done. rewrite Hx. by apply prefix_app_r.
  - destruct Hx as [Hp Hx]. split_and!; try done. intros _ Hr. symmetry. by apply Hx.
Qed.

(** *** [udp_echo]

    One buffer for everything.  A receive is always outstanding; a send takes
    the destination with it and reads the buffer when it is carried out. *)
Record udp_echo := mk_udp_echo { ubuf : bytes; sends : list (nat * Z); sent : list (bytes * Z) }.

Definition new_udp_echo (buf : bytes) : udp_echo := mk_udp_echo buf [] [].

(** The handler of [receive], for a datagram from [peer] or an error. *)
Definition on_receive (r : option (bytes * Z)) (x : udp_echo) : udp_echo :=
  match r with
  | Some (data, peer) => mk_udp_echo (received data (ubuf x)) (sends x ++ [(length data, peer)]) (sent x)
  | None => x
  end.

(** The oldest outstanding send is carried out. *)
Definition carry_out (x : udp_echo) : udp_echo :=
  match sends x with
  | (n, peer) :: rest => mk_udp_echo (ubuf x) rest (sent x ++ [(take n (ubuf x), peer)])
  | [] => x
  end.

(** As long as a send is carried out before the next datagram is received, each
    goes back to where it came from; what keeps the sends from being overtaken
    is not in the program. *)
Definition promptly (ds : list (bytes * Z)) (x : udp_echo) : udp_echo :=
  fold_left (fun x d => carry_out (on_receive (Some d) x)) ds x.

Theorem prompt_echo_correct ds : forall x, sends x = [] -> sends (promptly ds x) = [] /\ sent (promptly ds x) = sent x ++ ds.
Proof.
  induction ds as [|[data peer] ds IH]; intros x Hx; simpl; [by rewrite app_nil_r|].
  set (x1 := carry_out _). assert (x1 = mk_udp_echo (received data (ubuf x)) [] (sent x ++ [(data, peer)])) as ->.
  { subst x1. unfold carry_out. simpl. rewrite Hx. simpl. unfold received. by rewrite take_app_length. }
  destruct (IH (mk_udp_echo (received data (ubuf x)) [] (sent x ++ [(data, peer)]))) as [H1 H2]; [done|].
  split; [done|]. rewrite H2. simpl. by rewrite <- app_assoc.
Qed.

(** Two datagrams that arrive before the first send is carried out: the first
    client gets the bytes of the second. *)
Theorem overtaken_send_mixes_up :
  sent (carry_out (carry_out (on_receive (Some (str "BBBB", 2)) (on_receive (Some (str "aaaa", 1)) (new_udp_echo [])))))
  = [(str "BBBB", 1); (str "BBBB", 2)].
Proof. by vm_compute. Qed.

End echo_server.

Module examples.
Import BenchClient.examples.

(** A pipeline of two frames of eight bytes: both go out in one write, come
    back in pieces, and the next two follow. *)
Definition echo_of (c : tcp_client.tcp_conn) : bytes := concat (tcp_client.given c).
Definition first_frames : bytes := concat (out_frame opts false <$> [1000; 2000]).
Definition script : list tcp_client.completion :=
  [tcp_client.Connected false; tcp_client.Posted (begin_measuring ticks); tcp_client.Got (Some (take 11 first_frames));
   tcp_client.Wrote false; tcp_client.Got (Some (drop 11 first_frames)); tcp_client.Wrote false].
Definition final : tcp_client.tcp_conn :=
  match tcp_client.run opts false ticks script new_state with Done c => c | _ => tcp_client.new_conn new_state end.

Lemma asio_client_pipelines_witness :
  tcp_client.echoes final = [1000; 2000] /\ length (tcp_client.stamps final) = 4%nat /\ requests (tcp_client.st_ final) = 2 /\
  exists c, tcp_client.run opts false ticks script new_state = Done c /\
    tcp_client.given c ++ tcp_client.wq_ c = out_frame opts false <$> tcp_client.stamps c /\
    (tcp_client.wq_ c <> [] -> tcp_client.write_op c = true \/ tcp_client.cut c = true) /\
    Z.of_nat (length (tcp_client.stamps c)) <= Z.of_nat (length (tcp_client.echoes c)) + pipeline opts /\
    (running (tcp_client.st_ c) = true -> tcp_client.stamps c <> [] ->
       Z.of_nat (length (tcp_client.stamps c)) = Z.of_nat (length (tcp_client.echoes c)) + pipeline opts) /\
    (tcp_client.got c `prefix_of` concat (tcp_client.given c) -> tcp_client.echoes c `prefix_of` tcp_client.stamps c) /\
    requests (tcp_client.st_ c) = count_ (hist_ (tcp_client.st_ c)).
Proof.
  split; [by vm_compute|]. split; [by vm_compute|]. split; [by vm_compute|].
  apply (tcp_client.asio_client_pipelines no_stod args).
  - split; [by vm_compute|]. split; [by vm_compute|]. intros n. apply Z.mod_pos_bound. lia.
  - by vm_compute.
  - assert (length first_frames = 16%nat) as Hl by by vm_compute. unfold script.
    repeat (apply Forall_cons; split;
      [first [apply begin_measuring_fair | cbn [tcp_client.possible]; first [exact I | rewrite ?length_take, ?length_drop, ?Hl; lia]]|]).
    by apply Forall_nil.
Defined.

End examples.
