(* ===== verification/BenchServer.v ===== *)
(** * The benchmark's echo server

    benchmarks/cpp/lnw_echo_server.cpp: the listeners of the UDP server as an
    application of [UdpPeer].  Those of the TCP server are [BenchClient.serve].
    The state is standard output and standard error. *)

From S2P Require Import Prelude Poller EventLoop Net Inspect UdpPeer.
#[local] Open Scope Z_scope.

(** The line that says the server is up, with the port it got. *)
Definition ready_line (bound : socket_address) : bytes := str "READY " ++ decimal (Net.port bound) ++ newline.

(** The message and error listeners; the listening one only prints. *)
Definition udp_serve (ev : udp_event) (err : bytes) : bytes * prog :=
  match ev with
  | UMessage msg from => (err, PSend msg (Net.port from) (Net.address from) (fun _ => PRet))
  | UError m => (err ++ str "[lnw-echo] " ++ c_str m ++ newline, PRet)
  | _ => (err, PRet)
  end.

(** What [main] does before it pauses, for --proto udp. *)
Definition run_udp (port : Z) (host : bytes) : prog := PBind port host PRet.

Section echo.
Context {K D C : Type} `{KernelLaws K}.
Abbreviation world := (world K bytes D C).
Implicit Types w : world.
Variable io_cb : C.

(** [dest] is an address the resolver gave for the sender of a datagram, and
    what was sent there is what came. *)
Definition answers (came went : bytes * socket_address) : Prop :=
  went.1 = came.1 /\
  exists k k' : K, resolve_one (Net.address came.2) (Net.port came.2) true k = (Some went.2, k').

(** Everything sent answers a datagram that came, in order, each at most
    once. *)
Definition echoed w : Prop := exists answered, answered `sublist_of` delivered (hist w) /\ Forall2 answers answered (departed (hist w)).

Lemma other_events depth ev w :
  (forall d a, ev <> UMessage d a) -> post (react io_cb udp_serve depth ev w) (fun w' => hist w' = hist w).
Proof. intros Hev. destruct depth as [|depth]; [done|]. destruct ev; try done. by edestruct Hev. Qed.

Lemma error_history depth m w :
  post (emit_error (react io_cb udp_serve depth) m w)
    (fun w' => delivered (hist w') = delivered (hist w) /\ departed (hist w') = departed (hist w)).
Proof.
  unfold emit_error, emit. eapply post_mono; [by apply other_events|]. intros w' ->. split; [by apply delivered_log|done].
Qed.

Lemma open_history depth w :
  post (open_socket (react io_cb udp_serve depth) w)
    (fun r => delivered (hist r.2) = delivered (hist w) /\ departed (hist r.2) = departed (hist w)).
Proof.
  unfold open_socket. destruct (valid _); [done|]. destruct (Net.open _ _ _) as [[d e] k]. branch.
  - destruct (move_assign _ _ _) as [d1 k1]. destruct (set_nonblocking _ _) as [e2 k2]. branch.
    + by destruct (set_reuse_addr _ _).
    + eapply post_bind; [apply error_history|]. intros w1 H1. by destruct (Net.close _ _).
  - eapply post_bind; [apply error_history|]. by intros.
Qed.

Lemma send_history depth msg port host w :
  post (send io_cb (react io_cb udp_serve depth) msg port host w) (fun r =>
    delivered (hist r.2) = delivered (hist w) /\
    (departed (hist r.2) = departed (hist w) \/
     exists dest (k k' : K), resolve_one host port true k = (Some dest, k') /\ departed (hist r.2) = departed (hist w) ++ [(msg, dest)])).
Proof.
  unfold send. eapply (post_bind _ _ (fun r => delivered (hist r.2) = delivered (hist w) /\ departed (hist r.2) = departed (hist w))).
  { destruct (negb _); [apply open_history|done]. }
  intros [ok w1] [Ha Hd]. simpl in Ha, Hd. destruct ok; simpl; [|by auto].
  destruct (resolve_one host port true (kn w1)) as [[dest|] k] eqn:Er.
  - destruct (send_to _ _ _ _) as [n k1]. branch.
    + simpl. branch; simpl.
      * split; [done|]. right. exists dest, (kn w1), k. split; [done|]. by rewrite Hd.
      * unfold begin_reading, read_back_local. simpl. destruct (local_endpoint _ _). simpl. branch; simpl;
          (split; [done|]; right; exists dest, (kn w1), k; split; [done|]; by rewrite Hd).
    + eapply post_bind; [apply error_history|]. simpl. intros w2 [Ha2 Hd2]. simpl. split; [congruence|]. left. congruence.
  - eapply post_bind; [apply error_history|]. simpl. intros w2 [Ha2 Hd2]. simpl. split; [congruence|]. left. congruence.
Qed.

Lemma message_echoed depth msg from w :
  echoed w -> post (react io_cb udp_serve depth (UMessage msg from) (upd_hist (log_event (UMessage msg from)) w)) echoed.
Proof.
  intros (l & Hl & Hall). destruct depth as [|depth]; [done|]. simpl. eapply post_bind; [apply send_history|].
  intros [b w1] [Ha Hd]. simpl in *. unfold echoed. rewrite Ha. unfold delivered. simpl. rewrite omap_app. fold (delivered (hist w)).
  destruct Hd as [->|(dest & k & k' & Er & ->)].
  - exists l. split; [|done]. by apply sublist_inserts_r.
  - exists (l ++ [(msg, from)]). split; [by apply sublist_app|]. apply Forall2_app; [done|]. constructor; [|done].
    split; [done|]. by exists k, k'.
Qed.

Lemma drain_echoed depth fuel : forall w, echoed w -> post (drain (react io_cb udp_serve depth) fuel w) echoed.
Proof.
  induction fuel as [|fuel IH]; intros w Hw; [done|]. simpl. destruct (recv_from _ _ _) as [g k].
  assert (echoed (set_kn k w)) as Hk by done. destruct ((0 <=? rcount g) && _).
  - eapply post_bind; [|exact IH]. unfold emit. rewrite make_buffer_id. by apply (message_echoed depth _ _ (set_kn k w)).
  - branch; [done|]. branch; [by apply IH|]. eapply post_mono; [apply error_history|]. intros w1 [Ha Hd]. unfold echoed. by rewrite Ha, Hd.
Qed.

Lemma bind_echoed depth port host w : echoed w -> post (bind io_cb (react io_cb udp_serve depth) port host w) echoed.
Proof.
  intros Hw. assert (forall w', delivered (hist w') = delivered (hist w) -> departed (hist w') = departed (hist w) -> echoed w') as Hsame.
  { intros w' Ha Hd. unfold echoed. by rewrite Ha, Hd. }
  unfold bind. eapply post_bind; [apply open_history|]. intros [ok w1] [Ha Hd]. simpl in Ha, Hd. destruct ok; simpl; [|by apply Hsame].
  destruct (Net.bind _ _ _) as [e k]. branch.
  - unfold emit. eapply post_mono; [by apply other_events|]. intros w2 E. rewrite <- Ha in Hsame. rewrite <- Hd in Hsame.
    assert (hist (begin_reading io_cb (read_back_local (set_kn k w1))) = hist w1) as Eh.
    { unfold begin_reading, read_back_local. simpl. destruct (local_endpoint _ _). simpl. by destruct (reading_ _). }
    apply Hsame; rewrite E; simpl; rewrite Eh; [by apply delivered_log|done].
  - eapply post_mono; [apply error_history|]. intros w2 [Ha2 Hd2]. simpl in *. apply Hsame; congruence.
Qed.

(** The UDP echo server echoes: whatever arrives and whatever fails, everything
    it sends is a datagram it received, sent back to an address the resolver
    gave for its sender, in the order of arrival and each at most once. *)
Theorem udp_server_echoes fuel depth n port host (l : loop D C) (k : K) w :
  stimulate_all io_cb udp_serve fuel depth (SCall (run_udp port host) :: replicate n SReadable) (created (str "udp4") l k []) = Done w ->
  echoed w.
Proof.
  intros E. cbn [stimulate_all] in E. apply exec_bind_done in E as (w1 & E1 & E2).
  assert (echoed w1) as Hw1.
  { simpl in E1. apply exec_bind_done in E1 as (w2 & E1 & [= <-]). eapply post_done; [|exact E1]. apply bind_echoed. by exists []. }
  clear E1. revert w1 E2 Hw1. induction n as [|n IH]; intros w1 E Hw1; simpl in E; [by injection E as <-|].
  apply exec_bind_done in E as (w2 & E2 & E). apply (IH w2 E). eapply post_done; [|exact E2]. by apply drain_echoed.
Qed.

End echo.

Module examples.
Import UdpPeer.examples.

Definition served_run : exec (world kernel_state bytes unit unit) :=
  stimulate_all tt udp_serve 20 5 (SCall (run_udp 0 any4) :: replicate 1 SReadable) (created (str "udp4") new_loop kernel []).
Definition served := match served_run with Done w => w | _ => created (str "udp4") new_loop kernel [] end.

Lemma udp_server_echoes_witness :
  departed (hist served) = [(str "ping", from_sockaddr (K := kernel_state) remote)] /\ echoed served.
Proof.
  split; [by vm_compute|]. apply (udp_server_echoes tt 20 5 1 0 any4 new_loop kernel served). by vm_compute.
Defined.

End examples.
